(* ===== verification/_CoqProject ===== *)
-Q . S2P
Prelude.v
GoStrings.v
GoFloat.v
GoPath.v
GoErrors.v
OS.v
OSFacts.v
Demo.v
Mount.v
MountFacts.v
Json.v
Utf8.v
Metrics.v
MetricTools.v
Csi.v
Utils.v
Health.v
Reflink.v
ReflinkFacts.v
ControllerServer.v
FindMnt.v
NodeServer.v
NodeStats.v
ControllerFacts.v
ControllerProps.v
ControllerList.v
ControllerSnap.v
Driver.v
Server.v
GrpcServer.v
Tls.v
NodeFacts.v
NodeProps.v
System.v
WorkQueue.v
Kube.v
Provisioner.v
VolumeStore.v
ProvisionController.v
ControllerOptions.v
ProvisionProps.v
ProvisionSafety.v
ProvisionQueue.v
VolumeStoreSpec.v
SaveQueue.v
ProvisionTotal.v
Workers.v
ControllerStart.v
Main.v
Plugin.v
Catalog.v
CatalogSpec.v
CatalogRefine.v
CatalogTrace.v
CatalogFaults.v
Replies.v
Publications.v
Threads.v
HandlerThreads.v
Concurrency.v
ConcurrentReach.v
ConcurrentDelete.v
