(* ===== verification/Prelude.v ===== *)
(** * Verification of the KubeVirt hostpath provisioner

    This library models the Go sources of the hostpath provisioner in Rocq and proves what makes
    them correct. The program is a CSI driver: a controller service creates, lists and deletes
    volumes, which are directories of a storage pool, and takes and restores snapshots of them; a
    node service binds the directory of a volume at the path a pod uses; an identity service names
    the driver. The three services are built from one configuration when the driver starts and are
    reached through a gRPC server on a socket. A metric tells whether a pool shares its file system
    with the operating system, and a small HTTPS server publishes it. An older provisioner outside
    the driver, cmd/provisioner, makes host path volumes for claims: a provision controller
    (controller/) watches claims and volumes, keeps them in work queues with retries, decides what is
    to be provisioned and deleted, calls the provisioner and saves the volume objects.

    ** How the code is modelled

    A Go function that touches the world is a value of the monad [GoM]: from a state to an outcome
    (a result, an error value, or a panic) and the new state. Every early return, every error that
    is wrapped or dropped and every nil pointer or slice bound that can panic is in the text of
    the definitions. The state [world] holds the file tree (a finite map from path components to
    directories and files), the mount table, the value of the metric as a word of 64 bits and a
    counter of system calls. A bind mount shows the tree of its source: [RemoveAll] through one
    removes what is in the source, unless the mount is read-only or another hides it; a mount of a
    file on a directory, or the reverse, is refused; the mount table is listed with the blanks and
    backslashes of its paths escaped, as in /proc/mounts.

    What the kernel, other programs and the Go runtime choose is a parameter, the class [Env]: any
    call may fail with any errno; [statfs], inode times and file modes are arbitrary; maps are
    ranged over in any order; [cp] and a [RemoveAll] that fails half-way have only the properties
    listed there. The number of the call is an argument of the parameter, so answers may change
    from call to call. [findmnt] (class [FindMnt]), the certificate library (class [CertLib]) and
    the hash of metric names (class [XXHash]) are parameters too, and so
    is the API server (class [Api]): any call to it may fail, and a call
    that changes something may have taken effect although it failed. The provision controller runs on
    a state of its own, [kworld], which holds the world of the node, the objects of the API server,
    the caches of the informers (claims as shared objects that the provisioner may change), the
    queues and the failure counts. [Demo] proves the laws of [Env] for a concrete environment, which
    the witnesses run on.

    ** The files

    - [Prelude]: the monad, its weakest preconditions, the relations a program respects on every
      run ([respects]), programs that do not panic ([nopanic]), the hint database [go].
    - [GoStrings], [GoPath], [GoErrors], [Json]: what the sources use of Go's strings, strconv,
      path/filepath, errors and encoding/json. The JSON parser has fuel twice the length of the
      text plus one; [Json.json_parse_complete] shows that more fuel changes nothing.
    - [GoFloat], [Utf8]: float64 with its bits, runes, and the printing side of encoding/json.
    - [OS], [OSFacts], [Demo]: the world, the system calls, their lemmas, the example environment.
    - [Mount], [MountFacts]: vendor/k8s.io/utils/mount, the interface [Mounter] and the Linux
      implementation on the mount table.
    - [Metrics]: pkg/monitoring/metrics and the registries it uses, of client_golang and of
      operator-observability-toolkit. [MetricTools]: tools/metricsdocs and tools/prom-metrics-collector.
    - [Csi]: the CSI messages. [Utils], [Health], [FindMnt]: utils.go and healthcheck.go.
    - [Reflink], [ReflinkFacts]: reflink.go; [SnapshotProvider] is the interface the controller
      uses and [ProviderSafe] the contract it relies on, which the reflink provider discharges.
    - [ControllerServer], [ControllerFacts], [ControllerProps], [ControllerList], [ControllerSnap]:
      controllerserver.go.
    - [NodeServer], [NodeStats], [NodeFacts], [NodeProps]: nodeserver.go.
    - [Driver]: hostpath.go and identityserver.go. [Tls]: tls.go and the settings of the metrics server.
    - [Server], [GrpcServer]: server.go, the endpoint, the life of the server, the log of the calls.
    - [System]: the RPCs and the metric evaluations as steps of one transition system.
    - [Catalog], [CatalogSpec], [CatalogRefine], [CatalogTrace]: the abstract controller, whose state is the
      volumes and snapshots of every pool with their contents, its contract as a transition relation,
      and the proof that the controller implements it. [CatalogFaults]: the contract when system calls
      fail. [Publications]: controller and node together, the catalog and the bound targets.
    - [Replies]: what the CSI specification demands of the fields of the answers.
    - [Threads], [HandlerThreads], [Concurrency], [ConcurrentReach], [ConcurrentDelete]: handlers that run at
      the same time.
      [Threads] is the theory: a thread is a tree of system calls and operations on the mutex [snapMutex]; the
      schedules of a pool of threads, rely and guarantee, critical sections. [HandlerThreads] writes every
      handler of controllerserver.go and nodeserver.go, with what it calls, as a thread; the others
      prove what every interleaving does.
    - [WorkQueue]: the queue, the failure counts and the delays of client-go's workqueue package.
    - [Kube]: the Kubernetes objects, the API server and the state of the controller.
    - [Provisioner]: cmd/provisioner/hostpath-provisioner.go, the implementation of the interface
      [VolumeStore.Provisioner] the controller calls.
    - [ProvisionTotal], [Workers]: syncs return in states whose objects are complete; the loops of the
      workers of controller/.
    - [VolumeStore], [VolumeStoreSpec], [SaveQueue]: controller/volume_store.go, the contract of its
      interface ([StoreContract]) with the two stores as instances, and the workers of the background store.
    - [ProvisionController], [ProvisionProps], [ProvisionSafety], [ProvisionQueue]:
      controller/controller.go: syncs of claims and volumes, what they do when nothing fails and when
      calls fail, and the workers, informer events and delays as one transition system.
    - [ControllerOptions], [ControllerStart]: the options of controller.go, construction and start.
    - [Main]: the main functions of cmd/plugin and cmd/provisioner. [Plugin]: the running plugin, with
      its server, the goroutine of the metric and the signal handler.

    ** What is proved

    - Volumes: creation on every branch, idempotence, rejection of bad requests, creation followed
      by deletion gives the tree back, a failed creation leaves nothing new, deletion removes one
      volume and nothing else, listing and paging, agreement of the single and the list queries.
    - Snapshots: a snapshot holds what the volume held and a restore gives it back whatever
      happened to the volume in between, creation is idempotent, deletion reaches every provider,
      paging.
    - Refinement: every run of the controller is a run of the contract on the catalog, with the same
      answers; from the contract alone, a volume keeps its contents until a request names it. When
      system calls fail, an answer of success still means what the contract says and a failure changes
      only what the request names. Controller and node together refine a contract on the catalog and
      the bound targets: a publication lasts until the target is unpublished.
    - Publishing: the bind mount that is made, idempotence, publish followed by unpublish gives
      tree and mounts back, unpublishing never touches the data of the volume, ephemeral volumes
      and their cleanup.
    - The whole driver: from its start, under any faults and for any sequence of requests, the
      tree stays well-formed; controller requests stay within their own footprints, so volumes are
      isolated from each other.
    - Concurrency: in every interleaving of the calls of any number of requests the controller
      requests stay within their footprints; creations without a snapshot source and deletions
      succeed, a volume that was created is there and one that was deleted is not; every schedule
      ends, with all requests answered and the mutex free; requests about snapshots take effect one
      after another, in one order that the answers of every schedule follow ([Threads.schedule]), and
      implement the contract of the catalog. That a request which is served alone does what its
      handler does as one computation connects the theorems about handlers to the threads.
    - Answers: every answer of the driver carries the ids and sizes the CSI specification demands.
    - Start, statistics and health, capacity rounding and 64-bit bounds, the metric, the socket,
      TLS settings, and the interceptor of the gRPC server; what ends the running plugin; setting the
      metrics up again changes nothing; the printed list of metrics is read back, and docs/metrics.md is
      the page the tool prints.
    - Claims: the life of a claim from its directory and volume object to their removal; provisioning is
      not repeated; storage is accounted for with every store that keeps the contract, as long as a
      create that fails saves nothing; a volume that cannot be saved is given back, as far as its
      directory can be removed; a volume is removed only for good reason and its object
      only after its directory.
    - Workers: in every interleaving a claim is handled by one worker at a time, and a claim that was
      not given up stays with the queue or a worker; the retries of a claim end, and giving up is
      final; no sync panics on complete objects and the loop of a worker comes to
      wait; the background store loses no volume and saves it once the API server answers.
    - Configuration: the ways to save volumes exclude each other and every accepted one keeps the
      contract if it makes an attempt at all; what the two programs start.
    - Behaviours that are not what the code means to do are theorems as well:
      [concurrent_publish_loses_data], [stacked_unpublish_loses_data], [escaped_target_loses_data],
      [data_snapshot_blocks_listing], [list_volumes_last_unreachable],
      [list_volumes_token_refused], [list_snapshots_token_panics], [mount_failure_panics],
      [tcp_endpoint_unix_socket], [driver_wait_never_returns], [forget_volume_duplicates],
      [lost_answers_leave_dangling_volume], [zero_steps_report_success], [leader_election_fatal],
      [failed_restore_loses_volume], [torn_snapshot_ready], [failed_remount_writable].

    ** What is not modelled

    The refinement theorems are for pools and snapshot directories that do not overlap, are in place,
    hold nothing but directories and have no mounts inside them, and for plain names; those under
    faults assume that no call reports a file missing that is there, and the one for both services
    that targets overlap neither each other nor the pools and have no blanks and backslashes in their
    paths, and that volumes are persistent. A snapshot of a volume named "data" does not remember its
    volume ([ReflinkFacts.recorded]), in the contract as in the code.

    A step of a handler's thread makes at most one call of the [os] package, the mount library or another
    program, and such a call is atomic: [RemoveAll], [ReadDir], [cp], one mount or unmount; [MkdirAll] is cut at
    the directories it makes. A pool holds its requests from the start; one that has not arrived yet is one
    that has not made a step. A panic ends the process; in a pool it ends its own handler only, so the
    schedules that go on after one are more than can happen. The refinement to the catalog is proved
    for requests one after another and for concurrent requests about snapshots; what creations and deletions of the same volume do to each other
    is only limited by the theorems about footprints. The syncs of claims and volumes are steps of their
    own, between which the queues, caches and objects may change; in the running plugin the evaluation of
    the metric is one step too. Symbolic links, permissions, file ownership and the contents of sockets are not
    part of the tree. Log messages of the provision controller, request contexts, gRPC itself, the
    HTTP server, clocks, leases, the shutdown of the queues (the context of Run never ends), the
    lengths of the delays and the watching of the informers are left out. The helpers of the end-to-end tests are not modelled.

    ** Bounds and fuel

    Besides the JSON parser, the attempts of a backoff have fuel: its number of steps, which is enough
    because every round takes one away ([ControllerOptions.attempts]). The checks and the escaping of
    a string in [Utf8] have its length, since every round takes at least one byte; the groups of an
    IPv6 address in [Tls] are eight, the most the parser accepts. The loop of a worker has any number
    of rounds, and [Workers.worker_loops_end] shows how many are enough. All other recursion is structural. *)
From stdpp Require Export sorting numbers option.
From stdpp Require Export base gmap list strings.

#[export] Set Warnings "-clear-no-such-hyp".

(** ** Lists *)

Lemma existsb_perm {A} (f : A → bool) l1 l2 : l1 ≡ₚ l2 → existsb f l1 = existsb f l2.
Proof.
  induction 1 as [|x l1 l2 _ IH|x y l|l1 l2 l3 _ IH1 _ IH2]; simpl; [done|by rewrite IH| |congruence].
  by destruct (f x), (f y).
Qed.

(** ** Go computations

    A Go function that reads and changes the world and may return an error or
    panic is a function from the state to an outcome and the new state. *)

Inductive outcome (E A : Type) : Type :=
  | Ret (a : A)
  | Fail (e : E)
  | Panic (msg : string).
Arguments Ret {E A} a.
Arguments Fail {E A} e.
Arguments Panic {E A} msg.

Definition GoM (S E A : Type) : Type := S → outcome E A * S.

Declare Scope go_scope.
Delimit Scope go_scope with go.

Section monad.
Context {S E : Type}.

Definition ret {A} (a : A) : GoM S E A := λ w, (Ret a, w).
Definition fail {A} (e : E) : GoM S E A := λ w, (Fail e, w).
Definition panic {A} (m : string) : GoM S E A := λ w, (Panic m, w).

Definition bind {A B} (m : GoM S E A) (k : A → GoM S E B) : GoM S E B := λ w,
  match m w with
  | (Ret a, w') => k a w'
  | (Fail e, w') => (Fail e, w')
  | (Panic p, w') => (Panic p, w')
  end.

(** [x, err := m]: the error becomes a value the caller inspects. *)
Definition try {A} (m : GoM S E A) : GoM S E (A + E) := λ w,
  match m w with
  | (Ret a, w') => (Ret (inl a), w')
  | (Fail e, w') => (Ret (inr e), w')
  | (Panic p, w') => (Panic p, w')
  end.

(** [if err := m; err != nil { return f(err) }]. *)
Definition wrapErr {A} (f : E → E) (m : GoM S E A) : GoM S E A := λ w,
  match m w with
  | (Ret a, w') => (Ret a, w')
  | (Fail e, w') => (Fail (f e), w')
  | (Panic p, w') => (Panic p, w')
  end.

Definition get : GoM S E S := λ w, (Ret w, w).
Definition put (w' : S) : GoM S E unit := λ _, (Ret tt, w').
Definition gets {A} (f : S → A) : GoM S E A := λ w, (Ret (f w), w).
Definition modify (f : S → S) : GoM S E unit := λ w, (Ret tt, f w).

(** [for _, x := range l { b = f(b, x) }] whose body may return early. *)
Fixpoint foldM {A B} (f : B → A → GoM S E B) (b : B) (l : list A) : GoM S E B :=
  match l with
  | [] => ret b
  | x :: l' => bind (f b x) (λ b', foldM f b' l')
  end.

Definition when (c : bool) (m : GoM S E unit) : GoM S E unit :=
  if c then m else ret tt.
End monad.

Notation "x <- m ;; k" := (bind m (λ x, k))
  (at level 100, m at next level, right associativity) : go_scope.
Notation "m1 >> m2" := (bind m1 (λ _, m2))
  (at level 100, right associativity) : go_scope.
Open Scope go_scope.

(** ** Weakest preconditions

    [wp m Q w]: from [w], [m] ends with an outcome and a state that satisfy
    [Q]. Every outcome is covered, errors and panics included. *)

Section wp.
Context {S E : Type}.

Definition wp {A} (m : GoM S E A) (Q : outcome E A → S → Prop) (w : S) : Prop :=
  Q (m w).1 (m w).2.

(** The continuation of [bind] seen as a postcondition. *)
Definition bind_post {A B} (k : A → GoM S E B) (Q : outcome E B → S → Prop)
    (o : outcome E A) (w : S) : Prop :=
  match o with
  | Ret a => wp (k a) Q w
  | Fail e => Q (Fail e) w
  | Panic p => Q (Panic p) w
  end.

Lemma wp_run {A} (m : GoM S E A) Q w o w' : m w = (o, w') → wp m Q w ↔ Q o w'.
Proof. unfold wp. by intros ->. Qed.

Lemma wp_ret {A} (a : A) (Q : outcome E A → S → Prop) w :
  Q (Ret a) w → wp (ret a) Q w.
Proof. done. Qed.

Lemma wp_bind {A B} (m : GoM S E A) (k : A → GoM S E B) Q w :
  wp m (bind_post k Q) w → wp (bind m k) Q w.
Proof. unfold wp, bind, bind_post, wp. by destruct (m w) as [[] ?]. Qed.

Lemma wp_mono {A} (m : GoM S E A) (Q Q' : outcome E A → S → Prop) w :
  wp m Q w → (∀ o w', Q o w' → Q' o w') → wp m Q' w.
Proof. unfold wp. auto. Qed.

Lemma wp_and {A} (m : GoM S E A) (Q Q' : outcome E A → S → Prop) w :
  wp m Q w → wp m Q' w → wp m (λ o w', Q o w' ∧ Q' o w') w.
Proof. unfold wp. auto. Qed.

Lemma wp_try {A} (m : GoM S E A) (Q : outcome E (A + E) → S → Prop) w :
  wp m (λ o w', match o with
                | Ret a => Q (Ret (inl a)) w'
                | Fail e => Q (Ret (inr e)) w'
                | Panic p => Q (Panic p) w'
                end) w → wp (try m) Q w.
Proof. unfold wp, try. by destruct (m w) as [[] ?]. Qed.

Lemma wp_wrapErr {A} (f : E → E) (m : GoM S E A) Q w :
  wp m (λ o w', match o with
                | Ret a => Q (Ret a) w'
                | Fail e => Q (Fail (f e)) w'
                | Panic p => Q (Panic p) w'
                end) w → wp (wrapErr f m) Q w.
Proof. unfold wp, wrapErr. by destruct (m w) as [[] ?]. Qed.

(** A loop preserves an invariant of the accumulator, the elements left and
    the state; it leaves early only through the body's own error or panic. *)
Lemma wp_foldM {A B} (f : B → A → GoM S E B) (I : B → list A → S → Prop)
    (Q : outcome E B → S → Prop) :
  (∀ b x l w, I b (x :: l) w →
     wp (f b x) (λ o w', match o with
                         | Ret b' => I b' l w'
                         | Fail e => Q (Fail e) w'
                         | Panic p => Q (Panic p) w'
                         end) w) →
  (∀ b w, I b [] w → Q (Ret b) w) →
  ∀ l b w, I b l w → wp (foldM f b l) Q w.
Proof.
  intros Hstep Hend l. induction l as [|x l IH]; intros b w HI; simpl.
  - apply wp_ret; auto.
  - apply wp_bind. eapply wp_mono; [by apply Hstep|].
    intros [b'|e|p] w' HQ; simpl in *; auto.
Qed.

(** Running programs step by step, for functional specifications. *)
Lemma run_bind_ret {A B} (m : GoM S E A) (k : A → GoM S E B) w a w' :
  m w = (Ret a, w') → bind m k w = k a w'.
Proof. unfold bind. by intros ->. Qed.

Lemma run_bind_fail {A B} (m : GoM S E A) (k : A → GoM S E B) w e w' :
  m w = (Fail e, w') → bind m k w = (Fail e, w').
Proof. unfold bind. by intros ->. Qed.

Lemma run_bind_panic {A B} (m : GoM S E A) (k : A → GoM S E B) w p w' :
  m w = (Panic p, w') → bind m k w = (Panic p, w').
Proof. unfold bind. by intros ->. Qed.

Lemma bind_ret_inv {A B} (m : GoM S E A) (k : A → GoM S E B) w b w' :
  bind m k w = (Ret b, w') → ∃ a w1, m w = (Ret a, w1) ∧ k a w1 = (Ret b, w').
Proof. unfold bind. destruct (m w) as [[a| |] w1]; [|done..]. by exists a, w1. Qed.

Lemma bind_fail_inv {A B} (m : GoM S E A) (k : A → GoM S E B) w e w' :
  bind m k w = (Fail e, w') →
  m w = (Fail e, w') ∨ ∃ a w1, m w = (Ret a, w1) ∧ k a w1 = (Fail e, w').
Proof. unfold bind. destruct (m w) as [[a|e1|p] w1]; naive_solver. Qed.

Lemma bind_ret_fail_inv {A B} (m : GoM S E A) (b : A → B) w e w' :
  bind m (λ a, ret (b a)) w = (Fail e, w') → m w = (Fail e, w').
Proof. unfold bind. destruct (m w) as [[a|e1|p] w1]; naive_solver. Qed.

Lemma wrapErr_ret_inv {A} (f : E → E) (m : GoM S E A) w a w' :
  wrapErr f m w = (Ret a, w') → m w = (Ret a, w').
Proof. unfold wrapErr. destruct (m w) as [[| |] w1]; naive_solver. Qed.

Lemma run_wrapErr_ret {A} (f : E → E) (m : GoM S E A) w a w' :
  m w = (Ret a, w') → wrapErr f m w = (Ret a, w').
Proof. unfold wrapErr. by intros ->. Qed.

Lemma run_try_ret {A} (m : GoM S E A) w a w' :
  m w = (Ret a, w') → try m w = (Ret (inl a), w').
Proof. unfold try. by intros ->. Qed.

Lemma run_try_fail {A} (m : GoM S E A) w e w' :
  m w = (Fail e, w') → try m w = (Ret (inr e), w').
Proof. unfold try. by intros ->. Qed.

Lemma bind_assoc {A B C} (m : GoM S E A) (k : A → GoM S E B) (h : B → GoM S E C) w :
  bind (bind m k) h w = bind m (λ a, bind (k a) h) w.
Proof. unfold bind. by destruct (m w) as [[] ?]. Qed.

(** ** Relations every run of a program respects

    [respects R m]: whatever the outcome, the state after [m] is related by
    [R] to the state before it. *)
Definition respects (R : relation S) {A} (m : GoM S E A) : Prop :=
  ∀ w, R w (m w).2.
End wp.

Arguments respects {S E} R {A} m : simpl never.

(** The relations of interest are preorders (invariants and frames), so that
    they compose along the program text. *)
Section respects.
Context {S E : Type} (R : relation S) `{!PreOrder R}.

Lemma respects_ret {A} (a : A) : respects R (ret (E:=E) a).
Proof. intros w. simpl. reflexivity. Qed.
Lemma respects_fail {A} (e : E) : respects R (fail (A:=A) e).
Proof. intros w. simpl. reflexivity. Qed.
Lemma respects_panic {A} m : respects R (panic (E:=E) (A:=A) m).
Proof. intros w. simpl. reflexivity. Qed.
Lemma respects_gets {A} (f : S → A) : respects R (gets (E:=E) f).
Proof. intros w. simpl. reflexivity. Qed.
Lemma respects_get : respects R (get (E:=E)).
Proof. intros w. simpl. reflexivity. Qed.

(** [bind] with what the first part is known to return. *)
Lemma respects_bind_post {A B} (m : GoM S E A) (k : A → GoM S E B) (Q : A → Prop) :
  respects R m → (∀ w, wp m (λ o _, match o with Ret a => Q a | _ => True end) w) →
  (∀ a, Q a → respects R (k a)) → respects R (bind m k).
Proof.
  intros Hm HQ Hk w. unfold bind. specialize (Hm w). specialize (HQ w).
  unfold wp in HQ. destruct (m w) as [[a|e|p] w']; simpl in *; try done.
  etransitivity; [done|]. by apply Hk.
Qed.

Lemma respects_bind {A B} (m : GoM S E A) (k : A → GoM S E B) :
  respects R m → (∀ a, respects R (k a)) → respects R (bind m k).
Proof. intros ??. apply (respects_bind_post m k (λ _, True)); auto. by intros w; unfold wp; case_match. Qed.

Lemma respects_try {A} (m : GoM S E A) : respects R m → respects R (try m).
Proof. intros Hm w. specialize (Hm w). unfold try. by destruct (m w) as [[] ?]. Qed.

Lemma respects_wrapErr {A} f (m : GoM S E A) : respects R m → respects R (wrapErr f m).
Proof. intros Hm w. specialize (Hm w). unfold wrapErr. by destruct (m w) as [[] ?]. Qed.

Lemma respects_when b (m : GoM S E unit) : respects R m → respects R (when b m).
Proof. intros Hm. destruct b; [done|]. apply respects_ret. Qed.

Lemma respects_foldM {A B} (f : B → A → GoM S E B) l :
  (∀ b x, x ∈ l → respects R (f b x)) → ∀ b, respects R (foldM f b l).
Proof.
  induction l as [|x l IH]; intros Hf b; simpl; [apply respects_ret|].
  apply respects_bind; [apply Hf; left|]. intros b'. apply IH.
  intros b0 y Hy. apply Hf. by right.
Qed.

(** Weakening along an inclusion of relations is not needed by [bind]; it is
    used to read one preorder out of a stronger one. *)
Lemma respects_wp {A} (m : GoM S E A) w :
  respects R m → wp m (λ _ w', R w w') w.
Proof. intros Hm. apply Hm. Qed.
End respects.

Create HintDb go.
#[export] Hint Resolve respects_ret respects_fail respects_panic respects_gets
  respects_get respects_try respects_wrapErr respects_when : go.
#[export] Hint Extern 1 (PreOrder _) => apply _ : go.

(** Walks a program text, one construct at a time, leaving the leaves. *)
Ltac respects_step :=
  match goal with
  | |- respects _ (ret _) => apply respects_ret; apply _
  | |- respects _ (fail _) => apply respects_fail; apply _
  | |- respects _ (panic _) => apply respects_panic; apply _
  | |- respects _ (gets _) => apply respects_gets; apply _
  | |- respects _ get => apply respects_get; apply _
  | |- respects _ (bind _ _) => apply respects_bind; [apply _| |intros ?]
  | |- respects _ (try _) => apply respects_try
  | |- respects _ (wrapErr _ _) => apply respects_wrapErr
  | |- respects _ (when _ _) => apply respects_when; [apply _|]
  | |- respects _ (foldM _ _ _) => apply respects_foldM; [apply _|intros ? ? ?]
  | |- respects _ (match ?x with _ => _ end) => destruct x eqn:?
  | |- respects _ (let _ := _ in _) => cbv zeta
  end.
Ltac respects_tac := repeat (first [solve [eauto 3 with go] | respects_step]).

(** ** Programs that never panic *)

Definition nopanic {S E A} (m : GoM S E A) : Prop := ∀ w p, (m w).1 ≠ Panic p.
Arguments nopanic {S E A} m : simpl never.

Section nopanic.
Context {S E : Type}.

Lemma nopanic_ret {A} (a : A) : nopanic (ret (S:=S) (E:=E) a).
Proof. done. Qed.
Lemma nopanic_fail {A} (e : E) : nopanic (fail (S:=S) (A:=A) e).
Proof. done. Qed.
Lemma nopanic_gets {A} (f : S → A) : nopanic (gets (E:=E) f).
Proof. done. Qed.
Lemma nopanic_bind {A B} (m : GoM S E A) (k : A → GoM S E B) :
  nopanic m → (∀ a, nopanic (k a)) → nopanic (bind m k).
Proof.
  intros Hm Hk w p. specialize (Hm w). unfold bind.
  destruct (m w) as [[a|e|p'] w']; [apply Hk|done|by destruct (Hm p')].
Qed.
Lemma nopanic_try {A} (m : GoM S E A) : nopanic m → nopanic (try m).
Proof.
  intros Hm w p. specialize (Hm w). unfold try.
  destruct (m w) as [[a|e|p'] w']; [done|done|by destruct (Hm p')].
Qed.
Lemma nopanic_wrapErr {A} f (m : GoM S E A) : nopanic m → nopanic (wrapErr f m).
Proof.
  intros Hm w p. specialize (Hm w). unfold wrapErr.
  destruct (m w) as [[a|e|p'] w']; [done|done|by destruct (Hm p')].
Qed.
Lemma nopanic_foldM {A B} (f : B → A → GoM S E B) l :
  (∀ b x, x ∈ l → nopanic (f b x)) → ∀ b, nopanic (foldM f b l).
Proof.
  induction l as [|x l IH]; intros Hf b; [done|]. simpl. apply nopanic_bind; [apply Hf; left|].
  intros b'. apply IH. intros b0 y Hy. apply Hf. by right.
Qed.
End nopanic.

#[export] Hint Resolve nopanic_ret nopanic_fail nopanic_gets nopanic_try nopanic_wrapErr : go.

Ltac nopanic_step :=
  match goal with
  | |- nopanic (bind _ _) => apply nopanic_bind; [|intros ?]
  | |- nopanic (try _) => apply nopanic_try
  | |- nopanic (wrapErr _ _) => apply nopanic_wrapErr
  | |- nopanic (foldM _ _ _) => apply nopanic_foldM; intros ? ? ?
  | |- nopanic (match ?x with _ => _ end) => destruct x eqn:?
  | |- nopanic (let _ := _ in _) => cbv zeta
  end.
Ltac nopanic_tac := repeat (first [solve [eauto 3 with go] | nopanic_step]).

(** Runs the next statement of a program whose result is known. *)
Ltac run_ret H := rewrite (run_bind_ret _ _ _ _ _ H).

(** Decidable closed propositions by computation. *)
Ltac by_decide := refine (bool_decide_unpack _ _); vm_compute; exact I.

(** Takes a successful run of a sequence apart. *)
Ltac bind_inv H a w Hm := apply bind_ret_inv in H as (a & w & Hm & H).
