(* ===== verification/GoStrings.v ===== *)
(** * Machine integers, strings and numbers of the Go standard library

    [int64]/[uint64] conversions, the functions of [strings] and [strconv] the
    sources call, and [sort.Strings]. *)
From Stdlib Require Import DecimalString DecimalN Ascii.
From S2P Require Import Prelude.
Open Scope Z_scope.

(** ** Fixed-width integers *)

Definition int64 (z : Z) : Z := (z + 2 ^ 63) mod 2 ^ 64 - 2 ^ 63.
Definition uint64 (z : Z) : Z := z mod 2 ^ 64.

(** Values of type [int64], [uint64], [uint32] and [int32]. *)
Definition is_int64 (z : Z) : Prop := - 2 ^ 63 ≤ z < 2 ^ 63.
Definition is_uint64 (z : Z) : Prop := 0 ≤ z < 2 ^ 64.
Definition is_int32 (z : Z) : Prop := - 2 ^ 31 ≤ z < 2 ^ 31.

Lemma int64_range z : is_int64 (int64 z).
Proof.
  unfold is_int64, int64. pose proof (Z.mod_pos_bound (z + 2 ^ 63) (2 ^ 64)). lia.
Qed.

Lemma int64_id z : is_int64 z → int64 z = z.
Proof. unfold is_int64, int64. intros. rewrite Z.mod_small; lia. Qed.

Lemma uint64_id z : is_uint64 z → uint64 z = z.
Proof. unfold is_uint64, uint64. intros. by rewrite Z.mod_small. Qed.

Lemma int64_uint64 z : int64 (uint64 z) = int64 z.
Proof. unfold int64, uint64. f_equal. by rewrite Zplus_mod_idemp_l. Qed.

(** ** [strings] *)

(** [strings.HasPrefix(s, p)]. *)
Fixpoint HasPrefix (s p : string) {struct p} : bool :=
  match p, s with
  | EmptyString, _ => true
  | String a p', String b s' => Ascii.eqb a b && HasPrefix s' p'
  | String _ _, EmptyString => false
  end.

(** [len(s)]: the number of bytes. *)
Definition len (s : string) : Z := Z.of_nat (String.length s).

Fixpoint contains_char (c : ascii) (s : string) : bool :=
  match s with
  | EmptyString => false
  | String a s' => Ascii.eqb a c || contains_char c s'
  end.

(** [strings.Split(s, string(c))]: always at least one element. *)
Fixpoint split_on (c : ascii) (s : string) : list string :=
  match s with
  | EmptyString => [""]
  | String a s' =>
      if Ascii.eqb a c then "" :: split_on c s'
      else match split_on c s' with
           | [] => [String a ""]
           | h :: t => String a h :: t
           end
  end.

(** [strings.TrimSuffix(s, c)] for a suffix of one character. *)
Fixpoint trim_last (c : ascii) (s : string) : string :=
  match s with
  | "" => ""
  | String a "" => if Ascii.eqb a c then "" else s
  | String a s' => String a (trim_last c s')
  end.

(** [strings.Join(l, sep)]. *)
Definition join (sep : string) (l : list string) : string := String.concat sep l.

(** [strings.ReplaceAll(s, string(a), string(b))]. *)
Fixpoint replace_char (a b : ascii) (s : string) : string :=
  match s with
  | EmptyString => ""
  | String x s' => String (if Ascii.eqb x a then b else x) (replace_char a b s')
  end.

Lemma HasPrefix_empty s : HasPrefix s "" = true.
Proof. by destruct s. Qed.

Lemma HasPrefix_spec s p : HasPrefix s p = true ↔ ∃ t, s = p +:+ t.
Proof.
  revert s. induction p as [|a p IH]; intros s.
  - rewrite HasPrefix_empty. split; [|done]. by exists s.
  - destruct s as [|b s]; simpl; [split; [done|by intros (?&?)]|].
    rewrite andb_true_iff, IH, Ascii.eqb_eq. split.
    + intros [-> [t ->]]. by exists t.
    + intros [t [= -> ->]]. split; [done|]. by exists t.
Qed.

Lemma len_nonneg s : 0 ≤ len s.
Proof. unfold len. lia. Qed.

Lemma len_0 s : len s = 0 ↔ s = "".
Proof. unfold len. destruct s; simpl; split; intros; try done; lia. Qed.

Lemma app_empty_r s : s +:+ "" = s.
Proof. induction s; simpl; [done|]. unfold String.app in *. simpl. congruence. Qed.

Lemma string_app_assoc s1 s2 s3 : (s1 +:+ s2) +:+ s3 = s1 +:+ (s2 +:+ s3).
Proof. induction s1; unfold String.app in *; simpl; congruence. Qed.

Lemma app_cons a s1 s2 : String a s1 +:+ s2 = String a (s1 +:+ s2).
Proof. done. Qed.

Lemma string_length_app p s : String.length (p +:+ s) = (String.length p + String.length s)%nat.
Proof. induction p as [|c p IH]; [done|]. rewrite app_cons. simpl. by rewrite IH. Qed.

Lemma app_nil_l s : "" +:+ s = s.
Proof. done. Qed.

Lemma split_on_nonempty c s : split_on c s ≠ [].
Proof. destruct s as [|a s]; simpl; [done|]. case_match; [done|]. by case_match. Qed.

Lemma split_on_no_char c s : contains_char c s = false → split_on c s = [s].
Proof.
  induction s as [|a s IH]; simpl; [done|]. intros [Ha Hs]%orb_false_iff.
  rewrite Ha. by rewrite IH.
Qed.

Lemma split_on_parts c s : Forall (λ x, contains_char c x = false) (split_on c s).
Proof.
  induction s as [|a s IH]; simpl; [by constructor|].
  destruct (Ascii.eqb a c) eqn:Ha; [by constructor|].
  destruct (split_on c s) as [|h t]; inversion IH; simplify_eq; constructor; simpl; auto.
  - by rewrite Ha.
  - by rewrite Ha.
Qed.

Lemma split_on_app c s1 s2 :
  split_on c (s1 +:+ String c s2) = split_on c s1 ++ split_on c s2.
Proof.
  induction s1 as [|a s1 IH]; [by unfold String.app; simpl; rewrite Ascii.eqb_refl|].
  rewrite app_cons. simpl. destruct (Ascii.eqb a c); rewrite IH; [done|].
  pose proof (split_on_nonempty c s1). by destruct (split_on c s1).
Qed.

Lemma join_cons sep x y l : join sep (x :: y :: l) = x +:+ sep +:+ join sep (y :: l).
Proof. done. Qed.

(** Splitting a joined list gives the list back when no part contains the
    separator. *)
Lemma split_on_join c l :
  l ≠ [] → Forall (λ x, contains_char c x = false) l →
  split_on c (join (String c "") l) = l.
Proof.
  induction l as [|x l IH]; [done|]. intros _ [Hx Hl]%Forall_cons_1.
  destruct l as [|y l].
  - by apply split_on_no_char.
  - rewrite join_cons. rewrite (app_cons c ""), app_nil_l, split_on_app.
    rewrite split_on_no_char by done. by rewrite IH.
Qed.

(** ** [strconv] *)

(** [strconv.ParseUint(s, 10, bits)]; [None] is a syntax or range error. *)
Definition ParseUint (bits : Z) (s : string) : option Z :=
  if decide (s = "") then None
  else d ← NilEmpty.uint_of_string s;
       let n := Z.of_N (N.of_uint d) in
       if decide (n < 2 ^ bits) then Some n else None.

(** [strconv.FormatInt(z, 10)]. *)
Definition FormatInt (z : Z) : string :=
  if decide (z < 0) then "-" +:+ NilEmpty.string_of_uint (N.to_uint (Z.to_N (- z)))
  else NilEmpty.string_of_uint (N.to_uint (Z.to_N z)).

Lemma uint_string_empty d : NilEmpty.string_of_uint d = "" → d = Decimal.Nil.
Proof. by destruct d. Qed.

Lemma to_uint_not_nil n : N.to_uint n ≠ Decimal.Nil.
Proof.
  intros H. pose proof (DecimalN.Unsigned.of_to n) as Hn. rewrite H in Hn.
  simpl in Hn. by subst n.
Qed.

Lemma ParseUint_FormatInt bits z : 0 ≤ z < 2 ^ bits → ParseUint bits (FormatInt z) = Some z.
Proof.
  intros Hz. unfold ParseUint, FormatInt.
  rewrite (decide_False (P := z < 0)) by lia.
  rewrite decide_False by (intros H; by eapply to_uint_not_nil, uint_string_empty).
  rewrite NilEmpty.usu. simpl.
  rewrite DecimalN.Unsigned.of_to, Z2N.id by lia. by rewrite decide_True by lia.
Qed.

Lemma ParseUint_range bits s n : ParseUint bits s = Some n → 0 ≤ n < 2 ^ bits.
Proof.
  unfold ParseUint. repeat case_decide; try done.
  destruct (NilEmpty.uint_of_string s); simpl; [|done].
  case_decide; [|done]. intros [= <-]. lia.
Qed.

Lemma ParseUint_empty bits : ParseUint bits "" = None.
Proof. done. Qed.

(** ** [sort.Strings] *)

Definition sort_Strings (l : list string) : list string := merge_sort String.le l.

Lemma sort_Strings_perm l : sort_Strings l ≡ₚ l.
Proof. apply merge_sort_Permutation. Qed.

Lemma sort_Strings_sorted l : StronglySorted String.le (sort_Strings l).
Proof. apply StronglySorted_merge_sort; apply _. Qed.

(** The result depends only on the multiset of strings. *)
Lemma sort_Strings_ext l1 l2 : l1 ≡ₚ l2 → sort_Strings l1 = sort_Strings l2.
Proof.
  intros Hp. apply (StronglySorted_unique String.le);
    [apply sort_Strings_sorted..|]. by rewrite !sort_Strings_perm.
Qed.

Lemma elem_of_sort_Strings x l : x ∈ sort_Strings l ↔ x ∈ l.
Proof. by rewrite sort_Strings_perm. Qed.

Lemma length_sort_Strings l : length (sort_Strings l) = length l.
Proof. apply Permutation_length, sort_Strings_perm. Qed.

Lemma sort_Strings_sorted_id l : StronglySorted String.le l → sort_Strings l = l.
Proof.
  intros. apply (StronglySorted_unique String.le);
    [apply sort_Strings_sorted|done|apply sort_Strings_perm].
Qed.
