(* ===== verification/GoFloat.v ===== *)
(** * float64

    The conversions the metric uses: [float64(value)] of an [int], which rounds
    to the nearest even, the truncation back to an integer, and the words of 64
    bits that [math.Float64bits] and [math.Float64frombits] exchange with
    floating-point numbers. *)
From Stdlib Require Import SpecFloat.
From S2P Require Import Prelude.
Open Scope Z_scope.

Definition float64 : Type := spec_float.

(** [float64(z)] *)
Definition float64_of_int (z : Z) : float64 := binary_normalize 53 1024 z 0 false.

(** [int(f)] of a finite [f]; what Go makes of the others depends on the machine. *)
Definition int_of_float64 (f : float64) : option Z :=
  match f with
  | S754_zero _ => Some 0
  | S754_finite s m e =>
      let a := if 0 <=? e then Z.pos m * 2 ^ e else Z.pos m / 2 ^ (- e) in
      Some (if s then - a else a)
  | _ => None
  end.

Definition sign_bit (s : bool) : Z := if s then 2 ^ 63 else 0.

(** [math.Float64bits] and [math.Float64frombits]; the words that are no
    numbers are taken as one. *)
Definition Float64bits (f : float64) : Z :=
  match f with
  | S754_zero s => sign_bit s
  | S754_infinity s => sign_bit s + 2047 * 2 ^ 52
  | S754_nan => 2047 * 2 ^ 52 + 2 ^ 51 + 1
  | S754_finite s m e =>
      if 2 ^ 52 <=? Z.pos m then sign_bit s + (e + 1075) * 2 ^ 52 + (Z.pos m - 2 ^ 52)
      else sign_bit s + Z.pos m
  end.

Definition Float64frombits (b : Z) : float64 :=
  let s := Z.testbit b 63 in
  let ex := (b / 2 ^ 52) mod 2 ^ 11 in
  let frac := b mod 2 ^ 52 in
  if ex =? 2047 then (if frac =? 0 then S754_infinity s else S754_nan)
  else if ex =? 0 then
    match frac with Z.pos m => S754_finite s m (-1074) | _ => S754_zero s end
  else
    match 2 ^ 52 + frac with Z.pos m => S754_finite s m (ex - 1075) | _ => S754_nan end.

(** ** Digits *)

Lemma digits2_pos_bounds m : 2 ^ (Z.pos (digits2_pos m) - 1) ≤ Z.pos m < 2 ^ Z.pos (digits2_pos m).
Proof.
  induction m as [m IH|m IH|]; cbn [digits2_pos]; [| |simpl; lia].
  all: set (d := Z.pos (digits2_pos m)) in *; rewrite Pos2Z.inj_succ; fold d;
    replace (Z.succ d - 1) with d by lia; rewrite Z.pow_succ_r by lia;
    assert (2 ^ d = 2 * 2 ^ (d - 1)) by (rewrite <-Z.pow_succ_r by lia; f_equal; lia); lia.
Qed.

(** A number of digits is fixed by the powers of two around it. *)
Lemma digits2_pos_unique m n : 0 < n → 2 ^ (n - 1) ≤ Z.pos m < 2 ^ n → Z.pos (digits2_pos m) = n.
Proof.
  intros Hn Hm. pose proof (digits2_pos_bounds m) as Hd.
  assert (Z.pos (digits2_pos m) - 1 < n) by (apply (Z.pow_lt_mono_r_iff 2); lia).
  assert (n - 1 < Z.pos (digits2_pos m)) by (apply (Z.pow_lt_mono_r_iff 2); lia). lia.
Qed.

Lemma iter_xO m d : Z.pos (Pos.iter xO m d) = Z.pos m * 2 ^ Z.pos d.
Proof.
  induction d as [|d IH] using Pos.peano_ind; [simpl; lia|].
  rewrite Pos.iter_succ, Pos2Z.inj_xO, IH, Pos2Z.inj_succ, Z.pow_succ_r; lia.
Qed.

(** ** Numbers and words *)

(** The canonical finite numbers: normal ones with 53 digits and the small ones. *)
Lemma bounded_inv m e :
  bounded 53 1024 m e = true →
  (2 ^ 52 ≤ Z.pos m < 2 ^ 53 ∧ -1074 ≤ e ≤ 971) ∨ (Z.pos m < 2 ^ 52 ∧ e = -1074).
Proof.
  unfold bounded, canonical_mantissa, fexp, emin. intros [Hc%Z.eqb_eq He%Z.leb_le]%andb_true_iff.
  pose proof (digits2_pos_bounds m) as Hd. set (d := Z.pos (digits2_pos m)) in *.
  destruct (decide (d = 53)) as [Heq|Hne]; [rewrite Heq in *; left; simpl in *; lia|].
  right. assert (d ≤ 52) by lia. split; [|lia].
  apply Z.lt_le_trans with (2 ^ d); [lia|]. by apply Z.pow_le_mono_r.
Qed.

Lemma word_parts s ex frac :
  0 ≤ ex < 2 ^ 11 → 0 ≤ frac < 2 ^ 52 →
  let b := sign_bit s + ex * 2 ^ 52 + frac in
  Z.testbit b 63 = s ∧ (b / 2 ^ 52) mod 2 ^ 11 = ex ∧ b mod 2 ^ 52 = frac.
Proof.
  intros Hex Hfr. cbv zeta.
  assert (sign_bit s = (if s then 1 else 0) * 2 ^ 11 * 2 ^ 52) as -> by by destruct s.
  rewrite <-Z.mul_add_distr_r. split_and!.
  - rewrite Z.testbit_odd, Z.shiftr_div_pow2 by lia.
    assert ((((if s then 1 else 0) * 2 ^ 11 + ex) * 2 ^ 52 + frac) `div` 2 ^ 63 = if s then 1 else 0) as Hdiv.
    { change (2 ^ 63) with (2 ^ 52 * 2 ^ 11). rewrite <-Z.div_div, Z.div_add_l, (Z.div_small frac) by lia.
      rewrite Z.add_0_r, Z.div_add_l, Z.div_small by lia. lia. }
    rewrite Hdiv. by destruct s.
  - rewrite Z.div_add_l, (Z.div_small frac), Z.add_0_r by lia.
    rewrite Z.add_comm, Z.mod_add by lia. by apply Z.mod_small.
  - rewrite Z.add_comm, Z.mod_add by lia. by apply Z.mod_small.
Qed.

(** A canonical number is found again in its word. *)
Lemma frombits_bits f : valid_binary 53 1024 f = true → f ≠ S754_nan → Float64frombits (Float64bits f) = f.
Proof.
  intros Hv Hn. unfold Float64frombits. destruct f as [s|s| |s m e]; [by destruct s..|done|].
  cbn [Float64bits]. apply bounded_inv in Hv as [[Hm He]|[Hm ->]].
  - rewrite Zle_imp_le_bool by lia.
    destruct (word_parts s (e + 1075) (Z.pos m - 2 ^ 52)) as (->&->&->); [lia..|].
    rewrite (proj2 (Z.eqb_neq _ 2047)), (proj2 (Z.eqb_neq _ 0)) by lia.
    replace (2 ^ 52 + (Z.pos m - 2 ^ 52)) with (Z.pos m) by lia. f_equal. lia.
  - rewrite (proj2 (Z.leb_gt _ _)) by lia.
    destruct (word_parts s 0 (Z.pos m)) as (Hs&He&Hf); [lia..|]. rewrite Z.mul_0_l, Z.add_0_r in Hs, He, Hf.
    by rewrite Hs, He, Hf.
Qed.

(** ** Integers as numbers *)

(** A number of at most 53 digits is not rounded. *)
Lemma binary_round_exact s m :
  Z.pos m < 2 ^ 53 →
  ∃ k m', 0 ≤ k ≤ 52 ∧ binary_round 53 1024 s m 0 = S754_finite s m' (- k) ∧
    Z.pos m' = Z.pos m * 2 ^ k ∧ 2 ^ 52 ≤ Z.pos m' < 2 ^ 53.
Proof.
  intros Hm. pose proof (digits2_pos_bounds m) as Hd. set (d := Z.pos (digits2_pos m)) in *.
  assert (d ≤ 53) as Hd53.
  { assert (d - 1 < 53) by (apply (Z.pow_lt_mono_r_iff 2); lia). lia. }
  exists (53 - d). assert (1 ≤ d) by lia.
  assert (fexp 53 1024 (d + 0) = d - 53) as Hf by (unfold fexp, emin; lia).
  assert (∃ m', shl_align m 0 (d - 53) = (m', d - 53) ∧ Z.pos m' = Z.pos m * 2 ^ (53 - d)) as (m'&Hal&Hm').
  { unfold shl_align. destruct (decide (d = 53)) as [->|Hne].
    - exists m. simpl. split; [done|lia].
    - destruct (d - 53 - 0) as [|p|p] eqn:Hp; [lia..|]. eexists. split; [reflexivity|].
      rewrite iter_xO. f_equal. f_equal. lia. }
  exists m'. assert (2 ^ 52 ≤ Z.pos m' < 2 ^ 53) as Hb.
  { rewrite Hm'. assert (0 < 2 ^ (53 - d)) by (apply Z.pow_pos_nonneg; lia). split.
    - replace (2 ^ 52) with (2 ^ (d - 1) * 2 ^ (53 - d)) by (rewrite <-Z.pow_add_r by lia; f_equal; lia).
      apply Z.mul_le_mono_nonneg_r; lia.
    - replace (2 ^ 53) with (2 ^ d * 2 ^ (53 - d)) by (rewrite <-Z.pow_add_r by lia; f_equal; lia).
      apply Z.mul_lt_mono_pos_r; lia. }
  split_and!; [lia..| |done|lia|lia]. unfold binary_round. fold d. rewrite Hf, Hal.
  assert (Z.pos (digits2_pos m') = 53) as Hd' by (apply digits2_pos_unique; lia).
  assert (∀ e, -53 ≤ e ≤ 0 → shr_fexp 53 1024 (Z.pos m') e loc_Exact = (shr_record_of_loc (Z.pos m') loc_Exact, e)) as Hshr.
  { intros e He. unfold shr_fexp. cbn [Zdigits2]. rewrite Hd'.
    assert (fexp 53 1024 (53 + e) - e = 0) as -> by (unfold fexp, emin; lia). done. }
  unfold binary_round_aux. rewrite Hshr by lia. cbn. rewrite Hshr by lia. cbn.
  rewrite Zle_imp_le_bool by lia. f_equal. lia.
Qed.

(** An [int] of at most 53 bits survives the conversion to [float64], the word
    it is stored in, and the way back. *)
Lemma float64_int_roundtrip z :
  Z.abs z < 2 ^ 53 → int_of_float64 (Float64frombits (Float64bits (float64_of_int z))) = Some z.
Proof.
  intros Hz. assert (∀ s m, Z.pos m < 2 ^ 53 →
    int_of_float64 (Float64frombits (Float64bits (binary_round 53 1024 s m 0))) = Some (if s then Z.neg m else Z.pos m)) as Hr.
  { intros s m Hm. destruct (binary_round_exact s m Hm) as (k&m'&Hk&->&Hm'&Hb). rewrite frombits_bits; [|..|done].
    - cbn [int_of_float64]. destruct (Z.leb_spec 0 (- k)).
      + assert (k = 0) as -> by lia. rewrite Hm'. by destruct s; rewrite !Z.mul_1_r.
      + rewrite Z.opp_involutive, Hm', Z.div_mul by (apply Z.pow_nonzero; lia). by destruct s.
    - cbn [valid_binary]. unfold bounded, canonical_mantissa. rewrite (digits2_pos_unique m' 53) by lia.
      apply andb_true_iff. rewrite Z.eqb_eq, Z.leb_le. unfold fexp, emin. lia. }
  destruct z as [|m|m]; [done|by apply (Hr false m)|by apply (Hr true m)].
Qed.

(** One bit more is rounded. *)
Example float64_rounds : int_of_float64 (float64_of_int (2 ^ 53 + 1)) = Some (2 ^ 53).
Proof. reflexivity. Qed.
