(* ===== verification/GoPath.v ===== *)
(** * [path/filepath] on Unix

    [Clean], [Join], [Base] and [Dir] as functions on strings, the resolution
    of a path string to the list of names the kernel walks, and the equations
    that connect them: joining a base directory and a plain name and then
    taking [Base], [Dir] or resolving gives the expected answer. *)
From Stdlib Require Import Ascii.
From S2P Require Import Prelude GoStrings.
Open Scope Z_scope.

Definition slash : ascii := "/"%char.

(** A path as the kernel sees it: the names below the root. *)
Abbreviation path := (list string).

(** ** Component lists *)

(** One step of lexical normalisation on a reversed stack of components. In a
    rooted path [..] at the root stays at the root; in a relative path leading
    [..] components are kept. *)
Definition norm_step (rooted : bool) (st : list string) (c : string) : list string :=
  if decide (c = "" ∨ c = ".") then st
  else if decide (c = "..") then
    match st with
    | [] => if rooted then [] else [".."]
    | top :: st' => if decide (top = "..") then ".." :: st else st'
    end
  else c :: st.

Definition norm (rooted : bool) (cs : list string) : list string :=
  reverse (foldl (norm_step rooted) [] cs).

Definition is_rooted (s : string) : bool := HasPrefix s "/".

Definition clean_str (rooted : bool) (cs : list string) : string :=
  if rooted then "/" +:+ join "/" cs
  else match cs with [] => "." | _ => join "/" cs end.

(** [filepath.Clean]. *)
Definition Clean (s : string) : string :=
  if decide (s = "") then "."
  else clean_str (is_rooted s) (norm (is_rooted s) (split_on slash s)).

(** [filepath.Join]: leading empty elements are dropped, the rest is joined
    with slashes and cleaned. *)
Fixpoint Join (elem : list string) : string :=
  match elem with
  | [] => ""
  | e :: es => if decide (e = "") then Join es else Clean (join "/" elem)
  end.

(** [filepath.Base]: the last non-empty component. *)
Definition Base (s : string) : string :=
  if decide (s = "") then "."
  else match last (filter (λ c, c ≠ "") (split_on slash s)) with
       | Some c => c
       | None => "/"
       end.

(** [filepath.Dir]: everything up to the last slash, cleaned. *)
Definition Dir (s : string) : string :=
  match removelast (split_on slash s) with
  | [] => Clean ""
  | init => Clean (join "/" init +:+ "/")
  end.

(** The path the kernel resolves, for a process whose working directory is the
    root and a tree without symbolic links. *)
Definition resolve (s : string) : path := norm true (split_on slash s).

(** Names of directory entries. *)
Definition valid_name (c : string) : Prop :=
  c ≠ "" ∧ c ≠ "." ∧ c ≠ ".." ∧ contains_char slash c = false.

#[export] Instance valid_name_dec c : Decision (valid_name c).
Proof. unfold valid_name. apply _. Defined.

(** ** Normalisation *)

Lemma norm_step_valid rooted st c : valid_name c → norm_step rooted st c = c :: st.
Proof.
  intros (?&?&?&?). unfold norm_step. by rewrite !decide_False by intuition.
Qed.

Lemma norm_step_empty rooted st : norm_step rooted st "" = st.
Proof. unfold norm_step. by rewrite decide_True by auto. Qed.

Lemma foldl_norm_valid rooted st cs :
  Forall valid_name cs → foldl (norm_step rooted) st cs = reverse cs ++ st.
Proof.
  intros Hcs. revert st. induction Hcs as [|c cs Hc Hcs IH]; intros st; [done|].
  simpl. rewrite IH, norm_step_valid, reverse_cons by done. by rewrite <-app_assoc.
Qed.

Lemma norm_valid rooted cs : Forall valid_name cs → norm rooted cs = cs.
Proof.
  intros. unfold norm. by rewrite foldl_norm_valid, app_nil_r, reverse_involutive.
Qed.

Lemma norm_snoc rooted cs n : valid_name n → norm rooted (cs ++ [n]) = norm rooted cs ++ [n].
Proof.
  intros. unfold norm. rewrite foldl_app. simpl.
  by rewrite norm_step_valid, reverse_cons.
Qed.

Lemma norm_snoc_empty rooted cs : norm rooted (cs ++ [""]) = norm rooted cs.
Proof. unfold norm. rewrite foldl_app. simpl. by rewrite norm_step_empty. Qed.

Lemma norm_cons_empty rooted cs : norm rooted ("" :: cs) = norm rooted cs.
Proof. unfold norm. simpl. by rewrite norm_step_empty. Qed.

Lemma norm_step_keeps_valid st c :
  contains_char slash c = false → Forall valid_name st → Forall valid_name (norm_step true st c).
Proof.
  intros Hc Hst. unfold norm_step. repeat case_decide; auto.
  - destruct Hst as [|x st Hx Hst]; [done|]. rewrite decide_False; [done|].
    intros ->. by destruct Hx as (?&?&?&?).
  - constructor; [|done]. split_and!; naive_solver.
Qed.

(** What a rooted path resolves to consists of proper names. *)
Lemma norm_true_valid cs :
  Forall (λ c, contains_char slash c = false) cs → Forall valid_name (norm true cs).
Proof.
  intros Hcs. unfold norm. apply Forall_reverse.
  cut (∀ st, Forall valid_name st → Forall valid_name (foldl (norm_step true) st cs)).
  { intros H. apply H. constructor. }
  induction Hcs as [|c cs Hc Hcs IH]; intros st Hst; simpl; [done|].
  by apply IH, norm_step_keeps_valid.
Qed.

Lemma resolve_valid s : Forall valid_name (resolve s).
Proof. apply norm_true_valid, split_on_parts. Qed.

(** A normalised relative path is a run of [..] followed by proper names; a
    rooted one drops that run. *)
Lemma foldl_norm_false cs :
  Forall (λ c, contains_char slash c = false) cs →
  ∀ vs k, Forall valid_name vs → ∃ vs' k',
    Forall valid_name vs' ∧
    foldl (norm_step false) (vs ++ replicate k "..") cs = vs' ++ replicate k' ".." ∧
    foldl (norm_step true) vs cs = vs'.
Proof.
  induction 1 as [|c cs Hc Hcs IH]; intros vs k Hvs; simpl; [by exists vs, k|].
  assert (∃ vs' k', Forall valid_name vs' ∧
            norm_step false (vs ++ replicate k "..") c = vs' ++ replicate k' ".." ∧
            norm_step true vs c = vs') as (vs'&k'&Hvs'&->&->).
  { unfold norm_step. repeat case_decide; subst.
    - by exists vs, k.
    - destruct Hvs as [|x vs Hx Hvs]; simpl.
      + destruct k as [|k]; [by exists [], 1%nat|]. by exists [], (S (S k)).
      + rewrite !decide_False by (intros ->; by destruct Hx as (?&?&?&?)). by exists vs, k.
    - exists (c :: vs), k. split_and!; [|done..].
      constructor; [split_and!; naive_solver|done]. }
  by apply IH.
Qed.

Lemma norm_true_dotdots k vs :
  Forall valid_name vs → norm true (replicate k ".." ++ vs) = vs.
Proof.
  intros Hvs. unfold norm. rewrite foldl_app.
  replace (foldl (norm_step true) [] (replicate k "..")) with (@nil string).
  - by rewrite foldl_norm_valid, app_nil_r, reverse_involutive.
  - induction k; [done|]. simpl. done.
Qed.

Lemma norm_false_dotdots k vs :
  Forall valid_name vs → norm false (replicate k ".." ++ vs) = replicate k ".." ++ vs.
Proof.
  intros Hvs. unfold norm. rewrite foldl_app.
  assert (∀ j, foldl (norm_step false) (replicate j "..") (replicate k "..") =
               replicate (j + k) "..") as H.
  { induction k as [|k IH]; intros j; simpl; [by rewrite Nat.add_0_r|].
    replace (norm_step false (replicate j "..") "..") with (replicate (S j) "..").
    - rewrite IH. f_equal. lia.
    - unfold norm_step. destruct j; done. }
  change [] with (replicate 0 "..") at 1. rewrite H. rewrite foldl_norm_valid by done.
  rewrite reverse_app, reverse_involutive. f_equal. simpl.
  by rewrite reverse_replicate.
Qed.

Lemma norm_false_shape cs :
  Forall (λ c, contains_char slash c = false) cs → ∃ vs k,
    Forall valid_name vs ∧ norm false cs = replicate k ".." ++ vs ∧ norm true cs = vs.
Proof.
  intros Hcs. destruct (foldl_norm_false cs Hcs [] 0%nat) as (vs&k&Hvs&Hf&Ht); [constructor|].
  simpl in *. exists (reverse vs), k. split_and!.
  - by apply Forall_reverse.
  - unfold norm. rewrite Hf, reverse_app. by rewrite reverse_replicate.
  - unfold norm. by rewrite Ht.
Qed.

(** ** [Clean] *)

Definition clean_parts (rooted : bool) (cs : list string) : Prop :=
  Forall (λ c, contains_char slash c = false ∧ c ≠ "") cs ∧ norm rooted cs = cs.

Lemma norm_parts rooted cs :
  Forall (λ c, contains_char slash c = false) cs → clean_parts rooted (norm rooted cs).
Proof.
  intros Hcs. destruct rooted.
  - pose proof (norm_true_valid cs Hcs) as Hv. split; [|by apply norm_valid].
    eapply Forall_impl; [done|]. intros c (?&?&?&?). done.
  - destruct (norm_false_shape cs Hcs) as (vs&k&Hvs&->&_). split.
    + apply Forall_app. split; [by apply Forall_replicate|].
      eapply Forall_impl; [done|]. intros c (?&?&?&?). done.
    + by apply norm_false_dotdots.
Qed.

Lemma is_rooted_app a s : a ≠ "" → is_rooted (a +:+ s) = is_rooted a.
Proof.
  destruct a as [|c a]; [done|]. intros _. rewrite app_cons.
  done.
Qed.

Lemma is_rooted_part c : contains_char slash c = false → c ≠ "" → is_rooted c = false.
Proof.
  destruct c as [|a c]; [done|]. cbn -[Ascii.eqb]. intros [Ha _]%orb_false_iff _.
  unfold is_rooted, slash in *. cbn -[Ascii.eqb]. by rewrite Ascii.eqb_sym, Ha.
Qed.

Lemma is_rooted_join cs :
  Forall (λ c, contains_char slash c = false ∧ c ≠ "") cs → is_rooted (join "/" cs) = false.
Proof.
  intros Hcs. destruct cs as [|c cs]; [done|]. apply Forall_cons_1 in Hcs as [[Hc Hn] _].
  destruct cs as [|d cs]; [by apply is_rooted_part|].
  rewrite join_cons, is_rooted_app by done. by apply is_rooted_part.
Qed.

Lemma split_join_slash cs :
  cs ≠ [] → Forall (λ c, contains_char slash c = false ∧ c ≠ "") cs →
  split_on slash (join "/" cs) = cs.
Proof.
  intros Hne Hcs. apply split_on_join; [done|]. eapply Forall_impl; [done|]. by intros ? [].
Qed.

Lemma split_rooted s : split_on slash ("/" +:+ s) = "" :: split_on slash s.
Proof. done. Qed.

(** The components of a cleaned path. *)
Lemma split_clean_str rooted cs :
  Forall (λ c, contains_char slash c = false ∧ c ≠ "") cs →
  split_on slash (clean_str rooted cs) =
    match cs with
    | [] => if rooted then [""; ""] else ["."]
    | _ => if rooted then "" :: cs else cs
    end.
Proof.
  intros Hcs. destruct cs as [|c cs]; [by destruct rooted|].
  destruct rooted; unfold clean_str; [rewrite split_rooted|]; by rewrite split_join_slash.
Qed.

Lemma clean_str_rooted rooted cs :
  Forall (λ c, contains_char slash c = false ∧ c ≠ "") cs →
  is_rooted (clean_str rooted cs) = rooted.
Proof.
  intros. destruct rooted; unfold clean_str; [by rewrite is_rooted_app|].
  case_match; [done|]. subst. by apply is_rooted_join.
Qed.

Lemma clean_str_nonempty rooted cs :
  Forall (λ c, contains_char slash c = false ∧ c ≠ "") cs → clean_str rooted cs ≠ "".
Proof.
  intros Hcs. destruct rooted; [done|]. destruct cs as [|c [|d cs]]; simpl; [done| |].
  - by apply Forall_cons_1 in Hcs as [[]].
  - apply Forall_cons_1 in Hcs as [[_ Hc]]. by destruct c.
Qed.

Lemma Clean_clean_str rooted cs : clean_parts rooted cs → Clean (clean_str rooted cs) = clean_str rooted cs.
Proof.
  intros [Hcs Hn]. unfold Clean. rewrite decide_False by by apply clean_str_nonempty.
  rewrite clean_str_rooted, split_clean_str by done. f_equal.
  destruct cs as [|c cs]; [by destruct rooted|]. destruct rooted; [|done].
  by rewrite norm_cons_empty.
Qed.

Lemma Clean_parts s : ∃ rooted cs, clean_parts rooted cs ∧ Clean s = clean_str rooted cs.
Proof.
  unfold Clean. case_decide.
  - by exists false, [].
  - do 2 eexists. split; [|done]. apply norm_parts, split_on_parts.
Qed.

Lemma Clean_idem s : Clean (Clean s) = Clean s.
Proof. destruct (Clean_parts s) as (r&cs&Hcs&->). by apply Clean_clean_str. Qed.

(** Cleaning does not change what a path resolves to. *)
Lemma resolve_Clean s : resolve (Clean s) = resolve s.
Proof.
  unfold Clean, resolve. case_decide; [by subst|].
  pose proof (split_on_parts slash s) as Hp.
  pose proof (norm_parts (is_rooted s) _ Hp) as [Hcs Hn].
  rewrite split_clean_str by done.
  destruct (norm (is_rooted s) (split_on slash s)) as [|c cs] eqn:Hs.
  - destruct (is_rooted s); [by rewrite Hs|].
    destruct (norm_false_shape _ Hp) as (vs&k&Hvs&Hf&->). rewrite Hs in Hf.
    by destruct k, vs.
  - destruct (is_rooted s); [by rewrite norm_cons_empty, Hs|].
    destruct (norm_false_shape _ Hp) as (vs&k&Hvs&Hf&->).
    rewrite <-Hs, Hf. by apply norm_true_dotdots.
Qed.

(** ** [Join] with a plain name *)

Lemma valid_name_split n : valid_name n → split_on slash n = [n].
Proof. intros (?&?&?&?). by apply split_on_no_char. Qed.

Lemma Join_valid base n :
  valid_name n → ∃ rooted cs, clean_parts rooted cs ∧ clean_parts rooted (cs ++ [n]) ∧
    Clean base = clean_str rooted cs ∧ Join [base; n] = clean_str rooted (cs ++ [n]).
Proof.
  intros Hn. assert (Hn' := Hn). destruct Hn' as (Hn1&Hn2&Hn3&Hn4). simpl. case_decide as Hb.
  - exists false, []. rewrite (decide_False (P := n = "")) by done. subst base. simpl.
    assert (clean_parts false [n]) as Hp.
    { split; [by repeat constructor|]. apply norm_valid. by constructor. }
    split_and!; [by split; [constructor|]|done|done|].
    unfold Clean. rewrite decide_False by done.
    rewrite is_rooted_part, valid_name_split by done. destruct Hp as [_ Hp]. by rewrite Hp.
  - exists (is_rooted base), (norm (is_rooted base) (split_on slash base)).
    assert (Clean (join "/" [base; n]) = clean_str (is_rooted base)
              (norm (is_rooted base) (split_on slash base) ++ [n])) as Heq.
    { unfold Clean. rewrite join_cons. rewrite decide_False by by destruct base.
      rewrite is_rooted_app by done. f_equal.
      change ("/" +:+ join "/" [n]) with (String slash n).
      rewrite split_on_app, (valid_name_split n) by done. by apply norm_snoc. }
    split_and!; [apply norm_parts, split_on_parts| | |done].
    + rewrite <-norm_snoc by done. apply norm_parts.
      apply Forall_app. split; [apply split_on_parts|by repeat constructor].
    + unfold Clean. by rewrite decide_False.
Qed.

(** [filepath.Base(filepath.Join(base, n)) = n]. *)
Lemma Base_Join base n : valid_name n → Base (Join [base; n]) = n.
Proof.
  intros Hn. destruct (Join_valid base n Hn) as (r&cs&_&[Hp _]&_&->).
  unfold Base. rewrite decide_False by by apply clean_str_nonempty.
  rewrite split_clean_str by done.
  destruct (cs ++ [n]) as [|x l] eqn:E; [by destruct cs|]. rewrite <-E.
  assert (last (filter (λ c, c ≠ "") (cs ++ [n])) = Some n) as Hl.
  { rewrite filter_app, (filter_cons_True _ n), filter_nil by apply Hn. by rewrite last_snoc. }
  destruct r; [|by rewrite Hl]. by rewrite filter_cons_False, Hl by naive_solver.
Qed.

(** [filepath.Dir(filepath.Join(base, n)) = filepath.Clean(base)]. *)
Lemma Dir_Join base n : valid_name n → Dir (Join [base; n]) = Clean base.
Proof.
  intros Hn. destruct (Join_valid base n Hn) as (r&cs&[Hcs Hnorm]&[Hp _]&->&->).
  unfold Dir. rewrite split_clean_str by done.
  assert (∀ l : list string, Forall (λ c, contains_char slash c = false) l → l ≠ [] →
     split_on slash (join "/" l +:+ "/") = l ++ [""]) as Hsplit.
  { intros l Hl Hne. change "/" with (String slash "") at 2.
    by rewrite split_on_app, split_on_join. }
  assert (Forall (λ c, contains_char slash c = false) cs) as Hcs'.
  { eapply Forall_impl; [exact Hcs|]. by intros ? []. }
  destruct (cs ++ [n]) as [|x l] eqn:E; [by destruct cs|]. rewrite <-E.
  destruct r.
  - rewrite app_comm_cons, removelast_last. unfold Clean.
    rewrite decide_False by by destruct cs.
    assert (is_rooted (join "/" ("" :: cs) +:+ "/") = true) as Hr by by destruct cs.
    rewrite Hr, Hsplit by (by constructor || done).
    by rewrite norm_snoc_empty, norm_cons_empty, Hnorm.
  - rewrite removelast_last. destruct cs as [|c cs]; [done|]. rewrite <-(Clean_clean_str false) by done.
    assert (join "/" (c :: cs) ≠ "") as Hne.
    { apply (clean_str_nonempty false (c :: cs)). done. }
    unfold Clean at 1. rewrite decide_False by (by destruct (join "/" (c :: cs))).
    rewrite is_rooted_app by done. rewrite is_rooted_join by done.
    rewrite Hsplit by done. rewrite norm_snoc_empty, Hnorm.
    by rewrite Clean_clean_str.
Qed.

(** Joining a plain name resolves to the entry of that name in the base. *)
Lemma resolve_Join base n : valid_name n → resolve (Join [base; n]) = resolve base ++ [n].
Proof.
  intros Hn. cbn [Join]. case_decide as Hb.
  - rewrite decide_False by apply Hn. rewrite resolve_Clean. subst. simpl.
    unfold resolve. rewrite valid_name_split by done. rewrite norm_valid by by constructor. done.
  - rewrite resolve_Clean, join_cons. change ("/" +:+ join "/" [n]) with (String slash n).
    unfold resolve. rewrite split_on_app, (valid_name_split n) by done. by apply norm_snoc.
Qed.

Lemma resolve_Join3 base n m :
  valid_name n → valid_name m → resolve (Join [base; n; m]) = resolve base ++ [n; m].
Proof.
  intros Hn Hm. cbn [Join]. case_decide as Hb.
  - rewrite decide_False by apply Hn. rewrite resolve_Clean, join_cons.
    change ("/" +:+ join "/" [m]) with (String slash m). subst. unfold resolve.
    rewrite split_on_app, (valid_name_split n), (valid_name_split m) by done. rewrite (norm_valid _ ([n] ++ [m])); [done|].
    by constructor; [|constructor; [|constructor]].
  - rewrite resolve_Clean, !join_cons.
    change ("/" +:+ n +:+ "/" +:+ join "/" [m]) with (String slash (n +:+ String slash m)).
    unfold resolve. rewrite !split_on_app, (valid_name_split n), (valid_name_split m) by done.
    rewrite app_assoc, !norm_snoc by done. by rewrite <-app_assoc.
Qed.

Lemma Join_nonempty base n : valid_name n → Join [base; n] ≠ "".
Proof.
  intros Hn. destruct (Join_valid base n Hn) as (r&cs&_&[Hp _]&_&->). by apply clean_str_nonempty.
Qed.

Lemma Join3_nonempty base n m : valid_name n → Join [base; n; m] ≠ "".
Proof.
  intros Hn. cbn [Join]. assert (∀ s, Clean s ≠ "") as Hc.
  { intros s. destruct (Clean_parts s) as (r&cs&[Hp _]&->). by apply clean_str_nonempty. }
  case_decide; [|apply Hc]. rewrite decide_False by apply Hn. apply Hc.
Qed.

(** A joined plain name never ends in a dot component. *)
Lemma Join_last base n : valid_name n → last (split_on slash (Join [base; n])) = Some n.
Proof.
  intros Hn. destruct (Join_valid base n Hn) as (r&cs&_&[Hp _]&_&->).
  rewrite split_clean_str by done.
  destruct (cs ++ [n]) as [|x l] eqn:E; [by destruct cs|]. rewrite <-E.
  destruct r; [|by rewrite last_snoc]. by rewrite app_comm_cons, last_snoc.
Qed.

(** [path + "/."] names the directory itself. *)
Lemma resolve_slash_dot s : resolve (s +:+ "/.") = resolve s.
Proof.
  unfold resolve. change "/." with (String slash "."). rewrite split_on_app.
  unfold norm. by rewrite foldl_app.
Qed.

Lemma resolve_rooted_names cs :
  Forall valid_name cs → resolve ("/" +:+ join "/" cs) = cs.
Proof.
  intros Hcs. unfold resolve. rewrite split_rooted, norm_cons_empty.
  destruct cs as [|c cs]; [done|]. rewrite split_join_slash; [by apply norm_valid|done|].
  eapply Forall_impl; [done|]. by intros ? (?&?&?&?).
Qed.

#[global] Arguments Join : simpl never.
#[global] Arguments Clean : simpl never.
#[global] Arguments Base : simpl never.
#[global] Arguments Dir : simpl never.
#[global] Arguments resolve : simpl never.
