(* ===== verification/GoErrors.v ===== *)
(** * Go error values

    The errors the sources create and inspect: system call errors, gRPC status
    errors, [errors.New] and [fmt.Errorf] with and without wrapping. *)
From S2P Require Import Prelude GoStrings.

(** ** System errors *)

Inductive errno : Type :=
  | ENOENT | EEXIST | ENOTDIR | EISDIR | EACCES | EPERM | EIO | EBUSY
  | EINVAL | ENOSPC | EROFS | ENOTEMPTY | ESTALE | EADDRINUSE.

#[export] Instance errno_eq_dec : EqDecision errno.
Proof. solve_decision. Defined.

Definition errno_string (e : errno) : string :=
  match e with
  | ENOENT => "no such file or directory"
  | EEXIST => "file exists"
  | ENOTDIR => "not a directory"
  | EISDIR => "is a directory"
  | EACCES => "permission denied"
  | EPERM => "operation not permitted"
  | EIO => "input/output error"
  | EBUSY => "device or resource busy"
  | EINVAL => "invalid argument"
  | ENOSPC => "no space left on device"
  | EROFS => "read-only file system"
  | ENOTEMPTY => "directory not empty"
  | ESTALE => "stale file handle"
  | EADDRINUSE => "address already in use"
  end.

(** ** gRPC status codes the driver returns *)

Inductive code : Type :=
  | Unknown | InvalidArgument | NotFound | AlreadyExists | Aborted
  | Unimplemented | Internal | Unavailable.

#[export] Instance code_eq_dec : EqDecision code.
Proof. solve_decision. Defined.

Definition code_string (c : code) : string :=
  match c with
  | Unknown => "Unknown"
  | InvalidArgument => "InvalidArgument"
  | NotFound => "NotFound"
  | AlreadyExists => "AlreadyExists"
  | Aborted => "Aborted"
  | Unimplemented => "Unimplemented"
  | Internal => "Internal"
  | Unavailable => "Unavailable"
  end.

(** ** Kubernetes API errors *)

Inductive apireason : Type := ApiNotFound | ApiAlreadyExists | ApiOther.

#[export] Instance apireason_eq_dec : EqDecision apireason.
Proof. solve_decision. Defined.

(** ** Error values *)

Inductive gerror : Type :=
  (** [status.Error(c, msg)] *)
  | StatusError (c : code) (msg : string)
  (** [&os.PathError{op, path, err}] *)
  | PathError (op file : string) (err : errno)
  (** [syscall.Errno] itself, as [unix.Statfs] and [syscall.Stat] return it *)
  | Errno (err : errno)
  (** [errors.New(msg)], and [fmt.Errorf] without [%w] *)
  | ErrorString (msg : string)
  (** [fmt.Errorf] with [%w]: the whole text, and the wrapped error *)
  | WrapError (msg : string) (err : gerror)
  (** [&controller.IgnoredError{Reason}] *)
  | IgnoredError (Reason : string)
  (** [*errors.StatusError] of the API server *)
  | ApiError (reason : apireason) (msg : string).

#[export] Instance gerror_eq_dec : EqDecision gerror.
Proof. solve_decision. Defined.

(** [err.Error()]. *)
Definition Error (e : gerror) : string :=
  match e with
  | StatusError c msg => "rpc error: code = " +:+ code_string c +:+ " desc = " +:+ msg
  | PathError op file err => op +:+ " " +:+ file +:+ ": " +:+ errno_string err
  | Errno err => errno_string err
  | ErrorString msg => msg
  | WrapError msg _ => msg
  | IgnoredError reason => "ignored because " +:+ reason
  | ApiError _ msg => msg
  end.

(** [os.IsNotExist] and [os.IsPermission] look through [PathError] only. *)
Definition os_IsNotExist (e : gerror) : bool :=
  match e with
  | PathError _ _ err | Errno err => bool_decide (err = ENOENT)
  | _ => false
  end.

Definition os_IsPermission (e : gerror) : bool :=
  match e with
  | PathError _ _ err | Errno err => bool_decide (err = EACCES ∨ err = EPERM)
  | _ => false
  end.

(** [errors.Is(err, os.ErrNotExist)] follows [%w] wrapping. *)
Fixpoint errors_Is_NotExist (e : gerror) : bool :=
  match e with
  | PathError _ _ err | Errno err => bool_decide (err = ENOENT)
  | WrapError _ e' => errors_Is_NotExist e'
  | _ => false
  end.

(** The status code the gRPC server sends for an error ([status.FromError]). *)
Fixpoint code_of (e : gerror) : code :=
  match e with
  | StatusError c _ => c
  | WrapError _ e' => code_of e'
  | _ => Unknown
  end.

(** [apierrs.IsAlreadyExists] and [apierrs.IsNotFound]. *)
Definition api_IsAlreadyExists (e : gerror) : bool :=
  match e with ApiError r _ => bool_decide (r = ApiAlreadyExists) | _ => false end.
Definition api_IsNotFound (e : gerror) : bool :=
  match e with ApiError r _ => bool_decide (r = ApiNotFound) | _ => false end.
