(* ===== verification/OS.v ===== *)
(** * The world the driver runs in

    The file tree, the mount table and the system calls of the Go [os] package
    the sources use, together with the parameters of the model: what the
    kernel, the [cp] program and the Go runtime are free to choose. *)
From S2P Require Import Prelude GoStrings GoPath GoErrors.
Open Scope Z_scope.

(** ** The file tree *)

Inductive node : Type :=
  | NDir
  | NFile (content : string).

#[export] Instance node_eq_dec : EqDecision node.
Proof. solve_decision. Defined.

Definition IsDir (n : node) : bool := match n with NDir => true | NFile _ => false end.

Abbreviation fstree := (gmap path node).

(** The root is a directory, every entry sits in a directory and has a proper
    name. *)
Record wf_fs (fs : fstree) : Prop := {
  wf_root : fs !! [] = Some NDir;
  wf_parent : ∀ p c n, fs !! (p ++ [c]) = Some n → fs !! p = Some NDir ∧ valid_name c;
}.

(** What remains of [k] below [p]. *)
Fixpoint strip (p k : path) : option path :=
  match p, k with
  | [], _ => Some k
  | x :: p', y :: k' => if decide (x = y) then strip p' k' else None
  | _ :: _, [] => None
  end.

Definition child_names (p : path) (fs : fstree) : list string :=
  omap (λ kn : path * node, match strip p kn.1 with Some [c] => Some c | _ => None end)
    (map_to_list fs).

(** The entries of a directory in the order [os.ReadDir] returns them. *)
Definition entries (p : path) (fs : fstree) : list (string * node) :=
  omap (λ c, n ← fs !! (p ++ [c]); Some (c, n)) (sort_Strings (child_names p fs)).

(** The tree without everything at or below [p]. *)
Definition rm_tree (p : path) (fs : fstree) : fstree :=
  filter (λ kn : path * node, ¬ p `prefix_of` kn.1) fs.

(** Why a path that is not in the tree cannot be found. *)
Fixpoint missing_errno (fs : fstree) (cur todo : path) : errno :=
  match todo with
  | [] => ENOENT
  | c :: rest =>
      match fs !! cur with
      | Some (NFile _) => ENOTDIR
      | _ => missing_errno fs (cur ++ [c]) rest
      end
  end.

Definition pstr (p : path) : string := "/" +:+ join "/" p.

(** ** Mounts and file system statistics *)

(** [mount.MountPoint] of k8s.io/utils/mount. *)
Record MountPoint := {
  mp_Device : string;
  mp_Path : string;
  mp_Type : string;
  mp_Opts : list string;
}.

(** The fields of [unix.Statfs_t] that are read. *)
Record Statfs_t := {
  Bsize : Z;
  Blocks : Z;
  Bfree : Z;
  Bavail : Z;
  Files : Z;
  Ffree : Z;
}.

(** ** Parameters of the model *)

Inductive syscall : Type :=
  | SysStat | SysMkdir | SysRemoveAll | SysReadDir | SysListMounts | SysMount | SysUmount
  | SysStatT | SysRemove | SysListen.

(** What a system call number [n] meets is chosen by the environment:

    - [fault n k s]: the [n]-th call, of kind [k] on path [s], fails;
    - [statfs], [ctime], [filemode]: what the kernel answers for a path;
    - [range_order]: the order in which Go ranges over a map, any permutation
      of its entries;
    - [cp n fs src dst]: the run of [cp -rp --reflink=auto src/. dst], its
      success and the tree it leaves. It changes nothing outside [dst], and on
      success every entry below [src] is found below [dst];
    - [rm_partial n fs p]: what a [RemoveAll] that fails half-way leaves;
    - [likely_not_mnt]: the device comparison of [mount.IsLikelyNotMountPoint]; when it
      says that a path is a mount point, the mount table agrees. *)
Class Env := {
  fault : nat → syscall → string → option errno;
  statfs : nat → string → errno + Statfs_t;
  ctime : nat → path → Z * Z;
  filemode : nat → path → string;
  range_order : ∀ A : Type, nat → gmap string A → list (string * A);
  range_order_perm : ∀ (A : Type) n (m : gmap string A), range_order A n m ≡ₚ map_to_list m;
  cp : nat → fstree → path → path → bool * fstree;
  cp_frame : ∀ n fs src dst k, ¬ dst `prefix_of` k → (cp n fs src dst).2 !! k = fs !! k;
  cp_wf : ∀ n fs src dst, wf_fs fs → wf_fs (cp n fs src dst).2;
  cp_dst : ∀ n fs src dst, (cp n fs src dst).2 !! dst = fs !! dst;
  cp_ok : ∀ n fs src dst rel,
    wf_fs fs → (cp n fs src dst).1 = true →
    ¬ src `prefix_of` dst → ¬ dst `prefix_of` src → rel ≠ [] →
    (cp n fs src dst).2 !! (dst ++ rel) =
      match fs !! (src ++ rel) with
      | Some x => Some x
      | None => fs !! (dst ++ rel)
      end;
  rm_partial : nat → fstree → path → fstree;
  rm_partial_sub : ∀ n fs p k,
    rm_partial n fs p !! k = fs !! k ∨ (p `prefix_of` k ∧ rm_partial n fs p !! k = None);
  rm_partial_wf : ∀ n fs p, wf_fs fs → wf_fs (rm_partial n fs p);
  likely_not_mnt : nat → list MountPoint → string → bool;
  likely_sound : ∀ n ms s, likely_not_mnt n ms s = false →
    ∃ mp, mp ∈ ms ∧ resolve (mp_Path mp) = resolve s;
}.

(** ** The state *)

Record world := World {
  w_fs : fstree;
  w_mounts : list MountPoint;
  w_tick : nat;
  w_gauge : Z;
}.

Abbreviation M := (GoM world gerror).

Definition set_fs (fs : fstree) (w : world) : world :=
  World fs (w_mounts w) (w_tick w) (w_gauge w).
Definition set_mounts (ms : list MountPoint) (w : world) : world :=
  World (w_fs w) ms (w_tick w) (w_gauge w).
Definition set_gauge (z : Z) (w : world) : world :=
  World (w_fs w) (w_mounts w) (w_tick w) z.
(** The world after one more system call. *)
Definition tickw (w : world) : world :=
  World (w_fs w) (w_mounts w) (S (w_tick w)) (w_gauge w).

(** A call that changes nothing but the call counter. *)
Definition reads {A} (f : nat → world → outcome gerror A) : M A := λ w,
  (f (w_tick w) w, tickw w).

(** ** System calls *)

Section calls.
Context `{!Env}.

(** [os.Stat]. *)
Definition stat_result (n : nat) (fs : fstree) (s : string) : outcome gerror node :=
  match fault n SysStat s with
  | Some e => Fail (PathError "stat" s e)
  | None =>
      if decide (s = "") then Fail (PathError "stat" s ENOENT)
      else match fs !! resolve s with
           | Some x => Ret x
           | None => Fail (PathError "stat" s (missing_errno fs [] (resolve s)))
           end
  end.
Definition os_Stat (s : string) : M node := reads (λ n w, stat_result n (w_fs w) s).

(** [os.Stat] when the caller prints the mode of the file. *)
Definition os_StatMode (s : string) : M string := reads (λ n w,
  match stat_result n (w_fs w) s with
  | Ret x => Ret (filemode n (resolve s))
  | Fail e => Fail e
  | Panic p => Panic p
  end).

(** [filepath.EvalSymlinks]: there are no symbolic links in the tree, so the
    path is checked and cleaned. *)
Definition filepath_EvalSymlinks (s : string) : M string := reads (λ n w,
  match stat_result n (w_fs w) s with
  | Ret _ => Ret (Clean s)
  | Fail (PathError _ f e) => Fail (PathError "lstat" f e)
  | Fail e => Fail e
  | Panic p => Panic p
  end).

(** [os.Stat] when the caller also reads the change time of the inode. *)
Definition os_StatInfo (s : string) : M (node * (Z * Z)) := reads (λ n w,
  match stat_result n (w_fs w) s with
  | Ret x => Ret (x, ctime n (resolve s))
  | Fail e => Fail e
  | Panic p => Panic p
  end).

(** [os.ReadDir]: the entries sorted by name. *)
Definition readdir_result (n : nat) (fs : fstree) (s : string) : outcome gerror (list (string * node)) :=
  match fault n SysReadDir s with
  | Some e => Fail (PathError "open" s e)
  | None =>
      if decide (s = "") then Fail (PathError "open" s ENOENT)
      else match fs !! resolve s with
           | Some NDir => Ret (entries (resolve s) fs)
           | Some (NFile _) => Fail (PathError "readdirent" s ENOTDIR)
           | None => Fail (PathError "open" s (missing_errno fs [] (resolve s)))
           end
  end.
Definition os_ReadDir (s : string) : M (list (string * node)) :=
  reads (λ n w, readdir_result n (w_fs w) s).

(** Creates one directory whose parent is a directory. *)
Definition mkdir_at (p : path) : M unit := λ w,
  match fault (w_tick w) SysMkdir (pstr p) with
  | Some e => (Fail (PathError "mkdir" (pstr p) e), tickw w)
  | None => (Ret tt, tickw (set_fs (<[p := NDir]> (w_fs w)) w))
  end.

(** [os.Mkdir]. *)
Definition os_Mkdir (s : string) : M unit :=
  fs <- gets w_fs ;;
  if decide (s = "") then fail (PathError "mkdir" s ENOENT)
  else match fs !! resolve s with
       | Some _ => fail (PathError "mkdir" s EEXIST)
       | None =>
           match fs !! removelast (resolve s) with
           | Some NDir => mkdir_at (resolve s)
           | _ => fail (PathError "mkdir" s (missing_errno fs [] (resolve s)))
           end
       end.

(** [os.MkdirAll]: creates the missing directories from the root down. *)
Fixpoint mkdir_all_from (cur todo : path) : M unit :=
  match todo with
  | [] => ret tt
  | c :: rest =>
      fs <- gets w_fs ;;
      match fs !! (cur ++ [c]) with
      | Some NDir => mkdir_all_from (cur ++ [c]) rest
      | Some (NFile _) => fail (PathError "mkdir" (pstr (cur ++ [c])) ENOTDIR)
      | None => mkdir_at (cur ++ [c]) >> mkdir_all_from (cur ++ [c]) rest
      end
  end.
Definition os_MkdirAll (s : string) : M unit :=
  if decide (s = "") then fail (PathError "mkdir" s ENOENT)
  else mkdir_all_from [] (resolve s).

(** The mounts at or below a path. *)
Definition mounts_below (p : path) (ms : list MountPoint) : list MountPoint :=
  filter (λ mp, p `prefix_of` resolve (mp_Path mp)) ms.

(** Of mounts listed newest first, the ones a path walk can meet: not under a
    newer one at the same path or above. *)
Fixpoint exposed (over : list path) (ms : list MountPoint) : list MountPoint :=
  match ms with
  | [] => []
  | mp :: ms' =>
      if bool_decide (Exists (λ q, q `prefix_of` resolve (mp_Path mp)) over) then exposed over ms'
      else mp :: exposed (resolve (mp_Path mp) :: over) ms'
  end.

Definition readonly (mp : MountPoint) : Prop := "ro" ∈ mp_Opts mp.
#[export] Instance readonly_dec mp : Decision (readonly mp).
Proof. unfold readonly. apply _. Defined.

(** What a removal of [p] with mounts at or below it can delete: the entries
    that no mount hides, and what is in the directories that are bound there,
    unless they are bound read-only. *)
Definition reached (p : path) (busy : list MountPoint) (k : path) : Prop :=
  (p `prefix_of` k ∧ ¬ Exists (λ mp, resolve (mp_Path mp) `prefix_of` k) busy) ∨
  Exists (λ mp, ¬ readonly mp ∧ resolve (mp_Device mp) `prefix_of` k ∧ resolve (mp_Device mp) ≠ k) busy.
#[export] Instance reached_dec p busy k : Decision (reached p busy k).
Proof. unfold reached. apply _. Defined.

(** A [RemoveAll] that meets mount points empties what it can reach, also
    through the mounts, and leaves the mount points and their parents. *)
Definition rm_busy (p : path) (busy : list MountPoint) (fs : fstree) : fstree :=
  filter (λ kn : path * node,
    kn.1 = [] ∨ Exists (λ mp, kn.1 `prefix_of` resolve (mp_Path mp)) busy ∨ ¬ reached p busy kn.1) fs.

(** The error it reports: the one from the contents of a read-only mount, or
    the one from the mount point. *)
Definition busy_errno (busy : list MountPoint) (fs : fstree) : errno :=
  if bool_decide (Exists (λ mp, readonly mp ∧ child_names (resolve (mp_Device mp)) fs ≠ []) busy)
  then EROFS else EBUSY.

Definition endsWithDot (s : string) : bool :=
  bool_decide (last (split_on slash s) = Some ".").

(** [os.RemoveAll]. *)
Definition os_RemoveAll (s : string) : M unit := λ w,
  if decide (s = "") then (Ret tt, w)
  else if endsWithDot s then (Fail (PathError "RemoveAll" s EINVAL), w)
  else match fault (w_tick w) SysRemoveAll s with
       | Some e =>
           (Fail (PathError "unlinkat" s e),
            tickw (set_fs (rm_partial (w_tick w) (w_fs w) (resolve s)) w))
       | None =>
           match w_fs w !! resolve s with
           | None =>
               match missing_errno (w_fs w) [] (resolve s) with
               | ENOENT => (Ret tt, tickw w)
               | e => (Fail (PathError "unlinkat" s e), tickw w)
               end
           | Some _ =>
               match mounts_below (resolve s) (w_mounts w) with
               | [] =>
                   if decide (resolve s = []) then
                     (Fail (PathError "unlinkat" s EBUSY), tickw (set_fs (rm_busy [] [] (w_fs w)) w))
                   else (Ret tt, tickw (set_fs (rm_tree (resolve s) (w_fs w)) w))
               | busy =>
                   let met := exposed [] busy in
                   (Fail (PathError "unlinkat" s (busy_errno met (w_fs w))),
                    tickw (set_fs (rm_busy (resolve s) met (w_fs w)) w))
               end
           end
       end.

(** [os.Remove]: one file or one empty directory. *)
Definition os_Remove (s : string) : M unit := λ w,
  let failed e := (Fail (PathError "remove" s e), tickw w) in
  match fault (w_tick w) SysRemove s with
  | Some e => failed e
  | None =>
      if decide (s = "") then failed ENOENT
      else match w_fs w !! resolve s with
           | None => failed (missing_errno (w_fs w) [] (resolve s))
           | Some _ =>
               if decide (resolve s = []) then failed EBUSY
               else if bool_decide (Exists (λ mp, resolve (mp_Path mp) = resolve s) (w_mounts w)) then failed EBUSY
               else if bool_decide (child_names (resolve s) (w_fs w) = [])
               then (Ret tt, tickw (set_fs (delete (resolve s) (w_fs w)) w))
               else failed ENOTEMPTY
           end
  end.

(** [net.Listen("unix", addr)]: the socket is a new entry of the tree, kept
    here as a file; an address that starts with "@" has none. *)
Definition net_ListenUnix (addr : string) : M unit := λ w,
  let failed e := (Fail (WrapError ("listen unix " +:+ addr +:+ ": bind: " +:+ errno_string e) (Errno e)), tickw w) in
  match fault (w_tick w) SysListen addr with
  | Some e => failed e
  | None =>
      if 107 <? len addr then failed EINVAL
      else if HasPrefix addr "@" then (Ret tt, tickw w)
      else match w_fs w !! resolve addr with
           | Some _ => failed EADDRINUSE
           | None =>
               match w_fs w !! removelast (resolve addr) with
               | Some NDir => (Ret tt, tickw (set_fs (<[resolve addr := NFile "socket"]> (w_fs w)) w))
               | _ => failed (missing_errno (w_fs w) [] (resolve addr))
               end
           end
  end.

(** [unix.Statfs]. *)
Definition unix_Statfs (s : string) : M Statfs_t := reads (λ n _,
  match statfs n s with
  | inl e => Fail (Errno e)
  | inr st => Ret st
  end).

(** The inode change time the kernel reports for an existing path. *)
Definition syscall_Stat_Ctim (s : string) : M (Z * Z) := reads (λ n w,
  match fault n SysStatT s with
  | Some e => Fail (Errno e)
  | None =>
      if decide (s = "") then Fail (Errno ENOENT)
      else match w_fs w !! resolve s with
           | Some _ => Ret (ctime n (resolve s))
           | None => Fail (Errno (missing_errno (w_fs w) [] (resolve s)))
           end
  end).

(** [exec.Command("cp", "-rp", "--reflink=auto", src, dst).Run()]. *)
Definition exec_cp (src dst : string) : M unit := λ w,
  match cp (w_tick w) (w_fs w) (resolve src) (resolve dst) with
  | (true, fs') => (Ret tt, tickw (set_fs fs' w))
  | (false, fs') => (Fail (ErrorString "exit status 1"), tickw (set_fs fs' w))
  end.

(** [for k, v := range m]: the order of this iteration. *)
Definition range_map {A} (m : gmap string A) : M (list (string * A)) :=
  reads (λ n _, Ret (range_order A n m)).
End calls.
