(* ===== verification/OSFacts.v ===== *)
(** * Facts about the file tree and the system calls

    Lookups in changed trees, preservation of [wf_fs], the frame of every
    system call, and what the calls return. *)
From S2P Require Import Prelude GoStrings GoPath GoErrors OS.
Open Scope Z_scope.

(** ** Paths *)

Lemma strip_spec p k r : strip p k = Some r ↔ k = p ++ r.
Proof.
  revert k. induction p as [|x p IH]; intros k; simpl; [naive_solver|].
  destruct k as [|y k]; [naive_solver|]. case_decide; subst; [|naive_solver].
  rewrite IH. naive_solver.
Qed.

Lemma prefix_snoc_inv (p q : path) c : p `prefix_of` q ++ [c] → p = q ++ [c] ∨ p `prefix_of` q.
Proof.
  intros [r Hr]. destruct r as [|x r _] using rev_ind.
  - left. by rewrite app_nil_r in Hr.
  - right. rewrite app_assoc in Hr. apply app_inj_tail in Hr as [-> _]. by exists r.
Qed.

Lemma prefix_of_snoc (p q : path) c : p `prefix_of` q → p `prefix_of` q ++ [c].
Proof. intros [r ->]. exists (r ++ [c]). by rewrite app_assoc. Qed.

Lemma not_prefix_snoc (p : path) c : ¬ p ++ [c] `prefix_of` p.
Proof. intros H%prefix_length. rewrite length_app in H. simpl in H. lia. Qed.

Lemma prefix_of_nil (p : path) : p `prefix_of` [] → p = [].
Proof. intros [r Hr]. by destruct p. Qed.

Lemma prefix_app_common (p q r : path) : p ++ q `prefix_of` p ++ r ↔ q `prefix_of` r.
Proof. split; [apply prefix_app_inv|apply prefix_app]. Qed.

(** ** Directory entries *)

Lemma elem_of_child_names c p fs : c ∈ child_names p fs ↔ is_Some (fs !! (p ++ [c])).
Proof.
  unfold child_names. rewrite list_elem_of_omap. split.
  - intros ([k n]&Hk%elem_of_map_to_list&Hs). simpl in *.
    destruct (strip p k) as [[|x [|]]|] eqn:Hst; simplify_eq.
    apply strip_spec in Hst as ->. eauto.
  - intros [n Hn]. exists (p ++ [c], n). split; [by apply elem_of_map_to_list|].
    simpl. by rewrite (proj2 (strip_spec p (p ++ [c]) [c]) eq_refl).
Qed.

Lemma NoDup_child_names p fs : NoDup (child_names p fs).
Proof.
  unfold child_names. pose proof (NoDup_fst_map_to_list fs) as Hnd.
  induction (map_to_list fs) as [|[k n] l IH]; simpl in *; [constructor|].
  apply NoDup_cons in Hnd as [Hk Hnd]. specialize (IH Hnd).
  destruct (strip p k) as [[|c [|]]|] eqn:Hst; try done.
  constructor; [|done]. rewrite list_elem_of_omap. intros ([k' n']&Hin&Hs). simpl in Hs.
  destruct (strip p k') as [[|c' [|]]|] eqn:Hst'; simplify_eq.
  apply strip_spec in Hst as ->, Hst' as ->. apply Hk.
  apply list_elem_of_fmap. by exists (p ++ [c], n').
Qed.

Lemma elem_of_entries c n p fs : (c, n) ∈ entries p fs ↔ fs !! (p ++ [c]) = Some n.
Proof.
  unfold entries. rewrite list_elem_of_omap. split.
  - intros (c'&Hin&Hs). destruct (fs !! (p ++ [c'])) eqn:Hl; simplify_eq/=; naive_solver.
  - intros Hl. exists c. rewrite elem_of_sort_Strings, elem_of_child_names.
    split; [by eexists|]. by rewrite Hl.
Qed.

Lemma entries_names p fs : (entries p fs).*1 = sort_Strings (child_names p fs).
Proof.
  unfold entries.
  assert (∀ c, c ∈ sort_Strings (child_names p fs) → is_Some (fs !! (p ++ [c]))) as Hs.
  { intros c. by rewrite elem_of_sort_Strings, elem_of_child_names. }
  induction (sort_Strings (child_names p fs)) as [|c l IH]; [done|]. simpl.
  destruct (Hs c) as [n Hn]; [left|]. rewrite Hn. simpl. f_equal.
  apply IH. intros ??. apply Hs. by right.
Qed.

(** ** Changed trees *)

Lemma lookup_rm_tree p fs k :
  rm_tree p fs !! k = if decide (p `prefix_of` k) then None else fs !! k.
Proof.
  unfold rm_tree. rewrite map_lookup_filter.
  destruct (fs !! k) as [n|] eqn:Hk; simpl; repeat case_guard || case_decide; naive_solver.
Qed.

Lemma wf_dir_above fs p q n :
  wf_fs fs → q ≠ [] → fs !! (p ++ q) = Some n → fs !! p = Some NDir.
Proof.
  intros Hwf. revert n. induction q as [|c q IH] using rev_ind; intros n Hq Hl; [done|].
  rewrite app_assoc in Hl. apply (wf_parent _ Hwf) in Hl as [Hd _].
  destruct q as [|d q]; [by rewrite app_nil_r in Hd|]. by apply (IH NDir).
Qed.

Lemma wf_prefix_dir fs p k n :
  wf_fs fs → p `prefix_of` k → p ≠ k → fs !! k = Some n → fs !! p = Some NDir.
Proof.
  intros Hwf [q ->] Hne Hl. eapply wf_dir_above; [done| |done].
  intros ->. by rewrite app_nil_r in Hne.
Qed.

(** Removing a directory that was just added gives the tree back. *)
Lemma rm_tree_insert_new p x fs :
  wf_fs fs → fs !! p = None → rm_tree p (<[p := x]> fs) = fs.
Proof.
  intros Hwf Hp. apply map_eq. intros k. rewrite lookup_rm_tree. case_decide as Hpre.
  - destruct (fs !! k) as [n|] eqn:Hk; [|done]. destruct (decide (p = k)) as [->|Hne]; [congruence|].
    by rewrite (wf_prefix_dir _ _ _ _ Hwf Hpre Hne Hk) in Hp.
  - rewrite lookup_insert_ne; [done|]. intros ->. by apply Hpre.
Qed.

Lemma endsWithDot_Join base id : valid_name id → endsWithDot (Join [base; id]) = false.
Proof.
  intros Hid. unfold endsWithDot. rewrite Join_last by done. apply bool_decide_eq_false.
  intros [= ->]. by destruct Hid as (?&?&?).
Qed.

Lemma wf_rm_tree fs p : p ≠ [] → wf_fs fs → wf_fs (rm_tree p fs).
Proof.
  intros Hp Hwf. split.
  - rewrite lookup_rm_tree, decide_False; [apply Hwf|]. by intros ?%prefix_of_nil.
  - intros q c n. rewrite !lookup_rm_tree. case_decide as Hd; [done|]. intros Hl.
    apply (wf_parent _ Hwf) in Hl as [??]. rewrite decide_False; [done|].
    intros ?. by apply Hd, prefix_of_snoc.
Qed.

Lemma wf_insert_dir fs p c :
  wf_fs fs → fs !! p = Some NDir → valid_name c → fs !! (p ++ [c]) = None →
  wf_fs (<[p ++ [c] := NDir]> fs).
Proof.
  intros Hwf Hp Hc Hn. split.
  - rewrite lookup_insert_ne by by destruct p. apply Hwf.
  - intros q d n Hl. destruct (decide (p ++ [c] = q ++ [d])) as [Heq|Hne].
    + apply app_inj_tail in Heq as [-> ->]. split; [|done].
      rewrite lookup_insert_ne; [done|]. intros Heq%(f_equal length).
      rewrite length_app in Heq. simpl in Heq. lia.
    + rewrite lookup_insert_ne in Hl by done. apply (wf_parent _ Hwf) in Hl as [Hq ?].
      split; [|done]. destruct (decide (p ++ [c] = q)) as [->|]; [by rewrite lookup_insert_eq|].
      by rewrite lookup_insert_ne.
Qed.

Lemma lookup_rm_busy_sub p busy fs k :
  rm_busy p busy fs !! k = fs !! k ∨ rm_busy p busy fs !! k = None.
Proof.
  unfold rm_busy. rewrite map_lookup_filter.
  destruct (fs !! k) as [n|] eqn:Hk; simpl; [|auto]. case_guard; auto.
Qed.

Lemma reached_device_snoc busy q (c : string) :
  Exists (λ mp, ¬ readonly mp ∧ resolve (mp_Device mp) `prefix_of` q ∧ resolve (mp_Device mp) ≠ q) busy →
  Exists (λ mp, ¬ readonly mp ∧ resolve (mp_Device mp) `prefix_of` q ++ [c] ∧
                resolve (mp_Device mp) ≠ q ++ [c]) busy.
Proof.
  intros Hdev. eapply Exists_impl; [done|]. simpl. intros mp (Hro&Hpre&Hne).
  split_and!; [done|by apply prefix_of_snoc|]. intros Heq. rewrite Heq in Hpre.
  by apply not_prefix_snoc in Hpre.
Qed.

Lemma wf_rm_busy p busy fs : wf_fs fs → wf_fs (rm_busy p busy fs).
Proof.
  intros Hwf. unfold rm_busy. split.
  - apply map_lookup_filter_Some. split; [apply Hwf|]. by left.
  - intros q c n [Hl Hk]%map_lookup_filter_Some. simpl in Hk.
    apply (wf_parent _ Hwf) in Hl as [Hq ?]. split; [|done].
    apply map_lookup_filter_Some. split; [done|]. simpl. right.
    destruct Hk as [Hk|[Hk|Hk]]; [by destruct q| |].
    + left. eapply Exists_impl; [done|]. intros mp [r Hr]. exists (c :: r).
      rewrite Hr. by rewrite <-app_assoc.
    + destruct (decide (Exists (λ mp, resolve (mp_Path mp) `prefix_of` q ++ [c]) busy)) as [Hhid|Hhid].
      * apply Exists_exists in Hhid as (mp&Hin&Hpre). apply prefix_snoc_inv in Hpre as [Heq|Hpre].
        { left. apply Exists_exists. exists mp. split; [done|]. rewrite Heq. by apply prefix_app_r. }
        right. intros [[_ Hno]|Hdev]; [apply Hno, Exists_exists; eauto|].
        apply Hk. right. by eapply reached_device_snoc.
      * right. intros [[Hpq _]|Hdev]; apply Hk; [left|right; by eapply reached_device_snoc].
        split; [by apply prefix_of_snoc|done].
Qed.

(** ** Relations between the world before and after a call *)

(** The tree stays well-formed. *)
Definition wf_rel (w w' : world) : Prop := wf_fs (w_fs w) → wf_fs (w_fs w').

Definition inside (roots : list path) (k : path) : Prop := Exists (λ r, r `prefix_of` k) roots.

#[export] Instance inside_dec roots k : Decision (inside roots k).
Proof. unfold inside. apply _. Defined.

Lemma inside_below roots p k : inside roots p → p `prefix_of` k → inside roots k.
Proof.
  intros Hin Hp. eapply Exists_impl; [done|]. intros r Hr. by transitivity p.
Qed.

(** [k] is as before, or a directory on the way to a root that was missing. *)
Definition kept (roots : list path) (fs fs' : fstree) (k : path) : Prop :=
  fs' !! k = fs !! k ∨
  (fs !! k = None ∧ fs' !! k = Some NDir ∧ Exists (λ r, k `prefix_of` r) roots).

Definition unmounted (roots : list path) (w : world) : Prop :=
  ∀ mp, mp ∈ w_mounts w → ¬ inside roots (resolve (mp_Path mp)).

(** Nothing changes outside [roots], as long as nothing is mounted inside them;
    the mount table does not change. *)
Definition confined (roots : list path) (w w' : world) : Prop :=
  w_mounts w' = w_mounts w ∧
  (unmounted roots w → ∀ k, ¬ inside roots k → kept roots (w_fs w) (w_fs w') k).

#[export] Instance wf_rel_preorder : PreOrder wf_rel.
Proof. split; unfold wf_rel; [by intros w|]. intros w1 w2 w3. auto. Qed.

#[export] Instance confined_preorder roots : PreOrder (confined roots).
Proof.
  split.
  - intros w. split; [done|]. intros _ k _. by left.
  - intros w1 w2 w3 [Hm1 H1] [Hm2 H2]. split; [congruence|]. intros Hu k Hk.
    assert (unmounted roots w2) as Hu2 by (unfold unmounted in *; by rewrite Hm1).
    destruct (H1 Hu k Hk) as [E1|(E1&E1'&E1'')], (H2 Hu2 k Hk) as [E2|(E2&E2'&E2'')];
      unfold kept; intuition congruence.
Qed.

(** What is confined to one path is confined to any roots that contain it. *)
Lemma confined_mono roots p w w' : inside roots p → confined [p] w w' → confined roots w w'.
Proof.
  intros Hin [Hm Hk]. split; [done|]. intros Hu k Hout.
  assert (¬ inside [p] k) as Hout1.
  { intros [Hp|?%Exists_nil]%Exists_cons; [|done]. apply Hout. by eapply inside_below. }
  assert (unmounted [p] w) as Hu1.
  { intros mp Hmp [Hp|?%Exists_nil]%Exists_cons; [|done]. apply (Hu mp Hmp). by eapply inside_below. }
  destruct (Hk Hu1 k Hout1) as [?|(?&?&Hpre)]; [by left|]. right. split_and!; [done..|].
  apply Exists_cons in Hpre as [Hpre|?%Exists_nil]; [|done].
  apply Exists_exists in Hin as (r&Hr&Hrp). apply Exists_exists. exists r. split; [done|].
  destruct (prefix_weak_total k r p) as [|Hrk]; [done..|]. exfalso. apply Hout, Exists_exists. eauto.
Qed.

(** Relations that do not look at the call counter. *)
Class TickInv (R : relation world) := tick_inv : ∀ w, R w (tickw w).
#[export] Instance wf_rel_tick : TickInv wf_rel.
Proof. intros w Hwf. exact Hwf. Qed.
#[export] Instance confined_tick roots : TickInv (confined roots).
Proof. intros w. split; [done|]. intros _ k _. by left. Qed.

Lemma respects_reads R `{!TickInv R} {A} (f : nat → world → outcome gerror A) :
  respects R (reads f).
Proof. intros w. apply tick_inv. Qed.
#[export] Hint Resolve respects_reads : go.
#[export] Hint Extern 1 (TickInv _) => apply _ : go.

Section facts.
Context `{!Env}.

Lemma respects_Stat R `{!TickInv R} s : respects R (os_Stat s).
Proof. unfold os_Stat. auto with go. Qed.
Lemma respects_StatInfo R `{!TickInv R} s : respects R (os_StatInfo s).
Proof. unfold os_StatInfo. auto with go. Qed.
Lemma respects_StatMode R `{!TickInv R} s : respects R (os_StatMode s).
Proof. unfold os_StatMode. auto with go. Qed.
Lemma respects_EvalSymlinks R `{!TickInv R} s : respects R (filepath_EvalSymlinks s).
Proof. unfold filepath_EvalSymlinks. auto with go. Qed.
Lemma respects_ReadDir R `{!TickInv R} s : respects R (os_ReadDir s).
Proof. unfold os_ReadDir. auto with go. Qed.
Lemma respects_Statfs R `{!TickInv R} s : respects R (unix_Statfs s).
Proof. unfold unix_Statfs. auto with go. Qed.
Lemma respects_Ctim R `{!TickInv R} s : respects R (syscall_Stat_Ctim s).
Proof. unfold syscall_Stat_Ctim. auto with go. Qed.
Lemma respects_range R `{!TickInv R} {A} (m : gmap string A) : respects R (range_map m).
Proof. unfold range_map. auto with go. Qed.

(** What a program does with the entries of the map it ranges over. *)
Lemma respects_range_elems R `{!PreOrder R, !TickInv R} {A B} (m : gmap string A) (k : _ → M B) :
  (∀ l, (∀ kv, kv ∈ l → m !! kv.1 = Some kv.2) → respects R (k l)) →
  respects R (bind (range_map m) k).
Proof.
  intros Hk. apply (respects_bind_post _ _ _ (λ l, ∀ kv, kv ∈ l → m !! kv.1 = Some kv.2));
    [apply respects_range; apply _| |done].
  intros w [key v]. rewrite range_order_perm. by rewrite elem_of_map_to_list.
Qed.

(** *** [os.MkdirAll] *)

(** Every run adds directories on the way to the target and nothing else. *)
Lemma mkdir_all_from_adds todo cur w :
  let w' := (mkdir_all_from cur todo w).2 in
  w_mounts w' = w_mounts w ∧
  ∀ k, w_fs w' !! k = w_fs w !! k ∨
       (w_fs w !! k = None ∧ w_fs w' !! k = Some NDir ∧ k `prefix_of` cur ++ todo).
Proof.
  revert cur w. induction todo as [|c todo IH]; intros cur w; simpl; [by auto|].
  unfold bind, gets at 1. simpl. destruct (w_fs w !! (cur ++ [c])) as [[|]|] eqn:Hc.
  - specialize (IH (cur ++ [c]) w). by rewrite <-app_assoc in IH.
  - split; [done|]. by left.
  - unfold mkdir_at. destruct (fault _ _ _); simpl; [split; [done|]; by left|].
    specialize (IH (cur ++ [c]) (tickw (set_fs (<[cur ++ [c]:=NDir]> (w_fs w)) w))).
    rewrite <-app_assoc in IH. simpl in *. destruct IH as [IHm IHk].
    split; [done|]. intros k. specialize (IHk k).
    destruct (decide (cur ++ [c] = k)) as [<-|Hne].
    + rewrite lookup_insert_eq in IHk. right. split; [done|]. split; [naive_solver|].
      exists todo. by rewrite <-app_assoc.
    + by rewrite lookup_insert_ne in IHk.
Qed.

(** On success every directory on the way is there. *)
Lemma mkdir_all_from_ret todo cur w w' :
  mkdir_all_from cur todo w = (Ret tt, w') → w_fs w !! cur = Some NDir →
  ∀ q, q `prefix_of` todo → w_fs w' !! (cur ++ q) = Some NDir.
Proof.
  revert cur w. induction todo as [|c todo IH]; intros cur w Hrun Hcur q Hq.
  { injection Hrun as <-. apply prefix_of_nil in Hq as ->. by rewrite app_nil_r. }
  assert (w_fs w' !! cur = Some NDir) as Hcur'.
  { destruct (mkdir_all_from_adds (c :: todo) cur w) as [_ Hk]. rewrite Hrun in Hk. simpl in Hk.
    destruct (Hk cur) as [->|(?&?&_)]; [done|congruence]. }
  destruct q as [|d q]; [by rewrite app_nil_r|].
  apply prefix_cons_inv_1 in Hq as ?. apply prefix_cons_inv_2 in Hq. subst d.
  cbn [mkdir_all_from] in Hrun. unfold bind at 1, gets in Hrun. simpl in Hrun.
  change (c :: q) with ([c] ++ q). rewrite app_assoc.
  destruct (w_fs w !! (cur ++ [c])) as [[|]|] eqn:Hc; [by eapply IH|done|].
  unfold bind, mkdir_at in Hrun. destruct (fault _ _ _); [done|].
  eapply IH; [exact Hrun| |done]. simpl. by rewrite lookup_insert_eq.
Qed.

Lemma mkdir_all_from_wf todo cur w :
  Forall valid_name todo → w_fs w !! cur = Some NDir →
  wf_fs (w_fs w) → wf_fs (w_fs (mkdir_all_from cur todo w).2).
Proof.
  intros Hv. revert cur w. induction Hv as [|c todo Hc Hv IH]; intros cur w Hcur Hwf; [done|].
  simpl. unfold bind, gets at 1. simpl.
  destruct (w_fs w !! (cur ++ [c])) as [[|]|] eqn:Hl; [by apply IH|done|].
  unfold mkdir_at. destruct (fault _ _ _); simpl; [done|].
  apply IH; simpl; [by rewrite lookup_insert_eq|]. by apply wf_insert_dir.
Qed.

(** What a successful [MkdirAll] did. *)
Lemma MkdirAll_ret s w w' :
  wf_fs (w_fs w) → os_MkdirAll s w = (Ret tt, w') →
  w_mounts w' = w_mounts w ∧ wf_fs (w_fs w') ∧
  (∀ q, q `prefix_of` resolve s → w_fs w' !! q = Some NDir) ∧
  (∀ k, ¬ k `prefix_of` resolve s → w_fs w' !! k = w_fs w !! k) ∧
  (∀ k x, w_fs w !! k = Some x → w_fs w' !! k = Some x).
Proof.
  intros Hwf Hrun. unfold os_MkdirAll in Hrun. case_decide; [done|].
  destruct (mkdir_all_from_adds (resolve s) [] w) as [Hm Hk].
  pose proof (mkdir_all_from_wf (resolve s) [] w (resolve_valid s) (wf_root _ Hwf) Hwf) as Hwf'.
  rewrite Hrun in *. simpl in *. split_and!; [done|done| | |].
  - intros q Hq. by apply (mkdir_all_from_ret _ [] w w' Hrun (wf_root _ Hwf)).
  - intros k Hk'. destruct (Hk k) as [?|(?&?&?)]; done.
  - intros k x Hx. destruct (Hk k) as [->|(?&?&?)]; [done|congruence].
Qed.

Lemma respects_wf_MkdirAll s : respects wf_rel (os_MkdirAll s).
Proof.
  intros w Hwf. unfold os_MkdirAll. case_decide; [done|].
  apply mkdir_all_from_wf; [apply resolve_valid|apply Hwf|done].
Qed.

Lemma respects_confined_MkdirAll roots s :
  inside roots (resolve s) → respects (confined roots) (os_MkdirAll s).
Proof.
  intros Hin w. unfold os_MkdirAll. case_decide; [by destruct (confined_preorder roots)|].
  destruct (mkdir_all_from_adds (resolve s) [] w) as [Hm Hk]. split; [done|].
  intros _ k Hout. destruct (Hk k) as [?|(?&?&Hpre)]; [by left|]. right.
  split_and!; [done..|]. simpl in Hpre.
  apply Exists_exists in Hin as (r&Hr&Hpr). apply Exists_exists. exists r. split; [done|].
  destruct (prefix_weak_total k r (resolve s)) as [|Hrk]; [done..|].
  exfalso. apply Hout. apply Exists_exists. by exists r.
Qed.

(** Existing directories are walked without any change. *)
Lemma mkdir_all_from_existing todo cur rest w :
  wf_fs (w_fs w) → w_fs w !! (cur ++ todo) = Some NDir →
  mkdir_all_from cur (todo ++ rest) w = mkdir_all_from (cur ++ todo) rest w.
Proof.
  intros Hwf. revert cur. induction todo as [|c todo IH]; intros cur Hd; simpl.
  { by rewrite app_nil_r. }
  unfold bind, gets at 1. simpl.
  assert (w_fs w !! (cur ++ [c]) = Some NDir) as ->.
  { destruct todo as [|d todo]; [done|].
    eapply (wf_dir_above _ (cur ++ [c]) (d :: todo)); [done..|]. by rewrite <-app_assoc. }
  replace (cur ++ c :: todo) with ((cur ++ [c]) ++ todo) in * by by rewrite <-app_assoc.
  by apply IH.
Qed.

Lemma MkdirAll_existing s w :
  wf_fs (w_fs w) → s ≠ "" → w_fs w !! resolve s = Some NDir → os_MkdirAll s w = (Ret tt, w).
Proof.
  intros Hwf Hs Hd. unfold os_MkdirAll. rewrite decide_False by done.
  rewrite <-(app_nil_r (resolve s)). by rewrite mkdir_all_from_existing.
Qed.

(** A new entry of an existing directory. *)
Lemma MkdirAll_new s p c w :
  wf_fs (w_fs w) → s ≠ "" → resolve s = p ++ [c] → w_fs w !! p = Some NDir →
  w_fs w !! (p ++ [c]) = None → os_MkdirAll s w = mkdir_at (p ++ [c]) w.
Proof.
  intros Hwf Hs Hr Hp Hn. unfold os_MkdirAll. rewrite decide_False, Hr by done.
  rewrite mkdir_all_from_existing by done. simpl. unfold bind at 1, gets. simpl. rewrite Hn.
  unfold bind. by destruct (mkdir_at (p ++ [c]) w) as [[[]| |] ?].
Qed.

(** *** [os.RemoveAll] *)

Lemma RemoveAll_frame s w :
  let w' := (os_RemoveAll s w).2 in
  w_mounts w' = w_mounts w ∧
  (mounts_below (resolve s) (w_mounts w) = [] →
   ∀ k, ¬ resolve s `prefix_of` k → w_fs w' !! k = w_fs w !! k).
Proof.
  unfold os_RemoveAll. case_decide; [done|]. destruct (endsWithDot s); [done|].
  destruct (fault _ _ _) as [e|].
  { simpl. split; [done|]. intros _ k Hk.
    destruct (rm_partial_sub (w_tick w) (w_fs w) (resolve s) k) as [?|[? _]]; done. }
  destruct (w_fs w !! resolve s) as [n|] eqn:Hl; [|by case_match].
  destruct (mounts_below _ _) as [|mp ms] eqn:Hb; [|split; [done|by intros ?]].
  case_decide as Hr; simpl; split; try done; intros _ k Hk.
  - rewrite Hr in Hk. exfalso. apply Hk, prefix_nil.
  - by rewrite lookup_rm_tree, decide_False.
Qed.

Lemma RemoveAll_removes_only s w k :
  w_fs (os_RemoveAll s w).2 !! k = w_fs w !! k ∨ w_fs (os_RemoveAll s w).2 !! k = None.
Proof.
  unfold os_RemoveAll. case_decide; [by left|]. destruct (endsWithDot s); [by left|].
  destruct (fault _ _ _) as [e|].
  { simpl. destruct (rm_partial_sub (w_tick w) (w_fs w) (resolve s) k) as [?|[_ ?]]; auto. }
  destruct (w_fs w !! resolve s); [|case_match; by left].
  destruct (mounts_below _ _); [case_decide|]; simpl; try apply lookup_rm_busy_sub.
  rewrite lookup_rm_tree. case_decide; auto.
Qed.

Lemma respects_wf_RemoveAll s : respects wf_rel (os_RemoveAll s).
Proof.
  intros w Hwf. unfold os_RemoveAll. case_decide; [done|]. destruct (endsWithDot s); [done|].
  destruct (fault _ _ _); [by apply rm_partial_wf|].
  destruct (w_fs w !! resolve s); [|by case_match].
  destruct (mounts_below _ _); [case_decide|]; simpl; auto using wf_rm_busy, wf_rm_tree.
Qed.

Lemma mounts_below_nil p ms :
  mounts_below p ms = [] ↔ ∀ mp, mp ∈ ms → ¬ p `prefix_of` resolve (mp_Path mp).
Proof.
  unfold mounts_below. split.
  - intros Hnil mp Hin Hp.
    assert (mp ∈ filter (λ mp, p `prefix_of` resolve (mp_Path mp)) ms) as Hm.
    { by apply list_elem_of_filter. }
    rewrite Hnil in Hm. by apply not_elem_of_nil in Hm.
  - intros Hno. destruct (filter _ ms) as [|mp l] eqn:Hf; [done|]. exfalso.
    assert (mp ∈ filter (λ mp, p `prefix_of` resolve (mp_Path mp)) ms) as Hm.
    { rewrite Hf. left. }
    apply list_elem_of_filter in Hm as [??]. by eapply Hno.
Qed.

Lemma respects_confined_RemoveAll roots s :
  inside roots (resolve s) → respects (confined roots) (os_RemoveAll s).
Proof.
  intros Hin w. destruct (RemoveAll_frame s w) as [Hm Hk]. split; [done|].
  intros Hu k Hout. left. apply Hk.
  - apply mounts_below_nil. intros mp Hmp Hp. apply (Hu mp Hmp). by eapply inside_below.
  - intros Hp. apply Hout. by eapply inside_below.
Qed.

(** A successful [RemoveAll] leaves nothing at the path. *)
Lemma RemoveAll_gone s w w' :
  wf_fs (w_fs w) → s ≠ "" → os_RemoveAll s w = (Ret tt, w') →
  ∀ k, resolve s `prefix_of` k → w_fs w' !! k = None.
Proof.
  intros Hwf Hs. unfold os_RemoveAll. rewrite decide_False by done.
  destruct (endsWithDot s); [done|]. destruct (fault _ _ _); [done|].
  destruct (w_fs w !! resolve s) as [n|] eqn:Hl.
  - destruct (mounts_below _ _); [|done]. case_decide; [done|]. intros [= <-] k Hk.
    simpl. by rewrite lookup_rm_tree, decide_True.
  - destruct (missing_errno _ _ _); try done. intros [= <-] k Hk. simpl.
    destruct (w_fs w !! k) as [n|] eqn:Hn; [|done].
    destruct (decide (resolve s = k)) as [<-|Hne]; [congruence|].
    by rewrite (wf_prefix_dir _ _ _ _ Hwf Hk Hne Hn) in Hl.
Qed.

(** *** [cp] *)

Lemma respects_wf_cp src dst : respects wf_rel (exec_cp src dst).
Proof.
  intros w Hwf. unfold exec_cp.
  pose proof (cp_wf (w_tick w) (w_fs w) (resolve src) (resolve dst) Hwf).
  by destruct (cp _ _ _ _) as [[] ?].
Qed.

Lemma exec_cp_frame src dst w :
  w_mounts (exec_cp src dst w).2 = w_mounts w ∧
  ∀ k, ¬ resolve dst `prefix_of` k → w_fs (exec_cp src dst w).2 !! k = w_fs w !! k.
Proof.
  unfold exec_cp.
  pose proof (cp_frame (w_tick w) (w_fs w) (resolve src) (resolve dst)).
  by destruct (cp _ _ _ _) as [[] ?].
Qed.

Lemma respects_confined_cp roots src dst :
  inside roots (resolve dst) → respects (confined roots) (exec_cp src dst).
Proof.
  intros Hin w. destruct (exec_cp_frame src dst w) as [Hm Hk]. split; [done|].
  intros _ k Hout. left. apply Hk. intros Hp. apply Hout. by eapply inside_below.
Qed.

(** *** What lookups report *)

Lemma stat_result_found n fs s x : stat_result n fs s = Ret x → fs !! resolve s = Some x.
Proof. unfold stat_result. repeat case_match; by intros; simplify_eq. Qed.

Lemma stat_result_no_panic n fs s p : stat_result n fs s ≠ Panic p.
Proof. unfold stat_result. by repeat case_match. Qed.

Lemma missing_errno_wf fs cur todo :
  wf_fs fs → (∀ q, q `prefix_of` todo → fs !! (cur ++ q) ≠ Some NDir → fs !! (cur ++ q) = None) →
  missing_errno fs cur todo = ENOENT.
Proof.
  intros Hwf. revert cur. induction todo as [|c todo IH]; intros cur Hq; simpl; [done|].
  destruct (fs !! cur) as [[|]|] eqn:Hc.
  2: { specialize (Hq [] (prefix_nil _)). rewrite app_nil_r, Hc in Hq. by discriminate Hq. }
  all: apply IH; intros q Hp; rewrite <-app_assoc; apply Hq; simpl; by apply prefix_cons.
Qed.

(** The entry of an existing directory is missing with [ENOENT]. *)
Lemma missing_errno_entry fs p c :
  wf_fs fs → fs !! p = Some NDir → fs !! (p ++ [c]) = None → missing_errno fs [] (p ++ [c]) = ENOENT.
Proof.
  intros Hwf Hp Hc. apply missing_errno_wf; [done|]. simpl. intros q Hq Hnd.
  apply prefix_snoc_inv in Hq as [->|Hq]; [done|]. exfalso. apply Hnd.
  destruct (decide (q = p)) as [->|Hne]; [done|]. by eapply wf_prefix_dir.
Qed.
End facts.

#[export] Hint Resolve respects_Stat respects_StatInfo respects_StatMode respects_EvalSymlinks respects_ReadDir respects_Statfs respects_Ctim respects_range
  respects_wf_MkdirAll respects_wf_RemoveAll respects_wf_cp
  respects_confined_MkdirAll respects_confined_RemoveAll respects_confined_cp : go.

(** ** System calls return: a result or an error *)

Section nopanic.
Context `{!Env}.

Lemma nopanic_Stat s : nopanic (os_Stat s).
Proof. intros w. apply stat_result_no_panic. Qed.
Lemma nopanic_StatInfo s : nopanic (os_StatInfo s).
Proof.
  intros w p. unfold os_StatInfo, reads. simpl.
  pose proof (stat_result_no_panic (w_tick w) (w_fs w) s p) as Hn.
  destruct (stat_result _ _ _); [done..|]. intros [= ->]. by apply Hn.
Qed.
Lemma nopanic_ReadDir s : nopanic (os_ReadDir s).
Proof. intros w p. unfold os_ReadDir, reads, readdir_result. simpl. by repeat case_match. Qed.
Lemma nopanic_Statfs s : nopanic (unix_Statfs s).
Proof. intros w p. unfold unix_Statfs, reads. simpl. by case_match. Qed.
Lemma nopanic_Ctim s : nopanic (syscall_Stat_Ctim s).
Proof. intros w p. unfold syscall_Stat_Ctim, reads. simpl. by repeat case_match. Qed.
Lemma nopanic_range {A} (m : gmap string A) : nopanic (range_map m).
Proof. done. Qed.
Lemma nopanic_mkdir_at p : nopanic (mkdir_at p).
Proof. intros w m. unfold mkdir_at. by case_match. Qed.
Lemma nopanic_Mkdir s : nopanic (os_Mkdir s).
Proof. pose proof nopanic_mkdir_at. unfold os_Mkdir. nopanic_tac. Qed.
Lemma nopanic_MkdirAll s : nopanic (os_MkdirAll s).
Proof.
  pose proof nopanic_mkdir_at. unfold os_MkdirAll. case_decide; [done|].
  generalize (@nil string). induction (resolve s); intros cur; simpl; nopanic_tac.
Qed.
Lemma nopanic_RemoveAll s : nopanic (os_RemoveAll s).
Proof. intros w p. unfold os_RemoveAll. by repeat case_match. Qed.
Lemma nopanic_cp src dst : nopanic (exec_cp src dst).
Proof. intros w p. unfold exec_cp. by repeat case_match. Qed.
End nopanic.

#[export] Hint Resolve nopanic_Stat nopanic_StatInfo nopanic_ReadDir nopanic_Statfs nopanic_Ctim
  nopanic_range nopanic_Mkdir nopanic_MkdirAll nopanic_RemoveAll nopanic_cp : go.

(** ** Programs that only look *)

(** Only the call counter moves. *)
Definition quiet (w w' : world) : Prop :=
  w_fs w' = w_fs w ∧ w_mounts w' = w_mounts w ∧ w_gauge w' = w_gauge w.

#[export] Instance quiet_preorder : PreOrder quiet.
Proof. split; unfold quiet; [by intros w|]. intros w1 w2 w3. intuition congruence. Qed.
#[export] Instance quiet_tick : TickInv quiet.
Proof. by intros w. Qed.

(** An environment in which no system call fails. *)
Definition no_faults `{!Env} : Prop := ∀ n k s, fault n k s = None.

Section no_faults.
Context `{!Env} (Hnf : no_faults).

Lemma Stat_found s x w :
  s ≠ "" → w_fs w !! resolve s = Some x → os_Stat s w = (Ret x, tickw w).
Proof.
  intros Hs Hl. unfold os_Stat, reads, stat_result. rewrite Hnf.
  by rewrite decide_False, Hl by done.
Qed.

Lemma Stat_missing s w :
  s ≠ "" → w_fs w !! resolve s = None →
  os_Stat s w = (Fail (PathError "stat" s (missing_errno (w_fs w) [] (resolve s))), tickw w).
Proof.
  intros Hs Hl. unfold os_Stat, reads, stat_result. rewrite Hnf.
  by rewrite decide_False, Hl by done.
Qed.

Lemma StatInfo_found s x w :
  s ≠ "" → w_fs w !! resolve s = Some x →
  os_StatInfo s w = (Ret (x, ctime (w_tick w) (resolve s)), tickw w).
Proof.
  intros Hs Hl. unfold os_StatInfo, reads, stat_result. rewrite Hnf.
  by rewrite decide_False, Hl by done.
Qed.

Lemma StatInfo_missing s w :
  s ≠ "" → w_fs w !! resolve s = None →
  os_StatInfo s w = (Fail (PathError "stat" s (missing_errno (w_fs w) [] (resolve s))), tickw w).
Proof.
  intros Hs Hl. unfold os_StatInfo, reads, stat_result. rewrite Hnf.
  by rewrite decide_False, Hl by done.
Qed.

Lemma ReadDir_found s w :
  s ≠ "" → w_fs w !! resolve s = Some NDir →
  os_ReadDir s w = (Ret (entries (resolve s) (w_fs w)), tickw w).
Proof.
  intros Hs Hl. unfold os_ReadDir, reads, readdir_result. rewrite Hnf.
  by rewrite decide_False, Hl by done.
Qed.

Lemma mkdir_at_ok p w :
  mkdir_at p w = (Ret tt, tickw (set_fs (<[p := NDir]> (w_fs w)) w)).
Proof. unfold mkdir_at. by rewrite Hnf. Qed.

(** Two new levels below an existing directory. *)
Lemma MkdirAll_new2 s p c d w :
  wf_fs (w_fs w) → s ≠ "" → resolve s = p ++ [c; d] → w_fs w !! p = Some NDir →
  w_fs w !! (p ++ [c]) = None →
  os_MkdirAll s w =
    (Ret tt, tickw (tickw (set_fs (<[p ++ [c; d] := NDir]> (<[p ++ [c] := NDir]> (w_fs w))) w))).
Proof.
  intros Hwf Hs Hr Hp Hn. unfold os_MkdirAll. rewrite decide_False, Hr by done.
  rewrite mkdir_all_from_existing by done. cbn [mkdir_all_from].
  unfold bind at 1, gets. simpl. rewrite Hn.
  rewrite (run_bind_ret _ _ _ _ _ (mkdir_at_ok _ _)). unfold bind at 1, gets. simpl.
  rewrite <-app_assoc. simpl. rewrite lookup_insert_ne.
  2: { intros Heq%(f_equal length). rewrite !length_app in Heq. simpl in Heq. lia. }
  destruct (w_fs w !! (p ++ [c; d])) as [x|] eqn:Hd.
  - exfalso. change [c; d] with ([c] ++ [d]) in Hd. rewrite app_assoc in Hd.
    apply (wf_parent _ Hwf) in Hd as [? _]. congruence.
  - by rewrite (run_bind_ret _ _ _ _ _ (mkdir_at_ok _ _)).
Qed.

Lemma RemoveAll_found s x w :
  s ≠ "" → endsWithDot s = false → resolve s ≠ [] →
  w_fs w !! resolve s = Some x → mounts_below (resolve s) (w_mounts w) = [] →
  os_RemoveAll s w = (Ret tt, tickw (set_fs (rm_tree (resolve s) (w_fs w)) w)).
Proof.
  intros Hs Hd Hr Hl Hm. unfold os_RemoveAll.
  by rewrite decide_False, Hd, Hnf, Hl, Hm, decide_False by done.
Qed.
End no_faults.
