(* ===== verification/Demo.v ===== *)
(** * A concrete environment

    One behaviour the parameters of the model may have: [cp] copies trees,
    maps are ranged over in the order of their encoding. The fault oracle, the
    [statfs] answers, the inode times and the calls on which [cp] is killed
    before it copies anything are left open, so that examples can choose
    them. The laws of [Env] are proved, so they are satisfiable. *)
From S2P Require Import Prelude GoStrings GoPath GoErrors OS OSFacts.
Open Scope Z_scope.

(** The entries below [src], moved below [dst]. *)
Definition copy_list (src dst : path) (fs : fstree) : list (path * node) :=
  omap (λ kn : path * node, match strip src kn.1 with
                            | Some (c :: rel) => Some (dst ++ c :: rel, kn.2)
                            | _ => None
                            end) (map_to_list fs).

Definition copy_tree (src dst : path) (fs : fstree) : fstree :=
  list_to_map (copy_list src dst fs) ∪ fs.

(** [cp -r] refuses to copy a directory into itself and to replace a directory
    by a file or a file by a directory. *)
Definition can_copy (src dst : path) (fs : fstree) : Prop :=
  fs !! src = Some NDir ∧ fs !! dst = Some NDir ∧
  ¬ src `prefix_of` dst ∧ ¬ dst `prefix_of` src ∧
  Forall (λ kn : path * node, from_option (λ x, IsDir x = IsDir kn.2) True (fs !! kn.1))
    (copy_list src dst fs).

#[export] Instance can_copy_dec src dst fs : Decision (can_copy src dst fs).
Proof.
  unfold can_copy. repeat apply and_dec; try apply _.
  apply Forall_dec. intros kn. destruct (fs !! kn.1); simpl; apply _.
Defined.

Definition demo_cp (works : nat → bool) (n : nat) (fs : fstree) (src dst : path) : bool * fstree :=
  if works n && bool_decide (can_copy src dst fs) then (true, copy_tree src dst fs) else (false, fs).

Lemma elem_of_copy_list src dst fs k n :
  (k, n) ∈ copy_list src dst fs ↔
  ∃ rel, rel ≠ [] ∧ k = dst ++ rel ∧ fs !! (src ++ rel) = Some n.
Proof.
  unfold copy_list. rewrite list_elem_of_omap. split.
  - intros ([k' n']&Hin%elem_of_map_to_list&Hs). simpl in Hs.
    destruct (strip src k') as [[|c rel]|] eqn:Hst; simplify_eq.
    apply strip_spec in Hst as ->. by exists (c :: rel).
  - intros (rel&Hrel&->&Hl). exists (src ++ rel, n). rewrite elem_of_map_to_list.
    split; [done|]. simpl. rewrite (proj2 (strip_spec src (src ++ rel) rel) eq_refl).
    by destruct rel.
Qed.

Lemma NoDup_copy_list src dst fs : NoDup (copy_list src dst fs).*1.
Proof.
  unfold copy_list. pose proof (NoDup_fst_map_to_list fs) as Hnd.
  induction (map_to_list fs) as [|[k n] l IH]; simpl in *; [constructor|].
  apply NoDup_cons in Hnd as [Hk Hnd]. specialize (IH Hnd).
  destruct (strip src k) as [[|c rel]|] eqn:Hst; [done| |done].
  simpl. constructor; [|done]. rewrite list_elem_of_fmap. intros ([k1 n1]&Heq&Hin).
  apply list_elem_of_omap in Hin as ([k' n']&Hin&Hs). simpl in *.
  destruct (strip src k') as [[|c' rel']|] eqn:Hst'; simplify_eq.
  apply strip_spec in Hst as ->, Hst' as ->. apply Hk.
  apply list_elem_of_fmap. eexists (_, _). by split; [|exact Hin].
Qed.

Lemma lookup_copy_tree src dst fs rel :
  rel ≠ [] →
  copy_tree src dst fs !! (dst ++ rel) =
    match fs !! (src ++ rel) with Some n => Some n | None => fs !! (dst ++ rel) end.
Proof.
  intros Hrel. unfold copy_tree. rewrite lookup_union.
  destruct (fs !! (src ++ rel)) as [n|] eqn:Hn.
  - assert ((list_to_map (copy_list src dst fs) : fstree) !! (dst ++ rel) = Some n) as ->.
    { apply elem_of_list_to_map_1; [apply NoDup_copy_list|]. apply elem_of_copy_list. eauto. }
    by destruct (fs !! (dst ++ rel)).
  - assert ((list_to_map (copy_list src dst fs) : fstree) !! (dst ++ rel) = None) as ->.
    { apply not_elem_of_list_to_map_1. rewrite list_elem_of_fmap. intros ([k n]&Heq&Hin).
      apply elem_of_copy_list in Hin as (rel'&_&->&Hl). simpl in Heq.
      apply app_inv_head in Heq as ->. congruence. }
    by destruct (fs !! (dst ++ rel)).
Qed.

Lemma lookup_copy_tree_other src dst fs k :
  (∀ rel, rel ≠ [] → k ≠ dst ++ rel) → copy_tree src dst fs !! k = fs !! k.
Proof.
  intros Hk. unfold copy_tree. rewrite lookup_union.
  rewrite (not_elem_of_list_to_map_1 (copy_list src dst fs)).
  { by destruct (fs !! k). }
  rewrite list_elem_of_fmap. intros ([k' n]&->&Hin).
  apply elem_of_copy_list in Hin as (rel&?&->&_). by eapply Hk.
Qed.

Lemma wf_copy_tree src dst fs : wf_fs fs → can_copy src dst fs → wf_fs (copy_tree src dst fs).
Proof.
  intros Hwf (Hsrc&Hdst&_&_&Hconf). rewrite Forall_forall in Hconf.
  assert (∀ p, fs !! p = Some NDir → copy_tree src dst fs !! p = Some NDir) as Hdir.
  { intros p Hp. destruct (strip dst p) as [[|x rel]|] eqn:Hst.
    - apply strip_spec in Hst as ->. rewrite lookup_copy_tree_other; [done|].
      intros rel Hrel Heq. rewrite app_nil_r in Heq. apply (f_equal length) in Heq.
      rewrite length_app in Heq. destruct rel; simpl in *; [done|lia].
    - apply strip_spec in Hst as ->. rewrite lookup_copy_tree by done.
      destruct (fs !! (src ++ x :: rel)) as [n|] eqn:Hn; [|done].
      specialize (Hconf (dst ++ x :: rel, n)). simpl in Hconf. rewrite Hp in Hconf. simpl in Hconf.
      destruct n; [done|]. discriminate Hconf. apply elem_of_copy_list. by exists (x :: rel).
    - rewrite lookup_copy_tree_other; [done|]. intros rel _ ->.
      by rewrite (proj2 (strip_spec dst (dst ++ rel) rel) eq_refl) in Hst. }
  split; [apply Hdir, Hwf|]. intros p c n Hl.
  destruct (strip dst (p ++ [c])) as [[|x rel]|] eqn:Hst.
  - apply strip_spec in Hst. rewrite app_nil_r in Hst. rewrite lookup_copy_tree_other in Hl.
    + apply (wf_parent _ Hwf) in Hl as [??]. split; [by apply Hdir|done].
    + rewrite Hst. intros rel Hrel Heq. apply (f_equal length) in Heq.
      rewrite length_app in Heq. destruct rel; simpl in *; [done|lia].
  - apply strip_spec in Hst. rewrite Hst in Hl. rewrite lookup_copy_tree in Hl by done.
    destruct (fs !! (src ++ x :: rel)) as [n'|] eqn:Hn.
    + destruct (exists_last (ltac:(done) : x :: rel ≠ [])) as (rel'&y&Heq). rewrite Heq in *.
      rewrite app_assoc in Hst. apply app_inj_tail in Hst as [-> ->].
      rewrite app_assoc in Hn. apply (wf_parent _ Hwf) in Hn as [Hp Hc]. split; [|done].
      destruct rel' as [|z rel'].
      * rewrite app_nil_r. by apply Hdir.
      * rewrite lookup_copy_tree by done. by rewrite Hp.
    + rewrite <-Hst in Hl. apply (wf_parent _ Hwf) in Hl as [??]. split; [by apply Hdir|done].
  - rewrite lookup_copy_tree_other in Hl.
    + apply (wf_parent _ Hwf) in Hl as [??]. split; [by apply Hdir|done].
    + intros rel _ Heq. rewrite Heq in Hst.
      by rewrite (proj2 (strip_spec dst (dst ++ rel) rel) eq_refl) in Hst.
Qed.

(** An environment of every choice of faults, statistics, inode times and
    [cp] failures. *)
Program Definition demoEnv (flt : nat → syscall → string → option errno)
    (sfs : nat → string → errno + Statfs_t) (ct : nat → path → Z * Z)
    (works : nat → bool) : Env := {|
  fault := flt;
  statfs := sfs;
  ctime := ct;
  filemode _ _ := "drwxr-x---";
  range_order A _ m := map_to_list m;
  cp := demo_cp works;
  rm_partial _ fs _ := fs;
  likely_not_mnt _ _ _ := true;
|}.
Next Obligation. done. Qed.
Next Obligation.
  intros _ _ _ works n fs src dst k Hk. unfold demo_cp. case_match; [|done]. simpl.
  apply lookup_copy_tree_other. intros rel _ ->. apply Hk. by exists rel.
Qed.
Next Obligation.
  intros _ _ _ works n fs src dst Hwf. unfold demo_cp. case_match eqn:Hc; [|done]. simpl.
  apply andb_prop in Hc as [_ Hc%bool_decide_eq_true]. by apply wf_copy_tree.
Qed.
Next Obligation.
  intros _ _ _ works n fs src dst. unfold demo_cp. case_match; [|done]. simpl.
  apply lookup_copy_tree_other. intros rel Hrel Heq%(f_equal length).
  rewrite length_app in Heq. destruct rel; simpl in *; [done|lia].
Qed.
Next Obligation.
  intros _ _ _ works n fs src dst rel Hwf Hok _ _ Hrel. unfold demo_cp in *. case_match; [|done].
  by apply lookup_copy_tree.
Qed.
Next Obligation. intros. by left. Qed.
Next Obligation. done. Qed.
Next Obligation. done. Qed.

(** A file system of 2048 blocks of 1 MiB, half of them free. *)
Definition demo_statfs : Statfs_t :=
  {| Bsize := 1048576; Blocks := 2048; Bfree := 1024; Bavail := 1024; Files := 1000; Ffree := 900 |}.

(** No faults, every copy succeeds. *)
#[export] Instance calmEnv : Env :=
  demoEnv (λ _ _ _, None) (λ _ _, inr demo_statfs) (λ _ _, (1700000000, 5)) (λ _, true).

Lemma calm_no_faults : no_faults.
Proof. done. Qed.

(** Trees given by their directories and files. *)
Definition tree (l : list (path * node)) : fstree := list_to_map (([], NDir) :: l).

(** [wf_fs] of a concrete tree by computation. *)
Definition wf_fs_b (fs : fstree) : bool :=
  bool_decide (fs !! [] = Some NDir) &&
  forallb (λ kn : path * node,
    match last kn.1 with
    | None => true
    | Some c => bool_decide (fs !! removelast kn.1 = Some NDir) && bool_decide (valid_name c)
    end) (map_to_list fs).

Lemma wf_fs_b_spec fs : wf_fs_b fs = true → wf_fs fs.
Proof.
  unfold wf_fs_b. intros [Hroot Hall]%andb_prop. apply bool_decide_eq_true in Hroot.
  split; [done|]. intros p c n Hl. rewrite forallb_forall in Hall.
  specialize (Hall (p ++ [c], n)). simpl in Hall.
  rewrite last_snoc, removelast_last in Hall.
  destruct (andb_prop _ _ (Hall ltac:(by apply list_elem_of_In, elem_of_map_to_list))) as [H1 H2].
  split; by eapply bool_decide_eq_true.
Qed.
Ltac by_wf := apply wf_fs_b_spec; vm_compute; reflexivity.

(** Nothing below a path, by computation. *)
Definition nothing_below_b (p : path) (fs : fstree) : bool :=
  forallb (λ kn : path * node, match strip p kn.1 with Some (_ :: _) => false | _ => true end)
    (map_to_list fs).

Lemma nothing_below_spec p fs :
  nothing_below_b p fs = true → ∀ rel, rel ≠ [] → fs !! (p ++ rel) = None.
Proof.
  unfold nothing_below_b. rewrite forallb_forall. intros Hall rel Hrel.
  destruct (fs !! (p ++ rel)) as [n|] eqn:Hl; [|done].
  specialize (Hall (p ++ rel, n) ltac:(by apply list_elem_of_In, elem_of_map_to_list)).
  simpl in Hall. rewrite (proj2 (strip_spec p (p ++ rel) rel) eq_refl) in Hall. by destruct rel.
Qed.
Ltac by_nothing := apply nothing_below_spec; vm_compute; reflexivity.
