(* ===== verification/Mount.v ===== *)
(** * vendor/k8s.io/utils/mount

    The mounter interface and its Linux implementation over the mount table of
    the model. A bind mount is one entry whose device is the directory that is
    bound and whose path is the canonical path of the target. *)
From Stdlib Require Import Ascii.
From S2P Require Import Prelude GoStrings GoPath GoErrors OS OSFacts.
Open Scope Z_scope.

(** ** The interface *)

Record Mounter := {
  mi_Mount : string → string → string → list string → M unit;
  mi_Unmount : string → M unit;
  mi_List : M (list MountPoint);
  mi_IsLikelyNotMountPoint : string → M bool;
}.

Definition isMountPointMatch (mp : MountPoint) (dir : string) : bool :=
  bool_decide (mp_Path mp = dir ∨ mp_Path mp = dir +:+ "\040(deleted)").

(** Bind mounts are made in two steps: the bind itself, and a remount that
    applies the other options. *)
Definition MakeBindOpts (options : list string) : bool * list string * list string :=
  (bool_decide ("bind" ∈ options),
   if bool_decide ("_netdev" ∈ options) then ["bind"; "_netdev"] else ["bind"],
   ["bind"; "remount"] ++ filter (λ o, o ≠ "bind" ∧ o ≠ "remount") options).

(** The newest mount at a path: changed, or taken away by [None]. *)
Fixpoint alter_top (p : path) (f : MountPoint → option MountPoint) (ms : list MountPoint)
    : option (list MountPoint) :=
  match ms with
  | [] => None
  | m :: ms' =>
      if decide (resolve (mp_Path m) = p)
      then Some (match f m with Some m' => m' :: ms' | None => ms' end)
      else cons m <$> alter_top p f ms'
  end.

(** The kernel writes the blanks and the backslashes of a path in octal. *)
Definition escape (c : ascii) : string :=
  if Ascii.eqb c " " then "\040"
  else if Ascii.eqb c "009" then "\011"
  else if Ascii.eqb c "010" then "\012"
  else if Ascii.eqb c "\" then "\134"
  else String c "".
Fixpoint mangle (s : string) : string :=
  match s with
  | "" => ""
  | String c s' => escape c +:+ mangle s'
  end.
Definition mangled (mp : MountPoint) : MountPoint :=
  {| mp_Device := mp_Device mp; mp_Path := mangle (mp_Path mp); mp_Type := mp_Type mp; mp_Opts := mp_Opts mp |}.
Definition listed (ms : list MountPoint) : list MountPoint := mangled <$> ms.

Section ops.
Context `{!Env}.

(** ** Is a path a mount point? *)

Definition IsNotMountPoint (mounter : Mounter) (file : string) : M bool :=
  quick <- try (mi_IsLikelyNotMountPoint mounter file) ;;
  notMnt <- match quick with
            | inr err => if os_IsPermission err then ret true else fail err
            | inl notMnt => ret notMnt
            end ;;
  if negb notMnt then ret notMnt
  else
    resolvedFile <- filepath_EvalSymlinks file ;;
    mountPoints <- mi_List mounter ;;
    ret (negb (existsb (λ mp, isMountPointMatch mp resolvedFile) mountPoints)).

(** ** The Linux mounter *)

(** The [mount] command: binds a directory at an existing directory or a file at
    an existing file, or changes the options of the newest mount at the target. *)
Definition doMount (source target fstype : string) (options : list string) : M unit := λ w,
  let failed (why : string) := Fail (ErrorString ("mount failed: " +:+ why)) in
  match fault (w_tick w) SysMount target with
  | Some e => (failed (errno_string e), tickw w)
  | None =>
      if bool_decide ("remount" ∈ options) then
        match alter_top (resolve target)
                (λ m, Some {| mp_Device := mp_Device m; mp_Path := mp_Path m; mp_Type := mp_Type m;
                              mp_Opts := options |}) (w_mounts w) with
        | Some ms => (Ret tt, tickw (set_mounts ms w))
        | None => (failed "not mounted", tickw w)
        end
      else
        match w_fs w !! resolve source, w_fs w !! resolve target with
        | Some NDir, Some (NFile _) | Some (NFile _), Some NDir => (failed (errno_string ENOTDIR), tickw w)
        | Some _, Some _ =>
            (Ret tt, tickw (set_mounts
               ({| mp_Device := source; mp_Path := pstr (resolve target); mp_Type := fstype;
                   mp_Opts := options |} :: w_mounts w) w))
        | _, _ => (failed (errno_string ENOENT), tickw w)
        end
  end.

Definition MountLinux (source target fstype : string) (options : list string) : M unit :=
  let '(bind, bindOpts, bindRemountOpts) := MakeBindOpts options in
  if bind then
    doMount source target fstype bindOpts >>
    doMount source target fstype bindRemountOpts
  else doMount source target fstype options.

(** The [umount] command takes the newest mount at the target away. *)
Definition UnmountLinux (target : string) : M unit := λ w,
  match fault (w_tick w) SysUmount target with
  | Some e => (Fail (ErrorString ("unmount failed: " +:+ errno_string e)), tickw w)
  | None =>
      match alter_top (resolve target) (λ _, None) (w_mounts w) with
      | Some ms => (Ret tt, tickw (set_mounts ms w))
      | None => (Fail (ErrorString "unmount failed: not mounted"), tickw w)
      end
  end.

(** [/proc/mounts], with the paths as they are written there: the parser splits
    the lines at blanks and takes the second field as it is. The callers do not
    depend on the order of the entries, and read nothing of them but the paths. *)
Definition ListLinux : M (list MountPoint) := reads (λ n w,
  match fault n SysListMounts "/proc/mounts" with
  | Some e => Fail (PathError "open" "/proc/mounts" e)
  | None => Ret (listed (w_mounts w))
  end).

(** Compares the devices of a path and its parent. *)
Definition IsLikelyNotMountPointLinux (file : string) : M bool :=
  os_Stat file >>
  os_Stat (Dir (trim_last slash file)) >>
  reads (λ n w, Ret (likely_not_mnt n (w_mounts w) file)).

Definition linuxMounter : Mounter := {|
  mi_Mount := MountLinux;
  mi_Unmount := UnmountLinux;
  mi_List := ListLinux;
  mi_IsLikelyNotMountPoint := IsLikelyNotMountPointLinux;
|}.
End ops.
