(* ===== verification/MountFacts.v ===== *)
(** * Facts about the mounter

    When a path is reported as a mount point, what mounting and unmounting do to
    the table, and what they leave alone. *)
From Stdlib Require Import Ascii.
From S2P Require Import Prelude GoStrings GoPath GoErrors OS OSFacts Mount.
Open Scope Z_scope.

(** ** Target paths *)

Lemma Clean_rooted s : is_rooted s = true → Clean s = pstr (resolve s).
Proof.
  intros Hr. unfold Clean. rewrite decide_False by by intros ->. by rewrite Hr.
Qed.

Lemma Join_rooted base n :
  is_rooted base = true → valid_name n → Join [base; n] = pstr (resolve base ++ [n]).
Proof.
  intros Hr Hn. rewrite <-resolve_Join by done. assert (base ≠ "") as Hb by by intros ->.
  assert (Join [base; n] = Clean (base +:+ "/" +:+ n)) as ->.
  { unfold Join. by rewrite decide_False, join_cons. }
  rewrite resolve_Clean. apply Clean_rooted. by rewrite is_rooted_app.
Qed.

Lemma Clean_Join base n : valid_name n → Clean (Join [base; n]) = Join [base; n].
Proof.
  intros Hn. destruct (Join_valid base n Hn) as (r&cs&_&Hp&_&->). by apply Clean_clean_str.
Qed.

Lemma trim_last_id c s : last (split_on c s) ≠ Some "" ∨ s = "" → trim_last c s = s.
Proof.
  induction s as [|a s IH]; intros Hl; [done|]. destruct Hl as [Hl|]; [|done].
  destruct s as [|b s].
  - simpl in *. destruct (Ascii.eqb_spec a c) as [->|]; [|done]. by destruct Hl.
  - change (String a (trim_last c (String b s)) = String a (String b s)). f_equal.
    apply IH. left. intros He. apply Hl. pose proof (split_on_nonempty c s) as Hne. simpl in *.
    destruct (Ascii.eqb b c), (Ascii.eqb a c), (split_on c s) as [|x [|y l]]; done.
Qed.

(** A target the kubelet asks for: a plain name in a rooted directory. *)
Record goodTarget (target : string) (base name : string) : Prop := {
  gt_eq : target = Join [base; name];
  gt_rooted : is_rooted base = true;
  gt_name : valid_name name;
}.

Lemma goodTarget_resolve target base name :
  goodTarget target base name → resolve target = resolve base ++ [name].
Proof. intros [-> _ Hn]. by apply resolve_Join. Qed.

Lemma goodTarget_nonempty target base name : goodTarget target base name → target ≠ "".
Proof. intros [-> _ Hn]. by apply Join_nonempty. Qed.

Lemma goodTarget_clean target base name :
  goodTarget target base name → Clean target = pstr (resolve target) ∧ target = pstr (resolve target).
Proof.
  intros [-> Hr Hn]. rewrite Clean_Join by done. by rewrite resolve_Join, Join_rooted.
Qed.

Lemma goodTarget_parent target base name :
  goodTarget target base name → resolve (Dir (trim_last slash target)) = resolve base ∧
    Dir (trim_last slash target) ≠ "".
Proof.
  intros [-> Hr Hn]. rewrite trim_last_id.
  2: { left. rewrite Join_last by done. intros [= ->]. by destruct Hn. }
  rewrite Dir_Join, resolve_Clean by done. split; [done|].
  rewrite Clean_rooted by done. done.
Qed.

(** ** The mount table *)

(** Entries are recorded under canonical paths, none of a deleted directory. *)
Definition canonical (ms : list MountPoint) : Prop :=
  ∀ mp, mp ∈ ms → mp_Path mp = pstr (resolve (mp_Path mp)) ∧
    ∀ s, mp_Path mp ≠ s +:+ " (deleted)".

Definition mounted (p : path) (ms : list MountPoint) : bool :=
  existsb (λ mp, bool_decide (resolve (mp_Path mp) = p)) ms.

Lemma mounted_true p ms : mounted p ms = true ↔ ∃ mp, mp ∈ ms ∧ resolve (mp_Path mp) = p.
Proof.
  unfold mounted. rewrite existsb_exists. setoid_rewrite bool_decide_eq_true.
  by setoid_rewrite list_elem_of_In.
Qed.

Lemma pstr_inj p q : Forall valid_name p → Forall valid_name q → pstr p = pstr q → p = q.
Proof. intros Hp Hq He%(f_equal resolve). unfold pstr in He. by rewrite !resolve_rooted_names in He. Qed.

(** *** How paths are listed *)

Definition backslash_free (s : string) : Prop := ("\"%char : ascii) ∉ String.list_ascii_of_string s.
#[export] Instance backslash_free_dec s : Decision (backslash_free s).
Proof. unfold backslash_free. apply _. Defined.

(** A path that is listed as it is: without blanks and backslashes. *)
Definition unescaped (s : string) : Prop := mangle s = s.
#[export] Instance unescaped_dec s : Decision (unescaped s).
Proof. unfold unescaped. apply _. Defined.

Lemma escape_cases c :
  (escape c = String c "" ∧ c ≠ "\"%char) ∨ ∃ s, escape c = String "\" s.
Proof.
  unfold escape. repeat case_match; eauto. left. split; [done|]. by apply Ascii.eqb_neq.
Qed.

Lemma backslash_free_cons c s : backslash_free (String c s) ↔ c ≠ "\"%char ∧ backslash_free s.
Proof. unfold backslash_free. cbn [String.list_ascii_of_string]. rewrite not_elem_of_cons. naive_solver. Qed.

(** Only a path that is listed as it is gives a text without backslashes. *)
Lemma mangle_backslash_free s t : mangle s = t → backslash_free t → s = t.
Proof.
  revert t. induction s as [|c s IH]; intros t; cbn [mangle]; [by intros <-|].
  destruct (escape_cases c) as [[-> _]|[x ->]]; intros <- Hb.
  - change (String c "" +:+ mangle s) with (String c (mangle s)) in *. apply backslash_free_cons in Hb as [_ Hb].
    f_equal. by apply IH.
  - change (String "\" x +:+ mangle s) with (String "\" (x +:+ mangle s)) in Hb.
    by apply backslash_free_cons in Hb as [].
Qed.

Lemma mangle_length s : (String.length s ≤ String.length (mangle s))%nat.
Proof.
  induction s as [|c s IH]; cbn [mangle String.length]; [done|].
  rewrite string_length_app. destruct (escape_cases c) as [[-> _]|[x ->]]; cbn [String.length]; lia.
Qed.

Lemma unescaped_backslash_free s : unescaped s → backslash_free s.
Proof.
  unfold unescaped. induction s as [|c s IH]; cbn [mangle]; intros Hs; [by apply not_elem_of_nil|].
  destruct (escape_cases c) as [[He Hc]|[x He]].
  - rewrite He in Hs. injection Hs as Hs. apply backslash_free_cons. auto.
  - exfalso. pose proof (mangle_length s). unfold escape in He, Hs. repeat case_match.
    5: { injection He as -> _. discriminate. }
    all: match goal with E : Ascii.eqb _ _ = true |- _ => apply Ascii.eqb_eq in E as -> end;
      try discriminate Hs. apply (f_equal String.length) in Hs. rewrite string_length_app in Hs. cbn [String.length] in Hs. lia.
Qed.

(** A path that is listed as a deleted one is one of a deleted directory. *)
Lemma mangle_deleted s t :
  backslash_free t → mangle s = t +:+ "\040(deleted)" → ∃ r, s = r +:+ " (deleted)".
Proof.
  revert t. induction s as [|c s IH]; intros t Ht; [by destruct t|]. cbn [mangle].
  destruct t as [|a t].
  - change ("" +:+ "\040(deleted)") with "\040(deleted)". intros Hs. exists "".
    change ("" +:+ " (deleted)") with (String " " "(deleted)").
    unfold escape in Hs. repeat case_match; try discriminate Hs.
    + apply Ascii.eqb_eq in H as ->. f_equal. apply mangle_backslash_free; [|by_decide].
      by injection Hs.
    + injection Hs as -> _. done.
  - apply backslash_free_cons in Ht as [Ha Ht]. destruct (escape_cases c) as [[-> _]|[x ->]].
    + intros [= -> Hs]. destruct (IH t Ht Hs) as [r ->]. by exists (String a r).
    + intros [= <- _]. done.
Qed.

Lemma mangle_app s t : mangle (s +:+ t) = mangle s +:+ mangle t.
Proof.
  induction s as [|c s IH]; [done|]. rewrite app_cons. cbn [mangle]. by rewrite IH, string_app_assoc.
Qed.

Lemma unescaped_not_deleted t s : unescaped t → t ≠ s +:+ " (deleted)".
Proof.
  unfold unescaped. intros Ht ->. apply (f_equal String.length) in Ht. pose proof (mangle_length s).
  rewrite mangle_app, !string_length_app in Ht. change (String.length (mangle " (deleted)")) with 13%nat in Ht.
  cbn [String.length] in Ht. lia.
Qed.

(** What [ListLinux] can tell of a target: of one that is listed as it is
    everything, of another one that it is not mounted. *)
Definition legible (target : string) (ms : list MountPoint) : Prop :=
  unescaped target ∨ (backslash_free target ∧ mounted (resolve target) ms = false).

(** The match on strings is the match on canonical paths. *)
Lemma match_mounted target base name ms :
  goodTarget target base name → canonical ms → legible target ms →
  existsb (λ mp, isMountPointMatch mp (Clean target)) (listed ms) = mounted (resolve target) ms.
Proof.
  intros Ht Hc Hl. destruct (goodTarget_clean _ _ _ Ht) as [-> Heqt]. rewrite <-Heqt.
  assert (backslash_free target) as Hb by (destruct Hl as [?|[? _]]; [by apply unescaped_backslash_free|done]).
  apply eq_true_iff_eq. rewrite mounted_true, existsb_exists. unfold isMountPointMatch.
  setoid_rewrite bool_decide_eq_true. setoid_rewrite <-list_elem_of_In. split.
  - intros (mp'&(mp&->&Hin)%list_elem_of_fmap&He). destruct (Hc mp Hin) as [Heq Hnd].
    cbn [mangled mp_Path] in He. destruct He as [He|He].
    + apply mangle_backslash_free in He; [|done]. exists mp. by rewrite He.
    + apply mangle_deleted in He as [r Hr]; [|done]. by destruct (Hnd r).
  - intros (mp&Hin&He). destruct Hl as [Hu|[_ Hm]].
    + exists (mangled mp). split; [by apply list_elem_of_fmap_2|]. left. cbn [mangled mp_Path].
      destruct (Hc mp Hin) as [Heq _]. by rewrite Heq, He, <-Heqt.
    + assert (mounted (resolve target) ms = true) by (apply mounted_true; eauto). congruence.
Qed.

(** A path that is listed in another form is never found. *)
Lemma match_escaped target ms :
  backslash_free target → ¬ unescaped target → (∀ mp s, mp ∈ ms → mp_Path mp ≠ s +:+ " (deleted)") →
  existsb (λ mp, isMountPointMatch mp target) (listed ms) = false.
Proof.
  intros Hb Hu Hd. apply not_true_is_false. intros (mp'&Hin&He)%existsb_exists.
  apply list_elem_of_In, list_elem_of_fmap in Hin as (mp&->&Hin).
  unfold isMountPointMatch in He. apply bool_decide_eq_true in He as [He|He]; cbn [mangled mp_Path] in He.
  - pose proof (mangle_backslash_free _ _ He Hb) as Heq. apply Hu. by rewrite Heq in He.
  - apply mangle_deleted in He as [r Hr]; [|done]. by eapply Hd.
Qed.

Section facts.
Context `{!Env}.

(** ** What the mounter leaves alone *)

(** The tree does not change; mounts may come and go. *)
Definition same_tree (w w' : world) : Prop := w_fs w' = w_fs w.

#[export] Instance same_tree_preorder : PreOrder same_tree.
Proof. split; unfold same_tree; [done|]. intros ???. congruence. Qed.
#[export] Instance same_tree_tick : TickInv same_tree.
Proof. done. Qed.

Lemma respects_doMount src tgt t opts : respects same_tree (doMount src tgt t opts).
Proof. intros w. unfold doMount, same_tree. by repeat case_match. Qed.
Lemma respects_Unmount tgt : respects same_tree (UnmountLinux tgt).
Proof. intros w. unfold UnmountLinux, same_tree. by repeat case_match. Qed.
Hint Resolve respects_doMount respects_Unmount : go.
Lemma respects_Mount src tgt t opts : respects same_tree (MountLinux src tgt t opts).
Proof. unfold MountLinux. destruct (MakeBindOpts opts) as [[]]. respects_tac. Qed.
Lemma respects_ListMounts R `{!PreOrder R, !TickInv R} : respects R ListLinux.
Proof. unfold ListLinux. auto with go. Qed.
Lemma respects_IsLikely R `{!PreOrder R, !TickInv R} s : respects R (IsLikelyNotMountPointLinux s).
Proof. unfold IsLikelyNotMountPointLinux. respects_tac. Qed.
Hint Resolve respects_ListMounts respects_IsLikely : go.
Lemma respects_IsNotMountPoint R `{!PreOrder R, !TickInv R} s :
  respects R (IsNotMountPoint linuxMounter s).
Proof. unfold IsNotMountPoint. simpl. respects_tac. Qed.
End facts.
#[export] Hint Resolve respects_doMount respects_Unmount respects_Mount respects_ListMounts
  respects_IsNotMountPoint : go.

(** ** Answers *)

Section answers.
Context `{!Env}.

Lemma quiet_run_fs {A} (m : M A) w o w' : respects quiet m → m w = (o, w') → quiet w w'.
Proof. intros Hm Hrun. specialize (Hm w). by rewrite Hrun in Hm. Qed.

Lemma IsLikely_false target w w1 :
  try (IsLikelyNotMountPointLinux target) w = (Ret (inl false), w1) →
  ∃ mp, mp ∈ w_mounts w ∧ resolve (mp_Path mp) = resolve target.
Proof.
  unfold try. destruct (IsLikelyNotMountPointLinux target w) as [[b| |] w2] eqn:Hrun; intros; simplify_eq.
  unfold IsLikelyNotMountPointLinux in Hrun.
  bind_inv Hrun x1 v1 H1. bind_inv Hrun x2 v2 H2. unfold reads in Hrun. simplify_eq.
  apply (quiet_run_fs _ _ _ _ (respects_Stat quiet _)) in H1 as (_&Hm1&_).
  apply (quiet_run_fs _ _ _ _ (respects_Stat quiet _)) in H2 as (_&Hm2&_).
  rewrite <-Hm1, <-Hm2. by eapply likely_sound.
Qed.

(** An answer is right, under any faults. *)
Lemma IsNotMountPoint_ret target base name w b w' :
  goodTarget target base name → canonical (w_mounts w) → legible target (w_mounts w) →
  IsNotMountPoint linuxMounter target w = (Ret b, w') →
  b = negb (mounted (resolve target) (w_mounts w)) ∧ quiet w w'.
Proof.
  intros Ht Hc Hleg Hrun. split.
  2: { eapply quiet_run_fs; [|done]. apply respects_IsNotMountPoint; apply _. }
  unfold IsNotMountPoint in Hrun. simpl in Hrun.
  bind_inv Hrun quick w1 Hq. bind_inv Hrun notMnt w2 Hn.
  assert (quiet w w1) as (_&Hm1&_).
  { eapply quiet_run_fs; [|done]. apply respects_try. apply respects_IsLikely; apply _. }
  assert (w_mounts w2 = w_mounts w) as Hm2.
  { destruct quick as [nm|err]; [by injection Hn as _ <-|].
    destruct (os_IsPermission err); [|done]. by injection Hn as _ <-. }
  destruct notMnt; simpl in Hrun.
  - bind_inv Hrun rf w3 Hrf. bind_inv Hrun mps w4 Hl. injection Hrun as <- _.
    assert (rf = Clean target ∧ w_mounts w3 = w_mounts w) as [-> Hm3].
    { unfold filepath_EvalSymlinks, reads in Hrf.
      destruct (stat_result _ _ _) as [x|[]|]; try done. by injection Hrf as <- <-. }
    assert (mps = listed (w_mounts w)) as ->.
    { unfold ListLinux, reads in Hl. destruct (fault _ _ _); [done|]. injection Hl as <- _. by rewrite Hm3. }
    by rewrite (match_mounted _ base name).
  - injection Hrun as <- _. destruct quick as [nm|err].
    2: { by destruct (os_IsPermission err). }
    injection Hn as -> <-. symmetry. apply negb_false_iff, mounted_true.
    apply IsLikely_false in Hq as (mp&?&?). eauto.
Qed.
End answers.

Section no_fault_answers.
Context `{!Env} (Hnf : no_faults).

(** The answer for an existing directory: what the devices show, or the list. *)
Lemma IsNotMountPoint_answer target base name w :
  goodTarget target base name → wf_fs (w_fs w) → w_fs w !! resolve target = Some NDir →
  ∃ n w', IsNotMountPoint linuxMounter target w =
    (Ret (likely_not_mnt n (w_mounts w) target &&
          negb (existsb (λ mp, isMountPointMatch mp target) (listed (w_mounts w)))), w') ∧ quiet w w'.
Proof.
  intros Ht Hwf Hd.
  assert (∃ n w', IsNotMountPoint linuxMounter target w =
    (Ret (likely_not_mnt n (w_mounts w) target &&
          negb (existsb (λ mp, isMountPointMatch mp target) (listed (w_mounts w)))), w')) as (n&w'&Hrun).
  2: { exists n, w'. split; [done|]. eapply quiet_run_fs; [|done]. apply respects_IsNotMountPoint; apply _. }
  assert (target ≠ "") as Hne by by eapply goodTarget_nonempty.
  destruct (goodTarget_parent _ _ _ Ht) as [Hpar Hpne].
  assert (w_fs w !! resolve (Dir (trim_last slash target)) = Some NDir) as Hpd.
  { rewrite Hpar. rewrite (goodTarget_resolve _ _ _ Ht) in Hd. by apply (wf_parent _ Hwf) in Hd as [? _]. }
  unfold IsNotMountPoint. simpl.
  erewrite run_bind_ret.
  2: { apply run_try_ret. unfold IsLikelyNotMountPointLinux.
       erewrite run_bind_ret by (by apply Stat_found).
       erewrite run_bind_ret by (by apply Stat_found). reflexivity. }
  erewrite run_bind_ret by reflexivity. exists (w_tick (tickw (tickw w))). cbn [tickw w_tick w_mounts].
  destruct (likely_not_mnt _ _ _); simpl; [|by eexists].
  erewrite run_bind_ret.
  2: { unfold filepath_EvalSymlinks, reads, stat_result. simpl. rewrite Hnf, decide_False, Hd by done.
       reflexivity. }
  erewrite run_bind_ret by (unfold ListLinux, reads; rewrite Hnf; reflexivity).
  destruct (goodTarget_clean _ _ _ Ht) as [-> <-]. by eexists.
Qed.

Lemma IsNotMountPoint_found target base name w :
  goodTarget target base name → canonical (w_mounts w) → legible target (w_mounts w) → wf_fs (w_fs w) →
  w_fs w !! resolve target = Some NDir →
  ∃ w', IsNotMountPoint linuxMounter target w =
          (Ret (negb (mounted (resolve target) (w_mounts w))), w') ∧ quiet w w'.
Proof.
  intros Ht Hc Hleg Hwf Hd. destruct (IsNotMountPoint_answer target base name w) as (n&w'&Hrun&Hq); [done..|].
  destruct (IsNotMountPoint_ret _ _ _ _ _ _ Ht Hc Hleg Hrun) as [Heq _]. rewrite Heq in Hrun. eauto.
Qed.

(** A bind on the same device with a blank in its path is not seen. *)
Lemma IsNotMountPoint_escaped target base name w :
  goodTarget target base name → backslash_free target → ¬ unescaped target →
  (∀ n ms, likely_not_mnt n ms target = true) →
  (∀ mp s, mp ∈ w_mounts w → mp_Path mp ≠ s +:+ " (deleted)") → wf_fs (w_fs w) →
  w_fs w !! resolve target = Some NDir →
  ∃ w', IsNotMountPoint linuxMounter target w = (Ret true, w') ∧ quiet w w'.
Proof.
  intros Ht Hb Hu Hlike Hdel Hwf Hd.
  destruct (IsNotMountPoint_answer target base name w) as (n&w'&Hrun&Hq); [done..|].
  rewrite Hlike, match_escaped in Hrun by done. eauto.
Qed.

Lemma IsNotMountPoint_missing target base name w :
  goodTarget target base name → wf_fs (w_fs w) → w_fs w !! resolve base = Some NDir →
  w_fs w !! resolve target = None →
  IsNotMountPoint linuxMounter target w = (Fail (PathError "stat" target ENOENT), tickw w).
Proof.
  intros Ht Hwf Hb Hn. assert (target ≠ "") as Hne by by eapply goodTarget_nonempty.
  unfold IsNotMountPoint. simpl. erewrite run_bind_ret.
  2: { apply run_try_fail. unfold IsLikelyNotMountPointLinux.
       erewrite run_bind_fail by (by apply Stat_missing). reflexivity. }
  rewrite (goodTarget_resolve _ _ _ Ht) in *. by rewrite missing_errno_entry.
Qed.

(** Binding an existing directory at an existing target. *)
Lemma MountLinux_ok source target t (ro : bool) w :
  w_fs w !! resolve source = Some NDir → w_fs w !! resolve target = Some NDir →
  MountLinux source target t (if ro then ["bind"; "ro"] else ["bind"]) w =
    (Ret tt, tickw (tickw (set_mounts
       ({| mp_Device := source; mp_Path := pstr (resolve target); mp_Type := t;
           mp_Opts := ["bind"; "remount"] ++ (if ro then ["ro"] else []) |} :: w_mounts w) w))).
Proof.
  intros Hs Ht. unfold MountLinux.
  assert (MakeBindOpts (if ro then ["bind"; "ro"] else ["bind"]) =
          (true, ["bind"], ["bind"; "remount"] ++ (if ro then ["ro"] else []))) as -> by by destruct ro.
  erewrite run_bind_ret. 2: { unfold doMount. rewrite Hnf. simpl. rewrite Hs, Ht. reflexivity. }
  unfold doMount. rewrite Hnf. rewrite bool_decide_eq_true_2 by (destruct ro; set_solver).
  simpl. rewrite decide_True; [done|]. unfold pstr. apply resolve_rooted_names, resolve_valid.
Qed.

Lemma UnmountLinux_top target m ms w :
  w_mounts w = m :: ms → resolve (mp_Path m) = resolve target →
  UnmountLinux target w = (Ret tt, tickw (set_mounts ms w)).
Proof. intros Hw Hm. unfold UnmountLinux. rewrite Hnf, Hw. simpl. by rewrite decide_True. Qed.
End no_fault_answers.

Lemma canonical_cons ms source target base name t opts :
  goodTarget target base name → (∀ s, target ≠ s +:+ " (deleted)") → canonical ms →
  canonical ({| mp_Device := source; mp_Path := pstr (resolve target); mp_Type := t; mp_Opts := opts |} :: ms).
Proof.
  intros Ht Hd Hc mp [->|Hin]%elem_of_cons; [|by apply Hc]. simpl.
  destruct (goodTarget_clean _ _ _ Ht) as [_ Heq]. rewrite <-Heq. done.
Qed.
