(* ===== verification/Json.v ===== *)
(** * encoding/json

    The part of [json.Unmarshal] the driver uses: the grammar of JSON texts (as
    valid UTF-8), and the decoding of values into structs, pointers, strings
    and booleans. *)
From Stdlib Require Import Ascii.
From S2P Require Import Prelude GoStrings.
Open Scope Z_scope.

(** Strings without a quote character of their own are written through codes. *)
Definition chr (n : nat) : ascii := ascii_of_nat n.
Definition quote : ascii := chr 34.
Definition backslash : ascii := chr 92.

#[local] Set Warnings "-register-all".

Inductive json : Type :=
  | JNull
  | JBool (b : bool)
  | JNum (text : string)
  | JStr (s : string)
  | JArr (l : list json)
  | JObj (members : list (string * json)).

(** ** Lexing *)

Definition is_space (c : ascii) : bool :=
  let n := nat_of_ascii c in
  Nat.eqb n 32 || Nat.eqb n 9 || Nat.eqb n 10 || Nat.eqb n 13.

Fixpoint skip_space (s : string) : string :=
  match s with
  | String c s' => if is_space c then skip_space s' else s
  | EmptyString => ""
  end.

Definition is_digit (c : ascii) : bool :=
  let n := nat_of_ascii c in Nat.leb 48 n && Nat.leb n 57.

Definition hex_digit (c : ascii) : option Z :=
  let n := Z.of_nat (nat_of_ascii c) in
  if (48 <=? n) && (n <=? 57) then Some (n - 48)
  else if (97 <=? n) && (n <=? 102) then Some (n - 87)
  else if (65 <=? n) && (n <=? 70) then Some (n - 55)
  else None.

Definition hex4 (a b c d : ascii) : option Z :=
  a ← hex_digit a; b ← hex_digit b; c ← hex_digit c; d ← hex_digit d;
  Some (((a * 16 + b) * 16 + c) * 16 + d).

Definition byte (z : Z) : ascii := chr (Z.to_nat z).

(** The UTF-8 encoding of a code point. *)
Definition utf8 (cp : Z) : string :=
  if cp <? 128 then String (byte cp) ""
  else if cp <? 2048 then
    String (byte (192 + cp / 64)) (String (byte (128 + cp mod 64)) "")
  else if cp <? 65536 then
    String (byte (224 + cp / 4096)) (String (byte (128 + cp / 64 mod 64)) (String (byte (128 + cp mod 64)) ""))
  else
    String (byte (240 + cp / 262144)) (String (byte (128 + cp / 4096 mod 64))
      (String (byte (128 + cp / 64 mod 64)) (String (byte (128 + cp mod 64)) ""))).

Definition replacement : Z := 65533.

Definition simple_escape (c : ascii) : option ascii :=
  match nat_of_ascii c with
  | 34%nat => Some (chr 34) | 92%nat => Some (chr 92) | 47%nat => Some (chr 47)
  | 98%nat => Some (chr 8) | 102%nat => Some (chr 12) | 110%nat => Some (chr 10)
  | 114%nat => Some (chr 13) | 116%nat => Some (chr 9)
  | _ => None
  end.

(** The rest of a string literal, up to its closing quote. [high] is a high
    surrogate that has been read and waits for its low half. *)
Fixpoint lex_string (high : option Z) (s : string) : option (string * string) :=
  let flush (r : option (string * string)) : option (string * string) :=
    match high with
    | Some _ => prod_map (λ t, utf8 replacement +:+ t) id <$> r
    | None => r
    end in
  match s with
  | EmptyString => None
  | String c s' =>
      if Ascii.eqb c quote then flush (Some ("", s'))
      else if Ascii.eqb c backslash then
        match s' with
        | String e s'' =>
            if Ascii.eqb e (chr 117) then
              match s'' with
              | String h1 (String h2 (String h3 (String h4 rest))) =>
                  match hex4 h1 h2 h3 h4 with
                  | None => None
                  | Some cp =>
                      if (55296 <=? cp) && (cp <? 56320) then flush (lex_string (Some cp) rest)
                      else if (56320 <=? cp) && (cp <? 57344) then
                        match high with
                        | Some hi =>
                            prod_map (λ t, utf8 (65536 + (hi - 55296) * 1024 + (cp - 56320)) +:+ t) id <$>
                              lex_string None rest
                        | None => prod_map (λ t, utf8 replacement +:+ t) id <$> lex_string None rest
                        end
                      else flush (prod_map (λ t, utf8 cp +:+ t) id <$> lex_string None rest)
                  end
              | _ => None
              end
            else match simple_escape e with
                 | Some d => flush (prod_map (String d) id <$> lex_string None s'')
                 | None => None
                 end
        | EmptyString => None
        end
      else if Nat.ltb (nat_of_ascii c) 32 then None
      else flush (prod_map (String c) id <$> lex_string None s')
  end.

Fixpoint digits (s : string) : string * string :=
  match s with
  | String c s' => if is_digit c then prod_map (String c) id (digits s') else ("", s)
  | EmptyString => ("", "")
  end.

(** An optional part of a number: nothing when its first character is absent,
    an error when no digit follows. *)
Definition fraction (s : string) : option (string * string) :=
  match s with
  | String c s' =>
      if Ascii.eqb c (chr 46) then
        let '(d, rest) := digits s' in
        if decide (d = "") then None else Some (String c d, rest)
      else Some ("", s)
  | EmptyString => Some ("", "")
  end.

Definition exponent (s : string) : option (string * string) :=
  match s with
  | String c s' =>
      if Ascii.eqb c (chr 101) || Ascii.eqb c (chr 69) then
        let '(sign, s1) := match s' with
                           | String g r => if Ascii.eqb g (chr 43) || Ascii.eqb g (chr 45) then (String g "", r) else ("", s')
                           | EmptyString => ("", s')
                           end in
        let '(d, rest) := digits s1 in
        if decide (d = "") then None else Some (String c (sign +:+ d), rest)
      else Some ("", s)
  | EmptyString => Some ("", "")
  end.

Definition lex_number (s : string) : option (string * string) :=
  let '(sign, s1) := match s with
                     | String c r => if Ascii.eqb c (chr 45) then (String c "", r) else ("", s)
                     | EmptyString => ("", s)
                     end in
  int ← match s1 with
        | String c r =>
            if Ascii.eqb c (chr 48) then Some (String c "", r)
            else if is_digit c then Some (digits s1) else None
        | EmptyString => None
        end;
  fr ← fraction int.2;
  ex ← exponent fr.2;
  Some (sign +:+ int.1 +:+ fr.1 +:+ ex.1, ex.2).

(** A literal at the front of a text. *)
Fixpoint strip_lit (lit s : string) : option string :=
  match lit, s with
  | EmptyString, _ => Some s
  | String a lit', String b s' => if Ascii.eqb a b then strip_lit lit' s' else None
  | String _ _, EmptyString => None
  end.

(** The literals and numbers. *)
Definition lex_atom (s : string) : option (json * string) :=
  match strip_lit "null" s, strip_lit "true" s, strip_lit "false" s with
  | Some r, _, _ => Some (JNull, r)
  | _, Some r, _ => Some (JBool true, r)
  | _, _, Some r => Some (JBool false, r)
  | _, _, _ => prod_map JNum id <$> lex_number s
  end.

(** ** Parsing *)

(** Every call consumes a character or goes down one level of the grammar, so
    that [fuel_for] calls are enough. *)
Fixpoint parse_value (fuel : nat) (s : string) : option (json * string) :=
  match fuel with
  | O => None
  | S fuel =>
      match skip_space s with
      | EmptyString => None
      | String c s' =>
          if Ascii.eqb c quote then prod_map JStr id <$> lex_string None s'
          else if Ascii.eqb c (chr 91) then
            match skip_space s' with
            | String d s'' => if Ascii.eqb d (chr 93) then Some (JArr [], s'')
                              else prod_map JArr id <$> parse_elems fuel s'
            | EmptyString => None
            end
          else if Ascii.eqb c (chr 123) then
            match skip_space s' with
            | String d s'' => if Ascii.eqb d (chr 125) then Some (JObj [], s'')
                              else prod_map JObj id <$> parse_members fuel s'
            | EmptyString => None
            end
          else lex_atom (String c s')
      end
  end
with parse_elems (fuel : nat) (s : string) : option (list json * string) :=
  match fuel with
  | O => None
  | S fuel =>
      v ← parse_value fuel s;
      match skip_space v.2 with
      | String d s'' =>
          if Ascii.eqb d (chr 93) then Some ([v.1], s'')
          else if Ascii.eqb d (chr 44) then prod_map (cons v.1) id <$> parse_elems fuel s''
          else None
      | EmptyString => None
      end
  end
with parse_members (fuel : nat) (s : string) : option (list (string * json) * string) :=
  match fuel with
  | O => None
  | S fuel =>
      match skip_space s with
      | String q s1 =>
          if Ascii.eqb q quote then
            k ← lex_string None s1;
            match skip_space k.2 with
            | String colon s2 =>
                if Ascii.eqb colon (chr 58) then
                  v ← parse_value fuel s2;
                  match skip_space v.2 with
                  | String d s3 =>
                      if Ascii.eqb d (chr 125) then Some ([(k.1, v.1)], s3)
                      else if Ascii.eqb d (chr 44) then prod_map (cons (k.1, v.1)) id <$> parse_members fuel s3
                      else None
                  | EmptyString => None
                  end
                else None
            | EmptyString => None
            end
          else None
      | EmptyString => None
      end
  end.

Definition fuel_for (s : string) : nat := S (2 * String.length s).

(** A whole text: one value and nothing but space after it. *)
Definition json_parse (s : string) : option json :=
  v ← parse_value (fuel_for s) s;
  match skip_space v.2 with
  | EmptyString => Some v.1
  | String _ _ => None
  end.

(** ** The fuel is enough *)

Lemma skip_space_length s : (String.length (skip_space s) ≤ String.length s)%nat.
Proof. induction s as [|c s IH]; simpl; [lia|]. destruct (is_space c); simpl; lia. Qed.

Lemma fmap_rest {A B} (f : A → B) (o : option (A * string)) b r :
  prod_map f id <$> o = Some (b, r) → ∃ a, o = Some (a, r).
Proof. destruct o as [[a r']|]; [|done]. intros [= _ ->]. by exists a. Qed.

Lemma lex_string_length s high t r : lex_string high s = Some (t, r) → (String.length r < String.length s)%nat.
Proof.
  enough (∀ n s, (String.length s ≤ n)%nat → ∀ high t r, lex_string high s = Some (t, r) →
    (String.length r < String.length s)%nat) as H by by eapply H.
  clear. intros n. induction n as [|n IH]; intros s Hn high t r; [by destruct s; [|simpl in Hn; lia]|].
  assert (∀ (o : option (string * string)) (x y : string), match high with Some _ => prod_map (λ t, utf8 replacement +:+ t) id <$> o | None => o end
            = Some (x, y) → ∃ x', o = Some (x', y)) as Hfl.
  { intros o x y. destruct high; [apply fmap_rest|]. intros ->. by eexists. }
  destruct s as [|c s]; [done|]. simpl in Hn. cbn [lex_string String.length].
  destruct (Ascii.eqb c quote). { intros [x' [= _ <-]]%Hfl. lia. }
  destruct (Ascii.eqb c backslash).
  - destruct s as [|e s]; [done|]. simpl in Hn. destruct (Ascii.eqb e (chr 117)).
    + destruct s as [|h1 [|h2 [|h3 [|h4 s]]]]; try done. simpl in Hn.
      destruct (hex4 h1 h2 h3 h4) as [cp|]; [|done].
      assert (∀ hi x, lex_string hi s = Some (x, r) → (String.length r < String.length s)%nat) as Hs.
      { intros. eapply (IH s); [lia|done]. }
      destruct (_ && _). { intros [x' ?%Hs]%Hfl. simpl. lia. }
      destruct (_ && _).
      * destruct high; intros [x' ?%Hs]%fmap_rest; simpl; lia.
      * intros [x' [x'' ?%Hs]%fmap_rest]%Hfl. simpl. lia.
    + destruct (simple_escape e); [|done]. intros [x' [x'' Hs]%fmap_rest]%Hfl.
      apply IH in Hs; [|lia]. simpl. lia.
  - destruct (Nat.ltb _ _); [done|]. intros [x' [x'' Hs]%fmap_rest]%Hfl. apply IH in Hs; lia.
Qed.

Lemma digits_length s : (String.length (digits s).2 ≤ String.length s)%nat.
Proof. induction s as [|c s IH]; simpl; [lia|]. destruct (is_digit c); simpl; lia. Qed.

Lemma fraction_length s t r : fraction s = Some (t, r) → (String.length r ≤ String.length s)%nat.
Proof.
  destruct s as [|c s]; simpl; [by intros [= _ <-]|]. destruct (Ascii.eqb c _); [|intros [= _ <-]; simpl; lia].
  pose proof (digits_length s). destruct (digits s) as [d rest]. case_decide; [done|]. intros [= _ <-]. simpl in *. lia.
Qed.

Lemma exponent_length s t r : exponent s = Some (t, r) → (String.length r ≤ String.length s)%nat.
Proof.
  destruct s as [|c s]; simpl; [by intros [= _ <-]|]. destruct (_ || _); [|intros [= _ <-]; simpl; lia].
  set (p := match s with String g r => _ | "" => _ end).
  assert (String.length p.2 ≤ String.length s)%nat as Hp.
  { unfold p. destruct s as [|g s]; simpl; [lia|]. destruct (_ || _); simpl; lia. }
  destruct p as [sg s1]. simpl in Hp. pose proof (digits_length s1). destruct (digits s1) as [d rest].
  case_decide; [done|]. intros [= _ <-]. simpl in *. lia.
Qed.

Lemma lex_number_length s t r : lex_number s = Some (t, r) → (String.length r < String.length s)%nat.
Proof.
  unfold lex_number. set (p := match s with String c r => _ | "" => _ end).
  assert (String.length p.2 ≤ String.length s)%nat as Hp.
  { unfold p. destruct s as [|c s]; simpl; [lia|]. destruct (Ascii.eqb c _); simpl; lia. }
  destruct p as [sg s1]. simpl in Hp. destruct s1 as [|c s1]; [done|].
  intros ([i r1]&Hi&Hrest)%bind_Some. apply bind_Some in Hrest as ([f r2]&Hf&Hrest).
  apply bind_Some in Hrest as ([e r3]&He&[= _ <-]).
  apply fraction_length in Hf. apply exponent_length in He. simpl in *.
  destruct (Ascii.eqb c (chr 48)); [injection Hi as _ <-; lia|].
  destruct (is_digit c); [|done]. injection Hi as _ <-. pose proof (digits_length s1). lia.
Qed.

Lemma strip_lit_length lit s r : strip_lit lit s = Some r → (String.length r + String.length lit = String.length s)%nat.
Proof.
  revert s. induction lit as [|a lit IH]; intros s; [intros [= <-]; simpl; lia|].
  destruct s as [|b s]; [done|]. simpl. destruct (Ascii.eqb a b); [|done]. intros ?%IH. lia.
Qed.

Lemma lex_atom_length s v r : lex_atom s = Some (v, r) → (String.length r < String.length s)%nat.
Proof.
  unfold lex_atom.
  destruct (strip_lit "null" s) as [r1|] eqn:H1; [apply strip_lit_length in H1; intros [= _ <-]; simpl in H1; lia|].
  destruct (strip_lit "true" s) as [r2|] eqn:H2; [apply strip_lit_length in H2; intros [= _ <-]; simpl in H2; lia|].
  destruct (strip_lit "false" s) as [r3|] eqn:H3; [apply strip_lit_length in H3; intros [= _ <-]; simpl in H3; lia|].
  intros [a ?%lex_number_length]%fmap_rest. done.
Qed.

(** What is left after a value is shorter than the text. *)
Lemma parse_length fuel :
  (∀ s v r, parse_value fuel s = Some (v, r) → (String.length r < String.length s)%nat) ∧
  (∀ s v r, parse_elems fuel s = Some (v, r) → (String.length r < String.length s)%nat) ∧
  (∀ s v r, parse_members fuel s = Some (v, r) → (String.length r < String.length s)%nat).
Proof.
  induction fuel as [|fuel (IHv&IHe&IHm)]; [done|].
  split_and!; intros s v r; cbn [parse_value parse_elems parse_members].
  - pose proof (skip_space_length s). destruct (skip_space s) as [|c s']; [done|]. simpl in H.
    pose proof (skip_space_length s').
    destruct (Ascii.eqb c quote). { intros [a ?%lex_string_length]%fmap_rest. lia. }
    destruct (Ascii.eqb c (chr 91)).
    { destruct (skip_space s') as [|d s'']; [done|]. simpl in H0.
      destruct (Ascii.eqb d _); [intros [= _ <-]; lia|]. intros [a ?%IHe]%fmap_rest. lia. }
    destruct (Ascii.eqb c (chr 123)).
    { destruct (skip_space s') as [|d s'']; [done|]. simpl in H0.
      destruct (Ascii.eqb d _); [intros [= _ <-]; lia|]. intros [a ?%IHm]%fmap_rest. lia. }
    intros Ha%lex_atom_length. simpl in Ha. lia.
  - intros ([x rx]&Hx%IHv&Hr)%bind_Some. cbn [fst snd] in Hr. pose proof (skip_space_length rx).
    destruct (skip_space rx) as [|d s'']; [done|]. simpl in H.
    destruct (Ascii.eqb d (chr 93)); [injection Hr as _ <-; lia|].
    destruct (Ascii.eqb d (chr 44)); [|done]. apply fmap_rest in Hr as [a ?%IHe]. lia.
  - pose proof (skip_space_length s). destruct (skip_space s) as [|q s1]; [done|]. simpl in H.
    destruct (Ascii.eqb q quote); [|done]. intros ([k rk]&Hk%lex_string_length&Hr)%bind_Some.
    cbn [fst snd] in Hr. pose proof (skip_space_length rk).
    destruct (skip_space rk) as [|cl s2]; [done|]. simpl in H0. destruct (Ascii.eqb cl _); [|done].
    apply bind_Some in Hr as ([x rx]&Hx%IHv&Hr). cbn [fst snd] in Hr. pose proof (skip_space_length rx).
    destruct (skip_space rx) as [|d s3]; [done|]. simpl in H1.
    destruct (Ascii.eqb d (chr 125)); [injection Hr as _ <-; lia|].
    destruct (Ascii.eqb d (chr 44)); [|done]. apply fmap_rest in Hr as [a ?%IHm]. lia.
Qed.

Lemma bind_ext_Some {A B} (o o' : option A) (k k' : A → option B) :
  o = o' → (∀ a, o = Some a → k a = k' a) → (o ≫= k) = (o' ≫= k').
Proof. intros <- Hk. destruct o as [a|]; [|done]. simpl. by apply Hk. Qed.

(** With enough fuel the result does not depend on the fuel. *)
Lemma parse_fuel n :
  (∀ s m, (2 * String.length s + 1 ≤ n)%nat → (2 * String.length s + 1 ≤ m)%nat → parse_value n s = parse_value m s) ∧
  (∀ s m, (2 * String.length s + 2 ≤ n)%nat → (2 * String.length s + 2 ≤ m)%nat → parse_elems n s = parse_elems m s) ∧
  (∀ s m, (2 * String.length s + 2 ≤ n)%nat → (2 * String.length s + 2 ≤ m)%nat → parse_members n s = parse_members m s).
Proof.
  induction n as [|n (IHv&IHe&IHm)]; [split_and!; intros; lia|].
  destruct (parse_length n) as (Lv&Le&Lm).
  split_and!; intros s [|m] Hn Hm; try lia; cbn [parse_value parse_elems parse_members].
  - pose proof (skip_space_length s). destruct (skip_space s) as [|c s']; [done|]. simpl in H.
    destruct (Ascii.eqb c quote); [done|].
    destruct (Ascii.eqb c (chr 91)).
    { destruct (skip_space s') as [|d s'']; [done|]. destruct (Ascii.eqb d _); [done|]. by rewrite (IHe s' m) by lia. }
    destruct (Ascii.eqb c (chr 123)); [|done].
    destruct (skip_space s') as [|d s'']; [done|]. destruct (Ascii.eqb d _); [done|]. by rewrite (IHm s' m) by lia.
  - apply bind_ext_Some; [apply IHv; lia|]. intros [x rx] Hx%Lv. cbn [fst snd]. pose proof (skip_space_length rx).
    destruct (skip_space rx) as [|d s'']; [done|]. simpl in H. destruct (Ascii.eqb d (chr 93)); [done|].
    destruct (Ascii.eqb d (chr 44)); [|done]. by rewrite (IHe s'' m) by lia.
  - pose proof (skip_space_length s). destruct (skip_space s) as [|q s1]; [done|]. simpl in H.
    destruct (Ascii.eqb q quote); [|done]. apply bind_ext_Some; [done|]. intros [k rk] Hk%lex_string_length.
    cbn [fst snd]. pose proof (skip_space_length rk).
    destruct (skip_space rk) as [|cl s2]; [done|]. simpl in H0. destruct (Ascii.eqb cl _); [|done].
    apply bind_ext_Some; [apply IHv; lia|]. intros [x rx] Hx%Lv. cbn [fst snd].
    pose proof (skip_space_length rx). destruct (skip_space rx) as [|d s3]; [done|]. simpl in H1.
    destruct (Ascii.eqb d (chr 125)); [done|]. destruct (Ascii.eqb d (chr 44)); [|done].
    by rewrite (IHm s3 m) by lia.
Qed.

(** More fuel never loses a result. *)
Lemma parse_more_aux n :
  (∀ k s x, parse_value n s = Some x → parse_value (n + k) s = Some x) ∧
  (∀ k s x, parse_elems n s = Some x → parse_elems (n + k) s = Some x) ∧
  (∀ k s x, parse_members n s = Some x → parse_members (n + k) s = Some x).
Proof.
  induction n as [|n (IHv&IHe&IHm)]; [done|].
  split_and!; intros k s x; cbn [Nat.add parse_value parse_elems parse_members].
  - destruct (skip_space s) as [|c s']; [done|]. destruct (Ascii.eqb c quote); [done|].
    destruct (Ascii.eqb c (chr 91)).
    { destruct (skip_space s') as [|d s'']; [done|]. destruct (Ascii.eqb d _); [done|].
      intros (a&Ha&->)%fmap_Some. by rewrite (IHe k _ _ Ha). }
    destruct (Ascii.eqb c (chr 123)); [|done].
    destruct (skip_space s') as [|d s'']; [done|]. destruct (Ascii.eqb d _); [done|].
    intros (a&Ha&->)%fmap_Some. by rewrite (IHm k _ _ Ha).
  - intros (y&Hy&Hr)%bind_Some. rewrite (IHv k _ _ Hy). simpl.
    destruct (skip_space y.2) as [|d s'']; [done|]. destruct (Ascii.eqb d (chr 93)); [done|].
    destruct (Ascii.eqb d (chr 44)); [|done]. apply fmap_Some in Hr as (a&Ha&->). by rewrite (IHe k _ _ Ha).
  - destruct (skip_space s) as [|q s1]; [done|]. destruct (Ascii.eqb q quote); [|done].
    intros (kk&->&Hr)%bind_Some. simpl.
    destruct (skip_space kk.2) as [|cl s2]; [done|]. destruct (Ascii.eqb cl _); [|done].
    apply bind_Some in Hr as (y&Hy&Hr). rewrite (IHv k _ _ Hy). simpl.
    destruct (skip_space y.2) as [|d s3]; [done|]. destruct (Ascii.eqb d (chr 125)); [done|].
    destruct (Ascii.eqb d (chr 44)); [|done]. apply fmap_Some in Hr as (a&Ha&->). by rewrite (IHm k _ _ Ha).
Qed.

(** A text that some amount of fuel parses is parsed. *)
Lemma json_parse_complete n s v r :
  parse_value n s = Some (v, r) → skip_space r = "" → json_parse s = Some v.
Proof.
  intros Hn Hr. unfold json_parse, fuel_for.
  assert (parse_value (n + S (2 * String.length s)) s = Some (v, r)) as Hbig by by apply parse_more_aux.
  destruct (parse_fuel (S (2 * String.length s))) as (Hf&_&_).
  rewrite (Hf s (n + S (2 * String.length s))%nat), Hbig by lia. simpl. by rewrite Hr.
Qed.

(** A text between quotes, for texts without characters that are escaped. *)
Definition q (s : string) : string := String quote s +:+ String quote "".

(** ** Decoding into Go values *)

Definition lower (c : ascii) : ascii :=
  let n := nat_of_ascii c in
  if Nat.leb 65 n && Nat.leb n 90 then chr (n + 32) else c.
Fixpoint ToLower (s : string) : string :=
  match s with
  | String c s' => String (lower c) (ToLower s')
  | EmptyString => ""
  end.

(** A key selects a field by its exact name or, failing that, by its name in
    any mix of (ASCII) cases. *)
Definition selects (key field : string) : bool := String.eqb (ToLower key) (ToLower field).

(** Decoding goes on after a type error, which is reported at the end: a value
    and whether it decoded without an error. [null] leaves a value alone, and
    makes a pointer nil. *)
Definition decodeString (v : json) (old : string) : string * bool :=
  match v with
  | JStr s => (s, true)
  | JNull => (old, true)
  | _ => (old, false)
  end.
Definition decodeStringPtr (v : json) (old : option string) : option string * bool :=
  match v with
  | JStr s => (Some s, true)
  | JNull => (None, true)
  | _ => (old, false)
  end.
Definition decodeBool (v : json) (old : bool) : bool * bool :=
  match v with
  | JBool b => (b, true)
  | JNull => (old, true)
  | _ => (old, false)
  end.

(** The members of an object, one after another, into a struct. *)
Definition decodeStruct {A} (field : string → json → A → A * bool) (zero : A) (v : json) : A * bool :=
  match v with
  | JObj members =>
      foldl (λ acc kv, let '(a, ok) := field kv.1 kv.2 acc.1 in (a, acc.2 && ok)) (zero, true) members
  | JNull => (zero, true)
  | _ => (zero, false)
  end.

(** An array into a slice. *)
Definition decodeSlice {A} (elem : json → A * bool) (v : json) : list A * bool :=
  match v with
  | JArr l => ((λ j, (elem j).1) <$> l, forallb (λ j, (elem j).2) l)
  | JNull => ([], true)
  | _ => ([], false)
  end.

(** [json.Unmarshal]: a value, or an error of the text or of some type. *)
Definition Unmarshal {A} (decode : json → A * bool) (text : string) : option A :=
  v ← json_parse text;
  let '(a, ok) := decode v in
  if (ok : bool) then Some a else None.
