(* ===== verification/Utf8.v ===== *)
(** * unicode/utf8 and the printing side of encoding/json

    Runes at the front of a string, [utf8.ValidString], and how [json.Marshal]
    writes strings, structs of strings and slices of them; what it writes is
    read back by [json.Unmarshal]. *)
From Stdlib Require Import Ascii.
From S2P Require Import Prelude GoStrings Json.
Open Scope Z_scope.

(** ** Runes *)

Definition code (c : ascii) : Z := Z.of_nat (nat_of_ascii c).
Definition between (a b : Z) (c : ascii) : bool := (a <=? code c) && (code c <=? b).
Definition tail_byte (c : ascii) : bool := between 128 191 c.

(** The rune at the front of a text that does not start with an ASCII character: its code point and
    the rest of the text, or nothing when the bytes do not encode one
    ([utf8.DecodeRuneInString] with [RuneError] of width 1). *)
Definition decodeMulti (s : string) : option (Z * string) :=
  match s with
  | String a (String b s2) =>
      if between 194 223 a && tail_byte b then Some ((code a - 192) * 64 + (code b - 128), s2)
      else match s2 with
      | String c s3 =>
          if (between 224 224 a && between 160 191 b || between 225 236 a && tail_byte b ||
              between 237 237 a && between 128 159 b || between 238 239 a && tail_byte b) && tail_byte c
          then Some (((code a - 224) * 64 + (code b - 128)) * 64 + (code c - 128), s3)
          else match s3 with
          | String d s4 =>
              if (between 240 240 a && between 144 191 b || between 241 243 a && tail_byte b ||
                  between 244 244 a && between 128 143 b) && tail_byte c && tail_byte d
              then Some ((((code a - 240) * 64 + (code b - 128)) * 64 + (code c - 128)) * 64 + (code d - 128), s4)
              else None
          | EmptyString => None
          end
      | EmptyString => None
      end
  | _ => None
  end.

(** [utf8.ValidString]: every step takes at least one byte. *)
Fixpoint valid_upto (fuel : nat) (s : string) : bool :=
  match fuel with
  | O => false
  | S fuel =>
      match s with
      | EmptyString => true
      | String c s' =>
          if code c <? 128 then valid_upto fuel s'
          else match decodeMulti s with
               | Some (_, rest) => valid_upto fuel rest
               | None => false
               end
      end
  end.
Definition ValidString (s : string) : bool := valid_upto (S (String.length s)) s.

(** ** Strings *)

Definition hexdigit (z : Z) : ascii := byte (if z <? 10 then 48 + z else 87 + z).

(** The characters below 128 that are written as they are: [htmlSafeSet]. *)
Definition htmlSafe (c : ascii) : bool :=
  (32 <=? code c) && negb (Ascii.eqb c quote || Ascii.eqb c backslash || Ascii.eqb c "<"%char
    || Ascii.eqb c ">"%char || Ascii.eqb c "&"%char).

(** How another character below 128 is written. *)
Definition escapeByte (c : ascii) : string :=
  if Ascii.eqb c backslash || Ascii.eqb c quote then String backslash (String c "")
  else match nat_of_ascii c with
  | 8%nat => String backslash "b" | 12%nat => String backslash "f" | 10%nat => String backslash "n"
  | 13%nat => String backslash "r" | 9%nat => String backslash "t"
  | _ => String backslash ("u00" +:+ String (hexdigit (code c / 16)) (String (hexdigit (code c mod 16)) ""))
  end.

(** [n] bytes of a text. *)
Fixpoint take_bytes (n : nat) (s : string) : string :=
  match n, s with
  | S n, String c s => String c (take_bytes n s)
  | _, _ => ""
  end.

(** The body of a string literal ([appendString] with [escapeHTML]). *)
Fixpoint escape_upto (fuel : nat) (s : string) : string :=
  match fuel with
  | O => ""
  | S fuel =>
      match s with
      | EmptyString => ""
      | String c s' =>
          if code c <? 128 then
            (if htmlSafe c then String c "" else escapeByte c) +:+ escape_upto fuel s'
          else match decodeMulti s with
               | None => String backslash "ufffd" +:+ escape_upto fuel s'
               | Some (cp, rest) =>
                   (if (cp =? 8232) || (cp =? 8233)
                    then String backslash ("u202" +:+ String (hexdigit (cp mod 16)) "")
                    else take_bytes (String.length s - String.length rest) s) +:+ escape_upto fuel rest
               end
      end
  end.
Definition escapeString (s : string) : string := escape_upto (String.length s) s.

(** A string literal. *)
Definition marshalString (s : string) : string := String quote (escapeString s +:+ String quote "").

(** ** Structs and slices *)

(** A struct of strings, all of them with [omitempty]. *)
Definition marshalFields (fields : list (string * string)) : string :=
  "{" +:+ join "," ((λ kv, marshalString kv.1 +:+ ":" +:+ marshalString kv.2)
                    <$> filter (λ kv : string * string, kv.2 ≠ "") fields) +:+ "}".

(** A slice; that of nil is null. *)
Definition marshalSlice {A} (elem : A → string) (l : list A) : string :=
  match l with
  | [] => "null"
  | _ => "[" +:+ join "," (elem <$> l) +:+ "]"
  end.

(** ** A literal is read back *)

Lemma code_range c : 0 ≤ code c < 256.
Proof. unfold code. pose proof (nat_ascii_bounded c). lia. Qed.
Lemma byte_code c : byte (code c) = c.
Proof. unfold byte, code, chr. by rewrite Nat2Z.id, ascii_nat_embedding. Qed.
Lemma betweenP a b c : between a b c = true ↔ a ≤ code c ≤ b.
Proof. unfold between. rewrite andb_true_iff, !Z.leb_le. lia. Qed.

(** A decision on every character. *)
Lemma all_bytes (P : ascii → bool) : forallb (λ n, P (chr n)) (seq 0 256) = true → ∀ c, P c = true.
Proof.
  intros Hall c. rewrite forallb_forall in Hall. specialize (Hall (nat_of_ascii c)).
  unfold chr in Hall. rewrite ascii_nat_embedding in Hall. apply Hall, in_seq.
  pose proof (nat_ascii_bounded c). lia.
Qed.

(** An escape below 128 is read as the character. *)
Definition escape_reads (c : ascii) : bool :=
  negb (code c <? 128) ||
  let e := if htmlSafe c then String c "" else escapeByte c in
  match e with
  | String c1 "" => Ascii.eqb c1 c && negb (Ascii.eqb c quote) && negb (Ascii.eqb c backslash) && negb (Nat.ltb (nat_of_ascii c) 32)
  | String c1 (String c2 "") =>
      Ascii.eqb c1 backslash && negb (Ascii.eqb c2 (chr 117)) && bool_decide (simple_escape c2 = Some c)
  | String c1 (String c2 (String h1 (String h2 (String h3 (String h4 ""))))) =>
      Ascii.eqb c1 backslash && Ascii.eqb c2 (chr 117) && bool_decide (hex4 h1 h2 h3 h4 = Some (code c))
  | _ => false
  end.

Lemma escapes_read c : escape_reads c = true.
Proof. revert c. apply all_bytes. vm_compute. reflexivity. Qed.

Lemma lex_ascii c s :
  code c < 128 →
  lex_string None ((if htmlSafe c then String c "" else escapeByte c) +:+ s) =
    (prod_map (String c) id <$> lex_string None s).
Proof.
  intros Hc. pose proof (escapes_read c) as He. unfold escape_reads in He.
  rewrite (proj2 (Z.ltb_lt _ _) Hc) in He. cbn [negb orb] in He. cbv zeta in He.
  destruct (if htmlSafe c then _ else _) as [|c1 [|c2 [|h1 [|h2 [|h3 [|h4 [|]]]]]]]; try done.
  - repeat rewrite andb_true_iff in He. rewrite !negb_true_iff, Ascii.eqb_eq in He. destruct He as (((->&Hq)&Hb)&Hlt).
    rewrite !app_cons, app_nil_l; cbn [lex_string]. rewrite Hq, Hb, Hlt. reflexivity.
  - repeat rewrite andb_true_iff in He. rewrite negb_true_iff, Ascii.eqb_eq, bool_decide_eq_true in He.
    destruct He as ((->&Hu)&Hs). rewrite !app_cons, app_nil_l; cbn [lex_string].
    change (Ascii.eqb backslash quote) with false. rewrite Ascii.eqb_refl, Hu, Hs. reflexivity.
  - repeat rewrite andb_true_iff in He. rewrite !Ascii.eqb_eq, bool_decide_eq_true in He.
    destruct He as ((->&->)&Hh). rewrite !app_cons, app_nil_l; cbn [lex_string].
    change (Ascii.eqb backslash quote) with false. rewrite !Ascii.eqb_refl, Hh.
    rewrite (proj2 (Z.leb_gt 55296 _)), (proj2 (Z.leb_gt 56320 _)) by lia. cbn [andb].
    unfold utf8. rewrite (proj2 (Z.ltb_lt _ _) Hc), byte_code. reflexivity.
Qed.

(** Bytes from 128 on are read as they are. *)
Fixpoint high (s : string) : bool :=
  match s with
  | EmptyString => true
  | String c s => (128 <=? code c) && high s
  end.

Lemma lex_high p s : high p = true → lex_string None (p +:+ s) = (prod_map (λ t, p +:+ t) id <$> lex_string None s).
Proof.
  induction p as [|c p IH]; [rewrite app_nil_l; destruct (lex_string None s) as [[]|]; reflexivity|].
  cbn [high]. intros [Hc%Z.leb_le Hp]%andb_true_iff. rewrite app_cons. cbn [lex_string]. unfold code in Hc.
  destruct (Ascii.eqb_spec c quote) as [->|_]; [by vm_compute in Hc|].
  destruct (Ascii.eqb_spec c backslash) as [->|_]; [by vm_compute in Hc|].
  rewrite (proj2 (Nat.ltb_ge _ 32)) by lia. rewrite IH by done. by destruct (lex_string None s) as [[]|].
Qed.

(** What [decodeMulti] takes is the encoding of the rune. *)
Lemma decodeMulti_inv s cp rest :
  decodeMulti s = Some (cp, rest) →
  ∃ p, s = p +:+ rest ∧ high p = true ∧ (String.length p ≠ 0)%nat ∧ p = utf8 cp ∧ 128 ≤ cp < 1114112.
Proof.
  assert (∀ a z, z = code a → a = byte z) as Hb by (intros a z ->; by rewrite byte_code).
  destruct s as [|a [|b s2]]; [done..|]. cbn [decodeMulti]. unfold tail_byte.
  destruct (between 194 223 a && between 128 191 b) eqn:H2.
  { apply andb_true_iff in H2 as [Ha%betweenP Hc%betweenP]. intros [= <- <-].
    exists (String a (String b "")). split_and!; [done| |done| |lia|lia].
    - cbn [high]. rewrite !Zle_imp_le_bool by lia. done.
    - unfold utf8. rewrite (proj2 (Z.ltb_ge _ 128)), (proj2 (Z.ltb_lt _ 2048)) by lia.
      f_equal; [|f_equal]; apply Hb; Z.to_euclidean_division_equations; lia. }
  destruct s2 as [|c s3]; [done|]. destruct (_ && between 128 191 c) eqn:H3.
  { apply andb_true_iff in H3 as [H3 Hc%betweenP].
    rewrite !orb_true_iff, !andb_true_iff, !betweenP in H3. intros [= <- <-].
    exists (String a (String b (String c ""))). split_and!; [done| |done| |lia|lia].
    - cbn [high]. rewrite !Zle_imp_le_bool by lia. done.
    - unfold utf8. rewrite (proj2 (Z.ltb_ge _ 128)), (proj2 (Z.ltb_ge _ 2048)), (proj2 (Z.ltb_lt _ 65536)) by lia.
      f_equal; [|f_equal; [|f_equal]]; apply Hb; Z.to_euclidean_division_equations; lia. }
  destruct s3 as [|d s4]; [done|]. destruct (_ && between 128 191 d) eqn:H4; [|done].
  apply andb_true_iff in H4 as [[H4 Hc%betweenP]%andb_true_iff Hd%betweenP].
  rewrite !orb_true_iff, !andb_true_iff, !betweenP in H4. intros [= <- <-].
  exists (String a (String b (String c (String d "")))). split_and!; [done| |done| |lia|lia].
  - cbn [high]. rewrite !Zle_imp_le_bool by lia. done.
  - unfold utf8. rewrite (proj2 (Z.ltb_ge _ 128)), (proj2 (Z.ltb_ge _ 2048)), (proj2 (Z.ltb_ge _ 65536)) by lia.
    f_equal; [|f_equal; [|f_equal; [|f_equal]]]; apply Hb; Z.to_euclidean_division_equations; lia.
Qed.

Lemma take_bytes_app p s : take_bytes (String.length (p +:+ s) - String.length s) (p +:+ s) = p.
Proof.
  rewrite string_length_app. replace (String.length p + String.length s - String.length s)%nat with (String.length p) by lia.
  induction p as [|c p IH]; [done|]. rewrite app_cons. simpl. by f_equal.
Qed.

Lemma lex_separator cp s :
  cp = 8232 ∨ cp = 8233 →
  lex_string None (String backslash ("u202" +:+ String (hexdigit (cp mod 16)) "") +:+ s) =
    (prod_map (λ t, utf8 cp +:+ t) id <$> lex_string None s).
Proof. intros [-> | ->]; reflexivity. Qed.

Lemma prod_map_some {A B} (f : A → B) (o : option (A * string)) a r :
  o = Some (a, r) → prod_map f id <$> o = Some (f a, r).
Proof. by intros ->. Qed.

Lemma escape_lex fuel s rest :
  (String.length s ≤ fuel)%nat → valid_upto (S fuel) s = true →
  lex_string None (escape_upto fuel s +:+ String quote rest) = Some (s, rest).
Proof.
  revert s. induction fuel as [|fuel IH]; intros [|c s] Hlen; simpl in Hlen; try lia; [reflexivity..|].
  remember (S fuel) as n eqn:Hn. cbn [valid_upto]. subst n. cbn [escape_upto]. destruct (Z.ltb_spec (code c) 128) as [Hc|Hc]; intros Hv.
  - rewrite string_app_assoc, lex_ascii by done. apply prod_map_some, IH; [lia|done].
  - destruct (decodeMulti (String c s)) as [[cp s']|] eqn:Hd; [|done].
    apply decodeMulti_inv in Hd as (p&Hp&Hhigh&Hne&Hcp&_). rewrite Hp.
    assert (String.length s' ≤ fuel)%nat as Hl.
    { apply (f_equal String.length) in Hp. rewrite string_length_app in Hp. simpl in Hp. lia. }
    rewrite string_app_assoc. destruct ((cp =? 8232) || (cp =? 8233)) eqn:Hsep.
    + rewrite lex_separator by (apply orb_true_iff in Hsep; rewrite !Z.eqb_eq in Hsep; done). rewrite <-Hcp.
      by apply (prod_map_some (λ t, p +:+ t)), IH.
    + rewrite take_bytes_app, lex_high by done. by apply (prod_map_some (λ t, p +:+ t)), IH.
Qed.

(** ** Values are read back *)

Lemma literal_lex s rest :
  ValidString s = true → lex_string None (escapeString s +:+ String quote rest) = Some (s, rest).
Proof. intros Hv. by apply escape_lex. Qed.

Lemma marshalString_app s rest : marshalString s +:+ rest = String quote (escapeString s +:+ String quote rest).
Proof. unfold marshalString. by rewrite app_cons, string_app_assoc. Qed.

(** [text] is a JSON text of [v], wherever it stands. *)
Definition prints (k : nat) (text : string) (v : json) : Prop :=
  ∀ n rest, parse_value (k + n) (text +:+ rest) = Some (v, rest).

Lemma prints_string s : ValidString s = true → prints 1 (marshalString s) (JStr s).
Proof.
  intros Hv n rest. rewrite marshalString_app. cbn [Nat.add parse_value skip_space].
  change (is_space quote) with false. cbv iota. rewrite Ascii.eqb_refl. by apply prod_map_some, literal_lex.
Qed.

Definition member (kv : string * string) : string := marshalString kv.1 +:+ ":" +:+ marshalString kv.2.

Lemma parse_member n kv rest :
  ValidString kv.1 = true → ValidString kv.2 = true →
  parse_members (S (S n)) (member kv +:+ rest) =
    match skip_space rest with
    | String d s3 =>
        if Ascii.eqb d (chr 125) then Some ([(kv.1, JStr kv.2)], s3)
        else if Ascii.eqb d (chr 44) then prod_map (cons (kv.1, JStr kv.2)) id <$> parse_members (S n) s3
        else None
    | EmptyString => None
    end.
Proof.
  intros Hk Hv. unfold member. rewrite string_app_assoc, marshalString_app. remember (S n) as m eqn:Hm.
  cbn [parse_members skip_space]. change (is_space quote) with false. cbv iota.
  rewrite Ascii.eqb_refl, literal_lex by done. cbn [mbind option_bind fst snd].
  rewrite string_app_assoc. change (":" +:+ ?x) with (String ":" x). cbn [skip_space]. subst m.
  change (is_space ":") with false. change (Ascii.eqb ":" (chr 58)) with true. cbv iota.
  pose proof (prints_string (kv.2) Hv n rest) as Hs. cbn [Nat.add] in Hs. by rewrite Hs.
Qed.

Lemma parse_fields n (l : list (string * string)) rest :
  l ≠ [] → Forall (λ kv, ValidString kv.1 = true ∧ ValidString kv.2 = true) l →
  parse_members (S (length l + n)) (join "," (member <$> l) +:+ String "}" rest) =
    Some ((λ kv, (kv.1, JStr kv.2)) <$> l, rest).
Proof.
  intros Hne Hall. induction Hall as [|kv l [Hk Hv] _ IH]; [done|]. destruct l as [|kv' l].
  - cbn [fmap list_fmap join String.concat length Nat.add]. by rewrite parse_member.
  - cbn [fmap list_fmap length Nat.add] in IH |- *. rewrite join_cons, string_app_assoc.
    rewrite parse_member by done. rewrite string_app_assoc. change ("," +:+ ?x) with (String "," x).
    cbn [skip_space]. change (is_space ",") with false. change (Ascii.eqb "," (chr 125)) with false.
    change (Ascii.eqb "," (chr 44)) with true. cbv iota. by rewrite IH.
Qed.

Lemma prints_fields (fields : list (string * string)) :
  Forall (λ kv, ValidString kv.1 = true ∧ ValidString kv.2 = true) fields →
  prints (S (S (length fields))) (marshalFields fields)
    (JObj ((λ kv, (kv.1, JStr kv.2)) <$> filter (λ kv : string * string, kv.2 ≠ "") fields)).
Proof.
  intros Hall n rest. unfold marshalFields. fold member.
  change ((λ kv : string * string, marshalString kv.1 +:+ ":" +:+ marshalString kv.2)) with member.
  assert (Forall (λ kv, ValidString kv.1 = true ∧ ValidString kv.2 = true)
    (filter (λ kv : string * string, kv.2 ≠ "") fields)) as Hl.
  { rewrite Forall_forall in Hall |- *. intros kv [_ Hin]%list_elem_of_filter. by apply Hall. }
  pose proof (length_filter (λ kv : string * string, kv.2 ≠ "") fields) as Hlen. revert Hl Hlen.
  generalize (filter (λ kv : string * string, kv.2 ≠ "") fields). intros l Hl Hlen.
  rewrite string_app_assoc, string_app_assoc. change ("{" +:+ ?x) with (String "{" x).
  change ("}" +:+ rest) with (String "}" rest). remember (S (length fields)) as m eqn:Hm. cbn [Nat.add parse_value skip_space].
  change (is_space "{") with false. change (Ascii.eqb "{" quote) with false.
  change (Ascii.eqb "{" (chr 91)) with false. change (Ascii.eqb "{" (chr 123)) with true. cbv iota.
  destruct l as [|kv l]; [reflexivity|].
  assert (∃ s, join "," (member <$> kv :: l) +:+ String "}" rest = String quote s) as [s Hs].
  { destruct l; cbn [fmap list_fmap]; [|rewrite join_cons, string_app_assoc]; simpl (join _ [_]);
      unfold member; rewrite string_app_assoc, marshalString_app; by eexists. }
  rewrite Hs. cbn [skip_space]. change (is_space quote) with false. cbv iota.
  change (Ascii.eqb quote (chr 125)) with false. cbv iota. rewrite <-Hs. subst m.
  replace (S (length fields) + n)%nat with (S (length (kv :: l) + (length fields - length (kv :: l) + n)))%nat by lia.
  by rewrite parse_fields.
Qed.

Lemma parse_slice {A} (elem : A → string) (val : A → json) k n (l : list A) rest :
  l ≠ [] → Forall (λ x, prints k (elem x) (val x)) l →
  parse_elems (length l + (k + n)) (join "," (elem <$> l) +:+ String "]" rest) = Some (val <$> l, rest).
Proof.
  intros Hne Hall. induction Hall as [|x l Hx _ IH]; [done|]. destruct l as [|y l].
  - cbn [fmap list_fmap join String.concat length Nat.add parse_elems]. rewrite (Hx n (String "]" rest)). reflexivity.
  - cbn [fmap list_fmap] in IH |- *. rewrite join_cons, string_app_assoc.
    change (length (x :: y :: l)) with (S (length (y :: l))). remember (length (y :: l)) as m eqn:Hm.
    cbn [Nat.add parse_elems].
    replace (m + (k + n))%nat with (k + (m + n))%nat at 1 by lia. rewrite (Hx (m + n)%nat). cbn [mbind option_bind fst snd].
    rewrite string_app_assoc. change ("," +:+ ?x) with (String "," x).
    cbn [skip_space]. change (is_space ",") with false. change (Ascii.eqb "," (chr 93)) with false.
    change (Ascii.eqb "," (chr 44)) with true. cbv iota. by rewrite IH.
Qed.

(** A printed slice parses as the array of what its elements stand for. *)
Lemma json_parse_slice {A} (elem : A → string) (val : A → json) k (l : list A) rest :
  Forall (λ x, prints k (elem x) (val x) ∧ ∃ s, elem x = String "{" s) l → skip_space rest = "" →
  json_parse (marshalSlice elem l +:+ rest) = Some (match l with [] => JNull | _ => JArr (val <$> l) end).
Proof.
  intros Hall Hrest. destruct l as [|x l]; [by apply (json_parse_complete 1 _ _ rest)|]. cbn [marshalSlice].
  rewrite !string_app_assoc. change ("]" +:+ rest) with (String "]" rest).
  eapply (json_parse_complete (S (length (x :: l) + (k + 0)))%nat _ _ rest); [|done].
  change ("[" +:+ ?x) with (String "[" x). cbn [parse_value skip_space].
  change (is_space "[") with false. change (Ascii.eqb "[" quote) with false.
  change (Ascii.eqb "[" (chr 91)) with true. cbv iota.
  pose proof (Forall_inv Hall) as [_ [s Hs]].
  assert (∃ t, join "," (elem <$> x :: l) +:+ String "]" rest = String "{" t) as [t Ht].
  { destruct l; cbn [fmap list_fmap]; [|rewrite join_cons, string_app_assoc]; simpl (join _ [_]); rewrite Hs, app_cons; by eexists. }
  rewrite Ht. cbn [skip_space]. change (is_space "{") with false. cbv iota.
  change (Ascii.eqb "{" (chr 93)) with false. cbv iota. rewrite <-Ht.
  rewrite (parse_slice elem val); [reflexivity|done|].
  eapply Forall_impl; [exact Hall|]. by intros ? [? _].
Qed.
