(* ===== verification/Metrics.v ===== *)
(** * pkg/monitoring/metrics

    The metric of the driver and its registration: metrics.go and
    operator_metrics.go, the registry of operator-observability-toolkit
    (operatormetrics/wrapper_registry.go) they call, and the registry of the
    Prometheus client (prometheus/registry.go, desc.go and gauge.go) below it. *)
From S2P Require Import Prelude GoStrings GoFloat GoPath GoErrors OS Json Utf8.
Open Scope Z_scope.

(** ** Descriptors *)

(** The hash of a text in 64 bits (xxhash), which is left to its library. *)
Class XXHash := Sum64 : string → Z.

(** Why a descriptor is not valid; the texts also quote the offender. *)
Inductive descError : Type := BadMetricName | BadLabelName | BadLabelValue | DuplicateLabels.

Record Desc := {
  d_fqName : string;
  d_help : string;
  d_constLabels : gmap string string;
  d_variableLabels : list string;
  d_id : Z;
  d_dimHash : Z;
  d_err : option descError;
}.

(** The byte that ends every part of a text that is hashed. *)
Definition separator : string := String (chr 255) "".
Definition separated (l : list string) : string := String.concat "" ((λ s, s +:+ separator) <$> l).

Definition IsValidMetricName (s : string) : bool := bool_decide (s ≠ "") && ValidString s.
Definition checkLabelName (s : string) : bool := bool_decide (s ≠ "") && ValidString s && negb (HasPrefix s "__").

Definition BuildFQName (namespace subsystem name : string) : string :=
  if decide (name = "") then ""
  else (if decide (namespace = "") then "" else namespace +:+ "_")
       +:+ (if decide (subsystem = "") then "" else subsystem +:+ "_") +:+ name.

(** A descriptor that is found invalid on the way has no hashes. *)
Definition NewDesc `{!XXHash} (fqName help unit : string) (variableLabels : list string)
    (constLabels : gmap string string) : Desc :=
  let invalid e := {| d_fqName := fqName; d_help := help; d_constLabels := ∅; d_variableLabels := variableLabels;
                      d_id := 0; d_dimHash := 0; d_err := Some e |} in
  if negb (IsValidMetricName fqName) then invalid BadMetricName
  else
  let constNames := sort_Strings ((map_to_list constLabels).*1) in
  if negb (forallb checkLabelName constNames) then invalid BadLabelName
  else
  let labelValues := fqName :: ((λ n, default "" (constLabels !! n)) <$> constNames) in
  if negb (forallb ValidString labelValues) then invalid BadLabelValue
  else if negb (forallb checkLabelName variableLabels) then invalid BadLabelName
  else
  let labelNames := constNames ++ ((λ n, "$" +:+ n) <$> variableLabels) in
  let labelNameSet : gset string := list_to_set (constNames ++ variableLabels) in
  if negb (Nat.eqb (length labelNames) (size labelNameSet)) then invalid DuplicateLabels
  else
  {| d_fqName := fqName; d_help := help; d_constLabels := constLabels; d_variableLabels := variableLabels;
     d_id := Sum64 (separated labelValues);
     d_dimHash := Sum64 (separated (help :: unit :: sort_Strings labelNames)); d_err := None |}.

(** ** The registry of the Prometheus client *)

(** What a collector describes. *)
Definition Collector : Type := list Desc.

Record Registry := {
  collectorsByID : gmap Z Collector;
  descIDs : gset Z;
  dimHashesByName : gmap string Z;
  uncheckedCollectors : list Collector;
}.

Definition NewRegistry : Registry :=
  {| collectorsByID := ∅; descIDs := ∅; dimHashesByName := ∅; uncheckedCollectors := [] |}.

(** The errors; their texts quote the descriptor or the name. *)
Inductive regError : Type :=
  | InvalidDescriptor (d : Desc) (e : descError)
  | OtherLabelsRegistered (d : Desc)
  | InconsistentLabels (d : Desc)
  | AlreadyRegisteredError (existing new : Collector)
  | DuplicateDescriptor (d : Desc)
  | UnregisterFailed (name : string).

(** What the tests of [Register] have found so far. *)
Record tested := {
  newDescIDs : gset Z;
  newDimHashes : gmap string Z;
  collectorID : Z;
  duplicateDescErr : option regError;
}.
Definition untested : tested :=
  {| newDescIDs := ∅; newDimHashes := ∅; collectorID := 0; duplicateDescErr := None |}.

(** One turn of the loop over the descriptors. *)
Definition testDesc (r : Registry) (t : tested) (desc : Desc) : regError + tested :=
  match d_err desc with
  | Some e => inl (InvalidDescriptor desc e)
  | None =>
      let dup := if decide (d_id desc ∈ descIDs r) then Some (DuplicateDescriptor desc) else duplicateDescErr t in
      let t := if decide (d_id desc ∈ newDescIDs t)
               then {| newDescIDs := newDescIDs t; newDimHashes := newDimHashes t; collectorID := collectorID t;
                       duplicateDescErr := dup |}
               else {| newDescIDs := {[ d_id desc ]} ∪ newDescIDs t; newDimHashes := newDimHashes t;
                       collectorID := Z.lxor (collectorID t) (d_id desc); duplicateDescErr := dup |} in
      match dimHashesByName r !! d_fqName desc with
      | Some h => if decide (h = d_dimHash desc) then inr t else inl (OtherLabelsRegistered desc)
      | None =>
          match newDimHashes t !! d_fqName desc with
          | Some h => if decide (h = d_dimHash desc) then inr t else inl (InconsistentLabels desc)
          | None => inr {| newDescIDs := newDescIDs t;
                           newDimHashes := <[ d_fqName desc := d_dimHash desc ]> (newDimHashes t);
                           collectorID := collectorID t; duplicateDescErr := duplicateDescErr t |}
          end
      end
  end.

Fixpoint testDescs (r : Registry) (t : tested) (c : Collector) : regError + tested :=
  match c with
  | [] => inr t
  | desc :: c => match testDesc r t desc with inl e => inl e | inr t => testDescs r t c end
  end.

Definition Register (r : Registry) (c : Collector) : (regError + unit) * Registry :=
  match testDescs r untested c with
  | inl e => (inl e, r)
  | inr t =>
      if decide (newDescIDs t = ∅) then
        (inr tt, {| collectorsByID := collectorsByID r; descIDs := descIDs r; dimHashesByName := dimHashesByName r;
                    uncheckedCollectors := uncheckedCollectors r ++ [c] |})
      else
      match collectorsByID r !! collectorID t with
      | Some existing => (inl (AlreadyRegisteredError existing c), r)
      | None =>
          match duplicateDescErr t with
          | Some e => (inl e, r)
          | None =>
              (inr tt, {| collectorsByID := <[ collectorID t := c ]> (collectorsByID r);
                          descIDs := newDescIDs t ∪ descIDs r;
                          dimHashesByName := newDimHashes t ∪ dimHashesByName r;
                          uncheckedCollectors := uncheckedCollectors r |})
          end
      end
  end.

(** The ids of a collector's descriptors, and all of them XOR'd together. *)
Definition describedIDs (c : Collector) : gset Z * Z :=
  foldl (λ acc desc, if decide (d_id desc ∈ acc.1) then acc
                     else ({[ d_id desc ]} ∪ acc.1, Z.lxor acc.2 (d_id desc))) (∅, 0) c.

Definition Unregister (r : Registry) (c : Collector) : bool * Registry :=
  let '(ids, collectorID) := describedIDs c in
  match collectorsByID r !! collectorID with
  | None => (false, r)
  | Some _ =>
      (true, {| collectorsByID := delete collectorID (collectorsByID r); descIDs := descIDs r ∖ ids;
                dimHashesByName := dimHashesByName r; uncheckedCollectors := uncheckedCollectors r |})
  end.

(** ** The registry of the operator toolkit *)

Record MetricOpts := {
  mo_Name : string;
  mo_Help : string;
  mo_ConstLabels : gmap string string;
  mo_ExtraFields : gmap string string;
}.

Inductive MetricType : Type :=
  | CounterType | GaugeType | HistogramType | SummaryType
  | CounterVecType | GaugeVecType | HistogramVecType | SummaryVecType.

Definition MetricType_string (t : MetricType) : string :=
  match t with
  | CounterType => "Counter" | GaugeType => "Gauge" | HistogramType => "Histogram" | SummaryType => "Summary"
  | CounterVecType => "CounterVec" | GaugeVecType => "GaugeVec" | HistogramVecType => "HistogramVec"
  | SummaryVecType => "SummaryVec"
  end.

(** What the methods of the interface answer. *)
Record Metric := {
  GetOpts : MetricOpts;
  GetType : MetricType;
  GetBaseType : MetricType;
  GetCollector : Collector;
}.

Definition NewGauge `{!XXHash} (opts : MetricOpts) : Metric :=
  {| GetOpts := opts; GetType := GaugeType; GetBaseType := GaugeType;
     GetCollector := [NewDesc (BuildFQName "" "" (mo_Name opts)) (mo_Help opts) "" [] (mo_ConstLabels opts)] |}.

(** Both registries; the collectors of the toolkit are not used. *)
Record registries := {
  promRegistry : Registry;
  registeredMetrics : gmap string Metric;
}.

Definition nameOf (m : Metric) : string := mo_Name (GetOpts m).
Definition metricExists (st : registries) (m : Metric) : bool := bool_decide (is_Some (registeredMetrics st !! nameOf m)).

Definition unregisterMetric (st : registries) (m : Metric) : (regError + unit) * registries :=
  match Unregister (promRegistry st) (GetCollector m) with
  | (true, r) => (inr tt, {| promRegistry := r; registeredMetrics := delete (nameOf m) (registeredMetrics st) |})
  | (false, r) => (inl (UnregisterFailed (nameOf m)), {| promRegistry := r; registeredMetrics := registeredMetrics st |})
  end.

Definition registerMetric (st : registries) (m : Metric) : (regError + unit) * registries :=
  match Register (promRegistry st) (GetCollector m) with
  | (inl e, r) => (inl e, {| promRegistry := r; registeredMetrics := registeredMetrics st |})
  | (inr _, r) => (inr tt, {| promRegistry := r; registeredMetrics := <[ nameOf m := m ]> (registeredMetrics st) |})
  end.

(** One metric: it is taken out first when one of its name is there. *)
Definition replaceMetric (st : registries) (m : Metric) : (regError + unit) * registries :=
  match (if metricExists st m then unregisterMetric st m else (inr tt, st)) with
  | (inl e, st) => (inl e, st)
  | (inr _, st) => registerMetric st m
  end.

Fixpoint RegisterMetrics (st : registries) (ms : list Metric) : (regError + unit) * registries :=
  match ms with
  | [] => (inr tt, st)
  | m :: ms =>
      match replaceMetric st m with
      | (inl e, st) => (inl e, st)
      | (inr _, st) => RegisterMetrics st ms
      end
  end.

(** Metrics by their names. *)
Definition by_name (m1 m2 : Metric) : Prop := String.le (nameOf m1) (nameOf m2).
#[export] Instance by_name_dec : RelDecision by_name.
Proof. intros m1 m2. unfold by_name. apply _. Defined.
#[export] Instance by_name_trans : Transitive by_name.
Proof. intros m1 m2 m3. unfold by_name. apply transitivity. Qed.
#[export] Instance by_name_total : Total by_name.
Proof. intros m1 m2. unfold by_name. apply total, _. Qed.

(** [range] is the order in which Go visits the map of metrics. *)
Definition ListMetrics_from (range : list Metric) : list Metric := merge_sort by_name range.
Definition ListMetrics (st : registries) : list Metric := ListMetrics_from ((map_to_list (registeredMetrics st)).*2).

(** ** The driver's metric *)

Definition poolPathSharedWithOs `{!XXHash} : Metric :=
  NewGauge {| mo_Name := "kubevirt_hpp_pool_path_shared_with_os";
              mo_Help := "HPP pool path sharing a filesystem with OS, fix to prevent HPP PVs from causing disk pressure and affecting node operation";
              mo_ConstLabels := ∅; mo_ExtraFields := ∅ |}.

Definition operatorMetrics `{!XXHash} : list Metric := [poolPathSharedWithOs].

Definition SetupMetrics `{!XXHash} (st : registries) : (regError + unit) * registries :=
  RegisterMetrics st operatorMetrics.

(** The value is kept as the word of its 64 bits. *)
Definition SetPoolPathSharedWithOs (value : Z) : M unit := modify (set_gauge (Float64bits (float64_of_int value))).
Definition GetPoolPathSharedWithOs (w : world) : float64 := Float64frombits (w_gauge w).

(** ** Facts *)

Lemma merge_sort_unique (l1 l2 : list Metric) :
  NoDup (nameOf <$> l1) → l1 ≡ₚ l2 → ListMetrics_from l1 = ListMetrics_from l2.
Proof.
  intros Hnd Hp. unfold ListMetrics_from.
  assert (merge_sort by_name l1 ≡ₚ merge_sort by_name l2) as Hpp.
  { by rewrite !merge_sort_Permutation. }
  assert (StronglySorted by_name (merge_sort by_name l1)) as Hs1 by (apply StronglySorted_merge_sort; apply _).
  assert (StronglySorted by_name (merge_sort by_name l2)) as Hs2 by (apply StronglySorted_merge_sort; apply _).
  assert (NoDup (nameOf <$> merge_sort by_name l1)) as Hn1 by by rewrite merge_sort_Permutation.
  revert Hpp Hs1 Hs2 Hn1. generalize (merge_sort by_name l1), (merge_sort by_name l2). clear.
  intros l1. induction l1 as [|m l1 IH]; intros l2 Hp Hs1 Hs2 Hnd.
  { by apply Permutation_nil_l in Hp as ->. }
  destruct l2 as [|m' l2]; [by apply Permutation_nil_r in Hp|].
  apply StronglySorted_inv in Hs1 as [Hs1 Hf1]. apply StronglySorted_inv in Hs2 as [Hs2 Hf2].
  cbn [fmap list_fmap] in Hnd. apply NoDup_cons in Hnd as [Hni Hnd].
  assert (m = m') as <-.
  { assert (m' ∈ m :: l1) as [->|Hin]%elem_of_cons by (rewrite Hp; left); [done|].
    assert (m ∈ m' :: l2) as [->|Hin']%elem_of_cons by (rewrite <-Hp; left); [done|].
    rewrite Forall_forall in Hf1, Hf2. exfalso. apply Hni.
    assert (nameOf m = nameOf m') as -> by (apply (anti_symm String.le); [by apply Hf1|by apply Hf2]).
    by apply list_elem_of_fmap_2. }
  f_equal. apply IH; [by eapply Permutation_cons_inv|done..].
Qed.

(** A small value that is set is read back. *)
Lemma gauge_roundtrip value w :
  Z.abs value < 2 ^ 53 →
  int_of_float64 (GetPoolPathSharedWithOs (SetPoolPathSharedWithOs value w).2) = Some value.
Proof. apply float64_int_roundtrip. Qed.

Section setup.
Context `{!XXHash}.

Definition metricName : string := "kubevirt_hpp_pool_path_shared_with_os".
Definition metricHelp : string :=
  "HPP pool path sharing a filesystem with OS, fix to prevent HPP PVs from causing disk pressure and affecting node operation".

(** The descriptor of the metric. *)
Definition metricDesc : Desc :=
  {| d_fqName := metricName; d_help := metricHelp; d_constLabels := ∅; d_variableLabels := [];
     d_id := Sum64 (metricName +:+ separator);
     d_dimHash := Sum64 (metricHelp +:+ separator +:+ separator); d_err := None |}.

Lemma metric_collector : GetCollector poolPathSharedWithOs = [metricDesc].
Proof. reflexivity. Qed.

(** Whether the Prometheus registry has room for the metric. *)
Definition room (r : Registry) : Prop :=
  collectorsByID r !! d_id metricDesc = None ∧ (d_id metricDesc ∉ descIDs r) ∧
  (∀ h, dimHashesByName r !! metricName = Some h → h = d_dimHash metricDesc).
#[export] Instance room_dec r : Decision (room r).
Proof.
  unfold room. refine (and_dec _ _). refine (and_dec _ _).
  destruct (dimHashesByName r !! metricName) as [h|]; [|by left].
  destruct (decide (h = d_dimHash metricDesc)) as [->|Hne]; [left; congruence|right; naive_solver].
Defined.

(** The registry with the metric in it. *)
Definition with_metric (r : Registry) : Registry :=
  {| collectorsByID := <[ d_id metricDesc := [metricDesc] ]> (collectorsByID r);
     descIDs := {[ d_id metricDesc ]} ∪ descIDs r;
     dimHashesByName := <[ metricName := d_dimHash metricDesc ]> (dimHashesByName r);
     uncheckedCollectors := uncheckedCollectors r |}.

Lemma Register_metric r :
  if decide (room r) then Register r [metricDesc] = (inr tt, with_metric r)
  else ∃ e, Register r [metricDesc] = (inl e, r).
Proof.
  unfold Register, with_metric. cbn [testDescs]. unfold testDesc. cbn [d_err metricDesc untested
    newDescIDs newDimHashes collectorID duplicateDescErr].
  rewrite !(decide_False (P := d_id metricDesc ∈ (∅ : gset Z))) by set_solver.
  cbn [newDescIDs newDimHashes collectorID duplicateDescErr]. rewrite lookup_empty, union_empty_r_L, Z.lxor_0_l.
  change (d_fqName metricDesc) with metricName.
  assert ({[ d_id metricDesc ]} ≠ (∅ : gset Z)) as Hne by set_solver.
  destruct (decide (room r)) as [Hroom|Hroom].
  - destruct Hroom as (Hc&Hi&Hd). rewrite (decide_False _ _ Hi).
    destruct (dimHashesByName r !! metricName) as [h|] eqn:Hh.
    + rewrite decide_True by by apply Hd. cbn [newDescIDs collectorID newDimHashes duplicateDescErr].
      rewrite decide_False, Hc by done. rewrite (left_id_L ∅ (∪)), (insert_id (dimHashesByName r)); [done|].
      rewrite Hh. f_equal. by apply Hd.
    + cbn [newDescIDs collectorID newDimHashes duplicateDescErr]. rewrite decide_False, Hc by done.
      by rewrite insert_empty, <-insert_union_singleton_l.
  - destruct (dimHashesByName r !! metricName) as [h|] eqn:Hh; [case_decide as Heq; [|by eexists]|];
      cbn [newDescIDs collectorID newDimHashes duplicateDescErr]; rewrite (decide_False _ _ Hne);
      (destruct (collectorsByID r !! d_id metricDesc) eqn:Hc; [by eexists|]); case_decide as Hi; try (by eexists);
      destruct Hroom; unfold room; rewrite Hh, Hc; naive_solver.
Qed.

Lemma Unregister_metric r :
  Unregister (with_metric r) [metricDesc] =
    (true, {| collectorsByID := delete (d_id metricDesc) (collectorsByID r);
              descIDs := descIDs r ∖ {[ d_id metricDesc ]};
              dimHashesByName := <[ metricName := d_dimHash metricDesc ]> (dimHashesByName r);
              uncheckedCollectors := uncheckedCollectors r |}).
Proof.
  unfold Unregister, describedIDs. cbn [foldl fst snd]. rewrite decide_False by set_solver.
  rewrite union_empty_r_L, Z.lxor_0_l. cbn [with_metric collectorsByID descIDs]. rewrite lookup_insert_eq.
  rewrite delete_insert_eq. do 2 f_equal. set_solver.
Qed.

(** Both registries with the metric in them. *)
Definition set_up (st : registries) : registries :=
  {| promRegistry := with_metric (promRegistry st);
     registeredMetrics := <[ metricName := poolPathSharedWithOs ]> (registeredMetrics st) |}.

Lemma setup_again st : room (promRegistry st) → SetupMetrics (set_up st) = (inr tt, set_up st).
Proof.
  intros (Hc&Hi&Hd). unfold SetupMetrics, operatorMetrics. cbn [RegisterMetrics]. unfold replaceMetric, metricExists.
  change (nameOf poolPathSharedWithOs) with metricName. cbn [set_up registeredMetrics promRegistry].
  rewrite lookup_insert_eq, bool_decide_true by by eexists.
  unfold unregisterMetric. rewrite metric_collector. cbn [set_up promRegistry registeredMetrics].
  rewrite Unregister_metric. unfold registerMetric. rewrite metric_collector. cbn [promRegistry registeredMetrics].
  set (r1 := {| collectorsByID := _ |}). pose proof (Register_metric r1) as Hr. destruct (decide (room r1)) as [Hroom|Hno].
  - rewrite Hr. unfold set_up. change (nameOf poolPathSharedWithOs) with metricName.
    do 2 f_equal; [|by rewrite delete_insert_eq, insert_delete_eq].
    unfold with_metric, r1. cbn [collectorsByID descIDs dimHashesByName uncheckedCollectors].
    rewrite insert_delete_eq, insert_insert_eq. f_equal.
    apply set_eq. intros x. destruct (decide (x = d_id metricDesc)); set_solver.
  - destruct Hno. unfold room, r1. cbn. rewrite lookup_delete_eq. split_and!; [done|set_solver|].
    intros h. rewrite lookup_insert_eq. by intros [= <-].
Qed.
(** A first set-up is one registration. *)
Lemma setup_first st :
  registeredMetrics st !! metricName = None →
  SetupMetrics st =
    match Register (promRegistry st) [metricDesc] with
    | (inl e, r) => (inl e, {| promRegistry := r; registeredMetrics := registeredMetrics st |})
    | (inr _, r) => (inr tt, {| promRegistry := r;
                                registeredMetrics := <[ metricName := poolPathSharedWithOs ]> (registeredMetrics st) |})
    end.
Proof.
  intros Hn. unfold SetupMetrics, operatorMetrics. cbn [RegisterMetrics]. unfold replaceMetric, metricExists, registerMetric.
  change (nameOf poolPathSharedWithOs) with metricName. rewrite Hn, bool_decide_false by by intros [].
  rewrite metric_collector. by destruct (Register _ _) as [[|] ?].
Qed.

Lemma set_up_run st :
  registeredMetrics st !! metricName = None → room (promRegistry st) → SetupMetrics st = (inr tt, set_up st).
Proof.
  intros Hn Hroom. pose proof (Register_metric (promRegistry st)) as Hr. rewrite decide_True in Hr by done.
  by rewrite setup_first, Hr.
Qed.
End setup.

(** Setting up the metrics. When the metric of the driver is not registered yet, it is
    registered exactly when the Prometheus registry has room for it: no collector and no descriptor
    with its hash, and no descriptor of its name with another help text or other labels; nothing else is changed.
    Otherwise an error is returned and nothing is changed at all. However often the set-up
    is repeated after that, it succeeds and leaves both registries as they are. *)
Theorem setup_metrics_idempotent `{!XXHash} st n :
  registeredMetrics st !! metricName = None →
  if decide (room (promRegistry st)) then
    SetupMetrics st = (inr tt, set_up st) ∧
    Nat.iter n (λ st, (SetupMetrics st).2) (set_up st) = set_up st ∧ SetupMetrics (set_up st) = (inr tt, set_up st)
  else ∃ e, SetupMetrics st = (inl e, st).
Proof.
  intros Hn. destruct (decide (room (promRegistry st))) as [Hroom|Hno].
  - pose proof (setup_again st Hroom) as Hagain. split_and!; [by apply set_up_run| |done].
    induction n as [|n IH]; [done|]. cbn [Nat.iter nat_rect]. unfold Nat.iter in IH. by rewrite IH, Hagain.
  - pose proof (Register_metric (promRegistry st)) as Hr. rewrite decide_False in Hr by done.
    destruct Hr as [e Hr]. exists e. rewrite setup_first, Hr by done. by destruct st.
Qed.

(** A hash that tells texts apart by their length, and the registries of a process that starts. *)
Definition demoHash : XXHash := λ s, Z.of_nat (String.length s).
Definition emptyRegistries : registries := {| promRegistry := NewRegistry; registeredMetrics := ∅ |}.

Lemma setup_metrics_idempotent_witness :
  SetupMetrics (H := demoHash) emptyRegistries = (inr tt, set_up (H := demoHash) emptyRegistries).
Proof.
  pose proof (setup_metrics_idempotent (H := demoHash) emptyRegistries 3 eq_refl) as Hs.
  destruct (decide (room (H := demoHash) (promRegistry emptyRegistries))) as [_|Hno]; [apply Hs|].
  exfalso. apply Hno. split_and!; [reflexivity|set_solver|]. intros h Hh. vm_compute in Hh. discriminate Hh.
Defined.
