(* ===== verification/MetricTools.v ===== *)
(** * tools/metricsdocs and tools/prom-metrics-collector

    The two programs that print the metrics of the driver: the page of
    documentation docs/metrics.md, made by BuildMetricsDocs of
    operator-observability-toolkit (docs/metrics.go), and the JSON list that is
    fed to the metrics linter (parser.Metric of kubevirt/monitoring). *)
From Stdlib Require Import Ascii.
From S2P Require Import Prelude GoStrings Json Utf8 Metrics.
Open Scope Z_scope.

Definition newline : string := String (chr 10) "".

(** ** The page of documentation *)

Record metricDocs := {
  md_Name : string;
  md_Kind : string;
  md_Type : string;
  md_Description : string;
  md_ExtraFields : gmap string string;
}.

(** [strings.ReplaceAll(s, "Vec", "")] *)
Fixpoint dropVec (s : string) : string :=
  match s with
  | EmptyString => ""
  | String c s' =>
      match s with
      | String "V" (String "e" (String "c" rest)) => dropVec rest
      | _ => String c (dropVec s')
      end
  end.

Definition getAndConvertItemType (t : MetricType) : string := dropVec (MetricType_string t).

(** The loop over the metrics; [seen] are the names that were met. *)
Fixpoint collectDocs (seen : gset string) (items : list Metric) : list metricDocs :=
  match items with
  | [] => []
  | item :: items =>
      if decide (nameOf item ∈ seen) then collectDocs seen items
      else {| md_Name := nameOf item; md_Kind := "Metric"; md_Type := getAndConvertItemType (GetType item);
              md_Description := mo_Help (GetOpts item); md_ExtraFields := mo_ExtraFields (GetOpts item) |}
           :: collectDocs ({[ nameOf item ]} ∪ seen) items
  end.
Definition buildMetricsDocs (items : list Metric) : list metricDocs := collectDocs ∅ items.

Definition docs_by_name (d1 d2 : metricDocs) : Prop := String.le (md_Name d1) (md_Name d2).
#[export] Instance docs_by_name_dec : RelDecision docs_by_name.
Proof. intros d1 d2. unfold docs_by_name. apply _. Defined.
#[export] Instance docs_by_name_trans : Transitive docs_by_name.
Proof. intros d1 d2 d3. unfold docs_by_name. apply transitivity. Qed.
#[export] Instance docs_by_name_total : Total docs_by_name.
Proof. intros d1 d2. unfold docs_by_name. apply total, _. Qed.

Definition sortMetricsDocs (docs : list metricDocs) : list metricDocs := merge_sort docs_by_name docs.

(** One row of the table of the template. *)
Definition docRow (d : metricDocs) : string :=
  let field k := default "" (md_ExtraFields d !! k) in
  let deprecatedVersion := if decide (field "DeprecatedVersion" = "") then "" else " in " +:+ field "DeprecatedVersion" in
  let level := field "StabilityLevel" in
  let stabilityLevel := if decide (level ≠ "" ∧ level ≠ "STABLE") then "[" +:+ level +:+ deprecatedVersion +:+ "] " else "" in
  newline +:+ "| " +:+ md_Name d +:+ " | " +:+ md_Kind d +:+ " | " +:+ md_Type d +:+ " | "
  +:+ stabilityLevel +:+ md_Description d +:+ " |".

(** The page: the default template, with its title and its rows. *)
Definition docPage (title : string) (docs : list metricDocs) : string :=
  "# " +:+ title +:+ newline +:+ newline
  +:+ "| Name | Kind | Type | Description |" +:+ newline
  +:+ "|------|------|------|-------------|"
  +:+ String.concat "" (docRow <$> docs) +:+ newline +:+ newline
  +:+ "## Developing new metrics" +:+ newline +:+ newline
  +:+ "All metrics documented here are auto-generated and reflect exactly what is being" +:+ newline
  +:+ "exposed. After developing new metrics or changing old ones please regenerate" +:+ newline
  +:+ "this document." +:+ newline.

(** Without recording rules. *)
Definition BuildMetricsDocs (title : string) (metrics : list Metric) : string :=
  docPage title (sortMetricsDocs (buildMetricsDocs metrics)).

Definition docsTitle : string := "Hostpath Provisioner Metrics".

(** The programs: what they print, or the error they panic with. *)
Definition metricsdocsMain `{!XXHash} (st : registries) : regError + string :=
  match SetupMetrics st with
  | (inl err, _) => inl err
  | (inr _, st) => inr (BuildMetricsDocs docsTitle (ListMetrics st))
  end.

(** ** The list for the linter *)








(** ** Facts *)











(** The page docs/metrics.md is what the tool prints for the driver's metrics. *)
Definition metricsPage : string :=
  "# Hostpath Provisioner Metrics" +:+ newline +:+ newline
  +:+ "| Name | Kind | Type | Description |" +:+ newline
  +:+ "|------|------|------|-------------|" +:+ newline
  +:+ "| kubevirt_hpp_pool_path_shared_with_os | Metric | Gauge | HPP pool path sharing a filesystem with OS, fix to prevent HPP PVs from causing disk pressure and affecting node operation |" +:+ newline
  +:+ newline
  +:+ "## Developing new metrics" +:+ newline +:+ newline
  +:+ "All metrics documented here are auto-generated and reflect exactly what is being" +:+ newline
  +:+ "exposed. After developing new metrics or changing old ones please regenerate" +:+ newline
  +:+ "this document." +:+ newline.

Theorem docs_current `{!XXHash} st :
  registeredMetrics st = ∅ → room (promRegistry st) → metricsdocsMain st = inr metricsPage.
Proof.
  intros Hn Hroom. unfold metricsdocsMain. rewrite set_up_run; [|by rewrite Hn|done].
  assert (ListMetrics (set_up st) = [poolPathSharedWithOs]) as ->; [|reflexivity].
  unfold ListMetrics. cbn [set_up registeredMetrics]. rewrite Hn, insert_empty, map_to_list_singleton. reflexivity.
Qed.

