(* ===== verification/Csi.v ===== *)
(** * The CSI messages the driver exchanges

    The fields of the requests and responses of
    github.com/container-storage-interface/spec that the handlers read or
    fill. A request pointer that may be nil is an [option]; a repeated field is
    a list, empty when it is absent. *)
From S2P Require Import Prelude.
Open Scope Z_scope.

(** ** Volumes *)

(** [VolumeCapability.access_type]. *)
Inductive AccessType : Type :=
  | MountAccess (FsType : string) (MountFlags : list string)
  | BlockAccess.

Record VolumeCapability := { cap_access : option AccessType }.

Definition GetMount (c : VolumeCapability) : option (string * list string) :=
  match cap_access c with
  | Some (MountAccess t f) => Some (t, f)
  | _ => None
  end.

Definition GetBlock (c : VolumeCapability) : bool :=
  match cap_access c with
  | Some BlockAccess => true
  | _ => false
  end.

Record Topology := { Segments : gmap string string }.

Record TopologyRequirement := {
  Requisite : list Topology;
  Preferred : list Topology;
}.

(** [VolumeContentSource.type]: a snapshot source may itself be nil. *)
Inductive VolumeContentSource : Type :=
  | FromSnapshot (SnapshotId : option string)
  | FromVolume (VolumeId : string)
  | FromNothing.

Record CreateVolumeRequest := {
  cv_Name : string;
  cv_VolumeCapabilities : option (list VolumeCapability);   (* nil or a slice *)
  cv_Parameters : gmap string string;
  cv_AccessibilityRequirements : option TopologyRequirement;
  cv_VolumeContentSource : option VolumeContentSource;
}.

Record Volume := {
  v_VolumeId : string;
  v_CapacityBytes : Z;
  v_VolumeContext : gmap string string;
  v_ContentSource : option VolumeContentSource;
  v_AccessibleTopology : list Topology;
}.

Record ValidateVolumeCapabilitiesRequest := {
  vc_VolumeId : string;
  vc_VolumeCapabilities : list VolumeCapability;
  vc_VolumeContext : gmap string string;
  vc_Parameters : gmap string string;
}.

Record ValidateVolumeCapabilitiesResponse_Confirmed := {
  co_VolumeContext : gmap string string;
  co_VolumeCapabilities : list VolumeCapability;
  co_Parameters : gmap string string;
}.

Record GetCapacityResponse := {
  gc_AvailableCapacity : Z;
  gc_MaximumVolumeSize : Z;
  gc_MinimumVolumeSize : Z;
}.

Record VolumeCondition := { Abnormal : bool; Message : string }.

Record ListVolumesRequest := { lv_MaxEntries : Z; lv_StartingToken : string }.

(** An entry of [ListVolumesResponse]; [ControllerGetVolumeResponse] has the
    same parts. *)
Record VolumeEntry := {
  ve_Volume : Volume;
  ve_PublishedNodeIds : list string;
  ve_VolumeCondition : VolumeCondition;
}.

Record ListVolumesResponse := { lv_Entries : list VolumeEntry; lv_NextToken : string }.

(** ** Snapshots *)

Record Snapshot := {
  SnapshotId : string;
  SourceVolumeId : string;
  CreationTime : Z * Z;
  ReadyToUse : bool;
}.

Record CreateSnapshotRequest := {
  cs_Name : string;
  cs_SourceVolumeId : string;
  cs_Parameters : gmap string string;
}.

Record ListSnapshotsRequest := {
  ls_MaxEntries : Z;
  ls_StartingToken : string;
  ls_SnapshotId : string;
  ls_SourceVolumeId : string;
}.

Record ListSnapshotsResponse := { ls_Entries : list Snapshot; ls_NextToken : string }.

(** ** Node service *)

Record NodePublishVolumeRequest := {
  np_VolumeId : string;
  np_TargetPath : string;
  np_VolumeCapability : option VolumeCapability;
  np_Readonly : bool;
  np_VolumeContext : gmap string string;
  np_PublishContext : gmap string string;
}.

Record NodeUnpublishVolumeRequest := { nu_VolumeId : string; nu_TargetPath : string }.

Record NodeGetVolumeStatsRequest := { ns_VolumeId : string; ns_VolumePath : string }.

Inductive UsageUnit : Type := BYTES | INODES.

Record VolumeUsage := { u_Available : Z; u_Used : Z; u_Total : Z; u_Unit : UsageUnit }.

Record NodeGetVolumeStatsResponse := {
  ns_Usage : list VolumeUsage;
  ns_VolumeCondition : VolumeCondition;
}.

Record NodeGetInfoResponse := { ni_NodeId : string; ni_AccessibleTopology : Topology }.

(** ** Capabilities *)

Inductive ControllerRPC : Type :=
  | CREATE_DELETE_VOLUME | GET_VOLUME | GET_CAPACITY | LIST_VOLUMES
  | CREATE_DELETE_SNAPSHOT | LIST_SNAPSHOTS | CONTROLLER_VOLUME_CONDITION
  | PUBLISH_UNPUBLISH_VOLUME | CLONE_VOLUME | EXPAND_VOLUME | MODIFY_VOLUME.

Inductive NodeRPC : Type :=
  | NODE_VOLUME_CONDITION | GET_VOLUME_STATS | STAGE_UNSTAGE_VOLUME | NODE_EXPAND_VOLUME.

Inductive PluginService : Type := CONTROLLER_SERVICE | VOLUME_ACCESSIBILITY_CONSTRAINTS.

#[export] Instance ControllerRPC_eq_dec : EqDecision ControllerRPC.
Proof. solve_decision. Defined.
#[export] Instance NodeRPC_eq_dec : EqDecision NodeRPC.
Proof. solve_decision. Defined.
#[export] Instance Snapshot_eq_dec : EqDecision Snapshot.
Proof. solve_decision. Defined.
