(* ===== verification/Utils.v ===== *)
(** * pkg/hostpath/utils.go and the configuration of pkg/hostpath/hostpath.go

    Storage pools, capacity rounding, the directories that back volumes, and
    the listing of those directories over all pools. *)
From Stdlib Require Import Ascii.
From S2P Require Import Prelude GoStrings GoPath GoErrors OS OSFacts Csi.
Open Scope Z_scope.

(** ** Configuration *)

Definition storagePoolName : string := "storagePool".
Definition legacyStoragePoolName : string := "legacy".

Record StoragePoolInfo := {
  Name : string;
  Path : string;
  SnapshotPath : option string;
  SnapshotProvider : option string;
  Shared : bool;
}.

Record Config := {
  DriverName : string;
  Endpoint : string;
  NodeID : string;
  StoragePools : gmap string StoragePoolInfo;
  DefaultStoragePoolName : string;
  Version : string;
}.

Definition zeroPool : StoragePoolInfo :=
  {| Name := ""; Path := ""; SnapshotPath := None; SnapshotProvider := None; Shared := false |}.

(** [cfg.StoragePoolInfo[name]]: the zero value when the key is missing. *)
Definition getPool (cfg : Config) (name : string) : StoragePoolInfo :=
  default zeroPool (StoragePools cfg !! name).

(** ** Capacity *)

Definition kib : Z := 1024.
Definition mib : Z := kib * 1024.
Definition gib : Z := mib * 1024.

Fixpoint roundDown_units (units : list Z) (capacityBytes : Z) : Z :=
  match units with
  | [] => capacityBytes
  | unit :: units' =>
      let size := Z.quot capacityBytes unit in
      if 10 <=? size then int64 (size * unit) else roundDown_units units' capacityBytes
  end.

Definition roundDownCapacityPretty (capacityBytes : Z) : Z :=
  roundDown_units [gib; mib] capacityBytes.

(** ** Directories *)

Section ops.
Context `{!Env}.

Definition createVolumeDirectoryFunc (base volID : string) : M unit :=
  os_MkdirAll (Join [base; volID]).

Definition CreateSnapshotDirectory (base snapID : string) : M unit :=
  createVolumeDirectoryFunc base snapID.

Definition DeleteVolume (base volID : string) : M unit :=
  r <- try (os_RemoveAll (Join [base; volID])) ;;
  match r with
  | inr err => if os_IsNotExist err then ret tt else fail err
  | inl _ => ret tt
  end.

Definition checkPathExistFunc (path : string) : M bool :=
  r <- try (os_Stat path) ;;
  match r with
  | inr err => if os_IsNotExist err then ret false else fail err
  | inl _ => ret true
  end.

(** One [os.ReadDir] of a pool: its directories, joined to the pool path. *)
Definition readPoolDirectories (directories : list string) (kv : string * StoragePoolInfo)
    : M (list string) :=
  let info := kv.2 in
  files <- os_ReadDir (Path info) ;;
  ret (directories ++
       ((λ file : string * node, Join [Path info; file.1]) <$>
          filter (λ file : string * node, IsDir file.2 = true) files)).

Definition getStoragePoolDataDirectories (storagePoolInfo : gmap string StoragePoolInfo)
    : M (list string) :=
  pools <- range_map storagePoolInfo ;;
  directories <- foldM readPoolDirectories [] pools ;;
  ret (sort_Strings directories).

(** Opens the directory and asks for one name: [io.EOF] means that it is empty. *)
Definition checkPathIsEmptyFunc (path : string) : M bool :=
  names <- os_ReadDir path ;;
  ret (bool_decide (names = [])).

Definition getFileCreationTimeFunc (file : string) : M (Z * Z) :=
  ctim <- syscall_Stat_Ctim file ;;
  ret (ctim.1, 0).
End ops.

(** ** Lookups in lists and maps *)

Fixpoint IndexOf_from (i : Z) (value : string) (l : list string) : Z :=
  match l with
  | [] => -1
  | m :: l' => if decide (Base m = value) then i else IndexOf_from (i + 1) value l'
  end.
Definition IndexOfStartingToken (value : string) (l : list string) : Z := IndexOf_from 0 value l.

Fixpoint IndexOfSnapshotId_from (i : Z) (value : string) (l : list Snapshot) : Z :=
  match l with
  | [] => -1
  | m :: l' => if decide (SnapshotId m = value) then i else IndexOfSnapshotId_from (i + 1) value l'
  end.
Definition IndexOfSnapshotId (value : string) (l : list Snapshot) : Z :=
  IndexOfSnapshotId_from 0 value l.

Definition getStoragePoolNameFromMap (params : gmap string string) : string :=
  match params !! storagePoolName with
  | Some name => name
  | None => legacyStoragePoolName
  end.

(** The constants of crypto/tls. *)
Definition getTLSVersion (versionName : string) : option Z :=
  if decide (versionName = "VersionTLS10") then Some 769
  else if decide (versionName = "VersionTLS11") then Some 770
  else if decide (versionName = "VersionTLS12") then Some 771
  else if decide (versionName = "VersionTLS13") then Some 772
  else None.

Definition extractDeviceFromMountInfoSource (source : string) : string :=
  if contains_char "["%char source then default "" (split_on "["%char source !! 0%nat) else source.

(** ** Capacity rounding *)

Lemma floor_unit u c : 0 < u → 0 ≤ c → 0 ≤ c / u * u ≤ c ∧ c < c / u * u + u.
Proof.
  intros. pose proof (Z.div_mod c u ltac:(lia)). pose proof (Z.mod_pos_bound c u).
  pose proof (Z.div_pos c u). nia.
Qed.

Lemma roundDown_units_unfold c :
  0 ≤ c < 2 ^ 63 →
  roundDownCapacityPretty c =
    if 10 * gib <=? c then c / gib * gib
    else if 10 * mib <=? c then c / mib * mib
    else c.
Proof.
  intros Hc. unfold roundDownCapacityPretty, roundDown_units.
  assert (∀ u, 0 < u → Z.quot c u = c / u ∧ (10 <=? c / u) = (10 * u <=? c) ∧
                       int64 (c / u * u) = c / u * u) as Hu.
  { intros u Hu. pose proof (Z.div_mod c u ltac:(lia)). pose proof (Z.mod_pos_bound c u Hu).
    split_and!; [apply Z.quot_div_nonneg; lia| |].
    - assert (10 ≤ c / u ↔ 10 * u ≤ c) as Hiff.
      { split; intros; [nia|]. apply Z.div_le_lower_bound; lia. }
      destruct (Z.leb_spec 10 (c / u)), (Z.leb_spec (10 * u) c); try done; lia.
    - apply int64_id. unfold is_int64. pose proof (floor_unit u c Hu). lia. }
  destruct (Hu gib) as (->&->&->); [unfold gib, mib, kib; lia|].
  destruct (Hu mib) as (->&->&->); [unfold mib, kib; lia|]. done.
Qed.

Lemma floor_unit_le u k c : 0 < u → k * u ≤ c → k * u ≤ c / u * u.
Proof.
  intros Hu Hk. apply Z.mul_le_mono_nonneg_r; [lia|]. apply Z.div_le_lower_bound; lia.
Qed.

Lemma roundDown_bounds_aux c :
  0 ≤ c < 2 ^ 63 →
  0 ≤ roundDownCapacityPretty c ≤ c ∧
  (roundDownCapacityPretty c = c ∨ 10 * (c - roundDownCapacityPretty c) < roundDownCapacityPretty c).
Proof.
  intros Hc. rewrite roundDown_units_unfold by done.
  assert (0 < gib ∧ 0 < mib) as [Hg Hm] by (unfold gib, mib, kib; lia).
  destruct (Z.leb_spec (10 * gib) c) as [Hge|Hlt].
  { pose proof (floor_unit gib c Hg). pose proof (floor_unit_le gib 10 c Hg). lia. }
  destruct (Z.leb_spec (10 * mib) c); [|lia].
  pose proof (floor_unit mib c Hm). pose proof (floor_unit_le mib 10 c Hm). lia.
Qed.

Lemma roundDown_mono_aux c1 c2 :
  0 ≤ c1 → c1 ≤ c2 → c2 < 2 ^ 63 → roundDownCapacityPretty c1 ≤ roundDownCapacityPretty c2.
Proof.
  intros H1 H12 H2. rewrite !roundDown_units_unfold by lia.
  assert (0 < gib ∧ 0 < mib) as [Hg Hm] by (unfold gib, mib, kib; lia).
  pose proof (floor_unit gib c1 Hg H1). pose proof (floor_unit mib c1 Hm H1).
  pose proof (floor_unit_le gib 10 c2 Hg). pose proof (floor_unit_le mib 10 c2 Hm).
  destruct (Z.leb_spec (10 * gib) c1), (Z.leb_spec (10 * gib) c2); try lia.
  { apply Z.mul_le_mono_nonneg_r; [lia|]. by apply Z.div_le_mono. }
  { destruct (Z.leb_spec (10 * mib) c1); lia. }
  destruct (Z.leb_spec (10 * mib) c1), (Z.leb_spec (10 * mib) c2); try lia.
  apply Z.mul_le_mono_nonneg_r; [lia|]. by apply Z.div_le_mono.
Qed.

Lemma roundDown_idem_aux c :
  0 ≤ c < 2 ^ 63 →
  roundDownCapacityPretty (roundDownCapacityPretty c) = roundDownCapacityPretty c.
Proof.
  intros Hc. pose proof (roundDown_bounds_aux c Hc) as [Hb _].
  rewrite (roundDown_units_unfold (roundDownCapacityPretty c)) by lia.
  rewrite roundDown_units_unfold in * by done.
  assert (0 < gib ∧ 0 < mib ∧ gib = 1024 * mib) as (Hg&Hm&Hgm) by (unfold gib, mib, kib; lia).
  pose proof (floor_unit_le gib 10 c Hg). pose proof (floor_unit_le mib 10 c Hm).
  pose proof (floor_unit mib c Hm ltac:(lia)).
  destruct (Z.leb_spec (10 * gib) c).
  { rewrite (proj2 (Z.leb_le _ _)) by lia. by rewrite Z.div_mul by lia. }
  destruct (Z.leb_spec (10 * mib) c).
  - destruct (Z.leb_spec (10 * gib) (c / mib * mib)); [lia|].
    rewrite (proj2 (Z.leb_le _ _)) by lia. by rewrite Z.div_mul by lia.
  - rewrite (proj2 (Z.leb_gt _ _)) by lia. by rewrite (proj2 (Z.leb_gt _ _)) by lia.
Qed.

(** ** Reading and deleting directories *)

(** The directories of one pool, as the listing shows them. *)
Definition pool_dirs (fs : fstree) (info : StoragePoolInfo) : list string :=
  (λ file : string * node, Join [Path info; file.1]) <$>
    filter (λ file : string * node, IsDir file.2 = true) (entries (resolve (Path info)) fs).

(** The directories of all pools, in the order of a given iteration. *)
Definition all_dirs (fs : fstree) (pools : list (string * StoragePoolInfo)) : list string :=
  pools ≫= λ kv, pool_dirs fs kv.2.

Definition volume_dirs (fs : fstree) (m : gmap string StoragePoolInfo) : list string :=
  sort_Strings (all_dirs fs (map_to_list m)).

#[export] Instance all_dirs_perm fs : Proper ((≡ₚ) ==> (≡ₚ)) (all_dirs fs).
Proof.
  intros l1 l2 Hp. unfold all_dirs. by apply bind_Permutation.
Qed.

Lemma elem_of_pool_dirs fs info d :
  d ∈ pool_dirs fs info ↔
  ∃ c, fs !! (resolve (Path info) ++ [c]) = Some NDir ∧ d = Join [Path info; c].
Proof.
  unfold pool_dirs. rewrite list_elem_of_fmap. split.
  - intros ([c n]&->&[Hd Hin]%list_elem_of_filter). apply elem_of_entries in Hin.
    exists c. split; [|done]. by destruct n.
  - intros (c&Hl&->). exists (c, NDir). split; [done|].
    apply list_elem_of_filter. split; [done|]. by apply elem_of_entries.
Qed.

Lemma elem_of_volume_dirs fs m d :
  d ∈ volume_dirs fs m ↔
  ∃ pool info c, m !! pool = Some info ∧
    fs !! (resolve (Path info) ++ [c]) = Some NDir ∧ d = Join [Path info; c].
Proof.
  unfold volume_dirs, all_dirs. rewrite elem_of_sort_Strings, list_elem_of_bind. split.
  - intros ([pool info]&Hd&Hin). apply elem_of_map_to_list in Hin.
    apply elem_of_pool_dirs in Hd as (c&?&?). by exists pool, info, c.
  - intros (pool&info&c&Hp&Hl&->). exists (pool, info). split.
    + apply elem_of_pool_dirs. by exists c.
    + by apply elem_of_map_to_list.
Qed.

Section facts.
Context `{!Env}.

Lemma respects_checkPathExist R `{!PreOrder R, !TickInv R} s : respects R (checkPathExistFunc s).
Proof. unfold checkPathExistFunc. respects_tac. Qed.

Lemma respects_getDirectories R `{!PreOrder R, !TickInv R} m :
  respects R (getStoragePoolDataDirectories m).
Proof. unfold getStoragePoolDataDirectories, readPoolDirectories. respects_tac. Qed.

Lemma respects_wf_createDir base v : respects wf_rel (createVolumeDirectoryFunc base v).
Proof. unfold createVolumeDirectoryFunc. auto with go. Qed.

Lemma respects_wf_DeleteVolume base v : respects wf_rel (DeleteVolume base v).
Proof. unfold DeleteVolume. respects_tac. Qed.

Lemma respects_confined_DeleteVolume roots base v :
  inside roots (resolve (Join [base; v])) → respects (confined roots) (DeleteVolume base v).
Proof. intros. unfold DeleteVolume. respects_tac. Qed.

(** The outcome of the existence check, in terms of the call it makes. *)
Lemma checkPathExist_run s w :
  checkPathExistFunc s w =
    (match stat_result (w_tick w) (w_fs w) s with
     | Ret _ => Ret true
     | Fail e => if os_IsNotExist e then Ret false else Fail e
     | Panic p => Panic p
     end, tickw w).
Proof.
  unfold checkPathExistFunc, bind, try, os_Stat, reads.
  destruct (stat_result _ _ _) as [x|e|p] eqn:Hs; [done| |done].
  by destruct (os_IsNotExist e).
Qed.

Lemma checkPathExist_true s w w' :
  checkPathExistFunc s w = (Ret true, w') → w' = tickw w ∧ s ≠ "" ∧ is_Some (w_fs w !! resolve s).
Proof.
  rewrite checkPathExist_run. unfold stat_result. intros [=Heq <-].
  destruct (fault _ _ _); [by destruct (os_IsNotExist _)|].
  case_decide; [by simpl in Heq|]. destruct (w_fs w !! resolve s); [eauto|].
  by destruct (os_IsNotExist _).
Qed.

Lemma checkPathExist_false s w w' :
  checkPathExistFunc s w = (Ret false, w') → w' = tickw w.
Proof. rewrite checkPathExist_run. by intros [=_ <-]. Qed.

Lemma checkPathExist_found s x w :
  no_faults → s ≠ "" → w_fs w !! resolve s = Some x → checkPathExistFunc s w = (Ret true, tickw w).
Proof.
  intros Hnf Hs Hl. rewrite checkPathExist_run. unfold stat_result.
  by rewrite Hnf, decide_False, Hl by done.
Qed.

Lemma checkPathExist_missing s w :
  no_faults → s ≠ "" → w_fs w !! resolve s = None →
  missing_errno (w_fs w) [] (resolve s) = ENOENT →
  checkPathExistFunc s w = (Ret false, tickw w).
Proof.
  intros Hnf Hs Hl Hm. rewrite checkPathExist_run. unfold stat_result.
  by rewrite Hnf, decide_False, Hl, Hm by done.
Qed.

(** Reading all pools, whatever order the map is ranged over. *)
Lemma getDirectories_spec m w :
  wp (getStoragePoolDataDirectories m) (λ o w', quiet w w' ∧
    match o with
    | Ret l => l = volume_dirs (w_fs w) m
    | Fail _ => True
    | Panic _ => False
    end) w.
Proof.
  unfold getStoragePoolDataDirectories. apply wp_bind. unfold wp at 1, range_map, reads. simpl.
  apply wp_bind.
  eapply (wp_foldM _ (λ b l w', quiet w w' ∧
     ∃ done, range_order _ (w_tick w) m = done ++ l ∧ b = all_dirs (w_fs w) done)).
  - intros b [pool info] l w' [Hq (dn&Hdn&->)]. unfold readPoolDirectories. simpl.
    unfold wp, bind, os_ReadDir, reads, readdir_result. destruct Hq as (Hfs&Hm&Hg).
    rewrite Hfs. repeat case_match; simplify_eq/=; try done.
    split; [done|]. exists (dn ++ [(pool, info)]). split; [by rewrite <-app_assoc|].
    unfold all_dirs. rewrite bind_app. simpl. by rewrite app_nil_r.
  - intros b w' [Hq (dn&Hdn&->)]. rewrite app_nil_r in Hdn. simpl.
    apply wp_ret. split; [done|]. unfold volume_dirs.
    apply sort_Strings_ext. rewrite <-Hdn. f_equiv. apply range_order_perm.
  - split; [done|]. by exists [].
Qed.

(** Without faults, and with every pool directory in place, it succeeds. *)
Lemma getDirectories_ok m w :
  no_faults →
  (∀ pool info, m !! pool = Some info → Path info ≠ "" ∧ w_fs w !! resolve (Path info) = Some NDir) →
  ∃ w', getStoragePoolDataDirectories m w = (Ret (volume_dirs (w_fs w) m), w') ∧ quiet w w'.
Proof.
  intros Hnf Hpools.
  cut (wp (getStoragePoolDataDirectories m) (λ o _, ∃ l, o = Ret l) w).
  { intros Hret. pose proof (getDirectories_spec m w) as Hspec. unfold wp in *.
    destruct (getStoragePoolDataDirectories m w) as [o w']. simpl in *.
    destruct Hret as [l ->], Hspec as [Hq ->]. by exists w'. }
  unfold getStoragePoolDataDirectories. apply wp_bind. unfold wp at 1, range_map, reads. simpl.
  apply wp_bind.
  eapply (wp_foldM _ (λ b l w', quiet w w' ∧ ∀ kv, kv ∈ l → m !! kv.1 = Some kv.2)).
  - intros b [pool info] l w' [(Hfs&Hm&Hg) Hl]. unfold readPoolDirectories. simpl.
    destruct (Hpools pool info) as [Hne Hd]; [apply (Hl (pool, info)); left|].
    unfold wp. rewrite <-Hfs in Hd. rewrite (run_bind_ret _ _ _ _ _ (ReadDir_found Hnf _ _ Hne Hd)).
    simpl. split; [done|]. intros kv Hkv. apply Hl. by right.
  - intros b w' _. by eexists.
  - split; [done|]. intros [pool info]. rewrite range_order_perm. by rewrite elem_of_map_to_list.
Qed.
End facts.

#[export] Hint Resolve respects_checkPathExist respects_getDirectories respects_wf_createDir
  respects_wf_DeleteVolume respects_confined_DeleteVolume : go.

(** ** Indexes *)

Lemma IndexOf_from_spec i value l :
  0 ≤ i →
  (IndexOf_from i value l = -1 ∧ Forall (λ m, Base m ≠ value) l) ∨
  (∃ k m, IndexOf_from i value l = i + Z.of_nat k ∧ l !! k = Some m ∧ Base m = value ∧
          Forall (λ m, Base m ≠ value) (take k l)).
Proof.
  revert i. induction l as [|m l IH]; intros i Hi; simpl; [left; by split|].
  case_decide as Hb.
  - right. exists 0%nat, m. split_and!; [lia|done|done|constructor].
  - destruct (IH (i + 1)) as [[-> Hl]|(k&m'&->&Hk&Hm&Ht)]; [lia|left; by split; [|constructor]|].
    right. exists (S k), m'. split_and!; [lia|done|done|]. simpl. by constructor.
Qed.

Lemma IndexOf_found i value l k m :
  l !! k = Some m → Base m = value → Forall (λ x, Base x ≠ value) (take k l) →
  IndexOf_from i value l = i + Z.of_nat k.
Proof.
  revert i k. induction l as [|x l IH]; intros i k Hk Hm Ht; [done|]. simpl.
  destruct k as [|k]; simpl in *.
  - injection Hk as ->. rewrite decide_True by done. lia.
  - apply Forall_cons_1 in Ht as [Hx Ht]. rewrite decide_False by done.
    rewrite (IH (i + 1) k) by done. lia.
Qed.

(** ** Properties *)

(** The capacity that is reported is never above the real one and never negative, loses
    less than a tenth of what is reported, grows with the real capacity, and rounding a rounded
    capacity changes nothing. *)
Theorem capacity_rounding c :
  0 ≤ c < 2 ^ 63 →
  0 ≤ roundDownCapacityPretty c ≤ c ∧
  (roundDownCapacityPretty c = c ∨ 10 * (c - roundDownCapacityPretty c) < roundDownCapacityPretty c) ∧
  (∀ c', c ≤ c' < 2 ^ 63 → roundDownCapacityPretty c ≤ roundDownCapacityPretty c') ∧
  roundDownCapacityPretty (roundDownCapacityPretty c) = roundDownCapacityPretty c.
Proof.
  intros Hc. destruct (roundDown_bounds_aux c Hc) as [Hb Hl]. split_and!; [lia|lia|done| |].
  - intros c' Hc'. apply roundDown_mono_aux; lia.
  - by apply roundDown_idem_aux.
Qed.

Lemma capacity_rounding_witness :
  roundDownCapacityPretty (roundDownCapacityPretty 107374182399) = 99 * gib.
Proof.
  etransitivity; [apply (capacity_rounding 107374182399); lia|]. vm_compute. reflexivity.
Defined.

(** Reading the pools never changes anything and never panics; the list it returns is
    sorted and holds exactly the direct sub-directories of the pools joined to the pool paths,
    and does not depend on the order in which the pools are visited. *)
Theorem data_directories_exact `{!Env} m w :
  match getStoragePoolDataDirectories m w with
  | (Ret l, w') => quiet w w' ∧ StronglySorted String.le l ∧ l = volume_dirs (w_fs w) m ∧
      ∀ d, d ∈ l ↔ ∃ pool info c, m !! pool = Some info ∧
        w_fs w !! (resolve (Path info) ++ [c]) = Some NDir ∧ d = Join [Path info; c]
  | (Fail _, w') => quiet w w'
  | (Panic _, _) => False
  end.
Proof.
  pose proof (getDirectories_spec m w) as Hspec. unfold wp in Hspec.
  destruct (getStoragePoolDataDirectories m w) as [[l|e|p] w']; simpl in Hspec; [|by destruct Hspec..].
  destruct Hspec as [Hq ->]. split_and!; [done|apply sort_Strings_sorted|done|].
  intros d. apply elem_of_volume_dirs.
Qed.
