(* ===== verification/Health.v ===== *)
(** * pkg/hostpath/healthcheck.go

    File system statistics on 64-bit integers and the health verdicts built on
    them. *)
From S2P Require Import Prelude GoStrings GoPath GoErrors OS OSFacts Csi Utils.
Open Scope Z_scope.

Record PVStats := {
  st_available : Z;
  st_capacity : Z;
  st_used : Z;
  st_inodes : Z;
  st_inodesFree : Z;
  st_inodesUsed : Z;
}.

(** The arithmetic of [fsInfo]: the unsigned fields are converted to [int64]
    and multiplied and subtracted with wrap-around. *)
Definition fsStats (st : Statfs_t) : PVStats := {|
  st_available := int64 (int64 (Bavail st) * int64 (Bsize st));
  st_capacity := int64 (int64 (Blocks st) * int64 (Bsize st));
  st_used := int64 (int64 (int64 (Blocks st) - int64 (Bfree st)) * int64 (Bsize st));
  st_inodes := int64 (Files st);
  st_inodesFree := int64 (Ffree st);
  st_inodesUsed := int64 (int64 (Files st) - int64 (Ffree st));
|}.

Section ops.
Context `{!Env}.

Definition fsInfo (path : string) : M PVStats :=
  st <- unix_Statfs path ;;
  ret (fsStats st).

Definition getPVStats (volumePath : string) : M PVStats := fsInfo volumePath.

Definition checkPVUsage (volumePath : string) : M (Z * Z) :=
  st <- getPVStats volumePath ;;
  ret (st_available st, st_inodesFree st).

Definition checkIfSpaceAvailable (volumePath : string) : M (bool * string) :=
  r <- try (checkPVUsage volumePath) ;;
  match r with
  | inr err => ret (false, Error err)
  | inl (fsAvailable, inodesFree) =>
      if fsAvailable =? 0 then ret (false, "No space left on device")
      else if inodesFree =? 0 then ret (false, "No inodes remaining on device")
      else ret (true, "")
  end.

Definition doHealthCheckInControllerSide (volumePath : string) : M (bool * string) :=
  r <- try (checkPathExistFunc volumePath) ;;
  match r with
  | inr err => ret (false, Error err)
  | inl spExist =>
      if negb spExist then ret (false, "The source path of the volume doesn't exist")
      else checkIfSpaceAvailable volumePath
  end.
End ops.

Section facts.
Context `{!Env}.

Lemma respects_getPVStats R `{!PreOrder R, !TickInv R} s : respects R (getPVStats s).
Proof. unfold getPVStats, fsInfo. respects_tac. Qed.
Hint Resolve respects_getPVStats : go.

Lemma respects_checkIfSpace R `{!PreOrder R, !TickInv R} s : respects R (checkIfSpaceAvailable s).
Proof. unfold checkIfSpaceAvailable, checkPVUsage. respects_tac. Qed.
Hint Resolve respects_checkIfSpace : go.

Lemma respects_health R `{!PreOrder R, !TickInv R} s : respects R (doHealthCheckInControllerSide s).
Proof. unfold doHealthCheckInControllerSide. respects_tac. Qed.

Lemma checkIfSpace_run s w :
  checkIfSpaceAvailable s w =
    (Ret (match statfs (w_tick w) s with
          | inl e => (false, errno_string e)
          | inr st =>
              if st_available (fsStats st) =? 0 then (false, "No space left on device")
              else if st_inodesFree (fsStats st) =? 0 then (false, "No inodes remaining on device")
              else (true, "")
          end), tickw w).
Proof.
  unfold checkIfSpaceAvailable, checkPVUsage, getPVStats, fsInfo, unix_Statfs, bind, try, reads.
  destruct (statfs _ _) as [e|st]; [done|]. cbn -[Z.eqb fsStats]. by repeat case_match.
Qed.

(** The verdict is always given: no error and no panic leaves the check. *)
Lemma health_returns s w : ∃ b msg w', doHealthCheckInControllerSide s w = (Ret (b, msg), w').
Proof.
  unfold doHealthCheckInControllerSide, bind at 1, try at 1. rewrite checkPathExist_run.
  pose proof (stat_result_no_panic (w_tick w) (w_fs w) s) as Hnp.
  destruct (stat_result _ _ _) as [x|e|p]; [| |by destruct (Hnp p)]; simpl.
  - rewrite checkIfSpace_run. destruct (statfs _ _); [by do 3 eexists|].
    repeat case_match; by do 3 eexists.
  - destruct (os_IsNotExist e); simpl; by do 3 eexists.
Qed.

Lemma health_true_msg s w w' b msg :
  doHealthCheckInControllerSide s w = (Ret (b, msg), w') → b = true → msg = "".
Proof.
  unfold doHealthCheckInControllerSide, bind at 1, try at 1. rewrite checkPathExist_run.
  destruct (stat_result _ _ _) as [x|e|p]; simpl; [|by destruct (os_IsNotExist e); intros; simplify_eq|done].
  rewrite checkIfSpace_run. repeat case_match; intros; simplify_eq; done.
Qed.

(** What "healthy" means in terms of what the kernel answered. *)
Lemma health_true_iff s w :
  (doHealthCheckInControllerSide s w).1 = Ret (true, "") ↔
  (∃ x, stat_result (w_tick w) (w_fs w) s = Ret x) ∧
  ∃ st, statfs (S (w_tick w)) s = inr st ∧
        st_available (fsStats st) ≠ 0 ∧ st_inodesFree (fsStats st) ≠ 0.
Proof.
  unfold doHealthCheckInControllerSide, bind at 1, try at 1. rewrite checkPathExist_run.
  destruct (stat_result _ _ _) as [x|e|p]; simpl.
  - rewrite checkIfSpace_run. cbn -[Z.eqb fsStats].
    destruct (statfs _ _) as [e|st]; [split; [done|by intros (_&?&?&_)]|].
    destruct (Z.eqb_spec (st_available (fsStats st)) 0).
    { split; [done|]. intros (_&?&[= <-]&?&_). done. }
    destruct (Z.eqb_spec (st_inodesFree (fsStats st)) 0).
    { split; [done|]. intros (_&?&[= <-]&_&?). done. }
    split; [|done]. intros _. split; [by eexists|]. by exists st.
  - destruct (os_IsNotExist e); (split; [done|by intros [[? ?] _]]).
  - split; [done|]. by intros [[? ?] _].
Qed.
End facts.

#[export] Hint Resolve respects_getPVStats respects_checkIfSpace respects_health : go.

(** ** Properties *)

(** The health check of a volume path always gives a verdict, whatever fails, and changes
    nothing; the verdict is "healthy" exactly when the path can be examined and its file system
    reports available bytes and free inodes different from zero. *)
Theorem health_verdict `{!Env} s w :
  ∃ b msg w', doHealthCheckInControllerSide s w = (Ret (b, msg), w') ∧ quiet w w' ∧
    (b = true ↔ (∃ x, stat_result (w_tick w) (w_fs w) s = Ret x) ∧
       ∃ st, statfs (S (w_tick w)) s = inr st ∧
             st_available (fsStats st) ≠ 0 ∧ st_inodesFree (fsStats st) ≠ 0) ∧
    (b = true → msg = "").
Proof.
  destruct (health_returns s w) as (b&msg&w'&Hrun). exists b, msg, w'. split; [done|].
  pose proof (respects_health quiet s w) as Hq. pose proof (health_true_iff s w) as Hiff.
  rewrite Hrun in Hq, Hiff. split; [done|]. simpl in Hiff.
  assert (b = true → msg = "") as Hmsg by by apply (health_true_msg s w w').
  split; [|done]. rewrite <-Hiff. split; [intros Hb; by rewrite Hb, Hmsg|]. by intros [= -> _].
Qed.


