(* ===== verification/Reflink.v ===== *)
(** * pkg/hostpath/reflink.go

    The [SnapshotProvider] interface and its reflink implementation: a
    snapshot is a directory [path/id] that holds the copied data in [data] and
    an empty directory named after the source volume. *)
From S2P Require Import Prelude GoStrings GoPath GoErrors OS OSFacts Csi Utils.
Open Scope Z_scope.

(** ** The interface *)

Record SnapshotProvider := {
  sp_Initialize : M unit;
  sp_GetSnapshotById : string → M (option Snapshot);
  sp_GetSnapshotsByVolumeSourceId : string → M (list Snapshot);
  sp_GetAllSnapshots : M (list Snapshot);
  sp_CreateSnapshot : string → string → M Snapshot;
  sp_DeleteSnapshot : string → M unit;
  sp_RestoreSnapshot : string → string → M unit;
}.

(** ** The implementation *)

Record Reflink := {
  nodeName : string;
  path : string;
  sourcePath : string;
}.

Definition dataPath : string := "data".

Section ops.
Context `{!Env}.

Definition reflinkCopy (src dst : string) : M unit :=
  wrapErr (λ err, WrapError ("failed to copy " +:+ src +:+ " to " +:+ dst +:+ ": " +:+ Error err) err)
    (exec_cp src dst).

Definition ensurePathExists (path : string) : M unit := os_MkdirAll path.

Definition Initialize (r : Reflink) : M unit := ensurePathExists (path r).

(** The first directory of the snapshot that is not the data. *)
Definition is_source_entry (entry : string * node) : bool :=
  IsDir entry.2 && bool_decide (entry.1 ≠ dataPath).

Definition getSourceVolumeId (r : Reflink) (snapshotId : string) : M string :=
  es <- os_ReadDir (Join [path r; snapshotId]) ;;
  match list_find (λ e, is_source_entry e = true) es with
  | Some (_, entry) => ret entry.1
  | None => fail (ErrorString ("source volume not found for snapshot " +:+ snapshotId))
  end.

Definition GetSnapshotById (r : Reflink) (snapshotId : string) : M (option Snapshot) :=
  res <- try (os_StatInfo (Join [path r; snapshotId])) ;;
  match res with
  | inr err => if errors_Is_NotExist err then ret None else fail err
  | inl (info, ctim) =>
      if negb (IsDir info) then
        fail (ErrorString ("file " +:+ Join [path r; snapshotId] +:+ " is not a directory"))
      else
        sourceVolumeId <- getSourceVolumeId r snapshotId ;;
        ret (Some {| SnapshotId := snapshotId; SourceVolumeId := sourceVolumeId;
                     CreationTime := ctim; ReadyToUse := true |})
  end.

(** The loop body of [GetAllSnapshots]: [*snapshot] panics when the entry
    has disappeared since the directory was read. *)
Definition appendSnapshot (r : Reflink) (snapshots : list Snapshot) (entry : string * node)
    : M (list Snapshot) :=
  if negb (IsDir entry.2) then ret snapshots
  else
    snapshot <- GetSnapshotById r entry.1 ;;
    match snapshot with
    | None => panic "invalid memory address or nil pointer dereference"
    | Some s => ret (snapshots ++ [s])
    end.

Definition GetAllSnapshots (r : Reflink) : M (list Snapshot) :=
  es <- os_ReadDir (path r) ;;
  foldM (appendSnapshot r) [] es.

Definition GetSnapshotsByVolumeSourceId (r : Reflink) (volumeSourceId : string) : M (list Snapshot) :=
  snapshots <- GetAllSnapshots r ;;
  ret (filter (λ s, SourceVolumeId s = volumeSourceId) snapshots).

Definition createSnapshotFromDir (r : Reflink) (snapshotId sourceVolumeId path : string) : M Snapshot :=
  creationTime <- getFileCreationTimeFunc path ;;
  ret {| SnapshotId := snapshotId; SourceVolumeId := sourceVolumeId;
         CreationTime := creationTime; ReadyToUse := true |}.

Definition CreateSnapshot (r : Reflink) (snapshotId sourceVolumeId : string) : M Snapshot :=
  let sourcePoolDir := Join [sourcePath r; sourceVolumeId] in
  exists_ <- checkPathExistFunc sourcePoolDir ;;
  if (exists_ : bool) then
    let snapshotDir := Join [path r; snapshotId; dataPath] in
    let sourceDir := Join [path r; snapshotId; sourceVolumeId] in
    snapshotExists <- checkPathExistFunc snapshotDir ;;
    if (snapshotExists : bool) then
      createSnapshotFromDir r snapshotId sourceVolumeId snapshotDir
    else
      os_MkdirAll snapshotDir >>
      os_MkdirAll sourceDir >>
      reflinkCopy (sourcePoolDir +:+ "/.") snapshotDir >>
      createSnapshotFromDir r snapshotId sourceVolumeId snapshotDir
  else
    fail (ErrorString ("source volume " +:+ sourcePoolDir +:+ " not found, unable to create snapshot")).

Definition DeleteSnapshot (r : Reflink) (snapshotId : string) : M unit :=
  let snapPath := Join [path r; snapshotId] in
  exists_ <- checkPathExistFunc snapPath ;;
  if (exists_ : bool) then os_RemoveAll snapPath else ret tt.

Definition RestoreSnapshot (r : Reflink) (snapshotId targetPath : string) : M unit :=
  let snapPath := Join [path r; snapshotId; dataPath] in
  exists_ <- checkPathExistFunc snapPath ;;
  if (exists_ : bool) then
    targetExists <- checkPathExistFunc targetPath ;;
    if negb targetExists then
      fail (ErrorString ("target path " +:+ targetPath +:+ " does not exist"))
    else reflinkCopy (snapPath +:+ "/.") targetPath
  else
    fail (StatusError NotFound
            ("snapshot " +:+ snapshotId +:+ " not found, unable to restore into volume")).

Definition reflinkProvider (r : Reflink) : SnapshotProvider := {|
  sp_Initialize := Initialize r;
  sp_GetSnapshotById := GetSnapshotById r;
  sp_GetSnapshotsByVolumeSourceId := GetSnapshotsByVolumeSourceId r;
  sp_GetAllSnapshots := GetAllSnapshots r;
  sp_CreateSnapshot := CreateSnapshot r;
  sp_DeleteSnapshot := DeleteSnapshot r;
  sp_RestoreSnapshot := RestoreSnapshot r;
|}.
End ops.
