(* ===== verification/ReflinkFacts.v ===== *)
(** * Correctness of the reflink snapshot provider

    What a provider promises to the controller ([ProviderSafe]), and that the
    reflink provider keeps it; creating, finding, listing, deleting and
    restoring snapshots. *)
From S2P Require Import Prelude GoStrings GoPath GoErrors OS OSFacts Demo Csi Utils Reflink.
Open Scope Z_scope.

(** ** What a snapshot provider promises *)

(** A provider keeps the tree well-formed, only looks when it is asked for
    snapshots, changes nothing outside its roots when ids are plain names, and
    restores into nothing but the target. *)
Class ProviderSafe (roots : list GoPath.path) (p : SnapshotProvider) : Prop := {
  safe_get : ∀ id, respects quiet (sp_GetSnapshotById p id);
  safe_get_by_source : ∀ id, respects quiet (sp_GetSnapshotsByVolumeSourceId p id);
  safe_get_all : respects quiet (sp_GetAllSnapshots p);
  safe_init_wf : respects wf_rel (sp_Initialize p);
  safe_create_wf : ∀ id src, respects wf_rel (sp_CreateSnapshot p id src);
  safe_delete_wf : ∀ id, respects wf_rel (sp_DeleteSnapshot p id);
  safe_restore_wf : ∀ id target, respects wf_rel (sp_RestoreSnapshot p id target);
  safe_init : respects (confined roots) (sp_Initialize p);
  safe_create : ∀ id src, valid_name id → valid_name src →
    respects (confined roots) (sp_CreateSnapshot p id src);
  safe_delete : ∀ id, valid_name id → respects (confined roots) (sp_DeleteSnapshot p id);
  safe_restore : ∀ id target, respects (confined [resolve target]) (sp_RestoreSnapshot p id target);
}.

Lemma quiet_wf w w' : quiet w w' → wf_rel w w'.
Proof. intros (Hfs&_&_). unfold wf_rel. by rewrite Hfs. Qed.

Lemma quiet_confined roots w w' : quiet w w' → confined roots w w'.
Proof. intros (Hfs&Hm&_). split; [done|]. intros _ k _. left. by rewrite Hfs. Qed.

Lemma respects_weaken {S E A} (R R' : relation S) (m : GoM S E A) :
  (∀ w w', R w w' → R' w w') → respects R m → respects R' m.
Proof. intros Hsub Hm w. apply Hsub, Hm. Qed.

(** A provider that stays within one directory stays within any roots that
    contain it. *)
Lemma ProviderSafe_mono roots d p : inside roots d → ProviderSafe [d] p → ProviderSafe roots p.
Proof.
  intros Hin []. split; auto; intros; eapply respects_weaken; try (intros ??; by apply confined_mono); auto.
Qed.

Lemma inside_Join3 roots (base n m : string) :
  inside roots (resolve base) → valid_name n → valid_name m → inside roots (resolve (Join [base; n; m])).
Proof. intros Hin Hn Hm. rewrite resolve_Join3 by done. eapply inside_below; [done|]. by exists [n; m]. Qed.

Lemma inside_Join roots (base n : string) :
  inside roots (resolve base) → valid_name n → inside roots (resolve (Join [base; n])).
Proof. intros Hin Hn. rewrite resolve_Join by done. eapply inside_below; [done|]. by exists [n]. Qed.

Lemma dataPath_valid : valid_name dataPath.
Proof. by_decide. Qed.
#[export] Hint Resolve dataPath_valid inside_Join inside_Join3 : go.

Section safe.
Context `{!Env}.

Lemma respects_getFileCreationTime R `{!PreOrder R, !TickInv R} s :
  respects R (getFileCreationTimeFunc s).
Proof. unfold getFileCreationTimeFunc. respects_tac. Qed.
Hint Resolve respects_getFileCreationTime : go.

Lemma respects_GetSnapshotById R `{!PreOrder R, !TickInv R} r id : respects R (GetSnapshotById r id).
Proof.
  unfold GetSnapshotById, getSourceVolumeId. respects_tac.
Qed.
Hint Resolve respects_GetSnapshotById : go.

Lemma respects_GetAllSnapshots R `{!PreOrder R, !TickInv R} r : respects R (GetAllSnapshots r).
Proof. unfold GetAllSnapshots, appendSnapshot. respects_tac. Qed.
Hint Resolve respects_GetAllSnapshots : go.

Lemma respects_wf_reflinkCopy src dst : respects wf_rel (reflinkCopy src dst).
Proof. unfold reflinkCopy. respects_tac. Qed.
Lemma respects_confined_reflinkCopy roots src dst :
  inside roots (resolve dst) → respects (confined roots) (reflinkCopy src dst).
Proof. intros. unfold reflinkCopy. respects_tac. Qed.
Hint Resolve respects_wf_reflinkCopy respects_confined_reflinkCopy : go.

#[export] Instance reflink_safe roots r :
  inside roots (resolve (path r)) → ProviderSafe roots (reflinkProvider r).
Proof.
  intros Hin. assert (∀ s, inside [resolve s] (resolve s)) by (intros; by apply Exists_cons_hd).
  split; simpl; intros;
    unfold Initialize, ensurePathExists, GetSnapshotsByVolumeSourceId, CreateSnapshot,
      createSnapshotFromDir, DeleteSnapshot, RestoreSnapshot; respects_tac;
    eauto 6 with go.
Qed.
End safe.

(** ** Where a snapshot lives *)

Definition snapDir (r : Reflink) (id : string) : GoPath.path := resolve (path r) ++ [id].
Definition snapData (r : Reflink) (id : string) : GoPath.path := resolve (path r) ++ [id; dataPath].
Definition volDir (r : Reflink) (v : string) : GoPath.path := resolve (sourcePath r) ++ [v].

(** The snapshot directory and the volumes do not contain each other. *)
Definition separate (r : Reflink) : Prop :=
  ¬ resolve (path r) `prefix_of` resolve (sourcePath r) ∧
  ¬ resolve (sourcePath r) `prefix_of` resolve (path r).

(** Two paths of which neither contains the other. *)
Definition apart (p q : GoPath.path) : Prop := ¬ p `prefix_of` q ∧ ¬ q `prefix_of` p.

Lemma apart_below p q p' q' : apart p q → apart (p ++ p') (q ++ q').
Proof.
  intros [H1 H2]. split; intros [s Hs].
  - rewrite <-!app_assoc in Hs.
    destruct (prefix_weak_total p q (q ++ q')) as [?|?]; [eexists; exact Hs|by exists q'|done..].
  - rewrite <-!app_assoc in Hs.
    destruct (prefix_weak_total p q (p ++ p')) as [?|?]; [by exists p'|eexists; exact Hs|done..].
Qed.

Lemma apart_ne p q p' q' : apart p q → p ++ p' ≠ q ++ q'.
Proof. intros Ha Heq. destruct (apart_below p q p' q' Ha) as [Hn _]. apply Hn. by rewrite Heq. Qed.

Lemma apart_not_prefix_l p q k : apart p q → ¬ p ++ k `prefix_of` q.
Proof. intros Ha Hp. destruct (apart_below p q k [] Ha) as [Hn _]. apply Hn. by rewrite app_nil_r. Qed.

(** What [getSourceVolumeId] finds in a tree. *)
Definition source_of (r : Reflink) (id : string) (fs : fstree) : option string :=
  (λ ie : nat * (string * node), ie.2.1) <$>
    list_find (λ e, is_source_entry e = true) (entries (snapDir r id) fs).

Lemma source_of_unique r id src fs :
  src ≠ dataPath → fs !! (snapDir r id ++ [src]) = Some NDir →
  (∀ c, fs !! (snapDir r id ++ [c]) = Some NDir → c = dataPath ∨ c = src) →
  source_of r id fs = Some src.
Proof.
  intros Hsrc Hdir Honly. unfold source_of, is_source_entry.
  destruct (list_find _ _) as [[i [c n]]|] eqn:Hf; simpl.
  - apply list_find_Some in Hf as (Hi&Hc&_). simpl in Hc.
    apply andb_prop in Hc as [Hn Hc%bool_decide_eq_true]. destruct n; [|done].
    assert ((c, NDir) ∈ entries (snapDir r id) fs) as Hin%elem_of_entries.
    { apply list_elem_of_lookup. eauto. }
    destruct (Honly c Hin) as [-> | ->]; done.
  - apply list_find_None in Hf. rewrite Forall_forall in Hf.
    exfalso. apply (Hf (src, NDir)); [by apply elem_of_entries|].
    simpl. by apply bool_decide_eq_true.
Qed.

(** The source that a snapshot remembers: an empty directory of the name of the
    volume, which for a volume of the name of the data directory is lost. *)
Definition recorded (src : string) : option string := if decide (src = dataPath) then None else Some src.

Lemma source_of_recorded r id src fs :
  fs !! (snapDir r id ++ [src]) = Some NDir →
  (∀ c, fs !! (snapDir r id ++ [c]) = Some NDir → c = dataPath ∨ c = src) →
  source_of r id fs = recorded src.
Proof.
  intros Hdir Honly. unfold recorded. case_decide as Hsrc; [|by apply source_of_unique].
  unfold source_of, is_source_entry. destruct (list_find _ _) as [[i [c n]]|] eqn:Hf; [|done].
  apply list_find_Some in Hf as (Hi&Hc&_). simpl in Hc.
  apply andb_prop in Hc as [Hn Hc%bool_decide_eq_true]. destruct n; [|done].
  assert ((c, NDir) ∈ entries (snapDir r id) fs) as Hin%elem_of_entries by (apply list_elem_of_lookup; eauto).
  by destruct (Honly c Hin) as [-> | ->].
Qed.

(** ** Creating a snapshot *)

Section create.
Context `{!Env}.

(** Everything a successful [CreateSnapshot] of a new id did. *)
Record created (r : Reflink) (id src : string) (fs fs' : fstree) : Prop := {
  created_wf : wf_fs fs';
  created_data : ∀ rel, fs' !! (snapData r id ++ rel) = fs !! (volDir r src ++ rel);
  created_source : fs' !! (snapDir r id ++ [src]) = Some NDir;
  created_dir : fs' !! snapDir r id = Some NDir;
  created_only : ∀ c, is_Some (fs' !! (snapDir r id ++ [c])) → c = dataPath ∨ c = src;
  created_frame : ∀ k, ¬ snapDir r id `prefix_of` k → fs' !! k = fs !! k;
}.

Lemma snapData_app r id : snapData r id = snapDir r id ++ [dataPath].
Proof. unfold snapData, snapDir. by rewrite <-app_assoc. Qed.

(** The two directories are prepared: below the snapshot there is nothing but
    them. *)
Lemma prepare_snapshot r id src w w1 w2 :
  valid_name id → valid_name src → wf_fs (w_fs w) →
  w_fs w !! resolve (path r) = Some NDir → w_fs w !! snapDir r id = None →
  os_MkdirAll (Join [path r; id; dataPath]) w = (Ret tt, w1) →
  os_MkdirAll (Join [path r; id; src]) w1 = (Ret tt, w2) →
  wf_fs (w_fs w2) ∧
  w_fs w2 !! snapDir r id = Some NDir ∧ w_fs w2 !! snapData r id = Some NDir ∧
  w_fs w2 !! (snapDir r id ++ [src]) = Some NDir ∧
  (∀ k, k ≠ [] → k ≠ [dataPath] → k ≠ [src] → w_fs w2 !! (snapDir r id ++ k) = None) ∧
  (∀ k, ¬ snapDir r id `prefix_of` k → w_fs w2 !! k = w_fs w !! k).
Proof.
  intros Hid Hsrc Hwf Hroot Hnone H1 H2.
  destruct (MkdirAll_ret _ _ _ Hwf H1) as (_&Hwf1&Hd1&Hk1&Hs1).
  destruct (MkdirAll_ret _ _ _ Hwf1 H2) as (_&Hwf2&Hd2&Hk2&Hs2).
  rewrite resolve_Join3 in * by auto with go.
  assert (∀ k, ¬ snapDir r id `prefix_of` k → w_fs w2 !! k = w_fs w !! k) as Hframe.
  { intros k Hk. unfold snapDir in *.
    destruct (decide (k `prefix_of` resolve (path r))) as [Hp|Hp].
    - assert (w_fs w !! k = Some NDir) as Hkd.
      { destruct (decide (k = resolve (path r))) as [->|]; [done|]. by eapply wf_prefix_dir. }
      rewrite Hkd. apply Hs2, Hs1, Hkd.
    - assert (∀ x, ¬ k `prefix_of` resolve (path r) ++ [id; x]) as Hnp.
      { intros x Hx. change [id; x] with ([id] ++ [x]) in Hx. rewrite app_assoc in Hx.
        apply prefix_snoc_inv in Hx as [->|Hx].
        - apply Hk. by exists [x].
        - apply prefix_snoc_inv in Hx as [->|Hx]; [by apply Hk|done]. }
      by rewrite Hk2, Hk1 by apply Hnp. }
  assert (snapData r id `prefix_of` resolve (path r) ++ [id; dataPath]) as Hpre by done.
  split_and!; [done| | | | |done].
  - apply Hs2, Hd1. unfold snapDir. apply prefix_app. by exists [dataPath].
  - by apply Hs2, Hd1.
  - apply Hd2. unfold snapDir. by rewrite <-app_assoc.
  - intros k Hk0 Hkd Hks. unfold snapDir. rewrite <-app_assoc.
    assert (∀ x, k ≠ [x] → ¬ resolve (path r) ++ [id] ++ k `prefix_of` resolve (path r) ++ [id; x]) as Hnp.
    { intros x Hx Hp%prefix_app_inv. simpl in Hp. apply prefix_cons_inv_2 in Hp as [z Hz].
      destruct k as [|y [|]]; naive_solver. }
    rewrite Hk2, Hk1 by by apply Hnp.
    destruct (w_fs w !! (resolve (path r) ++ [id] ++ k)) as [n|] eqn:Hn; [|done].
    rewrite app_assoc in Hn. unfold snapDir in Hnone. rewrite (wf_dir_above _ _ _ _ Hwf Hk0 Hn) in Hnone. done.
Qed.

Lemma CreateSnapshot_created r id src w s w' :
  separate r → valid_name id → valid_name src → wf_fs (w_fs w) →
  w_fs w !! resolve (path r) = Some NDir → w_fs w !! snapDir r id = None →
  w_fs w !! volDir r src = Some NDir →
  CreateSnapshot r id src w = (Ret s, w') →
  created r id src (w_fs w) (w_fs w') ∧
  SnapshotId s = id ∧ SourceVolumeId s = src ∧ ReadyToUse s = true.
Proof.
  intros Hsep Hid Hsrc Hwf Hroot Hnone Hvol Hrun. unfold CreateSnapshot in Hrun.
  bind_inv Hrun b1 w1 Hb1. destruct b1; [|done].
  apply checkPathExist_true in Hb1 as (->&_&_).
  bind_inv Hrun b2 w2 Hb2. destruct b2.
  { apply checkPathExist_true in Hb2 as (_&_&[x Hx]). simpl in Hx.
    rewrite resolve_Join3 in Hx by auto with go. exfalso.
    change [id; dataPath] with ([id] ++ [dataPath]) in Hx. rewrite app_assoc in Hx.
    apply (wf_parent _ Hwf) in Hx as [Hx _]. unfold snapDir in Hnone. congruence. }
  apply checkPathExist_false in Hb2 as ->.
  bind_inv Hrun u1 w3 H1. bind_inv Hrun u2 w4 H2. destruct u1, u2.
  destruct (prepare_snapshot r id src (tickw (tickw w)) _ _ Hid Hsrc Hwf Hroot Hnone H1 H2)
    as (Hwf4&Hdir&Hdat&Hsrcdir&Hempty&Hframe). simpl in Hframe.
  bind_inv Hrun u3 w5 Hcp. apply wrapErr_ret_inv in Hcp. unfold exec_cp in Hcp.
  bind_inv Hrun ct w6 Hct. assert (w_fs w6 = w_fs w5) as Hq6.
  { pose proof (respects_getFileCreationTime quiet (Join [path r; id; dataPath]) w5) as Hq.
    rewrite Hct in Hq. apply Hq. }
  injection Hrun as <- <-. split; [|done].
  rewrite resolve_slash_dot, resolve_Join, resolve_Join3 in Hcp by auto with go.
  change (resolve (sourcePath r) ++ [src]) with (volDir r src) in Hcp.
  change (resolve (path r) ++ [id; dataPath]) with (snapData r id) in Hcp.
  assert (apart (volDir r src) (snapData r id)) as [Hap1 Hap2].
  { apply apart_below. destruct Hsep. by split. }
  pose proof (cp_frame (w_tick w4) (w_fs w4) (volDir r src) (snapData r id)) as Hcpf.
  pose proof (cp_wf (w_tick w4) (w_fs w4) (volDir r src) (snapData r id) Hwf4) as Hcpwf.
  pose proof (cp_dst (w_tick w4) (w_fs w4) (volDir r src) (snapData r id)) as Hcpd.
  pose proof (λ rel, cp_ok (w_tick w4) (w_fs w4) (volDir r src) (snapData r id) rel Hwf4) as Hcpo.
  destruct (cp _ _ _ _) as [[] fs5]; [|done]. injection Hcp as <- <-. rewrite Hq6. simpl in *.
  split; [done| | | | |].
  - intros rel. destruct (decide (rel = [])) as [->|Hrel].
    { rewrite !app_nil_r. congruence. }
    rewrite Hcpo by done. rewrite snapData_app, <-app_assoc.
    rewrite (Hempty ([dataPath] ++ rel)) by (destruct rel; naive_solver).
    rewrite Hframe; [by destruct (w_fs w !! (volDir r src ++ rel))|].
    unfold snapDir, volDir. rewrite <-app_assoc. intros Hp.
    destruct (apart_below (resolve (path r)) (resolve (sourcePath r)) [id] ([src] ++ rel)) as [Hn _];
      [by destruct Hsep|]. done.
  - destruct (decide (src = dataPath)) as [Heq|Hdata]; [rewrite Heq, <-snapData_app; congruence|].
    rewrite Hcpf; [done|]. rewrite snapData_app. intros Hp%prefix_app_inv.
    by apply prefix_cons_inv_1 in Hp.
  - rewrite Hcpf; [done|]. rewrite snapData_app. apply not_prefix_snoc.
  - intros c [x Hx]. destruct (decide (c = dataPath)) as [|Hc]; [by left|].
    destruct (decide (c = src)) as [|Hc']; [by right|]. rewrite Hcpf in Hx.
    + rewrite Hempty in Hx; [done|by destruct c|naive_solver..].
    + rewrite snapData_app. intros Hp%prefix_app_inv. by apply prefix_cons_inv_1 in Hp.
  - intros k Hk. rewrite Hcpf; [by apply Hframe|]. rewrite snapData_app. intros Hp.
    apply Hk. etransitivity; [|exact Hp]. by exists [dataPath].
Qed.
End create.

(** ** Restoring *)

Section restore.
Context `{!Env}.

(** A successful restore: the snapshot is there, and is copied over the target. *)
Lemma RestoreSnapshot_overlay r id target w w' :
  valid_name id → wf_fs (w_fs w) → apart (resolve (path r)) (resolve target) →
  RestoreSnapshot r id target w = (Ret tt, w') →
  is_Some (w_fs w !! snapData r id) ∧ w_fs w' !! resolve target = w_fs w !! resolve target ∧
  ∀ rel, rel ≠ [] → w_fs w' !! (resolve target ++ rel) =
    match w_fs w !! (snapData r id ++ rel) with
    | Some x => Some x
    | None => w_fs w !! (resolve target ++ rel)
    end.
Proof.
  intros Hid Hwf Hap Hrun. unfold RestoreSnapshot in Hrun.
  bind_inv Hrun b1 w1 Hb1. destruct b1; [|done]. apply checkPathExist_true in Hb1 as (->&_&Hsnap).
  bind_inv Hrun b2 w2 Hb2. destruct b2; [|done]. apply checkPathExist_true in Hb2 as (->&_&_).
  simpl in Hrun. apply wrapErr_ret_inv in Hrun. unfold exec_cp in Hrun.
  rewrite resolve_slash_dot, resolve_Join3 in Hrun by auto with go.
  rewrite resolve_Join3 in Hsnap by auto with go.
  change (resolve (path r) ++ [id; dataPath]) with (snapData r id) in *.
  assert (apart (snapData r id) (resolve target)) as [Hap1 Hap2].
  { rewrite <-(app_nil_r (resolve target)). by apply apart_below. }
  simpl in Hrun.
  pose proof (cp_dst (S (S (w_tick w))) (w_fs w) (snapData r id) (resolve target)) as Hd.
  pose proof (λ rel, cp_ok (S (S (w_tick w))) (w_fs w) (snapData r id) (resolve target) rel Hwf) as Ho.
  destruct (cp _ _ _ _) as [[] fs']; [|done]. injection Hrun as <-. simpl in *.
  split_and!; [done..|]. intros rel Hrel. by apply Ho.
Qed.

(** A successful restore into a directory that held nothing. *)
Lemma RestoreSnapshot_ret r id target w w' :
  valid_name id → wf_fs (w_fs w) → apart (resolve (path r)) (resolve target) →
  (∀ rel, rel ≠ [] → w_fs w !! (resolve target ++ rel) = None) →
  RestoreSnapshot r id target w = (Ret tt, w') →
  w_fs w' !! resolve target = w_fs w !! resolve target ∧
  ∀ rel, rel ≠ [] → w_fs w' !! (resolve target ++ rel) = w_fs w !! (snapData r id ++ rel).
Proof.
  intros Hid Hwf Hap Hempty Hrun.
  destruct (RestoreSnapshot_overlay r id target w w') as (_&Hd&Ho); [done..|]. split; [done|].
  intros rel Hrel. rewrite Ho, Hempty by done. by destruct (w_fs w !! (snapData r id ++ rel)).
Qed.
End restore.

(** ** Looking snapshots up *)

Section lookup.
Context `{!Env} (Hnf : no_faults).

Lemma GetSnapshotById_some r id src w :
  valid_name id → w_fs w !! snapDir r id = Some NDir → source_of r id (w_fs w) = Some src →
  GetSnapshotById r id w =
    (Ret (Some {| SnapshotId := id; SourceVolumeId := src;
                  CreationTime := ctime (w_tick w) (snapDir r id); ReadyToUse := true |}),
     tickw (tickw w)).
Proof.
  intros Hid Hd Hs. unfold GetSnapshotById, source_of, snapDir in *.
  rewrite <-(resolve_Join (path r) id) in * by done.
  erewrite run_bind_ret; [|apply run_try_ret, StatInfo_found; [done|by apply Join_nonempty|done]].
  simpl. unfold getSourceVolumeId.
  erewrite bind_assoc, run_bind_ret; [|apply ReadDir_found; [done|by apply Join_nonempty|done]].
  simpl. destruct (list_find _ _) as [[i [c n]]|] eqn:Hf; [|done]. simpl in Hs.
  by injection Hs as <-.
Qed.

Lemma GetSnapshotById_none r id w :
  valid_name id → wf_fs (w_fs w) → w_fs w !! resolve (path r) = Some NDir →
  w_fs w !! snapDir r id = None → GetSnapshotById r id w = (Ret None, tickw w).
Proof.
  intros Hid Hwf Hr Hn. unfold GetSnapshotById.
  assert (resolve (Join [path r; id]) = snapDir r id) as Hres by by apply resolve_Join.
  rewrite <-Hres in Hn.
  erewrite run_bind_ret; [|apply run_try_fail, StatInfo_missing; [done|by apply Join_nonempty|done]].
  rewrite Hres in *. simpl. unfold snapDir in *. by rewrite missing_errno_entry.
Qed.

Lemma DeleteSnapshot_ok r id w :
  valid_name id → wf_fs (w_fs w) → w_fs w !! resolve (path r) = Some NDir →
  mounts_below (snapDir r id) (w_mounts w) = [] →
  ∃ w', DeleteSnapshot r id w = (Ret tt, w') ∧ w_mounts w' = w_mounts w ∧
        w_fs w' = rm_tree (snapDir r id) (w_fs w).
Proof.
  intros Hid Hwf Hr Hm. unfold DeleteSnapshot.
  assert (resolve (Join [path r; id]) = snapDir r id) as Hres by by apply resolve_Join.
  destruct (w_fs w !! snapDir r id) as [x|] eqn:Hx.
  - erewrite run_bind_ret; [|eapply checkPathExist_found; [done|by apply Join_nonempty|by rewrite Hres]].
    eexists. split; [eapply RemoveAll_found; [done|by apply Join_nonempty| | |by rewrite Hres|by rewrite Hres]|].
    + unfold endsWithDot. rewrite Join_last by done. apply bool_decide_eq_false.
      intros [= ->]. by destruct Hid as (?&?&?).
    + rewrite Hres. unfold snapDir. by destruct (resolve (path r)).
    + by rewrite Hres.
  - erewrite run_bind_ret; [|eapply checkPathExist_missing; [done|by apply Join_nonempty|by rewrite Hres|]].
    + eexists. split; [done|]. split; [done|]. simpl. apply map_eq. intros k.
      rewrite lookup_rm_tree. case_decide as Hp; [|done].
      destruct (w_fs w !! k) as [n|] eqn:Hk; [|done].
      destruct (decide (snapDir r id = k)) as [<-|Hne]; [congruence|].
      by rewrite (wf_prefix_dir _ _ _ _ Hwf Hp Hne Hk) in Hx.
    + rewrite Hres. unfold snapDir in *. by apply missing_errno_entry.
Qed.

(** Listing: one snapshot per directory of the repository, in name order. *)
Lemma GetAllSnapshots_ok r w :
  path r ≠ "" → wf_fs (w_fs w) → w_fs w !! resolve (path r) = Some NDir →
  (∀ id, w_fs w !! snapDir r id = Some NDir → is_Some (source_of r id (w_fs w))) →
  ∃ l w', GetAllSnapshots r w = (Ret l, w') ∧ quiet w w' ∧
    SnapshotId <$> l =
      (filter (λ e : string * node, IsDir e.2 = true) (entries (resolve (path r)) (w_fs w))).*1 ∧
    Forall (λ s, source_of r (SnapshotId s) (w_fs w) = Some (SourceVolumeId s) ∧
                 ReadyToUse s = true) l.
Proof.
  intros Hne Hwf Hr Hsrc. unfold GetAllSnapshots.
  rewrite (run_bind_ret _ _ _ _ _ (ReadDir_found Hnf _ _ Hne Hr)).
  assert (∀ e, e ∈ entries (resolve (path r)) (w_fs w) → w_fs w !! snapDir r e.1 = Some e.2) as Hes.
  { intros [c n] Hin. by apply elem_of_entries in Hin. }
  revert Hes. generalize (entries (resolve (path r)) (w_fs w)) as es. intros es Hes.
  assert (∀ acc w1, quiet w w1 → ∃ l w', foldM (appendSnapshot r) acc es w1 = (Ret (acc ++ l), w') ∧
     quiet w w' ∧ SnapshotId <$> l = (filter (λ e : string * node, IsDir e.2 = true) es).*1 ∧
     Forall (λ s, source_of r (SnapshotId s) (w_fs w) = Some (SourceVolumeId s) ∧
                  ReadyToUse s = true) l) as Hgen.
  2: { destruct (Hgen [] (tickw w)) as (l&w'&->&?&?&?); [done|]. by exists l, w'. }
  induction es as [|[c n] es IH]; intros acc w1 Hq.
  { exists [], w1. by rewrite app_nil_r. }
  assert (w_fs w !! snapDir r c = Some n) as Hcn by (apply (Hes (c, n)); left).
  assert (∀ e, e ∈ es → w_fs w !! snapDir r e.1 = Some e.2) as Hes' by (intros; apply Hes; by right).
  cbn [foldM]. unfold appendSnapshot at 1. destruct n; cbn [IsDir negb snd fst].
  - destruct (Hsrc c Hcn) as [src Hs]. destruct Hq as (Hfs&Hm&Hg).
    assert (valid_name c) as Hc by (by apply (wf_parent _ Hwf) in Hcn as [_ ?]).
    rewrite <-Hfs in Hs, Hcn. rewrite bind_assoc.
    rewrite (run_bind_ret _ _ _ _ _ (GetSnapshotById_some _ _ _ _ Hc Hcn Hs)). rewrite Hfs in Hs.
    erewrite run_bind_ret by done.
    destruct (IH Hes' (acc ++ [{| SnapshotId := c; SourceVolumeId := src;
       CreationTime := ctime (w_tick w1) (snapDir r c); ReadyToUse := true |}]) (tickw (tickw w1)))
      as (l&w'&Hrun&?&Hl&?); [done|].
    eexists (_ :: l), w'. split; [rewrite Hrun; by rewrite <-app_assoc|].
    rewrite filter_cons_True by done. split_and!; [done|by simpl; f_equal|by constructor].
  - erewrite run_bind_ret by done. destruct (IH Hes' acc w1 Hq) as (l&w'&?&?&?&?).
    exists l, w'. by rewrite filter_cons_False.
Qed.
End lookup.

(** ** Properties *)

#[export] Instance separate_dec r : Decision (separate r).
Proof. unfold separate. apply _. Defined.
#[export] Instance apart_dec p q : Decision (apart p q).
Proof. unfold apart. apply _. Defined.

(** A repository with one volume that holds a file, and an empty volume. *)
Definition demoReflink : Reflink := {| nodeName := "node01"; path := "/snap"; sourcePath := "/data" |}.
Definition demoWorld : world := World
  (tree [(["snap"], NDir); (["data"], NDir); (["data"; "vol1"], NDir);
         (["data"; "vol1"; "disk.img"], NFile "abc"); (["data"; "vol2"], NDir)]) [] 0 0.
Definition demoSnapped : world := (CreateSnapshot demoReflink "s1" "vol1" demoWorld).2.
Definition demoRestored : world := (RestoreSnapshot demoReflink "s1" "/data/vol2" demoSnapped).2.

Definition demoSnapshot : Snapshot :=
  {| SnapshotId := "s1"; SourceVolumeId := "vol1"; CreationTime := (1700000000, 0); ReadyToUse := true |}.

(** C11: A snapshot whose id was new when it was reported created, restored later into an existing
    empty volume with success reported, gives that volume exactly the tree the source volume had when the
    snapshot was taken, whatever happened in between outside the snapshot's data, and under
    any faults of the other calls. (With an id that exists already a partial snapshot can be
    reported again.) *)
Theorem snapshot_restore_roundtrip `{!Env} r id src target w s w1 w2 w3 :
  separate r → valid_name id → valid_name src →
  wf_fs (w_fs w) → w_fs w !! resolve (path r) = Some NDir → w_fs w !! snapDir r id = None →
  w_fs w !! volDir r src = Some NDir →
  CreateSnapshot r id src w = (Ret s, w1) →
  wf_fs (w_fs w2) → (∀ rel, w_fs w2 !! (snapData r id ++ rel) = w_fs w1 !! (snapData r id ++ rel)) →
  apart (resolve (path r)) (resolve target) → w_fs w2 !! resolve target = Some NDir →
  (∀ rel, rel ≠ [] → w_fs w2 !! (resolve target ++ rel) = None) →
  RestoreSnapshot r id target w2 = (Ret tt, w3) →
  ∀ rel, w_fs w3 !! (resolve target ++ rel) = w_fs w !! (volDir r src ++ rel).
Proof.
  intros Hsep Hid Hsrc Hwf Hroot Hnone Hvol Hcreate Hwf2 Hkeep Hap Ht Hempty Hrestore rel.
  destruct (CreateSnapshot_created r id src w s w1) as [Hc _]; try done.
  destruct (RestoreSnapshot_ret r id target w2 w3) as [Hd Hr]; try done.
  destruct (decide (rel = [])) as [->|Hrel]; [by rewrite !app_nil_r, Hd, Ht, Hvol|].
  by rewrite Hr, Hkeep, (created_data _ _ _ _ _ Hc).
Qed.

Lemma snapshot_restore_roundtrip_witness :
  w_fs demoRestored !! ["data"; "vol2"; "disk.img"] = Some (NFile "abc").
Proof.
  change ["data"; "vol2"; "disk.img"] with (resolve "/data/vol2" ++ ["disk.img"]).
  erewrite (snapshot_restore_roundtrip demoReflink "s1" "vol1" "/data/vol2" demoWorld demoSnapshot
              demoSnapped demoSnapped demoRestored);
    [vm_compute; reflexivity|by_decide|by_decide|by_decide|by_wf|vm_compute; reflexivity..
    |by_wf|done|by_decide|vm_compute; reflexivity|by_nothing|vm_compute; reflexivity].
Defined.

(** Right after a snapshot was created, looking it up by its id finds it, ready to use and
    attributed to the source volume. *)
Theorem create_then_get `{!Env} r id src w s w1 :
  no_faults → separate r → valid_name id → valid_name src → src ≠ dataPath →
  wf_fs (w_fs w) → w_fs w !! resolve (path r) = Some NDir → w_fs w !! snapDir r id = None →
  w_fs w !! volDir r src = Some NDir →
  CreateSnapshot r id src w = (Ret s, w1) →
  ∃ s' w', GetSnapshotById r id w1 = (Ret (Some s'), w') ∧ quiet w1 w' ∧
    SnapshotId s' = SnapshotId s ∧ SourceVolumeId s' = SourceVolumeId s ∧ SourceVolumeId s' = src ∧
    ReadyToUse s' = true.
Proof.
  intros Hnf Hsep Hid Hsrc Hdata Hwf Hroot Hnone Hvol Hcreate.
  destruct (CreateSnapshot_created r id src w s w1) as [Hc (Hsi&Hss&_)]; try done.
  destruct Hc as [Hwf1 _ Hsd Hdir Honly _].
  rewrite (GetSnapshotById_some Hnf r id src w1); [|done..|].
  - do 2 eexists. split; [done|]. by rewrite Hsi, Hss.
  - apply source_of_unique; [done..|]. intros c Hc. by apply Honly.
Qed.

Lemma create_then_get_witness :
  ∃ s' w', GetSnapshotById demoReflink "s1" demoSnapped = (Ret (Some s'), w') ∧
    SourceVolumeId s' = "vol1".
Proof.
  destruct (create_then_get demoReflink "s1" "vol1" demoWorld demoSnapshot demoSnapped)
    as (s'&w'&?&_&_&_&?&_);
    [done|by_decide|by_decide|by_decide|by_decide|by_wf|vm_compute; reflexivity..|].
  exists s', w'. split; assumption.
Defined.
