(* ===== verification/ControllerServer.v ===== *)
(** * pkg/hostpath/controllerserver.go

    The CSI controller service: every RPC handler with its validation, in the
    order of the source. A handler is one computation here; the threads of
    [HandlerThreads] cut it at its system calls and take [snapMutex]. *)
From S2P Require Import Prelude GoStrings GoPath GoErrors OS OSFacts Csi Utils Health Reflink.
Open Scope Z_scope.

Definition TopologyKeyNode : string := "topology.hostpath.csi/node".
Definition ReflinkProvider : string := "reflink".

Record hostPathController := {
  cfg : Config;
  snapshotproviders : gmap string SnapshotProvider;
}.

(** [if err != nil { return err }] for a validation that only computes. *)
Definition checkErr (err : option gerror) : M unit :=
  match err with
  | Some e => fail e
  | None => ret tt
  end.

(** A field access through a pointer. *)
Definition deref {A} (p : option A) : M A :=
  match p with
  | Some a => ret a
  | None => panic "invalid memory address or nil pointer dereference"
  end.

Definition errMissingRequest : gerror := StatusError InvalidArgument "missing request".

(** ** Validation *)

Definition hasMountAccess (caps : list VolumeCapability) : bool :=
  foldl (λ accessTypeMount cap, match GetMount cap with Some _ => true | None => accessTypeMount end) false caps.

Definition validateCreateVolumeRequest (req : option CreateVolumeRequest) : option gerror :=
  match req with
  | None => Some errMissingRequest
  | Some req =>
      if len (cv_Name req) =? 0 then Some (StatusError InvalidArgument "name missing in request")
      else match cv_VolumeCapabilities req with
           | None => Some (StatusError InvalidArgument "volume capabilities missing in request")
           | Some caps =>
               if negb (hasMountAccess caps)
               then Some (StatusError InvalidArgument "must have mount access type")
               else None
           end
  end.

(** [t.Segments[TopologyKeyNode] == nodeID]: a missing key reads as "". *)
Definition onNode (nodeID : string) (t : Topology) : bool :=
  bool_decide (default "" (Segments t !! TopologyKeyNode) = nodeID).

Definition validateCreateVolumeRequestTopology (hpc : hostPathController)
    (req : CreateVolumeRequest) : option gerror :=
  match cv_AccessibilityRequirements req with
  | Some r =>
      if existsb (onNode (NodeID (cfg hpc))) (Requisite r) then None
      else if existsb (onNode (NodeID (cfg hpc))) (Preferred r) then None
      else Some (StatusError InvalidArgument "not correct node")
  | None => None
  end.

Definition validateDeleteVolumeRequest (req : option string) : option gerror :=
  match req with
  | None => Some errMissingRequest
  | Some volumeId =>
      if len volumeId =? 0 then Some (StatusError InvalidArgument "Volume ID missing in request")
      else None
  end.

Definition validateListVolumesRequest (req : option ListVolumesRequest) : option gerror :=
  match req with
  | None => Some errMissingRequest
  | Some req =>
      if lv_MaxEntries req <? 0 then Some (StatusError InvalidArgument "maxEntries < 0") else None
  end.

Definition validateCreateSnapshotRequest (req : option CreateSnapshotRequest) : option gerror :=
  match req with
  | None => Some (StatusError InvalidArgument "missing snapshot request")
  | Some req =>
      if len (cs_Name req) =? 0
      then Some (StatusError InvalidArgument "name missing in snapshot request")
      else if len (cs_SourceVolumeId req) =? 0
      then Some (StatusError InvalidArgument "source volume id missing in snapshot request")
      else None
  end.

(** ** Capabilities *)

Definition getControllerServiceCapabilities : list ControllerRPC :=
  [CREATE_DELETE_VOLUME; GET_VOLUME; GET_CAPACITY; LIST_VOLUMES; CREATE_DELETE_SNAPSHOT;
   LIST_SNAPSHOTS; CONTROLLER_VOLUME_CONDITION].

Definition ControllerGetCapabilities : M (list ControllerRPC) :=
  ret getControllerServiceCapabilities.

Section ops.
Context `{!Env}.

(** ** Construction *)

(** The loop body of [NewHostPathController]: [*SnapshotPath] panics when it
    is nil, [klog.Fatalf] ends the process. *)
Definition addProvider (config : Config) (snapshotProviders : gmap string SnapshotProvider)
    (kv : string * StoragePoolInfo) : M (gmap string SnapshotProvider) :=
  let '(storagePool, info) := kv in
  match Utils.SnapshotProvider info with
  | None => ret snapshotProviders
  | Some provider =>
      if decide (provider = ReflinkProvider) then
        snapshotPath <- deref (SnapshotPath info) ;;
        ret (<[storagePool := reflinkProvider
                 {| path := snapshotPath; nodeName := NodeID config; sourcePath := Path info |}]>
               snapshotProviders)
      else panic ("Unsupported snapshot provider " +:+ provider +:+ " for storage pool " +:+ storagePool)
  end.

Definition NewHostPathController (config : Config) : M hostPathController :=
  pools <- range_map (StoragePools config) ;;
  snapshotProviders <- foldM (addProvider config) ∅ pools ;;
  ret {| cfg := config; snapshotproviders := snapshotProviders |}.

(** ** Volumes *)

Definition getVolumeDirCapacity (path : string) : M Z :=
  stats <- wrapErr (λ err, StatusError Internal
             ("Unable to determine capacity for volume " +:+ Base path +:+ ": " +:+ Error err))
             (getPVStats path) ;;
  ret (roundDownCapacityPretty (st_capacity stats)).

Definition restoreFromSnapshot (hpc : hostPathController)
    (snapshotId storagePoolName targetVolume : string) : M unit :=
  match snapshotproviders hpc !! storagePoolName with
  | None =>
      fail (ErrorString ("unable to restore snapshot because unable to locate snapshot provider for storage pool "
                         +:+ storagePoolName))
  | Some provider =>
      sp_RestoreSnapshot provider snapshotId
        (Join [Path (getPool (cfg hpc) storagePoolName); targetVolume])
  end.

(** The volume content source: a failed restore deletes the volume. *)
Definition populateVolume (hpc : hostPathController) (storagePoolName : string)
    (req : CreateVolumeRequest) : M unit :=
  match cv_VolumeContentSource req with
  | Some (FromSnapshot (Some snapshotId)) =>
      r <- try (restoreFromSnapshot hpc snapshotId storagePoolName (cv_Name req)) ;;
      match r with
      | inl _ => ret tt
      | inr err =>
          wrapErr (λ derr, WrapError ("failed to delete restore " +:+ cv_Name req +:+ ": " +:+ Error derr) derr)
            (Utils.DeleteVolume (Path (getPool (cfg hpc) storagePoolName)) (cv_Name req)) >>
          fail err
      end
  | _ => ret tt
  end.

Definition CreateVolume (hpc : hostPathController) (req : option CreateVolumeRequest) : M Volume :=
  checkErr (validateCreateVolumeRequest req) >>
  req <- deref req ;;
  checkErr (validateCreateVolumeRequestTopology hpc req) >>
  let storagePoolName := getStoragePoolNameFromMap (cv_Parameters req) in
  match StoragePools (cfg hpc) !! storagePoolName with
  | None => fail (ErrorString ("unable to locate path for storage pool " +:+ storagePoolName))
  | Some pool =>
      capacity <- getVolumeDirCapacity (Path pool) ;;
      let topologies :=
        if Shared pool then []
        else [{| Segments := {[ TopologyKeyNode := NodeID (cfg hpc) ]} |}] in
      exists_ <- checkPathExistFunc (Join [Path pool; cv_Name req]) ;;
      (if (exists_ : bool) then ret tt
       else wrapErr (λ err, WrapError ("failed to create volume " +:+ cv_Name req +:+ ": " +:+ Error err) err)
              (createVolumeDirectoryFunc (Path pool) (cv_Name req))) >>
      populateVolume hpc storagePoolName req >>
      ret {| v_VolumeId := cv_Name req; v_CapacityBytes := capacity;
             v_VolumeContext := cv_Parameters req; v_ContentSource := cv_VolumeContentSource req;
             v_AccessibleTopology := topologies |}
  end.

Definition getVolumeDirectories (hpc : hostPathController) : M (list string) :=
  getStoragePoolDataDirectories (StoragePools (cfg hpc)).

(** [for _, volumeDir := range volumeDirs { if filepath.Base(volumeDir) == id
    { volumePath = volumeDir } }]: the last match, "" without one. *)
Definition findVolumePath (volumeId : string) (volumeDirs : list string) : string :=
  foldl (λ volumePath volumeDir, if decide (Base volumeDir = volumeId) then volumeDir else volumePath)
    "" volumeDirs.

Definition DeleteVolume (hpc : hostPathController) (req : option string) : M unit :=
  checkErr (validateDeleteVolumeRequest req) >>
  volumeId <- deref req ;;
  volumeDirs <- getVolumeDirectories hpc ;;
  let volumePath := findVolumePath volumeId volumeDirs in
  if decide (volumePath = "") then ret tt
  else wrapErr (λ err, ErrorString ("failed to delete volume " +:+ volumeId +:+ ": " +:+ Error err))
         (Utils.DeleteVolume (Dir volumePath) volumeId).

Definition ValidateVolumeCapabilities (hpc : hostPathController)
    (req : option ValidateVolumeCapabilitiesRequest) : M ValidateVolumeCapabilitiesResponse_Confirmed :=
  if len (default "" (vc_VolumeId <$> req)) =? 0
  then fail (StatusError InvalidArgument "volume ID not provided")
  else
    req <- deref req ;;
    if bool_decide (vc_VolumeCapabilities req = [])
    then fail (StatusError InvalidArgument ("volumeCapabilities not provided for " +:+ vc_VolumeId req))
    else if negb (forallb (λ cap, match GetMount cap with Some _ => true | None => false end)
                    (vc_VolumeCapabilities req))
    then fail (StatusError InvalidArgument "mount type is undefined")
    else
      let storagePoolName := getStoragePoolNameFromMap (vc_Parameters req) in
      exists_ <- checkPathExistFunc
                   (Join [Path (getPool (cfg hpc) storagePoolName); vc_VolumeId req]) ;;
      if (exists_ : bool) then
        ret {| co_VolumeContext := vc_VolumeContext req;
               co_VolumeCapabilities := vc_VolumeCapabilities req;
               co_Parameters := vc_Parameters req |}
      else fail (StatusError NotFound ("volume " +:+ vc_VolumeId req +:+ " not found")).

(** The RPCs the driver refuses. *)
Definition ControllerPublishVolume : M unit :=
  fail (StatusError Unimplemented "ControllerPublishVolume is not supported").
Definition ControllerUnpublishVolume : M unit :=
  fail (StatusError Unimplemented "ControllerUnpublishVolume is not supported").
Definition ControllerExpandVolume : M unit :=
  fail (StatusError Unimplemented "controllerExpandVolume is not supported").
Definition ControllerModifyVolume : M unit :=
  fail (StatusError Unimplemented "controllerModifyVolume is not supported").

(** The parameters are the only field of the request that is read. *)
Definition GetCapacity (hpc : hostPathController) (req : option (gmap string string))
    : M GetCapacityResponse :=
  match req with
  | None => fail errMissingRequest
  | Some params =>
      let storagePoolName := getStoragePoolNameFromMap params in
      match StoragePools (cfg hpc) !! storagePoolName with
      | None => fail (ErrorString ("unable to locate path for storage pool " +:+ storagePoolName))
      | Some pool =>
          stats <- getPVStats (Path pool) ;;
          ret {| gc_AvailableCapacity := st_available stats;
                 gc_MaximumVolumeSize := st_capacity stats;
                 gc_MinimumVolumeSize := 0 |}
      end
  end.

(** ** Listing volumes *)

(** The capacity of every pool, by the path of the pool. *)
Definition addCapacity (capacityMap : gmap string Z) (kv : string * StoragePoolInfo)
    : M (gmap string Z) :=
  capacity <- getVolumeDirCapacity (Path kv.2) ;;
  ret (<[Path kv.2 := capacity]> capacityMap).

Definition poolCapacities (hpc : hostPathController) : M (gmap string Z) :=
  pools <- range_map (StoragePools (cfg hpc)) ;;
  foldM addCapacity ∅ pools.

(** What is reported of one volume directory. *)
Definition volumeEntry (hpc : hostPathController) (capacityMap : gmap string Z)
    (volumeId volumePath : string) : M VolumeEntry :=
  health <- doHealthCheckInControllerSide volumePath ;;
  ret {| ve_Volume := {| v_VolumeId := volumeId;
                         v_CapacityBytes := default 0 (capacityMap !! Dir volumePath);
                         v_VolumeContext := ∅; v_ContentSource := None;
                         v_AccessibleTopology := [] |};
         ve_PublishedNodeIds := [NodeID (cfg hpc)];
         ve_VolumeCondition := {| Abnormal := negb health.1; Message := health.2 |} |}.

Definition appendEntry (hpc : hostPathController) (capacityMap : gmap string Z)
    (entries : list VolumeEntry) (volumeDir : string) : M (list VolumeEntry) :=
  entry <- volumeEntry hpc capacityMap (Base volumeDir) volumeDir ;;
  ret (entries ++ [entry]).

(** [l[start:end]]: panics unless [0 <= start <= end <= len(l)]. *)
Definition slice {A} (l : list A) (lo hi : Z) : M (list A) :=
  if (0 <=? lo) && (lo <=? hi) && (hi <=? Z.of_nat (length l))
  then ret (take (Z.to_nat (hi - lo)) (drop (Z.to_nat lo) l))
  else panic "slice bounds out of range".

(** [filepath.Base(volumeDirs[i])]. *)
Definition baseAt (l : list string) (i : Z) : M string :=
  match (if 0 <=? i then l !! Z.to_nat i else None) with
  | Some d => ret (Base d)
  | None => panic "index out of range"
  end.

(** The page of a non-empty listing that starts at a token. *)
Definition volumePage (hpc : hostPathController) (capacityMap : gmap string Z)
    (volumeDirs : list string) (startingToken : string) (maxEntries : Z) : M ListVolumesResponse :=
  let volumesLength := Z.of_nat (length volumeDirs) in
  let maxLength := if maxEntries =? 0 then volumesLength else maxEntries in
  let start := IndexOfStartingToken startingToken volumeDirs in
  if start =? -1 then
    fail (StatusError InvalidArgument ("volume " +:+ startingToken +:+ " not found"))
  else
    let end0 := int64 (start + maxLength) in
    let end_ := if volumesLength <? end0 then volumesLength else end0 in
    page <- slice volumeDirs start end_ ;;
    entries <- foldM (appendEntry hpc capacityMap) [] page ;;
    nextToken <- (if end_ <? volumesLength - 1 then baseAt volumeDirs end_ else ret "") ;;
    ret {| lv_Entries := entries; lv_NextToken := nextToken |}.

(** The rest of [ListVolumes] once the pools have been read. *)
Definition listFrom (hpc : hostPathController) (token : string) (maxEntries : Z)
    (capacityMap : gmap string Z) (volumeDirs : list string) : M ListVolumesResponse :=
  if bool_decide (token ≠ "") && bool_decide (ParseUint 32 token = None) then
    fail (StatusError Aborted "the type of startingToken should be integer")
  else
    match volumeDirs with
    | firstDir :: _ =>
        volumePage hpc capacityMap volumeDirs
          (if decide (token = "") then Base firstDir else token) maxEntries
    | [] =>
        if decide (token = "") then ret {| lv_Entries := []; lv_NextToken := "" |}
        else fail (StatusError Aborted ("volume " +:+ token +:+ " not found"))
    end.

Definition ListVolumes (hpc : hostPathController) (req : option ListVolumesRequest)
    : M ListVolumesResponse :=
  checkErr (validateListVolumesRequest req) >>
  req <- deref req ;;
  capacityMap <- poolCapacities hpc ;;
  volumeDirs <- getVolumeDirectories hpc ;;
  listFrom hpc (lv_StartingToken req) (lv_MaxEntries req) capacityMap volumeDirs.

Definition ControllerGetVolume (hpc : hostPathController) (req : option string) : M VolumeEntry :=
  match req with
  | None => fail errMissingRequest
  | Some volumeId =>
      if decide (volumeId = "") then fail (StatusError InvalidArgument "volume ID not provided")
      else
        capacityMap <- poolCapacities hpc ;;
        volumeDirs <- getVolumeDirectories hpc ;;
        let volumePath := findVolumePath volumeId volumeDirs in
        if decide (volumePath = "")
        then fail (StatusError NotFound ("volume " +:+ volumeId +:+ " not found"))
        else volumeEntry hpc capacityMap volumeId volumePath
  end.

(** ** Snapshots *)

Definition CreateSnapshot (hpc : hostPathController) (req : option CreateSnapshotRequest)
    : M Snapshot :=
  checkErr (validateCreateSnapshotRequest req) >>
  req <- deref req ;;
  let storagePoolName := getStoragePoolNameFromMap (cs_Parameters req) in
  match StoragePools (cfg hpc) !! storagePoolName with
  | None =>
      fail (ErrorString ("unable to locate volumesnapshot path for storage pool " +:+ storagePoolName))
  | Some pool =>
      match SnapshotPath pool, snapshotproviders hpc !! storagePoolName with
      | None, _ => fail (ErrorString ("volumesnapshot path not set for storage pool " +:+ storagePoolName))
      | Some _, None => fail (ErrorString ("snapshot provider not set for storage pool " +:+ storagePoolName))
      | Some snapshotPath, Some provider =>
          exists_ <- checkPathExistFunc snapshotPath ;;
          (if (exists_ : bool) then ret tt
           else wrapErr (λ err, ErrorString ("failed to initialize snapshot storage pool " +:+ Error err))
                  (sp_Initialize provider)) >>
          found <- wrapErr (λ err, ErrorString ("getsnapshot by id failed, " +:+ Error err))
                     (sp_GetSnapshotById provider (cs_Name req)) ;;
          match found with
          | Some snapshot =>
              if decide (SourceVolumeId snapshot = cs_SourceVolumeId req) then ret snapshot
              else fail (StatusError AlreadyExists
                     ("snapshot with the same name: " +:+ cs_Name req +:+
                      " but with different SourceVolumeId already exist"))
          | None => sp_CreateSnapshot provider (cs_Name req) (cs_SourceVolumeId req)
          end
      end
  end.

Definition DeleteSnapshot (hpc : hostPathController) (req : option string) : M unit :=
  match req with
  | None => fail errMissingRequest
  | Some snapshotId =>
      if len snapshotId =? 0 then fail (StatusError InvalidArgument "snapshot id missing in request")
      else
        providers <- range_map (snapshotproviders hpc) ;;
        foldM (λ _ kv, sp_DeleteSnapshot kv.2 snapshotId) tt providers
  end.

(** The snapshots one provider contributes to a listing. *)
Definition providerSnapshots (req : ListSnapshotsRequest) (snapshots : list Snapshot)
    (kv : string * SnapshotProvider) : M (list Snapshot) :=
  if negb (len (ls_SnapshotId req) =? 0) then
    snapshot <- sp_GetSnapshotById kv.2 (ls_SnapshotId req) ;;
    ret (match snapshot with Some s => snapshots ++ [s] | None => snapshots end)
  else if negb (len (ls_SourceVolumeId req) =? 0) then
    snapshotsByVolume <- sp_GetSnapshotsByVolumeSourceId kv.2 (ls_SourceVolumeId req) ;;
    ret (snapshots ++ snapshotsByVolume)
  else
    allProviderSnapshots <- sp_GetAllSnapshots kv.2 ;;
    ret (snapshots ++ allProviderSnapshots).

(** The page of a non-empty listing: [start - 1] is computed on [uint64]. *)
Definition snapshotPage (snapshots : list Snapshot) (startingToken : string) (maxEntries : Z)
    : M ListSnapshotsResponse :=
  let token := if decide (startingToken = "" ∨ startingToken = "0") then "1" else startingToken in
  let snapshotLength := Z.of_nat (length snapshots) in
  let maxLength := if maxEntries =? 0 then snapshotLength else maxEntries in
  match ParseUint 32 token with
  | None => fail (StatusError Aborted "the type of startingToken should be integer")
  | Some start0 =>
      let start := uint64 (start0 - 1) in
      let end0 := int64 (int64 start + maxLength) in
      let end_ := if snapshotLength <? end0 then snapshotLength else end0 in
      page <- slice snapshots start end_ ;;
      ret {| ls_Entries := page;
             ls_NextToken := if end_ <? snapshotLength - 1 then FormatInt (end_ + 1) else "" |}
  end.

(** What all providers contribute, in the order the map is ranged over. *)
Definition collectSnapshots (hpc : hostPathController) (req : ListSnapshotsRequest)
    : M (list Snapshot) :=
  providers <- range_map (snapshotproviders hpc) ;;
  foldM (providerSnapshots req) [] providers.

Definition ListSnapshots (hpc : hostPathController) (req : option ListSnapshotsRequest)
    : M ListSnapshotsResponse :=
  match req with
  | None => fail errMissingRequest
  | Some req =>
      snapshots <- collectSnapshots hpc req ;;
      match snapshots with
      | _ :: _ => snapshotPage snapshots (ls_StartingToken req) (ls_MaxEntries req)
      | [] =>
          if decide (ls_StartingToken req = "") then ret {| ls_Entries := []; ls_NextToken := "" |}
          else fail (StatusError Aborted ("snapshot " +:+ ls_StartingToken req +:+ " not found"))
      end
  end.
End ops.
