(* ===== verification/FindMnt.v ===== *)
(** * The users of findmnt in pkg/hostpath

    Mount information as the [findmnt] program reports it (healthcheck.go and
    utils.go): the health check on the node side and the metric that tells
    whether a pool shares its file system with the operating system. *)
From Stdlib Require Import Ascii.
From S2P Require Import Prelude GoStrings GoFloat GoPath GoErrors OS OSFacts Demo Json Metrics Csi Utils Health.
Open Scope Z_scope.

(** What a run of the program gives: it may be missing from the path, fail, or
    print a text. *)
Inductive FindmntResult : Type :=
  | FmMissing
  | FmExit (msg : string)
  | FmOutput (text : string).

(** The program: the run number [n], the mount table and the arguments. *)
Class FindMnt := findmnt : nat → list MountPoint → list string → FindmntResult.

(** ** Mount information *)

Record MountPointInfo := {
  mi_Target : string;
  mi_Source : string;
  mi_FsType : string;
  mi_Options : string;
}.

Definition zeroMountPointInfo : MountPointInfo :=
  {| mi_Target := ""; mi_Source := ""; mi_FsType := ""; mi_Options := "" |}.

Definition mountPointField (key : string) (v : json) (m : MountPointInfo) : MountPointInfo * bool :=
  let '{| mi_Target := t; mi_Source := s; mi_FsType := f; mi_Options := o |} := m in
  if selects key "target" then prod_map (λ x, {| mi_Target := x; mi_Source := s; mi_FsType := f; mi_Options := o |}) id (decodeString v t)
  else if selects key "source" then prod_map (λ x, {| mi_Target := t; mi_Source := x; mi_FsType := f; mi_Options := o |}) id (decodeString v s)
  else if selects key "fstype" then prod_map (λ x, {| mi_Target := t; mi_Source := s; mi_FsType := x; mi_Options := o |}) id (decodeString v f)
  else if selects key "options" then prod_map (λ x, {| mi_Target := t; mi_Source := s; mi_FsType := f; mi_Options := x |}) id (decodeString v o)
  else (m, true).

(** [FileSystems] has the one field "filesystems". *)
Definition fileSystemsField (key : string) (v : json) (old : list MountPointInfo)
    : list MountPointInfo * bool :=
  if selects key "filesystems" then decodeSlice (decodeStruct mountPointField zeroMountPointInfo) v
  else (old, true).

(** The text of a JSON error is not modelled beyond being one. *)
Definition parseMountInfo (originalMountInfo : string) : gerror + list MountPointInfo :=
  match Unmarshal (decodeStruct fileSystemsField []) originalMountInfo with
  | None => inl (ErrorString "json error")
  | Some [] => inl (ErrorString "failed to get mount info")
  | Some l => inr l
  end.

Section ops.
Context `{!Env, !FindMnt}.

Definition getMountInfos (args : list string) : M (list MountPointInfo) := reads (λ n w,
  match findmnt n (w_mounts w) (args ++ ["--json"]) with
  | FmMissing => Fail (WrapError "findmnt not found: executable file not found in $PATH"
                         (ErrorString "executable file not found in $PATH"))
  | FmExit msg => Fail (ErrorString msg)
  | FmOutput out =>
      if len out <? 1 then Fail (ErrorString "mount point info is nil")
      else match parseMountInfo out with
           | inl err => Fail (ErrorString ("failed to parse the mount infos: " +:+ Error err))
           | inr mountInfos => Ret mountInfos
           end
  end).

(** ** The health check on the node side *)

Definition checkMountPointExist (volumePath : string) : M bool :=
  mountInfos <- getMountInfos [volumePath] ;;
  ret (existsb (λ m, String.eqb (mi_Target m) volumePath) mountInfos).

Definition doHealthCheckInNodeSide (volumePath : string) : M (bool * string) :=
  r <- try (checkMountPointExist volumePath) ;;
  match r with
  | inr err => ret (false, Error err)
  | inl mpExist =>
      if negb mpExist then ret (false, "The volume isn't mounted")
      else checkIfSpaceAvailable volumePath
  end.

(** ** The shared-path metric *)

Definition csiSocketDir : string := "/csi".

Definition checkVolumePathSharedWithOS (volumePath : string) : M bool :=
  r1 <- try (getMountInfos ["-T"; volumePath]) ;;
  match r1 with
  | inr _ => ret false
  | inl mountInfosForPath =>
      r2 <- try (getMountInfos ["-T"; csiSocketDir]) ;;
      match r2 with
      | inr _ => ret false
      | inl mountInfosForCsiSocketDir =>
          match mountInfosForPath, mountInfosForCsiSocketDir with
          | [p], [c] => ret (String.eqb (extractDeviceFromMountInfoSource (mi_Source p))
                               (extractDeviceFromMountInfoSource (mi_Source c)))
          | _, _ => ret false
          end
      end
  end.

(** The loop body over the pools. *)
Definition poolShared (pathShared : bool) (kv : string * StoragePoolInfo) : M bool :=
  s1 <- checkVolumePathSharedWithOS (Path kv.2) ;;
  s2 <- match SnapshotPath kv.2 with
        | Some sp => checkVolumePathSharedWithOS sp
        | None => ret false
        end ;;
  ret (pathShared || s1 || s2).

Definition evaluateSharedPathMetric (storagePoolDataDir : gmap string StoragePoolInfo) : M unit :=
  pools <- range_map storagePoolDataDir ;;
  pathShared <- foldM poolShared false pools ;;
  SetPoolPathSharedWithOs (if (pathShared : bool) then 1 else 0).
End ops.

(** ** Facts *)

Section facts.
Context `{!Env, !FindMnt}.

Lemma respects_getMountInfos R `{!PreOrder R, !TickInv R} args : respects R (getMountInfos args).
Proof. unfold getMountInfos. auto with go. Qed.
Hint Resolve respects_getMountInfos : go.

Lemma respects_nodeHealth R `{!PreOrder R, !TickInv R} s : respects R (doHealthCheckInNodeSide s).
Proof. unfold doHealthCheckInNodeSide, checkMountPointExist. respects_tac. Qed.

Lemma respects_shared R `{!PreOrder R, !TickInv R} s : respects R (checkVolumePathSharedWithOS s).
Proof. unfold checkVolumePathSharedWithOS. respects_tac. Qed.

(** What a run of the program comes to. *)
Definition infosOf (n : nat) (ms : list MountPoint) (args : list string) : outcome gerror (list MountPointInfo) :=
  (getMountInfos args (World ∅ ms n 0)).1.

Lemma getMountInfos_run args w :
  getMountInfos args w = (infosOf (w_tick w) (w_mounts w) args, tickw w).
Proof. done. Qed.

Lemma infosOf_no_panic n ms args p : infosOf n ms args ≠ Panic p.
Proof. unfold infosOf, getMountInfos, reads. simpl. by repeat case_match. Qed.

(** Two answers name the same device. *)
Definition sameDevice (a b : outcome gerror (list MountPointInfo)) : bool :=
  match a, b with
  | Ret [p], Ret [c] => String.eqb (extractDeviceFromMountInfoSource (mi_Source p))
                          (extractDeviceFromMountInfoSource (mi_Source c))
  | _, _ => false
  end.

(** The program answers the same at any time. *)
Definition stable_findmnt : Prop := ∀ n m ms args, findmnt n ms args = findmnt m ms args.

Definition sharedWithOS (ms : list MountPoint) (s : string) : bool :=
  sameDevice (infosOf 0 ms ["-T"; s]) (infosOf 0 ms ["-T"; csiSocketDir]).

Lemma infosOf_stable n m ms args : stable_findmnt → infosOf n ms args = infosOf m ms args.
Proof. intros Hst. unfold infosOf, getMountInfos, reads. simpl. by rewrite (Hst n m). Qed.

Lemma checkShared_run s w :
  stable_findmnt →
  ∃ w', checkVolumePathSharedWithOS s w = (Ret (sharedWithOS (w_mounts w) s), w') ∧ quiet w w'.
Proof.
  intros Hst. pose proof (respects_shared quiet s w) as Hq. revert Hq.
  unfold checkVolumePathSharedWithOS, bind, try. rewrite getMountInfos_run. unfold sharedWithOS.
  rewrite (infosOf_stable _ 0) by done.
  pose proof (infosOf_no_panic 0 (w_mounts w) ["-T"; s]) as Hnp1.
  pose proof (infosOf_no_panic 0 (w_mounts w) ["-T"; csiSocketDir]) as Hnp2.
  destruct (infosOf 0 (w_mounts w) ["-T"; s]) as [l1|e1|p1]; [|by eexists|by destruct (Hnp1 p1)].
  rewrite getMountInfos_run, (infosOf_stable _ 0) by done. simpl.
  destruct (infosOf 0 (w_mounts w) ["-T"; csiSocketDir]) as [l2|e2|p2]; simpl;
    [|by destruct l1 as [|? []]; eexists|by destruct (Hnp2 p2)].
  destruct l1 as [|? []], l2 as [|? []]; simpl; by eexists.
Qed.

(** The pools that share a device with the driver's own directory. *)
Definition poolSharedSpec (ms : list MountPoint) (info : StoragePoolInfo) : bool :=
  sharedWithOS ms (Path info) || match SnapshotPath info with Some sp => sharedWithOS ms sp | None => false end.

Lemma poolShared_run b kv w :
  stable_findmnt →
  ∃ w', poolShared b kv w = (Ret (b || poolSharedSpec (w_mounts w) kv.2), w') ∧ quiet w w'.
Proof.
  intros Hst. unfold poolShared, poolSharedSpec.
  destruct (checkShared_run (Path kv.2) w Hst) as (w1&Hr1&Hq1). run_ret Hr1.
  destruct (SnapshotPath kv.2) as [sp|].
  - destruct (checkShared_run sp w1 Hst) as (w2&Hr2&Hq2). run_ret Hr2. exists w2.
    assert (w_mounts w1 = w_mounts w) as -> by apply Hq1. rewrite orb_assoc. split; [done|]. by etransitivity.
  - erewrite run_bind_ret by done. exists w1. by rewrite orb_assoc.
Qed.

Lemma evaluate_run m w :
  stable_findmnt →
  ∃ w', evaluateSharedPathMetric m w = (Ret tt, w') ∧ w_fs w' = w_fs w ∧ w_mounts w' = w_mounts w ∧
    int_of_float64 (GetPoolPathSharedWithOs w') =
      Some (if existsb (λ kv : string * StoragePoolInfo, poolSharedSpec (w_mounts w) kv.2) (map_to_list m)
            then 1 else 0).
Proof.
  intros Hst. unfold evaluateSharedPathMetric.
  set (l := range_order _ (w_tick w) m).
  assert (∀ b w1, quiet w w1 → ∃ w', foldM poolShared b l w1 =
    (Ret (b || existsb (λ kv : string * StoragePoolInfo, poolSharedSpec (w_mounts w) kv.2) l), w') ∧ quiet w w') as Hgen.
  { induction l as [|kv l' IH]; intros b w1 Hq; [exists w1; by rewrite orb_false_r|]. cbn [foldM existsb].
    destruct (poolShared_run b kv w1 Hst) as (w2&Hr&Hq2). run_ret Hr.
    assert (w_mounts w1 = w_mounts w) as -> by apply Hq.
    destruct (IH (b || poolSharedSpec (w_mounts w) kv.2) w2) as (w3&->&Hq3); [by etransitivity|].
    exists w3. by rewrite orb_assoc. }
  erewrite run_bind_ret by (unfold range_map, reads; reflexivity). fold l.
  destruct (Hgen false (tickw w)) as (w'&Hrun&(Hfs&Hm&_)); [done|]. run_ret Hrun.
  eexists. split; [reflexivity|]. simpl (w_fs _). simpl (w_mounts _). rewrite Hfs, Hm. split_and!; [done..|].
  rewrite (existsb_perm _ l (map_to_list m)) by apply range_order_perm.
  apply (gauge_roundtrip _ w'). by case_match.
Qed.
End facts.

(** A program that prints one file system on "/dev/sda1" for every path. *)
Definition demoFindmntText : string :=
  "{" +:+ q "filesystems" +:+ ": [{" +:+ q "target" +:+ ": " +:+ q "/" +:+ ", " +:+ q "source" +:+ ": "
  +:+ q "/dev/sda1[/x]" +:+ ", " +:+ q "fstype" +:+ ": " +:+ q "ext4" +:+ "}]}".
Definition demoFindmnt : FindMnt := λ _ _ _, FmOutput demoFindmntText.

(** C35: One evaluation of the metric sets it to 1 exactly when some pool path or snapshot path
    lies on the device that holds the driver's socket directory, and to 0 otherwise, whatever
    order the pools are visited in; paths findmnt cannot tell about count as not shared. *)
Theorem shared_metric_exact `{!Env, !FindMnt} m w :
  stable_findmnt →
  ∃ w', evaluateSharedPathMetric m w = (Ret tt, w') ∧ w_fs w' = w_fs w ∧ w_mounts w' = w_mounts w ∧
    (int_of_float64 (GetPoolPathSharedWithOs w') = Some 0 ∨ int_of_float64 (GetPoolPathSharedWithOs w') = Some 1) ∧
    (int_of_float64 (GetPoolPathSharedWithOs w') = Some 1 ↔ ∃ pool info, m !! pool = Some info ∧
       (sharedWithOS (w_mounts w) (Path info) = true ∨
        ∃ sp, SnapshotPath info = Some sp ∧ sharedWithOS (w_mounts w) sp = true)).
Proof.
  intros Hst. destruct (evaluate_run m w Hst) as (w'&Hrun&Hfs&Hm&Hg). exists w'. split_and!; [done..| |].
  { rewrite Hg. case_match; auto. }
  rewrite Hg. destruct (existsb _ _) eqn:He.
  - split; [intros _|done]. apply existsb_exists in He as ([pool info]&Hin&Hs).
    exists pool, info. split; [by apply elem_of_map_to_list, list_elem_of_In|].
    unfold poolSharedSpec in Hs. simpl in Hs. apply orb_true_iff in Hs as [?|Hs]; [by left|].
    right. destruct (SnapshotPath info); [by eexists|done].
  - split; [done|]. intros (pool&info&Hp&Hs). exfalso. apply not_true_iff_false in He. apply He.
    apply existsb_exists. exists (pool, info).
    split; [by apply list_elem_of_In, elem_of_map_to_list|]. unfold poolSharedSpec. simpl.
    apply orb_true_iff. destruct Hs as [?|(sp&->&?)]; auto.
Qed.

Lemma shared_metric_exact_witness :
  ∃ w', @evaluateSharedPathMetric calmEnv demoFindmnt
          {[ "local" := {| Name := "local"; Path := "/data"; SnapshotPath := None;
                           SnapshotProvider := None; Shared := false |} ]}
          (World ∅ [] 0 0) = (Ret tt, w') ∧ int_of_float64 (GetPoolPathSharedWithOs w') = Some 1.
Proof.
  destruct (@shared_metric_exact calmEnv demoFindmnt
    {[ "local" := {| Name := "local"; Path := "/data"; SnapshotPath := None;
                     SnapshotProvider := None; Shared := false |} ]} (World ∅ [] 0 0))
    as (w'&Hrun&_&_&_&Hg); [done|].
  exists w'. split; [done|]. apply Hg. do 2 eexists. split; [apply lookup_singleton_eq|].
  left. vm_compute. reflexivity.
Defined.
