(* ===== verification/NodeServer.v ===== *)
(** * pkg/hostpath/nodeserver.go

    The CSI node service: publishing a volume binds its directory at the target
    path, unpublishing takes the mount away and removes the target. *)
From S2P Require Import Prelude GoStrings GoPath GoErrors OS OSFacts Mount Csi Utils Health Reflink.
From S2P Require Import ControllerServer FindMnt.
Open Scope Z_scope.

Definition ephemeralContextKey : string := "csi.storage.k8s.io/ephemeral".

(** The configuration, with its mounter. *)
Record hostPathNode := {
  hpn_cfg : Config;
  hpn_Mounter : Mounter;
}.

Definition NewHostPathNode (config : Config) (mounter : Mounter) : hostPathNode :=
  {| hpn_cfg := config; hpn_Mounter := mounter |}.

(** ** Validation *)

Definition validateRequestCapabilties (req : option NodePublishVolumeRequest) : option gerror :=
  match req with
  | None => Some errMissingRequest
  | Some req =>
      if len (np_VolumeId req) =? 0 then Some (StatusError InvalidArgument "volume ID not provided")
      else if decide (np_TargetPath req = "")
      then Some (StatusError InvalidArgument "target path not provided")
      else match np_VolumeCapability req with
           | None => Some (StatusError InvalidArgument "volume capability not provided")
           | Some _ => None
           end
  end.

(** The getters of a nil message give zero values. *)
Definition validateNodePublishRequest (req : option NodePublishVolumeRequest) : option gerror :=
  match validateRequestCapabilties req with
  | Some err => Some err
  | None =>
      let cap := req ≫= np_VolumeCapability in
      if default false (GetBlock <$> cap)
      then Some (StatusError InvalidArgument "cannot publish a non-block volume as block volume")
      else match cap ≫= GetMount with
           | None => Some (StatusError InvalidArgument "can only publish a non-block volume")
           | Some _ => None
           end
  end.

Definition validateNodeUnpublishRequest (req : option NodeUnpublishVolumeRequest) : option gerror :=
  if len (default "" (nu_VolumeId <$> req)) =? 0
  then Some (StatusError InvalidArgument "volume ID not provided")
  else if len (default "" (nu_TargetPath <$> req)) =? 0
  then Some (StatusError InvalidArgument "target path not provided")
  else None.

Definition validateNodeGetVolumeStatsRequest (req : option NodeGetVolumeStatsRequest) : option gerror :=
  if len (default "" (ns_VolumeId <$> req)) =? 0
  then Some (StatusError InvalidArgument "volume ID not provided")
  else if len (default "" (ns_VolumePath <$> req)) =? 0
  then Some (StatusError InvalidArgument "volume path not provided")
  else None.

(** ** Ephemeral volumes *)

Definition isEphemeralVolumeRequest (req : NodePublishVolumeRequest) : bool :=
  bool_decide (default "" (np_VolumeContext req !! ephemeralContextKey) = "true").

Definition isEphemeralVolumeId (volumeId : string) : bool := HasPrefix volumeId "csi".

Definition getEphemeralVolumePath (hpn : hostPathNode) (storagePoolName volumeId : string) : string :=
  let storagePoolPath := Path (getPool (hpn_cfg hpn) storagePoolName) in
  let storagePoolPath :=
    if len storagePoolPath =? 0
    then Path (getPool (hpn_cfg hpn) (DefaultStoragePoolName (hpn_cfg hpn)))
    else storagePoolPath in
  Join [storagePoolPath; volumeId].

Section ops.
Context `{!Env}.

(** ** Publishing *)

Definition canMountVolume (hpn : hostPathNode) (targetPath : string) : M bool :=
  r <- try (IsNotMountPoint (hpn_Mounter hpn) targetPath) ;;
  match r with
  | inr err =>
      if os_IsNotExist err then
        wrapErr (λ e, WrapError ("create target path: " +:+ Error e) e) (os_Mkdir targetPath) >>
        ret true
      else fail (WrapError ("check target path: " +:+ Error err) err)
  | inl notMnt => ret notMnt
  end.

(** The directory that is bound; an ephemeral one is created first. *)
Definition volumeSource (hpn : hostPathNode) (req : NodePublishVolumeRequest) : M string :=
  let storagePoolName := getStoragePoolNameFromMap (np_VolumeContext req) in
  if isEphemeralVolumeRequest req then
    let path := getEphemeralVolumePath hpn storagePoolName (np_VolumeId req) in
    wrapErr (λ err, WrapError ("failed to create ephemeral volume " +:+ np_VolumeId req +:+ ": "
                               +:+ Error err) err)
      (createVolumeDirectoryFunc (Dir path) (np_VolumeId req)) >>
    ret path
  else ret (Join [Path (getPool (hpn_cfg hpn) storagePoolName); np_VolumeId req]).

(** What is reported when the mount failed: [fileInfo.Mode()] panics when the
    target could not be examined. *)
Definition mountFailed (req : NodePublishVolumeRequest) (path targetPath : string) (err : gerror)
    : M unit :=
  r <- try (os_StatMode targetPath) ;;
  match r with
  | inr _ => panic "invalid memory address or nil pointer dereference"
  | inl mode =>
      rmText <- (if isEphemeralVolumeRequest req then
                   rm <- try (os_RemoveAll path) ;;
                   ret (match rm with
                        | inr rmErr => if os_IsNotExist rmErr then "" else " :" +:+ Error rmErr
                        | inl _ => ""
                        end)
                 else ret "") ;;
      fail (ErrorString ("failed to mount device: " +:+ path +:+ " at " +:+ targetPath +:+ ": "
                         +:+ Error err +:+ mode +:+ rmText))
  end.

Definition mountVolume (hpn : hostPathNode) (targetPath : string) (req : NodePublishVolumeRequest)
    : M unit :=
  let fsType := default "" (fst <$> (np_VolumeCapability req ≫= GetMount)) in
  let options := if np_Readonly req then ["bind"; "ro"] else ["bind"] in
  path <- volumeSource hpn req ;;
  r <- try (mi_Mount (hpn_Mounter hpn) path targetPath fsType options) ;;
  match r with
  | inr err => mountFailed req path targetPath err
  | inl _ => ret tt
  end.

Definition NodePublishVolume (hpn : hostPathNode) (req : option NodePublishVolumeRequest) : M unit :=
  checkErr (validateNodePublishRequest req) >>
  req <- deref req ;;
  let targetPath := np_TargetPath req in
  canMnt <- canMountVolume hpn targetPath ;;
  if negb canMnt then ret tt else mountVolume hpn targetPath req.

(** ** Unpublishing *)

Definition removeEphemeralPath (hpn : hostPathNode) (volumeId : string) : M unit :=
  volumeDirs <- getStoragePoolDataDirectories (StoragePools (hpn_cfg hpn)) ;;
  let volumePath := findVolumePath volumeId volumeDirs in
  if decide (volumePath = "") then ret tt
  else wrapErr (λ err, ErrorString ("failed to delete ephemeral volume " +:+ volumeId +:+ ": " +:+ Error err))
         (Utils.DeleteVolume (Dir volumePath) volumeId).

(** Unmounts only if the target is really a mount point; a target that does
    not exist is not one. *)
Definition unmountTarget (hpn : hostPathNode) (targetPath : string) : M unit :=
  r <- try (IsNotMountPoint (hpn_Mounter hpn) targetPath) ;;
  match r with
  | inr err =>
      if os_IsNotExist err then ret tt
      else fail (WrapError ("check target path: " +:+ Error err) err)
  | inl notMnt =>
      if negb notMnt then
        wrapErr (λ err, WrapError ("unmount target path: " +:+ Error err) err)
          (mi_Unmount (hpn_Mounter hpn) targetPath)
      else ret tt
  end.

Definition NodeUnpublishVolume (hpn : hostPathNode) (req : option NodeUnpublishVolumeRequest) : M unit :=
  checkErr (validateNodeUnpublishRequest req) >>
  req <- deref req ;;
  let targetPath := nu_TargetPath req in
  unmountTarget hpn targetPath >>
  wrapErr (λ err, WrapError ("remove target path: " +:+ Error err) err) (os_RemoveAll targetPath) >>
  if isEphemeralVolumeId (nu_VolumeId req) then
    wrapErr (λ err, ErrorString ("failed to delete ephemeral volume: " +:+ nu_VolumeId req +:+ ", "
                                 +:+ Error err))
      (removeEphemeralPath hpn (nu_VolumeId req))
  else ret tt.

(** ** The other RPCs *)

Definition NodeStageVolume : M unit :=
  fail (StatusError Unimplemented "NodeStageVolume is not supported").
Definition NodeUnstageVolume : M unit :=
  fail (StatusError Unimplemented "NodeUnstageVolume is not supported").
Definition NodeExpandVolume : M unit :=
  fail (StatusError Unimplemented "NodeExpandVolume is not supported").

Definition NodeGetInfo (hpn : hostPathNode) : M NodeGetInfoResponse :=
  ret {| ni_NodeId := NodeID (hpn_cfg hpn);
         ni_AccessibleTopology := {| Segments := {[ TopologyKeyNode := NodeID (hpn_cfg hpn) ]} |} |}.

(** The statistics of a published volume, in bytes and in inodes, and its
    health; a volume that is not healthy is still reported. *)
Definition NodeGetVolumeStats `{!FindMnt} (hpn : hostPathNode) (req : option NodeGetVolumeStatsRequest)
    : M NodeGetVolumeStatsResponse :=
  checkErr (validateNodeGetVolumeStatsRequest req) >>
  req <- deref req ;;
  wrapErr (λ err, StatusError NotFound ("Could not get file information from " +:+ ns_VolumePath req
                                        +:+ ": " +:+ Error err))
    (os_Stat (ns_VolumePath req)) >>
  health <- doHealthCheckInNodeSide (ns_VolumePath req) ;;
  let '(healthy, msg) := health in
  st <- wrapErr (λ err, WrapError ("get volume stats failed: " +:+ Error err) err)
          (getPVStats (ns_VolumePath req)) ;;
  ret {| ns_Usage := [
           {| u_Available := st_available st; u_Used := st_used st; u_Total := st_capacity st;
              u_Unit := BYTES |};
           {| u_Available := st_inodesFree st; u_Used := st_inodesUsed st; u_Total := st_inodes st;
              u_Unit := INODES |} ];
         ns_VolumeCondition := {| Abnormal := negb healthy; Message := msg |} |}.

Definition NodeGetCapabilities : M (list NodeRPC) := ret [NODE_VOLUME_CONDITION; GET_VOLUME_STATS].
End ops.
