(* ===== verification/NodeStats.v ===== *)
(** * The statistics of a published volume

    What [NodeGetVolumeStats] reports in terms of what the kernel and
    [findmnt] answered while it ran. *)
From S2P Require Import Prelude GoStrings GoPath GoErrors OS OSFacts Csi Utils Health Reflink.
From S2P Require Import ControllerServer FindMnt NodeServer.
Open Scope Z_scope.

Section facts.
Context `{!Env, !FindMnt}.

(** [findmnt] names the path as a mount target. *)
Definition reportedMounted (n : nat) (ms : list MountPoint) (s : string) : Prop :=
  ∃ infos, infosOf n ms [s] = Ret infos ∧ s ∈ mi_Target <$> infos.

Lemma existsb_target s infos :
  existsb (λ m, String.eqb (mi_Target m) s) infos = true ↔ s ∈ mi_Target <$> infos.
Proof.
  rewrite existsb_exists, list_elem_of_fmap. setoid_rewrite String.eqb_eq.
  setoid_rewrite list_elem_of_In. naive_solver.
Qed.

(** The health verdict on the node: never an error, and "healthy" has the same
    meaning as on the controller side, with the mount in place of the path. *)
Lemma nodeHealth_run s w :
  ∃ b msg w', doHealthCheckInNodeSide s w = (Ret (b, msg), w') ∧ quiet w w' ∧
    (b = true ↔ reportedMounted (w_tick w) (w_mounts w) s ∧
       ∃ st, statfs (S (w_tick w)) s = inr st ∧
             st_available (fsStats st) ≠ 0 ∧ st_inodesFree (fsStats st) ≠ 0) ∧
    (b = true → msg = "").
Proof.
  pose proof (respects_nodeHealth quiet s w) as Hq. revert Hq.
  unfold doHealthCheckInNodeSide, checkMountPointExist, bind, try, reportedMounted.
  rewrite getMountInfos_run.
  pose proof (infosOf_no_panic (w_tick w) (w_mounts w) [s]) as Hnp.
  destruct (infosOf _ _ _) as [infos|e|p]; [| |by destruct (Hnp p)]; cbn [ret].
  2: { intros Hq. do 3 eexists. split_and!; [done|exact Hq| |done]. split; [done|]. by intros ((?&?&_)&_). }
  pose proof (existsb_target s infos) as Hex. destruct (existsb _ infos); cbn [negb ret].
  2: { intros Hq. do 3 eexists. split_and!; [done|exact Hq| |done].
       split; [done|]. intros ((?&[= <-]&?%Hex)&_). done. }
  rewrite checkIfSpace_run. cbn [tickw w_tick].
  match goal with |- context [(Ret ?v, _)] => destruct v as [b msg] eqn:Hv end.
  intros Hq. exists b, msg. eexists. split_and!; [done|exact Hq| |]; clear Hq.
  - destruct (statfs _ _) as [e|st]; [simplify_eq; split; [done|by intros (_&?&?&_)]|].
    destruct (Z.eqb_spec (st_available (fsStats st)) 0); simplify_eq.
    { split; [done|]. intros (_&?&[= <-]&?&_). done. }
    destruct (Z.eqb_spec (st_inodesFree (fsStats st)) 0); simplify_eq.
    { split; [done|]. intros (_&?&[= <-]&_&?). done. }
    split; [|done]. intros _. split; [|by exists st]. exists infos. split; [done|]. by apply Hex.
  - repeat case_match; simplify_eq; done.
Qed.
End facts.

(** C34: The statistics of a published volume are read without changing anything and the handler
    never panics. When it answers, the path exists, the two usage entries are the byte and inode
    numbers of one answer of the kernel for that path, and the volume is reported normal exactly
    when findmnt names the path as mounted and the kernel reports available bytes and free
    inodes; a missing volume id or path is InvalidArgument. *)
Theorem node_stats_spec `{!Env, !FindMnt} hpn req w :
  match NodeGetVolumeStats hpn req w with
  | (Ret r, w') => quiet w w' ∧ ∃ q, req = Some q ∧
      (∃ x, w_fs w !! resolve (ns_VolumePath q) = Some x) ∧
      (∃ n st, statfs n (ns_VolumePath q) = inr st ∧
        ns_Usage r =
          [ {| u_Available := st_available (fsStats st); u_Used := st_used (fsStats st);
               u_Total := st_capacity (fsStats st); u_Unit := BYTES |};
            {| u_Available := st_inodesFree (fsStats st); u_Used := st_inodesUsed (fsStats st);
               u_Total := st_inodes (fsStats st); u_Unit := INODES |} ]) ∧
      (Abnormal (ns_VolumeCondition r) = false ↔
         reportedMounted (S (w_tick w)) (w_mounts w) (ns_VolumePath q) ∧
         ∃ st, statfs (S (S (w_tick w))) (ns_VolumePath q) = inr st ∧
               st_available (fsStats st) ≠ 0 ∧ st_inodesFree (fsStats st) ≠ 0)
  | (Fail e, w') => quiet w w' ∧
      (match req with Some q => ns_VolumeId q = "" ∨ ns_VolumePath q = "" | None => True end →
       code_of e = InvalidArgument)
  | (Panic _, _) => False
  end.
Proof.
  unfold NodeGetVolumeStats, validateNodeGetVolumeStatsRequest.
  destruct req as [q|]; simpl; [|done].
  destruct (Z.eqb_spec (len (ns_VolumeId q)) 0) as [Hid|Hid]; [done|].
  destruct (Z.eqb_spec (len (ns_VolumePath q)) 0) as [Hp|Hp]; [done|].
  assert (ns_VolumeId q = "" ∨ ns_VolumePath q = "" → False) as Hne.
  { by intros [Hx|Hx]; rewrite Hx in *. }
  unfold bind at 1, checkErr, ret at 1. unfold bind at 1, deref, ret at 1.
  unfold bind at 1, wrapErr at 1, os_Stat, reads.
  pose proof (stat_result_found (w_tick w) (w_fs w) (ns_VolumePath q)) as Hfound.
  pose proof (stat_result_no_panic (w_tick w) (w_fs w) (ns_VolumePath q)) as Hnp.
  destruct (stat_result _ _ _) as [x|e|p]; [|split; [done|naive_solver]|by destruct (Hnp p)].
  destruct (nodeHealth_run (ns_VolumePath q) (tickw w)) as (b&msg&w1&Hrun&Hq&Hb&_). run_ret Hrun.
  unfold bind, wrapErr, getPVStats, fsInfo, bind, unix_Statfs, reads.
  assert (quiet w (tickw w1)) as Hq' by (by etransitivity; [|exact Hq]).
  destruct (statfs (w_tick w1) _) as [e|st] eqn:Hst; simpl; [split; [done|naive_solver]|].
  split; [done|]. exists q. split_and!; [done|by exists x; apply Hfound|by exists (w_tick w1), st|].
  etransitivity; [|exact Hb]. by destruct b.
Qed.
