(* ===== verification/ControllerFacts.v ===== *)
(** * Correctness of the controller service

    Construction, creation and deletion of volumes, and what every handler
    leaves alone. *)
From S2P Require Import Prelude GoStrings GoPath GoErrors OS OSFacts Demo Csi Utils Health Reflink.
From S2P Require Import ReflinkFacts ControllerServer.
Open Scope Z_scope.

(** ** Where the controller may write *)

Definition pool_root (info : StoragePoolInfo) : GoPath.path := resolve (Path info).

Definition snap_roots (info : StoragePoolInfo) : list GoPath.path :=
  match SnapshotPath info with Some s => [resolve s] | None => [] end.

(** The pools and the snapshot directories of a configuration. *)
Definition cfg_roots (config : Config) : list GoPath.path :=
  map_to_list (StoragePools config) ≫= λ kv, pool_root kv.2 :: snap_roots kv.2.

Lemma elem_of_cfg_roots config p :
  p ∈ cfg_roots config ↔
  ∃ pool info, StoragePools config !! pool = Some info ∧ (p = pool_root info ∨ p ∈ snap_roots info).
Proof.
  unfold cfg_roots. rewrite list_elem_of_bind. split.
  - intros ([pool info]&Hp&Hin). apply elem_of_map_to_list in Hin. exists pool, info.
    split; [done|]. by apply elem_of_cons in Hp.
  - intros (pool&info&Hl&Hp). exists (pool, info). split; [by apply elem_of_cons|].
    by apply elem_of_map_to_list.
Qed.

Lemma inside_elem roots p : p ∈ roots → inside roots p.
Proof. intros Hp. apply Exists_exists. by exists p. Qed.

Lemma pool_inside config pool info :
  StoragePools config !! pool = Some info → inside (cfg_roots config) (resolve (Path info)).
Proof. intros Hl. apply inside_elem, elem_of_cfg_roots. exists pool, info. auto. Qed.

Lemma snap_inside config pool info s :
  StoragePools config !! pool = Some info → SnapshotPath info = Some s →
  inside (cfg_roots config) (resolve s).
Proof.
  intros Hl Hs. apply inside_elem, elem_of_cfg_roots. exists pool, info. split; [done|].
  right. unfold snap_roots. rewrite Hs. by apply list_elem_of_singleton.
Qed.
#[export] Hint Resolve pool_inside snap_inside : go.

Lemma getPool_found config pool info :
  StoragePools config !! pool = Some info → getPool config pool = info.
Proof. unfold getPool. by intros ->. Qed.

(** The contract between the controller and its providers: the provider of a
    pool stays within the snapshot directory of the pool. *)
Definition providers_safe (hpc : hostPathController) : Prop :=
  ∀ pool p, snapshotproviders hpc !! pool = Some p →
    ∃ info s, StoragePools (cfg hpc) !! pool = Some info ∧ SnapshotPath info = Some s ∧
      ProviderSafe [resolve s] p.

(** ** Loops and lookups *)

Lemma findVolumePath_spec id dirs :
  (findVolumePath id dirs = "" ∧ Forall (λ d, Base d ≠ id ∨ d = "") dirs) ∨
  (findVolumePath id dirs ≠ "" ∧ findVolumePath id dirs ∈ dirs ∧ Base (findVolumePath id dirs) = id) ∨
  findVolumePath id dirs = "" ∧ "" ∈ dirs.
Proof.
  unfold findVolumePath. induction dirs as [|d dirs IH] using rev_ind; simpl; [left; by split|].
  rewrite foldl_snoc. case_decide as Hb.
  - destruct (decide (d = "")) as [->|Hd]; [right; right; split; [done|]; set_solver|].
    right. left. split_and!; [done|set_solver|done].
  - destruct IH as [[-> Hall]|[(?&?&?)|[-> ?]]].
    + left. split; [done|]. rewrite Forall_app. split; [done|]. constructor; [by left|done].
    + right. left. split_and!; [done|set_solver|done].
    + right. right. split; [done|set_solver].
Qed.

(** Volume directories are never the empty path. *)
Lemma volume_dirs_nonempty fs m : wf_fs fs → "" ∉ volume_dirs fs m.
Proof.
  intros Hwf (pool&info&c&_&Hl&Heq)%elem_of_volume_dirs.
  apply (wf_parent _ Hwf) in Hl as [_ Hc]. by apply (Join_nonempty (Path info) c Hc).
Qed.

(** What the lookup by id finds: a directory of that name in a pool. *)
Lemma findVolumePath_volume fs m id :
  wf_fs fs →
  (findVolumePath id (volume_dirs fs m) = "" ∧
   ∀ pool info, m !! pool = Some info → fs !! (pool_root info ++ [id]) ≠ Some NDir) ∨
  (findVolumePath id (volume_dirs fs m) ≠ "" ∧ valid_name id ∧
   ∃ pool info, m !! pool = Some info ∧ fs !! (pool_root info ++ [id]) = Some NDir ∧
     findVolumePath id (volume_dirs fs m) = Join [Path info; id]).
Proof.
  intros Hwf. destruct (findVolumePath_spec id (volume_dirs fs m)) as [[Hf Hall]|[(Hf&Hin&Hb)|[_ Hin]]].
  - left. split; [done|]. intros pool info Hp Hl. rewrite Forall_forall in Hall.
    assert (Join [Path info; id] ∈ volume_dirs fs m) as Hd.
    { apply elem_of_volume_dirs. by exists pool, info, id. }
    apply (wf_parent _ Hwf) in Hl as [_ Hv]. destruct (Hall _ Hd) as [Hn|Hn].
    + by rewrite Base_Join in Hn.
    + by apply (Join_nonempty (Path info) id).
  - right. apply elem_of_volume_dirs in Hin as (pool&info&c&Hp&Hl&Heq).
    apply (wf_parent _ Hwf) in Hl as Hc. destruct Hc as [_ Hc].
    rewrite Heq, Base_Join in Hb by done. subst c. eauto 10.
  - by apply volume_dirs_nonempty in Hin.
Qed.

(** ** What every handler leaves alone *)

Section frames.
Context `{!Env}.

Lemma respects_checkErr R `{!PreOrder R} e : respects R (checkErr e).
Proof. unfold checkErr. respects_tac. Qed.
Lemma respects_deref R `{!PreOrder R} {A} (p : option A) : respects R (deref p).
Proof. unfold deref. respects_tac. Qed.
Lemma respects_deref_bind R `{!PreOrder R} {A B} (p : option A) (k : A → M B) :
  (∀ a, p = Some a → respects R (k a)) → respects R (bind (deref p) k).
Proof.
  intros Hk. destruct p as [a|]; intros w; [by apply Hk|]. simpl. reflexivity.
Qed.
Lemma respects_slice R `{!PreOrder R} {A} (l : list A) lo hi : respects R (slice l lo hi).
Proof. unfold slice. respects_tac. Qed.
Lemma respects_baseAt R `{!PreOrder R} l i : respects R (baseAt l i).
Proof. unfold baseAt. cbv zeta. respects_tac. Qed.
Lemma respects_dirCapacity R `{!PreOrder R, !TickInv R} s : respects R (getVolumeDirCapacity s).
Proof. unfold getVolumeDirCapacity. respects_tac. Qed.
Hint Resolve respects_checkErr respects_deref respects_slice respects_baseAt respects_dirCapacity : go.

Lemma respects_poolCapacities R `{!PreOrder R, !TickInv R} hpc : respects R (poolCapacities hpc).
Proof. unfold poolCapacities, addCapacity. respects_tac. Qed.
Lemma respects_getVolumeDirectories R `{!PreOrder R, !TickInv R} hpc :
  respects R (getVolumeDirectories hpc).
Proof. unfold getVolumeDirectories. respects_tac. Qed.
Lemma respects_volumeEntry R `{!PreOrder R, !TickInv R} hpc cm i p :
  respects R (volumeEntry hpc cm i p).
Proof. unfold volumeEntry. respects_tac. Qed.
Hint Resolve respects_poolCapacities respects_getVolumeDirectories respects_volumeEntry : go.

Lemma respects_volumePage R `{!PreOrder R, !TickInv R} hpc cm dirs t n :
  respects R (volumePage hpc cm dirs t n).
Proof. unfold volumePage, appendEntry. cbv zeta. respects_tac. Qed.
Hint Resolve respects_volumePage : go.

(** The handlers that only look, at any relation that ignores the counter. *)
Lemma respects_ListVolumes R `{!PreOrder R, !TickInv R} hpc req : respects R (ListVolumes hpc req).
Proof. unfold ListVolumes, listFrom. respects_tac. Qed.
Lemma respects_ControllerGetVolume R `{!PreOrder R, !TickInv R} hpc req :
  respects R (ControllerGetVolume hpc req).
Proof. unfold ControllerGetVolume. respects_tac. Qed.
Lemma respects_GetCapacity R `{!PreOrder R, !TickInv R} hpc req : respects R (GetCapacity hpc req).
Proof. unfold GetCapacity. respects_tac. Qed.
Lemma respects_ValidateVolumeCapabilities R `{!PreOrder R, !TickInv R} hpc req :
  respects R (ValidateVolumeCapabilities hpc req).
Proof. unfold ValidateVolumeCapabilities. respects_tac. Qed.

Lemma quiet_collectSnapshots hpc req :
  providers_safe hpc → respects quiet (collectSnapshots hpc req).
Proof.
  intros Hsafe. unfold collectSnapshots. apply respects_range_elems; [apply _..|].
  intros l Hl. apply respects_foldM; [apply _|]. intros b [pool p] Hin.
  destruct (Hsafe pool p (Hl _ Hin)) as (info&s&_&_&Hp). unfold providerSnapshots. simpl.
  destruct Hp. respects_tac.
Qed.
Hint Resolve quiet_collectSnapshots : go.

Lemma quiet_ListSnapshots hpc req :
  providers_safe hpc → respects quiet (ListSnapshots hpc req).
Proof. intros Hsafe. unfold ListSnapshots, snapshotPage. cbv zeta. respects_tac. Qed.
End frames.

#[export] Hint Resolve respects_checkErr respects_deref respects_dirCapacity respects_poolCapacities
  respects_getVolumeDirectories respects_ListVolumes respects_ControllerGetVolume respects_GetCapacity
  respects_ValidateVolumeCapabilities quiet_ListSnapshots : go.

(** ** The handlers that write *)

Section writers.
Context `{!Env} (hpc : hostPathController) (Hsafe : providers_safe hpc).

Lemma provider_safe pool p :
  snapshotproviders hpc !! pool = Some p → ProviderSafe (cfg_roots (cfg hpc)) p.
Proof.
  intros Hp. destruct (Hsafe pool p Hp) as (info&s&?&?&?). eapply ProviderSafe_mono; [|done].
  by eapply snap_inside.
Qed.

(** A call that the provider's contract covers. *)
Ltac by_provider L := eapply L; [by eapply provider_safe|..]; auto with go.

(** *** The tree stays well-formed *)

Lemma respects_populate_wf pool req : respects wf_rel (populateVolume hpc pool req).
Proof.
  unfold populateVolume, restoreFromSnapshot. respects_tac.
  by_provider @safe_restore_wf.
Qed.

Lemma respects_CreateVolume_wf req : respects wf_rel (CreateVolume hpc req).
Proof. unfold CreateVolume. pose proof respects_populate_wf. respects_tac. Qed.

Lemma respects_DeleteVolume_wf req : respects wf_rel (DeleteVolume hpc req).
Proof. unfold DeleteVolume. respects_tac. Qed.

Lemma respects_CreateSnapshot_wf req : respects wf_rel (CreateSnapshot hpc req).
Proof.
  unfold CreateSnapshot. respects_tac.
  - by_provider @safe_init_wf.
  - eapply respects_weaken; [apply quiet_wf|]. by_provider @safe_get.
  - by_provider @safe_create_wf.
Qed.

Lemma respects_DeleteSnapshot_wf req : respects wf_rel (DeleteSnapshot hpc req).
Proof.
  unfold DeleteSnapshot. destruct req; [|respects_tac]. case_match; [respects_tac|].
  apply respects_range_elems; [apply _..|]. intros l Hl. respects_tac.
  eapply @safe_delete_wf, provider_safe, Hl. eassumption.
Qed.

(** *** Nothing changes outside the pools and the snapshot directories *)

Lemma confined_self p : inside [p] p.
Proof. by apply Exists_cons_hd. Qed.
Hint Resolve confined_self : go.

(** Creating a volume writes nothing but its directory (and makes the pool). *)
Lemma respects_populate_confined pool info req :
  StoragePools (cfg hpc) !! pool = Some info →
  respects (confined [resolve (Join [Path info; cv_Name req])]) (populateVolume hpc pool req).
Proof.
  intros Hpool. unfold populateVolume, restoreFromSnapshot.
  rewrite (getPool_found _ _ _ Hpool). respects_tac. by_provider @safe_restore.
Qed.

Lemma respects_CreateVolume_own r info :
  StoragePools (cfg hpc) !! getStoragePoolNameFromMap (cv_Parameters r) = Some info →
  respects (confined [resolve (Join [Path info; cv_Name r])]) (CreateVolume hpc (Some r)).
Proof.
  intros Hpool. unfold CreateVolume. apply respects_bind; [apply _|auto with go|intros []].
  apply respects_deref_bind; [apply _|]. intros r' [= <-].
  apply respects_bind; [apply _|auto with go|intros []]. rewrite Hpool.
  pose proof (respects_populate_confined _ _ r Hpool). unfold createVolumeDirectoryFunc. respects_tac.
Qed.

(** A request for a pool that is not configured changes nothing. *)
Lemma quiet_CreateVolume_unknown r :
  StoragePools (cfg hpc) !! getStoragePoolNameFromMap (cv_Parameters r) = None →
  respects quiet (CreateVolume hpc (Some r)).
Proof.
  intros Hpool. unfold CreateVolume. apply respects_bind; [apply _|auto with go|intros []].
  apply respects_deref_bind; [apply _|]. intros r' [= <-].
  apply respects_bind; [apply _|auto with go|intros []]. rewrite Hpool. respects_tac.
Qed.

Lemma respects_CreateVolume_confined req :
  (∀ r, req = Some r → valid_name (cv_Name r)) →
  respects (confined (cfg_roots (cfg hpc))) (CreateVolume hpc req).
Proof.
  intros Hv. destruct req as [r|]; [|intros w; simpl; reflexivity]. specialize (Hv r eq_refl).
  destruct (StoragePools (cfg hpc) !! getStoragePoolNameFromMap (cv_Parameters r)) as [info|] eqn:Hpool.
  - eapply respects_weaken; [|by apply respects_CreateVolume_own]. intros w w'. apply confined_mono.
    eauto with go.
  - eapply respects_weaken; [apply quiet_confined|]. by apply quiet_CreateVolume_unknown.
Qed.

Lemma respects_CreateSnapshot_confined req :
  (∀ r, req = Some r → valid_name (cs_Name r) ∧ valid_name (cs_SourceVolumeId r)) →
  respects (confined (cfg_roots (cfg hpc))) (CreateSnapshot hpc req).
Proof.
  intros Hv. unfold CreateSnapshot. apply respects_bind; [apply _|auto with go|intros []].
  apply respects_deref_bind; [apply _|]. intros r ->. destruct (Hv r eq_refl). respects_tac.
  - by_provider @safe_init.
  - eapply respects_weaken; [apply quiet_confined|]. by_provider @safe_get.
  - by_provider @safe_create.
Qed.

Lemma respects_DeleteSnapshot_confined req :
  (∀ id, req = Some id → valid_name id) →
  respects (confined (cfg_roots (cfg hpc))) (DeleteSnapshot hpc req).
Proof.
  intros Hv. unfold DeleteSnapshot. destruct req as [id|]; [|respects_tac]. case_match; [respects_tac|].
  apply respects_range_elems; [apply _..|]. intros l Hl. respects_tac.
  eapply @safe_delete; [|by apply Hv]. eapply provider_safe, Hl. eassumption.
Qed.

Lemma DeleteVolume_run id w :
  validateDeleteVolumeRequest (Some id) = None →
  DeleteVolume hpc (Some id) w =
    bind (getVolumeDirectories hpc) (λ volumeDirs,
      if decide (findVolumePath id volumeDirs = "") then ret tt
      else wrapErr (λ err, ErrorString ("failed to delete volume " +:+ id +:+ ": " +:+ Error err))
             (Utils.DeleteVolume (Dir (findVolumePath id volumeDirs)) id)) w.
Proof. intros Hval. unfold DeleteVolume. by rewrite Hval. Qed.

(** Deleting a volume touches at most one directory of that name in a pool. *)
Lemma DeleteVolume_frame req w :
  wf_fs (w_fs w) →
  let w' := (DeleteVolume hpc req w).2 in
  quiet w w' ∨
  ∃ id pool info, req = Some id ∧ valid_name id ∧
    StoragePools (cfg hpc) !! pool = Some info ∧ w_fs w !! (pool_root info ++ [id]) = Some NDir ∧
    confined [pool_root info ++ [id]] w w'.
Proof.
  intros Hwf. cbv zeta.
  destruct (validateDeleteVolumeRequest req) as [e|] eqn:Hval.
  { left. unfold DeleteVolume. by rewrite Hval. }
  destruct req as [id|]; [|done]. rewrite DeleteVolume_run by done.
  pose proof (getDirectories_spec (StoragePools (cfg hpc)) w) as Hspec.
  unfold wp in Hspec. unfold getVolumeDirectories.
  destruct (getStoragePoolDataDirectories _ w) as [[dirs|e|p] w1] eqn:Hdirs; simpl in Hspec;
    destruct Hspec as [Hq Hspec]; [|left; by rewrite (run_bind_fail _ _ _ _ _ Hdirs)|done].
  run_ret Hdirs. subst dirs.
  destruct (findVolumePath_volume (w_fs w) (StoragePools (cfg hpc)) id Hwf)
    as [[-> _]|(Hne&Hid&pool&info&Hpool&Hdir&Heq)]; [by left|].
  right. exists id, pool, info. split_and!; [done..|].
  rewrite decide_False by done. rewrite Heq, Dir_Join by done.
  etransitivity; [by apply quiet_confined|]. apply respects_wrapErr, respects_confined_DeleteVolume.
  rewrite resolve_Join, resolve_Clean by done. apply inside_elem, list_elem_of_singleton. done.
Qed.
End writers.

#[export] Hint Resolve respects_CreateVolume_wf respects_DeleteVolume_wf respects_CreateSnapshot_wf
  respects_DeleteSnapshot_wf respects_CreateVolume_confined respects_CreateSnapshot_confined
  respects_DeleteSnapshot_confined : go.

(** ** Deleting volumes when no call fails *)

(** Every pool directory is in place. *)
Definition pools_ready (config : Config) (fs : fstree) : Prop :=
  ∀ pool info, StoragePools config !! pool = Some info →
    Path info ≠ "" ∧ fs !! pool_root info = Some NDir.

(** The directories that an id may stand for. *)
Definition has_volume (config : Config) (fs : fstree) (id : string) (p : GoPath.path) : Prop :=
  ∃ pool info, StoragePools config !! pool = Some info ∧ p = pool_root info ∧
    fs !! (pool_root info ++ [id]) = Some NDir.

Lemma has_volume_name config fs id p : wf_fs fs → has_volume config fs id p → valid_name id.
Proof. intros Hwf (pool&info&_&_&Hl). by apply (wf_parent _ Hwf) in Hl as [_ ?]. Qed.

Lemma has_volume_rm config fs id p q :
  has_volume config (rm_tree p fs) id q → has_volume config fs id q ∧ ¬ p `prefix_of` q ++ [id].
Proof.
  intros (pool&info&Hp&->&Hl). rewrite lookup_rm_tree in Hl. case_decide; [done|].
  split; [|done]. by exists pool, info.
Qed.

Lemma pools_ready_rm config fs p :
  (∀ pool info, StoragePools config !! pool = Some info → ¬ p `prefix_of` pool_root info) →
  pools_ready config fs → pools_ready config (rm_tree p fs).
Proof.
  intros Hout Hready pool info Hp. destruct (Hready pool info Hp) as [? Hd]. split; [done|].
  rewrite lookup_rm_tree, decide_False; [done|]. by eapply Hout.
Qed.

Lemma snoc_not_nil (p : GoPath.path) c : p ++ [c] ≠ [].
Proof. by destruct p. Qed.

Section delete.
Context `{!Env} (Hnf : no_faults).

Lemma Utils_DeleteVolume_ok base id w :
  valid_name id → w_fs w !! (resolve base ++ [id]) = Some NDir →
  mounts_below (resolve base ++ [id]) (w_mounts w) = [] →
  Utils.DeleteVolume base id w =
    (Ret tt, tickw (set_fs (rm_tree (resolve base ++ [id]) (w_fs w)) w)).
Proof.
  intros Hid Hl Hm. unfold Utils.DeleteVolume. rewrite <-resolve_Join in * by done.
  erewrite run_bind_ret; [|apply run_try_ret; eapply RemoveAll_found;
    [done|by apply Join_nonempty|by apply endsWithDot_Join| |done|done]]; [done|].
  rewrite resolve_Join by done. apply snoc_not_nil.
Qed.

Lemma validateDelete_ok id : id ≠ "" → validateDeleteVolumeRequest (Some id) = None.
Proof.
  intros Hid. simpl. destruct (Z.eqb_spec (len id) 0) as [Hl|]; [|done].
  by apply len_0 in Hl.
Qed.

(** The deletion by name that the controller and the node share. *)
Lemma deleteByName_ok f config id w :
  id ≠ "" → wf_fs (w_fs w) → pools_ready config (w_fs w) →
  (∀ p, has_volume config (w_fs w) id p → mounts_below (p ++ [id]) (w_mounts w) = []) →
  ∃ w', bind (getStoragePoolDataDirectories (StoragePools config)) (λ volumeDirs,
          if decide (findVolumePath id volumeDirs = "") then ret tt
          else wrapErr f (Utils.DeleteVolume (Dir (findVolumePath id volumeDirs)) id)) w = (Ret tt, w') ∧
    w_mounts w' = w_mounts w ∧
    ((w_fs w' = w_fs w ∧ ∀ p, ¬ has_volume config (w_fs w) id p) ∨
     ∃ p, has_volume config (w_fs w) id p ∧ valid_name id ∧
          w_fs w' = rm_tree (p ++ [id]) (w_fs w)).
Proof.
  intros Hne Hwf Hready Hmnt.
  destruct (getDirectories_ok (StoragePools config) w Hnf Hready) as (w1&Hdirs&Hq).
  run_ret Hdirs. destruct Hq as (Hfs&Hm&_).
  destruct (findVolumePath_volume (w_fs w) (StoragePools config) id Hwf)
    as [[-> Hno]|(Hf&Hid&pool&info&Hpool&Hdir&Heq)].
  - rewrite decide_True by done. eexists. split; [done|]. split; [done|]. left. split; [done|].
    intros p (pool&info&?&_&?). by eapply Hno.
  - rewrite decide_False, Heq, Dir_Join by done.
    assert (has_volume config (w_fs w) id (pool_root info)) as Hhas by by exists pool, info.
    erewrite run_wrapErr_ret.
    2: { apply Utils_DeleteVolume_ok; [done|..]; rewrite ?Hfs, ?Hm, resolve_Clean; auto. }
    eexists. split; [done|]. split; [done|]. right. exists (pool_root info).
    split; [done|]. split; [done|]. simpl. by rewrite Hfs, resolve_Clean.
Qed.

Lemma DeleteVolume_ok hpc id w :
  id ≠ "" → wf_fs (w_fs w) → pools_ready (cfg hpc) (w_fs w) →
  (∀ p, has_volume (cfg hpc) (w_fs w) id p → mounts_below (p ++ [id]) (w_mounts w) = []) →
  ∃ w', DeleteVolume hpc (Some id) w = (Ret tt, w') ∧ w_mounts w' = w_mounts w ∧
    ((w_fs w' = w_fs w ∧ ∀ p, ¬ has_volume (cfg hpc) (w_fs w) id p) ∨
     ∃ p, has_volume (cfg hpc) (w_fs w) id p ∧ valid_name id ∧
          w_fs w' = rm_tree (p ++ [id]) (w_fs w)).
Proof.
  intros. rewrite DeleteVolume_run by by apply validateDelete_ok. by apply deleteByName_ok.
Qed.
End delete.

(** ** Creating volumes when no call fails *)

(** The tree after [p] was made if it was missing: a new directory, or what was
    there before, be it a directory or a regular file. *)
Definition ensure_dir (p : GoPath.path) (fs : fstree) : fstree :=
  match fs !! p with
  | Some _ => fs
  | None => <[p := NDir]> fs
  end.

(** The response that describes a volume. *)
Definition volume_of (hpc : hostPathController) (r : CreateVolumeRequest) (info : StoragePoolInfo)
    (st : Statfs_t) : Volume :=
  {| v_VolumeId := cv_Name r; v_CapacityBytes := roundDownCapacityPretty (st_capacity (fsStats st));
     v_VolumeContext := cv_Parameters r; v_ContentSource := cv_VolumeContentSource r;
     v_AccessibleTopology :=
       if Shared info then [] else [{| Segments := {[ TopologyKeyNode := NodeID (cfg hpc) ]} |}] |}.

(** ** Validation *)

Lemma validate_code req e :
  validateCreateVolumeRequest req = Some e → ∃ msg, e = StatusError InvalidArgument msg.
Proof.
  unfold validateCreateVolumeRequest. repeat case_match; intros; simplify_eq; by eexists.
Qed.

Lemma hasMountAccess_none caps :
  (∀ c, c ∈ caps → GetMount c = None) → hasMountAccess caps = false.
Proof.
  unfold hasMountAccess. induction caps as [|c caps IH] using rev_ind; intros Hn; [done|].
  rewrite foldl_snoc, Hn by set_solver. apply IH. set_solver.
Qed.

Lemma existsb_onNode_false node ts :
  (∀ s, s ∈ ts → default "" (Segments s !! TopologyKeyNode) ≠ node) → existsb (onNode node) ts = false.
Proof.
  induction ts as [|t ts IH]; intros Hs; [done|]. simpl. rewrite IH by set_solver.
  unfold onNode. rewrite bool_decide_eq_false_2 by (apply Hs; left). done.
Qed.

(** A request the controller accepts, for a pool it knows. *)
Record accepted (hpc : hostPathController) (r : CreateVolumeRequest) (info : StoragePoolInfo) : Prop := {
  acc_valid : validateCreateVolumeRequest (Some r) = None;
  acc_topology : validateCreateVolumeRequestTopology hpc r = None;
  acc_pool : StoragePools (cfg hpc) !! getStoragePoolNameFromMap (cv_Parameters r) = Some info;
  acc_name : valid_name (cv_Name r);
}.

Section create.
Context `{!Env}.

Lemma getVolumeDirCapacity_ok s st w :
  statfs (w_tick w) s = inr st →
  getVolumeDirCapacity s w = (Ret (roundDownCapacityPretty (st_capacity (fsStats st))), tickw w).
Proof.
  intros Hst. unfold getVolumeDirCapacity, getPVStats, fsInfo, bind, wrapErr, unix_Statfs, reads.
  by rewrite Hst.
Qed.

(** Up to the content source: the volume directory is there. *)
Lemma CreateVolume_run hpc r info st w :
  no_faults → accepted hpc r info → statfs (w_tick w) (Path info) = inr st →
  wf_fs (w_fs w) → w_fs w !! pool_root info = Some NDir →
  ∃ w1, w_fs w1 = ensure_dir (pool_root info ++ [cv_Name r]) (w_fs w) ∧
    w_mounts w1 = w_mounts w ∧ w_gauge w1 = w_gauge w ∧
    CreateVolume hpc (Some r) w =
      bind (populateVolume hpc (getStoragePoolNameFromMap (cv_Parameters r)) r)
        (λ _, ret (volume_of hpc r info st)) w1.
Proof.
  intros Hnf [Hval Htop Hpool Hname] Hst Hwf Hroot. unfold CreateVolume.
  rewrite Hval. erewrite !run_bind_ret by done. rewrite Htop. erewrite run_bind_ret by done.
  rewrite Hpool. erewrite run_bind_ret by by apply getVolumeDirCapacity_ok.
  assert (resolve (Join [Path info; cv_Name r]) = pool_root info ++ [cv_Name r]) as Hres
    by by apply resolve_Join.
  unfold ensure_dir. destruct (w_fs w !! (pool_root info ++ [cv_Name r])) as [x|] eqn:Hx.
  - erewrite run_bind_ret; [|eapply checkPathExist_found; [done|by apply Join_nonempty|by rewrite Hres]].
    by exists (tickw (tickw w)).
  - erewrite run_bind_ret; [|eapply checkPathExist_missing; [done|by apply Join_nonempty|by rewrite Hres|]].
    2: { rewrite Hres. by apply missing_errno_entry. }
    erewrite run_bind_ret. 2: { apply run_wrapErr_ret. unfold createVolumeDirectoryFunc.
      rewrite (MkdirAll_new _ (pool_root info) (cv_Name r)); [by apply mkdir_at_ok|done|by apply Join_nonempty|done..]. }
    eexists. split_and!; [..|reflexivity]; done.
Qed.

Lemma checkErr_ret e w u w' : checkErr e w = (Ret u, w') → e = None ∧ w' = w.
Proof. destruct e; [done|]. by intros [= _ <-]. Qed.

Lemma getVolumeDirCapacity_ret s w c w' :
  getVolumeDirCapacity s w = (Ret c, w') →
  ∃ st, statfs (w_tick w) s = inr st ∧ c = roundDownCapacityPretty (st_capacity (fsStats st)) ∧
    w' = tickw w.
Proof.
  unfold getVolumeDirCapacity, getPVStats, fsInfo, bind, wrapErr, unix_Statfs, reads.
  destruct (statfs (w_tick w) s) as [e|st]; [done|]. intros [= <- <-]. by exists st.
Qed.

(** What a reported success means, under any faults: the request was accepted,
    the directory was there or was made, and the content source was applied. *)
Lemma CreateVolume_ret_inv hpc r v w w' :
  valid_name (cv_Name r) → wf_fs (w_fs w) → CreateVolume hpc (Some r) w = (Ret v, w') →
  ∃ info st w1, accepted hpc r info ∧ statfs (w_tick w) (Path info) = inr st ∧
    v = volume_of hpc r info st ∧ wf_fs (w_fs w1) ∧ w_mounts w1 = w_mounts w ∧
    (∀ k, ¬ k `prefix_of` pool_root info ++ [cv_Name r] → w_fs w1 !! k = w_fs w !! k) ∧
    (∀ k x, w_fs w !! k = Some x → w_fs w1 !! k = Some x) ∧
    (w_fs w !! (pool_root info ++ [cv_Name r]) = None →
     w_fs w1 !! (pool_root info ++ [cv_Name r]) = Some NDir) ∧
    populateVolume hpc (getStoragePoolNameFromMap (cv_Parameters r)) r w1 = (Ret tt, w').
Proof.
  intros Hname Hwf Hrun. unfold CreateVolume in Hrun.
  bind_inv Hrun u0 w0 Hval. apply checkErr_ret in Hval as [Hval ->].
  bind_inv Hrun r' w0 Hr. injection Hr as <- <-.
  bind_inv Hrun u1 w0 Htop. apply checkErr_ret in Htop as [Htop ->].
  destruct (StoragePools (cfg hpc) !! _) as [info|] eqn:Hpool; [|done].
  bind_inv Hrun c w0 Hcap. apply getVolumeDirCapacity_ret in Hcap as (st&Hst&->&->).
  bind_inv Hrun b w0 Hex. bind_inv Hrun u3 w1 Hmk. bind_inv Hrun u2 w2 Hpop. destruct u2.
  injection Hrun as <- <-.
  assert (resolve (Join [Path info; cv_Name r]) = pool_root info ++ [cv_Name r]) as Hres
    by by apply resolve_Join.
  exists info, st, w1. split; [done|]. split; [done|]. split; [done|].
  destruct b.
  - apply checkPathExist_true in Hex as (->&_&Hx). rewrite Hres in Hx. injection Hmk as _ <-.
    split_and!; try done. intros Hnone. simpl in Hx. rewrite Hnone in Hx. by destruct Hx.
  - apply checkPathExist_false in Hex as ->. apply wrapErr_ret_inv in Hmk. destruct u3.
    destruct (MkdirAll_ret _ (tickw (tickw w)) _ Hwf Hmk) as (Hm&Hwf1&Hd&Hk&Hs). rewrite Hres in *.
    split_and!; try done. intros _. by apply Hd.
Qed.

(** A request without a snapshot source. *)
Definition plain (r : CreateVolumeRequest) : Prop :=
  ∀ s, cv_VolumeContentSource r ≠ Some (FromSnapshot (Some s)).

Lemma CreateVolume_plain hpc r info st w :
  no_faults → accepted hpc r info → plain r → statfs (w_tick w) (Path info) = inr st →
  wf_fs (w_fs w) → w_fs w !! pool_root info = Some NDir →
  ∃ w', CreateVolume hpc (Some r) w = (Ret (volume_of hpc r info st), w') ∧
    w_fs w' = ensure_dir (pool_root info ++ [cv_Name r]) (w_fs w) ∧ w_mounts w' = w_mounts w.
Proof.
  intros Hnf Hacc Hplain Hst Hwf Hroot.
  destruct (CreateVolume_run hpc r info st w) as (w1&Hfs&Hm&Hg&->); [done..|].
  exists w1. split; [|done]. unfold populateVolume.
  destruct (cv_VolumeContentSource r) as [[[s|]| |]|] eqn:Hs; try done.
  by destruct (Hplain s).
Qed.
End create.

(** A content source that was applied without an error was restored. *)
Lemma populate_restored `{!Env} hpc pool info p req id w w' :
  snapshotproviders hpc !! pool = Some p → StoragePools (cfg hpc) !! pool = Some info →
  cv_VolumeContentSource req = Some (FromSnapshot (Some id)) →
  populateVolume hpc pool req w = (Ret tt, w') →
  sp_RestoreSnapshot p id (Join [Path info; cv_Name req]) w = (Ret tt, w').
Proof.
  intros Hp Hpool Hcs. unfold populateVolume, restoreFromSnapshot, bind at 1, try.
  rewrite Hcs, Hp, (getPool_found _ _ _ Hpool).
  destruct (sp_RestoreSnapshot p id _ w) as [[[]|e|m] w1]; [done| |done].
  intros Hrun. by bind_inv Hrun u w2 Hdel.
Qed.

Lemma CreateVolume_statfs_error `{!Env} hpc r info en w :
  accepted hpc r info → statfs (w_tick w) (Path info) = inl en →
  CreateVolume hpc (Some r) w =
    (Fail (StatusError Internal ("Unable to determine capacity for volume " +:+ Base (Path info) +:+ ": "
                                 +:+ Error (Errno en))), tickw w).
Proof.
  intros [Hval Htop Hpool _] Hst. unfold CreateVolume. rewrite Hval. erewrite !run_bind_ret by done.
  rewrite Htop. erewrite run_bind_ret by done. rewrite Hpool.
  unfold bind at 1, getVolumeDirCapacity, getPVStats, fsInfo, wrapErr, unix_Statfs, bind, reads.
  by rewrite Hst.
Qed.

(** Only what lies strictly below [p] changes. *)
Definition fills (p : GoPath.path) (w w' : world) : Prop :=
  w_mounts w' = w_mounts w ∧ ∀ k, ¬ p `prefix_of` k ∨ k = p → w_fs w' !! k = w_fs w !! k.

#[export] Instance fills_preorder p : PreOrder (fills p).
Proof.
  split; [by intros w|]. intros w1 w2 w3 [Hm1 H1] [Hm2 H2]. split; [congruence|].
  intros k Hk. by rewrite H2, H1.
Qed.
#[export] Instance fills_tick p : TickInv (fills p).
Proof. by intros w. Qed.

Lemma fills_cp `{!Env} src dst : respects (fills (resolve dst)) (exec_cp src dst).
Proof.
  intros w. unfold exec_cp.
  pose proof (cp_frame (w_tick w) (w_fs w) (resolve src) (resolve dst)) as Hf.
  pose proof (cp_dst (w_tick w) (w_fs w) (resolve src) (resolve dst)) as Hd.
  destruct (cp _ _ _ _) as [[] fs']; (split; [done|]); intros k [Hk| ->]; simpl in *; auto.
Qed.

Lemma fills_restore `{!Env} rl id target :
  respects (fills (resolve target)) (RestoreSnapshot rl id target).
Proof. pose proof fills_cp. unfold RestoreSnapshot, reflinkCopy. respects_tac. Qed.

(** A failed restore: the volume is removed, the rest of the tree is as before. *)
Lemma populateVolume_failed `{!Env} hpc rl pool info req w e w' :
  no_faults → StoragePools (cfg hpc) !! pool = Some info → valid_name (cv_Name req) →
  snapshotproviders hpc !! pool = Some (reflinkProvider rl) → wf_fs (w_fs w) →
  w_fs w !! (pool_root info ++ [cv_Name req]) = Some NDir →
  mounts_below (pool_root info ++ [cv_Name req]) (w_mounts w) = [] →
  populateVolume hpc pool req w = (Fail e, w') →
  (∀ k, w_fs w' !! k = if decide (pool_root info ++ [cv_Name req] `prefix_of` k) then None else w_fs w !! k)
  ∧ w_mounts w' = w_mounts w.
Proof.
  intros Hnf Hpool Hname Hprov Hwf Hdir Hmnt. unfold populateVolume, restoreFromSnapshot.
  rewrite Hprov, (getPool_found _ _ _ Hpool). simpl.
  destruct (cv_VolumeContentSource req) as [[[id|]| |]|]; try done.
  unfold bind at 1, try at 1.
  pose proof (fills_restore rl id (Join [Path info; cv_Name req]) w) as [Hm Hk].
  rewrite resolve_Join in Hk by done. fold (pool_root info) in Hk.
  destruct (RestoreSnapshot _ _ _ w) as [[[]|e1|p] w1]; try done. simpl in *.
  erewrite run_bind_ret.
  2: { apply run_wrapErr_ret, Utils_DeleteVolume_ok; fold (pool_root info);
         [done..|by rewrite Hk by auto|by rewrite Hm]. }
  intros [= <- <-]. simpl. split; [|done]. intros k. rewrite lookup_rm_tree.
  fold (pool_root info). case_decide; auto.
Qed.

(** ** Trees with one more directory *)

Lemma lookup_ensure_dir p fs : is_Some (ensure_dir p fs !! p).
Proof.
  unfold ensure_dir. destruct (fs !! p) eqn:Hp; [by rewrite Hp|]. rewrite lookup_insert_eq. by eexists.
Qed.

Lemma lookup_ensure_dir_old p fs k x : fs !! k = Some x → ensure_dir p fs !! k = Some x.
Proof.
  intros Hk. unfold ensure_dir. destruct (fs !! p) eqn:Hp; [done|].
  rewrite lookup_insert_ne; [done|]. intros ->. congruence.
Qed.

Lemma ensure_dir_idem p fs : ensure_dir p (ensure_dir p fs) = ensure_dir p fs.
Proof. unfold ensure_dir at 1. by destruct (lookup_ensure_dir p fs) as [x ->]. Qed.

Lemma wf_ensure_dir p c fs :
  wf_fs fs → fs !! p = Some NDir → valid_name c → wf_fs (ensure_dir (p ++ [c]) fs).
Proof.
  intros ???. unfold ensure_dir. destruct (fs !! (p ++ [c])) eqn:Hp; [done|]. by apply wf_insert_dir.
Qed.

(** Removing a directory that was just added gives the tree back. *)
Lemma rm_tree_ensure_dir p fs :
  wf_fs fs → fs !! p = None → rm_tree p (ensure_dir p fs) = fs.
Proof.
  intros Hwf Hp. unfold ensure_dir. rewrite Hp. by apply rm_tree_insert_new.
Qed.
