(* ===== verification/ControllerProps.v ===== *)
(** * Properties of the controller service: volumes

    What a client of the CSI controller can rely on when it creates and
    deletes volumes. *)
From S2P Require Import Prelude GoStrings GoPath GoErrors OS OSFacts Demo Csi Utils Health Reflink.
From S2P Require Import ReflinkFacts ControllerServer ControllerFacts.
Open Scope Z_scope.

(** ** A concrete controller *)

Definition demoLegacy : StoragePoolInfo :=
  {| Name := "legacy"; Path := "/data"; SnapshotPath := Some "/snap";
     Utils.SnapshotProvider := Some ReflinkProvider; Shared := false |}.
Definition demoFast : StoragePoolInfo :=
  {| Name := "fast"; Path := "/fast"; SnapshotPath := None;
     Utils.SnapshotProvider := None; Shared := true |}.
Definition demoConfig : Config :=
  {| DriverName := "hostpath.csi.kubevirt.io"; Endpoint := "unix:///csi/csi.sock"; NodeID := "node01";
     StoragePools := {[ "legacy" := demoLegacy; "fast" := demoFast ]};
     DefaultStoragePoolName := "legacy"; Version := "v0" |}.
Definition demoController : hostPathController :=
  {| cfg := demoConfig; snapshotproviders := {[ "legacy" := reflinkProvider demoReflink ]} |}.
Definition demoPools : world := World
  (tree [(["snap"], NDir); (["data"], NDir); (["data"; "vol1"], NDir);
         (["data"; "vol1"; "disk.img"], NFile "abc"); (["data"; "vol2"], NDir); (["fast"], NDir)]) [] 0 0.
Definition demoRequest (name : string) : CreateVolumeRequest :=
  {| cv_Name := name; cv_VolumeCapabilities := Some [{| cap_access := Some (MountAccess "ext4" []) |}];
     cv_Parameters := ∅; cv_AccessibilityRequirements := None; cv_VolumeContentSource := None |}.

Lemma demo_accepted name : valid_name name → accepted demoController (demoRequest name) demoLegacy.
Proof.
  intros Hn. split; [|done..]. simpl. destruct (Z.eqb_spec (len name) 0) as [He|]; [|done].
  apply len_0 in He as ->. by destruct Hn.
Qed.

(** Pools of a concrete configuration by enumeration. *)
Definition pools_ready_b (config : Config) (fs : fstree) : bool :=
  forallb (λ kv : string * StoragePoolInfo,
    bool_decide (Path kv.2 ≠ "") && bool_decide (fs !! pool_root kv.2 = Some NDir))
    (map_to_list (StoragePools config)).
Lemma pools_ready_b_spec config fs : pools_ready_b config fs = true → pools_ready config fs.
Proof.
  unfold pools_ready_b. rewrite forallb_forall. intros Hall pool info Hp.
  specialize (Hall (pool, info) ltac:(by apply list_elem_of_In, elem_of_map_to_list)).
  simpl in Hall. by apply andb_prop in Hall as [?%bool_decide_eq_true ?%bool_decide_eq_true].
Qed.


(** A statement about all pools of a concrete configuration, pool by pool. *)
Definition all_pools (config : Config) (P : StoragePoolInfo → Prop) : Prop :=
  Forall (λ kv : string * StoragePoolInfo, P kv.2) (map_to_list (StoragePools config)).
Lemma all_pools_spec config P :
  all_pools config P → ∀ pool info, StoragePools config !! pool = Some info → P info.
Proof.
  unfold all_pools. rewrite Forall_forall. intros Hall pool info Hp.
  by apply (Hall (pool, info)), elem_of_map_to_list.
Qed.
Lemma unique_volume config fs id p :
  all_pools config (λ info, fs !! (pool_root info ++ [id]) = Some NDir → pool_root info = p) →
  ∀ q, has_volume config fs id q → q = p.
Proof. intros Hall q (pool&info&Hp&->&Hl). by eapply (all_pools_spec _ _ Hall). Qed.
Ltac by_pools := apply all_pools_spec; unfold all_pools; by_decide.
Ltac by_unique_volume := apply unique_volume; unfold all_pools; by_decide.
Ltac by_has_volume pool info := exists pool, info; split_and!; vm_compute; reflexivity.

(** ** Creating *)

(** C29: An accepted request without a snapshot source succeeds when no system call fails: what
    the chosen pool has under the volume's name afterwards is a new directory, or what was there
    before (a directory, or a regular file, which the code takes for the volume), and nothing else
    changed; the response names the volume, the capacity is the rounded size of the pool's file system, and the
    topology pins the volume to this node exactly when the pool is not shared. *)
Theorem create_volume_spec `{!Env} hpc r info st w :
  no_faults → accepted hpc r info → plain r → statfs (w_tick w) (Path info) = inr st →
  wf_fs (w_fs w) → w_fs w !! pool_root info = Some NDir →
  ∃ v w', CreateVolume hpc (Some r) w = (Ret v, w') ∧
    v_VolumeId v = cv_Name r ∧ v_VolumeContext v = cv_Parameters r ∧
    v_CapacityBytes v = roundDownCapacityPretty (st_capacity (fsStats st)) ∧
    (v_AccessibleTopology v = [] ↔ Shared info = true) ∧
    (∀ t, t ∈ v_AccessibleTopology v → Segments t !! TopologyKeyNode = Some (NodeID (cfg hpc))) ∧
    w_fs w' !! (pool_root info ++ [cv_Name r]) =
      Some (default NDir (w_fs w !! (pool_root info ++ [cv_Name r]))) ∧
    (∀ k, k ≠ pool_root info ++ [cv_Name r] → w_fs w' !! k = w_fs w !! k) ∧ w_mounts w' = w_mounts w.
Proof.
  intros. destruct (CreateVolume_plain hpc r info st w) as (w'&Hrun&Hfs&Hm); [done..|].
  exists (volume_of hpc r info st), w'. split_and!; [done..| | | | |done]; simpl.
  - by destruct (Shared info).
  - destruct (Shared info); [by intros t ?%not_elem_of_nil|].
    intros t ->%list_elem_of_singleton. simpl. by rewrite lookup_singleton_eq.
  - rewrite Hfs. unfold ensure_dir. destruct (w_fs w !! (pool_root info ++ [cv_Name r])) eqn:Hl; [by rewrite Hl|]. by rewrite lookup_insert_eq.
  - intros k Hk. rewrite Hfs. unfold ensure_dir. case_match; [done|]. by rewrite lookup_insert_ne.
Qed.

Lemma create_volume_spec_witness :
  ∃ v w', CreateVolume demoController (Some (demoRequest "new")) demoPools = (Ret v, w') ∧
    w_fs w' !! ["data"; "new"] = Some NDir.
Proof.
  destruct (create_volume_spec demoController (demoRequest "new") demoLegacy demo_statfs demoPools)
    as (v&w'&Hr&_&_&_&_&_&Hfs&_&_);
    [done|apply demo_accepted; by_decide|done|done|by_wf|vm_compute; reflexivity|].
  exists v, w'. split; [exact Hr|exact Hfs].
Defined.

(** CreateVolume is idempotent: repeating a request that succeeded gives the same response
    and does not change the tree. *)
Theorem create_volume_idempotent `{!Env} hpc r info v w w1 :
  no_faults → (∀ n m s, statfs n s = statfs m s) → accepted hpc r info → plain r →
  wf_fs (w_fs w) → w_fs w !! pool_root info = Some NDir →
  CreateVolume hpc (Some r) w = (Ret v, w1) →
  ∃ w2, CreateVolume hpc (Some r) w1 = (Ret v, w2) ∧ w_fs w2 = w_fs w1 ∧ w_mounts w2 = w_mounts w1.
Proof.
  intros Hnf Hstable Hacc Hplain Hwf Hroot Hrun.
  destruct (CreateVolume_ret_inv hpc r v w w1) as (info'&st&_&Hacc'&Hst&_&_); [apply Hacc|done..|].
  assert (info' = info) as -> by (pose proof (acc_pool _ _ _ Hacc); pose proof (acc_pool _ _ _ Hacc'); congruence).
  destruct (CreateVolume_plain hpc r info st w) as (w1'&Hrun'&Hfs&Hm); [done..|].
  rewrite Hrun in Hrun'. injection Hrun' as -> <-.
  destruct (CreateVolume_plain hpc r info st w1) as (w2&Hrun2&Hfs2&Hm2); [done..| | | |].
  - by rewrite (Hstable _ (w_tick w)).
  - rewrite Hfs. by apply wf_ensure_dir, Hacc.
  - rewrite Hfs. by apply lookup_ensure_dir_old.
  - exists w2. split_and!; [done| |done]. by rewrite Hfs2, Hfs, ensure_dir_idem.
Qed.

Definition demoCreated : world := (CreateVolume demoController (Some (demoRequest "new")) demoPools).2.

Lemma create_volume_idempotent_witness :
  ∃ v w2, CreateVolume demoController (Some (demoRequest "new")) demoCreated = (Ret v, w2) ∧
    w_fs w2 = w_fs demoCreated.
Proof.
  destruct (create_volume_idempotent demoController (demoRequest "new") demoLegacy
              (volume_of demoController (demoRequest "new") demoLegacy demo_statfs) demoPools demoCreated)
    as (w2&Hr&Hfs&_);
    [done|done|apply demo_accepted; by_decide|done|by_wf|vm_compute; reflexivity|vm_compute; reflexivity|].
  eexists _, w2. split; [exact Hr|exact Hfs].
Defined.

(** A request without a name, without a mount capability, or whose accessibility
    requirements do not name this node is refused with InvalidArgument before any system call:
    the world is not touched. *)
Theorem create_volume_rejects `{!Env} hpc req w :
  (req = None ∨
   ∃ r, req = Some r ∧
     (cv_Name r = "" ∨
      (∀ caps c, cv_VolumeCapabilities r = Some caps → c ∈ caps → GetMount c = None) ∨
      (∃ t, cv_AccessibilityRequirements r = Some t ∧
         ∀ s, s ∈ Requisite t ++ Preferred t →
           default "" (Segments s !! TopologyKeyNode) ≠ NodeID (cfg hpc)))) →
  ∃ msg, CreateVolume hpc req w = (Fail (StatusError InvalidArgument msg), w).
Proof.
  intros [->|(r&->&Hbad)]; [by eexists|].
  destruct (validateCreateVolumeRequest (Some r)) as [e|] eqn:Hval.
  { destruct (validate_code (Some r) e Hval) as [msg ->]. exists msg. unfold CreateVolume. by rewrite Hval. }
  destruct Hbad as [Hn|[Hm|(t&Ht&Hs)]].
  - simpl in Hval. by rewrite Hn in Hval.
  - simpl in Hval. destruct (len (cv_Name r) =? 0); [done|].
    destruct (cv_VolumeCapabilities r) as [caps|]; [|done]. by rewrite hasMountAccess_none in Hval by eauto.
  - exists "not correct node". unfold CreateVolume. rewrite Hval.
    erewrite !run_bind_ret by done. unfold validateCreateVolumeRequestTopology. rewrite Ht.
    rewrite !existsb_onNode_false; [done|intros; apply Hs, elem_of_app; auto..].
Qed.

Lemma create_volume_rejects_witness :
  ∃ msg, CreateVolume demoController (Some (demoRequest "")) demoPools =
           (Fail (StatusError InvalidArgument msg), demoPools).
Proof.
  apply create_volume_rejects. right. eexists. split; [reflexivity|]. left. reflexivity.
Defined.

(** ** Deleting *)

(** Whatever id is asked for and whatever system calls fail, DeleteVolume changes nothing
    outside one directory that is a direct child, of exactly that name, of a configured pool
    (as long as nothing is mounted inside it): ids such as ".." or "../other" reach nothing. *)
Theorem delete_volume_confined `{!Env} hpc req w :
  wf_fs (w_fs w) →
  quiet w (DeleteVolume hpc req w).2 ∨
  ∃ id p, req = Some id ∧ valid_name id ∧ has_volume (cfg hpc) (w_fs w) id p ∧
    confined [p ++ [id]] w (DeleteVolume hpc req w).2.
Proof.
  intros Hwf. destruct (DeleteVolume_frame hpc req w Hwf) as [?|(id&pool&info&?&?&?&?&?)]; [by left|].
  right. exists id, (pool_root info). split_and!; [done..| |done]. by exists pool, info.
Qed.

Lemma delete_volume_confined_witness :
  quiet demoPools (DeleteVolume demoController (Some "..") demoPools).2.
Proof.
  destruct (delete_volume_confined demoController (Some "..") demoPools) as [Hq|(id&p&Hid&Hv&_)];
    [by_wf|exact Hq|].
  injection Hid as <-. exfalso. revert Hv. refine (bool_decide_unpack (¬ valid_name "..") _). vm_compute. exact I.
Defined.

(** When no call fails and nothing is mounted inside the volume, deleting a volume whose
    name occurs in one pool root removes that directory and everything below it, changes nothing
    else, and deleting it again succeeds and changes nothing. *)
Theorem delete_volume_removes `{!Env} hpc id p w :
  no_faults → wf_fs (w_fs w) → pools_ready (cfg hpc) (w_fs w) →
  has_volume (cfg hpc) (w_fs w) id p →
  (∀ q, has_volume (cfg hpc) (w_fs w) id q → q = p) →
  mounts_below (p ++ [id]) (w_mounts w) = [] →
  (∀ pool info, StoragePools (cfg hpc) !! pool = Some info → ¬ p ++ [id] `prefix_of` pool_root info) →
  ∃ w1 w2, DeleteVolume hpc (Some id) w = (Ret tt, w1) ∧
    w_fs w1 = rm_tree (p ++ [id]) (w_fs w) ∧ w_mounts w1 = w_mounts w ∧
    DeleteVolume hpc (Some id) w1 = (Ret tt, w2) ∧ w_fs w2 = w_fs w1.
Proof.
  intros Hnf Hwf Hready Hhas Huniq Hm Hout.
  assert (id ≠ "") as Hid by by apply (has_volume_name _ _ _ _ Hwf Hhas).
  destruct (DeleteVolume_ok Hnf hpc id w) as (w1&Hrun&Hm1&Hcase); [done..| |].
  { by intros q ->%Huniq. }
  destruct Hcase as [[_ Hno]|(q&Hq&_&Hfs)]; [by destruct (Hno p)|]. apply Huniq in Hq as ->.
  assert (∀ q, ¬ has_volume (cfg hpc) (w_fs w1) id q) as Hgone.
  { intros q Hq. rewrite Hfs in Hq. apply (has_volume_rm (cfg hpc)) in Hq as [Hq Hpre].
    apply Huniq in Hq as ->. by apply Hpre. }
  destruct (DeleteVolume_ok Hnf hpc id w1) as (w2&Hrun2&Hm2&Hcase2); [done|..].
  - rewrite Hfs. by apply wf_rm_tree; [apply snoc_not_nil|].
  - rewrite Hfs. by apply pools_ready_rm.
  - by intros q ?%Hgone.
  - destruct Hcase2 as [[Hfs2 _]|(q&?%Hgone&_)]; [|done]. by exists w1, w2.
Qed.

Lemma delete_volume_removes_witness :
  ∃ w1 w2, DeleteVolume demoController (Some "vol1") demoPools = (Ret tt, w1) ∧
    w_fs w1 !! ["data"; "vol1"; "disk.img"] = None ∧
    DeleteVolume demoController (Some "vol1") w1 = (Ret tt, w2).
Proof.
  destruct (delete_volume_removes demoController "vol1" ["data"] demoPools) as (w1&w2&H1&Hfs&_&H2&_).
  - done.
  - by_wf.
  - apply pools_ready_b_spec. vm_compute. reflexivity.
  - by_has_volume "legacy" demoLegacy.
  - by_unique_volume.
  - done.
  - by_pools.
  - exists w1, w2. split; [exact H1|]. split; [|exact H2]. rewrite Hfs. vm_compute. reflexivity.
Defined.

(** C10: Creating a volume under a name no pool uses and deleting it again gives back exactly
    the tree there was before. *)
Theorem create_delete_roundtrip `{!Env} hpc r info v w w1 :
  no_faults → accepted hpc r info → plain r → wf_fs (w_fs w) → pools_ready (cfg hpc) (w_fs w) →
  (∀ pool i, StoragePools (cfg hpc) !! pool = Some i → w_fs w !! (pool_root i ++ [cv_Name r]) = None) →
  mounts_below (pool_root info ++ [cv_Name r]) (w_mounts w) = [] →
  CreateVolume hpc (Some r) w = (Ret v, w1) →
  ∃ w2, DeleteVolume hpc (Some (v_VolumeId v)) w1 = (Ret tt, w2) ∧ w_fs w2 = w_fs w ∧
    w_mounts w2 = w_mounts w.
Proof.
  intros Hnf Hacc Hplain Hwf Hready Hfresh Hmnt Hrun.
  destruct (CreateVolume_ret_inv hpc r v w w1) as (info'&st&_&Hacc'&Hst&->&_); [apply Hacc|done..|].
  pose proof (acc_pool _ _ _ Hacc) as Hpool.
  assert (info' = info) as -> by (pose proof (acc_pool _ _ _ Hacc'); congruence).
  assert (w_fs w !! pool_root info = Some NDir) as Hroot by by eapply Hready.
  destruct (CreateVolume_plain hpc r info st w) as (w1'&Hrun'&Hfs&Hm); [done..|].
  rewrite Hrun in Hrun'. injection Hrun' as <-. simpl.
  pose proof (Hfresh _ _ Hpool) as Hnew.
  assert (has_volume (cfg hpc) (w_fs w1) (cv_Name r) (pool_root info)) as Hhas.
  { exists (getStoragePoolNameFromMap (cv_Parameters r)), info. split_and!; [done..|].
    rewrite Hfs. unfold ensure_dir. by rewrite Hnew, lookup_insert_eq. }
  assert (∀ q, has_volume (cfg hpc) (w_fs w1) (cv_Name r) q → q = pool_root info) as Huniq.
  { intros q (pool&i&Hp&->&Hl). rewrite Hfs in Hl. unfold ensure_dir in Hl. rewrite Hnew in Hl.
    destruct (decide (pool_root i = pool_root info)) as [|Hne]; [done|].
    rewrite lookup_insert_ne in Hl; [by rewrite (Hfresh _ _ Hp) in Hl|].
    by intros [? _]%app_inj_tail. }
  destruct (DeleteVolume_ok Hnf hpc (cv_Name r) w1) as (w2&Hdel&Hm2&Hcase).
  - apply (acc_name _ _ _ Hacc).
  - rewrite Hfs. by apply wf_ensure_dir, Hacc.
  - intros pool i Hp. destruct (Hready pool i Hp). split; [done|].
    rewrite Hfs. by apply lookup_ensure_dir_old.
  - intros q ->%Huniq. by rewrite Hm.
  - exists w2. split; [done|]. destruct Hcase as [[_ Hno]|(q&->%Huniq&_&->)]; [by destruct (Hno (pool_root info))|].
    rewrite Hfs, Hm2, Hm. by rewrite rm_tree_ensure_dir.
Qed.

Lemma create_delete_roundtrip_witness :
  ∃ w2, DeleteVolume demoController (Some "new") demoCreated = (Ret tt, w2) ∧ w_fs w2 = w_fs demoPools.
Proof.
  destruct (create_delete_roundtrip demoController (demoRequest "new") demoLegacy
              (volume_of demoController (demoRequest "new") demoLegacy demo_statfs) demoPools demoCreated)
    as (w2&Hr&Hfs&_);
    [done|apply demo_accepted; by_decide|done|by_wf|apply pools_ready_b_spec; vm_compute; reflexivity
    |by_pools|done|vm_compute; reflexivity|].
  exists w2. split; [exact Hr|exact Hfs].
Defined.

(** ** Volumes from snapshots *)

(** C21: A volume that is reported created under a new name from a snapshot whose own id was new when
    it was reported created holds exactly the tree that the snapshot's source volume had when the
    snapshot was taken, whatever faults the calls met and whatever happened in between outside the
    snapshot's data. *)
Theorem volume_from_snapshot `{!Env} hpc rl req s id src w0 w1 w v w' info :
  snapshotproviders hpc !! getStoragePoolNameFromMap (cv_Parameters req) = Some (reflinkProvider rl) →
  StoragePools (cfg hpc) !! getStoragePoolNameFromMap (cv_Parameters req) = Some info →
  Path info = sourcePath rl → separate rl →
  (** the snapshot was taken in [w0] *)
  valid_name id → valid_name src → wf_fs (w_fs w0) →
  w_fs w0 !! resolve (path rl) = Some NDir → w_fs w0 !! snapDir rl id = None →
  w_fs w0 !! volDir rl src = Some NDir →
  Reflink.CreateSnapshot rl id src w0 = (Ret s, w1) →
  (** the volume is created in [w] *)
  wf_fs (w_fs w) → (∀ rel, w_fs w !! (snapData rl id ++ rel) = w_fs w1 !! (snapData rl id ++ rel)) →
  valid_name (cv_Name req) → cv_VolumeContentSource req = Some (FromSnapshot (Some id)) →
  w_fs w !! (pool_root info ++ [cv_Name req]) = None →
  CreateVolume hpc (Some req) w = (Ret v, w') →
  v_VolumeId v = cv_Name req ∧
  ∀ rel, w_fs w' !! (pool_root info ++ [cv_Name req] ++ rel) = w_fs w0 !! (volDir rl src ++ rel).
Proof.
  intros Hprov Hpool Hsp Hsep Hid Hsrc Hwf0 Hroot0 Hnone0 Hvol0 Hsnap Hwf Hkeep Hname Hcs Hnew Hrun.
  destruct (CreateSnapshot_created rl id src w0 s w1) as [Hc _]; [done..|].
  destruct (CreateVolume_ret_inv hpc req v w w') as (info'&st&w2&Hacc&_&->&Hwf2&_&Hframe&Hold&Hdir&Hpop); [done..|].
  assert (info' = info) as -> by (pose proof (acc_pool _ _ _ Hacc); congruence).
  specialize (Hdir Hnew).
  pose proof (populate_restored _ _ _ _ _ _ _ _ Hprov Hpool Hcs Hpop) as Hrest. simpl in Hrest.
  assert (resolve (Join [Path info; cv_Name req]) = pool_root info ++ [cv_Name req]) as Htarget
    by by apply resolve_Join.
  assert (apart (resolve (path rl)) (pool_root info)) as Hap.
  { unfold pool_root. rewrite Hsp. exact Hsep. }
  split; [done|].
  destruct (RestoreSnapshot_ret rl id (Join [Path info; cv_Name req]) w2 w') as [Hd Hr]; [done..| | |done|].
  { rewrite Htarget, <-(app_nil_r (resolve (path rl))). by apply apart_below. }
  { intros rel Hrel. rewrite Htarget, Hframe.
    - destruct (w_fs w !! ((pool_root info ++ [cv_Name req]) ++ rel)) as [n|] eqn:Hn; [|done].
      rewrite (wf_dir_above _ _ _ _ Hwf Hrel Hn) in Hnew. done.
    - intros Hp%prefix_length. rewrite !length_app in Hp. destruct rel; [done|]. simpl in Hp. lia. }
  rewrite Htarget in *. intros rel. rewrite app_assoc. destruct (decide (rel = [])) as [->|Hrel].
  { rewrite !app_nil_r. congruence. }
  rewrite Hr, <-(created_data _ _ _ _ _ Hc), <-Hkeep by done. apply Hframe.
  intros Hp. destruct (apart_below (resolve (path rl)) (pool_root info) ([id; dataPath] ++ rel) [cv_Name req])
    as [Hn _]; [done|]. apply Hn. unfold snapData in Hp. by rewrite <-app_assoc in Hp.
Qed.

Definition demoSnapTaken : world := (Reflink.CreateSnapshot demoReflink "s1" "vol1" demoPools).2.
Definition demoFromSnapshot (name id : string) : CreateVolumeRequest :=
  {| cv_Name := name; cv_VolumeCapabilities := Some [{| cap_access := Some (MountAccess "ext4" []) |}];
     cv_Parameters := ∅; cv_AccessibilityRequirements := None;
     cv_VolumeContentSource := Some (FromSnapshot (Some id)) |}.
Definition demoCloned : world :=
  (CreateVolume demoController (Some (demoFromSnapshot "copy" "s1")) demoSnapTaken).2.

Lemma volume_from_snapshot_witness :
  w_fs demoCloned !! ["data"; "copy"; "disk.img"] = Some (NFile "abc").
Proof.
  destruct (volume_from_snapshot demoController demoReflink (demoFromSnapshot "copy" "s1") demoSnapshot
    "s1" "vol1" demoPools demoSnapTaken demoSnapTaken
    (volume_of demoController (demoFromSnapshot "copy" "s1") demoLegacy demo_statfs) demoCloned demoLegacy)
    as [_ Hrel];
    [reflexivity|reflexivity|reflexivity|by_decide|by_decide|by_decide
    |by_wf|vm_compute; reflexivity..|by_wf|reflexivity|by_decide|reflexivity|vm_compute; reflexivity
    |vm_compute; reflexivity|].
  etransitivity; [exact (Hrel ["disk.img"])|]. vm_compute. reflexivity.
Defined.

(** When no system call fails, a CreateVolume under a new name that reports an error leaves
    the tree exactly as it was, also when the snapshot is missing or [cp] stopped half-way: the
    directory made for the volume and everything restored into it is removed again. *)
Theorem create_volume_failure_clean `{!Env} hpc rl req info e w w' :
  no_faults → accepted hpc req info →
  snapshotproviders hpc !! getStoragePoolNameFromMap (cv_Parameters req) = Some (reflinkProvider rl) →
  wf_fs (w_fs w) → w_fs w !! pool_root info = Some NDir →
  w_fs w !! (pool_root info ++ [cv_Name req]) = None →
  mounts_below (pool_root info ++ [cv_Name req]) (w_mounts w) = [] →
  CreateVolume hpc (Some req) w = (Fail e, w') →
  w_fs w' = w_fs w ∧ w_mounts w' = w_mounts w.
Proof.
  intros Hnf Hacc Hprov Hwf Hroot Hnew Hmnt Hrun.
  destruct (statfs (w_tick w) (Path info)) as [en|st] eqn:Hst.
  { rewrite (CreateVolume_statfs_error hpc req info en w Hacc Hst) in Hrun. by injection Hrun as _ <-. }
  destruct (CreateVolume_run hpc req info st w) as (w1&Hfs1&Hm1&_&Heq); [done..|].
  rewrite Heq in Hrun. clear Heq.
  destruct (populateVolume_failed hpc rl (getStoragePoolNameFromMap (cv_Parameters req)) info req w1 e w')
    as [Hfs' Hm']; [done|apply Hacc|apply Hacc|done|..].
  - rewrite Hfs1. by apply wf_ensure_dir, Hacc.
  - rewrite Hfs1. unfold ensure_dir. by rewrite Hnew, lookup_insert_eq.
  - by rewrite Hm1.
  - by apply bind_ret_fail_inv in Hrun.
  - rewrite Hm', Hm1. split; [|done]. apply map_eq. intros k. rewrite Hfs'.
    rewrite <-(rm_tree_ensure_dir (pool_root info ++ [cv_Name req]) (w_fs w)), lookup_rm_tree by done.
    by rewrite Hfs1.
Qed.

(** The snapshot "s2" was never taken. *)
Lemma create_volume_failure_clean_witness :
  w_fs (CreateVolume demoController (Some (demoFromSnapshot "copy" "s2")) demoPools).2 = w_fs demoPools.
Proof.
  apply (create_volume_failure_clean demoController demoReflink (demoFromSnapshot "copy" "s2") demoLegacy
    (StatusError NotFound "snapshot s2 not found, unable to restore into volume") demoPools);
    [done|split; [reflexivity..|by_decide]|reflexivity|by_wf|vm_compute; reflexivity
    |vm_compute; reflexivity|done|vm_compute; reflexivity].
Defined.
