(* ===== verification/ControllerList.v ===== *)
(** * Properties of the controller service: listing volumes

    [ListVolumes] and [ControllerGetVolume]: pages of the sorted directories of
    all pools, the token of the next page, and the agreement of the two. *)
From S2P Require Import Prelude GoStrings GoPath GoErrors OS OSFacts Demo Csi Utils Health Reflink.
From S2P Require Import ReflinkFacts ControllerServer ControllerFacts ControllerProps.
Open Scope Z_scope.

(** ** Slices *)

Lemma slice_ok {A} (l : list A) lo hi w :
  0 ≤ lo ≤ hi → hi ≤ Z.of_nat (length l) →
  slice l lo hi w = (Ret (take (Z.to_nat (hi - lo)) (drop (Z.to_nat lo) l)), w).
Proof.
  intros [H1 H2] H3. unfold slice. apply Z.leb_le in H1, H2, H3. by rewrite H1, H2, H3.
Qed.

Lemma slice_panic {A} (l : list A) lo hi w :
  hi < lo ∨ lo < 0 ∨ Z.of_nat (length l) < hi → (slice l lo hi w).1 = Panic "slice bounds out of range".
Proof.
  intros Hbad. unfold slice.
  destruct (Z.leb_spec 0 lo), (Z.leb_spec lo hi), (Z.leb_spec hi (Z.of_nat (length l))); try done; lia.
Qed.

(** Where a page that starts at [start] ends. *)
Definition page_end (start maxEntries n : Z) : Z :=
  if maxEntries =? 0 then n else Z.min (start + maxEntries) n.

Lemma page_end_code start maxEntries n :
  0 ≤ start < n → 0 ≤ maxEntries < 2 ^ 31 → n < 2 ^ 62 →
  let maxLength := if maxEntries =? 0 then n else maxEntries in
  (if n <? int64 (start + maxLength) then n else int64 (start + maxLength)) = page_end start maxEntries n
  ∧ start < page_end start maxEntries n ≤ n.
Proof.
  intros Hs Hm Hn. cbv zeta. unfold page_end.
  rewrite int64_id by (unfold is_int64; destruct (Z.eqb_spec maxEntries 0); lia).
  destruct (Z.eqb_spec maxEntries 0) as [->|].
  - destruct (Z.ltb_spec n (start + n)); lia.
  - destruct (Z.ltb_spec n (start + maxEntries)); lia.
Qed.

(** ** Entries *)

Definition entryId (e : VolumeEntry) : string := v_VolumeId (ve_Volume e).

Section entries.
Context `{!Env} (hpc : hostPathController).

Lemma volumeEntry_ret cm i p w :
  ∃ e w', volumeEntry hpc cm i p w = (Ret e, w') ∧ quiet w w' ∧ entryId e = i ∧
    v_CapacityBytes (ve_Volume e) = default 0 (cm !! Dir p).
Proof.
  unfold volumeEntry. destruct (health_returns p w) as (b&msg&w'&Hh).
  pose proof (respects_health quiet p w) as Hq. rewrite Hh in Hq.
  run_ret Hh. do 2 eexists. split; [reflexivity|]. done.
Qed.

(** The loop of [ListVolumes] always completes, one entry per directory. *)
Lemma appendEntries_ret cm l acc w :
  ∃ es w', foldM (appendEntry hpc cm) acc l w = (Ret (acc ++ es), w') ∧ quiet w w' ∧
    Forall2 (λ d e, ∃ w1 w2, volumeEntry hpc cm (Base d) d w1 = (Ret e, w2) ∧ quiet w w1) l es.
Proof.
  revert acc w. induction l as [|d l IH]; intros acc w; simpl.
  { exists [], w. rewrite app_nil_r. split_and!; [done..|constructor]. }
  destruct (volumeEntry_ret cm (Base d) d w) as (e&w1&He&Hq&_).
  unfold appendEntry at 1. rewrite bind_assoc. run_ret He. erewrite run_bind_ret by done.
  destruct (IH (acc ++ [e]) w1) as (es&w2&->&Hq2&Hes). exists (e :: es), w2.
  rewrite <-app_assoc. split; [done|]. split; [by etransitivity|]. constructor; [by exists w, w1|].
  eapply Forall2_impl; [done|]. intros d' e' (w3&w4&?&?). exists w3, w4. split; [done|].
  by etransitivity.
Qed.

(** A page of a non-empty listing, for a token that is one of the names. *)
Lemma volumePage_ret cm dirs token maxEntries k d w :
  dirs !! k = Some d → Base d = token → Forall (λ m, Base m ≠ token) (take k dirs) →
  0 ≤ maxEntries < 2 ^ 31 → Z.of_nat (length dirs) < 2 ^ 62 →
  let n := Z.of_nat (length dirs) in
  let hi := page_end (Z.of_nat k) maxEntries n in
  ∃ es w', volumePage hpc cm dirs token maxEntries w =
      (Ret {| lv_Entries := es;
              lv_NextToken := if hi <? n - 1 then default "" (Base <$> dirs !! Z.to_nat hi) else "" |}, w') ∧
    quiet w w' ∧
    Forall2 (λ d e, ∃ w1 w2, volumeEntry hpc cm (Base d) d w1 = (Ret e, w2) ∧ quiet w w1)
      (take (Z.to_nat (hi - Z.of_nat k)) (drop k dirs)) es.
Proof.
  intros Hk Hb Hfirst Hmax Hlen n hi. unfold volumePage. fold n.
  assert (IndexOfStartingToken token dirs = Z.of_nat k) as Hidx by by apply (IndexOf_found 0 _ _ _ d).
  rewrite Hidx. pose proof (lookup_lt_Some _ _ _ Hk) as Hlt.
  destruct (Z.eqb_spec (Z.of_nat k) (-1)); [lia|].
  destruct (page_end_code (Z.of_nat k) maxEntries n) as [Hend Hbounds]; [lia..|].
  cbv zeta in Hend. rewrite Hend. fold hi. fold hi in Hbounds.
  erewrite run_bind_ret by (apply slice_ok; lia). rewrite Nat2Z.id.
  destruct (appendEntries_ret cm (take (Z.to_nat (hi - Z.of_nat k)) (drop k dirs)) [] w) as (es&w'&Hes&Hq&Hall).
  run_ret Hes. exists es, w'. split; [|done]. destruct (Z.ltb_spec hi (n - 1)) as [Hhi|]; [|done].
  unfold baseAt. destruct (Z.leb_spec 0 hi); [|lia].
  destruct (dirs !! Z.to_nat hi) as [d'|] eqn:Hd'; [done|].
  apply lookup_ge_None in Hd'. lia.
Qed.
End entries.

(** ** Capacities *)

(** The kernel gives the same statistics at any time, and gives them for every
    pool. *)
Definition stable_stats `{!Env} : Prop := ∀ n m s, statfs n s = statfs m s.
Definition stats_ready `{!Env} (config : Config) : Prop :=
  ∀ pool info, StoragePools config !! pool = Some info → ∃ st, statfs 0 (Path info) = inr st.

Section capacities.
Context `{!Env} (Hstable : stable_stats).

Definition capOf (s : string) : Z :=
  match statfs 0 s with
  | inr st => roundDownCapacityPretty (st_capacity (fsStats st))
  | inl _ => 0
  end.

(** The capacity map, whatever the order of the iteration that builds it. *)
Definition pool_caps (config : Config) : gmap string Z :=
  list_to_map ((λ kv : string * StoragePoolInfo, (Path kv.2, capOf (Path kv.2))) <$>
                 map_to_list (StoragePools config)).

Lemma Exists_cons_ne s pool info (l : list (string * StoragePoolInfo)) :
  Path info ≠ s →
  Exists (λ kv : string * StoragePoolInfo, Path kv.2 = s) l ↔
  Exists (λ kv : string * StoragePoolInfo, Path kv.2 = s) ((pool, info) :: l).
Proof. intros Hne. rewrite Exists_cons. naive_solver. Qed.

(** Maps whose values are determined by their keys. *)
Lemma caps_of_list_lookup l s :
  (list_to_map ((λ kv : string * StoragePoolInfo, (Path kv.2, capOf (Path kv.2))) <$> l) : gmap string Z) !! s =
  if bool_decide (Exists (λ kv : string * StoragePoolInfo, Path kv.2 = s) l) then Some (capOf s) else None.
Proof.
  induction l as [|[pool info] l IH].
  { rewrite bool_decide_eq_false_2; [done|by intros ?%Exists_nil]. }
  rewrite fmap_cons, list_to_map_cons. cbn [fst snd].
  destruct (decide (Path info = s)) as [<-|Hne].
  - rewrite lookup_insert_eq, bool_decide_eq_true_2; [done|]. by apply Exists_cons_hd.
  - rewrite lookup_insert_ne, IH by done. by rewrite (bool_decide_ext _ _ (Exists_cons_ne s pool info l Hne)).
Qed.

Lemma poolCapacities_ok hpc w :
  stats_ready (cfg hpc) →
  ∃ w', poolCapacities hpc w = (Ret (pool_caps (cfg hpc)), w') ∧ quiet w w'.
Proof.
  intros Hready. unfold poolCapacities.
  set (l := range_order _ (w_tick w) (StoragePools (cfg hpc))).
  assert (l ≡ₚ map_to_list (StoragePools (cfg hpc))) as Hperm by apply range_order_perm.
  assert (Forall (λ kv : string * StoragePoolInfo, ∃ st, statfs 0 (Path kv.2) = inr st) l) as Hl.
  { apply Forall_forall. intros [pool info]. rewrite Hperm, elem_of_map_to_list. apply Hready. }
  change (∃ w', foldM addCapacity ∅ l (tickw w) = (Ret (pool_caps (cfg hpc)), w') ∧ quiet w w').
  assert (∀ dn w1, quiet w w1 → ∃ w',
     foldM addCapacity (list_to_map ((λ kv : string * StoragePoolInfo, (Path kv.2, capOf (Path kv.2))) <$> dn)) l w1 =
       (Ret (list_to_map ((λ kv : string * StoragePoolInfo, (Path kv.2, capOf (Path kv.2))) <$> (reverse l ++ dn))), w')
     ∧ quiet w w') as Hgen.
  { clear Hperm. induction Hl as [|[pool info] l' [st Hst] Hl IH]; intros dn w1 Hq; [by exists w1|].
    cbn [foldM]. unfold addCapacity at 1. rewrite bind_assoc.
    erewrite run_bind_ret; [|apply getVolumeDirCapacity_ok; by rewrite (Hstable _ 0%nat)].
    erewrite run_bind_ret by done. destruct (IH ((pool, info) :: dn) (tickw w1)) as (w'&Hrun&Hq'); [done|].
    exists w'. rewrite reverse_cons, <-app_assoc. split; [|done]. etransitivity; [|exact Hrun].
    rewrite fmap_cons, list_to_map_cons. unfold capOf at 2. cbn [fst snd] in *. by rewrite Hst. }
  destruct (Hgen [] (tickw w)) as (w'&Hrun&Hq); [done|]. exists w'. split; [|done].
  simpl in Hrun. rewrite Hrun. do 2 f_equal. apply map_eq. intros s.
  unfold pool_caps. rewrite !caps_of_list_lookup, app_nil_r.
  erewrite bool_decide_ext; [done|]. by rewrite reverse_Permutation, Hperm.
Qed.
End capacities.

(** ** The handlers *)

(** Everything the listing needs: no call fails, statistics are stable and
    there for every pool, and every pool directory is in place. *)
Record calm `{!Env} (hpc : hostPathController) (fs : fstree) : Prop := {
  calm_faults : no_faults;
  calm_stable : stable_stats;
  calm_stats : stats_ready (cfg hpc);
  calm_pools : pools_ready (cfg hpc) fs;
  calm_wf : wf_fs fs;
}.

Definition dirs_of (hpc : hostPathController) (w : world) : list string :=
  volume_dirs (w_fs w) (StoragePools (cfg hpc)).

Section handlers.
Context `{!Env} (hpc : hostPathController).

(** The two reads that start a listing. *)
Lemma listing_reads {A} (k : gmap string Z → list string → M A) w :
  calm hpc (w_fs w) →
  ∃ w1, quiet w w1 ∧
    (capacityMap <- poolCapacities hpc ;; volumeDirs <- getVolumeDirectories hpc ;; k capacityMap volumeDirs) w
    = k (pool_caps (cfg hpc)) (dirs_of hpc w) w1.
Proof.
  intros [Hnf Hst Hstats Hpools Hwf].
  destruct (poolCapacities_ok Hst hpc w Hstats) as (w1&Hcap&Hq1). run_ret Hcap.
  assert (w_fs w1 = w_fs w) as Hfs by apply Hq1.
  destruct (getDirectories_ok (StoragePools (cfg hpc)) w1 Hnf) as (w2&Hdirs&Hq2).
  { by rewrite Hfs. }
  unfold getVolumeDirectories. run_ret Hdirs. exists w2. split; [by etransitivity|].
  unfold dirs_of. by rewrite Hfs.
Qed.

(** Tokens that select the directory number [k]: none for the first, and the
    first directory of that name when the name is a number. *)
Definition token_at (token : string) (dirs : list string) (k : nat) : Prop :=
  (token = "" ∧ k = 0%nat ∧ dirs ≠ []) ∨
  (token ≠ "" ∧ ParseUint 32 token ≠ None ∧
   ∃ d, dirs !! k = Some d ∧ Base d = token ∧ Forall (λ m, Base m ≠ token) (take k dirs)).

Lemma ListVolumes_ret req k w :
  calm hpc (w_fs w) → 0 ≤ lv_MaxEntries req < 2 ^ 31 →
  Z.of_nat (length (dirs_of hpc w)) < 2 ^ 62 →
  token_at (lv_StartingToken req) (dirs_of hpc w) k →
  let n := Z.of_nat (length (dirs_of hpc w)) in
  let hi := page_end (Z.of_nat k) (lv_MaxEntries req) n in
  ∃ es w', ListVolumes hpc (Some req) w =
      (Ret {| lv_Entries := es;
              lv_NextToken := if hi <? n - 1 then default "" (Base <$> dirs_of hpc w !! Z.to_nat hi) else "" |}, w') ∧
    quiet w w' ∧
    Forall2 (λ d e, ∃ w1 w2, volumeEntry hpc (pool_caps (cfg hpc)) (Base d) d w1 = (Ret e, w2) ∧ quiet w w1)
      (take (Z.to_nat (hi - Z.of_nat k)) (drop k (dirs_of hpc w))) es.
Proof.
  intros Hcalm Hmax Hlen Htok n hi. unfold ListVolumes.
  assert (validateListVolumesRequest (Some req) = None) as ->.
  { simpl. destruct (Z.ltb_spec (lv_MaxEntries req) 0); [lia|done]. }
  erewrite !run_bind_ret by done.
  destruct (listing_reads (listFrom hpc (lv_StartingToken req) (lv_MaxEntries req)) w Hcalm)
    as (w1&Hq&->). unfold listFrom.
  assert (∃ d rest, dirs_of hpc w = d :: rest) as (d0&rest&Hd0).
  { destruct (dirs_of hpc w) as [|d rest] eqn:Hd; [|eauto]. by destruct Htok as [(_&_&?)|(_&_&d&?&_)]. }
  set (tok := if decide (lv_StartingToken req = "") then Base d0 else lv_StartingToken req).
  assert (∃ d, dirs_of hpc w !! k = Some d ∧ Base d = tok ∧
               Forall (λ m, Base m ≠ tok) (take k (dirs_of hpc w))) as (d&Hk&Hb&Hf).
  { unfold tok. destruct Htok as [(->&->&_)|(Hne&_&d&Hk&Hb&Hf)].
    - rewrite decide_True by done. exists d0. rewrite Hd0. done.
    - rewrite decide_False by done. eauto. }
  destruct (volumePage_ret hpc (pool_caps (cfg hpc)) (dirs_of hpc w) tok (lv_MaxEntries req) k d w1)
    as (es&w'&Hpage&Hq'&Hes); [done..|].
  exists es, w'. split_and!.
  - etransitivity; [|exact Hpage]. unfold tok. rewrite Hd0. destruct Htok as [(-> &_&_)|(_&Hp&_)]; [done|].
    by rewrite (bool_decide_eq_false_2 (ParseUint 32 (lv_StartingToken req) = None)), andb_false_r.
  - by etransitivity.
  - eapply Forall2_impl; [done|]. intros x e (w2&w3&?&?). exists w2, w3. split; [done|]. by etransitivity.
Qed.
End handlers.

Section entry_facts.
Context `{!Env} (hpc : hostPathController).

(** The entry of a volume does not depend on when it is asked for. *)
Lemma volumeEntry_stable cm i p w1 w2 :
  no_faults → stable_stats → quiet w1 w2 →
  (volumeEntry hpc cm i p w1).1 = (volumeEntry hpc cm i p w2).1.
Proof.
  intros Hnf Hst (Hfs&_&_). unfold volumeEntry, doHealthCheckInControllerSide.
  unfold bind, try. rewrite !checkPathExist_run. unfold stat_result. rewrite !Hnf, Hfs.
  destruct (decide (p = "")); [done|]. destruct (w_fs w1 !! resolve p).
  - simpl. rewrite !checkIfSpace_run. simpl. by rewrite (Hst (S (w_tick w1)) (S (w_tick w2))).
  - simpl. by destruct (bool_decide _).
Qed.

(** The ids of the entries of a page. *)
Lemma page_ids cm w l es :
  Forall2 (λ d e, ∃ w1 w2, volumeEntry hpc cm (Base d) d w1 = (Ret e, w2) ∧ quiet w w1) l es →
  entryId <$> es = Base <$> l.
Proof.
  induction 1 as [|d e l es (w1&w2&He&_) _ IH]; [done|]. simpl. f_equal; [|done].
  destruct (volumeEntry_ret hpc cm (Base d) d w1) as (e'&w'&He'&_&Hid&_).
  congruence.
Qed.

Lemma dirs_of_ids id w :
  wf_fs (w_fs w) → id ∈ Base <$> dirs_of hpc w ↔ ∃ p, has_volume (cfg hpc) (w_fs w) id p.
Proof.
  intros Hwf. unfold dirs_of. rewrite list_elem_of_fmap. split.
  - intros (d&->&(pool&info&c&Hp&Hl&->)%elem_of_volume_dirs).
    rewrite Base_Join by by apply (wf_parent _ Hwf) in Hl as [_ ?].
    exists (pool_root info), pool, info. done.
  - intros (p&pool&info&Hp&->&Hl). exists (Join [Path info; id]). split.
    + by rewrite Base_Join by by apply (wf_parent _ Hwf) in Hl as [_ ?].
    + apply elem_of_volume_dirs. by exists pool, info, id.
Qed.
End entry_facts.

(** The whole listing. *)
Lemma ListVolumes_full `{!Env} hpc w :
  calm hpc (w_fs w) → Z.of_nat (length (dirs_of hpc w)) < 2 ^ 62 →
  ∃ es w', ListVolumes hpc (Some {| lv_MaxEntries := 0; lv_StartingToken := "" |}) w =
      (Ret {| lv_Entries := es; lv_NextToken := "" |}, w') ∧ quiet w w' ∧
    Forall2 (λ d e, ∃ w1 w2, volumeEntry hpc (pool_caps (cfg hpc)) (Base d) d w1 = (Ret e, w2) ∧ quiet w w1)
      (dirs_of hpc w) es.
Proof.
  intros Hcalm Hlen. destruct (dirs_of hpc w) as [|d l] eqn:Hd.
  - unfold ListVolumes. erewrite !run_bind_ret by done.
    destruct (listing_reads hpc (listFrom hpc "" 0) w Hcalm) as (w1&Hq&Hrun).
    exists [], w1. split; [|by split]. etransitivity; [exact Hrun|]. unfold listFrom. by rewrite Hd.
  - destruct (ListVolumes_ret hpc {| lv_MaxEntries := 0; lv_StartingToken := "" |} 0 w)
      as (es&w'&Hrun&Hq&Hes); [done|done|by rewrite Hd|left; by rewrite Hd|].
    unfold page_end in Hrun, Hes. cbn [lv_MaxEntries Z.eqb] in Hrun, Hes.
    rewrite Z.sub_0_r, Nat2Z.id, drop_0, take_ge, Hd in Hes by lia.
    exists es, w'. split; [|done]. etransitivity; [exact Hrun|]. by rewrite (proj2 (Z.ltb_ge _ _)) by lia.
Qed.

Lemma dirs_base_nonempty hpc w id : wf_fs (w_fs w) → id ∈ Base <$> dirs_of hpc w → id ≠ "".
Proof.
  intros Hwf (p&Hp)%(dirs_of_ids hpc id w Hwf). by apply (has_volume_name _ _ _ _ Hwf Hp).
Qed.

(** C32: Without a page size and a token, ListVolumes reports exactly the volumes there are: the
    names of the direct sub-directories of all pools, in the order of their paths and whatever
    order the pools are visited in, with no token for a next page, and changes nothing. *)
Theorem list_volumes_complete `{!Env} hpc w :
  calm hpc (w_fs w) → Z.of_nat (length (dirs_of hpc w)) < 2 ^ 62 →
  ∃ es w', ListVolumes hpc (Some {| lv_MaxEntries := 0; lv_StartingToken := "" |}) w =
      (Ret {| lv_Entries := es; lv_NextToken := "" |}, w') ∧ quiet w w' ∧
    entryId <$> es = Base <$> dirs_of hpc w ∧
    ∀ id, id ∈ entryId <$> es ↔ ∃ p, has_volume (cfg hpc) (w_fs w) id p.
Proof.
  intros Hcalm Hlen. pose proof (calm_wf _ _ Hcalm) as Hwf.
  destruct (ListVolumes_full hpc w) as (es&w'&Hrun&Hq&Hids%page_ids); [done..|].
  exists es, w'. split_and!; [done..|]. intros id. rewrite Hids. by apply dirs_of_ids.
Qed.

Definition calm_b (hpc : hostPathController) (fs : fstree) : bool :=
  pools_ready_b (cfg hpc) fs && wf_fs_b fs.
Lemma calm_b_spec hpc fs : calm_b hpc fs = true → calm hpc fs.
Proof.
  unfold calm_b. intros [Hp Hw]%andb_prop. split; [done|done| | |by apply wf_fs_b_spec].
  - intros pool info _. by eexists.
  - by apply pools_ready_b_spec.
Qed.
Ltac by_calm := apply calm_b_spec; vm_compute; reflexivity.

Lemma list_volumes_complete_witness :
  ∃ es w', ListVolumes demoController (Some {| lv_MaxEntries := 0; lv_StartingToken := "" |}) demoPools =
      (Ret {| lv_Entries := es; lv_NextToken := "" |}, w') ∧ entryId <$> es = ["vol1"; "vol2"].
Proof.
  destruct (list_volumes_complete demoController demoPools) as (es&w'&Hr&_&Hids&_);
    [by_calm|vm_compute; reflexivity|].
  exists es, w'. split; [exact Hr|]. etransitivity; [exact Hids|]. vm_compute. reflexivity.
Defined.

(** The page as a part of the whole listing. *)
Lemma page_take k maxEntries (dirs : list string) :
  (k < length dirs)%nat → 0 ≤ maxEntries →
  let n := Z.of_nat (length dirs) in
  take (Z.to_nat (page_end (Z.of_nat k) maxEntries n - Z.of_nat k)) (drop k dirs) =
    (if maxEntries =? 0 then drop k dirs else take (Z.to_nat maxEntries) (drop k dirs)) ∧
  page_end (Z.of_nat k) maxEntries n =
    Z.of_nat (k + length (take (Z.to_nat (page_end (Z.of_nat k) maxEntries n - Z.of_nat k)) (drop k dirs))).
Proof.
  intros Hk Hm n. unfold page_end. rewrite length_take, length_drop.
  destruct (Z.eqb_spec maxEntries 0) as [->|Hne].
  - rewrite take_ge by (rewrite length_drop; lia). split; [done|lia].
  - split; [|lia]. destruct (Z.min_spec (Z.of_nat k + maxEntries) n) as [[? ->]|[? ->]].
    + f_equal. lia.
    + rewrite !take_ge by (rewrite length_drop; lia). done.
Qed.

(** A page of ListVolumes holds, in order, the volumes from the one its token names on, at
    most MaxEntries of them; the token of the next page is empty when at most one volume is left
    and otherwise names the first volume that was not listed. *)
Theorem list_volumes_page `{!Env} hpc req k w :
  calm hpc (w_fs w) → 0 ≤ lv_MaxEntries req < 2 ^ 31 →
  Z.of_nat (length (dirs_of hpc w)) < 2 ^ 62 →
  token_at (lv_StartingToken req) (dirs_of hpc w) k →
  ∃ es next w', ListVolumes hpc (Some req) w = (Ret {| lv_Entries := es; lv_NextToken := next |}, w') ∧
    quiet w w' ∧
    entryId <$> es =
      Base <$> (if lv_MaxEntries req =? 0 then drop k (dirs_of hpc w)
                else take (Z.to_nat (lv_MaxEntries req)) (drop k (dirs_of hpc w))) ∧
    next = if decide (k + length es + 1 < length (dirs_of hpc w))%nat
           then default "" (Base <$> dirs_of hpc w !! (k + length es)%nat) else "".
Proof.
  intros Hcalm Hmax Hlen Htok.
  destruct (ListVolumes_ret hpc req k w) as (es&w'&Hrun&Hq&Hes); [done..|].
  pose proof (Forall2_length _ _ _ Hes) as Hl. apply page_ids in Hes.
  destruct (page_take k (lv_MaxEntries req) (dirs_of hpc w)) as [Htake Hend]; [|lia|].
  { destruct Htok as [(_&->&Hne)|(_&_&d&Hk&_)]; [|by eapply lookup_lt_Some].
    destruct (dirs_of hpc w); [done|]. simpl. lia. }
  cbv zeta in Htake, Hend. rewrite Hl in Hend. rewrite Htake in Hes.
  eexists es, _, w'. split; [exact Hrun|]. split_and!; [done..|]. rewrite Hend, Nat2Z.id.
  destruct (Z.ltb_spec (Z.of_nat (k + length es)) (Z.of_nat (length (dirs_of hpc w)) - 1));
    case_decide; done || lia.
Qed.

Lemma list_volumes_page_witness :
  ∃ es w', ListVolumes demoController (Some {| lv_MaxEntries := 2; lv_StartingToken := "" |}) demoCreated =
      (Ret {| lv_Entries := es; lv_NextToken := "" |}, w') ∧ entryId <$> es = ["new"; "vol1"].
Proof.
  destruct (list_volumes_page demoController {| lv_MaxEntries := 2; lv_StartingToken := "" |} 0 demoCreated)
    as (es&next&w'&Hr&_&Hids&Hnext);
    [by_calm|by_decide|by_decide|left; by_decide|].
  assert (entryId <$> es = ["new"; "vol1"]) as Hes
    by (etransitivity; [exact Hids|vm_compute; reflexivity]).
  exists es, w'. split; [|exact Hes]. rewrite Hr, Hnext.
  replace (length es) with (length (entryId <$> es)) by apply length_fmap. rewrite Hes.
  rewrite decide_False; [reflexivity|]. by_decide.
Defined.

(** A page that leaves exactly one volume out carries no token for a next page: a client
    that follows the tokens never sees the last volume. *)
Theorem list_volumes_last_unreachable `{!Env} hpc w :
  calm hpc (w_fs w) → (2 ≤ length (dirs_of hpc w))%nat →
  Z.of_nat (length (dirs_of hpc w)) < 2 ^ 31 →
  ∃ es w', ListVolumes hpc (Some {| lv_MaxEntries := Z.of_nat (length (dirs_of hpc w)) - 1;
                                    lv_StartingToken := "" |}) w =
      (Ret {| lv_Entries := es; lv_NextToken := "" |}, w') ∧
    length es = (length (dirs_of hpc w) - 1)%nat.
Proof.
  intros Hcalm Hlen Hlen2. set (n := length (dirs_of hpc w)) in *.
  destruct (ListVolumes_ret hpc {| lv_MaxEntries := Z.of_nat n - 1; lv_StartingToken := "" |} 0 w)
    as (es&w'&Hrun&_&Hes); [done|simpl; lia|fold n; lia| |].
  { left. split_and!; [done..|]. intros Hd. unfold n in Hlen. by rewrite Hd in Hlen; simpl in Hlen; lia. }
  fold n in Hrun, Hes. apply Forall2_length in Hes. unfold page_end in Hrun, Hes.
  cbn [lv_MaxEntries] in Hrun, Hes. rewrite (proj2 (Z.eqb_neq _ _)) in Hrun, Hes by lia.
  rewrite Z.min_l in Hrun, Hes by lia.
  exists es, w'. split; [etransitivity; [exact Hrun|]; by rewrite (proj2 (Z.ltb_ge _ _)) by lia|].
  rewrite length_take, length_drop in Hes. fold n in Hes. lia.
Qed.

Lemma list_volumes_last_unreachable_witness :
  ∃ es w', ListVolumes demoController (Some {| lv_MaxEntries := 1; lv_StartingToken := "" |}) demoPools =
    (Ret {| lv_Entries := es; lv_NextToken := "" |}, w') ∧ length es = 1%nat.
Proof.
  destruct (list_volumes_last_unreachable demoController demoPools) as (es&w'&Hr&Hl);
    [by_calm|by_decide|by_decide|].
  exists es, w'. split; [exact Hr|exact Hl].
Defined.

(** A token that is not a number is refused with Aborted, although the tokens ListVolumes
    hands out are volume names. *)
Theorem list_volumes_token_refused `{!Env} hpc token maxEntries w :
  calm hpc (w_fs w) → 0 ≤ maxEntries → token ≠ "" → ParseUint 32 token = None →
  ∃ w', ListVolumes hpc (Some {| lv_MaxEntries := maxEntries; lv_StartingToken := token |}) w =
    (Fail (StatusError Aborted "the type of startingToken should be integer"), w').
Proof.
  intros Hcalm Hmax Hne Hp. unfold ListVolumes.
  assert (validateListVolumesRequest (Some {| lv_MaxEntries := maxEntries; lv_StartingToken := token |}) = None)
    as -> by (simpl; by rewrite (proj2 (Z.ltb_ge _ _))).
  erewrite !run_bind_ret by done.
  destruct (listing_reads hpc (listFrom hpc token maxEntries) w Hcalm) as (w1&_&Hrun).
  exists w1. etransitivity; [exact Hrun|]. unfold listFrom.
  by rewrite !bool_decide_eq_true_2 by done.
Qed.

Lemma list_volumes_token_refused_witness :
  ∃ w', ListVolumes demoController (Some {| lv_MaxEntries := 1; lv_StartingToken := "vol1" |}) demoPools =
    (Fail (StatusError Aborted "the type of startingToken should be integer"), w').
Proof. apply list_volumes_token_refused; [by_calm|lia|done|vm_compute; reflexivity]. Defined.

(** ** One volume *)

Section get_volume.
Context `{!Env} (hpc : hostPathController).

Lemma ControllerGetVolume_run id w :
  calm hpc (w_fs w) → id ≠ "" →
  ∃ w1, quiet w w1 ∧ ControllerGetVolume hpc (Some id) w =
    (if decide (findVolumePath id (dirs_of hpc w) = "")
     then fail (StatusError NotFound ("volume " +:+ id +:+ " not found"))
     else volumeEntry hpc (pool_caps (cfg hpc)) id (findVolumePath id (dirs_of hpc w))) w1.
Proof.
  intros Hcalm Hid. unfold ControllerGetVolume. rewrite decide_False by done.
  destruct (listing_reads hpc (λ capacityMap volumeDirs,
    if decide (findVolumePath id volumeDirs = "")
    then fail (StatusError NotFound ("volume " +:+ id +:+ " not found"))
    else volumeEntry hpc capacityMap id (findVolumePath id volumeDirs)) w Hcalm) as (w1&Hq&Hrun).
  by exists w1.
Qed.

(** The lookup by name finds the only directory of that name. *)
Lemma findVolumePath_unique d w :
  calm hpc (w_fs w) → d ∈ dirs_of hpc w →
  (∀ d', d' ∈ dirs_of hpc w → Base d' = Base d → d' = d) →
  d ≠ "" ∧ findVolumePath (Base d) (dirs_of hpc w) = d.
Proof.
  intros Hcalm Hd Huniq. pose proof (volume_dirs_nonempty _ (StoragePools (cfg hpc)) (calm_wf _ _ Hcalm)) as Hne.
  assert (d ≠ "") as Hd0 by (intros ->; by apply Hne). split; [done|].
  destruct (findVolumePath_spec (Base d) (dirs_of hpc w)) as [[_ Hall]|[(_&Hin&Hb)|[_ ?]]]; [|auto|done].
  rewrite Forall_forall in Hall. by destruct (Hall d Hd).
Qed.

Lemma findVolumePath_none id w :
  id ∉ Base <$> dirs_of hpc w → findVolumePath id (dirs_of hpc w) = "".
Proof.
  intros Hno. destruct (findVolumePath_spec id (dirs_of hpc w)) as [[? _]|[(_&Hin&Hb)|[? _]]]; [done| |done].
  destruct Hno. apply list_elem_of_fmap. eauto.
Qed.
End get_volume.

(** ControllerGetVolume agrees with ListVolumes: for a name that one directory has it gives
    exactly the entry of the listing, and a name that is not listed is NotFound. *)
Theorem get_volume_agrees `{!Env} hpc resp w w1 :
  calm hpc (w_fs w) → Z.of_nat (length (dirs_of hpc w)) < 2 ^ 62 →
  ListVolumes hpc (Some {| lv_MaxEntries := 0; lv_StartingToken := "" |}) w = (Ret resp, w1) →
  (∀ e, e ∈ lv_Entries resp →
     (∀ d d', d ∈ dirs_of hpc w → d' ∈ dirs_of hpc w → Base d = entryId e → Base d' = entryId e → d = d') →
     ∃ w2, ControllerGetVolume hpc (Some (entryId e)) w1 = (Ret e, w2)) ∧
  (∀ id, id ≠ "" → id ∉ entryId <$> lv_Entries resp →
     ∃ msg w2, ControllerGetVolume hpc (Some id) w1 = (Fail (StatusError NotFound msg), w2)).
Proof.
  intros Hcalm Hlen Hrun.
  pose proof (respects_ListVolumes quiet hpc (Some {| lv_MaxEntries := 0; lv_StartingToken := "" |}) w) as Hq.
  rewrite Hrun in Hq. simpl in Hq. assert (w_fs w1 = w_fs w) as Hfs by apply Hq.
  assert (dirs_of hpc w1 = dirs_of hpc w) as Hdirs by (unfold dirs_of; by rewrite Hfs).
  destruct (ListVolumes_full hpc w) as (es&w'&Hrun'&_&Hes); [done..|].
  rewrite Hrun in Hrun'. injection Hrun' as -> <-. cbn [lv_Entries].
  split.
  - intros e He Huniq. apply list_elem_of_lookup in He as [i Hi].
    destruct (Forall2_lookup_r _ _ _ _ _ Hes Hi) as (d&Hd&w2&w3&Hent&Hq2).
    apply list_elem_of_lookup_2 in Hd.
    destruct (volumeEntry_ret hpc (pool_caps (cfg hpc)) (Base d) d w2) as (e'&w4&He'&_&Hid&_).
    rewrite Hent in He'. injection He' as <- _. rewrite Hid in *.
    destruct (findVolumePath_unique hpc d w) as [Hd0 Hfind]; [done..|by intros d' ??; apply Huniq|].
    destruct (ControllerGetVolume_run hpc (Base d) w1) as (w5&Hq5&->).
    { by rewrite Hfs. }
    { apply (dirs_base_nonempty hpc w); [apply Hcalm|]. apply list_elem_of_fmap. eauto. }
    rewrite Hdirs, Hfind, decide_False by done.
    pose proof (volumeEntry_stable hpc (pool_caps (cfg hpc)) (Base d) d w w2
      (calm_faults _ _ Hcalm) (calm_stable _ _ Hcalm) Hq2) as Hs1.
    pose proof (volumeEntry_stable hpc (pool_caps (cfg hpc)) (Base d) d w w5
      (calm_faults _ _ Hcalm) (calm_stable _ _ Hcalm) ltac:(etransitivity; [exact Hq|exact Hq5])) as Hs2.
    rewrite Hent in Hs1. rewrite Hs1 in Hs2. simpl in Hs2.
    destruct (volumeEntry _ _ _ _ w5) as [o w6]. simpl in Hs2. subst o. by exists w6.
  - intros id Hid Hno. apply page_ids in Hes. rewrite Hes in Hno.
    destruct (ControllerGetVolume_run hpc id w1) as (w5&Hq5&->); [by rewrite Hfs|done|].
    rewrite Hdirs, findVolumePath_none, decide_True by done. by do 2 eexists.
Qed.

Lemma get_volume_agrees_witness :
  ∃ msg w2, ControllerGetVolume demoController (Some "nosuch")
    (ListVolumes demoController (Some {| lv_MaxEntries := 0; lv_StartingToken := "" |}) demoPools).2 =
    (Fail (StatusError NotFound msg), w2).
Proof.
  destruct (ListVolumes demoController (Some {| lv_MaxEntries := 0; lv_StartingToken := "" |}) demoPools)
    as [o w1] eqn:Hrun.
  assert (o = (ListVolumes demoController (Some {| lv_MaxEntries := 0; lv_StartingToken := "" |}) demoPools).1)
    as Ho by (rewrite Hrun; reflexivity).
  vm_compute in Ho. subst o.
  apply (get_volume_agrees demoController _ demoPools w1 ltac:(by_calm) ltac:(by_decide) Hrun); by_decide.
Defined.
