(* ===== verification/ControllerSnap.v ===== *)
(** * Properties of the controller service: construction and snapshots *)
From S2P Require Import Prelude GoStrings GoPath GoErrors OS OSFacts Demo Csi Utils Health Reflink.
From S2P Require Import ReflinkFacts ControllerServer ControllerFacts ControllerProps.
From S2P Require Import ControllerList.
Open Scope Z_scope.

(** ** Construction *)

(** The reflink repository of a pool. *)
Definition reflinkOf (config : Config) (info : StoragePoolInfo) (snapshotPath : string) : Reflink :=
  {| path := snapshotPath; nodeName := NodeID config; sourcePath := Path info |}.

(** What a configuration asks for: no provider, a reflink repository, or
    something the driver cannot serve. *)
Inductive wanted : Type := WantNone | WantReflink (snapshotPath : string) | WantBad.

Definition wants (info : StoragePoolInfo) : wanted :=
  match Utils.SnapshotProvider info, SnapshotPath info with
  | None, _ => WantNone
  | Some p, Some s => if decide (p = ReflinkProvider) then WantReflink s else WantBad
  | Some _, None => WantBad
  end.

Section construct.
Context `{!Env} (config : Config).

Definition providerOf (info : StoragePoolInfo) : option SnapshotProvider :=
  match wants info with
  | WantReflink s => Some (reflinkProvider (reflinkOf config info s))
  | _ => None
  end.

Lemma addProvider_run m pool info w :
  addProvider config m (pool, info) w =
    match wants info with
    | WantNone => (Ret m, w)
    | WantReflink s => (Ret (<[pool := reflinkProvider (reflinkOf config info s)]> m), w)
    | WantBad => ((addProvider config m (pool, info) w).1, w)
    end ∧
  (wants info = WantBad ↔ ∃ p, (addProvider config m (pool, info) w).1 = Panic p).
Proof.
  unfold addProvider, wants. destruct (Utils.SnapshotProvider info) as [p|];
    [|split; [done|]; split; [done|by intros [??]]].
  destruct (decide (p = ReflinkProvider)), (SnapshotPath info) as [s|]; simpl;
    (split; [done|]; split; [by eauto|]; try done; by intros [??]).
Qed.

(** The loop over the pools, in any order. *)
Lemma addProviders_run l m w :
  NoDup l.*1 →
  match foldM (addProvider config) m l w with
  | (Ret m', w') => w' = w ∧ Forall (λ kv, wants kv.2 ≠ WantBad) l ∧
      ∀ pool, m' !! pool = match list_to_map (M:=gmap string StoragePoolInfo) l !! pool with
                           | Some info => match providerOf info with Some p => Some p | None => m !! pool end
                           | None => m !! pool
                           end
  | (Fail _, _) => False
  | (Panic _, w') => w' = w ∧ Exists (λ kv, wants kv.2 = WantBad) l
  end.
Proof.
  revert m. induction l as [|[pool info] l IH]; intros m Hnd; cbn [foldM].
  { split_and!; [done|constructor|done]. }
  apply NoDup_cons in Hnd as [Hpool Hnd]. destruct (addProvider_run m pool info w) as [Hrun Hbad].
  rewrite list_to_map_cons. unfold bind. rewrite Hrun. cbn [fst snd]. destruct (wants info) eqn:Hw.
  - specialize (IH m Hnd). destruct (foldM _ m l w) as [[m'|e|p] w']; [|done|].
    + destruct IH as (->&Hall&Hm'). split_and!; [done|by constructor; [simpl; congruence|]|].
      intros k. rewrite Hm'. destruct (decide (pool = k)) as [<-|Hne].
      * rewrite lookup_insert_eq. unfold providerOf. rewrite Hw.
        by rewrite (not_elem_of_list_to_map_1 l pool Hpool).
      * by rewrite lookup_insert_ne.
    + destruct IH as [-> ?]. split; [done|]. by right.
  - set (m1 := <[pool := _]> m). specialize (IH m1 Hnd).
    destruct (foldM _ m1 l w) as [[m'|e|p] w']; [|done|].
    + destruct IH as (->&Hall&Hm'). split_and!; [done|by constructor; [simpl; congruence|]|].
      intros k. rewrite Hm'. unfold m1. destruct (decide (pool = k)) as [<-|Hne].
      * rewrite lookup_insert_eq, (not_elem_of_list_to_map_1 l pool Hpool), lookup_insert_eq.
        unfold providerOf. by rewrite Hw.
      * by rewrite !lookup_insert_ne.
    + destruct IH as [-> ?]. split; [done|]. by right.
  - destruct (proj1 Hbad eq_refl) as [p Hp]. rewrite Hp. split; [done|]. by left.
Qed.
End construct.

Lemma NewHostPathController_run `{!Env} config w :
  match NewHostPathController config w with
  | (Ret hpc, w') => quiet w w' ∧ cfg hpc = config ∧
      (∀ pool info, StoragePools config !! pool = Some info → wants info ≠ WantBad) ∧
      ∀ pool, snapshotproviders hpc !! pool = StoragePools config !! pool ≫= providerOf config
  | (Fail _, _) => False
  | (Panic _, w') => quiet w w' ∧ ∃ pool info, StoragePools config !! pool = Some info ∧ wants info = WantBad
  end.
Proof.
  unfold NewHostPathController. unfold bind at 1, range_map, reads.
  set (l := range_order _ (w_tick w) (StoragePools config)).
  assert (l ≡ₚ map_to_list (StoragePools config)) as Hperm by apply range_order_perm.
  assert (NoDup l.*1) as Hnd.
  { rewrite Hperm. apply NoDup_fst_map_to_list. }
  assert (list_to_map l = StoragePools config) as Hmap.
  { rewrite <-(list_to_map_to_list (StoragePools config)). by apply list_to_map_proper. }
  assert (∀ pool info, StoragePools config !! pool = Some info ↔ (pool, info) ∈ l) as Hin.
  { intros. by rewrite Hperm, elem_of_map_to_list. }
  pose proof (addProviders_run config l ∅ (tickw w) Hnd) as Hrun. unfold bind.
  destruct (foldM (addProvider config) ∅ l (tickw w)) as [[m'|e|p] w1]; [|done|].
  - destruct Hrun as (->&Hall&Hm'). split_and!; [done|done| |].
    + intros pool info Hp. rewrite Forall_forall in Hall. apply (Hall (pool, info)). by apply Hin.
    + intros pool. cbn [snapshotproviders]. rewrite Hm', Hmap, lookup_empty.
      destruct (StoragePools config !! pool) as [info|]; [|done]. simpl. by destruct (providerOf config info).
  - destruct Hrun as [-> Hex]. split; [done|].
    apply Exists_exists in Hex as ([pool info]&Hl&Hbad). exists pool, info. by rewrite Hin.
Qed.

(** The constructed controller meets the contract its other theorems ask for. *)
Lemma new_controller_safe `{!Env} config w hpc w' :
  NewHostPathController config w = (Ret hpc, w') → providers_safe hpc.
Proof.
  intros Hrun. pose proof (NewHostPathController_run config w) as Hspec. rewrite Hrun in Hspec.
  destruct Hspec as (_&Hcfg&_&Hp). intros pool p. rewrite Hp, Hcfg.
  destruct (StoragePools config !! pool) as [info|] eqn:Hl; [|done]. simpl. unfold providerOf.
  destruct (wants info) as [|s|] eqn:Hw; [done| |done]. intros [= <-]. exists info, s.
  split_and!; [done| |apply reflink_safe; by apply Exists_cons_hd].
  unfold wants in Hw. repeat case_match; simplify_eq; done.
Qed.

(** The controller is built with one reflink repository for exactly the pools whose
    configuration asks for the reflink provider and names a snapshot path, whatever order the
    pools are visited in; construction ends the process exactly when some pool names another
    provider, or a provider without a snapshot path. *)
Theorem new_controller_providers `{!Env} config w :
  match NewHostPathController config w with
  | (Ret hpc, w') => quiet w w' ∧ cfg hpc = config ∧
      (∀ pool info, StoragePools config !! pool = Some info → wants info ≠ WantBad) ∧
      ∀ pool, snapshotproviders hpc !! pool = StoragePools config !! pool ≫= providerOf config
  | (Fail _, _) => False
  | (Panic _, w') => quiet w w' ∧ ∃ pool info, StoragePools config !! pool = Some info ∧ wants info = WantBad
  end.
Proof. apply NewHostPathController_run. Qed.

(** ** Creating snapshots *)

(** A request the controller passes to the reflink repository [rl]. *)
Record snapRequest (hpc : hostPathController) (rl : Reflink) `{!Env} (r : CreateSnapshotRequest)
    (w : world) : Prop := {
  sr_pool : ∃ info, StoragePools (cfg hpc) !! getStoragePoolNameFromMap (cs_Parameters r) = Some info ∧
                    SnapshotPath info = Some (path rl) ∧ Path info = sourcePath rl;
  sr_provider : snapshotproviders hpc !! getStoragePoolNameFromMap (cs_Parameters r) =
                  Some (reflinkProvider rl);
  sr_id : valid_name (cs_Name r);
  sr_src : valid_name (cs_SourceVolumeId r);
  sr_wf : wf_fs (w_fs w);
  sr_path : path rl ≠ "";
  sr_root : w_fs w !! resolve (path rl) = Some NDir;
}.

Section create_snapshot.
Context `{!Env} (Hnf : no_faults) (hpc : hostPathController) (rl : Reflink).

Lemma validateCreateSnapshot_ok r :
  valid_name (cs_Name r) → valid_name (cs_SourceVolumeId r) →
  validateCreateSnapshotRequest (Some r) = None.
Proof.
  intros Hid Hsrc. simpl.
  destruct (Z.eqb_spec (len (cs_Name r)) 0) as [He%len_0|]; [rewrite He in Hid; by destruct Hid|].
  destruct (Z.eqb_spec (len (cs_SourceVolumeId r)) 0) as [He%len_0|]; [|done].
  rewrite He in Hsrc. by destruct Hsrc.
Qed.

(** Up to the lookup of the snapshot by its name. *)
Lemma CreateSnapshot_run r w :
  snapRequest hpc rl r w →
  CreateSnapshot hpc (Some r) w =
    (found <- wrapErr (λ err, ErrorString ("getsnapshot by id failed, " +:+ Error err))
                (GetSnapshotById rl (cs_Name r)) ;;
     match found with
     | Some snapshot =>
         if decide (SourceVolumeId snapshot = cs_SourceVolumeId r) then ret snapshot
         else fail (StatusError AlreadyExists
                ("snapshot with the same name: " +:+ cs_Name r +:+
                 " but with different SourceVolumeId already exist"))
     | None => Reflink.CreateSnapshot rl (cs_Name r) (cs_SourceVolumeId r)
     end) (tickw w).
Proof.
  intros [(info&Hpool&Hsp&_) Hprov Hid Hsrc Hwf Hne Hroot]. unfold CreateSnapshot.
  rewrite validateCreateSnapshot_ok by done. erewrite !run_bind_ret by done.
  rewrite Hpool, Hsp, Hprov.
  erewrite run_bind_ret; [|by eapply checkPathExist_found]. by erewrite run_bind_ret.
Qed.

Lemma CreateSnapshot_fresh r w :
  snapRequest hpc rl r w → w_fs w !! snapDir rl (cs_Name r) = None →
  CreateSnapshot hpc (Some r) w =
    Reflink.CreateSnapshot rl (cs_Name r) (cs_SourceVolumeId r) (tickw (tickw w)).
Proof.
  intros Hr Hnone. rewrite CreateSnapshot_run by done. destruct Hr as [_ _ Hid _ Hwf _ Hroot].
  by erewrite run_bind_ret; [|apply run_wrapErr_ret; eapply GetSnapshotById_none].
Qed.

Lemma CreateSnapshot_existing r src w :
  snapRequest hpc rl r w → w_fs w !! snapDir rl (cs_Name r) = Some NDir →
  source_of rl (cs_Name r) (w_fs w) = Some src →
  ∃ s w', quiet w w' ∧ SnapshotId s = cs_Name r ∧ SourceVolumeId s = src ∧ ReadyToUse s = true ∧
    CreateSnapshot hpc (Some r) w =
      (if decide (src = cs_SourceVolumeId r) then Ret s
       else Fail (StatusError AlreadyExists
                ("snapshot with the same name: " +:+ cs_Name r +:+
                 " but with different SourceVolumeId already exist")), w').
Proof.
  intros Hr Hdir Hsrc. rewrite CreateSnapshot_run by done.
  erewrite run_bind_ret; [|apply run_wrapErr_ret; eapply GetSnapshotById_some; [done|apply Hr|done|done]].
  simpl. eexists _, (tickw (tickw (tickw w))). repeat split; [..|case_decide; reflexivity]; done.
Qed.
End create_snapshot.

(** The state after a new snapshot. *)
Lemma CreateSnapshot_then `{!Env} hpc rl r s w w1 :
  no_faults → separate rl → snapRequest hpc rl r w →
  w_fs w !! snapDir rl (cs_Name r) = None → w_fs w !! volDir rl (cs_SourceVolumeId r) = Some NDir →
  CreateSnapshot hpc (Some r) w = (Ret s, w1) →
  (SnapshotId s = cs_Name r ∧ SourceVolumeId s = cs_SourceVolumeId r ∧ ReadyToUse s = true) ∧
  snapRequest hpc rl r w1 ∧ w_fs w1 !! snapDir rl (cs_Name r) = Some NDir ∧
  source_of rl (cs_Name r) (w_fs w1) = recorded (cs_SourceVolumeId r) ∧
  created rl (cs_Name r) (cs_SourceVolumeId r) (w_fs w) (w_fs w1).
Proof.
  intros Hnf Hsep Hr Hnone Hvol Hrun. rewrite (CreateSnapshot_fresh Hnf hpc rl) in Hrun by done.
  destruct Hr as [Hpool Hprov Hid Hsrc Hwf Hne Hroot].
  destruct (CreateSnapshot_created rl (cs_Name r) (cs_SourceVolumeId r) (tickw (tickw w)) s w1)
    as [Hc Hs]; [done..|]. split; [done|].
  split_and!; [|apply Hc| |done].
  - split; [done..|apply Hc|done|]. rewrite (created_frame _ _ _ _ _ Hc); [done|]. apply not_prefix_snoc.
  - apply source_of_recorded; [apply Hc|]. intros c Hl. apply (created_only _ _ _ _ _ Hc). by eexists.
Qed.

(** CreateSnapshot is idempotent: once a snapshot was created, the same request returns a
    snapshot of the same id and source, ready to use, and changes nothing; a request for the same
    name with another source volume is refused with AlreadyExists and changes nothing. *)
Theorem create_snapshot_idempotent `{!Env} hpc rl r s w w1 :
  no_faults → separate rl → snapRequest hpc rl r w → cs_SourceVolumeId r ≠ dataPath →
  w_fs w !! snapDir rl (cs_Name r) = None → w_fs w !! volDir rl (cs_SourceVolumeId r) = Some NDir →
  CreateSnapshot hpc (Some r) w = (Ret s, w1) →
  (∃ s' w2, CreateSnapshot hpc (Some r) w1 = (Ret s', w2) ∧ quiet w1 w2 ∧
     SnapshotId s' = SnapshotId s ∧ SourceVolumeId s' = SourceVolumeId s ∧ ReadyToUse s' = true) ∧
  (∀ src, src ≠ cs_SourceVolumeId r → valid_name src →
   ∃ msg w2, CreateSnapshot hpc (Some {| cs_Name := cs_Name r; cs_SourceVolumeId := src;
                                         cs_Parameters := cs_Parameters r |}) w1 =
     (Fail (StatusError AlreadyExists msg), w2) ∧ quiet w1 w2).
Proof.
  intros Hnf Hsep Hr Hdata Hnone Hvol Hrun.
  destruct (CreateSnapshot_then hpc rl r s w w1) as ((Hid&Hsrc&_)&Hr1&Hdir&Hsource&_); [done..|].
  unfold recorded in Hsource. rewrite decide_False in Hsource by done. split.
  - destruct (CreateSnapshot_existing Hnf hpc rl r (cs_SourceVolumeId r) w1) as (s'&w2&Hq&?&?&?&Hrun2); [done..|].
    rewrite decide_True in Hrun2 by done. exists s', w2. by rewrite Hid, Hsrc.
  - intros src Hne Hv. set (r' := {| cs_Name := cs_Name r; cs_SourceVolumeId := src;
                                    cs_Parameters := cs_Parameters r |}).
    destruct (CreateSnapshot_existing Hnf hpc rl r' (cs_SourceVolumeId r) w1) as (s'&w2&Hq&_&_&_&Hrun2);
      [by destruct Hr1|done..|].
    rewrite decide_False in Hrun2 by done. by eexists _, w2.
Qed.

Definition demoSnapRequest : CreateSnapshotRequest :=
  {| cs_Name := "s1"; cs_SourceVolumeId := "vol1"; cs_Parameters := ∅ |}.
Definition demoSnapDone : world := (CreateSnapshot demoController (Some demoSnapRequest) demoPools).2.
Lemma demo_snapRequest : snapRequest demoController demoReflink demoSnapRequest demoPools.
Proof.
  split; [exists demoLegacy; done|reflexivity|by_decide|by_decide|by_wf|done|vm_compute; reflexivity].
Qed.

Lemma create_snapshot_idempotent_witness :
  ∃ s' w2, CreateSnapshot demoController (Some demoSnapRequest) demoSnapDone = (Ret s', w2) ∧
    SourceVolumeId s' = "vol1".
Proof.
  destruct (create_snapshot_idempotent demoController demoReflink demoSnapRequest demoSnapshot
              demoPools demoSnapDone) as [(s'&w2&Hr&_&_&Hs&_) _];
    [done|by_decide|apply demo_snapRequest|by_decide|vm_compute; reflexivity|vm_compute; reflexivity
    |vm_compute; reflexivity|].
  exists s', w2. split; [exact Hr|exact Hs].
Defined.

(** ** Deleting snapshots *)

(** The repositories of a controller: every provider is a reflink repository. *)
Definition repositories `{!Env} (hpc : hostPathController) (rls : gmap string Reflink) : Prop :=
  snapshotproviders hpc = reflinkProvider <$> rls.

(** The repositories are in place, outside the snapshots [id] of all of them. *)
Definition repos_ready (rls : gmap string Reflink) (id : string) (w : world) : Prop :=
  ∀ pool rl, rls !! pool = Some rl →
    path rl ≠ "" ∧ w_fs w !! resolve (path rl) = Some NDir ∧
    mounts_below (snapDir rl id) (w_mounts w) = [] ∧
    ∀ pool' rl', rls !! pool' = Some rl' → ¬ snapDir rl' id `prefix_of` resolve (path rl).

(** The repositories a configuration asks for. *)
Definition repos_of (config : Config) : gmap string Reflink :=
  omap (λ info, match wants info with WantReflink s => Some (reflinkOf config info s) | _ => None end)
    (StoragePools config).

Lemma new_controller_repositories `{!Env} config w hpc w' :
  NewHostPathController config w = (Ret hpc, w') → repositories hpc (repos_of config).
Proof.
  intros Hrun. pose proof (NewHostPathController_run config w) as Hspec. rewrite Hrun in Hspec.
  destruct Hspec as (_&_&_&Hp). apply map_eq. intros pool. rewrite Hp, lookup_fmap.
  unfold repos_of. rewrite lookup_omap. destruct (StoragePools config !! pool) as [info|]; [|done].
  simpl. unfold providerOf. by destruct (wants info).
Qed.

(** The tree without the snapshot [id] of the given repositories. *)
Definition rm_snaps (id : string) (rls : list Reflink) (fs : fstree) : fstree :=
  foldr (λ rl fs, rm_tree (snapDir rl id) fs) fs rls.

Lemma lookup_rm_snaps id rls fs k :
  rm_snaps id rls fs !! k = if decide (Exists (λ rl, snapDir rl id `prefix_of` k) rls) then None else fs !! k.
Proof.
  unfold rm_snaps in *. induction rls as [|rl rls IH]; cbn [foldr].
  { rewrite decide_False; [done|]. by intros ?%Exists_nil. }
  rewrite lookup_rm_tree, IH. repeat case_decide; rewrite ?Exists_cons in *; naive_solver.
Qed.

Lemma wf_rm_snaps id rls fs : wf_fs fs → wf_fs (rm_snaps id rls fs).
Proof. induction rls; simpl; [done|]. intros. apply wf_rm_tree; [apply snoc_not_nil|auto]. Qed.

(** The loop over the providers, in any order. *)
Lemma deleteSnapshots_run `{!Env} rls id (l : list (string * SnapshotProvider)) dn w0 w :
  no_faults → valid_name id → wf_fs (w_fs w0) → repos_ready rls id w0 →
  (∀ kv, kv ∈ l → ∃ rl, rls !! kv.1 = Some rl ∧ kv.2 = reflinkProvider rl) →
  Forall (λ rl, ∃ pool, rls !! pool = Some rl) dn →
  w_fs w = rm_snaps id dn (w_fs w0) → w_mounts w = w_mounts w0 →
  ∃ ds w', foldM (λ _ kv, sp_DeleteSnapshot kv.2 id) tt l w = (Ret tt, w') ∧
    Forall2 (λ kv rl, rls !! kv.1 = Some rl) l ds ∧
    w_fs w' = rm_snaps id (reverse ds ++ dn) (w_fs w0) ∧ w_mounts w' = w_mounts w0.
Proof.
  intros Hnf Hid Hwf0 Hready. revert dn w. induction l as [|[pool p] l IH]; intros dn w Hl Hdn Hfs Hm.
  { exists [], w. split_and!; try done; constructor. }
  destruct (Hl (pool, p)) as (rl&Hrl&Hp); [left|]. simpl in Hrl, Hp. subst p.
  destruct (Hready pool rl Hrl) as (Hne&Hroot&Hmnt&Hout).
  destruct (DeleteSnapshot_ok Hnf rl id w) as (w1&Hrun&Hm1&Hfs1); [done|..].
  { rewrite Hfs. by apply wf_rm_snaps. }
  { rewrite Hfs, lookup_rm_snaps, decide_False; [done|]. intros (rl'&Hin&Hpre)%Exists_exists.
    rewrite Forall_forall in Hdn. destruct (Hdn rl' Hin) as [pool' Hp']. by apply (Hout pool' rl'). }
  { by rewrite Hm. }
  cbn [foldM]. erewrite run_bind_ret by exact Hrun.
  destruct (IH (rl :: dn) w1) as (ds&w'&?&?&Hfs'&?).
  { intros kv Hkv. apply Hl. by right. }
  { constructor; [by exists pool|done]. }
  { by rewrite Hfs1, Hfs. }
  { by rewrite Hm1. }
  exists (rl :: ds), w'. split_and!; [done|by constructor| |done].
  by rewrite Hfs', reverse_cons, <-app_assoc.
Qed.

(** The effect of the loop on the tree and on every repository. *)
Lemma DeleteSnapshot_ret `{!Env} hpc rls id w :
  no_faults → repositories hpc rls → valid_name id → wf_fs (w_fs w) → repos_ready rls id w →
  ∃ w', DeleteSnapshot hpc (Some id) w = (Ret tt, w') ∧ w_mounts w' = w_mounts w ∧
    (∀ pool rl, rls !! pool = Some rl →
       (∀ k, snapDir rl id `prefix_of` k → w_fs w' !! k = None) ∧
       GetSnapshotById rl id w' = (Ret None, tickw w')) ∧
    (∀ k, (∀ pool rl, rls !! pool = Some rl → ¬ snapDir rl id `prefix_of` k) →
       w_fs w' !! k = w_fs w !! k).
Proof.
  intros Hnf Hrepos Hid Hwf Hready. unfold DeleteSnapshot.
  destruct (Z.eqb_spec (len id) 0) as [->%len_0|_]; [by destruct Hid|].
  set (l := range_order _ (w_tick w) (snapshotproviders hpc)).
  assert (∀ kv, kv ∈ l ↔ ∃ rl, rls !! kv.1 = Some rl ∧ kv.2 = reflinkProvider rl) as Hl.
  { intros [pool p]. unfold l. rewrite range_order_perm, elem_of_map_to_list, Hrepos, lookup_fmap_Some.
    naive_solver. }
  erewrite run_bind_ret by (unfold range_map, reads; reflexivity). fold l.
  destruct (deleteSnapshots_run rls id l [] w (tickw w)) as (ds&w'&Hrun&Hds&Hfs&Hm);
    [done..|by intros kv ?%Hl|constructor|done|done|].
  rewrite app_nil_r in Hfs. exists w'. split; [done|]. split; [done|].
  assert (∀ pool rl, rls !! pool = Some rl → ∀ k, snapDir rl id `prefix_of` k → w_fs w' !! k = None) as Hgone.
  { intros pool rl Hrl k Hk. rewrite Hfs, lookup_rm_snaps, decide_True; [done|].
    apply Exists_exists. exists rl. split; [|done]. apply elem_of_reverse.
    assert ((pool, reflinkProvider rl) ∈ l) as [i Hi]%list_elem_of_lookup by (apply Hl; eauto).
    destruct (Forall2_lookup_l _ _ _ _ _ Hds Hi) as (rl'&Hi'&Heq). simpl in Heq.
    apply list_elem_of_lookup. exists i. congruence. }
  assert (∀ k, (∀ pool rl, rls !! pool = Some rl → ¬ snapDir rl id `prefix_of` k) →
       w_fs w' !! k = w_fs w !! k) as Hkeep.
  { intros k Hk. rewrite Hfs, lookup_rm_snaps, decide_False; [done|].
    intros (rl&Hin&Hpre)%Exists_exists. rewrite elem_of_reverse in Hin. apply list_elem_of_lookup in Hin as [i Hi].
    destruct (Forall2_lookup_r _ _ _ _ _ Hds Hi) as (kv&_&Hrl). by eapply Hk. }
  split; [|done]. intros pool rl Hrl. split; [by eapply Hgone|].
  destruct (Hready pool rl Hrl) as (_&Hroot&_&Hout).
  apply GetSnapshotById_none; [done|done| | |by eapply Hgone].
  - rewrite Hfs. by apply wf_rm_snaps.
  - rewrite Hkeep; [done|]. exact Hout.
Qed.

(** When no call fails, DeleteSnapshot removes the snapshot from every repository, whatever
    order the providers are visited in: afterwards no repository finds it, and nothing outside
    the snapshot's directories has changed. *)
Theorem delete_snapshot_everywhere `{!Env} hpc rls id w :
  no_faults → repositories hpc rls → valid_name id → wf_fs (w_fs w) → repos_ready rls id w →
  ∃ w', DeleteSnapshot hpc (Some id) w = (Ret tt, w') ∧ w_mounts w' = w_mounts w ∧
    (∀ pool rl, rls !! pool = Some rl →
       (∀ k, snapDir rl id `prefix_of` k → w_fs w' !! k = None) ∧
       GetSnapshotById rl id w' = (Ret None, tickw w')) ∧
    (∀ k, (∀ pool rl, rls !! pool = Some rl → ¬ snapDir rl id `prefix_of` k) →
       w_fs w' !! k = w_fs w !! k).
Proof. apply DeleteSnapshot_ret. Qed.

Definition demoRepos : gmap string Reflink := {[ "legacy" := demoReflink ]}.
Lemma delete_snapshot_everywhere_witness :
  ∃ w', DeleteSnapshot demoController (Some "s1") demoSnapDone = (Ret tt, w') ∧
    GetSnapshotById demoReflink "s1" w' = (Ret None, tickw w').
Proof.
  destruct (delete_snapshot_everywhere demoController demoRepos "s1" demoSnapDone) as (w'&Hr&_&Hall&_).
  - done.
  - unfold repositories, demoRepos. symmetry. apply map_fmap_singleton.
  - by_decide.
  - by_wf.
  - unfold demoRepos. intros pool rl [<- <-]%lookup_singleton_Some.
    split_and!; [by_decide|vm_compute; reflexivity|vm_compute; reflexivity|].
    intros pool' rl' [<- <-]%lookup_singleton_Some. by_decide.
  - exists w'. split; [exact Hr|]. apply (Hall "legacy"). reflexivity.
Defined.

(** ** Listing snapshots *)

(** The token of the page that starts after [k] snapshots. *)
Definition snapToken (k : nat) : string := FormatInt (Z.of_nat k + 1).

Lemma snapToken_parse k :
  Z.of_nat k + 1 < 2 ^ 32 →
  ParseUint 32 (snapToken k) = Some (Z.of_nat k + 1) ∧ snapToken k ≠ "" ∧ snapToken k ≠ "0".
Proof.
  intros Hk. assert (ParseUint 32 (snapToken k) = Some (Z.of_nat k + 1)) as Hp
    by (apply ParseUint_FormatInt; lia).
  split_and!; [done|intros He; by rewrite He, ParseUint_empty in Hp|].
  intros He. assert (ParseUint 32 "0" = Some 0) as H0 by done. rewrite He, H0 in Hp. injection Hp. lia.
Qed.

Lemma snapshotPage_ok (l : list Snapshot) token maxEntries k w :
  (token = "" ∧ k = 0%nat ∨ token = snapToken k) → (k ≤ length l)%nat →
  0 ≤ maxEntries < 2 ^ 31 → Z.of_nat (length l) < 2 ^ 31 →
  let page := if maxEntries =? 0 then drop k l else take (Z.to_nat maxEntries) (drop k l) in
  snapshotPage l token maxEntries w =
    (Ret {| ls_Entries := page;
            ls_NextToken := if decide (k + length page + 1 < length l)%nat
                            then snapToken (k + length page) else "" |}, w).
Proof.
  intros Htok Hk Hmax Hlen page. unfold snapshotPage.
  assert (ParseUint 32 (if decide (token = "" ∨ token = "0") then "1" else token) = Some (Z.of_nat k + 1)) as ->.
  { destruct Htok as [[-> ->]| ->]; [done|]. destruct (snapToken_parse k) as (Hp&Hn0&Hn1); [lia|].
    rewrite decide_False by (intros [?|?]; done). done. }
  replace (Z.of_nat k + 1 - 1) with (Z.of_nat k) by lia.
  rewrite uint64_id by (unfold is_uint64; lia). rewrite (int64_id (Z.of_nat k)) by (unfold is_int64; lia).
  rewrite int64_id by (unfold is_int64; destruct (Z.eqb_spec maxEntries 0); lia).
  set (hi := if Z.of_nat (length l) <? _ then _ else _).
  assert (Z.of_nat k ≤ hi ≤ Z.of_nat (length l) ∧ take (Z.to_nat (hi - Z.of_nat k)) (drop k l) = page ∧
          hi = Z.of_nat (k + length page)) as (Hhi&Hpage&Hend).
  { unfold hi, page. destruct (Z.eqb_spec maxEntries 0) as [->|Hne].
    - destruct (Z.ltb_spec (Z.of_nat (length l)) (Z.of_nat k + Z.of_nat (length l)));
        rewrite take_ge, ?length_drop by (rewrite length_drop; lia); split_and!; done || lia.
    - rewrite length_take, length_drop. destruct (Z.ltb_spec (Z.of_nat (length l)) (Z.of_nat k + maxEntries)).
      + rewrite !take_ge by (rewrite length_drop; lia). split_and!; done || lia.
      + split_and!; [lia|lia| |lia]. f_equal. lia. }
  erewrite run_bind_ret by (apply slice_ok; lia). rewrite Nat2Z.id, Hpage, Hend. unfold snapToken, ret.
  destruct (Z.ltb_spec (Z.of_nat (k + length page)) (Z.of_nat (length l) - 1)); case_decide; done || lia.
Qed.

(** A page of ListSnapshots holds, in order, at most MaxEntries of the collected snapshots
    from the one its token counts to; the token of the next page, when there is one, counts to
    exactly the first snapshot that was not returned, so that following it neither repeats nor
    skips one. It is empty as soon as at most one snapshot is left. *)
Theorem list_snapshots_page `{!Env} hpc req l k w w1 :
  collectSnapshots hpc req w = (Ret l, w1) → l ≠ [] →
  (ls_StartingToken req = "" ∧ k = 0%nat ∨ ls_StartingToken req = snapToken k) → (k ≤ length l)%nat →
  0 ≤ ls_MaxEntries req < 2 ^ 31 → Z.of_nat (length l) < 2 ^ 31 →
  let page := if ls_MaxEntries req =? 0 then drop k l else take (Z.to_nat (ls_MaxEntries req)) (drop k l) in
  ListSnapshots hpc (Some req) w =
    (Ret {| ls_Entries := page;
            ls_NextToken := if decide (k + length page + 1 < length l)%nat
                            then snapToken (k + length page) else "" |}, w1).
Proof.
  intros Hcol Hne Htok Hk Hmax Hlen page. unfold ListSnapshots. run_ret Hcol.
  destruct l as [|s l]; [done|]. by apply snapshotPage_ok.
Qed.

Definition demoListReq (token : string) : ListSnapshotsRequest :=
  {| ls_MaxEntries := 1; ls_StartingToken := token; ls_SnapshotId := ""; ls_SourceVolumeId := "" |}.
Definition demoCollected : list Snapshot :=
  [{| SnapshotId := "s1"; SourceVolumeId := "vol1"; CreationTime := (1700000000, 5); ReadyToUse := true |}].
Definition demoAfterList : world := (collectSnapshots demoController (demoListReq "") demoSnapDone).2.

Lemma list_snapshots_page_witness :
  ListSnapshots demoController (Some (demoListReq "1")) demoSnapDone =
    (Ret {| ls_Entries := demoCollected; ls_NextToken := "" |}, demoAfterList).
Proof.
  apply (list_snapshots_page demoController (demoListReq "1") demoCollected 0 demoSnapDone demoAfterList);
    [vm_compute; reflexivity|done|right; reflexivity|simpl; lia|simpl; lia|simpl; lia].
Defined.

(** A token that counts beyond the end of the list, or to zero with more than one digit,
    makes ListSnapshots panic on a slice out of range instead of reporting an error. *)
Theorem list_snapshots_token_panics `{!Env} hpc req l z w w1 :
  collectSnapshots hpc req w = (Ret l, w1) → l ≠ [] → Z.of_nat (length l) < 2 ^ 31 →
  0 ≤ ls_MaxEntries req < 2 ^ 31 → ls_StartingToken req ≠ "" → ls_StartingToken req ≠ "0" →
  ParseUint 32 (ls_StartingToken req) = Some z → z = 0 ∨ Z.of_nat (length l) + 1 < z →
  (ListSnapshots hpc (Some req) w).1 = Panic "slice bounds out of range".
Proof.
  intros Hcol Hne Hlen Hmax Hn0 Hn1 Hp Hz. unfold ListSnapshots. run_ret Hcol.
  destruct l as [|s l0] eqn:Hl; [done|]. rewrite <-Hl in *. clear Hl.
  unfold snapshotPage. rewrite decide_False by (intros [?|?]; done). rewrite Hp.
  pose proof (ParseUint_range _ _ _ Hp) as Hr.
  set (hi := if Z.of_nat (length l) <? _ then _ else _).
  assert (hi < uint64 (z - 1)) as Hhi.
  { assert (hi ≤ Z.of_nat (length l)) by (unfold hi; destruct (Z.ltb_spec (Z.of_nat (length l))
      (int64 (int64 (uint64 (z - 1)) + (if ls_MaxEntries req =? 0 then Z.of_nat (length l) else ls_MaxEntries req)))); lia).
    destruct Hz as [->|Hz]; [|rewrite uint64_id by (unfold is_uint64; lia); lia].
    change (uint64 (0 - 1)) with (2 ^ 64 - 1). lia. }
  pose proof (slice_panic l (uint64 (z - 1)) hi w1 (or_introl Hhi)) as Hs.
  unfold bind. destruct (slice l _ hi w1) as [o w2]. simpl in Hs. by rewrite Hs.
Qed.

Lemma list_snapshots_token_panics_witness :
  (ListSnapshots demoController (Some (demoListReq "3")) demoSnapDone).1 = Panic "slice bounds out of range".
Proof.
  apply (list_snapshots_token_panics demoController (demoListReq "3") demoCollected 3 demoSnapDone demoAfterList);
    [vm_compute; reflexivity|done|simpl; lia|simpl; lia|done|done|vm_compute; reflexivity|right; simpl; lia].
Defined.
