(* ===== verification/Driver.v ===== *)
(** * pkg/hostpath/hostpath.go, identityserver.go and cmd/plugin/plugin.go

    The start of the driver: the configuration is checked, the storage pools
    are read from their JSON description, their directories are created, and
    the three services are built on the result. *)
From Stdlib Require Import Ascii.
From S2P Require Import Prelude GoStrings GoPath GoErrors OS OSFacts Demo Mount Json Csi Utils.
From S2P Require Import Health Reflink ControllerServer FindMnt NodeServer ControllerFacts.
From S2P Require Import ControllerProps ControllerSnap.
Open Scope Z_scope.

(** ** The identity service *)

Record hostPathIdentity := { hpi_cfg : Config }.

Definition NewHostPathIdentity (config : Config) : hostPathIdentity := {| hpi_cfg := config |}.

(** The driver's name and version. *)
Definition GetPluginInfo (hpi : hostPathIdentity) : M (string * string) :=
  if decide (DriverName (hpi_cfg hpi) = "")
  then fail (StatusError Unavailable "Driver name not configured")
  else if decide (Version (hpi_cfg hpi) = "")
  then fail (StatusError Unavailable "Version not configured")
  else ret (DriverName (hpi_cfg hpi), Version (hpi_cfg hpi)).

(** The response has no field set. *)
Definition Probe (hpi : hostPathIdentity) : M unit := ret tt.

Definition GetPluginCapabilities (hpi : hostPathIdentity) : M (list PluginService) :=
  let caps := [CONTROLLER_SERVICE] in
  ret (caps ++ [VOLUME_ACCESSIBILITY_CONSTRAINTS]).

(** ** The storage pools *)

(** One member of the JSON object of a pool. *)
Definition storagePoolField (key : string) (v : json) (info : StoragePoolInfo) : StoragePoolInfo * bool :=
  let '{| Name := n; Path := p; SnapshotPath := sp; Utils.SnapshotProvider := pr; Shared := sh |} := info in
  if selects key "name" then
    prod_map (λ x, {| Name := x; Path := p; SnapshotPath := sp; Utils.SnapshotProvider := pr; Shared := sh |}) id (decodeString v n)
  else if selects key "path" then
    prod_map (λ x, {| Name := n; Path := x; SnapshotPath := sp; Utils.SnapshotProvider := pr; Shared := sh |}) id (decodeString v p)
  else if selects key "snapshotPath" then
    prod_map (λ x, {| Name := n; Path := p; SnapshotPath := x; Utils.SnapshotProvider := pr; Shared := sh |}) id (decodeStringPtr v sp)
  else if selects key "snapshotProvider" then
    prod_map (λ x, {| Name := n; Path := p; SnapshotPath := sp; Utils.SnapshotProvider := x; Shared := sh |}) id (decodeStringPtr v pr)
  else if selects key "shared" then
    prod_map (λ x, {| Name := n; Path := p; SnapshotPath := sp; Utils.SnapshotProvider := pr; Shared := x |}) id (decodeBool v sh)
  else (info, true).

Definition parseStoragePools (dataDir : string) : option (list StoragePoolInfo) :=
  Unmarshal (decodeSlice (decodeStruct storagePoolField zeroPool)) dataDir.

(** The loop over the parsed pools: the default pool and the map. *)
Definition addPool (st : string * gmap string StoragePoolInfo) (storagePool : StoragePoolInfo)
    : string * gmap string StoragePoolInfo :=
  (if len st.1 =? 0 then Name storagePool else st.1, <[Name storagePool := storagePool]> st.2).

Definition withPools (config : Config) (storagePools : list StoragePoolInfo) : Config :=
  let '(def, pools) := foldl addPool (DefaultStoragePoolName config, ∅) storagePools in
  {| DriverName := DriverName config; Endpoint := Endpoint config; NodeID := NodeID config;
     StoragePools := pools; DefaultStoragePoolName := def; Version := Version config |}.

(** ** The driver *)

Record hostPath := {
  hp_cfg : Config;
  hp_node : hostPathNode;
  hp_controller : hostPathController;
  hp_identity : hostPathIdentity;
}.

Section ops.
Context `{!Env}.

Definition createDataRoot (u : unit) (kv : string * StoragePoolInfo) : M unit :=
  wrapErr (λ err, ErrorString ("failed to create dataRoot for storage pool " +:+ kv.1 +:+ ": " +:+ Error err))
    (os_MkdirAll (Path kv.2)).

(** [mounter]: the mounter of the configuration, the Linux one when it is nil.
    The goroutine that is started keeps evaluating the shared-path metric. *)
Definition NewHostPathDriver (config : Config) (mounter : option Mounter) (dataDir : string) : M hostPath :=
  if decide (DriverName config = "") then fail (ErrorString "no driver name provided")
  else if decide (NodeID config = "") then fail (ErrorString "no node id provided")
  else if decide (Endpoint config = "") then fail (ErrorString "no driver endpoint provided")
  else if decide (Version config = "") then fail (ErrorString "no version provided")
  else
    let mounter := default linuxMounter mounter in
    match parseStoragePools dataDir with
    | None => fail (ErrorString "unable to parse storage pool info")
    | Some storagePools =>
        let config := withPools config storagePools in
        pools <- range_map (StoragePools config) ;;
        foldM createDataRoot tt pools >>
        let node := NewHostPathNode config mounter in
        controller <- NewHostPathController config ;;
        ret {| hp_cfg := config; hp_node := node; hp_controller := controller;
               hp_identity := NewHostPathIdentity config |}
    end.
End ops.

(** ** The flags of the plugin *)

(** What the flags of [main] hold when only the node id and the version are
    given. *)
Definition pluginConfig (nodeid version : string) : Config :=
  {| DriverName := "hostpath.csi.kubevirt.io"; Endpoint := "unix://tmp/csi.sock"; NodeID := nodeid;
     StoragePools := ∅; DefaultStoragePoolName := ""; Version := version |}.

Definition pluginDataDir : string :=
  "[{" +:+ q "name" +:+ ":" +:+ q "legacy" +:+ "," +:+ q "path" +:+ ":" +:+ q "/csi-data-dir" +:+ ","
  +:+ q "snapshotPath" +:+ ":" +:+ q "/snap-dir" +:+ ", " +:+ q "snapshotProvider" +:+ ":" +:+ q "reflink" +:+ "}]".

(** ** Facts *)

Definition first_name (def : string) (l : list StoragePoolInfo) : string :=
  default "" (head (filter (λ s, s ≠ "") (def :: (Name <$> l)))).

Lemma addPools_run l def m :
  foldl addPool (def, m) l =
    (first_name def l, list_to_map (reverse ((λ p, (Name p, p)) <$> l)) ∪ m).
Proof.
  revert def m. induction l as [|p l IH]; intros def m; simpl.
  - unfold first_name. rewrite (left_id_L ∅ (∪)). f_equal. simpl. rewrite filter_cons. by repeat case_decide.
  - unfold addPool at 2. cbn [fst snd]. rewrite IH. f_equal.
    + unfold first_name. simpl. destruct (Z.eqb_spec (len def) 0) as [->%len_0|Hne].
      * done.
      * assert (def ≠ "") by (by intros ->). by rewrite !(filter_cons_True _ def).
    + rewrite reverse_cons, list_to_map_app. simpl. rewrite <-(assoc_L (∪)). f_equal.
      apply map_eq. intros k. rewrite lookup_union. destruct (decide (Name p = k)) as [<-|Hk].
      * rewrite !lookup_insert_eq. by destruct (m !! Name p).
      * rewrite !lookup_insert_ne, lookup_empty by done. by destruct (m !! k).
Qed.

Lemma pools_last l name :
  (list_to_map (reverse ((λ p, (Name p, p)) <$> l)) : gmap string StoragePoolInfo) !! name =
    last (filter (λ p, Name p = name) l).
Proof.
  induction l as [|p l IH] using rev_ind; [done|].
  rewrite fmap_app, filter_app. cbn [fmap list_fmap]. rewrite reverse_snoc, list_to_map_cons.
  rewrite filter_cons, filter_nil. case_decide as Hn.
  - subst name. by rewrite lookup_insert_eq, last_snoc.
  - by rewrite lookup_insert_ne, app_nil_r.
Qed.

Lemma withPools_spec config l :
  (∀ name, StoragePools (withPools config l) !! name = last (filter (λ p, Name p = name) l)) ∧
  DefaultStoragePoolName (withPools config l) = first_name (DefaultStoragePoolName config) l.
Proof.
  unfold withPools. rewrite addPools_run. cbn [StoragePools DefaultStoragePoolName]. split; [|done].
  intros name. rewrite (right_id_L ∅ (∪)). apply pools_last.
Qed.

(** The tree gains directories on the way to the roots and nothing else. *)
Definition grows (roots : list GoPath.path) (w w' : world) : Prop :=
  w_mounts w' = w_mounts w ∧ ∀ k, kept roots (w_fs w) (w_fs w') k.

#[export] Instance grows_preorder roots : PreOrder (grows roots).
Proof.
  split.
  - intros w. split; [done|]. by left.
  - intros w1 w2 w3 [Hm1 H1] [Hm2 H2]. split; [congruence|]. intros k.
    destruct (H1 k) as [E1|(E1&E1'&E1'')], (H2 k) as [E2|(E2&E2'&E2'')]; unfold kept; intuition congruence.
Qed.

#[export] Instance grows_tick roots : TickInv (grows roots).
Proof. intros w. split; [done|]. by left. Qed.

Lemma grows_quiet roots w w' : quiet w w' → grows roots w w'.
Proof. intros (Hfs&Hm&_). split; [done|]. left. by rewrite Hfs. Qed.

Lemma grows_found roots w w' k x : grows roots w w' → w_fs w !! k = Some x → w_fs w' !! k = Some x.
Proof. intros [_ Hk] Hx. destruct (Hk k) as [->|(?&_)]; [done|congruence]. Qed.

Section facts.
Context `{!Env}.

Lemma respects_grows_MkdirAll roots s : resolve s ∈ roots → respects (grows roots) (os_MkdirAll s).
Proof.
  intros Hin w. unfold os_MkdirAll. case_decide; [by destruct (grows_preorder roots)|].
  destruct (mkdir_all_from_adds (resolve s) [] w) as [Hm Hk]. split; [done|]. intros k.
  destruct (Hk k) as [?|(?&?&?)]; [by left|right]. split_and!; [done..|]. apply Exists_exists. eauto.
Qed.

Lemma createDataRoots_run roots l w :
  wf_fs (w_fs w) → (∀ kv, kv ∈ l → resolve (Path kv.2) ∈ roots) →
  match foldM createDataRoot tt l w with
  | (Ret _, w') => grows roots w w' ∧ wf_fs (w_fs w') ∧
      ∀ kv, kv ∈ l → Path kv.2 ≠ "" ∧ w_fs w' !! resolve (Path kv.2) = Some NDir
  | (Fail e, w') => grows roots w w' ∧ ∃ kv err, kv ∈ l ∧
      e = ErrorString ("failed to create dataRoot for storage pool " +:+ kv.1 +:+ ": " +:+ Error err)
  | (Panic _, _) => False
  end.
Proof.
  revert w. induction l as [|kv l IH]; intros w Hwf Hroots; cbn [foldM].
  { split_and!; [done|done|]. by intros kv ?%elem_of_nil. }
  unfold bind, createDataRoot at 1, wrapErr.
  pose proof (respects_grows_MkdirAll roots (Path kv.2) ltac:(apply Hroots; left) w) as Hg.
  pose proof (nopanic_MkdirAll (Path kv.2) w) as Hnp.
  pose proof (MkdirAll_ret (Path kv.2) w) as Hret.
  assert ((os_MkdirAll (Path kv.2) w).1 = Ret tt → Path kv.2 ≠ "") as Hne.
  { intros Hr He. unfold os_MkdirAll in Hr. rewrite decide_True in Hr by done. done. }
  destruct (os_MkdirAll (Path kv.2) w) as [[[]|e|p] w1]; cbn [fst snd] in *;
    [|split; [done|]; exists kv, e; split; [by left|done]|by destruct (Hnp p)].
  destruct (Hret w1 Hwf eq_refl) as (_&Hwf1&Hdir&_&_).
  specialize (IH w1 Hwf1 ltac:(by intros; apply Hroots; right)).
  destruct (foldM createDataRoot tt l w1) as [[u|e|p] w2];
    [|destruct IH as (?&kv'&?&?&?); split; [by etransitivity|]; eexists _, _; split; [by right|done]|done].
  destruct IH as (Hg2&Hwf2&Hall). split_and!; [by etransitivity|done|].
  intros kv' [-> |Hin]%elem_of_cons; [|by apply Hall]. split; [by apply Hne|].
  eapply grows_found; [done|]. by apply Hdir.
Qed.
End facts.

(** The pool directories of a configuration. *)
Definition data_roots (config : Config) : list GoPath.path :=
  (λ kv : string * StoragePoolInfo, resolve (Path kv.2)) <$> map_to_list (StoragePools config).

Lemma data_roots_elem config (l : list (string * StoragePoolInfo)) :
  (∀ kv, kv ∈ l ↔ StoragePools config !! kv.1 = Some kv.2) →
  ∀ kv, kv ∈ l → resolve (Path kv.2) ∈ data_roots config.
Proof.
  intros Hl kv Hkv%Hl. unfold data_roots. apply list_elem_of_fmap. exists kv. split; [done|].
  destruct kv. by apply elem_of_map_to_list.
Qed.

Definition unset (config : Config) : Prop :=
  DriverName config = "" ∨ NodeID config = "" ∨ Endpoint config = "" ∨ Version config = "".

(** C30: Starting the driver on any configuration and any pool description: when it succeeds, the
    name, node, endpoint and version are set, the description parses, the last pool of a name is
    the one served, the default pool is the configured one or the first name of the description,
    every pool directory exists, exactly the pools that ask for the reflink provider have one,
    and all services share this configuration; whatever happens, the tree only gains directories on the way to the
    pool paths and the mounts stay as they are. It fails when a setting is missing, the description does
    not parse or a directory cannot be made, and ends the process only for a pool whose provider
    cannot be served. *)
Theorem driver_init `{!Env} config mounter dataDir w :
  wf_fs (w_fs w) →
  let pools := default [] (parseStoragePools dataDir) in
  let config' := withPools config pools in
  match NewHostPathDriver config mounter dataDir w with
  | (Ret hp, w') =>
      ¬ unset config ∧ parseStoragePools dataDir = Some pools ∧
      hp_cfg hp = config' ∧ hpn_cfg (hp_node hp) = config' ∧ cfg (hp_controller hp) = config' ∧
      hpi_cfg (hp_identity hp) = config' ∧
      (∀ name, StoragePools config' !! name = last (filter (λ p, Name p = name) pools)) ∧
      DefaultStoragePoolName config' = first_name (DefaultStoragePoolName config) pools ∧
      (∀ name, snapshotproviders (hp_controller hp) !! name = StoragePools config' !! name ≫= providerOf config') ∧
      (∀ name info, StoragePools config' !! name = Some info → w_fs w' !! resolve (Path info) = Some NDir) ∧
      grows (data_roots config') w w'
  | (Fail e, w') => grows (data_roots config') w w' ∧
      (unset config ∨ parseStoragePools dataDir = None ∨
       ∃ name info err, StoragePools config' !! name = Some info ∧
         e = ErrorString ("failed to create dataRoot for storage pool " +:+ name +:+ ": " +:+ Error err))
  | (Panic _, w') => grows (data_roots config') w w' ∧ ¬ unset config ∧
      ∃ name info, StoragePools config' !! name = Some info ∧ wants info = WantBad
  end.
Proof.
  intros Hwf. cbv zeta. unfold NewHostPathDriver, unset.
  do 4 (case_decide; [split; [reflexivity|by auto]|]).
  destruct (parseStoragePools dataDir) as [pools|]; [|split; [reflexivity|by auto]]. cbn [default].
  destruct (withPools_spec config pools) as [Hlast Hdef].
  set (config' := withPools config pools) in *.
  unfold bind at 1, range_map, reads.
  set (l := range_order _ (w_tick w) (StoragePools config')).
  assert (∀ kv, kv ∈ l ↔ StoragePools config' !! kv.1 = Some kv.2) as Hl.
  { intros [k v]. unfold l. by rewrite range_order_perm, elem_of_map_to_list. }
  pose proof (createDataRoots_run (data_roots config') l (tickw w) Hwf) as Hroots.
  unfold bind at 1. destruct (foldM createDataRoot tt l (tickw w)) as [[u|e|p] w1].
  - destruct Hroots as (Hg&Hwf1&Hdirs); [by apply data_roots_elem|].
    assert (grows (data_roots config') w w1) as Hg1 by (by etransitivity; [apply grows_tick|]).
    pose proof (NewHostPathController_run config' w1) as Hctl. unfold bind.
    destruct (NewHostPathController config' w1) as [[hpc|e|p] w2]; [|done|].
    + destruct Hctl as (Hq&Hcfg&_&Hprov). cbn [hp_cfg hp_node hp_controller hp_identity hpn_cfg hpi_cfg].
      split_and!; try done; [tauto| |etransitivity; [exact Hg1|by apply grows_quiet]].
      intros name info Hp. eapply grows_found; [by apply (grows_quiet []), Hq|].
      by apply (Hdirs (name, info)), Hl.
    + destruct Hctl as [Hq Hbad]. split_and!; [etransitivity; [exact Hg1|by apply grows_quiet]|tauto|done].
  - destruct Hroots as (Hg&kv&err&Hkv&->); [by apply data_roots_elem|].
    split; [by etransitivity; [apply grows_tick|]|]. right; right. apply Hl in Hkv. by eexists _, _, _.
  - destruct (Hroots (data_roots_elem _ _ Hl)).
Qed.

(** What later steps rely on. *)
Lemma NewHostPathDriver_ret `{!Env} config mounter dataDir w hp w' :
  wf_fs (w_fs w) → NewHostPathDriver config mounter dataDir w = (Ret hp, w') →
  wf_fs (w_fs w') ∧ providers_safe (hp_controller hp).
Proof.
  intros Hwf. unfold NewHostPathDriver. do 4 (case_decide; [done|]).
  destruct (parseStoragePools dataDir) as [pools|]; [|done]. intros Hrun.
  bind_inv Hrun l w1 Hl. unfold range_map, reads in Hl. injection Hl as <- <-.
  bind_inv Hrun u w2 Hu. bind_inv Hrun hpc w3 Hc. injection Hrun as <- <-. cbn [hp_controller].
  split; [|by eapply new_controller_safe].
  pose proof (NewHostPathController_run (withPools config pools) w2) as Hq. rewrite Hc in Hq.
  destruct Hq as [(->&_) _].
  pose proof (createDataRoots_run (data_roots (withPools config pools))
    (range_order _ (w_tick w) (StoragePools (withPools config pools))) (tickw w) Hwf
    ltac:(apply data_roots_elem; intros [k v]; by rewrite range_order_perm, elem_of_map_to_list)) as Hroots.
  rewrite Hu in Hroots. apply Hroots.
Qed.

Definition is_ret {E A} (o : outcome E A) : bool := match o with Ret _ => true | _ => false end.

Lemma driver_init_witness :
  match NewHostPathDriver (pluginConfig "node1" "v1") None pluginDataDir (World (tree []) [] 0 0) with
  | (Ret hp, w') =>
      StoragePools (hp_cfg hp) !! "legacy" =
        Some {| Name := "legacy"; Path := "/csi-data-dir"; SnapshotPath := Some "/snap-dir";
                Utils.SnapshotProvider := Some "reflink"; Shared := false |} ∧
      DefaultStoragePoolName (hp_cfg hp) = "legacy" ∧ w_fs w' !! ["csi-data-dir"] = Some NDir
  | _ => False
  end.
Proof.
  assert (wf_fs (w_fs (World (tree []) [] 0 0))) as Hwf by by_wf.
  pose proof (driver_init (pluginConfig "node1" "v1") None pluginDataDir (World (tree []) [] 0 0) Hwf) as H.
  assert (is_ret (NewHostPathDriver (pluginConfig "node1" "v1") None pluginDataDir (World (tree []) [] 0 0)).1 = true)
    as Hr by (vm_compute; reflexivity).
  destruct (NewHostPathDriver _ _ _ _) as [[hp|e|p] w']; [|discriminate Hr..].
  destruct H as (_&_&->&_&_&_&_&_&_&Hdir&_). split_and!; [vm_compute; reflexivity..|].
  apply (Hdir "legacy" {| Name := "legacy"; Path := "/csi-data-dir"; SnapshotPath := Some "/snap-dir";
                          Utils.SnapshotProvider := Some "reflink"; Shared := false |}).
  vm_compute. reflexivity.
Defined.
