(* ===== verification/Server.v ===== *)
(** * pkg/hostpath/server.go

    The endpoint of the gRPC server: how it is parsed, the socket it becomes,
    and what stopping the server takes away. *)
From Stdlib Require Import Ascii.
From S2P Require Import Prelude GoStrings GoPath GoErrors OS OSFacts Demo Json Utils Driver.
Open Scope Z_scope.

(** [strings.SplitN(s, sep, 2)] for a separator that is not empty: what is
    before and after its first occurrence. *)
Fixpoint drop_prefix (p s : string) : option string :=
  match p, s with
  | "", _ => Some s
  | String a p', String b s' => if Ascii.eqb a b then drop_prefix p' s' else None
  | String _ _, "" => None
  end.

Fixpoint cut (sep s : string) : option (string * string) :=
  match drop_prefix sep s with
  | Some rest => Some ("", rest)
  | None =>
      match s with
      | "" => None
      | String a s' => prod_map (String a) id <$> cut sep s'
      end
  end.

(** The protocol and the address of an endpoint. [s[1]] is there: the prefix
    holds the separator. *)
Definition parse (ep : string) : gerror + (string * string) :=
  if HasPrefix (ToLower ep) "unix://" || HasPrefix (ToLower ep) "tcp://" then
    match cut "://" ep with
    | Some (proto, addr) =>
        if decide (addr ≠ "") then inr (proto, addr)
        else inl (ErrorString ("invalid endpoint: " +:+ ep))
    | None => inl (ErrorString ("invalid endpoint: " +:+ ep))
    end
  else inr ("unix", ep).

(** A listener: its address, and the file that the cleanup function removes. *)
Record Listener := { l_addr : string; l_cleanup : option string }.

Section ops.
Context `{!Env}.

Definition listen (endpoint : string) : M Listener :=
  match parse endpoint with
  | inl err => fail err
  | inr (proto, addr) =>
      if decide (proto = "unix") then
        let addr := "/" +:+ addr in
        r <- try (os_Remove addr) ;;
        match r with
        | inr err =>
            if os_IsNotExist err then net_ListenUnix addr >> ret {| l_addr := addr; l_cleanup := Some addr |}
            else fail (ErrorString (addr +:+ ": " +:+ q (Error err)))
        | inl _ => net_ListenUnix addr >> ret {| l_addr := addr; l_cleanup := Some addr |}
        end
      else net_ListenUnix addr >> ret {| l_addr := addr; l_cleanup := None |}
  end.

(** [Stop] and [ForceStop] after the server itself has stopped; the result of
    the removal is dropped. *)
Definition cleanup (l : Listener) : M unit :=
  match l_cleanup l with
  | Some addr => _r <- try (os_Remove addr) ;; ret tt
  | None => ret tt
  end.
End ops.

(** ** Facts *)

Lemma parse_schema proto rest :
  (HasPrefix (ToLower (proto +:+ "://" +:+ rest)) "unix://" ||
   HasPrefix (ToLower (proto +:+ "://" +:+ rest)) "tcp://") = true →
  cut "://" (proto +:+ "://" +:+ rest) = Some (proto, rest) → rest ≠ "" →
  parse (proto +:+ "://" +:+ rest) = inr (proto, rest).
Proof. intros Hp Hc Hr. unfold parse. by rewrite Hp, Hc, decide_True. Qed.

Lemma parse_unix rest : rest ≠ "" → parse ("unix://" +:+ rest) = inr ("unix", rest).
Proof. intros Hr. by apply (parse_schema "unix"). Qed.

Lemma parse_tcp rest : rest ≠ "" → parse ("tcp://" +:+ rest) = inr ("tcp", rest).
Proof. intros Hr. by apply (parse_schema "tcp"). Qed.

(** An entry that a socket can take the place of. *)
Record socketPlace (addr : string) (p : GoPath.path) (c : string) (w : world) : Prop := {
  so_wf : wf_fs (w_fs w);
  so_path : resolve addr = p ++ [c];
  so_parent : w_fs w !! p = Some NDir;
  so_len : len addr ≤ 107;
  so_named : HasPrefix addr "@" = false;
  so_old : ∀ x, w_fs w !! resolve addr = Some x → ∃ content, x = NFile content;
  so_free : ∀ mp, mp ∈ w_mounts w → resolve (mp_Path mp) ≠ resolve addr;
}.

Lemma list_snoc_ne (p : GoPath.path) c : p ++ [c] ≠ p.
Proof. intros He%(f_equal length). rewrite length_app in He. simpl in He. lia. Qed.

Section facts.
Context `{!Env} (Hnf : no_faults).

Lemma file_no_children fs p content : wf_fs fs → fs !! p = Some (NFile content) → child_names p fs = [].
Proof.
  intros Hwf Hp. destruct (child_names p fs) as [|c l] eqn:Hc; [done|].
  assert (c ∈ child_names p fs) as Hin by (rewrite Hc; left).
  apply elem_of_child_names in Hin as [n Hn]. apply (wf_parent _ Hwf) in Hn as [? _]. congruence.
Qed.

Lemma Remove_file addr p c content w :
  socketPlace addr p c w → w_fs w !! resolve addr = Some (NFile content) →
  os_Remove addr w = (Ret tt, tickw (set_fs (delete (resolve addr) (w_fs w)) w)).
Proof.
  intros Hs Hf. unfold os_Remove. rewrite Hnf, Hf.
  assert (resolve addr ≠ []) as Hne by (rewrite (so_path _ _ _ _ Hs); by destruct p).
  rewrite decide_False by (by intros ->). rewrite decide_False by done.
  rewrite bool_decide_false.
  2: { intros (mp&Hmp&He)%Exists_exists. by apply (so_free _ _ _ _ Hs mp Hmp). }
  rewrite bool_decide_true; [done|]. by eapply file_no_children, Hf; apply Hs.
Qed.

Lemma Remove_missing addr p c w :
  socketPlace addr p c w → w_fs w !! resolve addr = None → addr ≠ "" →
  os_Remove addr w = (Fail (PathError "remove" addr ENOENT), tickw w).
Proof.
  intros Hs Hf Hne. unfold os_Remove. rewrite Hnf, Hf, decide_False by done.
  rewrite (so_path _ _ _ _ Hs). by rewrite missing_errno_entry; [|apply Hs|apply Hs|rewrite <-(so_path _ _ _ _ Hs)].
Qed.

Lemma Listen_ok addr p c w :
  socketPlace addr p c w → w_fs w !! resolve addr = None →
  net_ListenUnix addr w = (Ret tt, tickw (set_fs (<[resolve addr := NFile "socket"]> (w_fs w)) w)).
Proof.
  intros Hs Hf. unfold net_ListenUnix. rewrite Hnf, (so_named _ _ _ _ Hs), Hf.
  rewrite (proj2 (Z.ltb_ge _ _)) by apply Hs.
  rewrite (so_path _ _ _ _ Hs), removelast_last. by rewrite (so_parent _ _ _ _ Hs).
Qed.
(** The place of a socket stays one when the socket is removed or made. *)
Lemma socketPlace_none addr p c w ms n g :
  socketPlace addr p c w → w_mounts w = ms →
  socketPlace addr p c (World (delete (resolve addr) (w_fs w)) ms n g).
Proof.
  intros Hs Hm. pose proof (so_path _ _ _ _ Hs) as Hr. pose proof (so_wf _ _ _ _ Hs) as Hwf.
  split; simpl; [|apply Hs|rewrite Hr, lookup_delete_ne; [apply Hs|apply list_snoc_ne]|apply Hs|apply Hs
                 |by intros x; rewrite lookup_delete_eq|rewrite <-Hm; apply Hs].
  split; [rewrite Hr, lookup_delete_ne; [apply Hwf|by destruct p]|].
  intros k d x [Hne Hx]%lookup_delete_Some. apply (wf_parent _ Hwf) in Hx as [Hk Hd]. split; [|done].
  rewrite lookup_delete_ne; [done|]. intros <-. by apply (so_old _ _ _ _ Hs) in Hk as [??].
Qed.

Lemma socketPlace_some addr p c w ms n g content :
  socketPlace addr p c w → w_mounts w = ms →
  socketPlace addr p c (World (<[resolve addr := NFile content]> (w_fs w)) ms n g).
Proof.
  intros Hs Hm. pose proof (so_path _ _ _ _ Hs) as Hr. pose proof (so_wf _ _ _ _ Hs) as Hwf.
  split; simpl; [|apply Hs|rewrite Hr, lookup_insert_ne; [apply Hs|apply list_snoc_ne]|apply Hs|apply Hs
                 |intros x; rewrite lookup_insert_eq; naive_solver|rewrite <-Hm; apply Hs].
  split; [rewrite Hr, lookup_insert_ne; [apply Hwf|by destruct p]|].
  intros k d x [[He _]|[Hne Hx]]%lookup_insert_Some.
  - rewrite Hr in He. apply app_inj_tail in He as [-> ->].
    rewrite Hr, lookup_insert_ne by apply list_snoc_ne. split; [apply Hs|].
    pose proof (resolve_valid addr) as Hv. rewrite Hr in Hv. by apply Forall_app in Hv as [_ [? _]%Forall_cons_1].
  - apply (wf_parent _ Hwf) in Hx as [Hk Hd]. split; [|done].
    rewrite lookup_insert_ne; [done|]. intros <-. by apply (so_old _ _ _ _ Hs) in Hk as [??].
Qed.

(** Whatever was at the address, the socket is made in its place. *)
Lemma listen_unix_run rest p c w :
  rest ≠ "" → socketPlace ("/" +:+ rest) p c w →
  let addr := "/" +:+ rest in
  ∃ n, listen ("unix://" +:+ rest) w =
    (Ret {| l_addr := addr; l_cleanup := Some addr |},
     World (<[resolve addr := NFile "socket"]> (w_fs w)) (w_mounts w) n (w_gauge w)).
Proof.
  intros Hr Hs. cbv zeta. unfold listen. rewrite parse_unix, decide_True by done.
  set (addr := "/" +:+ rest) in *. destruct (w_fs w !! resolve addr) as [x|] eqn:Hx.
  - destruct (so_old _ _ _ _ Hs x Hx) as [content ->].
    erewrite run_bind_ret by (apply run_try_ret; by eapply Remove_file).
    cbv beta iota. erewrite run_bind_ret.
    2: { eapply Listen_ok; [by apply (socketPlace_none addr p c w)|]. apply lookup_delete_eq. }
    eexists. unfold set_fs, tickw. simpl. by rewrite insert_delete_eq.
  - erewrite run_bind_ret by (apply run_try_fail; by eapply Remove_missing).
    cbn [os_IsNotExist]. rewrite bool_decide_true by done. erewrite run_bind_ret.
    2: { eapply Listen_ok; [|done]. destruct Hs; by split. }
    by eexists.
Qed.

Lemma cleanup_run addr p c content w :
  socketPlace addr p c w → w_fs w !! resolve addr = Some (NFile content) →
  cleanup {| l_addr := addr; l_cleanup := Some addr |} w =
    (Ret tt, tickw (set_fs (delete (resolve addr) (w_fs w)) w)).
Proof.
  intros Hs Hf. unfold cleanup. simpl. by erewrite run_bind_ret by (apply run_try_ret; by eapply Remove_file).
Qed.
End facts.

(** On a unix endpoint the server listens on a socket at the address, in place of a file a
    previous run left there; a server that starts again on the same endpoint succeeds the same way,
    and stopping it leaves nothing at the address and everything else as it was. *)
Theorem unix_endpoint_lifecycle `{!Env} rest p c w :
  no_faults → rest ≠ "" → socketPlace ("/" +:+ rest) p c w →
  let addr := "/" +:+ rest in
  ∃ l w1, listen ("unix://" +:+ rest) w = (Ret l, w1) ∧ l_addr l = addr ∧
    w_fs w1 = <[resolve addr := NFile "socket"]> (w_fs w) ∧
    (∃ w2, listen ("unix://" +:+ rest) w1 = (Ret l, w2) ∧ w_fs w2 = w_fs w1) ∧
    (∃ w3, cleanup l w1 = (Ret tt, w3) ∧ w_fs w3 = delete (resolve addr) (w_fs w)).
Proof.
  intros Hnf Hr Hs. cbv zeta. destruct (listen_unix_run Hnf rest p c w Hr Hs) as [n Hrun]. cbv zeta in Hrun.
  pose proof (socketPlace_some ("/" +:+ rest) p c w (w_mounts w) n (w_gauge w) "socket" Hs eq_refl) as Hs1.
  do 2 eexists. split_and!; [exact Hrun|done|done| |].
  - destruct (listen_unix_run Hnf rest p c _ Hr Hs1) as [m Hrun1]. eexists. split; [exact Hrun1|].
    simpl. by rewrite insert_insert_eq.
  - eexists. split; [eapply (cleanup_run Hnf _ p c); [exact Hs1|apply lookup_insert_eq]|]. simpl.
    by rewrite delete_insert_eq.
Qed.

Lemma unix_endpoint_lifecycle_witness :
  ∃ l w1, listen (Endpoint (pluginConfig "node1" "v1")) (World (tree [(["tmp"], NDir)]) [] 0 0) = (Ret l, w1) ∧
    l_addr l = "/tmp/csi.sock".
Proof.
  destruct (unix_endpoint_lifecycle "tmp/csi.sock" ["tmp"] "csi.sock" (World (tree [(["tmp"], NDir)]) [] 0 0))
    as (l&w1&Hrun&Haddr&_); [done|done| |by exists l, w1].
  split; [by_wf|vm_compute; reflexivity|vm_compute; reflexivity|vm_compute; discriminate|reflexivity| |].
  - intros x. vm_compute. discriminate.
  - intros mp Hmp. inversion Hmp.
Defined.

(** On a tcp endpoint the server listens on a unix socket all the same, at the path named by
    the host and port: the file stays when the server is stopped, and the next start then fails
    because the address is in use. *)
Theorem tcp_endpoint_unix_socket `{!Env} rest p c w :
  no_faults → rest ≠ "" → socketPlace rest p c w → w_fs w !! resolve rest = None →
  ∃ l w1 w2 e w3, listen ("tcp://" +:+ rest) w = (Ret l, w1) ∧
    w_fs w1 = <[resolve rest := NFile "socket"]> (w_fs w) ∧
    cleanup l w1 = (Ret tt, w2) ∧ w_fs w2 = w_fs w1 ∧
    listen ("tcp://" +:+ rest) w2 = (Fail (WrapError e (Errno EADDRINUSE)), w3).
Proof.
  intros Hnf Hr Hs Hn. unfold listen. rewrite parse_tcp, decide_False by done.
  erewrite run_bind_ret by (by eapply Listen_ok). do 5 eexists. split_and!; [done|done|done|done|].
  eapply run_bind_fail. unfold net_ListenUnix. rewrite Hnf, (so_named _ _ _ _ Hs). simpl.
  rewrite (proj2 (Z.ltb_ge _ _)) by apply Hs. by rewrite lookup_insert_eq.
Qed.

Lemma tcp_endpoint_unix_socket_witness :
  ∃ l w1, listen "tcp://localhost:80" (World (tree []) [] 0 0) = (Ret l, w1) ∧
    w_fs w1 !! ["localhost:80"] = Some (NFile "socket").
Proof.
  destruct (tcp_endpoint_unix_socket "localhost:80" [] "localhost:80" (World (tree []) [] 0 0))
    as (l&w1&w2&e&w3&Hrun&Hfs&_); [done|done| |vm_compute; reflexivity|].
  - split; [by_wf|vm_compute; reflexivity|vm_compute; reflexivity|vm_compute; discriminate|reflexivity| |].
    + intros x. vm_compute. discriminate.
    + intros mp Hmp. inversion Hmp.
  - exists l, w1. split; [exact Hrun|]. rewrite Hfs. vm_compute. reflexivity.
Defined.
