(* ===== verification/GrpcServer.v ===== *)
(** * pkg/hostpath/server.go: the server around the services

    The life of the non-blocking server, its wait group included, and the
    interceptor that logs the calls. The gRPC library itself is not modelled:
    it dispatches requests to the registered services. *)
From S2P Require Import Prelude GoStrings GoPath GoErrors OS OSFacts Demo Json Utils Driver Server.
Open Scope Z_scope.

(** ** The life of the server *)

(** What [NewServer] made, with the services that were registered; a nil
    pointer before that. *)
Record grpcServer := { sv_services : list string; sv_listener : Listener; sv_serving : bool }.

(** [goroutines]: the serve goroutines that have not come to listen yet, with
    their endpoint and the services they are to register. *)
Record nonBlockingGRPCServer := NonBlocking {
  wg : nat;
  server : option grpcServer;
  goroutines : list (string * (bool * bool * bool));
}.

Definition NewNonBlockingGRPCServer : nonBlockingGRPCServer := NonBlocking 0 None [].

(** The services are given or nil: identity, controller, node. *)
Definition Start (endpoint : string) (ids cs ns : bool) (s : nonBlockingGRPCServer) : nonBlockingGRPCServer :=
  NonBlocking (S (wg s)) (server s) ((endpoint, (ids, cs, ns)) :: goroutines s).

(** [wg.Wait] returns when the counter is zero. *)
Definition WaitReturns (s : nonBlockingGRPCServer) : Prop := wg s = O.

Section ops.
Context `{!Env}.

(** The goroutine up to the call of [Serve]; a failure to listen is fatal. *)
Definition serve (ep : string) (ids cs ns : bool) (s : nonBlockingGRPCServer) : M nonBlockingGRPCServer :=
  r <- try (listen ep) ;;
  match r with
  | inr err => panic ("Failed to listen: " +:+ Error err)
  | inl listener =>
      ret (NonBlocking (wg s)
             (Some {| sv_services := (if ids then ["csi.v1.Identity"] else []) ++
                                     (if cs then ["csi.v1.Controller"] else []) ++
                                     (if ns then ["csi.v1.Node"] else []);
                      sv_listener := listener; sv_serving := true |})
             (goroutines s))
  end.

(** [Serve] has returned: the server no longer accepts requests. The goroutine
    only logs that; the pointer to the server and the wait group stay. *)
Definition serveEnd (s : nonBlockingGRPCServer) : nonBlockingGRPCServer :=
  match server s with
  | Some srv =>
      NonBlocking (wg s)
        (Some {| sv_services := sv_services srv; sv_listener := sv_listener srv; sv_serving := false |})
        (goroutines s)
  | None => s
  end.

(** [Stop] and [ForceStop]: the library's server stops serving, then the
    cleanup function runs. *)
Definition Stop (s : nonBlockingGRPCServer) : M nonBlockingGRPCServer :=
  match server s with
  | None => panic "invalid memory address or nil pointer dereference"
  | Some srv =>
      cleanup (sv_listener srv) >>
      ret (NonBlocking (wg s)
             (Some {| sv_services := sv_services srv; sv_listener := sv_listener srv; sv_serving := false |})
             (goroutines s))
  end.
Definition ForceStop (s : nonBlockingGRPCServer) : M nonBlockingGRPCServer := Stop s.

(** The steps of the process that runs a driver: a goroutine comes to listen,
    [Serve] returns, someone stops the server. *)
Inductive server_step : nonBlockingGRPCServer * world → nonBlockingGRPCServer * world → Prop :=
  | step_serve ep ids cs ns gs wg0 srv w s' w' :
      serve ep ids cs ns (NonBlocking wg0 srv gs) w = (Ret s', w') →
      server_step (NonBlocking wg0 srv ((ep, (ids, cs, ns)) :: gs), w) (s', w')
  | step_serve_end s w : server_step (s, w) (serveEnd s, w)
  | step_stop s w s' w' : Stop s w = (Ret s', w') → server_step (s, w) (s', w')
  | step_force_stop s w s' w' : ForceStop s w = (Ret s', w') → server_step (s, w) (s', w').

(** [Run] of the driver up to its wait. *)
Definition runStart (endpoint : string) : nonBlockingGRPCServer :=
  Start endpoint true true true NewNonBlockingGRPCServer.
End ops.

(** ** Logging *)

(** A line of the log. The JSON line is not sanitised. *)
Inductive logline : Type :=
  | LogCall (fullMethod : string)
  | LogRequest (sanitized : string)
  | LogError (err : string)
  | LogResponse (sanitized : string)
  | LogJson (msg : string).

(** Requests and replies of any kind; [StripSecrets] and [Marshal] print them. *)
Record printers (Req Resp : Type) := {
  StripRequest : Req → string;
  StripResponse : option Resp → string;
  Marshal : string → Req → option Resp → string → option gerror → gerror + string;
}.
Arguments StripRequest {_ _} _ _.
Arguments StripResponse {_ _} _ _.
Arguments Marshal {_ _} _ _ _ _ _ _.

Section logging.
Context `{!Env} {Req Resp : Type} (pr : printers Req Resp).

(** [Error] is empty without an error; a message that cannot be marshalled is
    logged as nothing. *)
Definition logGRPCJson (method : string) (request : Req) (reply : option Resp) (err : option gerror) : logline :=
  LogJson (match Marshal pr method request reply (match err with Some e => Error e | None => "" end) err with
           | inr msg => msg
           | inl _ => ""
           end).

(** The interceptor, at a verbosity of the log: the result of the handler and
    the lines that are written. *)
Definition logGRPC (verbosity : Z) (fullMethod : string) (handler : Req → M Resp) (req : Req) (w : world)
    : outcome gerror Resp * world * list logline :=
  let pri := if decide (fullMethod = "/csi.v1.Identity/Probe") then 5 else 3 in
  let v5 := 5 <=? verbosity in
  let before := (if pri <=? verbosity then [LogCall fullMethod] else []) ++
                (if v5 then [LogRequest (StripRequest pr req)] else []) in
  let '(o, w') := handler req w in
  match o with
  | Panic _ => (o, w', before)
  | _ =>
      let resp := match o with Ret a => Some a | _ => None end in
      let err := match o with Fail e => Some e | _ => None end in
      (o, w', before ++
        match err with Some e => [LogError (Error e)] | None => [] end ++
        (if v5 then [LogResponse (StripResponse pr resp); logGRPCJson fullMethod req resp err] else []))
  end.
End logging.

(** ** Properties *)

Lemma server_step_wg `{!Env} s w s' w' : server_step (s, w) (s', w') → wg s' = wg s.
Proof.
  inversion 1 as [ep ids cs ns gs wg0 srv w0 s0 w1 Hs| |? ? ? ? Hs|? ? ? ? Hs]; subst; try done.
  - unfold serve in Hs. bind_inv Hs r w2 Hr. destruct r; [by injection Hs as <- _|done].
  - unfold serveEnd. by destruct (server s).
  - unfold Stop in Hs. destruct (server s); [|done]. bind_inv Hs r w2 Hr. by injection Hs as <- _.
  - unfold ForceStop, Stop in Hs. destruct (server s); [|done]. bind_inv Hs r w2 Hr. by injection Hs as <- _.
Qed.

Lemma server_steps_wg `{!Env} x y : rtc server_step x y → wg y.1 = wg x.1.
Proof. induction 1 as [|[s1 w1] [s2 w2] z Hstep _ IH]; [done|]. rewrite IH. by eapply server_step_wg. Qed.

(** The driver never ends by itself: whatever happens to its server (it listens, serving ends with an error, it is stopped
    any number of times), the wait of Run does not return, because nothing ever takes back what Start added to the
    wait group. *)
Theorem driver_wait_never_returns `{!Env} endpoint w s w' :
  rtc server_step (runStart endpoint, w) (s, w') → ¬ WaitReturns s.
Proof.
  intros Hs%server_steps_wg. unfold WaitReturns. cbn in Hs. congruence.
Qed.

(** The interceptor is transparent, and secrets stay out of the log below verbosity five: it returns what the handler returns and
    changes what the handler changes; the lines it writes are the name of the method and the error, if any, and
    depend on nothing else of the request and the reply. *)
Theorem interceptor_transparent `{!Env} {Req Resp} (pr : printers Req Resp) verbosity fullMethod handler req w :
  let '(o, w', lines) := logGRPC pr verbosity fullMethod handler req w in
  (o, w') = handler req w ∧
  (verbosity < 5 → ∀ l, l ∈ lines →
     l = LogCall fullMethod ∨ ∃ e, o = Fail e ∧ l = LogError (Error e)).
Proof.
  unfold logGRPC. destruct (handler req w) as [o w'].
  assert (∀ pri l, verbosity < 5 →
    l ∈ (if pri <=? verbosity then [LogCall fullMethod] else []) ++
        (if 5 <=? verbosity then [LogRequest (StripRequest pr req)] else []) → l = LogCall fullMethod) as Hbefore.
  { intros pri l Hv. rewrite (proj2 (Z.leb_gt 5 verbosity)) by done. rewrite app_nil_r.
    destruct (pri <=? verbosity); [by intros ->%list_elem_of_singleton|by intros ?%elem_of_nil]. }
  destruct o as [a|e|pn]; (split; [done|]); intros Hv l Hl.
  - apply elem_of_app in Hl as [Hl|Hl]; [left; by eapply Hbefore|].
    rewrite (proj2 (Z.leb_gt 5 verbosity)) in Hl by done. by apply elem_of_nil in Hl.
  - apply elem_of_app in Hl as [Hl|Hl]; [left; by eapply Hbefore|].
    rewrite (proj2 (Z.leb_gt 5 verbosity)), app_nil_r in Hl by done. apply list_elem_of_singleton in Hl as ->. eauto.
  - left. by eapply Hbefore.
Qed.

(** The server of the default endpoint listens and is stopped. *)
Lemma driver_wait_never_returns_witness :
  ∃ s w', server_step (runStart "unix://tmp/csi.sock", World (tree [(["tmp"], NDir)]) [] 0 0) (s, w') ∧ ¬ WaitReturns s.
Proof.
  destruct (serve "unix://tmp/csi.sock" true true true (NonBlocking 1 None []) (World (tree [(["tmp"], NDir)]) [] 0 0))
    as [o w'] eqn:Hs.
  destruct o as [s|e|pn]; [|vm_compute in Hs; discriminate|vm_compute in Hs; discriminate].
  assert (server_step (runStart "unix://tmp/csi.sock", World (tree [(["tmp"], NDir)]) [] 0 0) (s, w')) as Hstep
    by (by apply step_serve).
  exists s, w'. split; [exact Hstep|].
  apply (driver_wait_never_returns "unix://tmp/csi.sock" (World (tree [(["tmp"], NDir)]) [] 0 0) s w').
  apply rtc_once. exact Hstep.
Defined.
