(* ===== verification/Tls.v ===== *)
(** * pkg/hostpath/tls.go and the metrics server of pkg/hostpath/utils.go

    The names a self-signed certificate of the metrics server is made for, and
    the TLS settings the server starts with. Making a certificate is the
    business of the certificate library, a parameter here. *)
From Stdlib Require Import Ascii.
From S2P Require Import Prelude GoStrings GoPath GoErrors Json Metrics Utils.
Open Scope Z_scope.

(** ** [net.ParseIP] *)

(** The 16 bytes of an address; an IPv4 address is mapped into IPv6. *)
Abbreviation IP := (list Z).

Definition dec_digit (c : ascii) : option Z :=
  if is_digit c then Some (Z.of_nat (nat_of_ascii c) - 48) else None.

(** A decimal field of an IPv4 address: no leading zero, at most 255. *)
Definition octet (s : string) : option Z :=
  let fix go (acc : Z) (digs : nat) (s : string) : option Z :=
    match s with
    | "" => if Nat.eqb digs 0 then None else Some acc
    | String c s' =>
        d ← dec_digit c;
        if Nat.eqb digs 1 && (acc =? 0) then None
        else let acc := acc * 10 + d in
             if 255 <? acc then None else go acc (S digs) s'
    end in
  go 0 0%nat s.

Definition parseIPv4Fields (s : string) : option (list Z) :=
  match split_on "."%char s with
  | [a; b; c; d] => a' ← octet a; b' ← octet b; c' ← octet c; d' ← octet d; Some [a'; b'; c'; d']
  | _ => None
  end.

Definition v4InV6Prefix : list Z := [0; 0; 0; 0; 0; 0; 0; 0; 0; 0; 255; 255].

(** The leading hexadecimal digits: their value, how many, and the rest. *)
Fixpoint hex_run (acc : Z) (n : nat) (s : string) : Z * nat * string :=
  match s with
  | String c s' =>
      match hex_digit c with
      | Some d => hex_run (acc * 16 + d) (S n) s'
      | None => (acc, n, s)
      end
  | "" => (acc, n, s)
  end.

(** The groups of an IPv6 address: the bytes read so far and where "::" was.
    Every turn adds two bytes and sixteen end the loop, so eight turns are
    enough. *)
Fixpoint ipv6_groups (fuel : nat) (bytes : list Z) (ellipsis : option nat) (s : string)
    : option (list Z * option nat * string) :=
  match fuel with
  | O => Some (bytes, ellipsis, s)
  | S fuel' =>
      let '(acc, off, rest) := hex_run 0 0 s in
      if Nat.eqb off 0 || Nat.ltb 4 off then None
      else match rest with
      | String "." _ =>
          if bool_decide (ellipsis = None) && negb (Nat.eqb (length bytes) 12) then None
          else if Nat.ltb 16 (length bytes + 4) then None
          else v4 ← parseIPv4Fields s; Some (bytes ++ v4, ellipsis, "")
      | "" => Some (bytes ++ [acc / 256; acc mod 256], ellipsis, "")
      | String ":" "" => None
      | String ":" (String ":" rest') =>
          if bool_decide (ellipsis = None) then
            let bytes := bytes ++ [acc / 256; acc mod 256] in
            match rest' with
            | "" => Some (bytes, Some (length bytes), "")
            | _ => ipv6_groups fuel' bytes (Some (length bytes)) rest'
            end
          else None
      | String ":" rest' => ipv6_groups fuel' (bytes ++ [acc / 256; acc mod 256]) ellipsis rest'
      | _ => None
      end
  end.

Definition parseIPv6 (s : string) : option IP :=
  r ← match s with
      | String ":" (String ":" "") => Some ([], Some 0%nat, "")
      | String ":" (String ":" s') => ipv6_groups 8 [] (Some 0%nat) s'
      | _ => ipv6_groups 8 [] None s
      end;
  let '(bytes, ellipsis, rest) := r in
  if decide (rest ≠ "") then None
  else if Nat.ltb (length bytes) 16 then
    e ← ellipsis;
    Some (take e bytes ++ replicate (16 - length bytes) 0 ++ drop e bytes)
  else match ellipsis with None => Some bytes | Some _ => None end.

(** The first of the characters ".", ":" and "%" decides; zones are refused. *)
Definition ParseIP (s : string) : option IP :=
  let fix kind (t : string) : option ascii :=
    match t with
    | "" => None
    | String c t' =>
        if Ascii.eqb c "."%char || Ascii.eqb c ":"%char || Ascii.eqb c "%"%char then Some c else kind t'
    end in
  match kind s with
  | Some "."%char => app v4InV6Prefix <$> parseIPv4Fields s
  | Some ":"%char => if contains_char "%"%char s then None else parseIPv6 s
  | _ => None
  end.

(** [ip.To4() != nil]. *)
Definition isIPv4 (ip : IP) : bool := bool_decide (take 12 ip = v4InV6Prefix).

Example ParseIP_v4 : ParseIP "10.244.0.5" = Some (v4InV6Prefix ++ [10; 244; 0; 5]).
Proof. reflexivity. Qed.
Example ParseIP_v6 :
  ParseIP "2001:db8::1" = Some [32; 1; 13; 184; 0; 0; 0; 0; 0; 0; 0; 0; 0; 0; 0; 1].
Proof. reflexivity. Qed.
Example ParseIP_bad : ParseIP "10.244.0.256" = None ∧ ParseIP "1.2.3" = None ∧ ParseIP "1:2" = None ∧
  ParseIP "01.2.3.4" = None ∧ ParseIP "fe80::1%eth0" = None ∧ ParseIP "::ffff:1.2.3.4" = ParseIP "1.2.3.4".
Proof. repeat split; reflexivity. Qed.

(** ** The certificate *)

(** What the certificate library and the TLS library make: a key pair, or an
    error. The certificate itself is opaque. *)
Class CertLib := {
  certificate : Type;
  GenerateSelfSignedCertKey : string → list IP → list string → gerror + (string * string);
  X509KeyPair : string → string → gerror + certificate;
}.

(** The environment variables that are read. *)
Record PodEnv := { POD_IP : string; POD_NAMESPACE : string; SERVICE_NAME : string }.

Definition localhostIP : IP := v4InV6Prefix ++ [127; 0; 0; 1].

(** The addresses, and the pod's own address with dashes. *)
Definition certIPs (env : PodEnv) : list IP * string :=
  let ips := [localhostIP] in
  let podIP := POD_IP env in
  if decide (podIP ≠ "") then
    match ParseIP podIP with
    | Some ip =>
        (ips ++ [ip],
         if isIPv4 ip then replace_char "." "-" podIP else replace_char ":" "-" podIP)
    | None => (ips, "")
    end
  else (ips, "").

Definition certDNSNames (env : PodEnv) (ipWithDashes : string) : list string :=
  let ns := POD_NAMESPACE env in
  let svc := SERVICE_NAME env in
  let dnsNames := ["localhost"] in
  let dnsNames :=
    if decide (ipWithDashes ≠ "" ∧ ns ≠ "")
    then dnsNames ++ [ipWithDashes +:+ "." +:+ ns +:+ ".pod.cluster.local"] else dnsNames in
  if decide (svc ≠ "" ∧ ns ≠ "")
  then dnsNames ++ [svc; svc +:+ "." +:+ ns; svc +:+ "." +:+ ns +:+ ".svc";
                    svc +:+ "." +:+ ns +:+ ".svc.cluster.local"]
  else dnsNames.

Section server.
Context `{!CertLib, !XXHash}.

Definition generateSelfSignedCert (env : PodEnv) : gerror + certificate :=
  let '(ips, ipWithDashes) := certIPs env in
  let dnsNames := certDNSNames env ipWithDashes in
  match GenerateSelfSignedCertKey "localhost" ips dnsNames with
  | inl err => inl (WrapError ("failed to generate self-signed certificate: " +:+ Error err) err)
  | inr (cert, key) =>
      match X509KeyPair cert key with
      | inl err => inl (WrapError ("failed to create self-signed key pair: " +:+ Error err) err)
      | inr keyPair => inr keyPair
      end
  end.

(** What the server goroutine is started with: the address, the least TLS
    version, the certificates of the configuration and the two file names that
    are passed to [ListenAndServeTLS]. *)
Record MetricsServer := {
  ms_Addr : string;
  ms_MinVersion : Z;
  ms_Certificates : list certificate;
  ms_certFile : string;
  ms_keyFile : string;
}.

(** The server that is started, [None] when the function returns without
    starting one, and the registries: a failed set-up of the metrics is only
    logged. *)
Definition RunPrometheusServer (st : registries) (env : PodEnv) (metricsAddr certFile keyFile tlsVersion : string)
    : option MetricsServer * registries :=
  let st := (SetupMetrics st).2 in
  let certProvided := bool_decide (certFile ≠ "") in
  let keyProvided := bool_decide (keyFile ≠ "") in
  let minTLSVersion := match getTLSVersion tlsVersion with Some v => v | None => 772 end in
  if certProvided && keyProvided then
    (Some {| ms_Addr := metricsAddr; ms_MinVersion := minTLSVersion; ms_Certificates := [];
             ms_certFile := certFile; ms_keyFile := keyFile |}, st)
  else
    match generateSelfSignedCert env with
    | inl err => (None, st)
    | inr cert =>
        (Some {| ms_Addr := metricsAddr; ms_MinVersion := minTLSVersion; ms_Certificates := [cert];
                 ms_certFile := ""; ms_keyFile := "" |}, st)
    end.
End server.
Arguments MetricsServer {_}.

(** ** Facts *)

Lemma replace_char_gone a b s : a ≠ b → contains_char a (replace_char a b s) = false.
Proof.
  intros Hab. induction s as [|x s IH]; simpl; [done|]. rewrite IH, orb_false_r.
  destruct (Ascii.eqb x a) eqn:Hx; [|done]. by apply Ascii.eqb_neq.
Qed.

Lemma certDNSNames_elem env d name :
  name ∈ certDNSNames env d ↔
    name = "localhost" ∨
    (POD_NAMESPACE env ≠ "" ∧
      ((d ≠ "" ∧ name = d +:+ "." +:+ POD_NAMESPACE env +:+ ".pod.cluster.local") ∨
       (SERVICE_NAME env ≠ "" ∧
         (name = SERVICE_NAME env ∨ name = SERVICE_NAME env +:+ "." +:+ POD_NAMESPACE env ∨
          name = SERVICE_NAME env +:+ "." +:+ POD_NAMESPACE env +:+ ".svc" ∨
          name = SERVICE_NAME env +:+ "." +:+ POD_NAMESPACE env +:+ ".svc.cluster.local")))).
Proof.
  unfold certDNSNames. repeat case_decide; rewrite ?elem_of_app, ?elem_of_cons, ?elem_of_nil; intuition.
Qed.

Lemma certIPs_elem env ip :
  ip ∈ (certIPs env).1 ↔ ip = localhostIP ∨ ParseIP (POD_IP env) = Some ip.
Proof.
  unfold certIPs. case_decide as Hp.
  - destruct (ParseIP (POD_IP env)) as [ip'|]; simpl; rewrite ?elem_of_cons, ?elem_of_nil; naive_solver.
  - destruct (decide (POD_IP env = "")) as [->|]; [|done]. simpl. rewrite list_elem_of_singleton. naive_solver.
Qed.

(** The dashed form of an IPv4 address is one label of a domain name. *)
Lemma certIPs_dashes env ip :
  ParseIP (POD_IP env) = Some ip → isIPv4 ip = true →
  (certIPs env).2 ≠ "" ∧ contains_char "."%char (certIPs env).2 = false.
Proof.
  intros Hip Hv4. assert (POD_IP env ≠ "") as Hne by (by intros He; rewrite He in Hip).
  unfold certIPs. rewrite decide_True, Hip, Hv4 by done. cbn [snd].
  split; [by destruct (POD_IP env)|by apply replace_char_gone].
Qed.

Lemma getTLSVersion_bounds name v : getTLSVersion name = Some v → 769 ≤ v ≤ 772.
Proof. unfold getTLSVersion. repeat case_decide; intros; simplify_eq; lia. Qed.

Lemma generateSelfSignedCert_inv `{!CertLib} env c :
  generateSelfSignedCert env = inr c →
  ∃ cert key, GenerateSelfSignedCertKey "localhost" (certIPs env).1 (certDNSNames env (certIPs env).2) =
    inr (cert, key) ∧ X509KeyPair cert key = inr c.
Proof.
  unfold generateSelfSignedCert. destruct (certIPs env) as [ips d]. cbn [fst snd].
  destruct (GenerateSelfSignedCertKey _ _ _) as [err|[cert key]]; [done|].
  destruct (X509KeyPair cert key) as [err|c'] eqn:Hx; [done|]. intros [= ->]. by exists cert, key.
Qed.

Lemma RunPrometheusServer_registries `{!CertLib, !XXHash} st env addr certFile keyFile tlsVersion :
  (RunPrometheusServer st env addr certFile keyFile tlsVersion).2 = (SetupMetrics st).2.
Proof. unfold RunPrometheusServer. repeat case_match; done. Qed.

(** The metrics server never speaks a TLS version below the one asked for, which is TLS 1.3
    when the name is not known; it serves the files it was given exactly when both were given, and
    otherwise one self-signed certificate, made for localhost, the pod's address when there is
    one, and the pod and service names when the namespace is known; it does not start without a certificate. *)
Theorem metrics_server_tls `{!CertLib, !XXHash} st env addr certFile keyFile tlsVersion :
  match (RunPrometheusServer st env addr certFile keyFile tlsVersion).1 with
  | Some s =>
      769 ≤ ms_MinVersion s ≤ 772 ∧
      (getTLSVersion tlsVersion = None → ms_MinVersion s = 772) ∧
      (∀ v, getTLSVersion tlsVersion = Some v → ms_MinVersion s = v) ∧
      ((certFile ≠ "" ∧ keyFile ≠ "" ∧ ms_certFile s = certFile ∧ ms_keyFile s = keyFile ∧ ms_Certificates s = []) ∨
       ((certFile = "" ∨ keyFile = "") ∧ ms_certFile s = "" ∧ ms_keyFile s = "" ∧
        ∃ cert key ips names c, ms_Certificates s = [c] ∧
          GenerateSelfSignedCertKey "localhost" ips names = inr (cert, key) ∧ X509KeyPair cert key = inr c ∧
          (∀ ip, ip ∈ ips ↔ ip = localhostIP ∨ ParseIP (POD_IP env) = Some ip) ∧
          "localhost" ∈ names ∧
          (SERVICE_NAME env ≠ "" → POD_NAMESPACE env ≠ "" →
             SERVICE_NAME env +:+ "." +:+ POD_NAMESPACE env +:+ ".svc" ∈ names) ∧
          (∀ ip, ParseIP (POD_IP env) = Some ip → isIPv4 ip = true → POD_NAMESPACE env ≠ "" →
             ∃ d, contains_char "."%char d = false ∧ d +:+ "." +:+ POD_NAMESPACE env +:+ ".pod.cluster.local" ∈ names)))
  | None => (certFile = "" ∨ keyFile = "") ∧ ∃ err, generateSelfSignedCert env = inl err
  end.
Proof.
  assert (∀ v, v = match getTLSVersion tlsVersion with Some v => v | None => 772 end →
    769 ≤ v ≤ 772 ∧ (getTLSVersion tlsVersion = None → v = 772) ∧
    (∀ v', getTLSVersion tlsVersion = Some v' → v = v')) as Hver.
  { intros v ->. pose proof (getTLSVersion_bounds tlsVersion) as Hb.
    destruct (getTLSVersion tlsVersion) as [v'|]; [|naive_solver lia]. specialize (Hb v' eq_refl). naive_solver. }
  specialize (Hver _ eq_refl). unfold RunPrometheusServer.
  destruct (decide (certFile ≠ "" ∧ keyFile ≠ "")) as [[Hc Hk]|Hno].
  { rewrite !bool_decide_true by done. cbn. destruct Hver as (?&?&?). split_and!; try done; [lia..|]. by left. }
  assert (certFile = "" ∨ keyFile = "") as Hnone.
  { destruct (decide (certFile = "")); [by left|]. destruct (decide (keyFile = "")); [by right|]. by destruct Hno. }
  assert (bool_decide (certFile ≠ "") && bool_decide (keyFile ≠ "") = false) as ->.
  { apply andb_false_iff. rewrite !bool_decide_eq_false. naive_solver. }
  destruct (generateSelfSignedCert env) as [err|c] eqn:Hgen; [split; [done|by exists err]|].
  destruct Hver as (?&?&?). cbn. split_and!; try done; [lia..|]. right. split_and!; try done.
  destruct (generateSelfSignedCert_inv env c Hgen) as (cert&key&Hg&Hx).
  exists cert, key. do 2 eexists. exists c. split_and!; [done|exact Hg|done|apply certIPs_elem| | |].
  - apply certDNSNames_elem. by left.
  - intros Hs Hns. apply certDNSNames_elem. naive_solver.
  - intros ip Hip Hv4 Hns. destruct (certIPs_dashes env ip Hip Hv4) as [Hd Hdot].
    eexists. split; [exact Hdot|]. apply certDNSNames_elem. naive_solver.
Qed.
