(* ===== verification/NodeFacts.v ===== *)
(** * Facts about publishing and unpublishing *)
From S2P Require Import Prelude GoStrings GoPath GoErrors OS OSFacts Mount MountFacts Csi Utils.
From S2P Require Import Health Reflink ReflinkFacts ControllerServer ControllerFacts NodeServer.
Open Scope Z_scope.

(** The node service on the Linux mounter. *)
Definition linuxNode `{!Env} (config : Config) : hostPathNode := NewHostPathNode config linuxMounter.

(** ** Requests *)

(** The pool directory that holds the volume of a request. *)
Definition sourcePool (config : Config) (req : NodePublishVolumeRequest) : string :=
  let p := Path (getPool config (getStoragePoolNameFromMap (np_VolumeContext req))) in
  if isEphemeralVolumeRequest req && (len p =? 0)
  then Path (getPool config (DefaultStoragePoolName config)) else p.

(** A request that passes validation, for a target in a rooted directory and a
    volume in an existing pool directory. *)
Record publishable (config : Config) (req : NodePublishVolumeRequest) (base name : string) (fs : fstree)
    : Prop := {
  pb_valid : validateNodePublishRequest (Some req) = None;
  pb_target : goodTarget (np_TargetPath req) base name;
  pb_plain : backslash_free (np_TargetPath req);
  pb_id : valid_name (np_VolumeId req);
  pb_wf : wf_fs fs;
  pb_base : fs !! resolve base = Some NDir;
  pb_pool : fs !! resolve (sourcePool config req) = Some NDir;
}.

(** The directory of the volume. *)
Definition volumeDir (config : Config) (req : NodePublishVolumeRequest) : GoPath.path :=
  resolve (sourcePool config req) ++ [np_VolumeId req].

(** The entry that publishing adds to the mount table. *)
Definition bindMount (config : Config) (req : NodePublishVolumeRequest) : MountPoint :=
  {| mp_Device := Join [sourcePool config req; np_VolumeId req];
     mp_Path := pstr (resolve (np_TargetPath req));
     mp_Type := default "" (fst <$> (np_VolumeCapability req ≫= GetMount));
     mp_Opts := ["bind"; "remount"] ++ (if np_Readonly req then ["ro"] else []) |}.

Lemma bindMount_path config req base name :
  goodTarget (np_TargetPath req) base name →
  resolve (mp_Path (bindMount config req)) = resolve (np_TargetPath req).
Proof. intros Ht. simpl. apply resolve_rooted_names, resolve_valid. Qed.

Lemma ensure_dir_nofile p fs : (∀ c, fs !! p ≠ Some (NFile c)) → ensure_dir p fs !! p = Some NDir.
Proof.
  intros Hf. unfold ensure_dir.
  destruct (fs !! p) as [[|c]|] eqn:He; [done|by destruct (Hf c)|by rewrite lookup_insert_eq].
Qed.

Section publish.
Context `{!Env} (Hnf : no_faults) (config : Config).

Lemma Mkdir_new target base name w :
  goodTarget target base name → w_fs w !! resolve base = Some NDir → w_fs w !! resolve target = None →
  os_Mkdir target w = (Ret tt, tickw (set_fs (<[resolve target := NDir]> (w_fs w)) w)).
Proof.
  intros Ht Hb Hn. unfold os_Mkdir. erewrite run_bind_ret by reflexivity.
  rewrite decide_False by by eapply goodTarget_nonempty. rewrite Hn.
  rewrite (goodTarget_resolve _ _ _ Ht), removelast_last, Hb. by apply mkdir_at_ok.
Qed.

(** The target is made when it is missing, and can be mounted on unless it is. *)
Lemma canMountVolume_run target base name w :
  goodTarget target base name → canonical (w_mounts w) → legible target (w_mounts w) → wf_fs (w_fs w) →
  w_fs w !! resolve base = Some NDir → (∀ c, w_fs w !! resolve target ≠ Some (NFile c)) →
  ∃ w', canMountVolume (linuxNode config) target w =
      (Ret (if decide (w_fs w !! resolve target = None) then true
            else negb (mounted (resolve target) (w_mounts w))), w') ∧
    w_fs w' = ensure_dir (resolve target) (w_fs w) ∧ w_mounts w' = w_mounts w.
Proof.
  intros Ht Hc Hleg Hwf Hb Hfile. unfold canMountVolume, ensure_dir.
  destruct (w_fs w !! resolve target) as [[|c]|] eqn:Hd; [|by destruct (Hfile c)|].
  - destruct (IsNotMountPoint_found Hnf target base name w) as (w'&Hrun&Hq); [done..|].
    erewrite run_bind_ret by (apply run_try_ret; exact Hrun). rewrite decide_False by done.
    exists w'. split; [done|]. destruct Hq as (?&?&_). done.
  - erewrite run_bind_ret by (apply run_try_fail; by eapply IsNotMountPoint_missing). simpl.
    erewrite run_bind_ret by (apply run_wrapErr_ret; by eapply Mkdir_new).
    eexists. split; [reflexivity|]. done.
Qed.

Lemma sourcePool_path req :
  (if isEphemeralVolumeRequest req
   then getEphemeralVolumePath (linuxNode config) (getStoragePoolNameFromMap (np_VolumeContext req)) (np_VolumeId req)
   else Join [Path (getPool config (getStoragePoolNameFromMap (np_VolumeContext req))); np_VolumeId req])
  = Join [sourcePool config req; np_VolumeId req].
Proof.
  unfold sourcePool, getEphemeralVolumePath. simpl. by destruct (isEphemeralVolumeRequest req).
Qed.

Lemma volumeSource_run req w :
  valid_name (np_VolumeId req) → wf_fs (w_fs w) → w_fs w !! resolve (sourcePool config req) = Some NDir →
  (isEphemeralVolumeRequest req = true → ∀ c, w_fs w !! volumeDir config req ≠ Some (NFile c)) →
  ∃ w', volumeSource (linuxNode config) req w = (Ret (Join [sourcePool config req; np_VolumeId req]), w') ∧
    w_fs w' = (if isEphemeralVolumeRequest req then ensure_dir (volumeDir config req) (w_fs w) else w_fs w) ∧
    w_mounts w' = w_mounts w.
Proof.
  intros Hid Hwf Hp Hfile. unfold volumeSource. pose proof (sourcePool_path req) as Hsp.
  destruct (isEphemeralVolumeRequest req); [|exists w; by rewrite <-Hsp].
  rewrite Hsp. unfold createVolumeDirectoryFunc. rewrite Dir_Join by done.
  assert (resolve (Join [Clean (sourcePool config req); np_VolumeId req]) = volumeDir config req) as Hres.
  { unfold volumeDir. by rewrite resolve_Join, resolve_Clean. }
  unfold ensure_dir. destruct (w_fs w !! volumeDir config req) as [[|c]|] eqn:Hd; [|by destruct (Hfile eq_refl c)|].
  - erewrite run_bind_ret by (apply run_wrapErr_ret, MkdirAll_existing; [done|by apply Join_nonempty|by rewrite Hres]).
    by exists w.
  - erewrite run_bind_ret.
    2: { apply run_wrapErr_ret. erewrite MkdirAll_new; [by apply mkdir_at_ok|done|by apply Join_nonempty|exact Hres|done|done]. }
    eexists. split; [reflexivity|]. done.
Qed.

(** The tree after the directories of a request are in place. *)
Definition prepared (req : NodePublishVolumeRequest) (fs : fstree) : fstree :=
  let fs1 := ensure_dir (resolve (np_TargetPath req)) fs in
  if isEphemeralVolumeRequest req then ensure_dir (volumeDir config req) fs1 else fs1.

Lemma NodePublish_run req w :
  validateNodePublishRequest (Some req) = None →
  NodePublishVolume (linuxNode config) (Some req) w =
    bind (canMountVolume (linuxNode config) (np_TargetPath req)) (λ canMnt : bool,
      if negb canMnt then ret tt else mountVolume (linuxNode config) (np_TargetPath req) req) w.
Proof. intros Hv. unfold NodePublishVolume. by rewrite Hv. Qed.

Lemma NodePublish_ok req base name w :
  publishable config req base name (w_fs w) → canonical (w_mounts w) →
  mounted (resolve (np_TargetPath req)) (w_mounts w) = false →
  (∀ c, w_fs w !! resolve (np_TargetPath req) ≠ Some (NFile c)) →
  resolve (np_TargetPath req) ≠ volumeDir config req →
  (if isEphemeralVolumeRequest req then ∀ c, w_fs w !! volumeDir config req ≠ Some (NFile c)
   else w_fs w !! volumeDir config req = Some NDir) →
  ∃ w', NodePublishVolume (linuxNode config) (Some req) w = (Ret tt, w') ∧
    w_fs w' = prepared req (w_fs w) ∧ w_mounts w' = bindMount config req :: w_mounts w.
Proof.
  intros [Hv Ht Hpl Hid Hwf Hb Hp] Hc Hm Hfile Hne Hvol. rewrite NodePublish_run by done.
  destruct (canMountVolume_run (np_TargetPath req) base name w) as (w1&Hcan&Hfs1&Hm1); [done|done|by right|done..|].
  run_ret Hcan. rewrite Hm. replace (if decide _ then true else negb false) with true by by case_decide.
  simpl. unfold mountVolume.
  pose proof (goodTarget_resolve _ _ _ Ht) as Hres.
  assert (wf_fs (w_fs w1)) as Hwf1 by (rewrite Hfs1, Hres; by apply wf_ensure_dir, Ht).
  assert (w_fs w1 !! volumeDir config req = w_fs w !! volumeDir config req) as Hv1.
  { rewrite Hfs1. unfold ensure_dir. destruct (w_fs w !! resolve (np_TargetPath req)); [done|].
    by rewrite lookup_insert_ne. }
  destruct (volumeSource_run req w1) as (w2&Hsrc&Hfs2&Hm2); [done|done| | |].
  { rewrite Hfs1. by apply lookup_ensure_dir_old. }
  { intros He. rewrite He in Hvol. by rewrite Hv1. }
  run_ret Hsrc.
  assert (w_fs w2 !! volumeDir config req = Some NDir) as Hx.
  { rewrite Hfs2. destruct (isEphemeralVolumeRequest req); [|by rewrite Hv1, Hvol].
    apply ensure_dir_nofile. by rewrite Hv1. }
  assert (w_fs w2 !! resolve (np_TargetPath req) = Some NDir) as Hy.
  { pose proof (ensure_dir_nofile _ _ Hfile) as Hy. rewrite <-Hfs1 in Hy.
    rewrite Hfs2. destruct (isEphemeralVolumeRequest req); [by apply lookup_ensure_dir_old|done]. }
  erewrite run_bind_ret.
  2: { apply run_try_ret. apply (MountLinux_ok Hnf _ _ _ (np_Readonly req) w2); [|done].
       by rewrite resolve_Join. }
  eexists. split; [reflexivity|]. simpl. unfold prepared. rewrite Hfs2, Hfs1, Hm2, Hm1. done.
Qed.

Lemma prepared_old req fs k x : fs !! k = Some x → prepared req fs !! k = Some x.
Proof.
  intros Hk. unfold prepared.
  destruct (isEphemeralVolumeRequest req); repeat apply lookup_ensure_dir_old; done.
Qed.

Lemma prepared_target req fs :
  (∀ c, fs !! resolve (np_TargetPath req) ≠ Some (NFile c)) →
  prepared req fs !! resolve (np_TargetPath req) = Some NDir.
Proof.
  intros Hf. pose proof (ensure_dir_nofile _ _ Hf) as Ht.
  unfold prepared. destruct (isEphemeralVolumeRequest req); [by apply lookup_ensure_dir_old|done].
Qed.

Lemma wf_prepared req base name fs : publishable config req base name fs → wf_fs (prepared req fs).
Proof.
  intros [_ Ht _ Hid Hwf Hb Hp]. unfold prepared.
  assert (wf_fs (ensure_dir (resolve (np_TargetPath req)) fs)) as Hwf1.
  { rewrite (goodTarget_resolve _ _ _ Ht). by apply wf_ensure_dir, Ht. }
  destruct (isEphemeralVolumeRequest req); [|done].
  apply wf_ensure_dir; [done|by apply lookup_ensure_dir_old|done].
Qed.

Lemma publishable_prepared req base name w w1 :
  publishable config req base name (w_fs w) → w_fs w1 = prepared req (w_fs w) →
  publishable config req base name (w_fs w1).
Proof.
  intros Hp Hfs. pose proof (wf_prepared _ _ _ _ Hp). destruct Hp as [Hv Ht Hpl Hid Hwf Hb Hpool].
  rewrite Hfs. split; try done; by apply prepared_old.
Qed.

(** A target that is mounted already. *)
Lemma NodePublish_mounted req base name w :
  publishable config req base name (w_fs w) → canonical (w_mounts w) → unescaped (np_TargetPath req) →
  mounted (resolve (np_TargetPath req)) (w_mounts w) = true →
  w_fs w !! resolve (np_TargetPath req) = Some NDir →
  ∃ w', NodePublishVolume (linuxNode config) (Some req) w = (Ret tt, w') ∧
    w_fs w' = w_fs w ∧ w_mounts w' = w_mounts w.
Proof.
  intros [Hv Ht Hpl Hid Hwf Hb Hp] Hc Hu Hm Hd. rewrite NodePublish_run by done.
  destruct (canMountVolume_run (np_TargetPath req) base name w) as (w1&Hcan&Hfs1&Hm1);
    [done|done|by left|done..|by rewrite Hd|].
  run_ret Hcan. rewrite decide_False, Hm by by rewrite Hd. exists w1. split; [done|].
  unfold ensure_dir in Hfs1. by rewrite Hd in Hfs1.
Qed.
End publish.

(** ** Unpublishing *)

Section unpublish.
Context `{!Env} (config : Config).

Lemma NodeUnpublish_run req w :
  validateNodeUnpublishRequest (Some req) = None →
  NodeUnpublishVolume (linuxNode config) (Some req) w =
    (unmountTarget (linuxNode config) (nu_TargetPath req) >>
     wrapErr (λ err, WrapError ("remove target path: " +:+ Error err) err) (os_RemoveAll (nu_TargetPath req)) >>
     if isEphemeralVolumeId (nu_VolumeId req) then
       wrapErr (λ err, ErrorString ("failed to delete ephemeral volume: " +:+ nu_VolumeId req +:+ ", "
                                    +:+ Error err))
         (removeEphemeralPath (linuxNode config) (nu_VolumeId req))
     else ret tt) w.
Proof. intros Hv. unfold NodeUnpublishVolume. by rewrite Hv. Qed.

(** Without faults: the newest mount at the target goes. *)
Lemma unmountTarget_mounted target base name m ms w :
  no_faults → goodTarget target base name → canonical (w_mounts w) → unescaped target → wf_fs (w_fs w) →
  w_fs w !! resolve target = Some NDir → w_mounts w = m :: ms → resolve (mp_Path m) = resolve target →
  ∃ w', unmountTarget (linuxNode config) target w = (Ret tt, w') ∧ w_fs w' = w_fs w ∧ w_mounts w' = ms.
Proof.
  intros Hnf Ht Hc Hu Hwf Hd Hms Hm. unfold unmountTarget.
  destruct (IsNotMountPoint_found Hnf target base name w) as (w1&Hrun&(Hfs&Hm1&_)); [done|done|by left|done..|].
  erewrite run_bind_ret by (apply run_try_ret; exact Hrun).
  assert (mounted (resolve target) (w_mounts w) = true) as ->.
  { apply mounted_true. exists m. rewrite Hms. split; [left|done]. }
  simpl. erewrite run_wrapErr_ret. 2: { apply UnmountLinux_top with (m := m) (ms := ms); [done|by rewrite Hm1|done]. }
  eexists. split; [reflexivity|]. done.
Qed.

Lemma unmountTarget_missing target base name w :
  no_faults → goodTarget target base name → wf_fs (w_fs w) → w_fs w !! resolve base = Some NDir →
  w_fs w !! resolve target = None →
  unmountTarget (linuxNode config) target w = (Ret tt, tickw w).
Proof.
  intros Hnf Ht Hwf Hb Hn. unfold unmountTarget.
  by erewrite run_bind_ret by (apply run_try_fail; by eapply IsNotMountPoint_missing).
Qed.

Lemma RemoveAll_target target base name w :
  no_faults → goodTarget target base name → w_fs w !! resolve target = Some NDir →
  mounts_below (resolve target) (w_mounts w) = [] →
  os_RemoveAll target w = (Ret tt, tickw (set_fs (rm_tree (resolve target) (w_fs w)) w)).
Proof.
  intros Hnf Ht Hd Hm. eapply RemoveAll_found; [done|by eapply goodTarget_nonempty| | |done|done].
  - destruct Ht as [-> _ Hn]. by apply endsWithDot_Join.
  - rewrite (goodTarget_resolve _ _ _ Ht). apply snoc_not_nil.
Qed.
End unpublish.

(** ** Safety of unpublishing *)

Lemma not_mounted_below p ms : mounts_below p ms = [] → mounted p ms = false.
Proof.
  intros Hn. apply not_true_is_false. intros (mp&Hin&Heq)%mounted_true.
  rewrite mounts_below_nil in Hn. apply (Hn mp Hin). by rewrite Heq.
Qed.

Lemma validateUnpublish_ok id target :
  valid_name id → target ≠ "" →
  validateNodeUnpublishRequest (Some {| nu_VolumeId := id; nu_TargetPath := target |}) = None.
Proof.
  intros Hid Ht. unfold validateNodeUnpublishRequest. simpl.
  destruct (Z.eqb_spec (len id) 0) as [->%len_0|]; [by destruct Hid|].
  by destruct (Z.eqb_spec (len target) 0) as [->%len_0|].
Qed.

(** Taking away the only mount at or below a path. *)
Lemma alter_top_only p m ms :
  mounts_below p ms = [m] → resolve (mp_Path m) = p →
  ∃ ms', alter_top p (λ _, None) ms = Some ms' ∧ mounts_below p ms' = [].
Proof.
  unfold mounts_below. induction ms as [|x ms IH]; [done|]. rewrite filter_cons. intros Hf Hm.
  case_decide as Hx; simpl.
  - injection Hf as -> Hnil. rewrite decide_True by done. by exists ms.
  - rewrite decide_False by (intros He; apply Hx; by rewrite He).
    destruct (IH Hf Hm) as (ms'&->&Hnil). exists (x :: ms'). split; [done|].
    by rewrite filter_cons_False.
Qed.

Section safety.
Context `{!Env} (config : Config).

Lemma same_tree_unmountTarget target : respects same_tree (unmountTarget (linuxNode config) target).
Proof. unfold unmountTarget. simpl. respects_tac. Qed.

(** A path that is missing stays so, and removing it touches nothing else. *)
Lemma RemoveAll_missing_frame s w k :
  w_fs w !! resolve s = None → ¬ resolve s `prefix_of` k →
  w_fs (os_RemoveAll s w).2 !! k = w_fs w !! k.
Proof.
  intros Hn Hk. unfold os_RemoveAll. case_decide; [done|]. destruct (endsWithDot s); [done|].
  destruct (fault _ _ _).
  - simpl. by destruct (rm_partial_sub (w_tick w) (w_fs w) (resolve s) k) as [?|[? _]].
  - rewrite Hn. by case_match.
Qed.

Context (Hhonest : ∀ n k s, fault n k s ≠ Some ENOENT).

Lemma Stat_NotExist s w e w' :
  s ≠ "" → os_Stat s w = (Fail e, w') → os_IsNotExist e = true → w_fs w !! resolve s = None.
Proof.
  intros Hs. unfold os_Stat, reads, stat_result. pose proof (Hhonest (w_tick w) SysStat s) as Hh.
  destruct (fault _ _ _) as [en|].
  - intros [= <- _]. simpl. intros ->%bool_decide_eq_true. by destruct Hh.
  - rewrite decide_False by done. by destruct (w_fs w !! resolve s).
Qed.

Lemma EvalSymlinks_NotExist s w e w' :
  s ≠ "" → filepath_EvalSymlinks s w = (Fail e, w') → os_IsNotExist e = true → w_fs w !! resolve s = None.
Proof.
  intros Hs. unfold filepath_EvalSymlinks, reads, stat_result. pose proof (Hhonest (w_tick w) SysStat s) as Hh.
  destruct (fault _ _ _) as [en|].
  - intros [= <- _]. simpl. intros ->%bool_decide_eq_true. by destruct Hh.
  - rewrite decide_False by done. by destruct (w_fs w !! resolve s).
Qed.

Lemma ListLinux_NotExist w e w' : ListLinux w = (Fail e, w') → os_IsNotExist e = false.
Proof.
  unfold ListLinux, reads. pose proof (Hhonest (w_tick w) SysListMounts "/proc/mounts") as Hh.
  destruct (fault _ _ _) as [en|]; [|done]. intros [= <- _]. apply bool_decide_eq_false. by intros ->.
Qed.

(** A target that is said not to exist is missing: the quick check. *)
Lemma IsLikely_NotExist target base name w e w' :
  goodTarget target base name → wf_fs (w_fs w) →
  IsLikelyNotMountPointLinux target w = (Fail e, w') → os_IsNotExist e = true →
  w_fs w !! resolve target = None.
Proof.
  intros Ht Hwf Hrun He. assert (target ≠ "") as Hne by by eapply goodTarget_nonempty.
  destruct (goodTarget_parent _ _ _ Ht) as [Hpar Hpne]. unfold IsLikelyNotMountPointLinux in Hrun.
  apply bind_fail_inv in Hrun as [Hrun|(x1&w1&H1&Hrun)]; [by eapply Stat_NotExist|].
  apply bind_fail_inv in Hrun as [Hrun|(x2&w2&H2&Hrun)]; [|done].
  apply (quiet_run_fs _ _ _ _ (respects_Stat quiet _)) in H1 as (Hfs&_&_).
  apply Stat_NotExist in Hrun; [|done..]. rewrite Hfs, Hpar in Hrun.
  rewrite (goodTarget_resolve _ _ _ Ht).
  destruct (w_fs w !! (resolve base ++ [name])) as [x|] eqn:Hx; [|done].
  apply (wf_parent _ Hwf) in Hx as [? _]. congruence.
Qed.

Lemma IsNotMountPoint_NotExist target base name w e w' :
  goodTarget target base name → wf_fs (w_fs w) →
  IsNotMountPoint linuxMounter target w = (Fail e, w') → os_IsNotExist e = true →
  w_fs w !! resolve target = None.
Proof.
  intros Ht Hwf Hrun He. assert (target ≠ "") as Hne by by eapply goodTarget_nonempty.
  unfold IsNotMountPoint in Hrun. simpl in Hrun.
  apply bind_fail_inv in Hrun as [Hrun|(quick&w1&Hq&Hrun)].
  { unfold try in Hrun. by destruct (IsLikelyNotMountPointLinux target w) as [[| |] ?]. }
  assert (w_fs w1 = w_fs w) as Hfs1.
  { apply (quiet_run_fs _ _ _ _ (respects_try quiet _ (respects_IsLikely quiet _))) in Hq. apply Hq. }
  apply bind_fail_inv in Hrun as [Hrun|(nm&w2&Hn&Hrun)].
  - destruct quick as [b|err]; [done|]. destruct (os_IsPermission err); [done|]. injection Hrun as -> <-.
    unfold try in Hq. destruct (IsLikelyNotMountPointLinux target w) as [[| |] ?] eqn:Hl; simplify_eq.
    by eapply IsLikely_NotExist.
  - assert (w2 = w1) as ->.
    { destruct quick as [b|err]; [by injection Hn as _ <-|].
      destruct (os_IsPermission err); [|done]. by injection Hn as _ <-. }
    destruct nm; [|done]. simpl in Hrun. rewrite <-Hfs1.
    apply bind_fail_inv in Hrun as [Hrun|(rf&w3&_&Hrun)]; [by eapply EvalSymlinks_NotExist|].
    apply bind_fail_inv in Hrun as [Hrun|(mps&w4&_&Hrun)]; [|done].
    apply ListLinux_NotExist in Hrun. congruence.
Qed.

(** After a successful unmount step the target is missing or free of mounts. *)
Lemma unmountTarget_safe target base name w w1 :
  goodTarget target base name → wf_fs (w_fs w) → canonical (w_mounts w) → legible target (w_mounts w) →
  (mounts_below (resolve target) (w_mounts w) = [] ∨
   ∃ m, mounts_below (resolve target) (w_mounts w) = [m] ∧ resolve (mp_Path m) = resolve target) →
  unmountTarget (linuxNode config) target w = (Ret tt, w1) →
  w_fs w !! resolve target = None ∨ mounts_below (resolve target) (w_mounts w1) = [].
Proof.
  intros Ht Hwf Hc Hleg Hone Hrun. unfold unmountTarget in Hrun. bind_inv Hrun r w2 Hr. unfold try in Hr. simpl in Hr.
  destruct (IsNotMountPoint linuxMounter target w) as [[b|e|p] w3] eqn:Hm; simplify_eq.
  - destruct (IsNotMountPoint_ret target base name w b w2) as [-> (Hfs&Hms&_)]; [done..|]. right.
    destruct (mounted (resolve target) (w_mounts w)) eqn:Hmt; simpl in Hrun.
    + apply wrapErr_ret_inv in Hrun. unfold UnmountLinux in Hrun.
      destruct (fault _ _ _); [done|]. rewrite Hms in Hrun.
      destruct Hone as [Hnil|(m&Hm1&Hp)]; [by rewrite not_mounted_below in Hmt|].
      destruct (alter_top_only _ _ _ Hm1 Hp) as (ms'&Halt&Hnil). rewrite Halt in Hrun.
      by injection Hrun as <-.
    + injection Hrun as <-. rewrite Hms. destruct Hone as [?|(m&Hm1&Hp)]; [done|]. exfalso.
      assert (mounted (resolve target) (w_mounts w) = true); [|congruence].
      apply mounted_true. exists m. split; [|done].
      assert (m ∈ mounts_below (resolve target) (w_mounts w)) as Hin by (rewrite Hm1; left).
      by apply list_elem_of_filter in Hin as [_ ?].
  - left. destruct (os_IsNotExist e) eqn:He; [|done]. by eapply IsNotMountPoint_NotExist.
Qed.
End safety.

(** ** Two mounts on one target *)

Lemma bindMount_device config req :
  valid_name (np_VolumeId req) → resolve (mp_Device (bindMount config req)) = volumeDir config req.
Proof. intros Hid. simpl. by apply resolve_Join. Qed.

Lemma bindMount_writable config req : np_Readonly req = false → ¬ readonly (bindMount config req).
Proof. intros Hro. unfold readonly. simpl. rewrite Hro. set_solver. Qed.

Section stacked.
Context `{!Env} (Hnf : no_faults) (config : Config).

Lemma mountVolume_ok req w :
  isEphemeralVolumeRequest req = false → valid_name (np_VolumeId req) → wf_fs (w_fs w) →
  w_fs w !! volumeDir config req = Some NDir → w_fs w !! resolve (np_TargetPath req) = Some NDir →
  ∃ w', mountVolume (linuxNode config) (np_TargetPath req) req w = (Ret tt, w') ∧
    w_fs w' = w_fs w ∧ w_mounts w' = bindMount config req :: w_mounts w.
Proof.
  intros He Hid Hwf Hv Ht. unfold mountVolume.
  destruct (volumeSource_run Hnf config req w) as (w1&Hsrc&Hfs&Hms); [done|done| |by rewrite He|].
  { unfold volumeDir in Hv. by apply (wf_parent _ Hwf) in Hv as [? _]. }
  rewrite He in Hfs. run_ret Hsrc. erewrite run_bind_ret.
  2: { apply run_try_ret. apply (MountLinux_ok Hnf _ _ _ (np_Readonly req) w1); [|by rewrite Hfs].
       by rewrite resolve_Join, Hfs by done. }
  eexists. split; [reflexivity|]. simpl. by rewrite Hfs, Hms.
Qed.

Lemma concurrent_publish_steps req base name w :
  publishable config req base name (w_fs w) → canonical (w_mounts w) →
  isEphemeralVolumeRequest req = false → w_fs w !! resolve (np_TargetPath req) = None →
  mounts_below (resolve (np_TargetPath req)) (w_mounts w) = [] →
  w_fs w !! volumeDir config req = Some NDir →
  ∃ w1 w2 w3 w4, canMountVolume (linuxNode config) (np_TargetPath req) w = (Ret true, w1) ∧
    canMountVolume (linuxNode config) (np_TargetPath req) w1 = (Ret true, w2) ∧
    mountVolume (linuxNode config) (np_TargetPath req) req w2 = (Ret tt, w3) ∧
    mountVolume (linuxNode config) (np_TargetPath req) req w3 = (Ret tt, w4) ∧
    w_fs w4 = ensure_dir (resolve (np_TargetPath req)) (w_fs w) ∧
    w_mounts w4 = bindMount config req :: bindMount config req :: w_mounts w.
Proof.
  intros [Hv Ht Hpl Hid Hwf Hb Hp] Hc He Hnew Hbelow Hvol.
  destruct (canMountVolume_run Hnf config (np_TargetPath req) base name w) as (w1&Hcan1&Hfs1&Hms1);
    [done|done|right; split; [done|by apply not_mounted_below]|done..|by rewrite Hnew|].
  rewrite decide_True in Hcan1 by done.
  assert (w_fs w1 !! resolve (np_TargetPath req) = Some NDir) as Ht1.
  { rewrite Hfs1. unfold ensure_dir. by rewrite Hnew, lookup_insert_eq. }
  assert (w_fs w1 !! volumeDir config req = Some NDir) as Hv1 by (rewrite Hfs1; by apply lookup_ensure_dir_old).
  assert (wf_fs (w_fs w1)) as Hwf1.
  { rewrite Hfs1, (goodTarget_resolve _ _ _ Ht). by apply wf_ensure_dir, Ht. }
  destruct (canMountVolume_run Hnf config (np_TargetPath req) base name w1) as (w2&Hcan2&Hfs2&Hms2);
    [done|by rewrite Hms1|rewrite Hms1; right; split; [done|by apply not_mounted_below]
    |done|rewrite Hfs1; by apply lookup_ensure_dir_old|by rewrite Ht1|].
  rewrite decide_False, Hms1, not_mounted_below in Hcan2 by (done || by rewrite Ht1).
  assert (w_fs w2 = w_fs w1) as Hfs21 by (rewrite Hfs2; unfold ensure_dir; by rewrite Ht1).
  destruct (mountVolume_ok req w2) as (w3&Hmnt1&Hfs3&Hms3); [done|done|by rewrite Hfs21..|].
  destruct (mountVolume_ok req w3) as (w4&Hmnt2&Hfs4&Hms4); [done|done|by rewrite Hfs3, Hfs21..|].
  exists w1, w2, w3, w4. split_and!; [done..| |]; by rewrite ?Hfs4, ?Hfs3, ?Hfs21, ?Hms4, ?Hms3, ?Hms2, ?Hms1.
Qed.

(** Removing a directory with a writable bind mount on it empties what is bound. *)
Lemma RemoveAll_busy target base name m w :
  goodTarget target base name → w_fs w !! resolve target = Some NDir →
  mounts_below (resolve target) (w_mounts w) = [m] → ¬ readonly m →
  ∃ w', (∃ e, os_RemoveAll target w = (Fail e, w')) ∧ w_mounts w' = w_mounts w ∧
    ∀ k, resolve (mp_Device m) `prefix_of` k → resolve (mp_Device m) ≠ k →
      ¬ k `prefix_of` resolve (mp_Path m) → w_fs w' !! k = None.
Proof.
  intros Ht Hd Hm Hro. eexists. split.
  { eexists. unfold os_RemoveAll. rewrite decide_False by by eapply goodTarget_nonempty.
    assert (endsWithDot target = false) as -> by (destruct Ht as [-> _ Hn]; by apply endsWithDot_Join).
    rewrite Hnf, Hd, Hm. reflexivity. }
  split; [done|]. intros k Hk Hne Hp. simpl. apply map_lookup_filter_None. right. intros x Hx. simpl.
  intros [->|[Hex|Hn]].
  - apply prefix_of_nil in Hk. done.
  - apply Exists_cons in Hex as [?|?%Exists_nil]; done.
  - apply Hn. right. by apply Exists_cons_hd.
Qed.
End stacked.

(** ** Ephemeral volumes *)

(** The volumes of a tree with one more directory. *)
Lemma has_volume_ensure config fs id p q :
  (∀ pool i, StoragePools config !! pool = Some i → fs !! (pool_root i ++ [id]) = None) →
  has_volume config (ensure_dir (p ++ [id]) fs) id q → q = p.
Proof.
  intros Hfresh (pool&i&Hp&->&Hl). destruct (decide (pool_root i = p)) as [|Hne]; [done|].
  unfold ensure_dir in Hl. case_match; [by rewrite (Hfresh pool i Hp) in Hl|].
  rewrite lookup_insert_ne in Hl; [by rewrite (Hfresh pool i Hp) in Hl|]. by intros [? _]%app_inj_tail.
Qed.

Lemma rm_tree_ensure_other p q fs :
  ¬ p `prefix_of` q → wf_fs fs → fs !! p = None → fs !! q = None →
  rm_tree p (ensure_dir q (ensure_dir p fs)) = ensure_dir q fs.
Proof.
  intros Hpq Hwf Hp Hq. assert (p ≠ q) as Hne by by intros ->.
  unfold ensure_dir. rewrite Hp, lookup_insert_ne, Hq by done.
  apply map_eq. intros k. rewrite lookup_rm_tree. destruct (decide (q = k)) as [<-|Hk].
  { by rewrite decide_False, !lookup_insert_eq by done. }
  rewrite !(lookup_insert_ne _ q) by done.
  pose proof (rm_tree_ensure_dir p fs Hwf Hp) as Heq. unfold ensure_dir in Heq. rewrite Hp in Heq.
  transitivity (rm_tree p (<[p := NDir]> fs) !! k); [by rewrite lookup_rm_tree|by rewrite Heq].
Qed.

Lemma ensure_two p q fs :
  p ≠ q → fs !! q = None → ensure_dir q (ensure_dir p fs) !! q = Some NDir.
Proof.
  intros Hne Hq. unfold ensure_dir at 1. assert (ensure_dir p fs !! q = None) as ->.
  { unfold ensure_dir. case_match; [done|]. by rewrite lookup_insert_ne. }
  by rewrite lookup_insert_eq.
Qed.

(** The node deletes an ephemeral volume that only one pool has. *)
Lemma removeEphemeral_ok `{!Env} (Hnf : no_faults) config req info pool w w1 :
  valid_name (np_VolumeId req) → wf_fs (w_fs w) → pools_ready config (w_fs w) →
  StoragePools config !! pool = Some info → Path info = sourcePool config req →
  (∀ pool i, StoragePools config !! pool = Some i → w_fs w !! (pool_root i ++ [np_VolumeId req]) = None) →
  mounts_below (volumeDir config req) (w_mounts w) = [] →
  w_fs w1 = ensure_dir (volumeDir config req) (w_fs w) → w_mounts w1 = w_mounts w →
  ∃ w2, removeEphemeralPath (linuxNode config) (np_VolumeId req) w1 = (Ret tt, w2) ∧
    w_fs w2 = w_fs w ∧ w_mounts w2 = w_mounts w.
Proof.
  intros Hid Hwf Hready Hpool Hpath Hfresh Hmnt Hfs1 Hms1.
  assert (volumeDir config req = pool_root info ++ [np_VolumeId req]) as Hvd
    by (unfold volumeDir, pool_root; by rewrite Hpath).
  rewrite Hvd in *. pose proof (Hfresh _ _ Hpool) as Hnew.
  assert (has_volume config (w_fs w1) (np_VolumeId req) (pool_root info)) as Hhas.
  { exists pool, info. split_and!; [done..|]. rewrite Hfs1. unfold ensure_dir. by rewrite Hnew, lookup_insert_eq. }
  assert (∀ q, has_volume config (w_fs w1) (np_VolumeId req) q → q = pool_root info) as Huniq.
  { intros q. rewrite Hfs1. by apply has_volume_ensure. }
  destruct (deleteByName_ok Hnf (λ err, ErrorString ("failed to delete ephemeral volume " +:+ np_VolumeId req
              +:+ ": " +:+ Error err)) config (np_VolumeId req) w1) as (w2&Hrun&Hms2&Hcase).
  - apply Hid.
  - rewrite Hfs1. apply wf_ensure_dir; [done|by eapply Hready|done].
  - intros p i Hp. destruct (Hready p i Hp). split; [done|]. rewrite Hfs1. by apply lookup_ensure_dir_old.
  - intros q ->%Huniq. by rewrite Hms1.
  - exists w2. split; [done|]. rewrite Hms2, Hms1. split; [|done].
    destruct Hcase as [[_ Hno]|(q&->%Huniq&_&->)]; [by destruct (Hno (pool_root info))|].
    rewrite Hfs1. by apply rm_tree_ensure_dir.
Qed.
