(* ===== verification/NodeProps.v ===== *)
(** * Properties of the node service

    What the kubelet can rely on when it publishes and unpublishes volumes, and
    what happens to the data of the volumes meanwhile. *)
From S2P Require Import Prelude GoStrings GoPath GoErrors OS OSFacts Demo Mount MountFacts Csi.
From S2P Require Import Utils Health Reflink ReflinkFacts ControllerServer ControllerFacts.
From S2P Require Import ControllerProps NodeServer NodeFacts.
Open Scope Z_scope.

(** ** A concrete request *)

Definition demoMount (ro : bool) (id target : string) (ctx : gmap string string) : NodePublishVolumeRequest :=
  {| np_VolumeId := id; np_TargetPath := target;
     np_VolumeCapability := Some {| cap_access := Some (MountAccess "ext4" []) |};
     np_Readonly := ro; np_VolumeContext := ctx; np_PublishContext := ∅ |}.
Definition demoPublish : string → string → gmap string string → NodePublishVolumeRequest := demoMount true.
Definition demoNodeWorld : world := World
  (tree [(["snap"], NDir); (["data"], NDir); (["data"; "vol1"], NDir);
         (["data"; "vol1"; "disk.img"], NFile "abc"); (["fast"], NDir); (["pods"], NDir)]) [] 0 0.
Definition demoTarget : goodTarget "/pods/mnt" "/pods" "mnt".
Proof. split; by_decide. Qed.

(** Suffixes of a concrete string. *)
Fixpoint has_suffix (s t : string) : bool :=
  String.eqb s t || match s with "" => false | String _ s' => has_suffix s' t end.
Lemma has_suffix_spec s t : has_suffix s t = false → ∀ p, s ≠ p +:+ t.
Proof.
  intros Hs p ->. induction p as [|a p IH].
  - change ("" +:+ t) with t in Hs. destruct t; simpl in Hs; [done|].
    by rewrite Ascii.eqb_refl, String.eqb_refl in Hs.
  - simpl in Hs. apply orb_false_iff in Hs as [_ Hs]. auto.
Qed.
Lemma demoMount_publishable ro id name ctx :
  valid_name id → goodTarget ("/pods/" +:+ name) "/pods" name → backslash_free ("/pods/" +:+ name) →
  ctx !! storagePoolName = None →
  publishable demoConfig (demoMount ro id ("/pods/" +:+ name) ctx) "/pods" name (w_fs demoNodeWorld).
Proof.
  intros Hid Ht Hb Hctx. split; [|done|done|done|by_wf|vm_compute; reflexivity|].
  - unfold validateNodePublishRequest, validateRequestCapabilties. simpl.
    destruct (Z.eqb_spec (len id) 0) as [->%len_0|]; [by destruct Hid|done].
  - unfold sourcePool. simpl. unfold getStoragePoolNameFromMap. rewrite Hctx.
    rewrite andb_false_r. vm_compute. reflexivity.
Qed.
Lemma demo_publishable id ctx :
  valid_name id → ctx !! storagePoolName = None →
  publishable demoConfig (demoPublish id "/pods/mnt" ctx) "/pods" "mnt" (w_fs demoNodeWorld).
Proof. intros Hid Hctx. apply (demoMount_publishable true id "mnt"); [done|apply demoTarget|by_decide|done]. Qed.

(** ** Publishing *)

(** C13: When no call fails, publishing a volume that exists, or an ephemeral one, on a target
    that is not a mount point, and has no backslash in its path, succeeds: the target directory (and the directory of an ephemeral
    volume) exists afterwards, nothing else in the tree changes, and exactly one mount is added,
    of the volume's directory at the target, read-only if that was asked for. *)
Theorem publish_mounts_volume `{!Env} config req base name w :
  no_faults → publishable config req base name (w_fs w) → canonical (w_mounts w) →
  mounted (resolve (np_TargetPath req)) (w_mounts w) = false →
  (∀ c, w_fs w !! resolve (np_TargetPath req) ≠ Some (NFile c)) →
  resolve (np_TargetPath req) ≠ volumeDir config req →
  (if isEphemeralVolumeRequest req then ∀ c, w_fs w !! volumeDir config req ≠ Some (NFile c)
   else w_fs w !! volumeDir config req = Some NDir) →
  ∃ m w', NodePublishVolume (linuxNode config) (Some req) w = (Ret tt, w') ∧
    w_mounts w' = m :: w_mounts w ∧
    resolve (mp_Device m) = volumeDir config req ∧ resolve (mp_Path m) = resolve (np_TargetPath req) ∧
    ("ro" ∈ mp_Opts m ↔ np_Readonly req = true) ∧
    w_fs w' = (if isEphemeralVolumeRequest req
               then ensure_dir (volumeDir config req) (ensure_dir (resolve (np_TargetPath req)) (w_fs w))
               else ensure_dir (resolve (np_TargetPath req)) (w_fs w)).
Proof.
  intros Hnf Hp Hc Hm Hf Hne Hv. destruct (NodePublish_ok Hnf config req base name w) as (w'&Hrun&Hfs&Hms); [done..|].
  exists (bindMount config req), w'. split_and!; [done|done| | | |done].
  - simpl. apply resolve_Join, Hp.
  - by eapply bindMount_path, Hp.
  - simpl. destruct (np_Readonly req); set_solver.
Qed.

Lemma publish_mounts_volume_witness :
  ∃ m w', NodePublishVolume (linuxNode demoConfig) (Some (demoPublish "vol1" "/pods/mnt" ∅)) demoNodeWorld = (Ret tt, w') ∧
    w_mounts w' = [m] ∧ resolve (mp_Device m) = ["data"; "vol1"].
Proof.
  destruct (publish_mounts_volume demoConfig (demoPublish "vol1" "/pods/mnt" ∅) "/pods" "mnt" demoNodeWorld)
    as (m&w'&Hr&Hm&Hd&_);
    [done|apply demo_publishable; [by_decide|done]|by intros mp ?%not_elem_of_nil|done
    |intros c; vm_compute; discriminate|by_decide|vm_compute; reflexivity|].
  exists m, w'. split; [exact Hr|]. split; [exact Hm|exact Hd].
Defined.

(** Publishing is idempotent: a second request for a target that is mounted already
    succeeds without mounting again and without changing the tree. *)
Theorem publish_idempotent `{!Env} config req base name w w1 :
  no_faults → publishable config req base name (w_fs w) → canonical (w_mounts w) →
  unescaped (np_TargetPath req) →
  mounted (resolve (np_TargetPath req)) (w_mounts w) = false →
  (∀ c, w_fs w !! resolve (np_TargetPath req) ≠ Some (NFile c)) →
  resolve (np_TargetPath req) ≠ volumeDir config req →
  (if isEphemeralVolumeRequest req then ∀ c, w_fs w !! volumeDir config req ≠ Some (NFile c)
   else w_fs w !! volumeDir config req = Some NDir) →
  NodePublishVolume (linuxNode config) (Some req) w = (Ret tt, w1) →
  ∃ w2, NodePublishVolume (linuxNode config) (Some req) w1 = (Ret tt, w2) ∧
    w_fs w2 = w_fs w1 ∧ w_mounts w2 = w_mounts w1.
Proof.
  intros Hnf Hp Hc Hu Hm Hf Hne Hv Hrun.
  destruct (NodePublish_ok Hnf config req base name w) as (w1'&Hrun'&Hfs&Hms); [done..|].
  rewrite Hrun in Hrun'. injection Hrun' as <-.
  apply (NodePublish_mounted Hnf config req base name w1).
  - by apply publishable_prepared with (w := w).
  - rewrite Hms. eapply canonical_cons; [apply Hp|intros s; by apply unescaped_not_deleted|done].
  - done.
  - apply mounted_true. exists (bindMount config req). rewrite Hms. split; [left|].
    by eapply bindMount_path, Hp.
  - rewrite Hfs. by apply prepared_target.
Qed.

Definition demoPublished : world :=
  (NodePublishVolume (linuxNode demoConfig) (Some (demoPublish "vol1" "/pods/mnt" ∅)) demoNodeWorld).2.

Lemma publish_idempotent_witness :
  ∃ w2, NodePublishVolume (linuxNode demoConfig) (Some (demoPublish "vol1" "/pods/mnt" ∅)) demoPublished = (Ret tt, w2) ∧
    w_mounts w2 = w_mounts demoPublished.
Proof.
  destruct (publish_idempotent demoConfig (demoPublish "vol1" "/pods/mnt" ∅) "/pods" "mnt" demoNodeWorld demoPublished)
    as (w2&Hr&_&Hm);
    [done|apply demo_publishable; [by_decide|done]|by intros mp ?%not_elem_of_nil|by_decide|done
    |intros c; vm_compute; discriminate|by_decide|vm_compute; reflexivity|vm_compute; reflexivity|].
  exists w2. split; [exact Hr|exact Hm].
Defined.

(** ** Unpublishing *)



(** Unpublishing a persistent volume never touches anything but the target, whatever fails
    (short of a call that reports an existing path as missing), as long as the target has no
    blanks and backslashes in its path and carries at most one mount and none lies below it: the
    data of the volume survives a failed unmount. *)
Theorem unpublish_keeps_data `{!Env} config req base name w :
  (∀ n k s, fault n k s ≠ Some ENOENT) → wf_fs (w_fs w) → canonical (w_mounts w) →
  goodTarget (nu_TargetPath req) base name → unescaped (nu_TargetPath req) → isEphemeralVolumeId (nu_VolumeId req) = false →
  (mounts_below (resolve (nu_TargetPath req)) (w_mounts w) = [] ∨
   ∃ m, mounts_below (resolve (nu_TargetPath req)) (w_mounts w) = [m] ∧
        resolve (mp_Path m) = resolve (nu_TargetPath req)) →
  ∀ k, ¬ resolve (nu_TargetPath req) `prefix_of` k →
    w_fs (NodeUnpublishVolume (linuxNode config) (Some req) w).2 !! k = w_fs w !! k.
Proof.
  intros Hhonest Hwf Hc Ht Hu He Hone k Hk.
  destruct (validateNodeUnpublishRequest (Some req)) as [e|] eqn:Hv.
  { unfold NodeUnpublishVolume. by rewrite Hv. }
  rewrite NodeUnpublish_run by done. rewrite He.
  pose proof (same_tree_unmountTarget config (nu_TargetPath req) w) as Hsame.
  destruct (unmountTarget (linuxNode config) (nu_TargetPath req) w) as [[[]|e|p] w1] eqn:Hun;
    [|by rewrite (run_bind_fail _ _ _ _ _ Hun), Hsame|by rewrite (run_bind_panic _ _ _ _ _ Hun), Hsame].
  run_ret Hun. simpl in Hsame. unfold same_tree in Hsame. rewrite <-Hsame.
  assert (w_fs (os_RemoveAll (nu_TargetPath req) w1).2 !! k = w_fs w1 !! k) as Hrm.
  { destruct (unmountTarget_safe config Hhonest (nu_TargetPath req) base name w w1) as [Hmiss|Hnone]; [done|done|done|by left|done|done| |].
    - apply RemoveAll_missing_frame; [by rewrite Hsame|done].
    - by apply RemoveAll_frame. }
  unfold bind, wrapErr. destruct (os_RemoveAll (nu_TargetPath req) w1) as [[[]|e|p] w2]; done.
Qed.

(** Every unmount fails. *)
Definition busyEnv : Env :=
  demoEnv (λ _ k _, match k with SysUmount => Some EBUSY | _ => None end)
    (λ _ _, inr demo_statfs) (λ _ _, (1700000000, 5)) (λ _, true).

Lemma unpublish_keeps_data_witness :
  w_fs (@NodeUnpublishVolume busyEnv (@linuxNode busyEnv demoConfig)
    (Some {| nu_VolumeId := "vol1"; nu_TargetPath := "/pods/mnt" |}) demoPublished).2 !! ["data"; "vol1"; "disk.img"]
  = Some (NFile "abc").
Proof.
  rewrite (@unpublish_keeps_data busyEnv demoConfig {| nu_VolumeId := "vol1"; nu_TargetPath := "/pods/mnt" |}
             "/pods" "mnt" demoPublished).
  - vm_compute. reflexivity.
  - intros n [] s; discriminate.
  - by_wf.
  - intros mp ->%list_elem_of_singleton. split; [vm_compute; reflexivity|]. by apply has_suffix_spec.
  - apply demoTarget.
  - by_decide.
  - reflexivity.
  - right. eexists. split; vm_compute; reflexivity.
  - by_decide.
Defined.

(** One unpublish of a target that is bound twice fails, and has by then removed the contents of
    the volume through the mount that is left. *)
Lemma stacked_unpublish_loses_data `{!Env} config req base name w w1 :
  no_faults → publishable config req base name (w_fs w) → canonical (w_mounts w) →
  unescaped (np_TargetPath req) → np_Readonly req = false →
  w_fs w !! resolve (np_TargetPath req) = None →
  mounts_below (resolve (np_TargetPath req)) (w_mounts w) = [] →
  w_fs w1 = ensure_dir (resolve (np_TargetPath req)) (w_fs w) →
  w_mounts w1 = bindMount config req :: bindMount config req :: w_mounts w →
  let w2 := (NodeUnpublishVolume (linuxNode config)
    (Some {| nu_VolumeId := np_VolumeId req; nu_TargetPath := np_TargetPath req |}) w1) in
  (∃ e, w2.1 = Fail e) ∧
  ∀ rel, rel ≠ [] → ¬ volumeDir config req ++ rel `prefix_of` resolve (np_TargetPath req) →
    w_fs w2.2 !! (volumeDir config req ++ rel) = None.
Proof.
  intros Hnf Hp Hc Hu Hro Hnew Hbelow Hfs1 Hms1. pose proof (pb_target _ _ _ _ _ Hp) as Ht.
  rewrite NodeUnpublish_run by (apply validateUnpublish_ok; [apply Hp|by eapply goodTarget_nonempty]).
  cbn [nu_TargetPath nu_VolumeId].
  assert (w_fs w1 !! resolve (np_TargetPath req) = Some NDir) as Hd1.
  { rewrite Hfs1. unfold ensure_dir. by rewrite Hnew, lookup_insert_eq. }
  destruct (unmountTarget_mounted config (np_TargetPath req) base name (bindMount config req)
              (bindMount config req :: w_mounts w) w1) as (w2&Hun&Hfs2&Hms2);
    [done|done| |done| |done|done|by eapply bindMount_path|].
  { rewrite Hms1. do 2 (eapply canonical_cons; [done|intros s; by apply unescaped_not_deleted|]). done. }
  { rewrite Hfs1, (goodTarget_resolve _ _ _ Ht). apply wf_ensure_dir; [apply Hp..|apply Ht]. }
  run_ret Hun. rewrite <-Hfs2 in Hd1.
  destruct (RemoveAll_busy Hnf (np_TargetPath req) base name (bindMount config req) w2) as (w3&Hrm&_&Hgone); [done..| | |].
  { rewrite Hms2. unfold mounts_below. rewrite filter_cons_True; [|by erewrite bindMount_path].
    f_equal. exact Hbelow. }
  { by apply bindMount_writable. }
  destruct Hrm as [e Hrm]. erewrite run_bind_fail; [|unfold wrapErr; by rewrite Hrm].
  split; [by eexists|]. intros rel Hrel Hk. apply Hgone; [| |by erewrite bindMount_path].
  - rewrite bindMount_device by apply Hp. by exists rel.
  - rewrite bindMount_device by apply Hp. intros Heq%(f_equal length). rewrite length_app in Heq.
    destruct rel; [done|]. simpl in Heq. lia.
Qed.

(** Of a target that is listed in another form, the check says that it can be mounted on and
    that there is nothing to unmount. *)
Lemma escaped_unseen `{!Env} config target base name w :
  no_faults → goodTarget target base name → backslash_free target → ¬ unescaped target →
  (∀ n ms, likely_not_mnt n ms target = true) →
  (∀ mp s, mp ∈ w_mounts w → mp_Path mp ≠ s +:+ " (deleted)") → wf_fs (w_fs w) →
  w_fs w !! resolve target = Some NDir →
  ∃ w', canMountVolume (linuxNode config) target w = (Ret true, w') ∧
    unmountTarget (linuxNode config) target w = (Ret tt, w') ∧ w_fs w' = w_fs w ∧ w_mounts w' = w_mounts w.
Proof.
  intros Hnf Ht Hb Hu Hlike Hdel Hwf Hd.
  destruct (IsNotMountPoint_escaped Hnf target base name w) as (w'&Hrun&(Hfs&Hms&_)); [done..|].
  exists w'. split_and!; [| |done|done].
  - unfold canMountVolume. by erewrite run_bind_ret by (apply run_try_ret; exact Hrun).
  - unfold unmountTarget. by erewrite run_bind_ret by (apply run_try_ret; exact Hrun).
Qed.

(** C38: A persistent volume that is published, writable, on a new target with a blank in its path,
    on the same device: the mount table lists the target with the blank escaped, the mounter does
    not undo that, and so never finds the mount. When no call fails, a second publish binds the
    volume a second time, and unpublishing leaves the mount and fails, after the removal of the
    target has deleted the whole contents of the volume through it. *)
Theorem escaped_target_loses_data `{!Env} config req base name w w1 :
  no_faults → publishable config req base name (w_fs w) → canonical (w_mounts w) →
  ¬ unescaped (np_TargetPath req) → (∀ s, np_TargetPath req ≠ s +:+ " (deleted)") →
  (∀ n ms, likely_not_mnt n ms (np_TargetPath req) = true) →
  isEphemeralVolumeRequest req = false → np_Readonly req = false →
  w_fs w !! resolve (np_TargetPath req) = None →
  mounts_below (resolve (np_TargetPath req)) (w_mounts w) = [] →
  w_fs w !! volumeDir config req = Some NDir →
  NodePublishVolume (linuxNode config) (Some req) w = (Ret tt, w1) →
  (∃ w2, NodePublishVolume (linuxNode config) (Some req) w1 = (Ret tt, w2) ∧
     w_mounts w1 = bindMount config req :: w_mounts w ∧
     w_mounts w2 = bindMount config req :: bindMount config req :: w_mounts w) ∧
  (let u := NodeUnpublishVolume (linuxNode config)
     (Some {| nu_VolumeId := np_VolumeId req; nu_TargetPath := np_TargetPath req |}) w1 in
   (∃ e, u.1 = Fail e) ∧ w_mounts u.2 = w_mounts w1 ∧
   ∀ rel, rel ≠ [] → ¬ volumeDir config req ++ rel `prefix_of` resolve (np_TargetPath req) →
     w_fs u.2 !! (volumeDir config req ++ rel) = None).
Proof.
  intros Hnf Hp Hc Hu Hdel Hlike He Hro Hnew Hbelow Hvol Hrun. pose proof (pb_target _ _ _ _ _ Hp) as Ht.
  destruct (NodePublish_ok Hnf config req base name w) as (w1'&Hrun'&Hfs&Hms);
    [done|done|by apply not_mounted_below|by rewrite Hnew| |by rewrite He|].
  { intros Heq. rewrite Heq in Hnew. congruence. }
  rewrite Hrun in Hrun'. injection Hrun' as <-.
  assert (w_fs w1 !! resolve (np_TargetPath req) = Some NDir) as Hd1.
  { rewrite Hfs. apply prepared_target. by rewrite Hnew. }
  assert (wf_fs (w_fs w1)) as Hwf1 by (rewrite Hfs; by eapply wf_prepared).
  destruct (escaped_unseen config (np_TargetPath req) base name w1) as (w2&Hcan&Hun&Hfs2&Hms2); [done..|apply Hp|done|done| |done|done|].
  { rewrite Hms. intros mp s [->|Hin]%elem_of_cons; [|by apply Hc].
    cbn [bindMount mp_Path]. destruct (goodTarget_clean _ _ _ Ht) as [_ <-]. apply Hdel. }
  split.
  - rewrite NodePublish_run by apply Hp. run_ret Hcan. cbn [negb].
    destruct (mountVolume_ok Hnf config req w2) as (w3&Hmnt&_&Hms3); [done|apply Hp|by rewrite Hfs2| |by rewrite Hfs2|].
    { rewrite Hfs2, Hfs. by apply prepared_old. }
    exists w3. split; [done|]. by rewrite Hms3, Hms2, Hms.
  - rewrite NodeUnpublish_run by (apply validateUnpublish_ok; [apply Hp|by eapply goodTarget_nonempty]).
    cbn [nu_TargetPath nu_VolumeId]. run_ret Hun.
    destruct (RemoveAll_busy Hnf (np_TargetPath req) base name (bindMount config req) w2)
      as (w3&(e&Hrm)&Hms3&Hgone); [done|by rewrite Hfs2| |by apply bindMount_writable|].
    { rewrite Hms2, Hms. unfold mounts_below. rewrite filter_cons_True; [|by erewrite bindMount_path].
      f_equal. exact Hbelow. }
    erewrite run_bind_fail; [|unfold wrapErr; by rewrite Hrm].
    split_and!; [by eexists|by rewrite <-Hms2|]. intros rel Hrel Hk.
    apply Hgone; rewrite ?bindMount_device by apply Hp; [by exists rel| |by erewrite bindMount_path].
    intros Heq%(f_equal length). rewrite length_app in Heq. destruct rel; [done|]. simpl in Heq. lia.
Qed.

Definition demoBlank : NodePublishVolumeRequest := demoMount false "vol1" "/pods/my mnt" ∅.
Definition demoBlankPublished : world :=
  (NodePublishVolume (linuxNode demoConfig) (Some demoBlank) demoNodeWorld).2.

Lemma escaped_target_loses_data_witness :
  w_fs demoBlankPublished !! ["data"; "vol1"; "disk.img"] = Some (NFile "abc") ∧
  w_fs (NodeUnpublishVolume (linuxNode demoConfig)
    (Some {| nu_VolumeId := "vol1"; nu_TargetPath := "/pods/my mnt" |}) demoBlankPublished).2
    !! ["data"; "vol1"; "disk.img"] = None.
Proof.
  split; [vm_compute; reflexivity|].
  destruct (escaped_target_loses_data demoConfig demoBlank "/pods" "my mnt" demoNodeWorld demoBlankPublished)
    as (_&_&_&Hgone);
    [done|apply (demoMount_publishable false "vol1" "my mnt"); [by_decide|split; by_decide|by_decide|done]
    |by intros mp ?%not_elem_of_nil|by_decide|by apply has_suffix_spec|done|done|done
    |vm_compute; reflexivity|done|vm_compute; reflexivity|vm_compute; reflexivity|].
  apply (Hgone ["disk.img"]); [done|by_decide].
Defined.




(** ** Failed mounts *)

(** Against any mounter: when the mount of an ephemeral volume fails and the target can be
    examined, the request fails with the mounter's message and the directory that was made for
    the volume is gone again. *)
Theorem ephemeral_mount_failure_cleans `{!Env} hpn req err w w1 w2 :
  no_faults → isEphemeralVolumeRequest req = true → valid_name (np_VolumeId req) →
  wf_fs (w_fs w2) →
  let path := getEphemeralVolumePath hpn (getStoragePoolNameFromMap (np_VolumeContext req)) (np_VolumeId req) in
  volumeSource hpn req w = (Ret path, w1) →
  mi_Mount (hpn_Mounter hpn) path (np_TargetPath req)
    (default "" (fst <$> (np_VolumeCapability req ≫= GetMount)))
    (if np_Readonly req then ["bind"; "ro"] else ["bind"]) w1 = (Fail err, w2) →
  np_TargetPath req ≠ "" → is_Some (w_fs w2 !! resolve (np_TargetPath req)) →
  mounts_below (resolve path) (w_mounts w2) = [] → is_Some (w_fs w2 !! resolve path) →
  ∃ msg w3, mountVolume hpn (np_TargetPath req) req w = (Fail (ErrorString msg), w3) ∧
    w_fs w3 = rm_tree (resolve path) (w_fs w2) ∧ w_mounts w3 = w_mounts w2.
Proof.
  intros Hnf He Hid Hwf path Hsrc Hmnt Hne [x Hx] Hm [y Hy]. unfold mountVolume. run_ret Hsrc.
  erewrite run_bind_ret by (by apply run_try_fail). unfold mountFailed.
  erewrite run_bind_ret.
  2: { apply run_try_ret. unfold os_StatMode, reads, stat_result. rewrite Hnf, decide_False, Hx by done. reflexivity. }
  rewrite He. rewrite bind_assoc. erewrite run_bind_ret.
  2: { apply run_try_ret. eapply RemoveAll_found; [done| | | |exact Hy|exact Hm].
       - by apply Join_nonempty.
       - by apply endsWithDot_Join.
       - unfold path, getEphemeralVolumePath. rewrite resolve_Join by done. apply snoc_not_nil. }
  do 2 eexists. split; [reflexivity|]. done.
Qed.

(** A mounter that never mounts. *)
Definition brokenMounter `{!Env} : Mounter := {|
  mi_Mount _ _ _ _ := fail (ErrorString "mount failed");
  mi_Unmount _ := fail (ErrorString "unmount failed");
  mi_List := ret [];
  mi_IsLikelyNotMountPoint _ := ret true;
|}.
Definition demoSourced : world :=
  (volumeSource (NewHostPathNode demoConfig brokenMounter) (demoPublish "csi-1" "/pods" {[ ephemeralContextKey := "true" ]})
     demoNodeWorld).2.

Lemma ephemeral_mount_failure_cleans_witness :
  ∃ msg w3, mountVolume (NewHostPathNode demoConfig brokenMounter) "/pods"
      (demoPublish "csi-1" "/pods" {[ ephemeralContextKey := "true" ]}) demoNodeWorld = (Fail (ErrorString msg), w3) ∧
    w_fs w3 = rm_tree ["data"; "csi-1"] (w_fs demoSourced).
Proof.
  destruct (ephemeral_mount_failure_cleans (NewHostPathNode demoConfig brokenMounter)
    (demoPublish "csi-1" "/pods" {[ ephemeralContextKey := "true" ]}) (ErrorString "mount failed") demoNodeWorld
    demoSourced demoSourced) as (msg&w3&Hr&Hfs&_);
    [done|vm_compute; reflexivity|by_decide|by_wf|vm_compute; reflexivity|reflexivity|done
    |vm_compute; by eexists|vm_compute; reflexivity|vm_compute; by eexists|].
  exists msg, w3. split; [exact Hr|exact Hfs].
Defined.

(** When the mount fails and the target cannot be examined either, the handler dereferences
    the missing file information and panics. *)
Theorem mount_failure_panics `{!Env} hpn req source err e w w1 w2 w3 :
  volumeSource hpn req w = (Ret source, w1) →
  mi_Mount (hpn_Mounter hpn) source (np_TargetPath req)
    (default "" (fst <$> (np_VolumeCapability req ≫= GetMount)))
    (if np_Readonly req then ["bind"; "ro"] else ["bind"]) w1 = (Fail err, w2) →
  os_StatMode (np_TargetPath req) w2 = (Fail e, w3) →
  mountVolume hpn (np_TargetPath req) req w =
    (Panic "invalid memory address or nil pointer dereference", w3).
Proof.
  intros Hsrc Hmnt Hstat. unfold mountVolume. run_ret Hsrc.
  erewrite run_bind_ret by (by apply run_try_fail). unfold mountFailed.
  by erewrite run_bind_ret by (by apply run_try_fail).
Qed.

Lemma mount_failure_panics_witness :
  (mountVolume (NewHostPathNode demoConfig brokenMounter) "/gone" (demoPublish "vol1" "/gone" ∅) demoNodeWorld).1 =
    Panic "invalid memory address or nil pointer dereference".
Proof.
  pose proof (mount_failure_panics (NewHostPathNode demoConfig brokenMounter) (demoPublish "vol1" "/gone" ∅)
    "/data/vol1" (ErrorString "mount failed") (PathError "stat" "/gone" ENOENT) demoNodeWorld demoNodeWorld
    demoNodeWorld (tickw demoNodeWorld)) as H.
  change "/gone" with (np_TargetPath (demoPublish "vol1" "/gone" ∅)) at 1.
  rewrite H; [reflexivity|vm_compute; reflexivity|reflexivity|vm_compute; reflexivity].
Defined.
