(* ===== verification/System.v ===== *)
(** * The driver as a whole

    The RPCs the gRPC server dispatches to the controller and the node service,
    as steps of one transition system: every finite sequence of requests, with
    any contents and under any faults. *)
From S2P Require Import Prelude GoStrings GoPath GoErrors OS OSFacts Demo Mount MountFacts Csi.
From S2P Require Import Utils Health Reflink ReflinkFacts ControllerServer ControllerFacts.
From S2P Require Import ControllerProps ControllerSnap FindMnt NodeServer NodeFacts Driver.
From stdpp Require Import relations.
Open Scope Z_scope.

Inductive rpc : Type :=
  | RCreateVolume (req : option CreateVolumeRequest)
  | RDeleteVolume (volumeId : option string)
  | RValidateVolumeCapabilities (req : option ValidateVolumeCapabilitiesRequest)
  | RGetCapacity (params : option (gmap string string))
  | RListVolumes (req : option ListVolumesRequest)
  | RControllerGetVolume (volumeId : option string)
  | RCreateSnapshot (req : option CreateSnapshotRequest)
  | RDeleteSnapshot (snapshotId : option string)
  | RListSnapshots (req : option ListSnapshotsRequest)
  | RNodePublishVolume (req : option NodePublishVolumeRequest)
  | RNodeUnpublishVolume (req : option NodeUnpublishVolumeRequest)
  | RNodeGetVolumeStats (req : option NodeGetVolumeStatsRequest).

Definition discard {A} `{!Env} (m : M A) : M unit := m >> ret tt.

(** The handler of a request. *)
Definition serve `{!Env, !FindMnt} (hpc : hostPathController) (r : rpc) : M unit :=
  match r with
  | RCreateVolume req => discard (CreateVolume hpc req)
  | RDeleteVolume id => discard (DeleteVolume hpc id)
  | RValidateVolumeCapabilities req => discard (ValidateVolumeCapabilities hpc req)
  | RGetCapacity params => discard (GetCapacity hpc params)
  | RListVolumes req => discard (ListVolumes hpc req)
  | RControllerGetVolume id => discard (ControllerGetVolume hpc id)
  | RCreateSnapshot req => discard (CreateSnapshot hpc req)
  | RDeleteSnapshot id => discard (DeleteSnapshot hpc id)
  | RListSnapshots req => discard (ListSnapshots hpc req)
  | RNodePublishVolume req => NodePublishVolume (linuxNode (cfg hpc)) req
  | RNodeUnpublishVolume req => NodeUnpublishVolume (linuxNode (cfg hpc)) req
  | RNodeGetVolumeStats req => discard (NodeGetVolumeStats (linuxNode (cfg hpc)) req)
  end.

(** One request is served, or the goroutine of the driver evaluates the metric. *)
Inductive step `{!Env, !FindMnt} (hpc : hostPathController) : world → world → Prop :=
  | step_serve r w : step hpc w (serve hpc r w).2
  | step_metric w : step hpc w (evaluateSharedPathMetric (StoragePools (cfg hpc)) w).2.

(** ** The tree stays well-formed *)

Section wf.
Context `{!Env, !FindMnt}.

Lemma same_tree_wf w w' : same_tree w w' → wf_rel w w'.
Proof. unfold same_tree, wf_rel. by intros ->. Qed.

Lemma respects_wf_Mkdir s : respects wf_rel (os_Mkdir s).
Proof.
  intros w Hwf. unfold os_Mkdir. unfold bind at 1, gets. simpl. case_decide; [done|].
  destruct (w_fs w !! resolve s) as [x|] eqn:Hx; [done|].
  destruct (w_fs w !! removelast (resolve s)) as [[|]|] eqn:Hp; [|done..].
  unfold mkdir_at. destruct (fault _ _ _); [done|]. simpl.
  pose proof (resolve_valid s) as Hv.
  destruct (resolve s) as [|c l _] using rev_ind; [by rewrite (wf_root _ Hwf) in Hx|].
  rewrite removelast_last in Hp. apply Forall_app in Hv as [_ [Hv _]%Forall_cons_1].
  by apply wf_insert_dir.
Qed.

Lemma respects_wf_Mount src tgt t opts : respects wf_rel (MountLinux src tgt t opts).
Proof. eapply respects_weaken; [apply same_tree_wf|]. apply respects_Mount. Qed.
Lemma respects_wf_Unmount tgt : respects wf_rel (UnmountLinux tgt).
Proof. eapply respects_weaken; [apply same_tree_wf|]. apply respects_Unmount. Qed.
Hint Resolve respects_wf_Mkdir respects_wf_Mount respects_wf_Unmount : go.

Lemma respects_wf_NodePublish config req : respects wf_rel (NodePublishVolume (linuxNode config) req).
Proof.
  unfold NodePublishVolume, canMountVolume, mountVolume, volumeSource, mountFailed. simpl.
  respects_tac.
Qed.

Lemma respects_wf_NodeUnpublish config req : respects wf_rel (NodeUnpublishVolume (linuxNode config) req).
Proof. unfold NodeUnpublishVolume, unmountTarget, removeEphemeralPath. simpl. respects_tac. Qed.

Lemma quiet_NodeGetVolumeStats hpn req : respects quiet (NodeGetVolumeStats hpn req).
Proof. unfold NodeGetVolumeStats, deref, checkErr. respects_tac. apply respects_nodeHealth; apply _. Qed.

Lemma respects_wf_metric m : respects wf_rel (evaluateSharedPathMetric m).
Proof.
  unfold evaluateSharedPathMetric, poolShared. respects_tac; try (apply respects_shared; apply _).
  by intros w Hwf.
Qed.

Lemma respects_discard R `{!PreOrder R} {A} (m : M A) : respects R m → respects R (discard m).
Proof. intros. unfold discard. respects_tac. Qed.

Lemma respects_wf_serve hpc r : providers_safe hpc → respects wf_rel (serve hpc r).
Proof.
  intros Hsafe. destruct r; simpl; try (apply respects_discard; [apply _|]); eauto with go.
  - eapply respects_weaken; [apply quiet_wf|]. by apply quiet_ListSnapshots.
  - apply respects_wf_NodePublish.
  - apply respects_wf_NodeUnpublish.
  - eapply respects_weaken; [apply quiet_wf|]. apply quiet_NodeGetVolumeStats.
Qed.

Lemma respects_wf_step hpc w w' : providers_safe hpc → step hpc w w' → wf_rel w w'.
Proof. intros Hsafe [r ?|?]; [by apply respects_wf_serve|]. apply respects_wf_metric. Qed.
End wf.

(** From the start of the driver on any configuration, whatever requests are served, with
    any contents and under any faults, and however often the metric is evaluated in between, every
    state the driver reaches has a well-formed tree: the root is a directory and every entry sits in
    a directory under a proper name. *)
Theorem reachable_wf `{!Env, !FindMnt} config dataDir w0 hp w w' :
  wf_fs (w_fs w0) → NewHostPathDriver config None dataDir w0 = (Ret hp, w) →
  rtc (step (hp_controller hp)) w w' → wf_fs (w_fs w').
Proof.
  intros Hwf Hnew Hsteps. destruct (NewHostPathDriver_ret _ _ _ _ _ _ Hwf Hnew) as (Hwf1&Hsafe).
  clear Hnew. induction Hsteps as [|w1 w2 w3 Hs _ IH]; [done|]. apply IH. by eapply respects_wf_step.
Qed.

#[local] Existing Instance demoFindmnt.

Definition demoBuilt : hostPathController :=
  match (NewHostPathController demoConfig demoPools).1 with Ret h => h | _ => demoController end.

Lemma reachable_wf_witness :
  match NewHostPathDriver (pluginConfig "node1" "v1") None pluginDataDir (World (tree []) [] 0 0) with
  | (Ret hp, w) => wf_fs (w_fs (serve (hp_controller hp) (RDeleteVolume (Some "vol1")) w).2)
  | _ => False
  end.
Proof.
  assert (is_ret (NewHostPathDriver (pluginConfig "node1" "v1") None pluginDataDir (World (tree []) [] 0 0)).1 = true)
    as Hr by (vm_compute; reflexivity).
  destruct (NewHostPathDriver _ _ _ _) as [[hp|e|p] w] eqn:Hrun; [|discriminate Hr..].
  eapply reachable_wf; [|exact Hrun|apply rtc_once, step_serve]. by_wf.
Defined.

(** ** What the controller can reach *)

(** Requests of the controller whose names are plain file names. *)
Definition plain_rpc (r : rpc) : Prop :=
  match r with
  | RCreateVolume req => ∀ x, req = Some x → valid_name (cv_Name x)
  | RCreateSnapshot req => ∀ x, req = Some x → valid_name (cs_Name x) ∧ valid_name (cs_SourceVolumeId x)
  | RDeleteSnapshot req => ∀ id, req = Some id → valid_name id
  | RNodePublishVolume _ | RNodeUnpublishVolume _ | RNodeGetVolumeStats _ => False
  | _ => True
  end.

(** The paths a request may write to, and everything below them. *)
Definition footprint (config : Config) (r : rpc) : list GoPath.path :=
  match r with
  | RCreateVolume (Some x) =>
      match StoragePools config !! getStoragePoolNameFromMap (cv_Parameters x) with
      | Some info => [pool_root info ++ [cv_Name x]]
      | None => []
      end
  | RDeleteVolume (Some id) => (λ kv : string * StoragePoolInfo, pool_root kv.2 ++ [id]) <$> map_to_list (StoragePools config)
  | RCreateSnapshot (Some _) | RDeleteSnapshot (Some _) =>
      map_to_list (StoragePools config) ≫= λ kv, snap_roots kv.2
  | _ => []
  end.

(** A served request and what it may write to. *)
Inductive served `{!Env, !FindMnt} (hpc : hostPathController) (P : rpc → Prop) : world → world → Prop :=
  | served_rpc r w : plain_rpc r → P r → served hpc P w (serve hpc r w).2.

Section reach.
Context `{!Env, !FindMnt} (hpc : hostPathController) (Hsafe : providers_safe hpc).

Lemma confined_empty w w' : quiet w w' → confined [] w w'.
Proof. apply quiet_confined. Qed.

(** The same controller with its snapshot directories as the only roots. *)
Lemma provider_snap_safe pool p :
  snapshotproviders hpc !! pool = Some p →
  ProviderSafe (map_to_list (StoragePools (cfg hpc)) ≫= λ kv, snap_roots kv.2) p.
Proof.
  intros Hp. destruct (Hsafe pool p Hp) as (info&s&Hpool&Hs&?).
  eapply ProviderSafe_mono; [|done]. apply inside_elem, list_elem_of_bind. exists (pool, info).
  split; [|by apply elem_of_map_to_list]. simpl. unfold snap_roots. rewrite Hs. by apply list_elem_of_singleton.
Qed.

Lemma CreateSnapshot_footprint x :
  valid_name (cs_Name x) → valid_name (cs_SourceVolumeId x) →
  respects (confined (map_to_list (StoragePools (cfg hpc)) ≫= λ kv, snap_roots kv.2))
    (CreateSnapshot hpc (Some x)).
Proof.
  intros Hn Hs. unfold CreateSnapshot. apply respects_bind; [apply _|auto with go|intros []].
  apply respects_deref_bind; [apply _|]. intros ? [= <-]. respects_tac.
  - eapply @safe_init. by eapply provider_snap_safe.
  - eapply respects_weaken; [apply quiet_confined|]. eapply @safe_get. by eapply provider_snap_safe.
  - eapply @safe_create; [by eapply provider_snap_safe|done..].
Qed.

Lemma DeleteSnapshot_footprint id :
  valid_name id →
  respects (confined (map_to_list (StoragePools (cfg hpc)) ≫= λ kv, snap_roots kv.2))
    (DeleteSnapshot hpc (Some id)).
Proof.
  intros Hid. unfold DeleteSnapshot. case_match; [respects_tac|].
  apply respects_range_elems; [apply _..|]. intros l Hl. respects_tac.
  eapply @safe_delete; [|done]. eapply provider_snap_safe, Hl. eassumption.
Qed.

Lemma serve_discard {A} (m : M A) w : (discard m w).2 = (m w).2.
Proof. unfold discard, bind. by destruct (m w) as [[] ?]. Qed.

(** Every request stays within its footprint, whatever fails. *)
Lemma serve_footprint r w :
  wf_fs (w_fs w) → plain_rpc r → confined (footprint (cfg hpc) r) w (serve hpc r w).2.
Proof.
  intros Hwf Hplain. destruct r as [[x|]|id|req|params|req|id|[x|]|[id|]|req|req|req|req]; simpl in *;
    rewrite ?serve_discard.
  - specialize (Hplain x eq_refl).
    destruct (StoragePools (cfg hpc) !! getStoragePoolNameFromMap (cv_Parameters x)) as [info|] eqn:Hp.
    + unfold pool_root. rewrite <-resolve_Join by done. by apply respects_CreateVolume_own.
    + apply confined_empty. by apply quiet_CreateVolume_unknown.
  - by apply confined_empty.
  - destruct (DeleteVolume_frame hpc id w Hwf) as [Hq|(v&pool&info&->&Hv&Hp&_&Hc)]; [by apply quiet_confined|].
    eapply confined_mono; [|exact Hc]. apply inside_elem, list_elem_of_fmap.
    exists (pool, info). split; [done|]. by apply elem_of_map_to_list.
  - apply confined_empty, respects_ValidateVolumeCapabilities; apply _.
  - apply confined_empty, respects_GetCapacity; apply _.
  - apply confined_empty, respects_ListVolumes; apply _.
  - apply confined_empty, respects_ControllerGetVolume; apply _.
  - destruct (Hplain x eq_refl). by apply CreateSnapshot_footprint.
  - by apply confined_empty.
  - by apply DeleteSnapshot_footprint, Hplain.
  - by apply confined_empty.
  - by apply confined_empty, quiet_ListSnapshots.
  - done.
  - done.
  - done.
Qed.
End reach.

(** What is apart from the roots is untouched. *)
Lemma confined_apart roots p w w' k :
  confined roots w w' → unmounted roots w → (∀ q, q ∈ roots → apart p q) → p `prefix_of` k →
  w_fs w' !! k = w_fs w !! k.
Proof.
  intros [_ Hk] Hu Hap Hp. destruct (Hk Hu k) as [?|(_&_&Hpre)]; [|done|].
  - intros (q&Hq&Hqk)%Exists_exists. destruct (Hap q Hq) as [H1 H2].
    by destruct (prefix_weak_total p q k) as [?|?].
  - apply Exists_exists in Hpre as (q&Hq&Hkq). destruct (Hap q Hq) as [H1 _]. destruct H1. by trans k.
Qed.

Lemma unmounted_mounts roots w w' : w_mounts w' = w_mounts w → unmounted roots w → unmounted roots w'.
Proof. unfold unmounted. by intros ->. Qed.

(** A volume is isolated: no sequence of controller requests whose footprints are apart from
    it, with plain names and under any faults, changes anything in it, as long as nothing is
    mounted inside those footprints. The footprint of a request is the directory of the volume
    it creates or the directories of the name it deletes, and the snapshot directories for a
    request about snapshots. *)
Theorem volume_isolation `{!Env, !FindMnt} config w0 hpc p w w' :
  NewHostPathController config w0 = (Ret hpc, w) → wf_fs (w_fs w) →
  rtc (served hpc (λ r, (∀ q, q ∈ footprint config r → apart p q) ∧ unmounted (footprint config r) w)) w w' →
  w_mounts w' = w_mounts w ∧ ∀ rel, w_fs w' !! (p ++ rel) = w_fs w !! (p ++ rel).
Proof.
  intros Hnew Hwf Hsteps. pose proof (new_controller_safe _ _ _ _ Hnew) as Hsafe.
  assert (cfg hpc = config) as Hcfg.
  { pose proof (NewHostPathController_run config w0) as Hs. rewrite Hnew in Hs. apply Hs. }
  assert (∀ w1, w_mounts w1 = w_mounts w → wf_fs (w_fs w1) →
    rtc (served hpc (λ r, (∀ q, q ∈ footprint config r → apart p q) ∧ unmounted (footprint config r) w)) w1 w' →
    w_mounts w' = w_mounts w ∧ ∀ rel, w_fs w' !! (p ++ rel) = w_fs w1 !! (p ++ rel)) as Hgen; [|by apply Hgen].
  clear Hsteps. intros w1 Hm1 Hwf1 Hsteps. induction Hsteps as [|w1 w2 w3 [r wx Hplain [Hap Hu]] _ IH]; [done|].
  pose proof (serve_footprint hpc Hsafe r wx Hwf1 Hplain) as Hc. rewrite Hcfg in Hc.
  destruct IH as [Hm3 Hrel].
  - destruct Hc as [-> _]. done.
  - by apply respects_wf_serve.
  - split; [done|]. intros rel. rewrite Hrel. eapply confined_apart; [exact Hc| |exact Hap|by exists rel].
    by eapply unmounted_mounts.
Qed.

Lemma volume_isolation_witness :
  w_fs (serve demoBuilt (RDeleteVolume (Some "vol2")) (tickw demoPools)).2 !! ["data"; "vol1"; "disk.img"]
  = Some (NFile "abc").
Proof.
  destruct (volume_isolation demoConfig demoPools demoBuilt ["data"; "vol1"] (tickw demoPools)
    (serve demoBuilt (RDeleteVolume (Some "vol2")) (tickw demoPools)).2) as [_ Hrel];
    [reflexivity|by_wf| |].
  - apply rtc_once. constructor; [exact I|]. split.
    + apply Forall_forall. by_decide.
    + intros mp Hmp. by apply not_elem_of_nil in Hmp.
  - etransitivity; [exact (Hrel ["disk.img"])|]. vm_compute. reflexivity.
Defined.

Lemma confined_roots_mono roots roots' w w' :
  (∀ q, q ∈ roots → inside roots' q) → confined roots w w' → confined roots' w w'.
Proof.
  intros Hin [Hm Hk]. split; [done|]. intros Hu k Hout. destruct (Hk) with (k := k) as [?|(?&?&Hpre)].
  - intros mp Hmp (q&Hq&Hp)%Exists_exists. apply (Hu mp Hmp). eapply inside_below; [by apply Hin|done].
  - intros (q&Hq&Hp)%Exists_exists. apply Hout. eapply inside_below; [by apply Hin|done].
  - by left.
  - right. split_and!; [done..|]. apply Exists_exists in Hpre as (q&Hq&Hkq).
    destruct (proj1 (Exists_exists _ _) (Hin q Hq)) as (r&Hr&Hrq). apply Exists_exists. exists r. split; [done|].
    destruct (prefix_weak_total k r q) as [|Hrk]; [done..|]. exfalso. apply Hout, Exists_exists. eauto.
Qed.

Lemma footprint_inside config r q :
  q ∈ footprint config r → inside (cfg_roots config) q.
Proof.
  destruct r as [[x|]|[id|]|req|params|req|id|[x|]|[id|]|req|req|req|req]; simpl; try by intros ?%not_elem_of_nil.
  - destruct (StoragePools config !! _) as [info|] eqn:Hp; [|by intros ?%not_elem_of_nil].
    intros ->%list_elem_of_singleton. eapply inside_below; [by eapply pool_inside|]. by exists [cv_Name x].
  - intros ([pool info]&->&Hin)%list_elem_of_fmap. apply elem_of_map_to_list in Hin.
    eapply inside_below; [by eapply pool_inside|]. by exists [id].
  - intros ([pool info]&Hq&Hin)%list_elem_of_bind. apply elem_of_map_to_list in Hin.
    apply inside_elem, elem_of_cfg_roots. exists pool, info. auto.
  - intros ([pool info]&Hq&Hin)%list_elem_of_bind. apply elem_of_map_to_list in Hin.
    apply inside_elem, elem_of_cfg_roots. exists pool, info. auto.
Qed.

(** No sequence of controller requests with plain names, under any faults, changes anything
    outside the configured pools and snapshot directories, or the mount table, as long as
    nothing is mounted inside them. *)
Theorem controller_confined `{!Env, !FindMnt} config w0 hpc w w' :
  NewHostPathController config w0 = (Ret hpc, w) → wf_fs (w_fs w) →
  rtc (served hpc (λ _, True)) w w' → confined (cfg_roots config) w w'.
Proof.
  intros Hnew Hwf Hsteps. pose proof (new_controller_safe _ _ _ _ Hnew) as Hsafe.
  assert (cfg hpc = config) as Hcfg.
  { pose proof (NewHostPathController_run config w0) as Hs. rewrite Hnew in Hs. apply Hs. }
  clear Hnew. induction Hsteps as [|w1 w2 w3 [r wx Hplain _] _ IH]; [reflexivity|].
  etransitivity; [|apply IH; by apply respects_wf_serve].
  eapply confined_roots_mono; [|by apply serve_footprint]. rewrite Hcfg. by apply footprint_inside.
Qed.

Lemma controller_confined_witness :
  confined (cfg_roots demoConfig) (tickw demoPools)
    (serve demoBuilt (RCreateVolume (Some (demoRequest "new"))) (tickw demoPools)).2.
Proof.
  apply (controller_confined demoConfig demoPools demoBuilt); [reflexivity|by_wf|].
  apply rtc_once. constructor; [|exact I]. intros x [= <-]. by_decide.
Defined.
