(* ===== verification/WorkQueue.v ===== *)
(** * The work queues of the provision controller

    The queue of k8s.io/client-go/util/workqueue the controllers are built on:
    a key that is added while it waits is not added twice, and a key that is
    added while a worker has it comes back when the worker is done. The rate
    limiter counts failures per key; a key that was added with a delay waits
    until its time has come. *)
From S2P Require Import Prelude.

Record queue := {
  q_queue : list string;
  q_dirty : gset string;
  q_processing : gset string;
  q_waiting : gset string;
}.

Definition emptyQueue : queue := {| q_queue := []; q_dirty := ∅; q_processing := ∅; q_waiting := ∅ |}.

Definition Add (item : string) (q : queue) : queue :=
  if decide (item ∈ q_dirty q) then q
  else {| q_queue := if decide (item ∈ q_processing q) then q_queue q else q_queue q ++ [item];
          q_dirty := {[ item ]} ∪ q_dirty q;
          q_processing := q_processing q; q_waiting := q_waiting q |}.

(** [None]: the worker waits for an item. *)
Definition Get (q : queue) : option (string * queue) :=
  match q_queue q with
  | [] => None
  | item :: rest =>
      Some (item, {| q_queue := rest; q_dirty := q_dirty q ∖ {[ item ]};
                     q_processing := {[ item ]} ∪ q_processing q; q_waiting := q_waiting q |})
  end.

Definition Done (item : string) (q : queue) : queue :=
  {| q_queue := if decide (item ∈ q_dirty q) then q_queue q ++ [item] else q_queue q;
     q_dirty := q_dirty q; q_processing := q_processing q ∖ {[ item ]}; q_waiting := q_waiting q |}.

(** [AddAfter] with a delay, and the moment the delay is over. *)
Definition AddAfter (item : string) (q : queue) : queue :=
  {| q_queue := q_queue q; q_dirty := q_dirty q; q_processing := q_processing q;
     q_waiting := {[ item ]} ∪ q_waiting q |}.
Definition fire (item : string) (q : queue) : queue :=
  Add item {| q_queue := q_queue q; q_dirty := q_dirty q; q_processing := q_processing q;
              q_waiting := q_waiting q ∖ {[ item ]} |}.

(** The failure counts of a rate limiter. *)
Abbreviation limiter := (gmap string nat).
Definition NumRequeues (item : string) (l : limiter) : nat := default 0%nat (l !! item).
Definition When (item : string) (l : limiter) : limiter := <[item := S (NumRequeues item l)]> l.
Definition Forget (item : string) (l : limiter) : limiter := delete item l.

(** ** The protocol of the workers *)

Inductive queue_op : Type :=
  | OpAdd (item : string)
  | OpGet
  | OpDone (item : string)
  | OpAddAfter (item : string)
  | OpFire (item : string).

Definition run_op (op : queue_op) (q : queue) : queue :=
  match op with
  | OpAdd item => Add item q
  | OpGet => match Get q with Some (_, q') => q' | None => q end
  | OpDone item => Done item q
  | OpAddAfter item => AddAfter item q
  | OpFire item => fire item q
  end.

(** A worker is done with a key it has, and a delay ends for a key that waits. *)
Definition allowed (op : queue_op) (q : queue) : Prop :=
  match op with
  | OpDone item => item ∈ q_processing q
  | OpFire item => item ∈ q_waiting q
  | _ => True
  end.

Inductive queue_step : queue → queue → Prop :=
  | queue_step_op op q : allowed op q → queue_step q (run_op op q).

(** No key is queued twice, and what is queued is what is to be processed and
    that no worker has. *)
Record queue_ok (q : queue) : Prop := {
  qo_nodup : NoDup (q_queue q);
  qo_items : ∀ x, x ∈ q_queue q ↔ x ∈ q_dirty q ∧ x ∉ q_processing q;
}.

Lemma emptyQueue_ok : queue_ok emptyQueue.
Proof. split; [constructor|]. simpl. set_solver. Qed.

Lemma Add_ok item q : queue_ok q → queue_ok (Add item q).
Proof.
  intros [Hnd Hit]. unfold Add. case_decide as Hd; [done|]. split; simpl.
  - case_decide as Hp; [done|]. apply NoDup_app. split_and!; [done| |apply NoDup_singleton].
    intros x Hx ->%list_elem_of_singleton. apply Hit in Hx as [??]. done.
  - intros x. specialize (Hit x). rewrite elem_of_union, elem_of_singleton.
    case_decide as Hp; rewrite ?elem_of_app, ?list_elem_of_singleton, Hit; destruct (decide (x = item)) as [->|]; tauto.
Qed.

Lemma Get_ok q item q' : queue_ok q → Get q = Some (item, q') → queue_ok q'.
Proof.
  intros [Hnd Hit]. unfold Get. destruct (q_queue q) as [|i rest]; [done|]. intros [= -> <-].
  apply NoDup_cons in Hnd as [Hi Hnd]. split; simpl; [done|]. intros x. specialize (Hit x).
  rewrite elem_of_cons in Hit. rewrite elem_of_difference, elem_of_union, elem_of_singleton.
  destruct (decide (x = item)) as [->|]; tauto.
Qed.

Lemma Done_ok item q : queue_ok q → item ∈ q_processing q → queue_ok (Done item q).
Proof.
  intros [Hnd Hit] Hp. unfold Done. split; simpl.
  - case_decide as Hd; [|done]. apply NoDup_app. split_and!; [done| |apply NoDup_singleton].
    intros x Hx ->%list_elem_of_singleton. by apply Hit in Hx as [??].
  - intros x. specialize (Hit x). rewrite elem_of_difference, elem_of_singleton.
    case_decide as Hd; rewrite ?elem_of_app, ?list_elem_of_singleton, Hit; destruct (decide (x = item)) as [->|]; tauto.
Qed.

Lemma run_op_ok op q : allowed op q → queue_ok q → queue_ok (run_op op q).
Proof.
  intros Ha Hok. destruct op as [i| |i|i|i]; simpl in *.
  - by apply Add_ok.
  - destruct (Get q) as [[i q']|] eqn:Hg; [|done]. by eapply Get_ok.
  - by apply Done_ok.
  - by destruct Hok.
  - apply Add_ok. by destruct Hok.
Qed.

(** ** Keys that are not forgotten *)

(** The key is in a queue, waits for its delay, or is being processed. *)
Definition active (q : queue) (x : string) : Prop := x ∈ q_waiting q ∨ x ∈ q_dirty q ∨ x ∈ q_processing q.

Lemma active_Add i q x : active q x → active (Add i q) x.
Proof. unfold active, Add. case_decide; [done|]. simpl. set_solver. Qed.
Lemma active_Get q i q' x : Get q = Some (i, q') → active q x → active q' x.
Proof.
  unfold active, Get. destruct (q_queue q); [done|]. intros [= -> <-]. simpl.
  rewrite elem_of_difference, elem_of_union, elem_of_singleton. destruct (decide (x = i)); tauto.
Qed.
Lemma active_Done i q x : active q x → x = i ∨ active (Done i q) x.
Proof.
  unfold active, Done. simpl. rewrite elem_of_difference, elem_of_singleton.
  destruct (decide (x = i)); tauto.
Qed.
Lemma active_AddAfter i q x : x = i ∨ active q x → active (AddAfter i q) x.
Proof. unfold active, AddAfter. simpl. rewrite elem_of_union, elem_of_singleton. tauto. Qed.
Lemma active_Done_AddAfter i q x : x = i ∨ active q x → active (Done i (AddAfter i q)) x.
Proof.
  intros Hx. destruct (active_Done i (AddAfter i q) x) as [->|]; [by apply active_AddAfter| |done].
  left. simpl. apply elem_of_union_l, elem_of_singleton. done.
Qed.
Lemma active_fire i q x : active q x → active (fire i q) x.
Proof.
  intros Hx. unfold fire. destruct (decide (x = i)) as [->|Hne].
  - unfold active, Add. simpl. case_decide; simpl; [tauto|]. set_solver.
  - apply active_Add. unfold active in *. simpl. rewrite elem_of_difference, elem_of_singleton. tauto.
Qed.

(** Delays that end and workers that take what is next get to any active key. *)
Inductive queue_move : queue → queue → Prop :=
  | move_fire x q : x ∈ q_waiting q → queue_move q (fire x q)
  | move_take x q q' : Get q = Some (x, q') → queue_move q q'.

Lemma queued_served key l : ∀ rest q,
  q_queue q = l ++ key :: rest → ∃ q', rtc queue_move q q' ∧ key ∈ q_processing q'.
Proof.
  induction l as [|x l IH]; intros rest q Hq.
  - eexists. split; [apply rtc_once, (move_take key); unfold Get; by rewrite Hq|]. set_solver.
  - assert (∃ q', Get q = Some (x, q') ∧ q_queue q' = l ++ key :: rest) as (q1&Hg&Hq1)
      by (unfold Get; rewrite Hq; by eexists).
    destruct (IH rest q1 Hq1) as (q2&Hs&Hp). exists q2. split; [|done]. eapply rtc_l; [by eapply move_take|done].
Qed.

Lemma dirty_served key q :
  queue_ok q → key ∈ q_dirty q → ∃ q', rtc queue_move q q' ∧ key ∈ q_processing q'.
Proof.
  intros Hok Hd. destruct (decide (key ∈ q_processing q)) as [Hp|Hp]; [by exists q|].
  assert (key ∈ q_queue q) as Hin by by apply (qo_items _ Hok).
  apply list_elem_of_split in Hin as (l&rest&Hl). by eapply queued_served.
Qed.

Lemma active_served key q :
  queue_ok q → active q key → ∃ q', rtc queue_move q q' ∧ key ∈ q_processing q'.
Proof.
  intros Hok [Hw|[Hd|Hp]]; [|by apply dirty_served|by exists q].
  destruct (dirty_served key (fire key q)) as (q'&Hs&Hin).
  - by apply (run_op_ok (OpFire key)).
  - unfold fire, Add. simpl. case_decide; simpl; [done|]. set_solver.
  - exists q'. split; [|done]. eapply rtc_l; [by apply move_fire|done].
Qed.
