(* ===== verification/Kube.v ===== *)
(** * The Kubernetes objects of the out-of-tree provisioner and its controller

    The fields of claims, volumes and storage classes that
    cmd/provisioner/hostpath-provisioner.go and src/controller read or fill,
    the API server as the controller sees it, and the state the controller
    keeps. *)
From S2P Require Import Prelude GoStrings GoPath GoErrors OS OSFacts WorkQueue.
Open Scope Z_scope.

(** [resource.Quantity], in units of 10^-9, the finest a quantity can have. *)
Abbreviation Quantity := Z (only parsing).
Definition nano : Z := 1000000000.

(** [resource.NewQuantity]. *)
Definition NewQuantity (value : Z) : Quantity := value * nano.

(** [q.Cmp(r) < 0]. *)
Definition CmpLess (q r : Quantity) : bool := q <? r.

Inductive VolumeBindingMode : Type := VolumeBindingImmediate | VolumeBindingWaitForFirstConsumer.

#[export] Instance VolumeBindingMode_eq_dec : EqDecision VolumeBindingMode.
Proof. solve_decision. Defined.

(** A claim. *)
Record PersistentVolumeClaim := {
  pvc_Namespace : string;
  pvc_Name : string;
  pvc_UID : string;
  pvc_Annotations : gmap string string;
  pvc_StorageRequest : option Quantity;
  pvc_VolumeName : string;
  pvc_StorageClassName : option string;
  pvc_Block : bool;
}.

Definition set_annotations (a : gmap string string) (c : PersistentVolumeClaim) : PersistentVolumeClaim :=
  {| pvc_Namespace := pvc_Namespace c; pvc_Name := pvc_Name c; pvc_UID := pvc_UID c;
     pvc_Annotations := a; pvc_StorageRequest := pvc_StorageRequest c;
     pvc_VolumeName := pvc_VolumeName c; pvc_StorageClassName := pvc_StorageClassName c;
     pvc_Block := pvc_Block c |}.

Inductive ReclaimPolicy : Type := PersistentVolumeReclaimDelete | PersistentVolumeReclaimRetain.
Inductive AccessMode : Type := ReadWriteOnce | ReadOnlyMany | ReadWriteMany.
Inductive VolumePhase : Type := VolumePending | VolumeAvailable | VolumeBound | VolumeReleased | VolumeFailed.

#[export] Instance ReclaimPolicy_eq_dec : EqDecision ReclaimPolicy.
Proof. solve_decision. Defined.
#[export] Instance VolumePhase_eq_dec : EqDecision VolumePhase.
Proof. solve_decision. Defined.

(** A required node term: the key must have one of the values. *)
Record NodeRequirement := { nr_Key : string; nr_Values : list string }.

(** A reference to a claim. *)
Record ObjectReference := { or_Namespace : string; or_Name : string; or_UID : string }.

(** [pv_Deleting]: the deletion timestamp is set. *)
Record PersistentVolume := {
  pv_Name : string;
  pv_Annotations : gmap string string;
  pv_Finalizers : list string;
  pv_Deleting : bool;
  pv_Phase : VolumePhase;
  pv_ClaimRef : option ObjectReference;
  pv_StorageClassName : string;
  pv_ReclaimPolicy : ReclaimPolicy;
  pv_AccessModes : list AccessMode;
  pv_Capacity : Quantity;
  pv_HostPath : option string;
  pv_NodeAffinity : list NodeRequirement;
}.

Record StorageClass := {
  sc_Name : string;
  sc_Provisioner : string;
  sc_VolumeBindingMode : option VolumeBindingMode;
}.

(** What the class cache may hold: a class of storage.k8s.io/v1, or of v1beta1
    with the same fields, or something else. *)
Inductive classObject : Type :=
  | ClassV1 (class : StorageClass)
  | ClassV1beta1 (class : StorageClass)
  | ClassOther (printed : string).

(** An object as an informer hands it over: an object with its metadata, a
    tombstone of a deleted one, with its key and the last known object if it
    is one, or something else. *)
Record ObjectMeta := { om_Namespace : string; om_Name : string; om_UID : string }.
Inductive informerObj : Type :=
  | Object (meta : ObjectMeta)
  | DeletedFinalStateUnknown (Key : string) (obj : option ObjectMeta)
  | OtherObj.

(** [cache.DeletionHandlingMetaNamespaceKeyFunc]. *)
Definition DeletionHandlingMetaNamespaceKeyFunc (obj : informerObj) : gerror + string :=
  match obj with
  | DeletedFinalStateUnknown key _ => inr key
  | Object m => inr (if decide (om_Namespace m = "") then om_Name m else om_Namespace m +:+ "/" +:+ om_Name m)
  | OtherObj => inl (ErrorString "object has no meta: object does not implement the Object interfaces")
  end.

(** [controller.ProvisionOptions]; a node is represented by its name. *)
Record ProvisionOptions := {
  po_StorageClass : StorageClass;
  po_PVName : string;
  po_PVC : PersistentVolumeClaim;
  po_SelectedNode : option string;
}.

(** ** The state of the controller *)

Record event := { ev_Warning : bool; ev_Reason : string; ev_Message : string }.

(** The operating system of the node; the volumes the API server holds; the
    claims as shared objects, the caches of the informers that point to them
    (claims by UID) or hold them, the claims in progress; the queues with their
    rate limiters, the volumes that could not be saved yet; the events that
    were recorded and a counter of API calls. *)
Record kworld := {
  kw_os : world;
  kw_pvs : gmap string PersistentVolume;
  kw_heap : gmap nat PersistentVolumeClaim;
  kw_claims : gmap string nat;
  kw_volumes : gmap string PersistentVolume;
  kw_classes : gmap string classObject;
  kw_inProgress : gmap string nat;
  kw_claimQueue : queue;
  kw_volumeQueue : queue;
  kw_limiter : limiter;
  kw_saveQueue : queue;
  kw_saveLimiter : limiter;
  kw_unsaved : gmap string PersistentVolume;
  kw_events : list event;
  kw_calls : nat;
}.

Abbreviation K := (GoM kworld gerror).

Definition set_os (x : world) (k : kworld) : kworld :=
  {| kw_os := x; kw_pvs := kw_pvs k; kw_heap := kw_heap k; kw_claims := kw_claims k; kw_volumes :=
     kw_volumes k; kw_classes := kw_classes k; kw_inProgress := kw_inProgress k; kw_claimQueue :=
     kw_claimQueue k; kw_volumeQueue := kw_volumeQueue k; kw_limiter := kw_limiter k; kw_saveQueue :=
     kw_saveQueue k; kw_saveLimiter := kw_saveLimiter k; kw_unsaved := kw_unsaved k; kw_events :=
     kw_events k; kw_calls := kw_calls k |}.
Definition set_pvs (x : gmap string PersistentVolume) (k : kworld) : kworld :=
  {| kw_os := kw_os k; kw_pvs := x; kw_heap := kw_heap k; kw_claims := kw_claims k; kw_volumes :=
     kw_volumes k; kw_classes := kw_classes k; kw_inProgress := kw_inProgress k; kw_claimQueue :=
     kw_claimQueue k; kw_volumeQueue := kw_volumeQueue k; kw_limiter := kw_limiter k; kw_saveQueue :=
     kw_saveQueue k; kw_saveLimiter := kw_saveLimiter k; kw_unsaved := kw_unsaved k; kw_events :=
     kw_events k; kw_calls := kw_calls k |}.
Definition set_heap (x : gmap nat PersistentVolumeClaim) (k : kworld) : kworld :=
  {| kw_os := kw_os k; kw_pvs := kw_pvs k; kw_heap := x; kw_claims := kw_claims k; kw_volumes :=
     kw_volumes k; kw_classes := kw_classes k; kw_inProgress := kw_inProgress k; kw_claimQueue :=
     kw_claimQueue k; kw_volumeQueue := kw_volumeQueue k; kw_limiter := kw_limiter k; kw_saveQueue :=
     kw_saveQueue k; kw_saveLimiter := kw_saveLimiter k; kw_unsaved := kw_unsaved k; kw_events :=
     kw_events k; kw_calls := kw_calls k |}.
Definition set_inProgress (x : gmap string nat) (k : kworld) : kworld :=
  {| kw_os := kw_os k; kw_pvs := kw_pvs k; kw_heap := kw_heap k; kw_claims := kw_claims k;
     kw_volumes := kw_volumes k; kw_classes := kw_classes k; kw_inProgress := x; kw_claimQueue :=
     kw_claimQueue k; kw_volumeQueue := kw_volumeQueue k; kw_limiter := kw_limiter k; kw_saveQueue :=
     kw_saveQueue k; kw_saveLimiter := kw_saveLimiter k; kw_unsaved := kw_unsaved k; kw_events :=
     kw_events k; kw_calls := kw_calls k |}.
Definition set_claimQueue (x : queue) (k : kworld) : kworld :=
  {| kw_os := kw_os k; kw_pvs := kw_pvs k; kw_heap := kw_heap k; kw_claims := kw_claims k;
     kw_volumes := kw_volumes k; kw_classes := kw_classes k; kw_inProgress := kw_inProgress k;
     kw_claimQueue := x; kw_volumeQueue := kw_volumeQueue k; kw_limiter := kw_limiter k; kw_saveQueue
     := kw_saveQueue k; kw_saveLimiter := kw_saveLimiter k; kw_unsaved := kw_unsaved k; kw_events :=
     kw_events k; kw_calls := kw_calls k |}.
Definition set_volumeQueue (x : queue) (k : kworld) : kworld :=
  {| kw_os := kw_os k; kw_pvs := kw_pvs k; kw_heap := kw_heap k; kw_claims := kw_claims k;
     kw_volumes := kw_volumes k; kw_classes := kw_classes k; kw_inProgress := kw_inProgress k;
     kw_claimQueue := kw_claimQueue k; kw_volumeQueue := x; kw_limiter := kw_limiter k; kw_saveQueue
     := kw_saveQueue k; kw_saveLimiter := kw_saveLimiter k; kw_unsaved := kw_unsaved k; kw_events :=
     kw_events k; kw_calls := kw_calls k |}.
Definition set_limiter (x : limiter) (k : kworld) : kworld :=
  {| kw_os := kw_os k; kw_pvs := kw_pvs k; kw_heap := kw_heap k; kw_claims := kw_claims k;
     kw_volumes := kw_volumes k; kw_classes := kw_classes k; kw_inProgress := kw_inProgress k;
     kw_claimQueue := kw_claimQueue k; kw_volumeQueue := kw_volumeQueue k; kw_limiter := x;
     kw_saveQueue := kw_saveQueue k; kw_saveLimiter := kw_saveLimiter k; kw_unsaved := kw_unsaved k;
     kw_events := kw_events k; kw_calls := kw_calls k |}.
Definition set_saveQueue (x : queue) (k : kworld) : kworld :=
  {| kw_os := kw_os k; kw_pvs := kw_pvs k; kw_heap := kw_heap k; kw_claims := kw_claims k;
     kw_volumes := kw_volumes k; kw_classes := kw_classes k; kw_inProgress := kw_inProgress k;
     kw_claimQueue := kw_claimQueue k; kw_volumeQueue := kw_volumeQueue k; kw_limiter := kw_limiter
     k; kw_saveQueue := x; kw_saveLimiter := kw_saveLimiter k; kw_unsaved := kw_unsaved k; kw_events
     := kw_events k; kw_calls := kw_calls k |}.
Definition set_saveLimiter (x : limiter) (k : kworld) : kworld :=
  {| kw_os := kw_os k; kw_pvs := kw_pvs k; kw_heap := kw_heap k; kw_claims := kw_claims k;
     kw_volumes := kw_volumes k; kw_classes := kw_classes k; kw_inProgress := kw_inProgress k;
     kw_claimQueue := kw_claimQueue k; kw_volumeQueue := kw_volumeQueue k; kw_limiter := kw_limiter
     k; kw_saveQueue := kw_saveQueue k; kw_saveLimiter := x; kw_unsaved := kw_unsaved k; kw_events :=
     kw_events k; kw_calls := kw_calls k |}.
Definition set_unsaved (x : gmap string PersistentVolume) (k : kworld) : kworld :=
  {| kw_os := kw_os k; kw_pvs := kw_pvs k; kw_heap := kw_heap k; kw_claims := kw_claims k;
     kw_volumes := kw_volumes k; kw_classes := kw_classes k; kw_inProgress := kw_inProgress k;
     kw_claimQueue := kw_claimQueue k; kw_volumeQueue := kw_volumeQueue k; kw_limiter := kw_limiter
     k; kw_saveQueue := kw_saveQueue k; kw_saveLimiter := kw_saveLimiter k; kw_unsaved := x;
     kw_events := kw_events k; kw_calls := kw_calls k |}.
Definition set_events (x : list event) (k : kworld) : kworld :=
  {| kw_os := kw_os k; kw_pvs := kw_pvs k; kw_heap := kw_heap k; kw_claims := kw_claims k;
     kw_volumes := kw_volumes k; kw_classes := kw_classes k; kw_inProgress := kw_inProgress k;
     kw_claimQueue := kw_claimQueue k; kw_volumeQueue := kw_volumeQueue k; kw_limiter := kw_limiter
     k; kw_saveQueue := kw_saveQueue k; kw_saveLimiter := kw_saveLimiter k; kw_unsaved := kw_unsaved
     k; kw_events := x; kw_calls := kw_calls k |}.
Definition set_calls (x : nat) (k : kworld) : kworld :=
  {| kw_os := kw_os k; kw_pvs := kw_pvs k; kw_heap := kw_heap k; kw_claims := kw_claims k;
     kw_volumes := kw_volumes k; kw_classes := kw_classes k; kw_inProgress := kw_inProgress k;
     kw_claimQueue := kw_claimQueue k; kw_volumeQueue := kw_volumeQueue k; kw_limiter := kw_limiter
     k; kw_saveQueue := kw_saveQueue k; kw_saveLimiter := kw_saveLimiter k; kw_unsaved := kw_unsaved
     k; kw_events := kw_events k; kw_calls := x |}.

(** A program of the operating system run by the controller. *)
Definition lift {A} (m : M A) : K A := λ k,
  let '(o, w) := m (kw_os k) in (o, set_os w k).

(** [eventRecorder.Event]. *)
Definition Event (warning : bool) (reason message : string) : K unit :=
  modify (λ k, set_events ({| ev_Warning := warning; ev_Reason := reason; ev_Message := message |} :: kw_events k) k).

(** ** The API server *)

Inductive apicall : Type := ApiGetPV | ApiCreatePV | ApiDeletePV | ApiUpdatePV | ApiGetNode.

(** Any call may fail; a call that changes something may have taken effect
    although it failed ([api_fault] says so with [true]). Nodes and object
    references are looked up in libraries. *)
Class Api := {
  api_fault : nat → apicall → string → option (gerror * bool);
  node_exists : nat → string → bool;
  GetReference : PersistentVolumeClaim → gerror + ObjectReference;
}.

Section api.
Context `{!Api}.

(** One call: what it does when it works, and its result. *)
Definition api {A} (c : apicall) (name : string) (f : kworld → outcome gerror A * kworld) : K A := λ k,
  let next (k' : kworld) := set_calls (S (kw_calls k)) k' in
  match api_fault (kw_calls k) c name with
  | Some (e, applied) => (Fail e, next (if (applied : bool) then (f k).2 else k))
  | None => let '(o, k') := f k in (o, next k')
  end.

Definition notFound (name : string) : gerror := ApiError ApiNotFound (name +:+ " not found").

Definition pv_get (name : string) : K PersistentVolume := api ApiGetPV name (λ k,
  (match kw_pvs k !! name with Some pv => Ret pv | None => Fail (notFound name) end, k)).

Definition pv_create (pv : PersistentVolume) : K unit := api ApiCreatePV (pv_Name pv) (λ k,
  match kw_pvs k !! pv_Name pv with
  | Some _ => (Fail (ApiError ApiAlreadyExists (pv_Name pv +:+ " already exists")), k)
  | None => (Ret tt, set_pvs (<[pv_Name pv := pv]> (kw_pvs k)) k)
  end).

Definition set_pv_meta (finalizers : list string) (deleting : bool) (v : PersistentVolume) : PersistentVolume :=
  {| pv_Name := pv_Name v; pv_Annotations := pv_Annotations v; pv_Finalizers := finalizers;
     pv_Deleting := deleting; pv_Phase := pv_Phase v; pv_ClaimRef := pv_ClaimRef v;
     pv_StorageClassName := pv_StorageClassName v; pv_ReclaimPolicy := pv_ReclaimPolicy v;
     pv_AccessModes := pv_AccessModes v; pv_Capacity := pv_Capacity v; pv_HostPath := pv_HostPath v;
     pv_NodeAffinity := pv_NodeAffinity v |}.

(** An object with finalizers is only marked. *)
Definition pv_delete (name : string) : K unit := api ApiDeletePV name (λ k,
  match kw_pvs k !! name with
  | None => (Fail (notFound name), k)
  | Some pv =>
      (Ret tt, set_pvs (match pv_Finalizers pv with
                        | [] => delete name (kw_pvs k)
                        | fs => <[name := set_pv_meta fs true pv]> (kw_pvs k)
                        end) k)
  end).

(** Taking the last finalizer of a marked object away removes it. *)
Definition pv_update (pv : PersistentVolume) : K unit := api ApiUpdatePV (pv_Name pv) (λ k,
  match kw_pvs k !! pv_Name pv with
  | None => (Fail (notFound (pv_Name pv)), k)
  | Some _ =>
      (Ret tt, set_pvs (if pv_Deleting pv && bool_decide (pv_Finalizers pv = [])
                        then delete (pv_Name pv) (kw_pvs k)
                        else <[pv_Name pv := pv]> (kw_pvs k)) k)
  end).

Definition node_get (name : string) : K string := api ApiGetNode name (λ k,
  (if node_exists (kw_calls k) name then Ret name else Fail (notFound name), k)).
End api.
