(* ===== verification/Provisioner.v ===== *)
(** * cmd/provisioner/hostpath-provisioner.go

    The out-of-tree provisioner: which claims it takes, the directory it makes
    for a volume and the volume object it returns, and the removal of both. *)
From S2P Require Import Prelude GoStrings GoPath GoErrors OS OSFacts Demo Json Utils Kube.
Open Scope Z_scope.

Definition defaultProvisionerName : string := "kubevirt.io/hostpath-provisioner".
Definition annStorageProvisioner : string := "volume.beta.kubernetes.io/storage-provisioner".
Definition annProvisionOnNode : string := "kubevirt.io/provisionOnNode".
Definition annSelectedNode : string := "volume.kubernetes.io/selected-node".
Definition annIdentity : string := "hostPathProvisionerIdentity".

Record hostPathProvisioner := {
  pvDir : string;
  identity : string;
  nodeName : string;
  useNamingPrefix : bool;
}.

(** The environment variables that are read; [glog.Fatal] ends the process. *)
Record ProvisionerEnv := { NODE_NAME : string; PV_DIR : string; USE_NAMING_PREFIX : string }.

Definition NewHostPathProvisioner (env : ProvisionerEnv) : outcome gerror hostPathProvisioner :=
  if decide (NODE_NAME env = "")
  then Panic "env variable NODE_NAME must be set so that this provisioner can identify itself"
  else if decide (PV_DIR env = "")
  then Panic "env variable PV_DIR must be set so that this provisioner knows where to place its data"
  else Ret {| pvDir := PV_DIR env; identity := "kubevirt.io/hostpath-provisioner";
              nodeName := NODE_NAME env;
              useNamingPrefix := bool_decide (ToLower (USE_NAMING_PREFIX env) = "true") |}.

(** ** Which claims are taken *)

Definition isCorrectNode (annotations : gmap string string) (nodeName annotationName : string) : bool :=
  match annotations !! annotationName with
  | Some val => bool_decide (val = nodeName)
  | None => false
  end.

(** The annotations are the claim's own map: the caller sees the change. *)
Definition isCorrectNodeByBindingMode (annotations : gmap string string) (nodeName : string)
    (bindingMode : VolumeBindingMode) : bool * gmap string string :=
  match annotations !! annProvisionOnNode with
  | Some _ =>
      if isCorrectNode annotations nodeName annProvisionOnNode
      then (true, <[annStorageProvisioner := defaultProvisionerName]> annotations)
      else (false, annotations)
  | None =>
      if decide (bindingMode = VolumeBindingWaitForFirstConsumer)
      then (isCorrectNode annotations nodeName annSelectedNode, annotations)
      else (false, annotations)
  end.

Definition roundDownCapacityPretty (capacityBytes : Z) : Z := roundDown_units [gib; mib] capacityBytes.

Section ops.
Context `{!Env}.

Definition calculatePvCapacity (path : string) : M Quantity :=
  st <- unix_Statfs path ;;
  ret (NewQuantity (roundDownCapacityPretty (int64 (int64 (Blocks st) * int64 (Bsize st))))).

(** The verdict and the claim as it is left; a nil binding mode is
    dereferenced. *)
Definition ShouldProvision (p : hostPathProvisioner) (pvc : PersistentVolumeClaim)
    (bindingMode : option VolumeBindingMode) : M (bool * PersistentVolumeClaim) :=
  match bindingMode with
  | None => panic "invalid memory address or nil pointer dereference"
  | Some mode =>
      let '(shouldProvision, annotations) := isCorrectNodeByBindingMode (pvc_Annotations pvc) (nodeName p) mode in
      let pvc := set_annotations annotations pvc in
      if (shouldProvision : bool) then
        r <- try (calculatePvCapacity (pvDir p)) ;;
        ret (match r with
             | inl pvCapacity => negb (CmpLess pvCapacity (default 0 (pvc_StorageRequest pvc)))
             | inr err => false
             end, pvc)
      else ret (false, pvc)
  end.

(** ** Provisioning and deleting *)

Definition backingPath (p : hostPathProvisioner) (options : ProvisionOptions) : string :=
  if useNamingPrefix p then Join [pvDir p; pvc_Name (po_PVC options) +:+ "-" +:+ po_PVName options]
  else Join [pvDir p; po_PVName options].

Definition Provision (p : hostPathProvisioner) (options : ProvisionOptions) : M PersistentVolume :=
  let vPath := backingPath p options in
  pvCapacity <- calculatePvCapacity (pvDir p) ;;
  os_MkdirAll vPath >>
  ret {| pv_Name := po_PVName options;
         pv_Annotations := {[ annIdentity := identity p; annProvisionOnNode := nodeName p ]};
         pv_Finalizers := []; pv_Deleting := false; pv_Phase := VolumePending; pv_ClaimRef := None;
         pv_StorageClassName := "";
         pv_ReclaimPolicy := PersistentVolumeReclaimDelete;
         pv_AccessModes := [ReadWriteOnce];
         pv_Capacity := pvCapacity;
         pv_HostPath := Some vPath;
         pv_NodeAffinity := [ {| nr_Key := "kubernetes.io/hostname"; nr_Values := [nodeName p] |} ] |}.

(** A volume without a host path is dereferenced. *)
Definition Delete (p : hostPathProvisioner) (volume : PersistentVolume) : M unit :=
  match pv_Annotations volume !! annIdentity with
  | None => fail (ErrorString "identity annotation not found on PV")
  | Some ann =>
      if decide (ann = identity p) then
        if isCorrectNode (pv_Annotations volume) (nodeName p) annProvisionOnNode then
          match pv_HostPath volume with
          | None => panic "invalid memory address or nil pointer dereference"
          | Some path => os_RemoveAll path
          end
        else fail (IgnoredError "identity annotation on pvc does not match ours, not deleting PV")
      else fail (IgnoredError "identity annotation on PV does not match ours")
  end.
End ops.

(** ** Facts *)

(** The claim is meant for the node, by its own annotation or by the
    scheduler's choice. *)
Definition selectsNode (pvc : PersistentVolumeClaim) (mode : VolumeBindingMode) (node : string) : Prop :=
  pvc_Annotations pvc !! annProvisionOnNode = Some node ∨
  (pvc_Annotations pvc !! annProvisionOnNode = None ∧ mode = VolumeBindingWaitForFirstConsumer ∧
   pvc_Annotations pvc !! annSelectedNode = Some node).

Lemma isCorrectNode_spec ann node name : isCorrectNode ann node name = true ↔ ann !! name = Some node.
Proof.
  unfold isCorrectNode. destruct (ann !! name) as [v|]; [|naive_solver]. rewrite bool_decide_eq_true. naive_solver.
Qed.

Lemma bindingMode_spec pvc node mode :
  let r := isCorrectNodeByBindingMode (pvc_Annotations pvc) node mode in
  (r.1 = true ↔ selectsNode pvc mode node) ∧
  r.2 = if bool_decide (pvc_Annotations pvc !! annProvisionOnNode = Some node)
        then <[annStorageProvisioner := defaultProvisionerName]> (pvc_Annotations pvc)
        else pvc_Annotations pvc.
Proof.
  unfold isCorrectNodeByBindingMode, selectsNode. cbv zeta.
  pose proof (isCorrectNode_spec (pvc_Annotations pvc) node annProvisionOnNode) as H1.
  pose proof (isCorrectNode_spec (pvc_Annotations pvc) node annSelectedNode) as H2.
  destruct (pvc_Annotations pvc !! annProvisionOnNode) as [v|] eqn:Hv.
  - destruct (isCorrectNode _ node annProvisionOnNode); cbn [fst snd].
    + destruct H1 as [H1 _]. rewrite bool_decide_true by auto. split; [|done]. split; [by auto|done].
    + rewrite bool_decide_false by (intros ?%H1; done). split; [|done].
      split; [done|]. intros [?%H1|(?&_)]; done.
  - rewrite bool_decide_false by done. case_decide; cbn [fst snd].
    + split; [|done]. rewrite H2. naive_solver.
    + split; [|done]. naive_solver.
Qed.

(** C33: The provisioner takes a claim exactly when the claim is meant for its node, by the
    provisionOnNode annotation or, without one, by the scheduler's selection under
    WaitForFirstConsumer, and the size of the file system is known and, as the provisioner reports it (rounded down to whole
    gibibytes from ten of them on, below that to whole mebibytes from ten of them on), not below what is requested; nothing
    but the annotation that names the provisioner is changed, and only on a claim annotated for this node. *)
Theorem should_provision_exact `{!Env} p pvc mode w :
  match ShouldProvision p pvc (Some mode) w with
  | (Ret (taken, pvc'), w') =>
      quiet w w' ∧
      (taken = true ↔ selectsNode pvc mode (nodeName p) ∧
         ∃ st, statfs (w_tick w) (pvDir p) = inr st ∧
           default 0 (pvc_StorageRequest pvc) ≤
             nano * roundDownCapacityPretty (int64 (int64 (Blocks st) * int64 (Bsize st)))) ∧
      pvc' = set_annotations
        (if bool_decide (pvc_Annotations pvc !! annProvisionOnNode = Some (nodeName p))
         then <[annStorageProvisioner := defaultProvisionerName]> (pvc_Annotations pvc)
         else pvc_Annotations pvc) pvc
  | _ => False
  end.
Proof.
  unfold ShouldProvision. destruct (bindingMode_spec pvc (nodeName p) mode) as [Hsel Hann]. cbv zeta in *.
  destruct (isCorrectNodeByBindingMode _ _ _) as [b ann]. cbn [fst snd] in *. subst ann.
  destruct b.
  2: { split_and!; [done| |done]. split; [done|]. by intros [?%Hsel _]. }
  unfold bind, try, calculatePvCapacity, bind, unix_Statfs, reads.
  destruct (statfs (w_tick w) (pvDir p)) as [e|st]; cbn [ret]; (split_and!; [done| |done]).
  - split; [done|]. by intros (_&st&?&_).
  - unfold CmpLess, NewQuantity. cbn [pvc_StorageRequest]. rewrite negb_true_iff, Z.ltb_ge, Z.mul_comm. split.
    + intros Hle. split; [by apply Hsel|]. by exists st.
    + by intros (_&?&[= <-]&?).
Qed.

(** The name of the directory of a volume. *)
Definition backingName (p : hostPathProvisioner) (options : ProvisionOptions) : string :=
  if useNamingPrefix p then pvc_Name (po_PVC options) +:+ "-" +:+ po_PVName options else po_PVName options.

Lemma backingPath_join p options : backingPath p options = Join [pvDir p; backingName p options].
Proof. unfold backingPath, backingName. by destruct (useNamingPrefix p). Qed.

(** The capacity that is reported for a file system. *)
Definition pvCapacityOf (st : Statfs_t) : Quantity :=
  NewQuantity (roundDownCapacityPretty (int64 (int64 (Blocks st) * int64 (Bsize st)))).

(** The volume object of a request. *)
Definition provisionedPV (p : hostPathProvisioner) (options : ProvisionOptions) (capacity : Quantity)
    : PersistentVolume :=
  {| pv_Name := po_PVName options;
     pv_Annotations := {[ annIdentity := identity p; annProvisionOnNode := nodeName p ]};
     pv_Finalizers := []; pv_Deleting := false; pv_Phase := VolumePending; pv_ClaimRef := None;
     pv_StorageClassName := ""; pv_ReclaimPolicy := PersistentVolumeReclaimDelete;
     pv_AccessModes := [ReadWriteOnce]; pv_Capacity := capacity;
     pv_HostPath := Some (backingPath p options);
     pv_NodeAffinity := [ {| nr_Key := "kubernetes.io/hostname"; nr_Values := [nodeName p] |} ] |}.

Section runs.
Context `{!Env}.

Lemma ShouldProvision_taken p pvc mode st w :
  selectsNode pvc mode (nodeName p) → statfs (w_tick w) (pvDir p) = inr st →
  default 0 (pvc_StorageRequest pvc) ≤ pvCapacityOf st →
  ShouldProvision p pvc (Some mode) w =
    (Ret (true, set_annotations
       (if bool_decide (pvc_Annotations pvc !! annProvisionOnNode = Some (nodeName p))
        then <[annStorageProvisioner := defaultProvisionerName]> (pvc_Annotations pvc)
        else pvc_Annotations pvc) pvc), tickw w).
Proof.
  intros Hsel Hst Hle. unfold ShouldProvision.
  destruct (bindingMode_spec pvc (nodeName p) mode) as [Hb Hann]. cbv zeta in *.
  destruct (isCorrectNodeByBindingMode _ _ _) as [b ann]. cbn [fst snd] in *. subst ann.
  rewrite (proj2 Hb Hsel). unfold bind, try, calculatePvCapacity, bind, unix_Statfs, reads.
  rewrite Hst. unfold ret, CmpLess. do 3 f_equal. apply negb_true_iff, Z.ltb_ge.
  cbn [pvc_StorageRequest set_annotations]. done.
Qed.

(** A name for a new directory of the data directory. *)
Record freshDir (p : hostPathProvisioner) (name : string) (w : world) : Prop := {
  fd_wf : wf_fs (w_fs w);
  fd_dir : w_fs w !! resolve (pvDir p) = Some NDir;
  fd_name : valid_name name;
  fd_new : w_fs w !! (resolve (pvDir p) ++ [name]) = None;
  fd_mounts : mounts_below (resolve (pvDir p) ++ [name]) (w_mounts w) = [];
}.

Lemma Provision_ok p options st w :
  no_faults → freshDir p (backingName p options) w → statfs (w_tick w) (pvDir p) = inr st →
  Provision p options w =
    (Ret (provisionedPV p options (pvCapacityOf st)),
     tickw (set_fs (<[resolve (pvDir p) ++ [backingName p options] := NDir]> (w_fs w)) (tickw w))).
Proof.
  intros Hnf Hf Hst. pose proof (fd_name _ _ _ Hf) as Hname.
  assert (resolve (backingPath p options) = resolve (pvDir p) ++ [backingName p options]) as Hres
    by (rewrite backingPath_join; by apply resolve_Join).
  assert (backingPath p options ≠ "") as Hne by (rewrite backingPath_join; by apply Join_nonempty).
  unfold Provision. erewrite run_bind_ret.
  2: { unfold calculatePvCapacity, bind, unix_Statfs, reads. by rewrite Hst. }
  erewrite run_bind_ret.
  2: { erewrite MkdirAll_new; [by apply mkdir_at_ok|apply Hf|done|exact Hres|apply Hf|apply Hf]. }
  done.
Qed.

(** Deleting our own volume removes its directory. *)
Lemma Delete_ok p v name x w :
  no_faults → pv_Annotations v !! annIdentity = Some (identity p) →
  pv_Annotations v !! annProvisionOnNode = Some (nodeName p) →
  pv_HostPath v = Some (Join [pvDir p; name]) → valid_name name →
  w_fs w !! (resolve (pvDir p) ++ [name]) = Some x →
  mounts_below (resolve (pvDir p) ++ [name]) (w_mounts w) = [] →
  Delete p v w = (Ret tt, tickw (set_fs (rm_tree (resolve (pvDir p) ++ [name]) (w_fs w)) w)).
Proof.
  intros Hnf Hid Hnode Hpath Hname Hx Hm. unfold Delete. rewrite Hid, decide_True by done.
  rewrite (proj2 (isCorrectNode_spec _ _ _)) by done. rewrite Hpath. rewrite <-resolve_Join in * by done.
  apply RemoveAll_found with (x := x); try done.
  - by apply Join_nonempty.
  - by apply endsWithDot_Join.
  - rewrite resolve_Join by done. by destruct (resolve (pvDir p)).
Qed.
End runs.

(** Without faults, provisioning a volume makes one new directory for it below the data
    directory and returns a volume object bound to it and to this node, with the rounded size of
    the file system; deleting that object from this node takes the directory away with everything in it and
    leaves the tree as it was before, and a provisioner of another node or of another identity
    ignores the object and changes nothing. *)
Theorem provision_delete_roundtrip `{!Env} p options st w :
  no_faults → wf_fs (w_fs w) → w_fs w !! resolve (pvDir p) = Some NDir →
  statfs (w_tick w) (pvDir p) = inr st → valid_name (backingName p options) →
  let dir := resolve (pvDir p) ++ [backingName p options] in
  w_fs w !! dir = None → mounts_below dir (w_mounts w) = [] →
  ∃ pv w1 w2, Provision p options w = (Ret pv, w1) ∧
    w_fs w1 = <[dir := NDir]> (w_fs w) ∧
    pv_Name pv = po_PVName options ∧ pv_HostPath pv = Some (backingPath p options) ∧
    resolve (backingPath p options) = dir ∧
    pv_NodeAffinity pv = [ {| nr_Key := "kubernetes.io/hostname"; nr_Values := [nodeName p] |} ] ∧
    pv_Capacity pv = nano * roundDownCapacityPretty (int64 (int64 (Blocks st) * int64 (Bsize st))) ∧
    Delete p pv w1 = (Ret tt, w2) ∧ w_fs w2 = w_fs w ∧ w_mounts w2 = w_mounts w ∧
    (∀ p' w', nodeName p' ≠ nodeName p ∨ identity p' ≠ identity p →
       ∃ reason, Delete p' pv w' = (Fail (IgnoredError reason), w')).
Proof.
  intros Hnf Hwf Hdir Hst Hname dir Hnew Hmnt.
  assert (resolve (backingPath p options) = dir) as Hres by (rewrite backingPath_join; by apply resolve_Join).
  assert (freshDir p (backingName p options) w) as Hf by by split.
  do 3 eexists. split_and!; [by apply Provision_ok|done|done|done|done|done|apply Z.mul_comm|..].
  - eapply Delete_ok with (name := backingName p options); [done|apply lookup_insert_eq|done| |done|apply lookup_insert_eq|done].
    cbn [provisionedPV pv_HostPath]. by rewrite backingPath_join.
  - simpl. by apply rm_tree_insert_new.
  - done.
  - intros p' w' Hother. unfold Delete. cbn [provisionedPV pv_Annotations]. rewrite lookup_insert_eq.
    destruct (decide (identity p = identity p')) as [He|He]; [|by eexists].
    assert (isCorrectNode {[annIdentity := identity p; annProvisionOnNode := nodeName p]} (nodeName p')
      annProvisionOnNode = false) as ->; [|by eexists].
    apply not_true_iff_false. rewrite isCorrectNode_spec. intros [= Hn]. naive_solver.
Qed.

Definition demoProvisioner : hostPathProvisioner :=
  {| pvDir := "/pv"; identity := defaultProvisionerName; nodeName := "node1"; useNamingPrefix := true |}.
Definition demoOptions : ProvisionOptions :=
  {| po_StorageClass := {| sc_Name := "hpp"; sc_Provisioner := defaultProvisionerName;
                           sc_VolumeBindingMode := Some VolumeBindingWaitForFirstConsumer |};
     po_PVName := "pvc-1"; po_SelectedNode := None;
     po_PVC := {| pvc_Namespace := "default"; pvc_Name := "disk"; pvc_UID := "1";
                  pvc_Annotations := {[ annSelectedNode := "node1" ]}; pvc_StorageRequest := None;
                  pvc_VolumeName := ""; pvc_StorageClassName := Some "hpp"; pvc_Block := false |} |}.
Definition demoPvWorld : world := World (tree [(["pv"], NDir)]) [] 0 0.

Lemma provision_delete_roundtrip_witness :
  ∃ pv w1 w2, Provision demoProvisioner demoOptions demoPvWorld = (Ret pv, w1) ∧
    w_fs w1 !! ["pv"; "disk-pvc-1"] = Some NDir ∧ pv_Capacity pv = nano * (2048 * 1048576) ∧
    Delete demoProvisioner pv w1 = (Ret tt, w2) ∧ w_fs w2 = w_fs demoPvWorld.
Proof.
  destruct (provision_delete_roundtrip demoProvisioner demoOptions demo_statfs demoPvWorld)
    as (pv&w1&w2&Hp&Hfs&_&_&_&_&Hcap&Hd&Hfs2&_);
    [done|by_wf|vm_compute; reflexivity|reflexivity|by_decide|vm_compute; reflexivity|reflexivity|].
  exists pv, w1, w2. split_and!; [exact Hp| | |exact Hd|exact Hfs2].
  - rewrite Hfs. vm_compute. reflexivity.
  - rewrite Hcap. vm_compute. reflexivity.
Defined.
