(* ===== verification/VolumeStore.v ===== *)
(** * controller/volume.go and controller/volume_store.go

    The interface of a provisioner, and the two ways a provisioned volume is
    saved to the API server: in the background until it is saved, or in a
    bounded number of attempts after which the storage is given back. *)
From S2P Require Import Prelude GoStrings GoPath GoErrors OS OSFacts WorkQueue Kube.
Open Scope Z_scope.

(** ** The interface of a provisioner *)

Inductive ProvisioningState : Type := ProvisioningInBackground | ProvisioningFinished | ProvisioningNoChange.

#[export] Instance ProvisioningState_eq_dec : EqDecision ProvisioningState.
Proof. solve_decision. Defined.

(** [Provision] and [Delete], and the optional interfaces a provisioner may
    implement. [ShouldProvision] may change the claim it is given. *)
Record Provisioner := {
  p_Provision : ProvisionOptions → K PersistentVolume;
  p_Delete : PersistentVolume → K unit;
  p_ShouldProvision : option (PersistentVolumeClaim → option VolumeBindingMode → K (bool * PersistentVolumeClaim));
  p_ShouldDelete : option (PersistentVolume → K bool);
  p_SupportsBlock : option (K bool);
  p_ProvisionExt : option (ProvisionOptions → K (ProvisioningState * (gerror + PersistentVolume)));
}.

Definition claimToClaimKey (claim : PersistentVolumeClaim) : string :=
  pvc_Namespace claim +:+ "/" +:+ pvc_Name claim.

(** [StoreVolume] of a store. *)
Record VolumeStore := { vs_StoreVolume : PersistentVolumeClaim → PersistentVolume → K unit }.

Section stores.
Context `{!Api}.

(** ** Saving in the background *)

Definition doSaveVolume (volume : PersistentVolume) : K unit :=
  r <- try (pv_create volume) ;;
  match r with
  | inl _ => ret tt
  | inr err =>
      if api_IsAlreadyExists err then ret tt
      else fail (ErrorString ("error saving volume " +:+ pv_Name volume +:+ ": " +:+ Error err))
  end.

(** The error is consumed: the volume is queued to be saved later. *)
Definition queueStore_StoreVolume (claim : PersistentVolumeClaim) (volume : PersistentVolume) : K unit :=
  r <- try (doSaveVolume volume) ;;
  match r with
  | inl _ => ret tt
  | inr err =>
      modify (λ k, set_unsaved (<[pv_Name volume := volume]> (kw_unsaved k)) k) >>
      modify (λ k, set_saveQueue (Add (pv_Name volume) (kw_saveQueue k)) k)
  end.

(** What a worker does with the name it got; [Done] is deferred. *)
Definition saveItem (volumeName : string) : K unit :=
  volumeObj <- gets (λ k, kw_unsaved k !! volumeName) ;;
  match volumeObj with
  | None => modify (λ k, set_saveLimiter (Forget volumeName (kw_saveLimiter k)) k)
  | Some volume =>
      r <- try (doSaveVolume volume) ;;
      match r with
      | inr err =>
          modify (λ k, set_saveLimiter (When volumeName (kw_saveLimiter k)) k) >>
          modify (λ k, set_saveQueue (AddAfter volumeName (kw_saveQueue k)) k)
      | inl _ =>
          modify (λ k, set_unsaved (delete volumeName (kw_unsaved k)) k) >>
          modify (λ k, set_saveLimiter (Forget volumeName (kw_saveLimiter k)) k)
      end
  end >>
  modify (λ k, set_saveQueue (Done volumeName (kw_saveQueue k)) k).

(** [false] when there is nothing to do and the worker waits. *)
Definition saveNextWorkItem : K bool :=
  q <- gets kw_saveQueue ;;
  match Get q with
  | None => ret false
  | Some (volumeName, q') => modify (set_saveQueue q') >> saveItem volumeName >> ret true
  end.

Definition queueStore : VolumeStore := {| vs_StoreVolume := queueStore_StoreVolume |}.

(** ** Saving in a bounded number of attempts *)

(** [wait.ExponentialBackoff]: at most [steps] attempts. The closure keeps the
    last error; the result is whether some attempt succeeded. *)
Fixpoint ExponentialBackoff (steps : nat) (attempt : K unit) (lastError : option gerror)
    : K (bool * option gerror) :=
  match steps with
  | O => ret (false, lastError)
  | S steps' =>
      r <- try attempt ;;
      match r with
      | inl _ => ret (true, lastError)
      | inr err => ExponentialBackoff steps' attempt (Some err)
      end
  end.

(** [%v] of an error that may be nil. *)
Definition errText (e : option gerror) : string := match e with Some e => Error e | None => "<nil>" end.

Definition backoffStore_StoreVolume (steps : nat) (provisioner : Provisioner)
    (claim : PersistentVolumeClaim) (volume : PersistentVolume) : K unit :=
  saved <- ExponentialBackoff steps
             (r <- try (pv_create volume) ;;
              match r with
              | inl _ => ret tt
              | inr err => if api_IsAlreadyExists err then ret tt else fail err
              end) None ;;
  let '(ok, lastSaveError) := saved in
  if (ok : bool) then
    Event false "ProvisioningSucceeded" ("Successfully provisioned volume " +:+ pv_Name volume)
  else
    Event true "ProvisioningFailed"
      ("Error creating provisioned PV object for claim " +:+ claimToClaimKey claim +:+ ": "
       +:+ errText lastSaveError +:+ ". Deleting the volume.") >>
    cleaned <- ExponentialBackoff steps (p_Delete provisioner volume) None ;;
    let '(ok, lastDeleteError) := cleaned in
    (if (ok : bool) then ret tt
     else Event true "ProvisioningCleanupFailed"
            ("Error cleaning provisioned volume for claim " +:+ claimToClaimKey claim +:+ ": "
             +:+ errText lastDeleteError +:+ ". Please delete manually.")) >>
    match lastSaveError with
    | Some err => fail err
    | None => ret tt
    end.

Definition backoffStore (steps : nat) (provisioner : Provisioner) : VolumeStore :=
  {| vs_StoreVolume := backoffStore_StoreVolume steps provisioner |}.
End stores.
