(* ===== verification/ProvisionController.v ===== *)
(** * controller/controller.go

    The provision controller: which claims are provisioned and which volumes
    are deleted, the operations themselves, and the workers that take keys
    from the queues and retry. *)
From S2P Require Import Prelude GoStrings GoPath GoErrors OS OSFacts Json WorkQueue Kube VolumeStore.
Open Scope Z_scope.

Definition annBetaStorageClass : string := "volume.beta.kubernetes.io/storage-class".
Definition annClass : string := "volume.beta.kubernetes.io/storage-class".
Definition annDynamicallyProvisioned : string := "pv.kubernetes.io/provisioned-by".
Definition annStorageProvisioner : string := "volume.beta.kubernetes.io/storage-provisioner".
Definition annSelectedNode : string := "volume.kubernetes.io/selected-node".
Definition finalizerPV : string := "external-provisioner.volume.kubernetes.io/finalizer".

(** A version: its numbers, and whether it is a release. *)
Record Version := { ver_major : Z; ver_minor : Z; ver_patch : Z; ver_release : bool }.

(** [v.AtLeast(MustParseSemantic("vM.N.0"))]. *)
Definition AtLeast (v : Version) (major minor : Z) : bool :=
  (major <? ver_major v) ||
  ((ver_major v =? major) &&
   ((minor <? ver_minor v) ||
    ((ver_minor v =? minor) && ((0 <? ver_patch v) || ((ver_patch v =? 0) && ver_release v))))).

Record ProvisionController := {
  provisionerName : string;
  additionalProvisionerNames : list string;
  provisioner : Provisioner;
  kubeVersion : Version;
  addFinalizer : bool;
  failedProvisionThreshold : Z;
  failedDeleteThreshold : Z;
  volumeStore : VolumeStore;
}.

Definition knownProvisioner (ctrl : ProvisionController) (p : string) : bool :=
  bool_decide (p = provisionerName ctrl) || bool_decide (p ∈ additionalProvisionerNames ctrl).

(** [util.GetPersistentVolumeClaimClass]. *)
Definition GetPersistentVolumeClaimClass (claim : PersistentVolumeClaim) : string :=
  match pvc_Annotations claim !! annBetaStorageClass with
  | Some class => class
  | None => default "" (pvc_StorageClassName claim)
  end.

Definition getProvisionedVolumeNameForClaim (claim : PersistentVolumeClaim) : string :=
  "pvc-" +:+ pvc_UID claim.

Definition checkFinalizer (volume : PersistentVolume) (finalizer : string) : bool :=
  existsb (String.eqb finalizer) (pv_Finalizers volume).

Definition getStorageClass (name : string) : K StorageClass :=
  class <- gets (λ k, kw_classes k !! name) ;;
  match class with
  | Some (ClassV1 c) => ret c
  | Some (ClassV1beta1 c) =>
      ret {| sc_Name := sc_Name c; sc_Provisioner := sc_Provisioner c; sc_VolumeBindingMode := sc_VolumeBindingMode c |}
  | Some (ClassOther obj) => fail (ErrorString ("cannot convert object to StorageClass: " +:+ obj))
  | None => fail (ErrorString ("storageClass " +:+ q name +:+ " not found"))
  end.

(** ** The claim objects *)

(** The claims of the caches are shared objects: a pointer is their address. *)
Definition load (a : nat) : K PersistentVolumeClaim :=
  c <- gets (λ k, kw_heap k !! a) ;;
  match c with
  | Some c => ret c
  | None => panic "invalid memory address or nil pointer dereference"
  end.
Definition store (a : nat) (c : PersistentVolumeClaim) : K unit :=
  modify (λ k, set_heap (<[a := c]> (kw_heap k)) k).

Section ops.
Context `{!Api} (ctrl : ProvisionController).

(** ** Decisions *)

Definition shouldProvision (a : nat) : K bool :=
  claim <- load a ;;
  if decide (pvc_VolumeName claim ≠ "") then ret false
  else
    class <- getStorageClass (GetPersistentVolumeClaimClass claim) ;;
    qualified <- match p_ShouldProvision (provisioner ctrl) with
                 | Some shouldProvision =>
                     r <- shouldProvision claim (sc_VolumeBindingMode class) ;;
                     store a r.2 >> ret r.1
                 | None => ret true
                 end ;;
    if negb qualified then ret false
    else
      claim <- load a ;;
      if AtLeast (kubeVersion ctrl) 1 5 then
        ret (match pvc_Annotations claim !! annStorageProvisioner with
             | Some p => knownProvisioner ctrl p
             | None => false
             end)
      else ret (bool_decide (sc_Provisioner class = provisionerName ctrl)).

Definition shouldDelete (volume : PersistentVolume) : K bool :=
  guard <- match p_ShouldDelete (provisioner ctrl) with
           | Some shouldDelete => shouldDelete volume
           | None => ret true
           end ;;
  if negb guard then ret false
  else if AtLeast (kubeVersion ctrl) 1 9 && pv_Deleting volume then ret false
  else if (if AtLeast (kubeVersion ctrl) 1 5 then negb (bool_decide (pv_Phase volume = VolumeReleased))
           else negb (bool_decide (pv_Phase volume = VolumeReleased))
                && negb (bool_decide (pv_Phase volume = VolumeFailed))) then ret false
  else if negb (bool_decide (pv_ReclaimPolicy volume = PersistentVolumeReclaimDelete)) then ret false
  else match pv_Annotations volume !! annDynamicallyProvisioned with
       | None => ret false
       | Some ann => ret (bool_decide (ann = provisionerName ctrl))
       end.

Definition supportsBlock : K bool :=
  match p_SupportsBlock (provisioner ctrl) with
  | Some b => b
  | None => ret false
  end.

Definition canProvision (claim : PersistentVolumeClaim) : K unit :=
  if pvc_Block claim then
    ok <- supportsBlock ;;
    if (ok : bool) then ret tt
    else fail (ErrorString (provisionerName ctrl +:+ " does not support block volume provisioning"))
  else ret tt.

(** ** Provisioning *)

(** The node the scheduler selected, from Kubernetes 1.11 on. *)
Definition selectedNode (claim : PersistentVolumeClaim) : K (option string) :=
  if AtLeast (kubeVersion ctrl) 1 11 then
    match pvc_Annotations claim !! annSelectedNode with
    | Some nodeName => n <- node_get nodeName ;; ret (Some n)
    | None => ret None
    end
  else ret None.

(** [ProvisionExt] when there is one, else [Provision]. *)
Definition callProvision (options : ProvisionOptions) : K (ProvisioningState * (gerror + PersistentVolume)) :=
  match p_ProvisionExt (provisioner ctrl) with
  | Some provisionExt => provisionExt options
  | None =>
      r <- try (p_Provision (provisioner ctrl) options) ;;
      ret (ProvisioningFinished, match r with inl volume => inr volume | inr err => inl err end)
  end.

(** The volume object that is saved: bound to the claim, marked as ours. *)
Definition decorate (claimClass : string) (claimRef : ObjectReference) (volume : PersistentVolume)
    : PersistentVolume :=
  let ann := <[annDynamicallyProvisioned := provisionerName ctrl]> (pv_Annotations volume) in
  let ga := AtLeast (kubeVersion ctrl) 1 6 in
  {| pv_Name := pv_Name volume;
     pv_Annotations := if ga then ann else <[annClass := claimClass]> ann;
     pv_Finalizers := if addFinalizer ctrl && negb (checkFinalizer volume finalizerPV)
                      then pv_Finalizers volume ++ [finalizerPV] else pv_Finalizers volume;
     pv_Deleting := pv_Deleting volume; pv_Phase := pv_Phase volume;
     pv_ClaimRef := Some claimRef;
     pv_StorageClassName := if ga then claimClass else pv_StorageClassName volume;
     pv_ReclaimPolicy := pv_ReclaimPolicy volume; pv_AccessModes := pv_AccessModes volume;
     pv_Capacity := pv_Capacity volume; pv_HostPath := pv_HostPath volume;
     pv_NodeAffinity := pv_NodeAffinity volume |}.

(** From the call of the provisioner on. *)
Definition provisionAndStore (claim : PersistentVolumeClaim) (claimClass : string)
    (claimRef : ObjectReference) (options : ProvisionOptions) : K (ProvisioningState * option gerror) :=
  Event false "Provisioning"
    ("External provisioner is provisioning volume for claim " +:+ q (claimToClaimKey claim)) >>
  pr <- callProvision options ;;
  match pr with
  | (_, inl (IgnoredError _)) => ret (ProvisioningFinished, None)
  | (result, inl err) =>
      let err := ErrorString ("failed to provision volume with StorageClass " +:+ q claimClass +:+ ": " +:+ Error err) in
      Event true "ProvisioningFailed" (Error err) >>
      ret (result, Some err)
  | (_, inr volume) =>
      r <- try (vs_StoreVolume (volumeStore ctrl) claim (decorate claimClass claimRef volume)) ;;
      ret (ProvisioningFinished, match r with inr err => Some err | inl _ => None end)
  end.

(** The state of provisioning and the error that decides about a retry. *)
Definition provisionClaimOperation (claim : PersistentVolumeClaim) : K (ProvisioningState * option gerror) :=
  let claimClass := GetPersistentVolumeClaimClass claim in
  let pvName := getProvisionedVolumeNameForClaim claim in
  existing <- try (pv_get pvName) ;;
  match existing with
  | inl _ => ret (ProvisioningFinished, None)
  | inr _ =>
      match GetReference claim with
      | inl _ => ret (ProvisioningNoChange, None)
      | inr claimRef =>
          can <- try (canProvision claim) ;;
          match can with
          | inr err => Event true "ProvisioningFailed" (Error err) >> ret (ProvisioningFinished, None)
          | inl _ =>
              found <- try (getStorageClass claimClass) ;;
              match found with
              | inr err => ret (ProvisioningFinished, Some err)
              | inl class =>
                  if negb (knownProvisioner ctrl (sc_Provisioner class)) then ret (ProvisioningFinished, None)
                  else
                    node <- try (selectedNode claim) ;;
                    match node with
                    | inr err =>
                        let err := ErrorString ("failed to get target node: " +:+ Error err) in
                        Event true "ProvisioningFailed" (Error err) >> ret (ProvisioningNoChange, Some err)
                    | inl node =>
                        provisionAndStore claim claimClass claimRef
                          {| po_StorageClass := class; po_PVName := pvName; po_PVC := claim;
                             po_SelectedNode := node |}
                    end
              end
          end
      end
  end.

Definition syncClaim (a : nat) : K (ProvisioningState * option gerror) :=
  should <- try (shouldProvision a) ;;
  match should with
  | inr err => ret (ProvisioningFinished, Some err)
  | inl true => claim <- load a ;; provisionClaimOperation claim
  | inl false => ret (ProvisioningFinished, None)
  end.

(** ** Deleting *)

(** The finalizer is taken away from the object, which the deletion has marked. *)
Definition removeFinalizer (name : string) : K unit :=
  r <- try (pv_get name) ;;
  match r with
  | inr err => if api_IsNotFound err then ret tt else fail err
  | inl newVolume =>
      let finalizers := filter (λ f, f ≠ finalizerPV) (pv_Finalizers newVolume) in
      if decide (length finalizers ≠ length (pv_Finalizers newVolume)) then
        r <- try (pv_update (set_pv_meta finalizers (pv_Deleting newVolume) newVolume)) ;;
        match r with
        | inr err => if api_IsNotFound err then ret tt else fail err
        | inl _ => ret tt
        end
      else ret tt
  end.

Definition deleteVolumeOperation (volume : PersistentVolume) : K unit :=
  fresh <- try (pv_get (pv_Name volume)) ;;
  match fresh with
  | inr _ => ret tt
  | inl newVolume =>
      should <- shouldDelete newVolume ;;
      if negb should then ret tt
      else
        r <- try (p_Delete (provisioner ctrl) volume) ;;
        match r with
        | inr (IgnoredError _) => ret tt
        | inr err => Event true "VolumeFailedDelete" (Error err) >> fail err
        | inl _ =>
            pv_delete (pv_Name volume) >>
            if addFinalizer ctrl && negb (bool_decide (pv_Finalizers newVolume = []))
            then removeFinalizer (pv_Name volume) else ret tt
        end
  end.

Definition syncVolume (volume : PersistentVolume) : K unit :=
  should <- shouldDelete volume ;;
  if (should : bool) then deleteVolumeOperation volume else ret tt.

(** ** The workers *)

(** The claim of the cache, or one that is in progress. *)
Definition syncClaimHandler (key : string) : K (ProvisioningState * option gerror) :=
  cached <- gets (λ k, kw_claims k !! key) ;;
  inProgress <- gets (λ k, kw_inProgress k !! key) ;;
  match (match cached with Some a => Some a | None => inProgress end) with
  | None => ret (ProvisioningFinished, None)
  | Some claimObj =>
      r <- syncClaim claimObj ;;
      let '(status, err) := r in
      (if bool_decide (err = None) || bool_decide (status = ProvisioningFinished)
       then modify (λ k, set_inProgress (delete key (kw_inProgress k)) k)
       else if decide (status = ProvisioningInBackground)
       then modify (λ k, set_inProgress (<[key := claimObj]> (kw_inProgress k)) k)
       else ret tt) >>
      ret (status, err)
  end.

Definition syncVolumeHandler (key : string) : K unit :=
  volumeObj <- gets (λ k, kw_volumes k !! key) ;;
  match volumeObj with
  | None => ret tt
  | Some volume => syncVolume volume
  end.

(** Retry, or give up: the count of failures stays. *)
Definition mayRetry (threshold : Z) (failures : nat) : bool :=
  (threshold =? 0) || (Z.of_nat failures <? threshold).

(** What a claim worker does with the result of a sync, and its deferred [Done]. *)
Definition finishClaim (key : string) (err : option gerror) : K unit :=
  (match err with
   | Some _ =>
       failures <- gets (λ k, NumRequeues key (kw_limiter k)) ;;
       if mayRetry (failedProvisionThreshold ctrl) failures then
         modify (λ k, set_limiter (When key (kw_limiter k)) k) >>
         modify (λ k, set_claimQueue (AddAfter key (kw_claimQueue k)) k)
       else modify (λ k, set_inProgress (delete key (kw_inProgress k)) k)
   | None =>
       modify (λ k, set_limiter (Forget key (kw_limiter k)) k) >>
       modify (λ k, set_inProgress (delete key (kw_inProgress k)) k)
   end) >>
  modify (λ k, set_claimQueue (Done key (kw_claimQueue k)) k).

Definition processClaim (key : string) : K unit :=
  r <- syncClaimHandler key ;;
  finishClaim key r.2.

Definition finishVolume (key : string) (err : option gerror) : K unit :=
  (match err with
   | Some _ =>
       failures <- gets (λ k, NumRequeues key (kw_limiter k)) ;;
       if mayRetry (failedDeleteThreshold ctrl) failures then
         modify (λ k, set_limiter (When key (kw_limiter k)) k) >>
         modify (λ k, set_volumeQueue (AddAfter key (kw_volumeQueue k)) k)
       else ret tt
   | None => modify (λ k, set_limiter (Forget key (kw_limiter k)) k)
   end) >>
  modify (λ k, set_volumeQueue (Done key (kw_volumeQueue k)) k).

Definition processVolume (key : string) : K unit :=
  r <- try (syncVolumeHandler key) ;;
  finishVolume key (match r with inr err => Some err | inl _ => None end).

(** [false] when there is nothing to do and the worker waits. *)
Definition processNextClaimWorkItem : K bool :=
  q <- gets kw_claimQueue ;;
  match Get q with
  | None => ret false
  | Some (key, q') => modify (set_claimQueue q') >> processClaim key >> ret true
  end.

Definition processNextVolumeWorkItem : K bool :=
  q <- gets kw_volumeQueue ;;
  match Get q with
  | None => ret false
  | Some (key, q') => modify (set_volumeQueue q') >> processVolume key >> ret true
  end.

(** ** Events of the informers *)

Definition getObjectUID (obj : informerObj) : gerror + string :=
  match obj with
  | Object m => inr (om_UID m)
  | DeletedFinalStateUnknown _ (Some m) => inr (om_UID m)
  | DeletedFinalStateUnknown _ None => inl (ErrorString "error decoding object tombstone, invalid type")
  | OtherObj => inl (ErrorString "error decoding object, invalid type")
  end.

(** Only a key that is not being retried is added; an error is logged. *)
Definition enqueueClaim (obj : informerObj) : K unit :=
  match getObjectUID obj with
  | inl err => ret tt
  | inr uid =>
      n <- gets (λ k, NumRequeues uid (kw_limiter k)) ;;
      if Nat.eqb n 0 then modify (λ k, set_claimQueue (Add uid (kw_claimQueue k)) k) else ret tt
  end.

Definition enqueueVolume (obj : informerObj) : K unit :=
  match DeletionHandlingMetaNamespaceKeyFunc obj with
  | inl err => ret tt
  | inr key =>
      n <- gets (λ k, NumRequeues key (kw_limiter k)) ;;
      if Nat.eqb n 0 then modify (λ k, set_volumeQueue (Add key (kw_volumeQueue k)) k) else ret tt
  end.

Definition forgetVolume (obj : informerObj) : K unit :=
  match DeletionHandlingMetaNamespaceKeyFunc obj with
  | inl err => ret tt
  | inr key =>
      modify (λ k, set_limiter (Forget key (kw_limiter k)) k) >>
      modify (λ k, set_volumeQueue (Done key (kw_volumeQueue k)) k)
  end.

(** The handlers that are registered with the informers. *)
Inductive informerEvent : Type :=
  | AddFunc (obj : informerObj)
  | UpdateFunc (oldObj newObj : informerObj)
  | DeleteFunc (obj : informerObj).

Definition claimHandler (ev : informerEvent) : K unit :=
  match ev with
  | AddFunc obj => enqueueClaim obj
  | UpdateFunc _ newObj => enqueueClaim newObj
  | DeleteFunc _ => ret tt
  end.

Definition volumeHandler (ev : informerEvent) : K unit :=
  match ev with
  | AddFunc obj => enqueueVolume obj
  | UpdateFunc _ newObj => enqueueVolume newObj
  | DeleteFunc obj => forgetVolume obj
  end.
End ops.
