(* ===== verification/ControllerOptions.v ===== *)
(** * The options of the provision controller

    controller/controller.go: the configuration of a controller, its option
    functions, how a controller is made of them, and what its start
    launches. *)
From Stdlib Require Import Ascii.
From S2P Require Import Prelude GoStrings GoPath GoErrors OS OSFacts Json WorkQueue Kube.
From S2P Require Import VolumeStore ProvisionController.
Open Scope Z_scope.

(** [time.Duration], in nanoseconds. *)
Abbreviation Duration := Z (only parsing).
Definition second : Duration := 1000000000.
Definition minute : Duration := 60 * second.

(** ** Rate limiters and backoffs *)

(** The limiters of the workqueue package, and one a caller supplies. *)
Inductive RateLimiterOf : Type :=
  | ItemExponentialFailureRateLimiter (baseDelay maxDelay : Duration)
  | BucketRateLimiter (limit burst : Z)
  | MaxOfRateLimiter (first second : RateLimiterOf)
  | CustomRateLimiter (name : string).

(** [wait.Backoff]; the sleeps between the attempts are not modelled.
    [bk_Factor] scales a duration, unless the factor is zero. *)
Record Backoff := {
  bk_Duration : Duration;
  bk_Factor : option (Z → Z);
  bk_Steps : Z;
  bk_Cap : Duration;
}.

(** [Step]: the next duration and the steps that are left. *)
Definition backoffStep (b : Backoff) : Backoff :=
  if bk_Steps b <? 1 then {| bk_Duration := bk_Duration b; bk_Factor := bk_Factor b; bk_Steps := 0; bk_Cap := bk_Cap b |}
  else
    let steps := bk_Steps b - 1 in
    match bk_Factor b with
    | None => {| bk_Duration := bk_Duration b; bk_Factor := None; bk_Steps := steps; bk_Cap := bk_Cap b |}
    | Some scale =>
        let next := scale (bk_Duration b) in
        if (0 <? bk_Cap b) && (bk_Cap b <? next)
        then {| bk_Duration := bk_Cap b; bk_Factor := Some scale; bk_Steps := 0; bk_Cap := bk_Cap b |}
        else {| bk_Duration := next; bk_Factor := Some scale; bk_Steps := steps; bk_Cap := bk_Cap b |}
    end.

(** How often [wait.ExponentialBackoff] tries; every round uses up a step. *)
Fixpoint attemptsFrom (fuel : nat) (b : Backoff) : nat :=
  match fuel with
  | O => O
  | S fuel' =>
      if 0 <? bk_Steps b then
        S (if bk_Steps b =? 1 then O else attemptsFrom fuel' (backoffStep b))
      else O
  end.
Definition attempts (b : Backoff) : nat := attemptsFrom (Z.to_nat (bk_Steps b)) b.

(** ** The configuration *)

(** An informer, by its name. *)
Abbreviation Informer := string (only parsing).

Record config := Config {
  c_id : string;
  c_component : string;
  c_provisionerName : string;
  c_additionalProvisionerNames : list string;
  c_resyncPeriod : Duration;
  c_rateLimiter : option RateLimiterOf;
  c_exponentialBackOffOnError : bool;
  c_threadiness : Z;
  c_createProvisionedPVBackoff : option Backoff;
  c_createProvisionedPVRetryCount : Z;
  c_createProvisionedPVInterval : Duration;
  c_createProvisionerPVLimiter : option RateLimiterOf;
  c_failedProvisionThreshold : Z;
  c_failedDeleteThreshold : Z;
  c_metricsPort : Z;
  c_metricsAddress : string;
  c_metricsPath : string;
  c_addFinalizer : bool;
  c_leaderElection : bool;
  c_leaderElectionNamespace : string;
  c_leaseDuration : Duration;
  c_renewDeadline : Duration;
  c_retryPeriod : Duration;
  c_claimInformer : option Informer;
  c_volumeInformer : option Informer;
  c_classInformer : option Informer;
  c_customClaimInformer : bool;
  c_customVolumeInformer : bool;
  c_customClassInformer : bool;
  c_hasRun : bool;
}.

Definition set_additionalProvisionerNames (x_ : list string) '(Config a b c d e f g h i j k l m n o p q r s t u v w xx y z a1 b1 c1 d1) : config :=
  Config a b c x_ e f g h i j k l m n o p q r s t u v w xx y z a1 b1 c1 d1.
Definition set_resyncPeriod (x_ : Duration) '(Config a b c d e f g h i j k l m n o p q r s t u v w xx y z a1 b1 c1 d1) : config :=
  Config a b c d x_ f g h i j k l m n o p q r s t u v w xx y z a1 b1 c1 d1.
Definition set_rateLimiter (x_ : option RateLimiterOf) '(Config a b c d e f g h i j k l m n o p q r s t u v w xx y z a1 b1 c1 d1) : config :=
  Config a b c d e x_ g h i j k l m n o p q r s t u v w xx y z a1 b1 c1 d1.
Definition set_exponentialBackOffOnError (x_ : bool) '(Config a b c d e f g h i j k l m n o p q r s t u v w xx y z a1 b1 c1 d1) : config :=
  Config a b c d e f x_ h i j k l m n o p q r s t u v w xx y z a1 b1 c1 d1.
Definition set_threadiness (x_ : Z) '(Config a b c d e f g h i j k l m n o p q r s t u v w xx y z a1 b1 c1 d1) : config :=
  Config a b c d e f g x_ i j k l m n o p q r s t u v w xx y z a1 b1 c1 d1.
Definition set_createProvisionedPVBackoff (x_ : option Backoff) '(Config a b c d e f g h i j k l m n o p q r s t u v w xx y z a1 b1 c1 d1) : config :=
  Config a b c d e f g h x_ j k l m n o p q r s t u v w xx y z a1 b1 c1 d1.
Definition set_createProvisionedPVRetryCount (x_ : Z) '(Config a b c d e f g h i j k l m n o p q r s t u v w xx y z a1 b1 c1 d1) : config :=
  Config a b c d e f g h i x_ k l m n o p q r s t u v w xx y z a1 b1 c1 d1.
Definition set_createProvisionedPVInterval (x_ : Duration) '(Config a b c d e f g h i j k l m n o p q r s t u v w xx y z a1 b1 c1 d1) : config :=
  Config a b c d e f g h i j x_ l m n o p q r s t u v w xx y z a1 b1 c1 d1.
Definition set_createProvisionerPVLimiter (x_ : option RateLimiterOf) '(Config a b c d e f g h i j k l m n o p q r s t u v w xx y z a1 b1 c1 d1) : config :=
  Config a b c d e f g h i j k x_ m n o p q r s t u v w xx y z a1 b1 c1 d1.
Definition set_failedProvisionThreshold (x_ : Z) '(Config a b c d e f g h i j k l m n o p q r s t u v w xx y z a1 b1 c1 d1) : config :=
  Config a b c d e f g h i j k l x_ n o p q r s t u v w xx y z a1 b1 c1 d1.
Definition set_failedDeleteThreshold (x_ : Z) '(Config a b c d e f g h i j k l m n o p q r s t u v w xx y z a1 b1 c1 d1) : config :=
  Config a b c d e f g h i j k l m x_ o p q r s t u v w xx y z a1 b1 c1 d1.
Definition set_metricsPort (x_ : Z) '(Config a b c d e f g h i j k l m n o p q r s t u v w xx y z a1 b1 c1 d1) : config :=
  Config a b c d e f g h i j k l m n x_ p q r s t u v w xx y z a1 b1 c1 d1.
Definition set_metricsAddress (x_ : string) '(Config a b c d e f g h i j k l m n o p q r s t u v w xx y z a1 b1 c1 d1) : config :=
  Config a b c d e f g h i j k l m n o x_ q r s t u v w xx y z a1 b1 c1 d1.
Definition set_metricsPath (x_ : string) '(Config a b c d e f g h i j k l m n o p q r s t u v w xx y z a1 b1 c1 d1) : config :=
  Config a b c d e f g h i j k l m n o p x_ r s t u v w xx y z a1 b1 c1 d1.
Definition set_addFinalizer (x_ : bool) '(Config a b c d e f g h i j k l m n o p q r s t u v w xx y z a1 b1 c1 d1) : config :=
  Config a b c d e f g h i j k l m n o p q x_ s t u v w xx y z a1 b1 c1 d1.
Definition set_leaderElection (x_ : bool) '(Config a b c d e f g h i j k l m n o p q r s t u v w xx y z a1 b1 c1 d1) : config :=
  Config a b c d e f g h i j k l m n o p q r x_ t u v w xx y z a1 b1 c1 d1.
Definition set_leaderElectionNamespace (x_ : string) '(Config a b c d e f g h i j k l m n o p q r s t u v w xx y z a1 b1 c1 d1) : config :=
  Config a b c d e f g h i j k l m n o p q r s x_ u v w xx y z a1 b1 c1 d1.
Definition set_leaseDuration (x_ : Duration) '(Config a b c d e f g h i j k l m n o p q r s t u v w xx y z a1 b1 c1 d1) : config :=
  Config a b c d e f g h i j k l m n o p q r s t x_ v w xx y z a1 b1 c1 d1.
Definition set_renewDeadline (x_ : Duration) '(Config a b c d e f g h i j k l m n o p q r s t u v w xx y z a1 b1 c1 d1) : config :=
  Config a b c d e f g h i j k l m n o p q r s t u x_ w xx y z a1 b1 c1 d1.
Definition set_retryPeriod (x_ : Duration) '(Config a b c d e f g h i j k l m n o p q r s t u v w xx y z a1 b1 c1 d1) : config :=
  Config a b c d e f g h i j k l m n o p q r s t u v x_ xx y z a1 b1 c1 d1.
Definition set_claimInformer (x_ : option Informer) '(Config a b c d e f g h i j k l m n o p q r s t u v w xx y z a1 b1 c1 d1) : config :=
  Config a b c d e f g h i j k l m n o p q r s t u v w x_ y z a1 b1 c1 d1.
Definition set_volumeInformer (x_ : option Informer) '(Config a b c d e f g h i j k l m n o p q r s t u v w xx y z a1 b1 c1 d1) : config :=
  Config a b c d e f g h i j k l m n o p q r s t u v w xx x_ z a1 b1 c1 d1.
Definition set_classInformer (x_ : option Informer) '(Config a b c d e f g h i j k l m n o p q r s t u v w xx y z a1 b1 c1 d1) : config :=
  Config a b c d e f g h i j k l m n o p q r s t u v w xx y x_ a1 b1 c1 d1.
Definition set_customClaimInformer (x_ : bool) '(Config a b c d e f g h i j k l m n o p q r s t u v w xx y z a1 b1 c1 d1) : config :=
  Config a b c d e f g h i j k l m n o p q r s t u v w xx y z x_ b1 c1 d1.
Definition set_customVolumeInformer (x_ : bool) '(Config a b c d e f g h i j k l m n o p q r s t u v w xx y z a1 b1 c1 d1) : config :=
  Config a b c d e f g h i j k l m n o p q r s t u v w xx y z a1 x_ c1 d1.
Definition set_customClassInformer (x_ : bool) '(Config a b c d e f g h i j k l m n o p q r s t u v w xx y z a1 b1 c1 d1) : config :=
  Config a b c d e f g h i j k l m n o p q r s t u v w xx y z a1 b1 x_ d1.
Definition set_hasRun (x_ : bool) '(Config a b c d e f g h i j k l m n o p q r s t u v w xx y z a1 b1 c1 d1) : config :=
  Config a b c d e f g h i j k l m n o p q r s t u v w xx y z a1 b1 c1 x_.

Definition DefaultResyncPeriod : Duration := 15 * minute.
Definition DefaultThreadiness : Z := 4.
Definition DefaultExponentialBackOffOnError : bool := true.
Definition DefaultCreateProvisionedPVRetryCount : Z := 5.
Definition DefaultCreateProvisionedPVInterval : Duration := 10 * second.
Definition DefaultFailedProvisionThreshold : Z := 15.
Definition DefaultFailedDeleteThreshold : Z := 15.
Definition DefaultLeaderElection : bool := true.
Definition DefaultLeaseDuration : Duration := 15 * second.
Definition DefaultRenewDeadline : Duration := 10 * second.
Definition DefaultRetryPeriod : Duration := 2 * second.
Definition DefaultMetricsPort : Z := 0.
Definition DefaultMetricsAddress : string := "0.0.0.0".
Definition DefaultMetricsPath : string := "/metrics".
Definition DefaultAddFinalizer : bool := false.

(** ** Option functions *)

Abbreviation option_function := (config → gerror + config).

Definition errRuntime : gerror := ErrorString "cannot call option functions after controller has Run".
Definition HasRun (c : config) : bool := c_hasRun c.

(** Every option function begins with this test. *)
Definition beforeRun (f : option_function) : option_function := λ c,
  if HasRun c then inl errRuntime else f c.

Definition ResyncPeriod (resyncPeriod : Duration) : option_function := beforeRun (λ c,
  inr (set_resyncPeriod resyncPeriod c)).
Definition Threadiness (threadiness : Z) : option_function := beforeRun (λ c,
  inr (set_threadiness threadiness c)).
Definition RateLimiter (rateLimiter : option RateLimiterOf) : option_function := beforeRun (λ c,
  inr (set_rateLimiter rateLimiter c)).
Definition ExponentialBackOffOnError (exponentialBackOffOnError : bool) : option_function := beforeRun (λ c,
  inr (set_exponentialBackOffOnError exponentialBackOffOnError c)).

Definition CreateProvisionedPVRetryCount (createProvisionedPVRetryCount : Z) : option_function := beforeRun (λ c,
  if bool_decide (is_Some (c_createProvisionedPVBackoff c))
  then inl (ErrorString "CreateProvisionedPVBackoff cannot be used together with CreateProvisionedPVRetryCount")
  else if bool_decide (is_Some (c_createProvisionerPVLimiter c))
  then inl (ErrorString "CreateProvisionedPVBackoff cannot be used together with CreateProvisionedPVLimiter")
  else inr (set_createProvisionedPVRetryCount createProvisionedPVRetryCount c)).

Definition CreateProvisionedPVInterval (createProvisionedPVInterval : Duration) : option_function := beforeRun (λ c,
  if bool_decide (is_Some (c_createProvisionedPVBackoff c))
  then inl (ErrorString "CreateProvisionedPVBackoff cannot be used together with CreateProvisionedPVInterval")
  else if bool_decide (is_Some (c_createProvisionerPVLimiter c))
  then inl (ErrorString "CreateProvisionedPVInterval cannot be used together with CreateProvisionedPVLimiter")
  else inr (set_createProvisionedPVInterval createProvisionedPVInterval c)).

Definition CreateProvisionedPVBackoff (backoff : Backoff) : option_function := beforeRun (λ c,
  if negb (c_createProvisionedPVRetryCount c =? 0)
  then inl (ErrorString "CreateProvisionedPVBackoff cannot be used together with CreateProvisionedPVRetryCount")
  else if negb (c_createProvisionedPVInterval c =? 0)
  then inl (ErrorString "CreateProvisionedPVBackoff cannot be used together with CreateProvisionedPVInterval")
  else if bool_decide (is_Some (c_createProvisionerPVLimiter c))
  then inl (ErrorString "CreateProvisionedPVBackoff cannot be used together with CreateProvisionedPVLimiter")
  else inr (set_createProvisionedPVBackoff (Some backoff) c)).

Definition CreateProvisionedPVLimiter (limiter : option RateLimiterOf) : option_function := beforeRun (λ c,
  if negb (c_createProvisionedPVRetryCount c =? 0)
  then inl (ErrorString "CreateProvisionedPVLimiter cannot be used together with CreateProvisionedPVRetryCount")
  else if negb (c_createProvisionedPVInterval c =? 0)
  then inl (ErrorString "CreateProvisionedPVLimiter cannot be used together with CreateProvisionedPVInterval")
  else if bool_decide (is_Some (c_createProvisionedPVBackoff c))
  then inl (ErrorString "CreateProvisionedPVLimiter cannot be used together with CreateProvisionedPVBackoff")
  else inr (set_createProvisionerPVLimiter limiter c)).

Definition FailedProvisionThreshold (failedProvisionThreshold : Z) : option_function := beforeRun (λ c,
  inr (set_failedProvisionThreshold failedProvisionThreshold c)).
Definition FailedDeleteThreshold (failedDeleteThreshold : Z) : option_function := beforeRun (λ c,
  inr (set_failedDeleteThreshold failedDeleteThreshold c)).
Definition LeaderElection (leaderElection : bool) : option_function := beforeRun (λ c,
  inr (set_leaderElection leaderElection c)).
Definition LeaderElectionNamespace (leaderElectionNamespace : string) : option_function := beforeRun (λ c,
  inr (set_leaderElectionNamespace leaderElectionNamespace c)).
Definition LeaseDuration (leaseDuration : Duration) : option_function := beforeRun (λ c,
  inr (set_leaseDuration leaseDuration c)).
Definition RenewDeadline (renewDeadline : Duration) : option_function := beforeRun (λ c,
  inr (set_renewDeadline renewDeadline c)).
Definition RetryPeriod (retryPeriod : Duration) : option_function := beforeRun (λ c,
  inr (set_retryPeriod retryPeriod c)).
Definition ClaimsInformer (informer : Informer) : option_function := beforeRun (λ c,
  inr (set_customClaimInformer true (set_claimInformer (Some informer) c))).
Definition VolumesInformer (informer : Informer) : option_function := beforeRun (λ c,
  inr (set_customVolumeInformer true (set_volumeInformer (Some informer) c))).
Definition ClassesInformer (informer : Informer) : option_function := beforeRun (λ c,
  inr (set_customClassInformer true (set_classInformer (Some informer) c))).
Definition MetricsPort (metricsPort : Z) : option_function := beforeRun (λ c,
  inr (set_metricsPort metricsPort c)).
Definition MetricsAddress (metricsAddress : string) : option_function := beforeRun (λ c,
  inr (set_metricsAddress metricsAddress c)).
Definition MetricsPath (metricsPath : string) : option_function := beforeRun (λ c,
  inr (set_metricsPath metricsPath c)).
Definition AdditionalProvisionerNames (additionalProvisionerNames : list string) : option_function := beforeRun (λ c,
  inr (set_additionalProvisionerNames additionalProvisionerNames c)).
Definition AddFinalizer (addFinalizer : bool) : option_function := beforeRun (λ c,
  inr (set_addFinalizer addFinalizer c)).

(** ** A new controller *)

(** What the process finds: its host name, a fresh UUID, the variable
    POD_NAMESPACE and the namespace file of its service account. *)
Record processEnv := {
  pe_hostname : gerror + string;
  pe_uuid : string;
  POD_NAMESPACE : string;
  pe_namespaceFile : gerror + string;
}.

(** [strings.TrimSpace], on ASCII text. *)
Definition isSpace (a : ascii) : bool :=
  let n := nat_of_ascii a in ((9 <=? n) && (n <=? 13) || (n =? 32))%nat.
Fixpoint trimLeft (s : string) : string :=
  match s with
  | String a s' => if isSpace a then trimLeft s' else s
  | EmptyString => EmptyString
  end.
Fixpoint trimRight (s : string) : string :=
  match s with
  | EmptyString => EmptyString
  | String a s' =>
      match trimRight s' with
      | EmptyString => if isSpace a then EmptyString else String a EmptyString
      | t => String a t
      end
  end.
Definition TrimSpace (s : string) : string := trimRight (trimLeft s).

Definition getInClusterNamespace (env : processEnv) : string :=
  if decide (POD_NAMESPACE env ≠ "") then POD_NAMESPACE env
  else match pe_namespaceFile env with
       | inr data => let ns := TrimSpace data in if 0 <? len ns then ns else "default"
       | inl _ => "default"
       end.

(** The options, in the order they are given; the first error is fatal. *)
Fixpoint applyOptions (options : list option_function) (c : config) : gerror + config :=
  match options with
  | [] => inr c
  | option :: options' =>
      match option c with
      | inl err => inl err
      | inr c' => applyOptions options' c'
      end
  end.

Definition newConfig (env : processEnv) (hostname provisionerName : string) : config :=
  let id := hostname +:+ "_" +:+ pe_uuid env in
  {| c_id := id; c_component := provisionerName +:+ "_" +:+ id;
     c_provisionerName := provisionerName; c_additionalProvisionerNames := [];
     c_resyncPeriod := DefaultResyncPeriod; c_rateLimiter := None;
     c_exponentialBackOffOnError := DefaultExponentialBackOffOnError; c_threadiness := DefaultThreadiness;
     c_createProvisionedPVBackoff := None; c_createProvisionedPVRetryCount := 0;
     c_createProvisionedPVInterval := 0; c_createProvisionerPVLimiter := None;
     c_failedProvisionThreshold := DefaultFailedProvisionThreshold;
     c_failedDeleteThreshold := DefaultFailedDeleteThreshold;
     c_metricsPort := DefaultMetricsPort; c_metricsAddress := DefaultMetricsAddress;
     c_metricsPath := DefaultMetricsPath; c_addFinalizer := DefaultAddFinalizer;
     c_leaderElection := false; c_leaderElectionNamespace := getInClusterNamespace env;
     c_leaseDuration := DefaultLeaseDuration; c_renewDeadline := DefaultRenewDeadline;
     c_retryPeriod := DefaultRetryPeriod;
     c_claimInformer := None; c_volumeInformer := None; c_classInformer := None;
     c_customClaimInformer := false; c_customVolumeInformer := false; c_customClassInformer := false;
     c_hasRun := false |}.

(** The limiter both queues share. *)
Definition queueLimiter (c : config) : RateLimiterOf :=
  match c_rateLimiter c with
  | Some rateLimiter => rateLimiter
  | None =>
      if c_exponentialBackOffOnError c
      then MaxOfRateLimiter (ItemExponentialFailureRateLimiter (15 * second) (1000 * second)) (BucketRateLimiter 10 100)
      else MaxOfRateLimiter (ItemExponentialFailureRateLimiter (15 * second) (15 * second)) (BucketRateLimiter 10 100)
  end.

(** The defaults of the bounded store, unless a limiter or a backoff is given. *)
Definition completeSaving (c : config) : config :=
  match c_createProvisionerPVLimiter c, c_createProvisionedPVBackoff c with
  | None, None =>
      let c := if c_createProvisionedPVInterval c =? 0
               then set_createProvisionedPVInterval DefaultCreateProvisionedPVInterval c else c in
      let c := if c_createProvisionedPVRetryCount c =? 0
               then set_createProvisionedPVRetryCount DefaultCreateProvisionedPVRetryCount c else c in
      set_createProvisionedPVBackoff
        (Some {| bk_Duration := c_createProvisionedPVInterval c; bk_Factor := Some (λ d, d);
                 bk_Steps := c_createProvisionedPVRetryCount c; bk_Cap := 0 |}) c
  | _, _ => c
  end.

(** The informers that were not given are made: the class informer watches
    the API group the server has. *)
Definition completeInformers (version : Version) (c : config) : config :=
  let c := match c_claimInformer c with
           | None => set_claimInformer (Some "v1/PersistentVolumeClaims") c | Some _ => c end in
  let c := match c_volumeInformer c with
           | None => set_volumeInformer (Some "v1/PersistentVolumes") c | Some _ => c end in
  match c_classInformer c with
  | None => set_classInformer (Some (if AtLeast version 1 6 then "storage.k8s.io/v1/StorageClasses"
                                     else "storage.k8s.io/v1beta1/StorageClasses")) c
  | Some _ => c
  end.

(** The store a complete configuration asks for. *)
Definition storeOf `{!Api} (prov : Provisioner) (c : config) : VolumeStore :=
  match c_createProvisionerPVLimiter c, c_createProvisionedPVBackoff c with
  | Some _, _ => queueStore
  | None, Some backoff => backoffStore (attempts backoff) prov
  | None, None => backoffStore 0 prov
  end.

Definition controllerOf `{!Api} (prov : Provisioner) (version : Version) (c : config) : ProvisionController := {|
  provisionerName := c_provisionerName c;
  additionalProvisionerNames := c_additionalProvisionerNames c;
  provisioner := prov;
  kubeVersion := version;
  addFinalizer := c_addFinalizer c;
  failedProvisionThreshold := c_failedProvisionThreshold c;
  failedDeleteThreshold := c_failedDeleteThreshold c;
  volumeStore := storeOf prov c;
|}.

(** [glog.Fatalf] ends the process, and a version that does not parse panics. *)
Definition NewProvisionController `{!Api} (env : processEnv) (provisionerName : string) (prov : Provisioner)
    (kubeVersion : option Version) (options : list option_function)
    : outcome gerror (config * ProvisionController) :=
  match pe_hostname env with
  | inl err => Panic ("Error getting hostname: " +:+ Error err)
  | inr hostname =>
      match kubeVersion with
      | None => Panic "could not parse the version"
      | Some version =>
          match applyOptions options (newConfig env hostname provisionerName) with
          | inl err => Panic ("Error processing controller options: " +:+ Error err)
          | inr c =>
              let c := completeInformers version (completeSaving c) in
              Ret (c, controllerOf prov version c)
          end
      end
  end.

(** ** Start *)

(** What the start launches, one goroutine each. *)
Inductive task : Type :=
  | StoreRun (threadiness : Z)
  | InformerRun (informer : Informer)
  | ClaimWorker
  | VolumeWorker.

#[export] Instance task_eq_dec : EqDecision task.
Proof. solve_decision. Defined.

Definition startInformers (c : config) : list task :=
  (if c_customClaimInformer c then [] else InformerRun <$> option_list (c_claimInformer c)) ++
  (if c_customVolumeInformer c then [] else InformerRun <$> option_list (c_volumeInformer c)) ++
  (if c_customClassInformer c then [] else InformerRun <$> option_list (c_classInformer c)).

Definition startWorkers (c : config) : list task :=
  concat (replicate (Z.to_nat (c_threadiness c)) [ClaimWorker; VolumeWorker]).

(** The body that runs once the controller leads. [synced]: the caches are
    filled before the context ends. *)
Definition runLeading (synced : bool) (c : config) : config * list task :=
  (set_hasRun true c, startInformers c ++ (if synced then startWorkers c else [])).

(** [resourcelock.New] of the vendored client: only leases are left. *)
Definition resourcelock_New (lockType : string) : gerror + unit :=
  if decide (lockType = "endpoints") then inl (ErrorString "endpoints lock is removed, migrate to leases")
  else if decide (lockType = "configmaps") then inl (ErrorString "configmaps lock is removed, migrate to leases")
  else if decide (lockType = "leases") then inr tt
  else if decide (lockType = "endpointsleases") then inl (ErrorString "endpointsleases lock is removed, migrate to leases")
  else if decide (lockType = "configmapsleases") then inl (ErrorString "configmapsleases lock is removed, migrated to leases")
  else inl (ErrorString ("Invalid lock-type " +:+ lockType)).

(** [elected]: the election of this process takes place. *)
Definition Run (elected synced : bool) (c : config) : outcome gerror (config * list task) :=
  if c_leaderElection c then
    match resourcelock_New "endpoints" with
    | inl err => Panic ("Error creating lock: " +:+ Error err)
    | inr _ =>
        if elected then let '(c', ts) := runLeading synced c in Ret (c', StoreRun DefaultThreadiness :: ts)
        else Ret (c, [StoreRun DefaultThreadiness])
    end
  else let '(c', ts) := runLeading synced c in Ret (c', StoreRun DefaultThreadiness :: ts).
