(* ===== verification/ProvisionProps.v ===== *)
(** * Properties of the provision controller

    The controller that cmd/provisioner runs: the provision controller on the
    hostpath provisioner, with the defaults of [NewProvisionController]. *)
From S2P Require Import Prelude GoStrings GoPath GoErrors OS OSFacts Demo Json Utils WorkQueue Kube.
From S2P Require Import Provisioner VolumeStore ProvisionController.
Open Scope Z_scope.

(** The hostpath provisioner as the controller sees it. *)
Definition hostPathOps `{!Env} (p : hostPathProvisioner) : VolumeStore.Provisioner := {|
  p_Provision options := lift (Provision p options);
  p_Delete volume := lift (Delete p volume);
  p_ShouldProvision := Some (λ claim mode, lift (ShouldProvision p claim mode));
  p_ShouldDelete := None;
  p_SupportsBlock := None;
  p_ProvisionExt := None;
|}.

(** The controller [NewProvisionController] makes without options: five
    attempts to save a volume, fifteen failures before a key is given up, no
    finalizers. *)
Definition defaultController `{!Api} (name : string) (prov : VolumeStore.Provisioner) (version : Version)
    : ProvisionController := {|
  provisionerName := name;
  additionalProvisionerNames := [];
  provisioner := prov;
  kubeVersion := version;
  addFinalizer := false;
  failedProvisionThreshold := 15;
  failedDeleteThreshold := 15;
  volumeStore := backoffStore 5 prov;
|}.

Definition mainController `{!Env, !Api} (p : hostPathProvisioner) (version : Version) : ProvisionController :=
  defaultController defaultProvisionerName (hostPathOps p) version.

(** ** Versions *)

Lemma AtLeast_mono v major minor minor' :
  AtLeast v major minor = true → minor' ≤ minor → AtLeast v major minor' = true.
Proof.
  unfold AtLeast. intros H Hle. destruct (Z.ltb_spec major (ver_major v)); [done|]. simpl in *.
  apply andb_prop in H as [-> H]. simpl.
  destruct (Z.ltb_spec minor' (ver_minor v)); [done|]. simpl.
  destruct (Z.ltb_spec minor (ver_minor v)); [lia|]. simpl in H.
  apply andb_prop in H as [Hm H]. apply Z.eqb_eq in Hm. by rewrite (proj2 (Z.eqb_eq _ _)) by lia.
Qed.

(** ** Calls that work *)

Section calm.
Context `{!Env, !Api}.

(** The calls of one kind do not fail; no call fails. *)
Definition calm (c : apicall) : Prop := ∀ n s, api_fault n c s = None.
Definition api_calm : Prop := ∀ c, calm c.

(** What the operations of the controller read besides the operating system. *)
Definition kview (k : kworld) := (kw_pvs k, kw_heap k, kw_classes k).

Lemma lift_run {A} (m : M A) k o w : m (kw_os k) = (o, w) → lift m k = (o, set_os w k).
Proof. unfold lift. by intros ->. Qed.

Lemma load_run a claim k : kw_heap k !! a = Some claim → load a k = (Ret claim, k).
Proof. intros Hl. unfold load, bind, gets. by rewrite Hl. Qed.

Lemma getStorageClass_run name class k :
  kw_classes k !! name = Some (ClassV1 class) → getStorageClass name k = (Ret class, k).
Proof. intros Hl. unfold getStorageClass, bind, gets. by rewrite Hl. Qed.

Lemma getStorageClass_quiet name k :
  (∃ class, getStorageClass name k = (Ret class, k)) ∨ (∃ e, getStorageClass name k = (Fail e, k)).
Proof. unfold getStorageClass, bind, gets. destruct (kw_classes k !! name) as [[c|c|o]|]; eauto. Qed.

Lemma pv_get_run name k :
  calm ApiGetPV →
  pv_get name k = (match kw_pvs k !! name with Some pv => Ret pv | None => Fail (notFound name) end,
                   set_calls (S (kw_calls k)) k).
Proof. intros Hc. unfold pv_get, api. by rewrite Hc. Qed.

Lemma pv_create_run pv k :
  calm ApiCreatePV → kw_pvs k !! pv_Name pv = None →
  pv_create pv k = (Ret tt, set_calls (S (kw_calls k)) (set_pvs (<[pv_Name pv := pv]> (kw_pvs k)) k)).
Proof. intros Hc Hn. unfold pv_create, api. by rewrite Hc, Hn. Qed.

Lemma pv_delete_run name pv k :
  calm ApiDeletePV → kw_pvs k !! name = Some pv → pv_Finalizers pv = [] →
  pv_delete name k = (Ret tt, set_calls (S (kw_calls k)) (set_pvs (delete name (kw_pvs k)) k)).
Proof. intros Hc Hn Hf. unfold pv_delete, api. by rewrite Hc, Hn, Hf. Qed.

Lemma node_get_run name k :
  calm ApiGetNode → (∀ n, node_exists n name = true) → node_get name k = (Ret name, set_calls (S (kw_calls k)) k).
Proof. intros Hc Hn. unfold node_get, api. by rewrite Hc, Hn. Qed.
End calm.

(** ** A claim for this node *)

(** The request of the controller to the provisioner. *)
Definition optionsFor (claim : PersistentVolumeClaim) (class : StorageClass) (node : string) : ProvisionOptions :=
  {| po_StorageClass := class; po_PVName := getProvisionedVolumeNameForClaim claim; po_PVC := claim;
     po_SelectedNode := Some node |}.

(** A claim the scheduler gave to the node of [p], with its storage class, on a
    node with room for it. *)
Record provisionable `{!Env, !Api} (p : hostPathProvisioner) (a : nat) (claim : PersistentVolumeClaim)
    (class : StorageClass) (ref : ObjectReference) (st : Statfs_t) (k : kworld) : Prop := {
  pr_heap : kw_heap k !! a = Some claim;
  pr_unbound : pvc_VolumeName claim = "";
  pr_class : kw_classes k !! GetPersistentVolumeClaimClass claim = Some (ClassV1 class);
  pr_mode : sc_VolumeBindingMode class = Some VolumeBindingWaitForFirstConsumer;
  pr_provisioner : sc_Provisioner class = defaultProvisionerName;
  pr_node : pvc_Annotations claim !! annSelectedNode = Some (nodeName p);
  pr_unpinned : pvc_Annotations claim !! annProvisionOnNode = None;
  pr_ann : pvc_Annotations claim !! annStorageProvisioner = Some defaultProvisionerName;
  pr_files : pvc_Block claim = false;
  pr_ref : GetReference claim = inr ref;
  pr_exists : ∀ n, node_exists n (nodeName p) = true;
  pr_stat : ∀ n, statfs n (pvDir p) = inr st;
  pr_fits : default 0 (pvc_StorageRequest claim) ≤ pvCapacityOf st;
  pr_fresh : freshDir p (backingName p (optionsFor claim class (nodeName p))) (kw_os k);
  pr_new : kw_pvs k !! getProvisionedVolumeNameForClaim claim = None;
}.

Section provision.
Context `{!Env, !Api} (Hnf : no_faults) (Hget : calm ApiGetPV) (Hnode : calm ApiGetNode).
Context (p : hostPathProvisioner) (version : Version) (Hver : AtLeast version 1 11 = true).
Context (a : nat) (claim : PersistentVolumeClaim) (class : StorageClass) (ref : ObjectReference) (st : Statfs_t).

Lemma shouldProvision_ok k :
  provisionable p a claim class ref st k →
  ∃ k1, shouldProvision (mainController p version) a k = (Ret true, k1) ∧
    kw_os k1 = tickw (kw_os k) ∧ kview k1 = kview k.
Proof.
  intros Hp. unfold shouldProvision.
  erewrite run_bind_ret by (apply load_run, Hp). rewrite decide_False by (intros Hn; apply Hn, Hp).
  erewrite run_bind_ret by (apply getStorageClass_run, Hp). cbn [provisioner mainController defaultController hostPathOps p_ShouldProvision].
  rewrite (pr_mode _ _ _ _ _ _ _ Hp). erewrite run_bind_ret.
  2: { erewrite run_bind_ret.
       2: { apply lift_run, (ShouldProvision_taken _ _ _ st); [|apply Hp|apply Hp]. right. split_and!; [apply Hp|done|apply Hp]. }
       cbn [fst snd]. erewrite run_bind_ret by done. done. }
  rewrite (bool_decide_false (pvc_Annotations claim !! annProvisionOnNode = Some (nodeName p))) by (by rewrite (pr_unpinned _ _ _ _ _ _ _ Hp)).
  assert (set_annotations (pvc_Annotations claim) claim = claim) as -> by by destruct claim.
  cbn [negb]. erewrite run_bind_ret by (apply load_run; apply lookup_insert_eq).
  cbn [kubeVersion mainController defaultController]. rewrite (AtLeast_mono version 1 11 5) by done.
  rewrite (pr_ann _ _ _ _ _ _ _ Hp).
  unfold knownProvisioner. cbn [provisionerName mainController defaultController].
  rewrite bool_decide_true by done. cbn [orb]. eexists. split; [done|]. split; [done|].
  unfold kview. cbn. by rewrite insert_id by apply Hp.
Qed.

(** The object that is saved. *)
Definition savedPV : PersistentVolume :=
  decorate (mainController p version) (GetPersistentVolumeClaimClass claim) ref
    (provisionedPV p (optionsFor claim class (nodeName p)) (pvCapacityOf st)).

Lemma backoff_first steps prov c v k :
  calm ApiCreatePV → kw_pvs k !! pv_Name v = None →
  ∃ k1, backoffStore_StoreVolume (S steps) prov c v k = (Ret tt, k1) ∧
    kw_os k1 = kw_os k ∧ kw_pvs k1 = <[pv_Name v := v]> (kw_pvs k).
Proof.
  intros Hc Hn. unfold backoffStore_StoreVolume. erewrite run_bind_ret.
  2: { cbn [ExponentialBackoff]. erewrite run_bind_ret.
       2: { apply run_try_ret. erewrite run_bind_ret by (by apply run_try_ret, pv_create_run). done. }
       done. }
  by eexists.
Qed.

(** Up to the point where the volume is saved. *)
Lemma provisionClaimOperation_run k :
  provisionable p a claim class ref st k →
  ∃ k1, provisionClaimOperation (mainController p version) claim k =
      (r <- try (backoffStore_StoreVolume 5 (hostPathOps p) claim savedPV) ;;
       ret (ProvisioningFinished, match r with inr err => Some err | inl _ => None end)) k1 ∧
    w_fs (kw_os k1) = <[resolve (pvDir p) ++ [backingName p (optionsFor claim class (nodeName p))] := NDir]> (w_fs (kw_os k)) ∧
    w_mounts (kw_os k1) = w_mounts (kw_os k) ∧ kw_pvs k1 = kw_pvs k.
Proof.
  intros Hp. unfold provisionClaimOperation.
  erewrite run_bind_ret.
  2: { apply run_try_fail. etransitivity; [by apply pv_get_run|]. by rewrite (pr_new _ _ _ _ _ _ _ Hp). }
  cbv beta iota. rewrite (pr_ref _ _ _ _ _ _ _ Hp). erewrite run_bind_ret.
  2: { apply run_try_ret. unfold canProvision. by rewrite (pr_files _ _ _ _ _ _ _ Hp). }
  cbv beta iota. erewrite run_bind_ret by (apply run_try_ret, getStorageClass_run, Hp). cbv beta iota.
  unfold knownProvisioner at 1. cbn [provisionerName additionalProvisionerNames mainController defaultController].
  rewrite (bool_decide_true (sc_Provisioner class = _)) by apply Hp. cbn [orb negb].
  erewrite run_bind_ret.
  2: { apply run_try_ret. unfold selectedNode. cbn [kubeVersion mainController defaultController].
       rewrite Hver, (pr_node _ _ _ _ _ _ _ Hp).
       erewrite run_bind_ret by (apply node_get_run; [done|apply Hp]). done. }
  cbv beta iota. unfold provisionAndStore. erewrite run_bind_ret by done.
  fold (optionsFor claim class (nodeName p)). unfold callProvision.
  cbn [provisioner p_ProvisionExt p_Provision mainController defaultController hostPathOps volumeStore backoffStore vs_StoreVolume].
  erewrite run_bind_ret.
  2: { erewrite run_bind_ret.
       2: { apply run_try_ret, lift_run, (Provision_ok p (optionsFor claim class (nodeName p)) st); [done|apply Hp|apply Hp]. }
       done. }
  cbv beta iota. fold savedPV. by eexists.
Qed.

Lemma syncClaim_run k :
  provisionable p a claim class ref st k →
  ∃ k1, syncClaim (mainController p version) a k =
      (r <- try (backoffStore_StoreVolume 5 (hostPathOps p) claim savedPV) ;;
       ret (ProvisioningFinished, match r with inr err => Some err | inl _ => None end)) k1 ∧
    w_fs (kw_os k1) = <[resolve (pvDir p) ++ [backingName p (optionsFor claim class (nodeName p))] := NDir]> (w_fs (kw_os k)) ∧
    w_mounts (kw_os k1) = w_mounts (kw_os k) ∧ kw_pvs k1 = kw_pvs k.
Proof.
  intros Hp. destruct (shouldProvision_ok k Hp) as (k1&Hs&Hos&Hv). unfold syncClaim.
  erewrite run_bind_ret by (apply run_try_ret; exact Hs). cbv beta iota.
  unfold kview in Hv. injection Hv as Hpvs Hheap Hcls.
  assert (provisionable p a claim class ref st k1) as Hp1.
  { destruct Hp. split; rewrite ?Hheap, ?Hcls, ?Hpvs; try done. rewrite Hos. by destruct pr_fresh0. }
  erewrite run_bind_ret by (apply load_run, Hp1).
  destruct (provisionClaimOperation_run k1 Hp1) as (k2&Hrun&Hfs&Hm&Hpv). exists k2.
  split; [exact Hrun|]. rewrite Hfs, Hm, Hpv, Hos, Hpvs. done.
Qed.

Lemma syncClaim_ok k :
  calm ApiCreatePV → provisionable p a claim class ref st k →
  ∃ k1, syncClaim (mainController p version) a k = (Ret (ProvisioningFinished, None), k1) ∧
    w_fs (kw_os k1) = <[resolve (pvDir p) ++ [backingName p (optionsFor claim class (nodeName p))] := NDir]> (w_fs (kw_os k)) ∧
    w_mounts (kw_os k1) = w_mounts (kw_os k) ∧
    kw_pvs k1 = <[getProvisionedVolumeNameForClaim claim := savedPV]> (kw_pvs k).
Proof.
  intros Hc Hp. destruct (syncClaim_run k Hp) as (k2&->&Hfs&Hm&Hpvs2).
  destruct (backoff_first 4 (hostPathOps p) claim savedPV k2) as (k3&Hs&Hos&Hpvs); [done|rewrite Hpvs2; apply Hp|].
  erewrite run_bind_ret by (apply run_try_ret; exact Hs). exists k3. by rewrite Hos, Hpvs, Hpvs2.
Qed.

(** ** Deletion *)

Definition with_phase (ph : VolumePhase) (v : PersistentVolume) : PersistentVolume :=
  {| pv_Name := pv_Name v; pv_Annotations := pv_Annotations v; pv_Finalizers := pv_Finalizers v;
     pv_Deleting := pv_Deleting v; pv_Phase := ph; pv_ClaimRef := pv_ClaimRef v;
     pv_StorageClassName := pv_StorageClassName v; pv_ReclaimPolicy := pv_ReclaimPolicy v;
     pv_AccessModes := pv_AccessModes v; pv_Capacity := pv_Capacity v; pv_HostPath := pv_HostPath v;
     pv_NodeAffinity := pv_NodeAffinity v |}.

Lemma shouldDelete_saved k :
  shouldDelete (mainController p version) (with_phase VolumeReleased savedPV) k = (Ret true, k).
Proof.
  unfold shouldDelete. set (v := with_phase VolumeReleased savedPV).
  assert (pv_Annotations v !! annDynamicallyProvisioned = Some defaultProvisionerName) as Hann.
  { unfold v, savedPV. cbn. rewrite (AtLeast_mono version 1 11 6) by done. apply lookup_insert_eq. }
  change (pv_Deleting v) with false. change (pv_Phase v) with VolumeReleased.
  change (pv_ReclaimPolicy v) with PersistentVolumeReclaimDelete.
  change (kubeVersion (mainController p version)) with version.
  change (provisionerName (mainController p version)) with defaultProvisionerName.
  change (p_ShouldDelete (provisioner (mainController p version))) with (@None (PersistentVolume → K bool)).
  rewrite Hann. erewrite run_bind_ret by done. rewrite andb_false_r, (AtLeast_mono version 1 11 5) by done.
  by rewrite !bool_decide_true by done.
Qed.

Lemma syncVolume_ok k x :
  let name := backingName p (optionsFor claim class (nodeName p)) in
  calm ApiDeletePV → valid_name name →
  kw_pvs k !! getProvisionedVolumeNameForClaim claim = Some (with_phase VolumeReleased savedPV) →
  w_fs (kw_os k) !! (resolve (pvDir p) ++ [name]) = Some x →
  mounts_below (resolve (pvDir p) ++ [name]) (w_mounts (kw_os k)) = [] →
  ∃ k1, syncVolume (mainController p version) (with_phase VolumeReleased savedPV) k = (Ret tt, k1) ∧
    w_fs (kw_os k1) = rm_tree (resolve (pvDir p) ++ [name]) (w_fs (kw_os k)) ∧
    kw_pvs k1 = delete (getProvisionedVolumeNameForClaim claim) (kw_pvs k).
Proof.
  intros name Hdel Hname Hpv Hx Hm. unfold syncVolume.
  erewrite run_bind_ret by apply shouldDelete_saved. cbv beta iota. unfold deleteVolumeOperation.
  erewrite run_bind_ret.
  2: { apply run_try_ret. etransitivity; [by apply pv_get_run|].
       cbn [pv_Name with_phase savedPV decorate provisionedPV optionsFor po_PVName]. by rewrite Hpv. }
  cbv beta iota. erewrite run_bind_ret by apply shouldDelete_saved. cbn [negb].
  cbn [provisioner p_Delete mainController defaultController hostPathOps].
  erewrite run_bind_ret.
  2: { apply run_try_ret, lift_run, (Delete_ok _ _ name x); try done.
       - cbn. by rewrite (AtLeast_mono version 1 11 6) by done.
       - cbn. by rewrite (AtLeast_mono version 1 11 6) by done.
       - cbn [pv_HostPath with_phase savedPV decorate provisionedPV]. by rewrite backingPath_join. }
  cbv beta iota. cbn [addFinalizer mainController defaultController andb]. erewrite run_bind_ret.
  2: { apply (pv_delete_run _ (with_phase VolumeReleased savedPV)); done. }
  by eexists.
Qed.
End provision.

(** C12: The life of a claim, when no call fails: a claim the scheduler gave to this node gets one
    new directory and one volume object, named after the claim, bound to it, of the class of the
    claim and of the rounded size of the file system. Once the claim is gone and the volume has been
    released, with whatever data is in it, the volume worker removes the directory and the object, and the tree is what it was
    before the claim. *)
Theorem claim_lifecycle `{!Env, !Api} p version a claim class ref st k :
  no_faults → api_calm → AtLeast version 1 11 = true → provisionable p a claim class ref st k →
  let dir := resolve (pvDir p) ++ [backingName p (optionsFor claim class (nodeName p))] in
  ∃ pv k1, syncClaim (mainController p version) a k = (Ret (ProvisioningFinished, None), k1) ∧
    kw_pvs k1 = <[getProvisionedVolumeNameForClaim claim := pv]> (kw_pvs k) ∧
    w_fs (kw_os k1) = <[dir := NDir]> (w_fs (kw_os k)) ∧
    pv_ClaimRef pv = Some ref ∧ pv_StorageClassName pv = GetPersistentVolumeClaimClass claim ∧
    pv_Capacity pv = pvCapacityOf st ∧ (resolve <$> pv_HostPath pv) = Some dir ∧
    ∀ k2, w_mounts (kw_os k2) = w_mounts (kw_os k1) →
      (∀ q, ¬ dir `prefix_of` q → w_fs (kw_os k2) !! q = w_fs (kw_os k1) !! q) →
      w_fs (kw_os k2) !! dir = Some NDir →
      kw_pvs k2 !! getProvisionedVolumeNameForClaim claim = Some (with_phase VolumeReleased pv) →
      ∃ k3, syncVolume (mainController p version) (with_phase VolumeReleased pv) k2 = (Ret tt, k3) ∧
        w_fs (kw_os k3) = w_fs (kw_os k) ∧
        kw_pvs k3 = delete (getProvisionedVolumeNameForClaim claim) (kw_pvs k2).
Proof.
  intros Hnf Hapi Hver Hp dir. pose proof (pr_fresh _ _ _ _ _ _ _ Hp) as Hf.
  destruct (syncClaim_ok Hnf (Hapi _) (Hapi _) p version Hver a claim class ref st k (Hapi _) Hp) as (k1&Hrun&Hfs&Hm&Hpv).
  exists (savedPV p version claim class ref st), k1. split_and!; [done|done|done|done| |done| |].
  - unfold savedPV. cbn. by rewrite (AtLeast_mono version 1 11 6).
  - cbn [pv_HostPath savedPV decorate provisionedPV]. cbn. f_equal. rewrite backingPath_join.
    apply resolve_Join, Hf.
  - intros k2 Hm2 Hout Hdir Hpv2.
    destruct (syncVolume_ok Hnf (Hapi _) p version Hver claim class ref st k2 NDir) as (k3&Hdel&Hfs3&Hpv3);
      [apply Hapi|apply Hf|done|done|rewrite Hm2, Hm; apply Hf|].
    exists k3. split_and!; [done| |done]. rewrite Hfs3. fold dir.
    trans (rm_tree dir (w_fs (kw_os k1))); [|by rewrite Hfs; apply rm_tree_insert_new; apply Hf].
    apply map_eq. intros q. rewrite !lookup_rm_tree. case_decide; [done|by apply Hout].
Qed.

(** Asking the provisioner changes only the annotations of the claim. *)
Lemma ShouldProvision_frame `{!Env} p pvc mode w :
  quiet w (ShouldProvision p pvc mode w).2 ∧
  ∀ b pvc', (ShouldProvision p pvc mode w).1 = Ret (b, pvc') → ∃ ann, pvc' = set_annotations ann pvc.
Proof.
  unfold ShouldProvision. destruct mode as [mode|]; [|done].
  destruct (isCorrectNodeByBindingMode _ _ _) as [[|] ann]; [|split; [done|]; intros; simplify_eq/=; by eexists].
  unfold bind, try, calculatePvCapacity, bind, unix_Statfs, reads.
  destruct (statfs _ _); simpl; (split; [done|]; intros; simplify_eq/=; by eexists).
Qed.

Lemma shouldProvision_frame `{!Env, !Api} ctrl p a claim k :
  provisioner ctrl = hostPathOps p →
  kw_heap k !! a = Some claim →
  let k1 := (shouldProvision ctrl a k).2 in
  quiet (kw_os k) (kw_os k1) ∧ kw_pvs k1 = kw_pvs k ∧
  ∃ ann, kw_heap k1 !! a = Some (set_annotations ann claim).
Proof.
  intros Hprov Hh. assert (∃ ann, kw_heap k !! a = Some (set_annotations ann claim)) as Hid.
  { exists (pvc_Annotations claim). rewrite Hh. by destruct claim. }
  cut (wp (shouldProvision ctrl a) (λ _ k1, quiet (kw_os k) (kw_os k1) ∧
    kw_pvs k1 = kw_pvs k ∧ ∃ ann, kw_heap k1 !! a = Some (set_annotations ann claim)) k); [done|].
  unfold shouldProvision. apply wp_bind, (wp_run _ _ _ _ _ (load_run a claim k Hh)). cbn [bind_post].
  case_decide; [by apply wp_ret|]. apply wp_bind.
  destruct (getStorageClass_quiet (GetPersistentVolumeClaimClass claim) k) as [(class&Hc)|[e Hc]];
    apply (wp_run _ _ _ _ _ Hc); [|done]. cbn [bind_post]. apply wp_bind.
  rewrite Hprov. cbn [hostPathOps p_ShouldProvision]. apply wp_bind.
  destruct (ShouldProvision_frame p claim (sc_VolumeBindingMode class) (kw_os k)) as [Hq Hann].
  destruct (ShouldProvision p claim (sc_VolumeBindingMode class) (kw_os k)) as [o w'] eqn:Hr. cbn [fst snd] in *.
  apply (wp_run _ _ _ _ _ (lift_run _ k _ _ Hr)). destruct o as [[b c']|e|pn]; cbn [bind_post]; [|done|done].
  destruct (Hann b c' eq_refl) as [ann ->]. cbn [fst snd]. unfold wp at 1. cbn -[wp].
  destruct b; cbn [negb]; [|apply wp_ret; split_and!; [done|done|]; exists ann; apply lookup_insert_eq].
  apply wp_bind, (wp_run _ _ _ _ _ (load_run a _ _ (lookup_insert_eq _ _ _))). cbn [bind_post].
  case_match; (apply wp_ret; split_and!; [done|done|]; exists ann; apply lookup_insert_eq).
Qed.

(** Provisioning is not repeated: while the API server holds the volume of a claim and
    answers, syncing the claim again, in whatever state the claim, its class and the node are,
    changes neither the tree nor the mounts nor the volumes. *)
Theorem claim_sync_idempotent `{!Env, !Api} p version a claim pv k :
  api_calm → kw_heap k !! a = Some claim →
  kw_pvs k !! getProvisionedVolumeNameForClaim claim = Some pv →
  let k1 := (syncClaim (mainController p version) a k).2 in
  w_fs (kw_os k1) = w_fs (kw_os k) ∧ w_mounts (kw_os k1) = w_mounts (kw_os k) ∧ kw_pvs k1 = kw_pvs k.
Proof.
  intros Hapi Hh Hpv. cbv zeta.
  destruct (shouldProvision_frame (mainController p version) p a claim k eq_refl Hh) as ((Hfs&Hm&_)&Hpvs&ann&Hh1).
  cut (wp (syncClaim (mainController p version) a) (λ _ k1, w_fs (kw_os k1) = w_fs (kw_os k) ∧
    w_mounts (kw_os k1) = w_mounts (kw_os k) ∧ kw_pvs k1 = kw_pvs k) k); [done|].
  unfold syncClaim. apply wp_bind, wp_try. unfold wp at 1.
  destruct (shouldProvision _ a k) as [[[|]|e|pn] k1]; cbn [fst snd bind_post] in *; try done.
  apply wp_bind, (wp_run _ _ _ _ _ (load_run a _ k1 Hh1)). cbn [bind_post]. unfold provisionClaimOperation.
  change (getProvisionedVolumeNameForClaim (set_annotations ann claim)) with (getProvisionedVolumeNameForClaim claim).
  pose proof (pv_get_run (getProvisionedVolumeNameForClaim claim) k1 (Hapi _)) as Hget. rewrite Hpvs, Hpv in Hget.
  by apply wp_bind, (wp_run _ _ _ _ _ (run_try_ret _ _ _ _ Hget)).
Qed.

(** A claim for node1, its class, and the controller of that node. *)
Definition demoApi : Api := {|
  api_fault _ _ _ := None;
  node_exists _ _ := true;
  GetReference c := inr {| or_Namespace := pvc_Namespace c; or_Name := pvc_Name c; or_UID := pvc_UID c |};
|}.
Definition demoClass : StorageClass := po_StorageClass demoOptions.
Definition demoClaim : PersistentVolumeClaim :=
  set_annotations {[ annSelectedNode := "node1"; annStorageProvisioner := defaultProvisionerName ]} (po_PVC demoOptions).
Definition demoRef : ObjectReference := {| or_Namespace := "default"; or_Name := "disk"; or_UID := "1" |}.
Definition demoVersion : Version := {| ver_major := 1; ver_minor := 29; ver_patch := 3; ver_release := true |}.
Definition demoKworld : kworld :=
  {| kw_os := demoPvWorld; kw_pvs := ∅; kw_heap := {[ 0%nat := demoClaim ]};
     kw_claims := {[ "1" := 0%nat ]}; kw_volumes := ∅; kw_classes := {[ "hpp" := ClassV1 demoClass ]};
     kw_inProgress := ∅; kw_claimQueue := emptyQueue; kw_volumeQueue := emptyQueue; kw_limiter := ∅;
     kw_saveQueue := emptyQueue; kw_saveLimiter := ∅; kw_unsaved := ∅; kw_events := []; kw_calls := 0%nat |}.

Lemma demo_provisionable :
  provisionable (H0 := demoApi) demoProvisioner 0 demoClaim demoClass demoRef demo_statfs demoKworld.
Proof. split; try done. split; [by_wf|done|by_decide|done|done]. Qed.

Lemma claim_lifecycle_witness :
  ∃ pv k1 k3, syncClaim (H := demoApi) (mainController (H0 := demoApi) demoProvisioner demoVersion) 0 demoKworld
      = (Ret (ProvisioningFinished, None), k1) ∧
    w_fs (kw_os k1) !! ["pv"; "disk-pvc-1"] = Some NDir ∧ pv_Capacity pv = nano * (2048 * 1048576) ∧
    let k2 := set_pvs {[ "pvc-1" := with_phase VolumeReleased pv ]} k1 in
    syncVolume (H := demoApi) (mainController (H0 := demoApi) demoProvisioner demoVersion)
      (with_phase VolumeReleased pv) k2 = (Ret tt, k3) ∧
    w_fs (kw_os k3) = w_fs demoPvWorld ∧ kw_pvs k3 = ∅.
Proof.
  destruct (claim_lifecycle (H0 := demoApi) demoProvisioner demoVersion 0 demoClaim demoClass demoRef demo_statfs demoKworld)
    as (pv&k1&Hs&Hpvs&Hfs&_&_&Hcap&_&Hdel); [done|done|done|exact demo_provisionable|].
  destruct (Hdel (set_pvs {[ "pvc-1" := with_phase VolumeReleased pv ]} k1)) as (k3&Hv&Hfs3&Hpvs3);
    [done|done|cbn [kw_os set_pvs]; rewrite Hfs; apply lookup_insert_eq|reflexivity|].
  exists pv, k1, k3. cbv zeta. split_and!; [exact Hs| | |exact Hv|exact Hfs3|].
  - rewrite Hfs. vm_compute. reflexivity.
  - rewrite Hcap. vm_compute. reflexivity.
  - rewrite Hpvs3. reflexivity.
Defined.

Lemma claim_sync_idempotent_witness :
  let pv := provisionedPV demoProvisioner demoOptions 0 in
  let k := set_pvs {[ "pvc-1" := pv ]} demoKworld in
  kw_pvs (syncClaim (H := demoApi) (mainController (H0 := demoApi) demoProvisioner demoVersion) 0 k).2 = {[ "pvc-1" := pv ]}.
Proof.
  intros pv k.
  destruct (claim_sync_idempotent (H0 := demoApi) demoProvisioner demoVersion 0 demoClaim pv k) as (_&_&Hp);
    [done|reflexivity|reflexivity|exact Hp].
Defined.
