(* ===== verification/ProvisionSafety.v ===== *)
(** * What the provision controller does when calls fail

    A volume that cannot be saved is given back, and a sync of a volume
    removes nothing but the directory of a volume that is really to be
    deleted, whatever calls fail. *)
From S2P Require Import Prelude GoStrings GoPath GoErrors OS OSFacts Demo Json Utils WorkQueue Kube.
From S2P Require Import Provisioner VolumeStore ProvisionController ProvisionProps.
Open Scope Z_scope.

(** ** Saving *)

(** Every attempt to create the object fails and has no effect. *)
Definition creates_refused `{!Api} (e : gerror) : Prop :=
  (∀ n s, api_fault n ApiCreatePV s = Some (e, false)) ∧ api_IsAlreadyExists e = false.

Section saving.
Context `{!Api}.

(** All attempts are used up, and the last error is kept. *)
Lemma backoff_exhausted e steps attempt last k :
  (∀ k, ∃ k1, attempt k = (Fail e, k1) ∧ kw_os k1 = kw_os k ∧ kw_pvs k1 = kw_pvs k) →
  ∃ k1, ExponentialBackoff steps attempt last k = (Ret (false, match steps with O => last | S _ => Some e end), k1) ∧
    kw_os k1 = kw_os k ∧ kw_pvs k1 = kw_pvs k.
Proof.
  intros Hatt. revert last k. induction steps as [|steps IH]; intros last k; cbn [ExponentialBackoff]; [by exists k|].
  destruct (Hatt k) as (k1&Hr&Hos&Hpv). erewrite run_bind_ret by (apply run_try_fail; exact Hr). cbv beta iota.
  destruct (IH (Some e) k1) as (k2&->&Hos2&Hpv2). exists k2. rewrite Hos2, Hpv2. by destruct steps.
Qed.

Lemma create_refused e v k :
  creates_refused e →
  ∃ k1, (r <- try (pv_create v) ;;
         match r with
         | inl _ => ret tt
         | inr err => if api_IsAlreadyExists err then ret tt else fail err
         end) k = (Fail e, k1) ∧ kw_os k1 = kw_os k ∧ kw_pvs k1 = kw_pvs k.
Proof.
  intros [Hf He]. erewrite run_bind_ret.
  2: { apply run_try_fail. unfold pv_create, api. by rewrite Hf. }
  cbv beta iota. rewrite He. by eexists.
Qed.

(** The asset is deleted, and the caller gets the error of the API server. *)
Lemma backoff_refused e steps prov c v k k' :
  creates_refused e → 
  (∀ k1, kw_os k1 = kw_os k → ∃ k2, p_Delete prov v k1 = (Ret tt, k2) ∧ kw_os k2 = k' ∧ kw_pvs k2 = kw_pvs k1) →
  ∃ k1, backoffStore_StoreVolume (S steps) prov c v k = (Fail e, k1) ∧ kw_os k1 = k' ∧ kw_pvs k1 = kw_pvs k.
Proof.
  intros He Hdel. unfold backoffStore_StoreVolume.
  destruct (backoff_exhausted e (S steps) _ None k (λ k, create_refused e v k He)) as (k1&Hr&Hos&Hpv).
  erewrite run_bind_ret by exact Hr. cbv beta iota. erewrite run_bind_ret by done.
  match goal with |- ∃ _, bind _ _ ?kk = _ ∧ _ => destruct (Hdel kk) as (k2&Hd&Hos2&Hpv2); [done|] end.
  erewrite run_bind_ret.
  2: { cbn [ExponentialBackoff]. erewrite run_bind_ret by (apply run_try_ret; exact Hd). done. }
  cbv beta iota. erewrite run_bind_ret by done. exists k2. split; [done|]. split; [done|].
  rewrite Hpv2. exact Hpv.
Qed.
End saving.

(** C22: When no system call fails, storage does not leak when the volume object cannot be saved: if the API server refuses
    every attempt to create the object of a claim that is provisioned, the sync ends with that error (so
    that the claim is retried), and the directory that was made for the volume is gone again: tree, mounts and volumes are what they were.
    (A removal that fails in the clean-up leaves the directory, as the code says.) *)
Theorem save_failure_cleans `{!Env, !Api} p version a claim class ref st e k :
  no_faults → calm ApiGetPV → calm ApiGetNode → creates_refused e → AtLeast version 1 11 = true →
  provisionable p a claim class ref st k →
  ∃ k1, syncClaim (mainController p version) a k = (Ret (ProvisioningFinished, Some e), k1) ∧
    w_fs (kw_os k1) = w_fs (kw_os k) ∧ w_mounts (kw_os k1) = w_mounts (kw_os k) ∧ kw_pvs k1 = kw_pvs k.
Proof.
  intros Hnf Hget Hnode He Hver Hp. pose proof (pr_fresh _ _ _ _ _ _ _ Hp) as Hf.
  destruct (syncClaim_run Hnf Hget Hnode p version Hver a claim class ref st k Hp) as (k1&->&Hfs&Hm&Hpvs).
  set (name := backingName p (optionsFor claim class (nodeName p))) in *.
  set (w2 := tickw (set_fs (rm_tree (resolve (pvDir p) ++ [name]) (w_fs (kw_os k1))) (kw_os k1))).
  destruct (backoff_refused e 4 (hostPathOps p) claim (savedPV p version claim class ref st) k1 w2 He)
    as (k2&Hs&Hos2&Hpvs2).
  { intros k2 Hos. exists (set_os w2 k2). split_and!; [|done|done]. apply lift_run. rewrite Hos.
    apply (Delete_ok _ _ name NDir); try done.
    - cbn. by rewrite (AtLeast_mono version 1 11 6) by done.
    - cbn. by rewrite (AtLeast_mono version 1 11 6) by done.
    - cbn [pv_HostPath savedPV decorate provisionedPV]. by rewrite backingPath_join.
    - apply Hf.
    - rewrite Hfs. apply lookup_insert_eq.
    - rewrite Hm. apply Hf. }
  erewrite run_bind_ret by (apply run_try_fail; exact Hs). exists k2. split_and!; [done| | |by rewrite Hpvs2].
  - rewrite Hos2. unfold w2. cbn [w_fs tickw set_fs]. rewrite Hfs. apply rm_tree_insert_new; apply Hf.
  - by rewrite Hos2.
Qed.

Definition refusingApi : Api := {|
  api_fault _ c _ := match c with ApiCreatePV => Some (ErrorString "quota exceeded", false) | _ => None end;
  node_exists _ _ := true;
  GetReference c := inr {| or_Namespace := pvc_Namespace c; or_Name := pvc_Name c; or_UID := pvc_UID c |};
|}.

Lemma save_failure_cleans_witness :
  ∃ k1, syncClaim (H := refusingApi) (mainController (H0 := refusingApi) demoProvisioner demoVersion) 0 demoKworld
      = (Ret (ProvisioningFinished, Some (ErrorString "quota exceeded")), k1) ∧
    w_fs (kw_os k1) = w_fs demoPvWorld ∧ kw_pvs k1 = ∅.
Proof.
  destruct (save_failure_cleans (H0 := refusingApi) demoProvisioner demoVersion 0 demoClaim demoClass demoRef
    demo_statfs (ErrorString "quota exceeded") demoKworld) as (k1&Hs&Hfs&_&Hpv); [done|done|done|done|done| |].
  - split; try done. split; [by_wf|done|by_decide|done|done].
  - exists k1. split_and!; [exact Hs|exact Hfs|exact Hpv].
Defined.

(** ** Deleting *)

(** The API object says that the volume is to be deleted by us. *)
Record deletable (v : PersistentVolume) : Prop := {
  dl_released : pv_Phase v = VolumeReleased;
  dl_unmarked : pv_Deleting v = false;
  dl_policy : pv_ReclaimPolicy v = PersistentVolumeReclaimDelete;
  dl_provisioner : pv_Annotations v !! annDynamicallyProvisioned = Some defaultProvisionerName;
}.

(** The volume was provisioned on the node of [p]. *)
Definition ours (p : hostPathProvisioner) (v : PersistentVolume) : Prop :=
  pv_Annotations v !! annIdentity = Some (identity p) ∧ pv_Annotations v !! annProvisionOnNode = Some (nodeName p).

Section deleting.
Context `{!Env, !Api} (p : hostPathProvisioner) (version : Version) (Hver : AtLeast version 1 11 = true).

Lemma shouldDelete_run v k :
  ∃ b, shouldDelete (mainController p version) v k = (Ret b, k) ∧ (b = true ↔ deletable v).
Proof.
  unfold shouldDelete. cbn [provisioner mainController defaultController hostPathOps p_ShouldDelete].
  erewrite run_bind_ret by done. cbn [negb kubeVersion provisionerName mainController defaultController].
  rewrite (AtLeast_mono version 1 11 9), (AtLeast_mono version 1 11 5) by done. cbn [andb].
  destruct (pv_Deleting v) eqn:Hd; [exists false; split; [done|]; split; [done|intros []; congruence]|].
  case_bool_decide as Hph; cbn [negb]; [|exists false; split; [done|]; split; [done|by intros []]].
  case_bool_decide as Hpol; cbn [negb]; [|exists false; split; [done|]; split; [done|by intros []]].
  destruct (pv_Annotations v !! annDynamicallyProvisioned) as [ann|] eqn:Ha.
  - exists (bool_decide (ann = defaultProvisionerName)). split; [done|]. rewrite bool_decide_eq_true. split.
    + by intros ->.
    + intros []. congruence.
  - exists false. split; [done|]. split; [done|]. intros []. congruence.
Qed.

Lemma pv_get_view name k :
  kw_os (pv_get name k).2 = kw_os k ∧ kw_pvs (pv_get name k).2 = kw_pvs k ∧
  ∀ v, (pv_get name k).1 = Ret v → kw_pvs k !! name = Some v.
Proof.
  unfold pv_get, api. destruct (api_fault _ _ _) as [[e [|]]|]; cbn; [done..|].
  split_and!; [done|done|]. intros v. destruct (kw_pvs k !! name); naive_solver.
Qed.

Lemma pv_delete_view name k :
  kw_os (pv_delete name k).2 = kw_os k ∧
  ∀ n, n ≠ name → kw_pvs (pv_delete name k).2 !! n = kw_pvs k !! n.
Proof.
  assert (∀ n, n ≠ name → ∀ pv, match pv_Finalizers pv with
    | [] => delete name (kw_pvs k)
    | fs => <[name := set_pv_meta fs true pv]> (kw_pvs k) end !! n = kw_pvs k !! n) as Hout.
  { intros n Hn pv. case_match; [by rewrite lookup_delete_ne|by rewrite lookup_insert_ne]. }
  unfold pv_delete, api. destruct (api_fault _ _ _) as [[e [|]]|]; destruct (kw_pvs k !! name) as [pv|] eqn:Hl;
    cbn; (split; [done|]); intros n Hn; auto.
Qed.

(** The provisioner removes only the directory of its own volume, and when it
    reports success nothing of it is left. *)
Lemma Delete_view v path w :
  pv_HostPath v = Some path → wf_fs (w_fs w) → path ≠ "" → mounts_below (resolve path) (w_mounts w) = [] →
  let w1 := (Delete p v w).2 in
  (∀ q, w_fs w1 !! q ≠ w_fs w !! q → resolve path `prefix_of` q ∧ w_fs w1 !! q = None) ∧
  (w1 = w ∨ ours p v) ∧
  ((Delete p v w).1 = Ret tt → ours p v ∧ ∀ q, resolve path `prefix_of` q → w_fs w1 !! q = None).
Proof.
  intros Hpath Hwf Hne Hm. unfold Delete, ours. cbv zeta.
  destruct (pv_Annotations v !! annIdentity) as [ann|]; [|by split_and!; auto].
  case_decide as Hid; [|by split_and!; auto]. subst ann.
  destruct (isCorrectNode _ _ _) eqn:Hnode; [|by split_and!; auto].
  apply isCorrectNode_spec in Hnode. rewrite Hpath. destruct (RemoveAll_frame path w) as [_ Hk]. split_and!.
  - intros q Hq. destruct (RemoveAll_removes_only path w q) as [?|Hn]; [done|]. split; [|done].
    destruct (decide (resolve path `prefix_of` q)); [done|]. by destruct Hq; apply Hk.
  - by right.
  - intros Hr. split; [done|]. destruct (os_RemoveAll path w) as [o w1] eqn:Hrun. cbn in *. subst o.
    by eapply RemoveAll_gone.
Qed.
End deleting.

(** What a sync of [v], whose directory is [dir], may change. *)
Record volume_effect (p : hostPathProvisioner) (v : PersistentVolume) (dir : path) (k k1 : kworld) : Prop := {
  ve_tree : ∀ q, w_fs (kw_os k1) !! q ≠ w_fs (kw_os k) !! q → dir `prefix_of` q ∧ w_fs (kw_os k1) !! q = None;
  ve_volumes : ∀ n, kw_pvs k1 !! n ≠ kw_pvs k !! n → n = pv_Name v;
  ve_cause : w_fs (kw_os k1) ≠ w_fs (kw_os k) ∨ kw_pvs k1 ≠ kw_pvs k →
    deletable v ∧ ours p v ∧ ∃ fresh, kw_pvs k !! pv_Name v = Some fresh ∧ deletable fresh;
  ve_order : kw_pvs k1 ≠ kw_pvs k → ∀ q, dir `prefix_of` q → w_fs (kw_os k1) !! q = None;
}.

Lemma volume_effect_none p v dir k k1 :
  kw_os k1 = kw_os k → kw_pvs k1 = kw_pvs k → volume_effect p v dir k k1.
Proof. intros Ho Hp. split; rewrite ?Ho, ?Hp; naive_solver. Qed.

(** C19: A volume is deleted only for good reason, whatever calls of the operating system and of the API
    server fail. Syncing a volume changes nothing but the directory of the volume,
    from which it only removes, and the object of the volume. It changes anything only if both the cached
    copy and the object the API server holds are released, not yet marked as deleted, to be deleted
    and provisioned by us, and the volume belongs to this node. The object changes only after
    the directory is gone entirely, so that no directory is forgotten. *)
Theorem volume_sync_safe `{!Env, !Api} p version v path k :
  AtLeast version 1 11 = true → wf_fs (w_fs (kw_os k)) → pv_HostPath v = Some path → path ≠ "" →
  mounts_below (resolve path) (w_mounts (kw_os k)) = [] →
  volume_effect p v (resolve path) k (syncVolume (mainController p version) v k).2.
Proof.
  intros Hver Hwf Hpath Hne Hm.
  cut (wp (syncVolume (mainController p version) v) (λ _, volume_effect p v (resolve path) k) k); [done|].
  unfold syncVolume. destruct (shouldDelete_run p version Hver v k) as (b&Hb&Hdel).
  apply wp_bind, (wp_run _ _ _ _ _ Hb). cbn [bind_post]. destruct b; [|by apply wp_ret, volume_effect_none].
  destruct Hdel as [Hdel _]. specialize (Hdel eq_refl). unfold deleteVolumeOperation. apply wp_bind, wp_try.
  destruct (pv_get_view (pv_Name v) k) as (Hos1&Hpv1&Hfresh).
  destruct (pv_get (pv_Name v) k) as [o k1] eqn:Hg. apply (wp_run _ _ _ _ _ Hg). cbn [fst snd] in *.
  destruct o as [fresh|e|pn]; cbn [bind_post]; [|by apply volume_effect_none..].
  specialize (Hfresh fresh eq_refl). apply wp_bind.
  destruct (shouldDelete_run p version Hver fresh k1) as (b&Hb1&Hdel1).
  apply (wp_run _ _ _ _ _ Hb1). cbn [bind_post]. destruct b; cbn [negb]; [|by apply wp_ret, volume_effect_none].
  destruct Hdel1 as [Hdel1 _]. specialize (Hdel1 eq_refl).
  cbn [provisioner p_Delete mainController defaultController hostPathOps]. apply wp_bind, wp_try.
  destruct (Delete_view p v path (kw_os k)) as (Htree&Hours&Hgone); [done..|].
  destruct (Delete p v (kw_os k)) as [o w1] eqn:Hd. cbn [fst snd] in *.
  assert (w_fs w1 ≠ w_fs (kw_os k) → ours p v) as Hours' by (intros; destruct Hours as [->|]; done).
  rewrite <-Hos1 in Hd. apply (wp_run _ _ _ _ _ (lift_run _ k1 _ _ Hd)).
  assert (∀ k2, kw_os k2 = w1 → kw_pvs k2 = kw_pvs k → volume_effect p v (resolve path) k k2) as Hmid.
  { intros k2 Ho Hp. split; rewrite ?Ho, ?Hp; [done|done| |done]. intros [Hc|]; [|done].
    split_and!; eauto. }
  destruct o as [[]|e|pn]; cbn [bind_post]; [|destruct e; by apply Hmid|by apply Hmid].
  destruct (Hgone eq_refl) as [Hours1 Hgone1]. apply wp_bind. unfold wp at 1.
  match goal with |- context [pv_delete ?n ?kk] => destruct (pv_delete_view n kk) as [Hos2 Hpv2]; destruct (pv_delete n kk) as [o2 k2] end.
  cbn [fst snd kw_os kw_pvs set_os] in *.
  assert (volume_effect p v (resolve path) k k2) as Hend.
  { rewrite Hpv1 in Hpv2. split; rewrite ?Hos2; [done| | |done].
    - intros n Hn. destruct (decide (n = pv_Name v)); [done|]. by destruct Hn; apply Hpv2.
    - intros _. split_and!; eauto. }
  by destruct o2.
Qed.

(** A released volume of node1, with its directory. *)
Definition demoPV : PersistentVolume :=
  with_phase VolumeReleased (savedPV (H := calmEnv) (H0 := demoApi) demoProvisioner demoVersion demoClaim demoClass demoRef demo_statfs).
Definition demoReleased : kworld :=
  set_os (World (tree [(["pv"], NDir); (["pv"; "disk-pvc-1"], NDir)]) [] 0 0) (set_pvs {[ "pvc-1" := demoPV ]} demoKworld).

Lemma volume_sync_safe_witness :
  let k1 := (syncVolume (H := demoApi) (mainController (H0 := demoApi) demoProvisioner demoVersion) demoPV demoReleased).2 in
  w_fs (kw_os k1) !! ["pv"; "disk-pvc-1"] = None ∧ deletable demoPV.
Proof.
  pose proof (volume_sync_safe (H0 := demoApi) demoProvisioner demoVersion demoPV "/pv/disk-pvc-1" demoReleased) as Hs.
  destruct Hs as [_ _ Hcause Horder]; [done|by_wf|reflexivity|done|reflexivity|]. cbv zeta.
  assert (kw_pvs (syncVolume (H := demoApi) (mainController (H0 := demoApi) demoProvisioner demoVersion) demoPV demoReleased).2
    !! "pvc-1" ≠ kw_pvs demoReleased !! "pvc-1") as Hne by (vm_compute; discriminate).
  split; [apply Horder|apply Hcause; right].
  - congruence.
  - by_decide.
  - congruence.
Defined.
