(* ===== verification/ProvisionQueue.v ===== *)
(** * The workers of the provision controller

    Workers, informers and delays interleave on the two work queues. The
    steps are the parts of the code between which other goroutines run: the
    handler of an informer event, taking a key, the sync of a key, and what
    a worker does with the result. *)
From S2P Require Import Prelude GoStrings GoPath GoErrors OS OSFacts Demo Json Utils WorkQueue Kube.
From S2P Require Import Provisioner VolumeStore ProvisionController ProvisionProps.
Open Scope Z_scope.

(** The state, and the keys the workers of each kind have taken and are not
    done with. *)
Record sched := Sched { sd_k : kworld; sd_claims : list string; sd_volumes : list string }.

(** The queues and the failure counts are left alone. *)
Definition keeps_queues (k k' : kworld) : Prop :=
  kw_claimQueue k' = kw_claimQueue k ∧ kw_volumeQueue k' = kw_volumeQueue k ∧ kw_limiter k' = kw_limiter k.

#[export] Instance keeps_queues_preorder : PreOrder keeps_queues.
Proof. split; unfold keeps_queues; [by intros k|]. intros k1 k2 k3. intuition congruence. Qed.

Section steps.
Context `{!Api} (ctrl : ProvisionController).

(** A worker may end a sync with any result; everything but the queues may
    change under the controller at any time. *)
Inductive step : sched → sched → Prop :=
  | step_claim_event ev k cs vs : step (Sched k cs vs) (Sched (claimHandler ev k).2 cs vs)
  | step_volume_event ev k cs vs : step (Sched k cs vs) (Sched (volumeHandler ev k).2 cs vs)
  | step_others k k' cs vs : keeps_queues k k' → step (Sched k cs vs) (Sched k' cs vs)
  | step_fire_claim key k cs vs :
      key ∈ q_waiting (kw_claimQueue k) →
      step (Sched k cs vs) (Sched (set_claimQueue (fire key (kw_claimQueue k)) k) cs vs)
  | step_fire_volume key k cs vs :
      key ∈ q_waiting (kw_volumeQueue k) →
      step (Sched k cs vs) (Sched (set_volumeQueue (fire key (kw_volumeQueue k)) k) cs vs)
  | step_take_claim key q k cs vs :
      Get (kw_claimQueue k) = Some (key, q) →
      step (Sched k cs vs) (Sched (set_claimQueue q k) (key :: cs) vs)
  | step_sync_claim key k cs vs :
      key ∈ cs → step (Sched k cs vs) (Sched (syncClaimHandler ctrl key k).2 cs vs)
  | step_finish_claim key err k cs cs' vs :
      cs ≡ₚ key :: cs' → step (Sched k cs vs) (Sched (finishClaim ctrl key err k).2 cs' vs)
  | step_take_volume key q k cs vs :
      Get (kw_volumeQueue k) = Some (key, q) →
      step (Sched k cs vs) (Sched (set_volumeQueue q k) cs (key :: vs))
  | step_sync_volume key k cs vs :
      key ∈ vs → step (Sched k cs vs) (Sched (syncVolumeHandler ctrl key k).2 cs vs)
  | step_finish_volume key err k cs vs vs' :
      vs ≡ₚ key :: vs' → step (Sched k cs vs) (Sched (finishVolume ctrl key err k).2 cs vs').

(** A whole turn of a worker is made of these steps. *)
Lemma claim_turn_steps k cs vs k' :
  processNextClaimWorkItem ctrl k = (Ret true, k') → rtc step (Sched k cs vs) (Sched k' cs vs).
Proof.
  unfold processNextClaimWorkItem. intros Hr. bind_inv Hr qu w Hm. injection Hm as <- <-.
  destruct (Get (kw_claimQueue k)) as [[key q']|] eqn:Hg; [|done]. bind_inv Hr u w1 Hm. injection Hm as _ <-.
  bind_inv Hr u1 w2 Hm. injection Hr as <-. unfold processClaim in Hm. bind_inv Hm r w3 Hs.
  eapply rtc_l; [by apply step_take_claim|]. eapply rtc_l; [apply (step_sync_claim key); left|].
  rewrite Hs. cbn [snd]. eapply rtc_l; [by apply (step_finish_claim key r.2 w3 (key :: cs) cs)|].
  by rewrite Hm.
Qed.

Lemma volume_turn_steps k cs vs k' :
  processNextVolumeWorkItem ctrl k = (Ret true, k') → rtc step (Sched k cs vs) (Sched k' cs vs).
Proof.
  unfold processNextVolumeWorkItem. intros Hr. bind_inv Hr qu w Hm. injection Hm as <- <-.
  destruct (Get (kw_volumeQueue k)) as [[key q']|] eqn:Hg; [|done]. bind_inv Hr u w1 Hm. injection Hm as _ <-.
  bind_inv Hr u1 w2 Hm. injection Hr as <-. unfold processVolume in Hm. bind_inv Hm r w3 Hs.
  eapply rtc_l; [by apply step_take_volume|]. eapply rtc_l; [apply (step_sync_volume key); left|].
  assert ((syncVolumeHandler ctrl key (set_volumeQueue q' k)).2 = w3) as ->.
  { unfold try in Hs. destruct (syncVolumeHandler _ _ _) as [[] ?]; by simplify_eq/=. }
  eapply rtc_l; [by eapply (step_finish_volume key _ w3 cs (key :: vs) vs)|]. by rewrite Hm.
Qed.
End steps.

(** ** A sync leaves the queues alone *)

(** A relation that does not look at what a sync may change: the system, the
    volumes of the API server, its calls, the events and the claim objects. *)
Class SyncInv (R : kworld → kworld → Prop) : Prop := {
  sync_preorder :: PreOrder R;
  sync_os k w : R k (set_os w k);
  sync_pvs k m : R k (set_pvs m k);
  sync_calls k k' n : R k k' → R k (set_calls n k');
  sync_events k l : R k (set_events l k);
  sync_heap k a c : R k (set_heap (<[a := c]> (kw_heap k)) k);
}.

#[export] Instance keeps_queues_sync : SyncInv keeps_queues.
Proof. split; [apply _|by intros..]. Qed.

Section frame.
Context `{!Env, !Api} {R : kworld → kworld → Prop} `{!SyncInv R}.

Lemma keeps_lift {A} (m : M A) : respects R (lift m).
Proof. intros k. unfold lift. destruct (m (kw_os k)). apply sync_os. Qed.
Lemma keeps_api {A} c name f :
  (∀ k, R k (f k).2) → respects R (api (A := A) c name f).
Proof.
  intros Hf k. specialize (Hf k). unfold api.
  destruct (api_fault _ _ _) as [[e [|]]|]; [by apply sync_calls|by apply sync_calls|].
  destruct (f k). by apply sync_calls.
Qed.
Lemma keeps_modify f : (∀ k, R k (f k)) → respects R (modify (E := gerror) f).
Proof. intros Hf k. apply Hf. Qed.
Lemma keeps_pv_get name : respects R (pv_get name).
Proof. apply keeps_api. intros k. reflexivity. Qed.
Lemma keeps_pv_create pv : respects R (pv_create pv).
Proof. apply keeps_api. intros k. case_match; cbn [snd]; reflexivity || apply sync_pvs. Qed.
Lemma keeps_pv_delete name : respects R (pv_delete name).
Proof. apply keeps_api. intros k. case_match; cbn [snd]; reflexivity || apply sync_pvs. Qed.
Lemma keeps_node_get name : respects R (node_get name).
Proof. apply keeps_api. intros k. reflexivity. Qed.
Lemma keeps_Event b r m : respects R (Event b r m).
Proof. intros k. apply sync_events. Qed.
Lemma keeps_store a c : respects R (store a c).
Proof. intros k. apply sync_heap. Qed.
Lemma keeps_backoff steps attempt last :
  respects R attempt → respects R (ExponentialBackoff steps attempt last).
Proof.
  intros Ha. revert last. induction steps as [|steps IH]; intros last; cbn [ExponentialBackoff]; [intros k; reflexivity|].
  apply respects_bind; [apply _|by apply respects_try|]. intros [|]; [intros k; reflexivity|apply IH].
Qed.

#[local] Hint Resolve keeps_lift keeps_pv_get keeps_pv_create keeps_pv_delete keeps_node_get
  keeps_Event keeps_store keeps_backoff : go.

Lemma keeps_load a : respects R (load a).
Proof. unfold load. respects_tac. Qed.
Lemma keeps_getStorageClass name : respects R (getStorageClass name).
Proof. unfold getStorageClass. respects_tac. Qed.
#[local] Hint Resolve keeps_load keeps_getStorageClass : go.

Section main.
Context (p : hostPathProvisioner) (version : Version).

Lemma keeps_shouldProvision a : respects R (shouldProvision (mainController p version) a).
Proof.
  unfold shouldProvision. cbn [provisioner p_ShouldProvision mainController defaultController hostPathOps].
  respects_tac.
Qed.
Lemma keeps_shouldDelete v : respects R (shouldDelete (mainController p version) v).
Proof. unfold shouldDelete. cbn [provisioner p_ShouldDelete mainController defaultController hostPathOps]. respects_tac. Qed.
Lemma keeps_StoreVolume claim v : respects R (backoffStore_StoreVolume 5 (hostPathOps p) claim v).
Proof.
  unfold backoffStore_StoreVolume. cbn [p_Delete hostPathOps].
  apply respects_bind; [apply _|apply keeps_backoff; respects_tac|]. intros [[|] ?]; respects_tac.
Qed.
#[local] Hint Resolve keeps_shouldProvision keeps_shouldDelete keeps_StoreVolume : go.

Lemma keeps_provisionClaimOperation claim :
  respects R (provisionClaimOperation (mainController p version) claim).
Proof.
  unfold provisionClaimOperation, canProvision, supportsBlock, selectedNode, provisionAndStore, callProvision.
  cbn [provisioner p_SupportsBlock p_ProvisionExt p_Provision volumeStore vs_StoreVolume backoffStore
       mainController defaultController hostPathOps].
  respects_tac.
Qed.
#[local] Hint Resolve keeps_provisionClaimOperation : go.

Lemma keeps_syncClaim a : respects R (syncClaim (mainController p version) a).
Proof. unfold syncClaim. respects_tac. Qed.

Lemma keeps_syncVolumeHandler key : respects R (syncVolumeHandler (mainController p version) key).
Proof.
  unfold syncVolumeHandler, syncVolume, deleteVolumeOperation.
  cbn [addFinalizer andb provisioner p_Delete mainController defaultController hostPathOps]. respects_tac.
Qed.
End main.
End frame.

Lemma keeps_syncClaimHandler `{!Env, !Api} p version key :
  respects keeps_queues (syncClaimHandler (mainController p version) key).
Proof. pose proof (keeps_syncClaim (R := keeps_queues) p version). unfold syncClaimHandler. respects_tac; by apply keeps_modify. Qed.

(** ** What the queues guarantee *)

#[local] Hint Resolve active_Add active_Get active_Done_AddAfter active_fire : core.

Lemma Get_item q i q' :
  Get q = Some (i, q') → q_processing q' = {[ i ]} ∪ q_processing q ∧ (queue_ok q → i ∉ q_processing q).
Proof.
  unfold Get. destruct (q_queue q) as [|x rest] eqn:Hq; [done|]. intros [= -> <-]. split; [done|].
  intros [_ Hit]. apply (Hit i). rewrite Hq. left.
Qed.
Lemma processing_Add i q : q_processing (Add i q) = q_processing q.
Proof. unfold Add. by case_decide. Qed.
Lemma NumRequeues_When i l x :
  NumRequeues x (When i l) = if decide (x = i) then S (NumRequeues i l) else NumRequeues x l.
Proof.
  unfold NumRequeues, When. case_decide as Hx; [subst; by rewrite lookup_insert_eq|by rewrite lookup_insert_ne].
Qed.
Lemma NumRequeues_Forget i l x : NumRequeues x (Forget i l) = if decide (x = i) then O else NumRequeues x l.
Proof.
  unfold NumRequeues, Forget. case_decide as Hx; [subst; by rewrite lookup_delete_eq|by rewrite lookup_delete_ne].
Qed.

(** The workers hold the keys the claim queue has given out, each one once;
    no count exceeds the threshold, and a key with failures that has not been given
    up comes back. *)
Record workers_ok (s : sched) : Prop := {
  wo_queue : queue_ok (kw_claimQueue (sd_k s));
  wo_nodup : NoDup (sd_claims s);
  wo_held : ∀ x, x ∈ sd_claims s ↔ x ∈ q_processing (kw_claimQueue (sd_k s));
  wo_bound : ∀ x, (NumRequeues x (kw_limiter (sd_k s)) ≤ 15)%nat;
  wo_active : ∀ x, (0 < NumRequeues x (kw_limiter (sd_k s)) < 15)%nat →
    active (kw_claimQueue (sd_k s)) x ∨ active (kw_volumeQueue (sd_k s)) x;
}.

(** The claim queue and the counts decide; the volume queue matters for
    [active] only. *)
Lemma workers_ok_frame k k' cs vs vs' :
  kw_claimQueue k' = kw_claimQueue k → 
  (∀ x, (NumRequeues x (kw_limiter k') ≤ 15)%nat) →
  (∀ x, (0 < NumRequeues x (kw_limiter k') < 15)%nat → active (kw_claimQueue k) x ∨ active (kw_volumeQueue k') x) →
  workers_ok (Sched k cs vs) → workers_ok (Sched k' cs vs').
Proof. intros Hq Hb Ha [H1 H2 H3 _ _]. split; simpl in *; rewrite ?Hq; done. Qed.

Lemma workers_ok_keeps k k' cs vs :
  keeps_queues k k' → workers_ok (Sched k cs vs) → workers_ok (Sched k' cs vs).
Proof.
  intros (Hc&Hv&Hl) Hok. eapply workers_ok_frame; [done| | |done]; rewrite ?Hl, ?Hv; apply Hok.
Qed.

(** A step of the claim queue that gives out no key and takes none back. *)
Lemma workers_ok_claimQueue q k cs vs :
  queue_ok q → q_processing q = q_processing (kw_claimQueue k) →
  (∀ x, active (kw_claimQueue k) x → active q x) →
  workers_ok (Sched k cs vs) → workers_ok (Sched (set_claimQueue q k) cs vs).
Proof.
  intros Hok Hp Ha [H1 H2 H3 H4 H5]. split; simpl in *; [done|done| |done|].
  - intros x. by rewrite Hp.
  - intros x Hx. destruct (H5 x Hx); auto.
Qed.
Lemma workers_ok_volumeQueue q k cs vs vs' :
  (∀ x, active (kw_volumeQueue k) x → active q x) →
  workers_ok (Sched k cs vs) → workers_ok (Sched (set_volumeQueue q k) cs vs').
Proof.
  intros Ha Hok. eapply workers_ok_frame; [| | |done]; [done|apply Hok|]. intros x Hx.
  destruct (wo_active _ Hok x Hx); auto.
Qed.

(** ** Every step keeps the guarantees *)

Section preservation.
Context `{!Api} (ctrl : ProvisionController).
Context (Hprov : failedProvisionThreshold ctrl = 15) (Hdel : failedDeleteThreshold ctrl = 15).
Context (Hclaim : ∀ key, respects keeps_queues (syncClaimHandler ctrl key)).
Context (Hvolume : ∀ key, respects keeps_queues (syncVolumeHandler ctrl key)).

Lemma mayRetry_15 n : mayRetry 15 n = bool_decide (n < 15)%nat.
Proof. unfold mayRetry. cbn [Z.eqb orb]. apply eq_true_iff_eq. rewrite Z.ltb_lt, bool_decide_eq_true. lia. Qed.

(** A worker that is done with its key. *)
Lemma workers_ok_Done key k cs cs' vs k' :
  cs ≡ₚ key :: cs' → queue_ok (kw_claimQueue k') →
  q_processing (kw_claimQueue k') = q_processing (kw_claimQueue k) ∖ {[ key ]} →
  (∀ x, (NumRequeues x (kw_limiter k') ≤ 15)%nat) →
  (∀ x, (0 < NumRequeues x (kw_limiter k') < 15)%nat → active (kw_claimQueue k') x ∨ active (kw_volumeQueue k') x) →
  workers_ok (Sched k cs vs) → workers_ok (Sched k' cs' vs).
Proof.
  intros Hcs Hq Hp Hb Ha [_ Hnd Hheld _ _]. simpl in *. rewrite Hcs in Hnd. apply NoDup_cons in Hnd as [Hn Hnd].
  split; simpl; [done|done| |done|done]. intros x. specialize (Hheld x).
  rewrite Hp, elem_of_difference, elem_of_singleton, <-Hheld, Hcs, elem_of_cons.
  split; [|tauto]. intros Hx. split; [by right|by intros ->].
Qed.

Lemma finish_claim_ok key err k cs cs' vs :
  cs ≡ₚ key :: cs' → workers_ok (Sched k cs vs) → workers_ok (Sched (finishClaim ctrl key err k).2 cs' vs).
Proof.
  intros Hcs Hok. assert (key ∈ q_processing (kw_claimQueue k)) as Hheld.
  { apply (wo_held _ Hok). simpl. rewrite Hcs. left. }
  pose proof (wo_queue _ Hok) as Hq. pose proof (wo_bound _ Hok) as Hb. pose proof (wo_active _ Hok) as Ha. simpl in *.
  destruct err as [e|].
  - unfold finishClaim, bind, gets, modify. cbn [fst snd]. rewrite Hprov, mayRetry_15.
    case_bool_decide as Hn; (eapply workers_ok_Done; [exact Hcs| | | | |exact Hok]); cbn -[Done AddAfter active]; try done.
    + apply Done_ok; [by destruct Hq|done].
    + intros x. rewrite NumRequeues_When. case_decide; [lia|apply Hb].
    + intros x. rewrite NumRequeues_When. case_decide as Hx; [by auto|].
      intros Hx2. destruct (Ha x Hx2); auto.
    + by apply Done_ok.
    + intros x Hx. destruct (Ha x Hx) as [Hx2|]; [|by auto].
      apply (active_Done key) in Hx2 as [->|]; [lia|by auto].
  - unfold finishClaim, bind, modify. cbn [fst snd].
    eapply workers_ok_Done; [exact Hcs| | | | |exact Hok]; cbn -[Done active]; try done.
    + by apply Done_ok.
    + intros x. rewrite NumRequeues_Forget. case_decide; [lia|apply Hb].
    + intros x. rewrite NumRequeues_Forget. case_decide as Hne; [lia|]. intros Hx.
      destruct (Ha x Hx) as [Hx2|]; [|by auto]. apply (active_Done key) in Hx2 as [->|]; by auto.
Qed.

Lemma finish_volume_ok key err k cs vs vs' :
  workers_ok (Sched k cs vs) → workers_ok (Sched (finishVolume ctrl key err k).2 cs vs').
Proof.
  intros Hok. pose proof (wo_bound _ Hok) as Hb. pose proof (wo_active _ Hok) as Ha. simpl in *.
  destruct err as [e|].
  - unfold finishVolume, bind, gets, modify. cbn [fst snd]. rewrite Hdel, mayRetry_15.
    case_bool_decide as Hn; (eapply workers_ok_frame; [| | |exact Hok]); cbn -[Done AddAfter active]; try done.
    + intros x. rewrite NumRequeues_When. case_decide; [lia|apply Hb].
    + intros x. rewrite NumRequeues_When. case_decide as Hx; [by auto|]. intros Hx2. destruct (Ha x Hx2); auto.
    + intros x Hx. destruct (Ha x Hx) as [|Hx2]; [by auto|].
      apply (active_Done key) in Hx2 as [->|]; [lia|by auto].
  - unfold finishVolume, bind, modify. cbn [fst snd].
    eapply workers_ok_frame; [| | |exact Hok]; cbn -[Done active]; [done| |].
    + intros x. rewrite NumRequeues_Forget. case_decide; [lia|apply Hb].
    + intros x. rewrite NumRequeues_Forget. case_decide as Hne; [lia|]. intros Hx.
      destruct (Ha x Hx) as [|Hx2]; [by auto|]. apply (active_Done key) in Hx2 as [->|]; by auto.
Qed.

Lemma enqueueClaim_ok obj k cs vs :
  workers_ok (Sched k cs vs) → workers_ok (Sched (enqueueClaim obj k).2 cs vs).
Proof.
  intros Hok. unfold enqueueClaim, bind, gets, modify. case_match; [done|]. case_match; [|done]. cbn [snd].
  apply workers_ok_claimQueue; [apply Add_ok, Hok|apply processing_Add|auto|done].
Qed.

Lemma enqueueVolume_ok obj k cs vs :
  workers_ok (Sched k cs vs) → workers_ok (Sched (enqueueVolume obj k).2 cs vs).
Proof.
  intros Hok. unfold enqueueVolume, bind, gets, modify. case_match; [done|]. case_match; [|done]. cbn [snd].
  eapply workers_ok_volumeQueue; [|done]. auto.
Qed.

Lemma forgetVolume_ok obj k cs vs :
  workers_ok (Sched k cs vs) → workers_ok (Sched (forgetVolume obj k).2 cs vs).
Proof.
  intros Hok. unfold forgetVolume. destruct (DeletionHandlingMetaNamespaceKeyFunc obj) as [|key]; [done|].
  by apply (finish_volume_ok key None k cs vs).
Qed.

Lemma step_workers_ok s s' : step ctrl s s' → workers_ok s → workers_ok s'.
Proof.
  intros Hstep Hok. destruct Hstep as [ev|ev| | | |key q' k cs vs Hget| | | | |].
  - destruct ev; cbn [claimHandler]; [by apply enqueueClaim_ok..|done].
  - destruct ev; cbn [volumeHandler]; [by apply enqueueVolume_ok..|by apply forgetVolume_ok].
  - by eapply workers_ok_keeps.
  - apply workers_ok_claimQueue; [by apply (run_op_ok (OpFire key)), Hok|by unfold fire; rewrite processing_Add|auto|done].
  - eapply workers_ok_volumeQueue; [|done]. auto.
  - destruct (Get_item _ _ _ Hget) as [Hp Hfresh]. destruct Hok as [H1 H2 H3 H4 H5]. simpl in *.
    split; simpl; [by eapply Get_ok| | |done|].
    + constructor; [|done]. rewrite H3. auto.
    + intros x. rewrite Hp, elem_of_cons, elem_of_union, elem_of_singleton, H3. done.
    + intros x Hx. destruct (H5 x Hx); eauto.
  - by eapply workers_ok_keeps; [apply Hclaim|].
  - by eapply finish_claim_ok.
  - eapply workers_ok_volumeQueue; [|done]. eauto.
  - by eapply workers_ok_keeps; [apply Hvolume|].
  - by eapply finish_volume_ok.
Qed.

Lemma steps_workers_ok s s' : rtc (step ctrl) s s' → workers_ok s → workers_ok s'.
Proof. induction 1; eauto using step_workers_ok. Qed.
End preservation.

(** Before the workers start. *)
Definition idle (s : sched) : Prop :=
  kw_claimQueue (sd_k s) = emptyQueue ∧ kw_volumeQueue (sd_k s) = emptyQueue ∧ kw_limiter (sd_k s) = ∅ ∧
  sd_claims s = [] ∧ sd_volumes s = [].

Lemma idle_workers_ok s : idle s → workers_ok s.
Proof.
  intros (Hc&Hv&Hl&Hcs&_). split; rewrite ?Hc, ?Hl, ?Hcs.
  - apply emptyQueue_ok.
  - constructor.
  - intros x. simpl. set_solver.
  - intros x. unfold NumRequeues. rewrite lookup_empty. simpl. lia.
  - intros x. unfold NumRequeues. rewrite lookup_empty. simpl. lia.
Qed.

(** C18: At any moment of any interleaving of workers, informer events and delays, every claim is
    handled by at most one worker, no claim is queued twice, and no claim is queued while a worker has it (the precondition
    under which provisioning looks up the volume before it creates one); no claim counts more than fifteen
    failures, and a claim with failures that has not been given up is still in a queue, waits for its delay or is being handled. *)
Theorem claim_workers_exclusive `{!Env, !Api} p version s0 s :
  idle s0 → rtc (step (mainController p version)) s0 s →
  let k := sd_k s in
  NoDup (sd_claims s) ∧ NoDup (q_queue (kw_claimQueue k)) ∧
  (∀ x, x ∈ q_queue (kw_claimQueue k) → x ∉ sd_claims s) ∧
  (∀ x, (NumRequeues x (kw_limiter k) ≤ 15)%nat) ∧
  (∀ x, (0 < NumRequeues x (kw_limiter k) < 15)%nat →
     active (kw_claimQueue k) x ∨ active (kw_volumeQueue k) x).
Proof.
  intros Hidle Hsteps k.
  assert (workers_ok s) as Hok.
  { eapply steps_workers_ok; [| | | |exact Hsteps|by apply idle_workers_ok]; [done|done| |].
    - apply keeps_syncClaimHandler.
    - apply keeps_syncVolumeHandler. }
  destruct Hok as [[Hnd Hit] Hcs Hheld Hb Ha]. split_and!; try done.
  intros x Hx. rewrite Hheld. by apply Hit in Hx as [_ ?].
Qed.

Definition demoSched : sched := Sched demoKworld [] [].
Definition busySched : sched :=
  Sched (set_claimQueue {| q_queue := []; q_dirty := {[ "1" ]}; q_processing := {[ "1" ]}; q_waiting := ∅ |} demoKworld) ["1"] [].

Definition demoObj : informerObj := Object {| om_Namespace := "default"; om_Name := "disk"; om_UID := "1" |}.

(** A claim is queued, taken, and changes while the worker has it. *)
Lemma busy_steps : rtc (step (H := demoApi) (mainController (H0 := demoApi) demoProvisioner demoVersion)) demoSched busySched.
Proof.
  eapply rtc_l; [apply (step_claim_event (H := demoApi) _ (AddFunc demoObj))|].
  eapply rtc_l; [by apply (step_take_claim (H := demoApi) _ "1")|].
  eapply rtc_l; [apply (step_claim_event (H := demoApi) _ (AddFunc demoObj))|].
  match goal with |- rtc _ ?a ?b => replace a with b by (vm_compute; reflexivity) end. done.
Qed.

Lemma claim_workers_exclusive_witness : NoDup (sd_claims busySched) ∧ idle demoSched.
Proof.
  assert (idle demoSched) as Hi by done. split; [|exact Hi].
  exact (proj1 (claim_workers_exclusive (H0 := demoApi) demoProvisioner demoVersion demoSched busySched Hi busy_steps)).
Defined.

(** ** Progress *)

Section progress.
Context `{!Api} (ctrl : ProvisionController).

(** The key at the end of a queue comes out after what is before it. *)
Lemma queued_taken key l : ∀ rest k cs vs,
  q_queue (kw_claimQueue k) = l ++ key :: rest →
  ∃ k' cs', rtc (step ctrl) (Sched k cs vs) (Sched k' cs' vs) ∧ key ∈ cs'.
Proof.
  induction l as [|x l IH]; intros rest k cs vs Hq.
  - assert (∃ q', Get (kw_claimQueue k) = Some (key, q')) as [q' Hg] by (unfold Get; rewrite Hq; by eexists).
    do 2 eexists. split; [apply rtc_once, step_take_claim, Hg|]. left.
  - assert (∃ q', Get (kw_claimQueue k) = Some (x, q') ∧ q_queue q' = l ++ key :: rest) as (q'&Hg&Hq')
      by (unfold Get; rewrite Hq; by eexists).
    destruct (IH rest (set_claimQueue q' k) (x :: cs) vs Hq') as (k'&cs'&Hs&Hin).
    exists k', cs'. split; [|done]. eapply rtc_l; [by apply step_take_claim|done].
Qed.

Lemma dirty_taken key k cs vs :
  workers_ok (Sched k cs vs) → key ∈ q_dirty (kw_claimQueue k) →
  ∃ k' cs', rtc (step ctrl) (Sched k cs vs) (Sched k' cs' vs) ∧ key ∈ cs'.
Proof.
  intros Hok Hd. destruct (decide (key ∈ q_processing (kw_claimQueue k))) as [Hp|Hp].
  - exists k, cs. split; [done|]. by apply (wo_held _ Hok).
  - assert (key ∈ q_queue (kw_claimQueue k)) as Hin by by apply (qo_items _ (wo_queue _ Hok)).
    apply list_elem_of_split in Hin as (l&rest&Hl). by eapply queued_taken.
Qed.

(** A key whose worker is done comes back when it was added meanwhile. *)
Lemma held_again key k cs vs :
  NoDup cs → key ∈ cs → key ∈ q_dirty (kw_claimQueue k) →
  ∃ k' cs', step ctrl (Sched k cs vs) (Sched k' cs' vs) ∧ (key ∉ cs') ∧ key ∈ q_dirty (kw_claimQueue k').
Proof.
  intros Hnd [cs' Hcs]%elem_of_Permutation Hd. rewrite Hcs in Hnd. apply NoDup_cons in Hnd as [Hn _].
  exists (finishClaim ctrl key None k).2, cs'. split; [by apply step_finish_claim|]. by split.
Qed.
End progress.

(** No claim in the queue is stuck there: from every state the controller can reach there are steps that bring
    any claim that is queued, waits for its delay or is being handled to a worker; and a claim that changed while a worker had it is handled anew after that worker is done. *)
Theorem claim_served `{!Env, !Api} p version s0 s key :
  idle s0 → rtc (step (mainController p version)) s0 s → active (kw_claimQueue (sd_k s)) key →
  (∃ s', rtc (step (mainController p version)) s s' ∧ key ∈ sd_claims s') ∧
  (key ∈ sd_claims s → key ∈ q_dirty (kw_claimQueue (sd_k s)) →
   ∃ s1 s2, step (mainController p version) s s1 ∧ (key ∉ sd_claims s1) ∧
     rtc (step (mainController p version)) s1 s2 ∧ key ∈ sd_claims s2).
Proof.
  intros Hidle Hsteps Ha. pose proof (idle_workers_ok _ Hidle) as Hok0. set (ctrl := mainController p version) in *.
  assert (∀ s', rtc (step ctrl) s0 s' → workers_ok s') as Hinv.
  { intros s' Hs'. eapply (steps_workers_ok ctrl); [done|done| | |exact Hs'|done].
    - apply keeps_syncClaimHandler.
    - apply keeps_syncVolumeHandler. }
  pose proof (Hinv s Hsteps) as Hok. destruct s as [k cs vs]. simpl in *. split.
  - destruct Ha as [Hw|[Hd|Hp]].
    + set (k1 := set_claimQueue (fire key (kw_claimQueue k)) k).
      assert (step ctrl (Sched k cs vs) (Sched k1 cs vs)) as Hfire by by apply step_fire_claim.
      destruct (dirty_taken ctrl key k1 cs vs) as (k'&cs'&Hs&Hin).
      * apply Hinv. by eapply rtc_r.
      * simpl. unfold fire, Add. simpl. case_decide; simpl; [done|]. set_solver.
      * eexists. split; [by eapply rtc_l|done].
    + destruct (dirty_taken ctrl key k cs vs Hok Hd) as (k'&cs'&?&?). by eexists.
    + exists (Sched k cs vs). split; [done|]. by apply (wo_held _ Hok).
  - intros Hin Hd. destruct (held_again ctrl key k cs vs (wo_nodup _ Hok) Hin Hd) as (k1&cs1&Hstep&Hn&Hd1).
    destruct (dirty_taken ctrl key k1 cs1 vs) as (k2&cs2&Hs&Hin2).
    + apply Hinv. by eapply rtc_r.
    + done.
    + by exists (Sched k1 cs1 vs), (Sched k2 cs2 vs).
Qed.

Lemma claim_served_witness :
  ∃ s1 s2, step (H := demoApi) (mainController (H0 := demoApi) demoProvisioner demoVersion) busySched s1 ∧
    ("1" ∉ sd_claims s1) ∧ rtc (step (H := demoApi) (mainController (H0 := demoApi) demoProvisioner demoVersion)) s1 s2 ∧
    "1" ∈ sd_claims s2.
Proof.
  assert (idle demoSched) as Hi by done.
  destruct (claim_served (H0 := demoApi) demoProvisioner demoVersion demoSched busySched "1" Hi busy_steps) as [_ Hagain].
  - right. left. by_decide.
  - apply Hagain; by_decide.
Defined.

(** ** Giving up *)

(** A claim without a volume whose storage class does not exist. *)
Definition classless (key : string) (k : kworld) : Prop :=
  ∃ a claim, kw_claims k !! key = Some a ∧ kw_heap k !! a = Some claim ∧ pvc_VolumeName claim = "" ∧
    kw_classes k !! GetPersistentVolumeClaimClass claim = None.

(** The delay of the key ends, if it waits for one, and a worker that is free
    takes the next key. *)
Definition retryRound `{!Api} (ctrl : ProvisionController) (key : string) (k : kworld) : kworld :=
  let q := kw_claimQueue k in
  (processNextClaimWorkItem ctrl (if decide (key ∈ q_waiting q) then set_claimQueue (fire key q) k else k)).2.

Section giving_up.
Context `{!Api} (ctrl : ProvisionController) (Hprov : failedProvisionThreshold ctrl = 15).

Lemma classless_fails key k :
  classless key k →
  ∃ err k1, syncClaimHandler ctrl key k = (Ret (ProvisioningFinished, Some err), k1) ∧
    keeps_queues k k1 ∧ kw_pvs k1 = kw_pvs k ∧ kw_os k1 = kw_os k ∧ classless key k1.
Proof.
  intros (a&claim&Hc&Hh&Hn&Hcl). do 2 eexists. split.
  - unfold syncClaimHandler. do 2 erewrite run_bind_ret by done. cbv beta. rewrite Hc. erewrite run_bind_ret.
    2: { unfold syncClaim. erewrite run_bind_ret.
         2: { apply run_try_fail. unfold shouldProvision. erewrite run_bind_ret by (by apply load_run).
              rewrite decide_False by auto. apply run_bind_fail.
              unfold getStorageClass, bind, gets. by rewrite Hcl. }
         done. }
    cbv beta iota. rewrite (bool_decide_true (ProvisioningFinished = _)) by done. rewrite orb_true_r. done.
  - split_and!; [done|done|done|]. by exists a, claim.
Qed.

(** Where the attempts at [key] stand: after [n] failures, the key is queued
    for the first attempt, waits for the next one, or is given up. *)
Definition stage (key : string) (n : nat) (more : bool) : queue :=
  if more then if decide (n = 0%nat) then Add key emptyQueue else AddAfter key emptyQueue else emptyQueue.
Record attempted (key : string) (n : nat) (more : bool) (k : kworld) : Prop := {
  at_count : NumRequeues key (kw_limiter k) = n;
  at_queue : kw_claimQueue k = stage key n more;
  at_class : classless key k;
}.

Lemma Add_empty key :
  Add key emptyQueue = {| q_queue := [key]; q_dirty := {[ key ]}; q_processing := ∅; q_waiting := ∅ |}.
Proof. unfold Add. cbn. rewrite !decide_False by set_solver. by rewrite union_empty_r_L. Qed.

Lemma fire_AddAfter key :
  fire key (AddAfter key emptyQueue) =
    {| q_queue := [key]; q_dirty := {[ key ]}; q_processing := ∅; q_waiting := ∅ |}.
Proof.
  rewrite <-Add_empty. unfold fire, AddAfter. cbn. by rewrite union_empty_r_L, difference_diag_L.
Qed.

(** A round is a failed sync and what the worker makes of it. *)
Lemma retryRound_run key n k :
  attempted key n true k →
  ∃ err k1, retryRound ctrl key k = (finishClaim ctrl key (Some err) k1).2 ∧
    NumRequeues key (kw_limiter k1) = n ∧ classless key k1 ∧ kw_pvs k1 = kw_pvs k ∧ kw_os k1 = kw_os k ∧
    kw_claimQueue k1 = {| q_queue := []; q_dirty := ∅; q_processing := {[ key ]}; q_waiting := ∅ |}.
Proof.
  intros [Hcnt Hq Hcl]. unfold retryRound, processNextClaimWorkItem.
  assert (∃ k0, (if decide (key ∈ q_waiting (kw_claimQueue k))
                 then set_claimQueue (fire key (kw_claimQueue k)) k else k) = k0 ∧
    kw_claimQueue k0 = {| q_queue := [key]; q_dirty := {[ key ]}; q_processing := ∅; q_waiting := ∅ |} ∧
    kw_limiter k0 = kw_limiter k ∧ classless key k0 ∧ kw_pvs k0 = kw_pvs k ∧ kw_os k0 = kw_os k)
    as (k0&->&Hq0&Hl0&Hcl0&<-&<-).
  { eexists. split; [done|]. rewrite Hq. unfold stage. destruct (decide (n = 0%nat)) as [->|Hn0].
    - rewrite Add_empty. rewrite decide_False by (cbn [q_waiting]; set_solver). by rewrite Hq, <-(Add_empty key).
    - rewrite decide_True by (cbn [q_waiting AddAfter]; set_solver). split_and!; try done. apply fire_AddAfter. }
  rewrite <-Hcnt, <-Hl0. clear dependent k. rename k0 into k.
  erewrite run_bind_ret by done. rewrite Hq0.
  cbn [Get q_queue kw_claimQueue set_claimQueue q_dirty q_processing q_waiting].
  erewrite run_bind_ret by done.
  match goal with |- context [bind _ _ ?kk] => set (k1 := kk) end.
  destruct (classless_fails key k1 Hcl0) as (err&k2&Hs&(Hq2&_&Hl2)&Hpv&Hos&Hcl2).
  exists err, k2. split_and!; [|by rewrite Hl2|done|done|done|].
  - unfold bind at 1, processClaim. rewrite (run_bind_ret _ _ _ _ _ Hs). cbn [snd].
    by destruct (finishClaim _ _ _ _) as [[] ?].
  - rewrite Hq2. unfold k1. cbn. by rewrite difference_diag_L, union_empty_r_L.
Qed.

Lemma retryRound_step key n k :
  attempted key n true k →
  attempted key (if bool_decide (n < 15)%nat then S n else n) (bool_decide (n < 15)%nat) (retryRound ctrl key k) ∧
  kw_pvs (retryRound ctrl key k) = kw_pvs k ∧ kw_os (retryRound ctrl key k) = kw_os k.
Proof.
  intros Hat. destruct (retryRound_run key n k Hat) as (err&k1&->&Hcnt&Hcl&Hpv&Hos&Hq).
  unfold finishClaim, bind, gets, modify. rewrite Hprov, mayRetry_15, Hcnt.
  case_bool_decide as Hlt; (split; [split|done]); cbn -[Done AddAfter]; [| |done|done| |done]; rewrite ?Hq.
  - rewrite NumRequeues_When, decide_True by done. by rewrite Hcnt.
  - unfold Done, AddAfter. simpl. rewrite decide_False by set_solver. f_equal; set_solver.
  - unfold Done. simpl. rewrite decide_False by set_solver. f_equal; set_solver.
Qed.

Lemma retryRounds key k n :
  attempted key 0 true k → (n ≤ 15)%nat →
  attempted key n true (Nat.iter n (retryRound ctrl key) k) ∧
  kw_pvs (Nat.iter n (retryRound ctrl key) k) = kw_pvs k ∧ kw_os (Nat.iter n (retryRound ctrl key) k) = kw_os k.
Proof.
  intros Hat. induction n as [|n IH]; intros Hn; [done|].
  destruct (IH ltac:(lia)) as (Hat1&Hpv&Hos). destruct (retryRound_step key n _ Hat1) as (Hat2&Hpv2&Hos2).
  rewrite bool_decide_true in Hat2 by lia. simpl. by rewrite Hpv2, Hos2.
Qed.
End giving_up.

(** The event of a new claim queues it for its first attempt. *)
Lemma claim_queued key obj k :
  kw_claimQueue k = emptyQueue → NumRequeues key (kw_limiter k) = 0%nat → classless key k →
  getObjectUID obj = inr key →
  let k' := (claimHandler (AddFunc obj) k).2 in attempted key 0 true k' ∧ kw_pvs k' = kw_pvs k ∧ kw_os k' = kw_os k.
Proof.
  intros Hempty Hfresh Hclass Hobj. unfold claimHandler, enqueueClaim. rewrite Hobj.
  unfold bind, gets, modify. rewrite Hfresh. cbn [Nat.eqb snd].
  split; [|done]. split; [done| |done]. cbn [kw_claimQueue set_claimQueue]. by rewrite Hempty.
Qed.

(** C24: The retries of a claim end, and giving up is final: in a controller that has no other claim to handle, a new
    claim whose storage class does not exist is queued by its event and tried sixteen times, each failed attempt but the last is followed by another, and nothing is provisioned meanwhile.
    After the last attempt the claim is in no queue any more and its failures stay on
    record, so that no event about the claim, a periodic resync included, brings it back, whatever has changed in
    the meantime, the storage class included. *)
Theorem claim_retries_end `{!Env, !Api} p version key obj k :
  kw_claimQueue k = emptyQueue → NumRequeues key (kw_limiter k) = 0%nat → classless key k →
  getObjectUID obj = inr key →
  let ctrl := mainController p version in
  let queued := (claimHandler (AddFunc obj) k).2 in
  let rounds n := Nat.iter n (retryRound ctrl key) queued in
  (∀ n, (n ≤ 15)%nat → attempted key n true (rounds n)) ∧
  attempted key 15 false (rounds 16%nat) ∧ ¬ active (kw_claimQueue (rounds 16%nat)) key ∧
  kw_pvs (rounds 16%nat) = kw_pvs k ∧ kw_os (rounds 16%nat) = kw_os k ∧
  ∀ ev k', keeps_queues (rounds 16%nat) k' → (∀ obj, ev = AddFunc obj ∨ (∃ old, ev = UpdateFunc old obj) → getObjectUID obj = inr key) →
    claimHandler ev k' = (Ret tt, k').
Proof.
  intros Hempty Hfresh Hclass Hobj ctrl queued rounds.
  destruct (claim_queued key obj k) as (Hat&Hpvq&Hosq); [done..|]. fold queued in Hat, Hpvq, Hosq.
  assert (failedProvisionThreshold ctrl = 15) as Hprov by done.
  destruct (retryRounds ctrl Hprov key queued 15 Hat ltac:(lia)) as (Hat15&Hpv&Hos). fold (rounds 15%nat) in *.
  destruct (retryRound_step ctrl Hprov key 15 _ Hat15) as (Hend&Hpv2&Hos2).
  rewrite bool_decide_false in Hend by lia.
  assert (rounds 16%nat = retryRound ctrl key (rounds 15%nat)) as -> by (unfold rounds; apply Nat.iter_succ).
  split_and!; [|done| |by rewrite Hpv2, Hpv|by rewrite Hos2, Hos|].
  - intros n Hn. by apply (retryRounds ctrl Hprov).
  - rewrite (at_queue _ _ _ _ Hend). cbn [stage emptyQueue].
    by intros [?%not_elem_of_empty|[?%not_elem_of_empty|?%not_elem_of_empty]].
  - intros ev k' (_&_&Hl) Huid. destruct ev as [o|old o|o]; [| |done]; unfold claimHandler, enqueueClaim;
      (rewrite (Huid o) by eauto); unfold bind, gets; by rewrite Hl, (at_count _ _ _ _ Hend).
Qed.

Definition demoClassless : kworld :=
  {| kw_os := demoPvWorld; kw_pvs := ∅; kw_heap := {[ 0%nat := demoClaim ]};
     kw_claims := {[ "1" := 0%nat ]}; kw_volumes := ∅; kw_classes := ∅;
     kw_inProgress := ∅; kw_claimQueue := emptyQueue; kw_volumeQueue := emptyQueue; kw_limiter := ∅;
     kw_saveQueue := emptyQueue; kw_saveLimiter := ∅; kw_unsaved := ∅; kw_events := []; kw_calls := 0%nat |}.

Lemma claim_retries_end_witness :
  attempted "1" 15 false
    (Nat.iter 16 (retryRound (H := demoApi) (mainController (H0 := demoApi) demoProvisioner demoVersion) "1")
       (claimHandler (AddFunc demoObj) demoClassless).2).
Proof.
  assert (classless "1" demoClassless) as Hcl by (exists 0%nat, demoClaim; split_and!; reflexivity).
  exact (proj1 (proj2 (claim_retries_end (H0 := demoApi) demoProvisioner demoVersion "1" demoObj demoClassless
                         eq_refl eq_refl Hcl eq_refl))).
Defined.

(** A volume can be handled by two workers at once: when the object of a volume goes away while a worker
    has it and the volume had changed meanwhile, the handler of the deletion tells the queue that the
    key is done, although the worker is not, and a second worker gets the same volume. *)
Theorem forget_volume_duplicates `{!Env, !Api} p version k :
  idle (Sched k [] []) →
  ∃ k', rtc (step (mainController p version)) (Sched k [] []) (Sched k' [] ["pv"; "pv"]).
Proof.
  intros (_&Hq&Hl&_). simpl in *. destruct k as [os pvs heap claims vols classes prog cq vq lim sq sl us ev calls].
  simpl in *. subst. eexists.
  set (obj := Object {| om_Namespace := EmptyString; om_Name := "pv"; om_UID := "2" |}).
  eapply rtc_l; [apply (step_volume_event _ (AddFunc obj))|]. eapply rtc_l; [by apply (step_take_volume _ "pv")|].
  eapply rtc_l; [apply (step_volume_event _ (UpdateFunc obj obj))|].
  eapply rtc_l; [apply (step_volume_event _ (DeleteFunc obj))|].
  apply rtc_once. by apply (step_take_volume _ "pv").
Qed.

Lemma forget_volume_duplicates_witness :
  ∃ k', rtc (step (H := demoApi) (mainController (H0 := demoApi) demoProvisioner demoVersion)) demoSched (Sched k' [] ["pv"; "pv"]).
Proof.
  apply (forget_volume_duplicates (H0 := demoApi) demoProvisioner demoVersion demoKworld). done.
Defined.
