(* ===== verification/VolumeStoreSpec.v ===== *)
(** * What a volume store promises

    The comment of the VolumeStore interface as a contract, the two
    implementations as instances of it, and what provisioning gains from any
    store that keeps it. *)
From S2P Require Import Prelude GoStrings GoPath GoErrors OS OSFacts Demo Json Utils WorkQueue Kube.
From S2P Require Import Provisioner VolumeStore ProvisionController ProvisionProps ProvisionQueue.
Open Scope Z_scope.

(** Between [k] and [k1] the volume was saved, or queued to be saved in the
    background, or an object of its name that was there before was left alone. *)
Definition kept (v : PersistentVolume) (k k1 : kworld) : Prop :=
  kw_pvs k1 !! pv_Name v = Some v ∨
  (is_Some (kw_pvs k !! pv_Name v) ∧ kw_pvs k1 !! pv_Name v = kw_pvs k !! pv_Name v) ∨
  (kw_unsaved k1 !! pv_Name v = Some v ∧ active (kw_saveQueue k1) (pv_Name v)).

(** A create that fails had no effect, and the server does not claim that an
    object exists that does not. *)
Definition creates_honest `{!Api} : Prop :=
  ∀ n s e applied, api_fault n ApiCreatePV s = Some (e, applied) → applied = false ∧ api_IsAlreadyExists e = false.

(** The contract of [StoreVolume]. *)
Class StoreContract `{!Api} (s : VolumeStore) : Prop :=
  store_contract claim v k : creates_honest →
    wp (vs_StoreVolume s claim v) (λ o k1,
      (∀ n, n ≠ pv_Name v → kw_pvs k1 !! n = kw_pvs k !! n) ∧
      match o with
      | Ret _ => kept v k k1 ∧ kw_os k1 = kw_os k
      | Fail _ => kw_pvs k1 = kw_pvs k
      | Panic _ => True
      end) k.

Section instances.
Context `{!Api}.

Lemma never_ret_bind {A B} (m : K A) (f : A → K B) :
  (∀ a k, wp (f a) (λ o _, ∀ b, o ≠ Ret b) k) → ∀ k, wp (bind m f) (λ o _, ∀ b, o ≠ Ret b) k.
Proof. intros Hf k. apply wp_bind. unfold wp at 1. destruct (m k) as [[a|e|pn] k1]; cbn; [apply Hf|done|done]. Qed.

(** One attempt to create the object. *)
Lemma pv_create_view v k :
  creates_honest →
  wp (pv_create v) (λ o k1,
    kw_os k1 = kw_os k ∧ kw_unsaved k1 = kw_unsaved k ∧ kw_saveQueue k1 = kw_saveQueue k ∧
    (∀ n, n ≠ pv_Name v → kw_pvs k1 !! n = kw_pvs k !! n) ∧
    match o with
    | Ret _ => kw_pvs k1 !! pv_Name v = Some v
    | Fail e => kw_pvs k1 = kw_pvs k ∧ (api_IsAlreadyExists e = true → is_Some (kw_pvs k1 !! pv_Name v))
    | Panic _ => False
    end) k.
Proof.
  intros Hh. unfold wp, pv_create, api. destruct (api_fault _ _ _) as [[e b]|] eqn:Hf.
  - apply Hh in Hf as [-> He]. cbn. rewrite He. done.
  - destruct (kw_pvs k !! pv_Name v) as [pv|] eqn:Hl; cbn.
    + rewrite Hl. split_and!; eauto.
    + split_and!; [done..| |].
      * intros n Hn. by rewrite lookup_insert_ne.
      * by rewrite lookup_insert_eq.
Qed.

#[export] Instance queueStore_contract : StoreContract queueStore.
Proof.
  intros claim v k Hh. cbn [queueStore vs_StoreVolume]. unfold queueStore_StoreVolume, doSaveVolume.
  apply wp_bind, wp_try, wp_bind, wp_try.
  eapply wp_mono; [by apply pv_create_view|]. intros [[]|e|pn] k1 (Hos&Hun&Hq&Hout&Ho); [| |done]; cbn [bind_post].
  - unfold wp; cbn. unfold wp; cbn. split; [done|]. split; [by left|done].
  - destruct Ho as [Hpv Hex]. destruct (api_IsAlreadyExists e) eqn:He; unfold wp at 1; cbn -[wp active Add].
    + unfold wp; cbn. split; [done|]. split; [|done]. right; left. rewrite <-Hpv. auto.
    + unfold wp; cbn -[active Add]. split; [done|]. split; [|done]. right; right. cbn -[active Add]. split.
      * apply lookup_insert_eq.
      * unfold active, Add. case_decide; [by auto|]. cbn. right. left. set_solver.
Qed.

(** The provisioner does not change the volumes of the API server. *)
Definition pvs_same (k k1 : kworld) : Prop := kw_pvs k1 = kw_pvs k.
#[export] Instance pvs_same_preorder : PreOrder pvs_same.
Proof. split; unfold pvs_same; [by intros k|]. intros k1 k2 k3. congruence. Qed.

Lemma backoff_pvs steps attempt last :
  respects pvs_same attempt → respects pvs_same (ExponentialBackoff steps attempt last).
Proof.
  intros Ha. revert last. induction steps as [|steps IH]; intros last; cbn [ExponentialBackoff]; [by intros k|].
  apply respects_bind; [apply _|by apply respects_try|]. intros [|]; [by intros k|apply IH].
Qed.

(** Attempts to save end with the object saved, or with nothing changed and
    an error to report. *)
Lemma backoff_save steps v last k :
  creates_honest →
  wp (ExponentialBackoff steps
        (r <- try (pv_create v) ;;
         match r with
         | inl _ => ret tt
         | inr err => if api_IsAlreadyExists err then ret tt else fail err
         end) last) (λ o k1,
    kw_os k1 = kw_os k ∧ (∀ n, n ≠ pv_Name v → kw_pvs k1 !! n = kw_pvs k !! n) ∧
    match o with
    | Ret (true, _) => kw_pvs k1 !! pv_Name v = Some v ∨
        (is_Some (kw_pvs k !! pv_Name v) ∧ kw_pvs k1 = kw_pvs k)
    | Ret (false, e) => kw_pvs k1 = kw_pvs k ∧ (steps ≠ O ∨ is_Some last → is_Some e)
    | _ => False
    end) k.
Proof.
  intros Hh. revert last k. induction steps as [|steps IH]; intros last k; cbn [ExponentialBackoff].
  { apply wp_ret. split_and!; [done..|]. by intros [|]. }
  apply wp_bind, wp_try, wp_bind, wp_try. eapply wp_mono; [by apply pv_create_view|].
  intros [[]|e|pn] k1 (Hos&_&_&Hout&Ho); [| |done]; cbn [bind_post].
  - unfold wp at 1. cbn -[wp]. apply wp_ret. auto.
  - destruct Ho as [Hpv Hex]. destruct (api_IsAlreadyExists e) eqn:He; unfold wp at 1; cbn -[wp ExponentialBackoff].
    + apply wp_ret. rewrite Hpv in Hex. split_and!; [done..|]. right. auto.
    + eapply wp_mono; [apply IH|]. intros [[[|] e2]|e2|pn] k2 (Hos2&Hout2&Ho2); [| |done|done].
      * rewrite Hpv in Ho2. split_and!; [congruence| |done]. intros n Hn. by rewrite Hout2, Hout.
      * destruct Ho2 as [Hpv2 He2]. split_and!; [congruence| |congruence|].
        -- intros n Hn. by rewrite Hout2, Hout.
        -- intros _. apply He2. eauto.
Qed.

Lemma backoffStore_keeps steps prov :
  steps ≠ O → (∀ v, respects pvs_same (p_Delete prov v)) → StoreContract (backoffStore steps prov).
Proof.
  intros Hsteps Hdel claim v k Hh. cbn [backoffStore vs_StoreVolume]. unfold backoffStore_StoreVolume.
  apply wp_bind. eapply wp_mono; [by apply backoff_save|].
  intros [[[|] lastSaveError]|e|pn] k1 (Hos&Hout&Ho); [| |done|done]; cbn [bind_post].
  { unfold wp. cbn. split; [done|]. split; [|done].
    destruct Ho as [?|[? Hpv]]; [by left|]. right; left. split; [done|]. cbn. by rewrite Hpv. }
  destruct Ho as [Hpv He]. destruct He as [e ->]; [by auto|].
  eapply wp_mono; [apply wp_and; [apply (respects_wp pvs_same)|]|].
  - respects_tac; try (intros k2; reflexivity). apply backoff_pvs, Hdel.
  - apply never_ret_bind. intros _. apply never_ret_bind. intros [ok lastDeleteError].
    apply never_ret_bind. intros _ k2. by intros [].
  - intros o k2 [Hpv2 Hret]. split; [intros n Hn; by rewrite Hpv2, Hpv|].
    destruct o as [u|e2|pn]; [by destruct (Hret u)|by rewrite Hpv2|done].
Qed.
End instances.

(** ** What provisioning gains *)

(** Only events, counters and the call clock move. *)
Definition still (k k1 : kworld) : Prop := quiet (kw_os k) (kw_os k1) ∧ kw_pvs k1 = kw_pvs k.
#[export] Instance still_preorder : PreOrder still.
Proof.
  split; unfold still; [by intros k|]. intros k1 k2 k3 [Hq1 Hp1] [Hq2 Hp2]. split; [by etransitivity|congruence].
Qed.

(** A reference to the claim, and [reference.GetReference] as it is documented. *)
Definition refersTo (ref : ObjectReference) (claim : PersistentVolumeClaim) : Prop :=
  or_Namespace ref = pvc_Namespace claim ∧ or_Name ref = pvc_Name claim ∧ or_UID ref = pvc_UID claim.
Definition references_own `{!Api} : Prop := ∀ claim ref, GetReference claim = inr ref → refersTo ref claim.

(** The directory of the volume of a claim. *)
Definition claimPath (p : hostPathProvisioner) (claim : PersistentVolumeClaim) : string :=
  let name := getProvisionedVolumeNameForClaim claim in
  GoPath.Join [pvDir p; if useNamingPrefix p then pvc_Name claim +:+ "-" +:+ name else name].

Section provisioning.
Context `{!Env, !Api}.

Lemma wp_still {A} (m : K A) (Q : outcome gerror A → kworld → Prop) k0 k :
  respects still m → still k0 k → (∀ o k1, still k0 k1 → Q o k1) → wp m Q k.
Proof. intros Hm Hk HQ. apply HQ. etransitivity; [exact Hk|apply Hm]. Qed.

Lemma still_api {A} c name f :
  (∀ k, (f k).2 = k) → respects still (api (A := A) c name f).
Proof.
  intros Hf k. specialize (Hf k). unfold api. destruct (api_fault _ _ _) as [[e [|]]|]; [by rewrite Hf|done|].
  destruct (f k) as [o k1]. cbn in Hf. by subst.
Qed.
Lemma still_pv_get name : respects still (pv_get name).
Proof. by apply still_api. Qed.
Lemma still_node_get name : respects still (node_get name).
Proof. by apply still_api. Qed.
Lemma still_Event b r m : respects still (Event b r m).
Proof. by intros k. Qed.
#[local] Hint Resolve still_pv_get still_node_get still_Event : go.

Lemma MkdirAll_not_ignored s w r w1 : os_MkdirAll s w ≠ (Fail (IgnoredError r), w1).
Proof.
  unfold os_MkdirAll. case_decide; [done|]. generalize (@nil string) as cur. revert w.
  induction (resolve s) as [|c rest IH]; intros w cur; cbn [mkdir_all_from]; [done|].
  unfold bind at 1, gets. destruct (w_fs w !! (cur ++ [c])) as [[|]|]; [apply IH|done|].
  unfold bind, mkdir_at. destruct (fault _ _ _); [done|apply IH].
Qed.

(** What a provisioned volume is, if the provisioner returns one. *)
Lemma Provision_view p options w :
  wf_fs (w_fs w) →
  match Provision p options w with
  | (Ret v, w1) => pv_Name v = po_PVName options ∧ pv_HostPath v = Some (backingPath p options) ∧
      w_fs w1 !! resolve (backingPath p options) = Some NDir
  | (Fail (IgnoredError _), _) => False
  | _ => True
  end.
Proof.
  intros Hwf. unfold Provision, calculatePvCapacity. unfold bind at 1 2, unix_Statfs, reads.
  destruct (statfs _ _) as [e|st]; [done|]. cbn [ret]. unfold bind.
  destruct (os_MkdirAll (backingPath p options) (tickw w)) as [[[]|e|pn] w1] eqn:Hm; [| |done].
  - cbn. split_and!; [done|done|].
    destruct (MkdirAll_ret _ _ _ (Hwf : wf_fs (w_fs (tickw w))) Hm) as (_&_&Hd&_). by apply Hd.
  - destruct e; try done. by apply MkdirAll_not_ignored in Hm.
Qed.

Context (ctrl : ProvisionController) (p : hostPathProvisioner).
Context (Hprov : provisioner ctrl = hostPathOps p) `{Hstore : !StoreContract (volumeStore ctrl)} (Hhonest : creates_honest)
  (Hrefs : references_own).

(** The end of a sync of [claim] that began in [k0]: the volume it accounts for
    is named after the claim, refers to it, and has its directory. *)
Definition accounted (claim : PersistentVolumeClaim) (k0 : kworld)
    (o : outcome gerror (ProvisioningState * option gerror)) (k1 : kworld) : Prop :=
  (∀ n, n ≠ getProvisionedVolumeNameForClaim claim → kw_pvs k1 !! n = kw_pvs k0 !! n) ∧
  match o with
  | Ret (_, Some _) => kw_pvs k1 = kw_pvs k0
  | Ret (_, None) =>
      still k0 k1 ∨
      ∃ v ref, pv_Name v = getProvisionedVolumeNameForClaim claim ∧ kept v k0 k1 ∧
        pv_ClaimRef v = Some ref ∧ refersTo ref claim ∧
        pv_HostPath v = Some (claimPath p claim) ∧ w_fs (kw_os k1) !! resolve (claimPath p claim) = Some NDir
  | _ => True
  end.

Lemma accounted_still claim k0 o k1 : still k0 k1 → accounted claim k0 o k1.
Proof. intros Hs. pose proof Hs as [_ Hpv]. split; [by rewrite Hpv|]. destruct o as [[r [|]]|e|pn]; auto. Qed.

Lemma provisionAndStore_accounted claim claimClass claimRef options k0 k :
  still k0 k → wf_fs (w_fs (kw_os k0)) → po_PVName options = getProvisionedVolumeNameForClaim claim →
  pvc_Name (po_PVC options) = pvc_Name claim → refersTo claimRef claim →
  wp (provisionAndStore ctrl claim claimClass claimRef options) (accounted claim k0) k.
Proof.
  intros Hk Hwf Hname Hpvc Href. unfold provisionAndStore, callProvision. rewrite Hprov. cbn [hostPathOps p_ProvisionExt p_Provision].
  apply wp_bind. eapply wp_still; [apply still_Event|exact Hk|]. clear k Hk.
  intros [[]|e|pn] k Hk; [|by apply accounted_still..]. destruct Hk as [(Hfs&_) Hpv]. cbn [bind_post].
  apply wp_bind, wp_bind, wp_try. pose proof (Provision_view p options (kw_os k)) as Hv. rewrite Hfs in Hv. specialize (Hv Hwf).
  destruct (Provision p options (kw_os k)) as [o w1] eqn:Hr. apply (wp_run _ _ _ _ _ (lift_run _ k _ _ Hr)).
  assert (∀ k2 r e, kw_pvs k2 = kw_pvs k → accounted claim k0 (Ret (r, Some e)) k2) as Herr.
  { intros k2 r e Hk2. split; [intros n _|]; congruence. }
  destruct o as [v|e|pn]; cbn [bind_post]; [| |split; [cbn; congruence|done]].
  2: { unfold wp at 1. cbn -[wp accounted]. destruct e; try done; by apply Herr. }
  destruct Hv as (Hvn&Hvp&Hdir). unfold wp at 1. cbn -[wp accounted]. apply wp_bind, wp_try.
  set (v' := decorate ctrl claimClass claimRef v).
  eapply wp_mono; [by apply Hstore|]. intros [[]|e|pn] k2 [Hout Ho]; cbn [bind_post].
  - destruct Ho as [Hkept Hos]. apply wp_ret. split.
    + intros n Hn. rewrite Hout by (cbn; congruence). cbn. congruence.
    + assert (claimPath p claim = backingPath p options) as Hpath
        by (unfold claimPath, backingPath; rewrite Hname, Hpvc; by destruct (useNamingPrefix p)).
      right. exists v', claimRef. rewrite Hpath.
      split_and!; [cbn; congruence| |done|done|done|by rewrite Hos].
      unfold kept in *. by rewrite <-Hpv.
  - apply wp_ret, Herr. done.
  - split; [|done]. intros n Hn. rewrite Hout by (cbn; congruence). cbn. congruence.
Qed.

Lemma provisionClaimOperation_accounted claim k0 k :
  still k0 k → wf_fs (w_fs (kw_os k0)) → wp (provisionClaimOperation ctrl claim) (accounted claim k0) k.
Proof.
  intros Hk Hwf. unfold provisionClaimOperation. apply wp_bind.
  eapply wp_still; [apply respects_try, still_pv_get|exact Hk|]. clear k Hk.
  intros [[v|e]|e|pn] k Hk; cbn [bind_post]; [by apply wp_ret, accounted_still| |by apply accounted_still..].
  destruct (GetReference claim) as [e1|claimRef] eqn:Href; [by apply wp_ret, accounted_still|]. apply wp_bind.
  eapply wp_still; [|exact Hk|].
  { apply respects_try. unfold canProvision, supportsBlock. rewrite Hprov. cbn [hostPathOps p_SupportsBlock]. respects_tac. }
  clear k Hk. intros [[[]|e1]|e1|pn] k Hk; cbn [bind_post]; [| |by apply accounted_still..].
  2: { eapply wp_still; [respects_tac|exact Hk|]. intros; by apply accounted_still. }
  apply wp_bind. eapply wp_still; [|exact Hk|].
  { apply respects_try. unfold getStorageClass. respects_tac. }
  clear k Hk. intros [[class|e1]|e1|pn] k Hk; cbn [bind_post]; [|by apply wp_ret, accounted_still|by apply accounted_still..].
  destruct (negb _); [by apply wp_ret, accounted_still|]. apply wp_bind. eapply wp_still; [|exact Hk|].
  { apply respects_try. unfold selectedNode. respects_tac. }
  clear k Hk. intros [[node|e1]|e1|pn] k Hk; cbn [bind_post]; [| |by apply accounted_still..].
  - apply provisionAndStore_accounted; [done..|by eapply Hrefs].
  - eapply wp_still; [respects_tac|exact Hk|]. intros; by apply accounted_still.
Qed.
End provisioning.

(** C14: Storage is accounted for, with every store that keeps its contract (the background one, and
    the bounded one if it makes an attempt), whatever calls fail, provided a create that fails has
    saved nothing and no object is claimed to exist that does not, and the reference the library
    makes to a claim names it: a sync of a claim touches no volume object but the claim's own. If it
    ends with an error, for which the claim is retried, no object was saved. If it ends without one,
    either nothing has changed, or there is a volume with the claim's name, its reference to the claim
    (namespace, name and uid) and the claim's directory, which exists, and exactly this volume is
    saved or queued to be saved, unless an object of its name was there before and was left as it
    was. *)
Theorem provisioning_accounted `{!Env, !Api} ctrl p a claim k :
  provisioner ctrl = hostPathOps p → StoreContract (volumeStore ctrl) → creates_honest → references_own →
  wf_fs (w_fs (kw_os k)) → kw_heap k !! a = Some claim →
  accounted p claim k (syncClaim ctrl a k).1 (syncClaim ctrl a k).2.
Proof.
  intros Hprov Hstore Hhonest Hrefs Hwf Hh. change (wp (syncClaim ctrl a) (accounted p claim k) k).
  destruct (shouldProvision_frame ctrl p a claim k Hprov Hh) as (Hq&Hpvs&ann&Hh1).
  unfold syncClaim. apply wp_bind, wp_try. unfold wp at 1.
  destruct (shouldProvision ctrl a k) as [o k1]; cbn [fst snd] in *.
  assert (still k k1) as Hs by by split.
  destruct o as [[|]|e|pn]; cbn [bind_post]; [|by apply wp_ret, accounted_still|by apply wp_ret, accounted_still|by apply accounted_still].
  apply wp_bind, (wp_run _ _ _ _ _ (load_run a _ k1 Hh1)). cbn [bind_post].
  by apply (provisionClaimOperation_accounted ctrl p Hprov Hhonest Hrefs (set_annotations ann claim)).
Qed.

Lemma hostPath_Delete_pvs `{!Env, !Api} p v : respects pvs_same (p_Delete (hostPathOps p) v).
Proof. intros k. cbn [hostPathOps p_Delete]. unfold lift. by destruct (Delete p v (kw_os k)). Qed.

(** The two stores of the hostpath provisioner. *)
#[export] Instance mainController_contract `{!Env, !Api} p version :
  StoreContract (volumeStore (mainController p version)).
Proof. apply backoffStore_keeps; [done|]. intros v. apply hostPath_Delete_pvs. Qed.

Lemma provisioning_accounted_witness :
  let r := syncClaim (H := demoApi) (mainController (H0 := demoApi) demoProvisioner demoVersion) 0 demoKworld in
  is_Some (kw_pvs r.2 !! "pvc-1") ∧ accounted demoProvisioner demoClaim demoKworld r.1 r.2.
Proof.
  cbv zeta. split; [vm_compute; by eexists|].
  apply (provisioning_accounted (H0 := demoApi) _ demoProvisioner); [reflexivity|apply _|done|by intros c ref [= <-]|by_wf|reflexivity].
Defined.

(** With a backoff of no steps the bounded store breaks its contract: it makes no attempt to create the
    volume object and none to delete the storage, and reports success, so that the claim counts as provisioned although
    there is no volume for it. *)
Theorem zero_steps_report_success `{!Env, !Api} prov claim v k :
  ∃ k1, vs_StoreVolume (backoffStore 0 prov) claim v k = (Ret tt, k1) ∧
    kw_os k1 = kw_os k ∧ kw_pvs k1 = kw_pvs k ∧ kw_unsaved k1 = kw_unsaved k ∧
    kw_saveQueue k1 = kw_saveQueue k ∧ kw_calls k1 = kw_calls k.
Proof. eexists. split; [reflexivity|done]. Qed.

(** An API server that saves the object but loses every answer. *)
Definition lossyApi : Api := {|
  api_fault _ c _ := match c with ApiCreatePV => Some (ErrorString "connection lost", true) | _ => None end;
  node_exists _ _ := true;
  GetReference c := inr {| or_Namespace := pvc_Namespace c; or_Name := pvc_Name c; or_UID := pvc_UID c |};
|}.

(** When the API server saves the object but its answers are lost, the bounded store reports an error although the object exists, against
    the comment of its interface, and has deleted the storage of the volume: the object refers to a
    directory that is gone, and it keeps the claim from being provisioned again. *)
Theorem lost_answers_leave_dangling_volume :
  let ctrl := mainController (H0 := lossyApi) demoProvisioner demoVersion in
  let r := syncClaim (H := lossyApi) ctrl 0 demoKworld in
  let r2 := syncClaim (H := lossyApi) ctrl 0 r.2 in
  r.1 = Ret (ProvisioningFinished, Some (ErrorString "connection lost")) ∧
  (pv_HostPath <$> kw_pvs r.2 !! "pvc-1") = Some (Some "/pv/disk-pvc-1") ∧
  w_fs (kw_os r.2) !! ["pv"; "disk-pvc-1"] = None ∧
  r2.1 = Ret (ProvisioningFinished, None) ∧ w_fs (kw_os r2.2) !! ["pv"; "disk-pvc-1"] = None.
Proof. vm_compute. split_and!; reflexivity. Qed.
