(* ===== verification/SaveQueue.v ===== *)
(** * The background store of provisioned volumes

    Saving in the background: provisioning workers hand volumes over, the
    workers of the store take names, try to save and put back what failed,
    and other goroutines run between. *)
From S2P Require Import Prelude GoStrings GoPath GoErrors OS OSFacts Demo Json Utils WorkQueue Kube.
From S2P Require Import Provisioner VolumeStore ProvisionController ProvisionProps ProvisionQueue VolumeStoreSpec.
Open Scope Z_scope.

(** Everything but the queue of unsaved volumes may change under the store. *)
Definition keeps_store (k k' : kworld) : Prop :=
  kw_saveQueue k' = kw_saveQueue k ∧ kw_unsaved k' = kw_unsaved k.

Section saving.
Context `{!Api}.

Inductive save_step : kworld → kworld → Prop :=
  | save_store claim v k : save_step k (queueStore_StoreVolume claim v k).2
  | save_others k k' : keeps_store k k' → save_step k k'
  | save_fire name k :
      name ∈ q_waiting (kw_saveQueue k) → save_step k (set_saveQueue (fire name (kw_saveQueue k)) k)
  | save_take name q k :
      Get (kw_saveQueue k) = Some (name, q) → save_step k (set_saveQueue q k)
  | save_item name k :
      name ∈ q_processing (kw_saveQueue k) → save_step k (saveItem name k).2.

(** Every unsaved volume is on its way, under its own name. *)
Record store_ok (k : kworld) : Prop := {
  so_queue : queue_ok (kw_saveQueue k);
  so_active : ∀ name v, kw_unsaved k !! name = Some v → active (kw_saveQueue k) name ∧ pv_Name v = name;
}.

Definition store_idle (k : kworld) : Prop := kw_saveQueue k = emptyQueue ∧ kw_unsaved k = ∅.

Lemma store_idle_ok k : store_idle k → store_ok k.
Proof. intros [Hq Hu]. split; rewrite ?Hq, ?Hu; [apply emptyQueue_ok|done]. Qed.

(** An attempt to save leaves the store alone. *)
Lemma doSaveVolume_view v k :
  let k1 := (doSaveVolume v k).2 in
  keeps_store k k1 ∧ (kw_calls k ≤ kw_calls k1)%nat ∧
  (creates_honest → match (doSaveVolume v k).1 with
                    | Ret _ => is_Some (kw_pvs k1 !! pv_Name v)
                    | Fail _ => kw_pvs k1 = kw_pvs k
                    | Panic _ => False
                    end).
Proof.
  unfold doSaveVolume, bind, try, pv_create, api. cbv zeta.
  destruct (api_fault _ _ _) as [[e applied]|] eqn:Hf.
  - split_and!.
    + destruct (api_IsAlreadyExists e), applied; cbn; by case_match || done.
    + destruct (api_IsAlreadyExists e), applied; cbn; try case_match; cbn; lia.
    + intros Hh. apply Hh in Hf as [-> ->]. done.
  - destruct (kw_pvs k !! pv_Name v) as [pv|] eqn:Hl; cbn.
    + rewrite !(bool_decide_true (ApiAlreadyExists = _)) by done. cbn. rewrite Hl. split_and!; [done|lia|eauto].
    + split_and!; [done|lia|]. rewrite lookup_insert_eq. eauto.
Qed.

(** What a worker does with a name it has, on every outcome. *)
Lemma saveItem_cases name k :
  let q := kw_saveQueue k in let k1 := (saveItem name k).2 in
  match kw_unsaved k !! name with
  | None => kw_saveQueue k1 = Done name q ∧ kw_unsaved k1 = kw_unsaved k ∧ kw_pvs k1 = kw_pvs k
  | Some v =>
      let r := doSaveVolume v k in
      kw_pvs k1 = kw_pvs r.2 ∧
      match r.1 with
      | Ret _ => kw_saveQueue k1 = Done name q ∧ kw_unsaved k1 = delete name (kw_unsaved k)
      | Fail _ => kw_saveQueue k1 = Done name (AddAfter name q) ∧ kw_unsaved k1 = kw_unsaved k
      | Panic _ => False
      end
  end.
Proof.
  cbv zeta. unfold saveItem, bind, gets, try, modify. cbv beta iota.
  destruct (kw_unsaved k !! name) as [v|] eqn:Hv; [|done].
  destruct (doSaveVolume_view v k) as ([Hq Hu]&_&_).
  assert (∀ pn, (doSaveVolume v k).1 ≠ Panic pn) as Hnp.
  { intros pn. unfold doSaveVolume, bind, try, pv_create, api. repeat case_match; simplify_eq/=; congruence. }
  destruct (doSaveVolume v k) as [[[]|e|pn] k1] eqn:Hr; cbn -[Done AddAfter] in *; [| |by destruct (Hnp pn)];
    rewrite Hq, Hu; done.
Qed.

Lemma saveItem_ok name k : name ∈ q_processing (kw_saveQueue k) → store_ok k → store_ok (saveItem name k).2.
Proof.
  intros Hp [Hq Ha]. pose proof (saveItem_cases name k) as Hc. cbv zeta in Hc.
  assert (queue_ok (Done name (kw_saveQueue k)) ∧ queue_ok (Done name (AddAfter name (kw_saveQueue k)))) as [Hd1 Hd2].
  { split; apply Done_ok; try done. by destruct Hq. }
  destruct (kw_unsaved k !! name) as [v|] eqn:Hv.
  - destruct Hc as [_ Hc]. destruct (doSaveVolume v k).1 as [u|e|pn]; [| |done]; destruct Hc as [Hq1 Hu1].
    + split; rewrite ?Hq1, ?Hu1; [done|]. intros n v' [Hne Hl]%lookup_delete_Some.
      destruct (Ha n v' Hl) as [Hact Hn]. split; [|done]. destruct (active_Done name _ _ Hact); [congruence|done].
    + split; rewrite ?Hq1, ?Hu1; [done|]. intros n v' Hl. destruct (Ha n v' Hl). split; [|done].
      apply active_Done_AddAfter. auto.
  - destruct Hc as (Hq1&Hu1&_). split; rewrite ?Hq1, ?Hu1; [done|]. intros n v' Hl.
    destruct (Ha n v' Hl) as [Hact Hn]. split; [|done]. destruct (active_Done name _ _ Hact); [congruence|done].
Qed.

Lemma StoreVolume_ok claim v k : store_ok k → store_ok (queueStore_StoreVolume claim v k).2.
Proof.
  intros [Hq Ha]. unfold queueStore_StoreVolume, bind at 1, try.
  destruct (doSaveVolume_view v k) as ([Hq1 Hu1]&_&_).
  destruct (doSaveVolume v k) as [[[]|e|pn] k1]; cbn [fst snd ret] in *; [split; cbn; rewrite ?Hq1, ?Hu1; done| |split; cbn; rewrite ?Hq1, ?Hu1; done].
  unfold bind, modify. cbn -[Add active]. split; cbn -[Add active]; rewrite Hq1, ?Hu1; [by apply Add_ok|].
  intros n v' [[<- <-]|[Hne Hl]]%lookup_insert_Some; [|destruct (Ha n v' Hl); auto using active_Add].
  split; [|done]. unfold active, Add. case_decide; [by auto|]. right. left. cbn. set_solver.
Qed.

Lemma save_step_ok k k1 : save_step k k1 → store_ok k → store_ok k1.
Proof.
  intros Hstep Hok. destruct Hstep as [claim v k|k k' [Hq Hu]|name k Hw|name q k Hg|name k Hp].
  - by apply StoreVolume_ok.
  - destruct Hok. split; rewrite ?Hq, ?Hu; done.
  - destruct Hok as [Hq Ha]. split; [by apply (run_op_ok (OpFire name))|]. intros n v Hl.
    destruct (Ha n v Hl). split; [by apply active_fire|done].
  - destruct Hok as [Hq Ha]. split; [by eapply Get_ok|]. intros n v Hl.
    destruct (Ha n v Hl). split; [by eapply active_Get|done].
  - by apply saveItem_ok.
Qed.

Lemma save_steps_ok k k1 : rtc save_step k k1 → store_ok k → store_ok k1.
Proof. induction 1; eauto using save_step_ok. Qed.

(** A volume leaves the list only when the API server holds it. *)
Lemma save_step_keeps name k k1 :
  creates_honest → store_ok k → save_step k k1 → is_Some (kw_unsaved k !! name) →
  is_Some (kw_unsaved k1 !! name) ∨ is_Some (kw_pvs k1 !! name).
Proof.
  intros Hh Hok Hstep [v Hv]. destruct Hstep as [claim v' k|k k' [_ Hu]|n k _|n q k _|n k _]; [|rewrite Hu; eauto|eauto|eauto|].
  - left. unfold queueStore_StoreVolume, bind at 1, try. destruct (doSaveVolume_view v' k) as ([_ Hu]&_&_).
    destruct (doSaveVolume v' k) as [[[]|e|pn] k1]; cbn -[insert lookup Add] in *; [by rewrite Hu, Hv| |by rewrite Hu, Hv].
    rewrite Hu, lookup_insert_is_Some, Hv. destruct (decide (pv_Name v' = name)); eauto.
  - pose proof (saveItem_cases n k) as Hc. cbv zeta in Hc.
    destruct (decide (n = name)) as [->|Hne].
    + rewrite Hv in Hc. destruct (doSaveVolume_view v k) as (_&_&Hsave). specialize (Hsave Hh). destruct Hc as [Hpv Hc].
      destruct (doSaveVolume v k).1; [|destruct Hc as [_ Hu]; left; by rewrite Hu, Hv|done].
      right. rewrite Hpv. by destruct (so_active _ Hok name v Hv) as [_ <-].
    + left. destruct (kw_unsaved k !! n) as [v2|]; [|destruct Hc as (_&Hu&_); by rewrite Hu, Hv].
      destruct Hc as [_ Hc]. destruct (doSaveVolume v2 k).1; [| |done]; destruct Hc as [_ Hu]; rewrite Hu.
      * by rewrite lookup_delete_ne, Hv by done.
      * by rewrite Hv.
Qed.

(** The moves of the queue are steps of the store. *)
Lemma serve_save_steps k q :
  rtc queue_move (kw_saveQueue k) q → rtc save_step k (set_saveQueue q k).
Proof.
  intros Hs. remember (kw_saveQueue k) as q0 eqn:Hq0. revert k Hq0. induction Hs as [q|q q1 q2 Hstep _ IH]; intros k ->.
  - by destruct k.
  - eapply rtc_l; [|apply (IH (set_saveQueue q1 k) eq_refl)].
    remember (kw_saveQueue k) as q eqn:Hq. destruct Hstep as [x q Hw|x q q1 Hg]; subst q.
    + by apply save_fire.
    + by eapply save_take.
Qed.

(** The API server answers creates from now on. *)
Definition recovered (k : kworld) : Prop := ∀ n s, (kw_calls k ≤ n)%nat → api_fault n ApiCreatePV s = None.

Lemma recovered_saves v k :
  recovered k → ∃ u, (doSaveVolume v k).1 = Ret u ∧ is_Some (kw_pvs (doSaveVolume v k).2 !! pv_Name v).
Proof.
  intros Hr. unfold doSaveVolume, bind, try, pv_create, api. rewrite Hr by lia.
  destruct (kw_pvs k !! pv_Name v) as [pv|] eqn:Hl; cbn.
  - rewrite !(bool_decide_true (ApiAlreadyExists = _)) by done. cbn. rewrite Hl. eauto.
  - rewrite lookup_insert_eq. eauto.
Qed.
End saving.

(** C23: The background store loses no volume. A volume leaves the list of unsaved volumes only when the API server holds it; as long as it is on
    the list its name is queued, waits for its delay or is being saved; and once the API server answers again, the workers of the
    store can save it from every state that can be reached, however many attempts have failed. *)
Theorem background_store_saves `{!Api} k0 k name v :
  creates_honest → store_idle k0 → rtc save_step k0 k → kw_unsaved k !! name = Some v →
  active (kw_saveQueue k) name ∧
  (∀ k1, save_step k k1 → is_Some (kw_unsaved k1 !! name) ∨ is_Some (kw_pvs k1 !! name)) ∧
  (recovered k → ∃ k1, rtc save_step k k1 ∧ kw_unsaved k1 !! name = None ∧ is_Some (kw_pvs k1 !! name)).
Proof.
  intros Hh Hidle Hsteps Hv. pose proof (save_steps_ok _ _ Hsteps (store_idle_ok _ Hidle)) as Hok.
  destruct (so_active _ Hok name v Hv) as [Hact Hn]. split_and!; [done| |].
  - intros k1 Hstep. eapply save_step_keeps; eauto.
  - intros Hr. destruct (active_served name _ (so_queue _ Hok) Hact) as (q&Hserve&Hp).
    pose proof (serve_save_steps k q Hserve) as Hs1. set (k1 := set_saveQueue q k) in *.
    exists (saveItem name k1).2. split; [eapply rtc_r; [exact Hs1|by apply save_item]|].
    pose proof (saveItem_cases name k1) as Hc. cbv zeta in Hc.
    change (kw_unsaved k1) with (kw_unsaved k) in Hc. rewrite Hv in Hc.
    destruct (recovered_saves v k1 Hr) as (u&Hret&Hsaved). rewrite Hret in Hc. destruct Hc as (Hpv&_&Hu).
    rewrite Hu, Hpv. split; [apply lookup_delete_eq|]. by rewrite <-Hn.
Qed.

(** The first attempt fails, later ones work. *)
Definition flakyApi : Api := {|
  api_fault n c _ := match n, c with O, ApiCreatePV => Some (ErrorString "timeout", false) | _, _ => None end;
  node_exists _ _ := true;
  GetReference c := inr {| or_Namespace := pvc_Namespace c; or_Name := pvc_Name c; or_UID := pvc_UID c |};
|}.

Lemma background_store_saves_witness :
  let v := provisionedPV demoProvisioner demoOptions 0 in
  let k := (queueStore_StoreVolume (H := flakyApi) demoClaim v demoKworld).2 in
  kw_unsaved k !! "pvc-1" = Some v ∧
  ∃ k1, rtc (save_step (H := flakyApi)) k k1 ∧ is_Some (kw_pvs k1 !! "pvc-1").
Proof.
  intros v k. assert (kw_unsaved k !! "pvc-1" = Some v) as Hv by reflexivity. split; [exact Hv|].
  destruct (background_store_saves (H := flakyApi) demoKworld k "pvc-1" v) as (_&_&Hsave).
  - intros [|n] s e applied; [|done]. intros [= <- <-]. done.
  - done.
  - apply rtc_once. apply (save_store (H := flakyApi)).
  - exact Hv.
  - destruct Hsave as (k1&Hs&_&Hp); [|by exists k1]. intros [|n] s; [|done]. cbn. lia.
Defined.
