(* ===== verification/ProvisionTotal.v ===== *)
(** * The syncs of the provision controller always return

    The code dereferences the binding mode of a class, the host path of a
    volume and the claims the caches point to. In a state where these are set
    a turn of a worker ends with a result and leaves such a state. *)
From S2P Require Import Prelude GoStrings GoPath GoErrors OS OSFacts Json Utils WorkQueue Kube.
From S2P Require Import Provisioner VolumeStore ProvisionController ProvisionProps ProvisionQueue.
Open Scope Z_scope.

(** ** The objects a sync relies on *)

(** Binding modes are set (the API server fills them in), volumes have a host
    path, and the caches of claims point to claims. *)
Record sound (k : kworld) : Prop := {
  sn_claims : ∀ key a, kw_claims k !! key = Some a → is_Some (kw_heap k !! a);
  sn_progress : ∀ key a, kw_inProgress k !! key = Some a → is_Some (kw_heap k !! a);
  sn_classes : ∀ name c, kw_classes k !! name = Some (ClassV1 c) ∨ kw_classes k !! name = Some (ClassV1beta1 c) →
    is_Some (sc_VolumeBindingMode c);
  sn_volumes : ∀ name v, kw_volumes k !! name = Some v → is_Some (pv_HostPath v);
}.

(** The caches are left alone and no claim object is lost. *)
Definition keeps_caches (k k' : kworld) : Prop :=
  kw_claims k' = kw_claims k ∧ kw_inProgress k' = kw_inProgress k ∧ kw_classes k' = kw_classes k ∧
  kw_volumes k' = kw_volumes k ∧ ∀ a, is_Some (kw_heap k !! a) → is_Some (kw_heap k' !! a).

#[export] Instance keeps_caches_sync : SyncInv keeps_caches.
Proof.
  split; [split| | | | |]; unfold keeps_caches.
  - by intros k.
  - intros k1 k2 k3 (?&?&?&?&Ha) (?&?&?&?&Hb). split_and!; try congruence. auto.
  - by intros.
  - by intros.
  - by intros.
  - by intros.
  - intros k a c. split_and!; try done. intros a' Ha. cbn. destruct (decide (a = a')) as [->|Hne].
    + rewrite lookup_insert_eq. by eexists.
    + by rewrite lookup_insert_ne.
Qed.

Lemma sound_keeps k k' : keeps_caches k k' → sound k → sound k'.
Proof.
  intros (Hc&Hp&Hcl&Hv&Hh) [? ? ? ?]. split; rewrite ?Hc, ?Hp, ?Hcl, ?Hv; eauto.
Qed.

(** ** Programs that return from a state *)

(** [m] does not panic from [k]; [m] returns from [k]. *)
Definition calmly {A} (k : kworld) (m : K A) : Prop := ∀ msg, (m k).1 ≠ Panic msg.
Definition returns {A} (k : kworld) (m : K A) : Prop := ∃ a k', m k = (Ret a, k').

Lemma nopanic_calmly {A} k (m : K A) : nopanic m → calmly k m.
Proof. intros Hm msg. apply Hm. Qed.
Lemma returns_calmly {A} k (m : K A) : returns k m → calmly k m.
Proof. intros (a&k'&Hr) msg. by rewrite Hr. Qed.
Lemma calmly_bind {A B} k (m : K A) (f : A → K B) :
  calmly k m → (∀ a k', m k = (Ret a, k') → calmly k' (f a)) → calmly k (bind m f).
Proof.
  intros Hm Hf msg. unfold bind. specialize (Hm msg). specialize (Hf).
  destruct (m k) as [[a|e|p] k'] eqn:Hr; cbn [fst] in *; [by apply Hf|done|congruence].
Qed.
Lemma returns_bind {A B} k (m : K A) (f : A → K B) :
  returns k m → (∀ a k', m k = (Ret a, k') → returns k' (f a)) → returns k (bind m f).
Proof. intros (a&k'&Hr) Hf. unfold returns. erewrite run_bind_ret by exact Hr. by apply Hf. Qed.
Lemma returns_try {A} k (m : K A) : calmly k m → returns k (try m).
Proof.
  intros Hm. unfold returns, try, calmly in *. destruct (m k) as [[a|e|p] k']; [eauto..|by destruct (Hm p)].
Qed.
Lemma returns_ret {A} k (a : A) : returns k (ret a).
Proof. by do 2 eexists. Qed.
Lemma returns_gets {A} k (f : kworld → A) : returns k (gets f).
Proof. by do 2 eexists. Qed.
Lemma returns_modify k f : returns k (modify f).
Proof. by do 2 eexists. Qed.

Lemma respects_run {A} R (m : K A) k o k' : respects R m → m k = (o, k') → R k k'.
Proof. intros Hm Hr. specialize (Hm k). by rewrite Hr in Hm. Qed.

Section main.
Context `{!Env, !Api} (p : hostPathProvisioner) (version : Version).

(** ** Parts that never panic *)

Lemma nopanic_lift {A} (m : M A) : nopanic m → nopanic (lift m).
Proof. intros Hm k msg. unfold lift. specialize (Hm (kw_os k) msg). by destruct (m (kw_os k)) as [o w]. Qed.
Lemma nopanic_api {A} c name f : (∀ k msg, (f k).1 ≠ Panic msg) → nopanic (api (A := A) c name f).
Proof.
  intros Hf k msg. specialize (Hf k msg). unfold api. destruct (api_fault _ _ _) as [[e b]|]; [done|].
  by destruct (f k).
Qed.
Lemma nopanic_modify f : nopanic (modify (S := kworld) (E := gerror) f).
Proof. done. Qed.
Lemma nopanic_pv_get name : nopanic (pv_get name).
Proof. apply nopanic_api. intros k msg. by case_match. Qed.
Lemma nopanic_pv_create pv : nopanic (pv_create pv).
Proof. apply nopanic_api. intros k msg. by case_match. Qed.
Lemma nopanic_pv_delete name : nopanic (pv_delete name).
Proof. apply nopanic_api. intros k msg. by case_match. Qed.
Lemma nopanic_node_get name : nopanic (node_get name).
Proof. apply nopanic_api. intros k msg. by case_match. Qed.
Lemma nopanic_Event b r m : nopanic (Event b r m).
Proof. done. Qed.
Lemma nopanic_backoff steps attempt last :
  nopanic attempt → nopanic (ExponentialBackoff steps attempt last).
Proof.
  intros Ha. revert last. induction steps as [|steps IH]; intros last; cbn [ExponentialBackoff]; nopanic_tac.
Qed.
Lemma nopanic_getStorageClass name : nopanic (getStorageClass name).
Proof. unfold getStorageClass. nopanic_tac. Qed.
#[local] Hint Resolve nopanic_lift nopanic_modify nopanic_pv_get nopanic_pv_create nopanic_pv_delete
  nopanic_node_get nopanic_Event nopanic_backoff nopanic_getStorageClass : go.

Lemma nopanic_Delete v : is_Some (pv_HostPath v) → nopanic (Delete p v).
Proof. intros [path Hp]. unfold Delete. rewrite Hp. nopanic_tac. Qed.
Lemma nopanic_Provision options : nopanic (Provision p options).
Proof. unfold Provision, calculatePvCapacity. nopanic_tac. Qed.
Lemma nopanic_ShouldProvision claim mode : is_Some mode → nopanic (ShouldProvision p claim mode).
Proof. intros [m ->]. unfold ShouldProvision, calculatePvCapacity. nopanic_tac. Qed.
Lemma nopanic_StoreVolume claim v :
  is_Some (pv_HostPath v) → nopanic (backoffStore_StoreVolume 5 (hostPathOps p) claim v).
Proof.
  intros Hv. pose proof (nopanic_Delete v Hv). unfold backoffStore_StoreVolume. cbn [p_Delete hostPathOps].
  apply nopanic_bind; [apply nopanic_backoff; nopanic_tac|]. intros [[|] ?]; nopanic_tac.
Qed.

(** ** Claims *)

Lemma load_returns k a : is_Some (kw_heap k !! a) → returns k (load a).
Proof. intros [c Hc]. unfold load, returns, bind, gets. rewrite Hc. by do 2 eexists. Qed.

Lemma getStorageClass_mode k name c k' :
  sound k → getStorageClass name k = (Ret c, k') → is_Some (sc_VolumeBindingMode c).
Proof.
  intros Hs Hr. unfold getStorageClass in Hr. bind_inv Hr o w Hm. injection Hm as <- <-.
  destruct (kw_classes k !! name) as [[c'|c'|obj]|] eqn:Hc; [..|done]; [| |done].
  - injection Hr as <- _. apply (sn_classes _ Hs name). by left.
  - injection Hr as <- _. cbn. apply (sn_classes _ Hs name). by right.
Qed.

Lemma shouldProvision_calmly k a :
  sound k → is_Some (kw_heap k !! a) → calmly k (shouldProvision (mainController p version) a).
Proof.
  intros Hs Ha. unfold shouldProvision. apply calmly_bind; [by apply returns_calmly, load_returns|].
  intros claim k1 Hr1. apply (respects_run keeps_caches) in Hr1; [|apply keeps_load].
  case_decide; [by apply nopanic_calmly|].
  apply calmly_bind; [apply nopanic_calmly, nopanic_getStorageClass|]. intros class k2 Hr2.
  pose proof (getStorageClass_mode _ _ _ _ (sound_keeps _ _ Hr1 Hs) Hr2) as Hmode.
  apply (respects_run keeps_caches) in Hr2; [|apply keeps_getStorageClass].
  cbn [provisioner p_ShouldProvision mainController defaultController hostPathOps]. apply calmly_bind.
  { apply nopanic_calmly, nopanic_bind; [by apply nopanic_lift, nopanic_ShouldProvision|done]. }
  intros b k3 Hr3. apply (respects_run keeps_caches) in Hr3.
  2: { apply respects_bind; [apply _|apply keeps_lift|]. intros r. apply respects_bind; [apply _|apply keeps_store|].
       intros []. apply respects_ret; apply _. }
  destruct b; [cbn [negb]|by apply nopanic_calmly].
  apply calmly_bind; [apply returns_calmly, load_returns|intros; apply nopanic_calmly; by repeat case_match].
  apply Hr3, Hr2, Hr1, Ha.
Qed.

Lemma provisionAndStore_returns k claim class ref options :
  returns k (provisionAndStore (mainController p version) claim class ref options).
Proof.
  unfold provisionAndStore. apply returns_bind; [apply returns_modify|]. intros [] k1 _. unfold callProvision.
  cbn [provisioner p_ProvisionExt p_Provision volumeStore vs_StoreVolume backoffStore mainController
       defaultController hostPathOps].
  apply returns_bind.
  { apply returns_bind; [apply returns_try, nopanic_calmly, nopanic_lift, nopanic_Provision|].
    intros. apply returns_ret. }
  intros [st res] k2 Hr. destruct res as [err|v].
  - destruct err; try (by apply returns_ret);
      (apply returns_bind; [apply returns_modify|]; intros; apply returns_ret).
  - apply returns_bind; [|intros; apply returns_ret].
    apply returns_try, nopanic_calmly, nopanic_StoreVolume. cbn [decorate pv_HostPath].
    bind_inv Hr r k3 Hm. destruct r as [v'|e]; [|done]. injection Hr as _ <- _.
    unfold try, lift in Hm. destruct (Provision p options (kw_os k1)) as [[v0|e|m] w] eqn:Hp; [|done..].
    injection Hm as -> _. unfold Provision in Hp. bind_inv Hp c w1 Hc. bind_inv Hp u w2 Hu.
    injection Hp as <- _. by eexists.
Qed.

Lemma provisionClaimOperation_returns k claim :
  returns k (provisionClaimOperation (mainController p version) claim).
Proof.
  assert (∀ b r m x k0, returns k0 (Event b r m >> ret (x : ProvisioningState * option gerror))) as Hev.
  { intros. by do 2 eexists. }
  unfold provisionClaimOperation. apply returns_bind; [apply returns_try, nopanic_calmly; auto with go|].
  intros [pv|e] k1 _; [apply returns_ret|]. case_match; [apply returns_ret|].
  apply returns_bind.
  { apply returns_try, nopanic_calmly. unfold canProvision, supportsBlock. nopanic_tac; done. }
  intros [[]|e1] k2 _; [|apply Hev].
  apply returns_bind; [apply returns_try, nopanic_calmly; auto with go|].
  intros [class|e2] k3 _; [|apply returns_ret]. case_match; [apply returns_ret|].
  apply returns_bind; [apply returns_try, nopanic_calmly; unfold selectedNode; nopanic_tac|].
  intros [node|e3] k4 _; [apply provisionAndStore_returns|apply Hev].
Qed.

Lemma syncClaim_returns k a :
  sound k → is_Some (kw_heap k !! a) → returns k (syncClaim (mainController p version) a).
Proof.
  intros Hs Ha. unfold syncClaim. apply returns_bind; [by apply returns_try, shouldProvision_calmly|].
  intros r k1 Hr1. apply (respects_run keeps_caches) in Hr1; [|apply respects_try, keeps_shouldProvision].
  destruct r as [[|]|e]; [|apply returns_ret..].
  apply returns_bind; [apply load_returns; by apply Hr1|]. intros. apply provisionClaimOperation_returns.
Qed.

Lemma sound_progress k m :
  (∀ key a, m !! key = Some a → is_Some (kw_heap k !! a)) → sound k → sound (set_inProgress m k).
Proof. intros Hm [? ? ? ?]. by split. Qed.
Lemma sound_forget k key : sound k → sound (set_inProgress (delete key (kw_inProgress k)) k).
Proof. intros Hs. apply sound_progress; [|done]. intros key' a [_ Ha]%lookup_delete_Some. by eapply sn_progress. Qed.

Lemma syncClaimHandler_total k key :
  sound k → ∃ r k', syncClaimHandler (mainController p version) key k = (Ret r, k') ∧ sound k'.
Proof.
  intros Hs. unfold syncClaimHandler. erewrite run_bind_ret by reflexivity. erewrite run_bind_ret by reflexivity.
  destruct (match kw_claims k !! key with Some a => Some a | None => kw_inProgress k !! key end) as [a|] eqn:Hc; [|eauto].
  assert (is_Some (kw_heap k !! a)) as Ha.
  { destruct (kw_claims k !! key) eqn:Hcl; simplify_eq; [by eapply sn_claims|by eapply sn_progress]. }
  destruct (syncClaim_returns k a Hs Ha) as ([st err]&k1&Hr). erewrite run_bind_ret by exact Hr.
  apply (respects_run keeps_caches) in Hr; [|apply keeps_syncClaim].
  pose proof (sound_keeps _ _ Hr Hs) as Hs1. unfold bind.
  destruct (_ || _); [|case_decide]; cbn; do 2 eexists; (split; [reflexivity|]); [by apply sound_forget| |done].
  apply sound_progress; [|done]. intros key' a' [[_ <-]|[_ Ha']]%lookup_insert_Some; [by apply Hr|by eapply sn_progress].
Qed.

(** Only the queues, the failure counts and what is saved later change. *)
Lemma sound_queues k k' :
  sound k → kw_claims k' = kw_claims k → kw_inProgress k' = kw_inProgress k → kw_classes k' = kw_classes k →
  kw_volumes k' = kw_volumes k → kw_heap k' = kw_heap k → sound k'.
Proof. intros Hs ??? ? Hh. apply (sound_keeps k); [|done]. unfold keeps_caches. rewrite Hh. by split_and!. Qed.

Lemma finishClaim_total k key err :
  sound k → ∃ k', finishClaim (mainController p version) key err k = (Ret tt, k') ∧ sound k'.
Proof.
  intros Hs. unfold finishClaim, bind, gets, modify.
  destruct err; [destruct (mayRetry _ _)|]; cbn; eexists; (split; [reflexivity|]); [by eapply (sound_queues k)|..];
    (eapply (sound_queues _); [exact (sound_forget k key Hs)|done..]).
Qed.

(** ** Turns of the workers *)

Lemma claim_turn_total k :
  sound k → ∃ b k', processNextClaimWorkItem (mainController p version) k = (Ret b, k') ∧ sound k'.
Proof.
  intros Hs. unfold processNextClaimWorkItem. erewrite run_bind_ret by reflexivity.
  destruct (Get (kw_claimQueue k)) as [[key q']|]; [|by eauto]. erewrite run_bind_ret by reflexivity.
  destruct (syncClaimHandler_total (set_claimQueue q' k) key) as (r&k1&Hr&Hs1); [by eapply (sound_queues k)|].
  destruct (finishClaim_total k1 key r.2 Hs1) as (k2&Hf&Hs2). exists true, k2. split; [|done].
  unfold processClaim, bind. by rewrite Hr, Hf.
Qed.

Lemma volume_turn_total k :
  sound k → ∃ b k', processNextVolumeWorkItem (mainController p version) k = (Ret b, k') ∧ sound k'.
Proof.
  intros Hs. unfold processNextVolumeWorkItem. erewrite run_bind_ret by reflexivity.
  destruct (Get (kw_volumeQueue k)) as [[key q']|]; [|by eauto]. erewrite run_bind_ret by reflexivity.
  assert (sound (set_volumeQueue q' k)) as Hs0 by by eapply (sound_queues k).
  assert (returns (set_volumeQueue q' k) (try (syncVolumeHandler (mainController p version) key))) as (r&k1&Hr).
  { apply returns_try. unfold syncVolumeHandler. intros msg. erewrite run_bind_ret by reflexivity.
    destruct (kw_volumes (set_volumeQueue q' k) !! key) as [v|] eqn:Hv; [|done].
    pose proof (nopanic_Delete v (sn_volumes _ Hs0 key v Hv)).
    assert (nopanic (syncVolume (mainController p version) v)) as Hn; [|apply Hn].
    unfold syncVolume, deleteVolumeOperation, shouldDelete.
    cbn [addFinalizer andb provisioner p_Delete p_ShouldDelete mainController defaultController hostPathOps].
    nopanic_tac. }
  pose proof (respects_run keeps_caches _ _ _ _ (respects_try _ _ (keeps_syncVolumeHandler p version key)) Hr) as Hk.
  pose proof (sound_keeps _ _ Hk Hs0) as Hs1. unfold processVolume, finishVolume, bind, gets, modify in *.
  cbn [fst snd]. rewrite Hr. cbn [fst snd].
  destruct r as [u|e]; [|destruct (mayRetry _ _)]; do 2 eexists; (split; [reflexivity|]); by eapply (sound_queues k1).
Qed.

Lemma save_turn_total k : sound k → ∃ b k', saveNextWorkItem k = (Ret b, k') ∧ sound k'.
Proof.
  intros Hs. unfold saveNextWorkItem. erewrite run_bind_ret by reflexivity.
  destruct (Get (kw_saveQueue k)) as [[name q']|]; [|by eauto]. erewrite run_bind_ret by reflexivity.
  assert (sound (set_saveQueue q' k)) as Hs0 by by eapply (sound_queues k).
  unfold saveItem. unfold bind at 1 2 3, gets. destruct (kw_unsaved _ !! name) as [v|].
  2: { do 2 eexists. split; [reflexivity|]. by eapply (sound_queues k). }
  assert (returns (set_saveQueue q' k) (try (doSaveVolume v))) as (r&k1&Hr).
  { apply returns_try, nopanic_calmly. unfold doSaveVolume. nopanic_tac. }
  assert (respects keeps_caches (try (doSaveVolume v))) as Hk.
  { apply respects_try. unfold doSaveVolume. apply respects_bind; [apply _|apply respects_try, keeps_pv_create|].
    intros [|]; respects_tac. }
  pose proof (sound_keeps _ _ (respects_run keeps_caches _ _ _ _ Hk Hr) Hs0) as Hs1. unfold bind, modify. rewrite Hr.
  destruct r; do 2 eexists; (split; [reflexivity|]); by eapply (sound_queues k1).
Qed.
End main.
