(* ===== verification/Workers.v ===== *)
(** * The loops of the workers

    runClaimWorker and runVolumeWorker of controller.go, and saveVolumeWorker and Run
    of volume_store.go: what a worker does with the keys that are queued until it
    waits again. *)
From S2P Require Import Prelude GoStrings GoPath GoErrors OS OSFacts Demo Json Utils WorkQueue Kube.
From S2P Require Import Provisioner VolumeStore ProvisionController ProvisionProps ProvisionQueue VolumeStoreSpec SaveQueue.
From S2P Require Import ProvisionTotal.
Open Scope Z_scope.

(** [for turn() {}], up to [fuel] turns; the turn answers [false] when the worker
    comes to wait. *)
Fixpoint worker (turn : K bool) (fuel : nat) : K unit :=
  match fuel with
  | O => ret tt
  | S fuel => again <- turn ;; if (again : bool) then worker turn fuel else ret tt
  end.

Section loops.
Context `{!Env, !Api}.

Definition runClaimWorker (ctrl : ProvisionController) : nat → K unit := worker (processNextClaimWorkItem ctrl).
Definition runVolumeWorker (ctrl : ProvisionController) : nat → K unit := worker (processNextVolumeWorkItem ctrl).
Definition saveVolumeWorker : nat → K unit := worker saveNextWorkItem.

(** The goroutines that [Run] of a store starts. *)
Definition queueStore_Run (threadiness : Z) : list (nat → K unit) := replicate (Z.to_nat threadiness) saveVolumeWorker.
Definition backoffStore_Run (threadiness : Z) : list (nat → K unit) := [].
End loops.

(** ** Queues that are worked off *)

Lemma Get_head q x q' :
  Get q = Some (x, q') →
  q_queue q = x :: q_queue q' ∧ (x ∉ q_dirty q') ∧ x ∈ q_processing q' ∧ q_waiting q' = q_waiting q ∧
  q_dirty q' ⊆ q_dirty q.
Proof. unfold Get. destruct (q_queue q) as [|y rest]; [done|]. intros [= -> <-]. cbn. split_and!; set_solver. Qed.

(** The key a worker has just taken does not come back into the queue. *)
Lemma Done_head x q : x ∉ q_dirty q → q_queue (Done x q) = q_queue q ∧ q_queue (Done x (AddAfter x q)) = q_queue q.
Proof. intros Hx. unfold Done. cbn. by rewrite decide_False. Qed.

Section save.
Context `{!Api}.

(** Saving adds volumes to the API server and removes none. *)
Lemma doSaveVolume_grows v k : kw_pvs k ⊆ kw_pvs (doSaveVolume v k).2.
Proof.
  unfold doSaveVolume, bind, try, pv_create, api.
  assert (∀ o : option PersistentVolume, kw_pvs k !! pv_Name v = None → kw_pvs k ⊆ <[pv_Name v := v]> (kw_pvs k)) as Hins.
  { intros _ Hn. by apply insert_subseteq. }
  destruct (api_fault _ _ _) as [[e [|]]|]; destruct (kw_pvs k !! pv_Name v) as [pv|] eqn:Hl; cbn;
    repeat case_match; cbn; try done; by apply (Hins None).
Qed.

(** What happened to a volume that was queued. *)
Definition attended (k k' : kworld) (name : string) (v : PersistentVolume) : Prop :=
  (is_Some (kw_pvs k' !! name) ∧ kw_unsaved k' !! name = None) ∨
  (kw_unsaved k' !! name = Some v ∧ name ∈ q_waiting (kw_saveQueue k')).

(** One turn of the worker. *)
Lemma save_turn name rest k :
  creates_honest → store_ok k → q_queue (kw_saveQueue k) = name :: rest →
  ∃ k', saveNextWorkItem k = (Ret true, k') ∧ store_ok k' ∧ q_queue (kw_saveQueue k') = rest ∧
    kw_pvs k ⊆ kw_pvs k' ∧ q_waiting (kw_saveQueue k) ⊆ q_waiting (kw_saveQueue k') ∧
    (∀ v, kw_unsaved k !! name = Some v → attended k k' name v) ∧
    (∀ n, n ≠ name → kw_unsaved k' !! n = kw_unsaved k !! n).
Proof.
  intros Hh Hok Hq.
  assert (∃ q', Get (kw_saveQueue k) = Some (name, q')) as [q' Hg] by (unfold Get; rewrite Hq; by eexists).
  destruct (Get_head _ _ _ Hg) as (Hhead&Hnd&Hproc&Hwait&_). rewrite Hq in Hhead. injection Hhead as Hrest.
  set (k1 := set_saveQueue q' k).
  assert (store_ok k1) as Hok1 by (apply (save_step_ok k); [by eapply save_take|done]).
  pose proof (saveItem_ok name k1 Hproc Hok1) as Hok2.
  pose proof (saveItem_cases name k1) as Hc. cbv zeta in Hc. change (kw_saveQueue k1) with q' in Hc.
  change (kw_unsaved k1) with (kw_unsaved k) in Hc. destruct (Done_head name q' Hnd) as [Hd1 Hd2].
  assert (∃ u, (saveItem name k1).1 = Ret u) as [u Hret].
  { unfold saveItem, bind, gets, try, modify. cbv beta iota. destruct (kw_unsaved k1 !! name) as [v|]; [|by eexists].
    pose proof (doSaveVolume_view v k1) as Hv. cbv zeta in Hv. destruct Hv as (_&_&Hv). specialize (Hv Hh).
    destruct (doSaveVolume v k1) as [[|e|pn] k2]; cbn in *; [by eexists..|done]. }
  exists (saveItem name k1).2. split.
  { unfold saveNextWorkItem. erewrite run_bind_ret by reflexivity. rewrite Hg.
    erewrite run_bind_ret by reflexivity. fold k1. destruct (saveItem name k1) as [o k2] eqn:Hs. cbn in Hret. subst o.
    by erewrite run_bind_ret by exact Hs. }
  split; [done|]. destruct (kw_unsaved k !! name) as [v|] eqn:Hu.
  - destruct Hc as [Hp Hc]. destruct (doSaveVolume_view v k1) as (_&_&Hv). specialize (Hv Hh).
    pose proof (doSaveVolume_grows v k1) as Hgrow. rewrite <-Hp in Hgrow.
    destruct (so_active _ Hok name v Hu) as [_ Hname].
    destruct (doSaveVolume v k1).1 as [[]|e|pn]; [| |done]; destruct Hc as [Hq2 Hu2]; rewrite Hq2, ?Hu2.
    + split_and!; [by rewrite Hd1|done|cbn; by rewrite Hwait| |].
      * intros v' [= <-]. left. rewrite Hu2, lookup_delete_eq, Hp. by rewrite <-Hname.
      * intros n Hn. by rewrite lookup_delete_ne.
    + split_and!; [by rewrite Hd2|done|cbn; rewrite Hwait; set_solver| |done].
      intros v' [= <-]. right. rewrite Hu2, Hq2, Hu. cbn. set_solver.
  - destruct Hc as (Hq2&Hu2&Hp). rewrite Hq2, Hu2. split_and!; [by rewrite Hd1| |cbn; by rewrite Hwait|done|done].
    by rewrite Hp.
Qed.
End save.

(** ** Turns take keys off the queues *)

Section turns.
Context `{!Env, !Api} (p : hostPathProvisioner) (version : Version).

Lemma claim_turn k k' :
  processNextClaimWorkItem (mainController p version) k = (Ret true, k') →
  ∃ key, q_queue (kw_claimQueue k) = key :: q_queue (kw_claimQueue k').
Proof.
  unfold processNextClaimWorkItem. intros Hr. bind_inv Hr qu w Hm. injection Hm as <- <-.
  destruct (Get (kw_claimQueue k)) as [[key q']|] eqn:Hg; [|done]. bind_inv Hr u w1 Hm. injection Hm as _ <-.
  bind_inv Hr u1 w2 Hm. injection Hr as <-. unfold processClaim in Hm. bind_inv Hm r w3 Hs.
  destruct (Get_head _ _ _ Hg) as (Hhead&Hnd&_). destruct (Done_head key q' Hnd) as [Hd1 Hd2]. exists key.
  pose proof (keeps_syncClaimHandler p version key (set_claimQueue q' k)) as Hkeep. rewrite Hs in Hkeep.
  destruct Hkeep as [Hkc _]. cbn in Hkc. rewrite Hhead. unfold finishClaim, bind, gets, modify in Hm.
  destruct r.2 as [e|]; [destruct (mayRetry _ _)|]; cbn in Hm; injection Hm as _ <-; cbn -[Done AddAfter];
    by rewrite Hkc, ?Hd1, ?Hd2.
Qed.

Lemma volume_turn k k' :
  processNextVolumeWorkItem (mainController p version) k = (Ret true, k') →
  ∃ key, q_queue (kw_volumeQueue k) = key :: q_queue (kw_volumeQueue k').
Proof.
  unfold processNextVolumeWorkItem. intros Hr. bind_inv Hr qu w Hm. injection Hm as <- <-.
  destruct (Get (kw_volumeQueue k)) as [[key q']|] eqn:Hg; [|done]. bind_inv Hr u w1 Hm. injection Hm as _ <-.
  bind_inv Hr u1 w2 Hm. injection Hr as <-. unfold processVolume in Hm. bind_inv Hm r w3 Hs.
  destruct (Get_head _ _ _ Hg) as (Hhead&Hnd&_). destruct (Done_head key q' Hnd) as [Hd1 Hd2]. exists key.
  pose proof (keeps_syncVolumeHandler (R := keeps_queues) p version key (set_volumeQueue q' k)) as Hkeep.
  unfold try in Hs. assert (kw_volumeQueue w3 = q') as Hkc.
  { destruct Hkeep as (_&Hkv&_). destruct (syncVolumeHandler _ _ _) as [[] ?]; by simplify_eq/=. }
  rewrite Hhead. unfold finishVolume, bind, gets, modify in Hm.
  destruct r as [u2|e]; [|destruct (mayRetry _ _)]; cbn in Hm; injection Hm as _ <-; cbn -[Done AddAfter];
    by rewrite Hkc, ?Hd1, ?Hd2.
Qed.

Lemma save_turn_shrinks k k' :
  saveNextWorkItem k = (Ret true, k') → ∃ key, q_queue (kw_saveQueue k) = key :: q_queue (kw_saveQueue k').
Proof.
  unfold saveNextWorkItem. intros Hr. bind_inv Hr qu w Hm. injection Hm as <- <-.
  destruct (Get (kw_saveQueue k)) as [[key q']|] eqn:Hg; [|done]. bind_inv Hr u w1 Hm. injection Hm as _ <-.
  bind_inv Hr u1 w2 Hm. injection Hr as <-. destruct (Get_head _ _ _ Hg) as (Hhead&Hnd&_).
  destruct (Done_head key q' Hnd) as [Hd1 Hd2]. exists key. rewrite Hhead.
  pose proof (saveItem_cases key (set_saveQueue q' k)) as Hc. cbv zeta in Hc. rewrite Hm in Hc. cbn [snd] in Hc.
  change (kw_saveQueue (set_saveQueue q' k)) with q' in Hc.
  destruct (kw_unsaved _ !! key) as [v|]; [|destruct Hc as (->&_); by rewrite Hd1].
  destruct Hc as [_ Hc]. destruct (doSaveVolume v _).1; [| |done]; destruct Hc as [-> _]; by rewrite ?Hd1, ?Hd2.
Qed.
End turns.

(** A loop whose turns return and take keys off a queue ends with an empty queue: more turns than there are
    keys, and one to come to wait, change nothing. *)
Lemma worker_ends (turn : K bool) (keys : kworld → list string) k :
  (∀ k, sound k → ∃ b k', turn k = (Ret b, k') ∧ sound k') →
  (∀ k k', turn k = (Ret true, k') → ∃ key, keys k = key :: keys k') →
  (∀ k k', turn k = (Ret false, k') → k' = k ∧ keys k = []) → sound k →
  ∃ k', (∀ fuel, (length (keys k) < fuel)%nat → worker turn fuel k = (Ret tt, k')) ∧ keys k' = [] ∧ sound k'.
Proof.
  intros Htot Htrue Hfalse. remember (length (keys k)) as n eqn:Hn. revert k Hn.
  induction n as [n IH] using lt_wf_ind; intros k -> Hs. destruct (Htot k Hs) as ([|]&k1&Ht&Hs1).
  - destruct (Htrue _ _ Ht) as [key Hk]. rewrite Hk in IH |- *. cbn [length] in *.
    destruct (IH (length (keys k1)) ltac:(lia) k1 eq_refl Hs1) as (k'&Hrun&Hnil&Hs'). exists k'. split_and!; [|done..].
    intros [|fuel] Hlt; [lia|]. cbn [worker]. erewrite run_bind_ret by exact Ht. apply Hrun. lia.
  - destruct (Hfalse _ _ Ht) as [-> Hk]. exists k. split_and!; [|done..].
    intros [|fuel] Hlt; [lia|]. cbn [worker]. by erewrite run_bind_ret by exact Ht.
Qed.

Lemma turn_waits {A} (take : kworld → queue) (body : string → queue → K A) k k' :
  (q <- gets take ;; match Get q with None => ret false | Some (x, q') => body x q' >> ret true end) k = (Ret false, k') →
  k' = k ∧ q_queue (take k) = [].
Proof.
  intros Hr. bind_inv Hr qu w Hm. injection Hm as <- <-. unfold Get in Hr. destruct (q_queue (take k)) as [|x rest].
  - by injection Hr as <-.
  - by bind_inv Hr u w1 Hm.
Qed.

(** ** Properties *)

(** C25: The loops of the workers end. In a state where binding modes and host paths are set and the caches point to
    claims, a worker of the claims, of the volumes or of the store of unsaved volumes that is not disturbed makes one turn
    for each key that is queued and then waits with an empty queue, whatever calls fail and however many turns it is
    granted beyond these: no sync panics, and keys whose sync fails do not keep the worker from getting there, because they
    wait for their delay and not in the queue. The state it leaves is of the same kind. *)
Theorem worker_loops_end `{!Env, !Api} p version k :
  sound k →
  let ends (run : nat → K unit) (keys : kworld → list string) :=
    ∃ k', (∀ fuel, (length (keys k) < fuel)%nat → run fuel k = (Ret tt, k')) ∧ keys k' = [] ∧ sound k' in
  ends (runClaimWorker (mainController p version)) (λ k, q_queue (kw_claimQueue k)) ∧
  ends (runVolumeWorker (mainController p version)) (λ k, q_queue (kw_volumeQueue k)) ∧
  ends saveVolumeWorker (λ k, q_queue (kw_saveQueue k)).
Proof.
  intros Hs ends. split_and!; apply worker_ends; try done.
  - apply claim_turn_total.
  - apply claim_turn.
  - apply (turn_waits kw_claimQueue (λ key q', modify (set_claimQueue q') >> processClaim _ key)).
  - apply volume_turn_total.
  - apply volume_turn.
  - apply (turn_waits kw_volumeQueue (λ key q', modify (set_volumeQueue q') >> processVolume _ key)).
  - apply save_turn_total.
  - apply save_turn_shrinks.
  - apply (turn_waits kw_saveQueue (λ key q', modify (set_saveQueue q') >> saveItem key)).
Qed.

Lemma save_worker_run `{!Api} l : ∀ k,
  creates_honest → store_ok k → q_queue (kw_saveQueue k) = l →
  ∃ k', saveVolumeWorker (S (length l)) k = (Ret tt, k') ∧ store_ok k' ∧ q_queue (kw_saveQueue k') = [] ∧
    kw_pvs k ⊆ kw_pvs k' ∧ q_waiting (kw_saveQueue k) ⊆ q_waiting (kw_saveQueue k') ∧
    (∀ n, n ∉ l → kw_unsaved k' !! n = kw_unsaved k !! n) ∧
    (∀ n v, n ∈ l → kw_unsaved k !! n = Some v → attended k k' n v).
Proof.
  induction l as [|name l IH]; intros k Hh Hok Hq.
  - exists k. split_and!; [|done..| |by intros n v ?%elem_of_nil].
    + unfold saveVolumeWorker. cbn [length worker]. rewrite (run_bind_ret _ _ _ false k); [reflexivity|].
      unfold saveNextWorkItem. erewrite run_bind_ret by reflexivity. unfold Get. by rewrite Hq.
    + done.
  - destruct (save_turn name l k Hh Hok Hq) as (k1&Hturn&Hok1&Hq1&Hp1&Hw1&Ha1&Hu1).
    assert (name ∉ l) as Hnl.
    { pose proof (qo_nodup _ (so_queue _ Hok)) as Hnd. rewrite Hq in Hnd. by apply NoDup_cons in Hnd as [? _]. }
    destruct (IH k1 Hh Hok1 Hq1) as (k2&Hrun&Hok2&Hq2&Hp2&Hw2&Hu2&Ha2). exists k2. split_and!; [|done|done| | | |].
    + unfold saveVolumeWorker in *. cbn [length]. remember (S (length l)) as fuel. cbn [worker].
      by erewrite run_bind_ret by exact Hturn.
    + by etransitivity.
    + by etransitivity.
    + intros n [Hne Hnin]%not_elem_of_cons. by rewrite Hu2, Hu1.
    + intros n v [->|Hin]%elem_of_cons Hv.
      * unfold attended. rewrite Hu2 by done. destruct (Ha1 v Hv) as [[Hs Hn]|[Hs Hw]]; [left|right].
        -- split; [|done]. destruct Hs as [pv Hpv]. exists pv. by eapply lookup_weaken.
        -- split; [done|]. set_solver.
      * apply (Ha2 n v Hin). rewrite Hu1; [done|]. by intros ->.
Qed.

(** One pass of a worker of the background store. Started with any number of names in the queue, the worker comes to wait
    again after one turn for each of them, and then every volume that was queued is either held by the API server and off the
    list, or, when the server refused it, still on the list and waiting for its delay; the volumes that were
    not queued are untouched, and the API server has lost nothing. *)
Theorem save_worker_pass `{!Api} k0 k :
  creates_honest → store_idle k0 → rtc save_step k0 k →
  ∃ k', saveVolumeWorker (S (length (q_queue (kw_saveQueue k)))) k = (Ret tt, k') ∧
    q_queue (kw_saveQueue k') = [] ∧ kw_pvs k ⊆ kw_pvs k' ∧
    (∀ n, n ∉ q_queue (kw_saveQueue k) → kw_unsaved k' !! n = kw_unsaved k !! n) ∧
    (∀ n v, n ∈ q_queue (kw_saveQueue k) → kw_unsaved k !! n = Some v →
       (is_Some (kw_pvs k' !! n) ∧ kw_unsaved k' !! n = None) ∨
       (kw_unsaved k' !! n = Some v ∧ n ∈ q_waiting (kw_saveQueue k'))).
Proof.
  intros Hh Hidle Hsteps. pose proof (save_steps_ok _ _ Hsteps (store_idle_ok _ Hidle)) as Hok.
  destruct (save_worker_run _ k Hh Hok eq_refl) as (k'&?&_&?&?&_&?&?). by exists k'.
Qed.

(** A volume that could not be saved at once is saved in the pass. *)
Lemma save_worker_pass_witness :
  let k := (queueStore_StoreVolume (H := flakyApi) demoClaim (provisionedPV demoProvisioner demoOptions 0) demoKworld).2 in
  ∃ k', saveVolumeWorker (H0 := flakyApi) 2 k = (Ret tt, k') ∧ q_queue (kw_saveQueue k') = [].
Proof.
  intros k. destruct (save_worker_pass (H := flakyApi) demoKworld k) as (k'&Hrun&Hq&_); [..|by exists k'].
  - intros [|n] s e applied; [|done]. intros [= <- <-]. done.
  - done.
  - apply rtc_once. apply (save_store (H := flakyApi)).
Defined.

(** A claim is queued and its worker takes it; the first call to the API server fails. *)
Lemma worker_loops_end_witness :
  let k := set_claimQueue (Add "1" emptyQueue) demoKworld in
  ∃ k', runClaimWorker (H0 := flakyApi) (mainController (H0 := flakyApi) demoProvisioner demoVersion) 9 k = (Ret tt, k') ∧
    q_queue (kw_claimQueue k') = [].
Proof.
  intros k. destruct (worker_loops_end (H0 := flakyApi) demoProvisioner demoVersion k) as ((k'&Hrun&Hq&_)&_&_).
  - split.
    + intros key a. cbn. intros [_ <-]%lookup_singleton_Some. by eexists.
    + intros key a. cbn. by rewrite lookup_empty.
    + intros name c. cbn. intros [[_ [= <-]]%lookup_singleton_Some|[_ ?]%lookup_singleton_Some]; [|done]. by eexists.
    + intros name v. cbn. by rewrite lookup_empty.
  - exists k'. split; [|exact Hq]. apply Hrun. vm_compute. lia.
Defined.
