(* ===== verification/ControllerStart.v ===== *)
(** * Properties of the options and the start of the provision controller *)
From S2P Require Import Prelude GoStrings GoPath GoErrors OS OSFacts Demo Json Utils WorkQueue Kube.
From S2P Require Import Provisioner VolumeStore ProvisionController ControllerOptions ProvisionProps.
From S2P Require Import ProvisionQueue VolumeStoreSpec.
Open Scope Z_scope.

(** The option functions of the package. *)
Inductive is_option : option_function → Prop :=
  | io_ResyncPeriod d : is_option (ResyncPeriod d)
  | io_Threadiness n : is_option (Threadiness n)
  | io_RateLimiter l : is_option (RateLimiter l)
  | io_ExponentialBackOffOnError b : is_option (ExponentialBackOffOnError b)
  | io_CreateProvisionedPVRetryCount n : is_option (CreateProvisionedPVRetryCount n)
  | io_CreateProvisionedPVInterval d : is_option (CreateProvisionedPVInterval d)
  | io_CreateProvisionedPVBackoff b : is_option (CreateProvisionedPVBackoff b)
  | io_CreateProvisionedPVLimiter l : is_option (CreateProvisionedPVLimiter l)
  | io_FailedProvisionThreshold n : is_option (FailedProvisionThreshold n)
  | io_FailedDeleteThreshold n : is_option (FailedDeleteThreshold n)
  | io_LeaderElection b : is_option (LeaderElection b)
  | io_LeaderElectionNamespace s : is_option (LeaderElectionNamespace s)
  | io_LeaseDuration d : is_option (LeaseDuration d)
  | io_RenewDeadline d : is_option (RenewDeadline d)
  | io_RetryPeriod d : is_option (RetryPeriod d)
  | io_ClaimsInformer i : is_option (ClaimsInformer i)
  | io_VolumesInformer i : is_option (VolumesInformer i)
  | io_ClassesInformer i : is_option (ClassesInformer i)
  | io_MetricsPort n : is_option (MetricsPort n)
  | io_MetricsAddress s : is_option (MetricsAddress s)
  | io_MetricsPath s : is_option (MetricsPath s)
  | io_AdditionalProvisionerNames l : is_option (AdditionalProvisionerNames l)
  | io_AddFinalizer b : is_option (AddFinalizer b).

(** The ways to save volumes exclude each other. *)
Record exclusive (c : config) : Prop := {
  ex_limiter : is_Some (c_createProvisionerPVLimiter c) →
    c_createProvisionedPVBackoff c = None ∧ c_createProvisionedPVRetryCount c = 0 ∧ c_createProvisionedPVInterval c = 0;
  ex_backoff : is_Some (c_createProvisionedPVBackoff c) →
    c_createProvisionerPVLimiter c = None ∧ c_createProvisionedPVRetryCount c = 0 ∧ c_createProvisionedPVInterval c = 0;
}.

(** The fields an option that is not about saving leaves alone. *)
Definition saving (c : config) :=
  (c_createProvisionerPVLimiter c, c_createProvisionedPVBackoff c,
   c_createProvisionedPVRetryCount c, c_createProvisionedPVInterval c, c_hasRun c).

Lemma exclusive_saving c c' : saving c' = saving c → exclusive c → exclusive c'.
Proof. intros [= Hl Hb Hr Hi _] [H1 H2]. split; rewrite Hl, Hb, Hr, Hi; done. Qed.

Lemma not_is_Some_None {A} (o : option A) : bool_decide (is_Some o) = false → o = None.
Proof. rewrite bool_decide_eq_false. by rewrite <-eq_None_not_Some. Qed.


Lemma beforeRun_inr f c c' : beforeRun f c = inr c' → c_hasRun c = false ∧ f c = inr c'.
Proof. unfold beforeRun, HasRun. by destruct (c_hasRun c). Qed.

(** An option leaves the saving fields alone, or sets one while those it
    excludes are unset. *)
Lemma option_exclusive opt c c' :
  is_option opt → opt c = inr c' → exclusive c → exclusive c' ∧ c_hasRun c = false ∧ c_hasRun c' = false.
Proof.
  intros Hopt Hrun Hex. destruct Hopt; apply beforeRun_inr in Hrun as [Hr Hrun];
    try (injection Hrun as <-; destruct c; split_and!; [by eapply exclusive_saving; [|exact Hex]|exact Hr|exact Hr]).
  - destruct (bool_decide (is_Some (c_createProvisionedPVBackoff c))) eqn:Hb; [done|].
    destruct (bool_decide (is_Some (c_createProvisionerPVLimiter c))) eqn:Hl; [done|]. injection Hrun as <-.
    apply not_is_Some_None in Hb, Hl. destruct c; simpl in *; subst. split_and!; [|done|done]. split; simpl; by intros [? ?].
  - destruct (bool_decide (is_Some (c_createProvisionedPVBackoff c))) eqn:Hb; [done|].
    destruct (bool_decide (is_Some (c_createProvisionerPVLimiter c))) eqn:Hl; [done|]. injection Hrun as <-.
    apply not_is_Some_None in Hb, Hl. destruct c; simpl in *; subst. split_and!; [|done|done]. split; simpl; by intros [? ?].
  - destruct (c_createProvisionedPVRetryCount c =? 0) eqn:Hc; [|done].
    destruct (c_createProvisionedPVInterval c =? 0) eqn:Hi; [|done].
    destruct (bool_decide (is_Some (c_createProvisionerPVLimiter c))) eqn:Hl; [done|]. injection Hrun as <-.
    apply not_is_Some_None in Hl. apply Z.eqb_eq in Hc, Hi. destruct c; simpl in *; subst.
    split_and!; [|done|done]. split; simpl; [by intros [? ?]|done].
  - destruct (c_createProvisionedPVRetryCount c =? 0) eqn:Hc; [|done].
    destruct (c_createProvisionedPVInterval c =? 0) eqn:Hi; [|done].
    destruct (bool_decide (is_Some (c_createProvisionedPVBackoff c))) eqn:Hb; [done|]. injection Hrun as <-.
    apply not_is_Some_None in Hb. apply Z.eqb_eq in Hc, Hi. destruct c; simpl in *; subst.
    split_and!; [|done|done]. split; simpl; [done|by intros [? ?]].
Qed.

Lemma options_exclusive opts : ∀ c c',
  Forall is_option opts → applyOptions opts c = inr c' → c_hasRun c = false → exclusive c → exclusive c' ∧ c_hasRun c' = false.
Proof.
  induction opts as [|opt opts IH]; intros c c' Hall Hrun Hr Hex; cbn [applyOptions] in Hrun; [by injection Hrun as <-|].
  apply Forall_cons in Hall as [Hopt Hall]. destruct (opt c) as [e|c1] eqn:Ho; [done|].
  destruct (option_exclusive opt c c1 Hopt Ho Hex) as (Hex1&_&Hr1). by eapply IH.
Qed.

(** The linear backoff makes as many attempts as it has steps. *)
Lemma attempts_linear d n :
  attempts {| bk_Duration := d; bk_Factor := Some (λ d, d); bk_Steps := n; bk_Cap := 0 |} = Z.to_nat n.
Proof.
  unfold attempts. cbn [bk_Steps]. remember (Z.to_nat n) as m eqn:Hm. revert n Hm.
  induction m as [|m IH]; intros n Hm; [done|]. cbn [attemptsFrom bk_Steps].
  rewrite (proj2 (Z.ltb_lt 0 n)) by lia. f_equal. destruct (Z.eqb_spec n 1) as [->|Hne]; [simpl in Hm; lia|].
  unfold backoffStep. cbn [bk_Steps bk_Factor bk_Cap bk_Duration]. rewrite (proj2 (Z.ltb_ge n 1)) by lia.
  cbn [Z.ltb andb Z.compare]. apply IH. lia.
Qed.

(** No backoff makes more attempts than it has steps. *)
Lemma attemptsFrom_le fuel b : (attemptsFrom fuel b ≤ fuel)%nat.
Proof.
  revert b. induction fuel as [|fuel IH]; intros b; cbn [attemptsFrom]; [done|].
  destruct (0 <? bk_Steps b); [|lia]. destruct (bk_Steps b =? 1); [lia|]. specialize (IH (backoffStep b)). lia.
Qed.
Lemma attempts_pos b : 0 < bk_Steps b → (0 < attempts b)%nat.
Proof.
  intros Hs. unfold attempts. destruct (Z.to_nat (bk_Steps b)) eqn:Hn; [lia|]. cbn [attemptsFrom].
  rewrite (proj2 (Z.ltb_lt _ _)) by done. lia.
Qed.

(** The attempts of the bounded store a set of options asks for. *)
Definition boundedAttempts (c : config) : nat :=
  match c_createProvisionedPVBackoff c with
  | Some b => attempts b
  | None => Z.to_nat (if c_createProvisionedPVRetryCount c =? 0 then 5 else c_createProvisionedPVRetryCount c)
  end.

Lemma completed_store `{!Api} prov version c :
  storeOf prov (completeInformers version (completeSaving c)) =
    match c_createProvisionerPVLimiter c with
    | Some _ => queueStore
    | None => backoffStore (boundedAttempts c) prov
    end.
Proof.
  assert (∀ c1, storeOf prov (completeInformers version c1) = storeOf prov c1) as ->.
  { intros c1. unfold completeInformers.
    assert (∀ c2 i, storeOf prov (set_claimInformer i c2) = storeOf prov c2) as H1 by by intros [].
    assert (∀ c2 i, storeOf prov (set_volumeInformer i c2) = storeOf prov c2) as H2 by by intros [].
    assert (∀ c2 i, storeOf prov (set_classInformer i c2) = storeOf prov c2) as H3 by by intros [].
    repeat (case_match; rewrite ?H1, ?H2, ?H3); done. }
  unfold storeOf, completeSaving, boundedAttempts.
  destruct c as [? ? ? ? ? ? ? ? [b|] n d [l|]]; cbn -[attempts]; try done.
  destruct (d =? 0); cbn -[attempts]; destruct (n =? 0); cbn -[attempts]; f_equal; apply attempts_linear.
Qed.

(** C26: However a controller is configured, at most one way to save volumes is in effect: if the options are accepted, the store is the
    background store if a limiter was given, and otherwise the bounded store with the attempts of the
    given backoff, of the given retry count, or five. Whenever a limiter was given or at least one attempt is made the store
    keeps the contract of its interface, provided the API server is honest about creates: one that fails has
    saved nothing, and no object is claimed to exist that does not. *)
Theorem controller_store `{!Env, !Api} env name p version opts c ctrl :
  Forall is_option opts →
  ControllerOptions.NewProvisionController env name (hostPathOps p) (Some version) opts = Ret (c, ctrl) →
  ∃ host c0, pe_hostname env = inr host ∧ applyOptions opts (newConfig env host name) = inr c0 ∧ exclusive c0 ∧
    volumeStore ctrl = match c_createProvisionerPVLimiter c0 with
                       | Some _ => queueStore
                       | None => backoffStore (boundedAttempts c0) (hostPathOps p)
                       end ∧
    (is_Some (c_createProvisionerPVLimiter c0) ∨ (0 < boundedAttempts c0)%nat → StoreContract (volumeStore ctrl)).
Proof.
  intros Hall Hnew. unfold ControllerOptions.NewProvisionController in Hnew.
  destruct (pe_hostname env) as [e|host]; [done|].
  destruct (applyOptions opts (newConfig env host name)) as [e|c0] eqn:Ha; [done|]. injection Hnew as _ <-.
  destruct (options_exclusive opts _ c0 Hall Ha) as [Hex _]; [done|by split; intros [? ?]|].
  exists host, c0. cbn [volumeStore controllerOf]. rewrite completed_store. split_and!; try done.
  destruct (c_createProvisionerPVLimiter c0) as [l|]; intros Hpos; [apply _|].
  apply backoffStore_keeps; [|intros v; apply hostPath_Delete_pvs].
  destruct Hpos as [[? ?]|Hpos]; [done|lia].
Qed.

Definition demoProcess : processEnv :=
  {| pe_hostname := inr "node1"; pe_uuid := "u-1"; POD_NAMESPACE := ""; pe_namespaceFile := inr "kubevirt" |}.

Lemma controller_store_witness :
  ∃ c ctrl, ControllerOptions.NewProvisionController (H := demoApi) demoProcess "hpp" (hostPathOps demoProvisioner)
      (Some demoVersion) [CreateProvisionedPVRetryCount 3; Threadiness 2] = Ret (c, ctrl) ∧
    StoreContract (H := demoApi) (volumeStore ctrl).
Proof.
  do 2 eexists. split; [reflexivity|].
  destruct (controller_store (H0 := demoApi) demoProcess "hpp" demoProvisioner demoVersion
    [CreateProvisionedPVRetryCount 3; Threadiness 2] _ _ ltac:(repeat constructor) eq_refl) as (host&c0&Hh&Ha&_&_&Hc).
  apply Hc. right. injection Hh as <-. injection Ha as <-. vm_compute. lia.
Defined.

(** The controller that cmd/provisioner starts, without options: it is the controller of the other theorems
    (five attempts to save, fifteen failures, no finalizers), runs without leader election, and launches its informers and, once the caches are filled,
    four claim workers and four volume workers; before that no worker runs. Once it runs no option
    function has any effect. *)
Theorem default_start `{!Env, !Api} env host p version :
  pe_hostname env = inr host →
  ∃ c, ControllerOptions.NewProvisionController env defaultProvisionerName (hostPathOps p) (Some version) []
      = Ret (c, mainController p version) ∧
    ∀ elected, ∃ c1 informers, Run elected false c = Ret (c1, StoreRun 4 :: informers) ∧
      Run elected true c = Ret (c1, StoreRun 4 :: informers ++ concat (replicate 4 [ClaimWorker; VolumeWorker])) ∧
      length informers = 3%nat ∧ (∀ t, t ∈ informers → ∃ i, t = InformerRun i) ∧
      ∀ opt, is_option opt → opt c1 = inl errRuntime.
Proof.
  intros Hh. unfold ControllerOptions.NewProvisionController. rewrite Hh. cbn [applyOptions].
  eexists. split.
  - reflexivity.
  - intros elected. do 2 eexists. split; [reflexivity|]. split; [reflexivity|]. split; [reflexivity|]. split.
    + intros t Ht. repeat (apply elem_of_cons in Ht as [->|Ht]; [by eexists|]). by apply elem_of_nil in Ht.
    + intros opt Hopt. by destruct Hopt.
Qed.

Lemma default_start_witness :
  ∃ c, ControllerOptions.NewProvisionController (H := demoApi) demoProcess defaultProvisionerName (hostPathOps demoProvisioner)
    (Some demoVersion) [] = Ret (c, mainController (H0 := demoApi) demoProvisioner demoVersion).
Proof.
  destruct (default_start (H0 := demoApi) demoProcess "node1" demoProvisioner demoVersion eq_refl) as (c&Hc&_).
  by exists c.
Defined.

(** Leader election cannot be switched on: a controller that is configured with it
    ends its process at the start, because the kind of lock it asks for is not supported any more. *)
Theorem leader_election_fatal env host name c elected synced :
  applyOptions [LeaderElection true] (newConfig env host name) = inr c →
  Run elected synced c = Panic "Error creating lock: endpoints lock is removed, migrate to leases".
Proof. intros [= <-]. reflexivity. Qed.

Lemma leader_election_fatal_witness :
  ∃ c, Run true true c = Panic "Error creating lock: endpoints lock is removed, migrate to leases".
Proof.
  eexists. eapply (leader_election_fatal demoProcess "node1" "hpp" _ true true). reflexivity.
Defined.
