(* ===== verification/Main.v ===== *)
(** * The two programs

    cmd/plugin/plugin.go and the main function of
    cmd/provisioner/hostpath-provisioner.go: what the components are given
    and in which order they are started. *)
From S2P Require Import Prelude GoStrings GoPath GoErrors OS OSFacts Demo Json Metrics Mount Utils Driver Server.
From S2P Require Import GrpcServer Tls WorkQueue Kube Provisioner VolumeStore ProvisionController.
From S2P Require Import ControllerOptions ProvisionProps VolumeStoreSpec ControllerStart.
Open Scope Z_scope.

(** ** The CSI plugin *)

Record pluginFlags := {
  fl_endpoint : string; fl_drivername : string; fl_datadir : string; fl_nodeid : string; fl_version : string;
  fl_metricsCertFile : string; fl_metricsKeyFile : string; fl_metricsTLSVersion : string;
}.

(** The flags that are not given. *)
Definition defaultFlags : pluginFlags := {|
  fl_endpoint := "unix://tmp/csi.sock"; fl_drivername := "hostpath.csi.kubevirt.io"; fl_datadir := pluginDataDir;
  fl_nodeid := ""; fl_version := "";
  fl_metricsCertFile := ""; fl_metricsKeyFile := ""; fl_metricsTLSVersion := "VersionTLS13" |}.

Section plugin.
Context `{!Env, !CertLib, !XXHash}.

(** The process has ended, or it waits for its server. *)
Inductive pluginProcess : Type :=
  | Exited (status : Z)
  | Waiting (metrics : option MetricsServer) (regs : registries) (driver : hostPath) (grpc : nonBlockingGRPCServer).

Definition pluginMain (regs : registries) (fl : pluginFlags) (env : PodEnv) : M pluginProcess :=
  let cfg := {| DriverName := fl_drivername fl; Endpoint := fl_endpoint fl; NodeID := fl_nodeid fl;
                StoragePools := ∅; DefaultStoragePoolName := ""; Utils.Version := fl_version fl |} in
  let '(metrics, regs) :=
    RunPrometheusServer regs env ":8443" (fl_metricsCertFile fl) (fl_metricsKeyFile fl) (fl_metricsTLSVersion fl) in
  r <- try (NewHostPathDriver cfg None (fl_datadir fl)) ;;
  match r with
  | inr err => ret (Exited 1)
  | inl driver => ret (Waiting metrics regs driver (runStart (Endpoint (hp_cfg driver))))
  end.
End plugin.

(** ** The provisioner *)

(** What the cluster answers; parsing a version is left to the library. *)
Record cluster := {
  cl_InClusterConfig : gerror + unit;
  cl_NewForConfig : gerror + unit;
  cl_ServerVersion : gerror + string;
  cl_ParseSemantic : string → option ProvisionController.Version;
}.

Definition provisionerMain `{!Env, !Api} (cl : cluster) (penv : ProvisionerEnv) (env : processEnv) (synced : bool)
    : outcome gerror (ProvisionController * list task) :=
  match cl_InClusterConfig cl with
  | inl err => Panic ("Failed to create config: " +:+ Error err)
  | inr _ =>
  match cl_NewForConfig cl with
  | inl err => Panic ("Failed to create client: " +:+ Error err)
  | inr _ =>
  match cl_ServerVersion cl with
  | inl err => Panic ("Error getting server version: " +:+ Error err)
  | inr gitVersion =>
  match NewHostPathProvisioner penv with
  | Ret p =>
      match ControllerOptions.NewProvisionController env defaultProvisionerName (hostPathOps p)
              (cl_ParseSemantic cl gitVersion) [] with
      | Ret (c, pc) =>
          match Run false synced c with
          | Ret (_, tasks) => Ret (pc, tasks)
          | Fail e => Fail e
          | Panic m => Panic m
          end
      | Fail e => Fail e
      | Panic m => Panic m
      end
  | Fail e => Fail e
  | Panic m => Panic m
  end end end end.

(** ** Properties *)

(** The CSI plugin ends with status 1 exactly when its driver cannot be made (a flag is missing, the pools do
    not parse or their directories cannot be made); otherwise it goes on to wait for its server, which never
    returns, with all three services to be served on the endpoint that was given. The metrics server
    has no influence on this. *)
Theorem plugin_main_waits `{!Env, !CertLib, !XXHash} regs fl env w :
  match pluginMain regs fl env w with
  | (Ret (Exited status), w1) => status = 1 ∧ ∃ cfg err, NodeID cfg = fl_nodeid fl ∧ Utils.Version cfg = fl_version fl ∧
      NewHostPathDriver cfg None (fl_datadir fl) w = (Fail err, w1)
  | (Ret (Waiting metrics regs' driver grpc), w1) =>
      regs' = (SetupMetrics regs).2 ∧
      (fl_nodeid fl ≠ "" ∧ fl_version fl ≠ "" ∧ fl_endpoint fl ≠ "" ∧ fl_drivername fl ≠ "") ∧
      goroutines grpc = [(fl_endpoint fl, (true, true, true))] ∧
      ∀ s w2, rtc server_step (grpc, w1) (s, w2) → wg s = 1%nat
  | (Fail _, _) => False
  | (Panic _, _) => True
  end.
Proof.
  unfold pluginMain. pose proof (RunPrometheusServer_registries regs env ":8443" (fl_metricsCertFile fl)
    (fl_metricsKeyFile fl) (fl_metricsTLSVersion fl)) as Hregs. destruct (RunPrometheusServer _ _ _ _ _ _) as [metrics regs'].
  cbn [snd] in Hregs. set (cfg := {| DriverName := fl_drivername fl |}). unfold bind at 1, try.
  destruct (NewHostPathDriver cfg None (fl_datadir fl) w) as [[driver|err|pn] w1] eqn:Hd; cbn; [| |done].
  - unfold NewHostPathDriver in Hd. cbn [DriverName NodeID Endpoint Utils.Version cfg] in Hd.
    case_decide as Hn1; [done|]. case_decide as Hn2; [done|]. case_decide as Hn3; [done|]. case_decide as Hn4; [done|].
    destruct (parseStoragePools (fl_datadir fl)) as [pools|]; [|done].
    bind_inv Hd ps w2 Hm. bind_inv Hd u w3 Hm2. bind_inv Hd ctl w4 Hm3. injection Hd as <- <-. cbn.
    assert (Endpoint (withPools cfg pools) = fl_endpoint fl) as Hep by (unfold withPools; by destruct (foldl _ _ _)).
    rewrite Hep. split_and!; try done. by intros s w5 Hs%server_steps_wg.
  - split; [done|]. by exists cfg, err.
Qed.

(** The provisioner starts, with the controller of the other theorems for the node and directory of its
    environment, exactly when the cluster answers with a version that parses, the node and the directory are set and
    the host has a name; otherwise it ends before anything is started. It starts four workers of each kind,
    and only when the caches are filled. *)
Theorem provisioner_main_starts `{!Env, !Api} cl penv env synced :
  match provisionerMain cl penv env synced with
  | Ret (pc, tasks) =>
      ∃ version, pc = mainController {| pvDir := PV_DIR penv; identity := defaultProvisionerName; nodeName := NODE_NAME penv;
                                        useNamingPrefix := bool_decide (ToLower (USE_NAMING_PREFIX penv) = "true") |} version ∧
        (∃ git, cl_ServerVersion cl = inr git ∧ cl_ParseSemantic cl git = Some version) ∧
        NODE_NAME penv ≠ "" ∧ PV_DIR penv ≠ "" ∧
        length (filter (λ t, t = ClaimWorker) tasks) = (if synced then 4 else 0)%nat ∧
        length (filter (λ t, t = VolumeWorker) tasks) = (if synced then 4 else 0)%nat
  | Fail _ => False
  | Panic _ =>
      cl_InClusterConfig cl ≠ inr tt ∨ cl_NewForConfig cl ≠ inr tt ∨ NODE_NAME penv = "" ∨ PV_DIR penv = "" ∨
      (∃ err, pe_hostname env = inl err) ∨
      ¬ ∃ git version, cl_ServerVersion cl = inr git ∧ cl_ParseSemantic cl git = Some version
  end.
Proof.
  unfold provisionerMain. destruct (cl_InClusterConfig cl) as [e|[]]; [by left|].
  destruct (cl_NewForConfig cl) as [e|[]]; [by right; left|].
  destruct (cl_ServerVersion cl) as [e|git] eqn:Hg; [do 5 right; by intros (?&?&?&_)|].
  unfold NewHostPathProvisioner. case_decide; [tauto|]. case_decide; [tauto|].
  unfold ControllerOptions.NewProvisionController.
  destruct (pe_hostname env) as [e|host]; [do 4 right; left; by eexists|].
  destruct (cl_ParseSemantic cl git) as [version|] eqn:Hv; [|do 5 right; intros (?&?&?&?); congruence].
  cbn [applyOptions]. exists version. split_and!; try done; [by exists git|by destruct synced..].
Qed.
