(* ===== verification/Plugin.v ===== *)
(** * The running CSI plugin

    The process after main has come to wait (cmd/plugin/plugin.go): the server
    that serves requests, the goroutine of hostpath.go that evaluates the
    metric, and the handler of signals (signals.SetupSignalHandler of
    controller-runtime), as one transition system. *)
From S2P Require Import Prelude GoStrings GoPath GoErrors OS OSFacts Demo Json Mount Csi Utils Driver.
From S2P Require Import ControllerServer ControllerFacts FindMnt NodeServer System Server GrpcServer Metrics Tls Main.
From stdpp Require Import relations.
Open Scope Z_scope.

(** Where the goroutine of [SetupSignalHandler] is. *)
Inductive signalHandler : Type := WaitFirst | WaitSecond.
(** Where the goroutine of [NewHostPathDriver] is: before its first
    evaluation, in its loop, or returned. *)
Inductive metricGoroutine : Type := Starting | Looping | Returned.

(** [pr_received] counts the signals that were sent to the process, [pr_buffered] those
    that wait in the channel, which has room for two; [pr_serveReturned] says
    that the library's [Serve] has returned by itself; [pr_exit] is the status
    the process has ended with. *)
Record process := Process {
  pr_world : world;
  pr_server : nonBlockingGRPCServer;
  pr_metric : metricGoroutine;
  pr_handler : signalHandler;
  pr_received : nat;
  pr_buffered : nat;
  pr_cancelled : bool;
  pr_serveReturned : bool;
  pr_exit : option Z;
}.

(** What main has started when it comes to wait. *)
Definition started (w : world) (grpc : nonBlockingGRPCServer) : process :=
  Process w grpc Starting WaitFirst 0 0 false false None.

Definition is_serving (s : nonBlockingGRPCServer) : bool :=
  match server s with Some srv => sv_serving srv | None => false end.

Section process.
Context `{!Env, !FindMnt} (driver : hostPath).

(** The step of the handler of signals, when one waits in the channel. *)
Definition handle_signal (p : process) : option process :=
  let '(Process w s m h n b c d e) := p in
  match b with
  | O => None
  | S b =>
      Some match h with
           | WaitFirst => Process w s m WaitSecond n b true d e
           | WaitSecond => Process w s m h n b c d (Some 1)
           end
  end.

(** One turn of the metric goroutine: when the minute is over or at the start. *)
Definition evaluate_metric (p : process) : process :=
  let '(Process w s m h n b c d e) := p in
  Process (evaluateSharedPathMetric (StoragePools (hp_cfg driver)) w).2 s Looping h n b c d e.

(** A request; a panic of its handler ends the process with status 2. *)
Definition handle_request (r : rpc) (p : process) : process :=
  let '(Process w s m h n b c d e) := p in
  let '(o, w') := System.serve (hp_controller driver) r w in
  Process w' s m h n b c d (match o with Panic _ => Some 2 | _ => e end).

(** A goroutine of the server comes to listen; a failure ends the process with status 255. *)
Definition come_to_listen (p : process) : option process :=
  let '(Process w s m h n b c d e) := p in
  match s with
  | NonBlocking wg0 srv ((ep, (ids, cs, ns)) :: gs) =>
      match GrpcServer.serve ep ids cs ns (NonBlocking wg0 srv gs) w with
      | (Ret s', w') => Some (Process w' s' m h n b c d e)
      | (_, w') => Some (Process w' (NonBlocking wg0 srv gs) m h n b c d (Some 255))
      end
  | _ => None
  end.

(** A signal arrives; it is lost when the channel is full. *)
Definition signal (p : process) : process :=
  let '(Process w s m h n b c d e) := p in Process w s m h (S n) (Nat.min 2 (S b)) c d e.

(** The steps of a process that has not ended. *)
Inductive pstep (p : process) : process → Prop :=
  | pstep_signal : pr_exit p = None → pstep p (signal p)
  | pstep_handle p' : pr_exit p = None → handle_signal p = Some p' → pstep p p'
  | pstep_metric : pr_exit p = None → pr_metric p ≠ Returned → pstep p (evaluate_metric p)
  | pstep_metric_done : pr_exit p = None → pr_metric p = Looping → pr_cancelled p = true →
      pstep p (Process (pr_world p) (pr_server p) Returned (pr_handler p) (pr_received p) (pr_buffered p) true
                 (pr_serveReturned p) None)
  | pstep_request r : pr_exit p = None → is_serving (pr_server p) = true → pstep p (handle_request r p)
  | pstep_listen p' : pr_exit p = None → come_to_listen p = Some p' → pstep p p'
  | pstep_serve_end : pr_exit p = None → is_serving (pr_server p) = true →
      pstep p (Process (pr_world p) (serveEnd (pr_server p)) (pr_metric p) (pr_handler p) (pr_received p)
                 (pr_buffered p) (pr_cancelled p) true None).

(** ** The signals that were handled *)

Record signals_ok (p : process) : Prop := {
  so_wait : wg (pr_server p) = 1%nat;
  so_serving : pr_serveReturned p = false → ∀ srv, server (pr_server p) = Some srv → sv_serving srv = true;
  so_first : pr_handler p = WaitFirst → pr_cancelled p = false ∧ pr_metric p ≠ Returned ∧
             pr_buffered p = Nat.min 2 (pr_received p);
  so_second : pr_handler p = WaitSecond → (1 ≤ pr_received p)%nat ∧ pr_cancelled p = true ∧
              (pr_exit p = None → (2 ≤ pr_received p)%nat → (1 ≤ pr_buffered p)%nat) ∧
              (pr_buffered p < pr_received p)%nat;
  so_exit : pr_exit p = Some 1 → pr_handler p = WaitSecond ∧ (2 ≤ pr_received p)%nat;
  so_status : pr_exit p = None ∨ pr_exit p = Some 1 ∨ pr_exit p = Some 2 ∨ pr_exit p = Some 255;
}.

Lemma started_ok w endpoint : signals_ok (started w (runStart endpoint)).
Proof. split; cbn; try done; auto. Qed.

(** A server that has come to listen serves. *)
Lemma serve_serving ep ids cs ns s w s' w' srv :
  GrpcServer.serve ep ids cs ns s w = (Ret s', w') → server s' = Some srv → sv_serving srv = true.
Proof.
  unfold GrpcServer.serve. intros Hs. bind_inv Hs r w1 Hr. destruct r; [|done].
  injection Hs as <- _. by intros [= <-].
Qed.

Lemma pstep_ok p p' : pstep p p' → signals_ok p → signals_ok p'.
Proof.
  intros Hstep Hok. destruct p as [w s m h n b c d e]. pose proof Hok as [Hw Hsv Hf Hs He Hst].
  destruct Hstep as [Hx|p' Hx Hh|Hx Hm|Hx Hm Hc|r Hx His|p' Hx Hl|Hx His]; cbn -[Nat.min] in *; subst e.
  - split; cbn -[Nat.min]; [done|done| | |done|by left].
    + intros ->. destruct Hf as (?&?&->); [done|]. split_and!; [done..|lia].
    + intros ->. destruct Hs as (?&?&?&?); [done|]. split_and!; [lia|done|intros; lia|lia].
  - destruct b as [|b]; [done|]. injection Hh as <-. destruct h; split; cbn -[Nat.min]; try done; try (by left).
    + intros _. destruct Hf as (_&_&Hb); [done|]. split_and!; [lia|done|intros; lia|lia].
    + intros _. destruct Hs as (?&?&?&?); [done|]. split_and!; [lia|done|done|lia].
    + intros _. destruct Hs as (?&?&?&?); [done|]. split; [done|lia].
    + right. by left.
  - split; cbn; try done. intros ->. destruct Hf as (?&?&?); done.
  - subst c. split; cbn; try done. intros ->. destruct Hf as (?&?&?); done.
  - destruct (System.serve _ r w) as [[a|er|pn] w'] eqn:Hr; split; cbn; try done; try (by right; right; left).
    intros ->. destruct Hs as (?&?&?&?); done.
  - destruct s as [wg0 srv [|[ep [[ids cs] ns]] gs]]; [done|]. cbn in Hl.
    destruct (GrpcServer.serve _ _ _ _ _ w) as [[s'|er|pn] w'] eqn:Hr; injection Hl as <-;
      (split; cbn; try done; try (by right; right; right)); try (intros ->; destruct Hs as (?&?&?&?); done).
    + transitivity wg0; [|done]. eapply (server_step_wg (NonBlocking wg0 srv ((ep, (ids, cs, ns)) :: gs)) w s' w').
      by apply GrpcServer.step_serve.
    + intros _ srv' Hsrv. by eapply serve_serving.
  - split; cbn; try done. unfold serveEnd. by destruct (server s).
Qed.

(** A second signal that was sent can always be handled. *)
Lemma second_signal_handled p :
  signals_ok p → pr_exit p = None → (2 ≤ pr_received p)%nat →
  ∃ p', rtc pstep p p' ∧ pr_exit p' = Some 1 ∧ pr_world p' = pr_world p.
Proof.
  intros [_ _ Hf Hs _ _] Hx Hn. destruct p as [w s m h n b c d e]. cbn -[Nat.min] in *. subst e. destruct h.
  - destruct Hf as (->&_&->); [done|]. rewrite Nat.min_l by lia.
    exists (Process w s m WaitSecond n 0 true d (Some 1)). split; [|done].
    eapply rtc_l; [by eapply pstep_handle|]. eapply rtc_l; [by eapply pstep_handle|]. done.
  - destruct Hs as (_&->&Hb&_); [done|]. destruct b as [|b]; [specialize (Hb eq_refl Hn); lia|].
    exists (Process w s m WaitSecond n b true d (Some 1)). split; [|done].
    eapply rtc_l; [by eapply pstep_handle|]. done.
Qed.
End process.

(** C28: How the plugin ends. From the moment main waits, in every state the process can come to: the
    wait for the server never returns, and the process never ends with success. It is ended with
    status 1 by its signal handler only after two signals, and once two signals were sent that can
    happen from every state. The metric goroutine does not return before a first signal. Signals do
    not stop the server: once it has come to listen, and unless the library's Serve returned by
    itself, it serves in every state before the end, whatever signals were received, and any request
    is carried out as the controller and node services do. Otherwise only a handler that panics or a
    failure to listen ends the process. *)
Theorem plugin_ends_on_second_signal `{!Env, !FindMnt, !CertLib, !XXHash} regs fl env w metrics regs' driver grpc w1 p :
  pluginMain regs fl env w = (Ret (Waiting metrics regs' driver grpc), w1) →
  rtc (pstep driver) (started w1 grpc) p →
  ¬ WaitReturns (pr_server p) ∧
  (pr_exit p = None ∨ (pr_exit p = Some 1 ∧ (2 ≤ pr_received p)%nat) ∨ pr_exit p = Some 2 ∨ pr_exit p = Some 255) ∧
  (pr_received p = 0%nat → pr_metric p ≠ Returned) ∧
  (pr_exit p = None → pr_serveReturned p = false → server (pr_server p) ≠ None →
    is_serving (pr_server p) = true ∧
    ∀ r, pstep driver p (handle_request driver r p) ∧
         pr_world (handle_request driver r p) = (System.serve (hp_controller driver) r (pr_world p)).2) ∧
  (pr_exit p = None → (2 ≤ pr_received p)%nat →
    ∃ p', rtc (pstep driver) p p' ∧ pr_exit p' = Some 1 ∧ pr_world p' = pr_world p).
Proof.
  intros Hmain Hsteps.
  assert (∃ endpoint, grpc = runStart endpoint) as [endpoint ->].
  { unfold pluginMain in Hmain. destruct (RunPrometheusServer _ _ _ _ _ _). bind_inv Hmain res w2 Hr.
    destruct res as [d|]; [|done]. injection Hmain as <- <- <- <- <-. by eexists. }
  assert (signals_ok p) as Hok.
  { pose proof (started_ok w1 endpoint) as Hs. induction Hsteps as [|p1 p2 p3 Hstep _ IH]; [done|].
    by apply IH, (pstep_ok _ _ _ Hstep). }
  pose proof Hok as [Hw Hsv Hf Hs He Hst]. split_and!.
  - unfold WaitReturns. by rewrite Hw.
  - destruct Hst as [?|[Hx|[?|?]]]; auto. right; left. split; [done|]. by apply He.
  - intros Hn. destruct (pr_handler p) eqn:Hh; [by apply Hf|]. destruct Hs as (?&_); [done|lia].
  - intros Hx Hret Hsome.
    assert (is_serving (pr_server p) = true) as His.
    { unfold is_serving. destruct (server (pr_server p)) eqn:Hsrv; [by eapply Hsv|done]. }
    split; [done|]. intros r. split; [by apply pstep_request|].
    destruct p as [w' s m h n b c d e]. cbn. by destruct (System.serve _ r w').
  - by apply second_signal_handled.
Qed.

(** A plugin that was sent one signal and has handled it. *)
Definition demoCerts : CertLib :=
  {| certificate := unit; GenerateSelfSignedCertKey := λ _ _ _, inr ("cert", "key"); X509KeyPair := λ _ _, inr tt |}.
Definition demoFlags : pluginFlags := {|
  fl_endpoint := "unix://tmp/csi.sock"; fl_drivername := "hostpath.csi.kubevirt.io"; fl_datadir := pluginDataDir;
  fl_nodeid := "node1"; fl_version := "v1";
  fl_metricsCertFile := ""; fl_metricsKeyFile := ""; fl_metricsTLSVersion := "VersionTLS13" |}.
Definition demoPod : PodEnv := {| POD_IP := ""; POD_NAMESPACE := ""; SERVICE_NAME := "" |}.

Lemma plugin_ends_on_second_signal_witness :
  match pluginMain (H0 := demoCerts) (H1 := demoHash) emptyRegistries demoFlags demoPod (World (tree []) [] 0 0) with
  | (Ret (Waiting _ _ driver grpc), w1) =>
      ∃ p, handle_signal (signal (started w1 grpc)) = Some p ∧ pr_exit p = None ∧ pr_cancelled p = true ∧
        ¬ WaitReturns (pr_server p)
  | _ => False
  end.
Proof.
  assert (match pluginMain (H0 := demoCerts) (H1 := demoHash) emptyRegistries demoFlags demoPod (World (tree []) [] 0 0) with
          | (Ret (Waiting _ _ _ _), _) => true | _ => false end = true) as Hw by (vm_compute; reflexivity).
  destruct (pluginMain _ _ _ _) as [[[st|m rg driver grpc]|er|pn] w1] eqn:Hmain;
    [discriminate Hw| |discriminate Hw..]. clear Hw.
  eexists. split; [reflexivity|]. split; [reflexivity|]. split; [reflexivity|].
  eapply (plugin_ends_on_second_signal (H0 := demoFindmnt) (H1 := demoCerts) (H2 := demoHash)); [exact Hmain|].
  eapply rtc_l; [by apply pstep_signal|]. eapply rtc_l; [by apply pstep_handle|apply rtc_refl].
Defined.
