(* ===== verification/Catalog.v ===== *)
(** * The catalog: what the controller keeps, as a client sees it

    The abstract state of the CSI controller: the volumes and the snapshots of
    every storage pool with their contents, without paths, repositories and
    directories; the abstraction function that reads it off a file tree; and
    the frame lemmas that say which entry a change of the tree can reach. *)
From S2P Require Import Prelude GoStrings GoPath GoErrors OS OSFacts Demo Csi Utils Health Reflink.
From S2P Require Import ReflinkFacts ControllerServer ControllerFacts ControllerProps.
From S2P Require Import ControllerList ControllerSnap.
Open Scope Z_scope.

(** ** The abstract state *)

(** A snapshot remembers the volume it was taken of, and its contents. *)
Record snap := Snap { snap_source : option string; snap_data : fstree }.

(** Volumes and snapshots by pool and id. *)
Record catalog := Catalog {
  volumes : gmap (string * string) fstree;
  snapshots : gmap (string * string) snap;
}.

(** The contents of a new volume: an empty directory. *)
Definition emptyVolume : fstree := {[ [] := NDir ]}.

Definition set_volume (key : string * string) (o : option fstree) (c : catalog) : catalog :=
  Catalog (partial_alter (λ _, o) key (volumes c)) (snapshots c).
Definition set_snapshot (key : string * string) (o : option snap) (c : catalog) : catalog :=
  Catalog (volumes c) (partial_alter (λ _, o) key (snapshots c)).
Definition drop_snapshots (id : string) (c : catalog) : catalog :=
  Catalog (volumes c) (filter (λ kv : (string * string) * snap, kv.1.2 ≠ id) (snapshots c)).

Lemma catalog_eq c c' : volumes c = volumes c' → snapshots c = snapshots c' → c = c'.
Proof. destruct c, c'. simpl. by intros -> ->. Qed.

(** ** Maps that tabulate a partial function *)

Lemma lookup_tabulate `{Countable K} {A} (f : K → option A) (l : list (K * A)) :
  (∀ k x, (k, x) ∈ l ↔ f k = Some x) → ∀ k, (list_to_map l : gmap K A) !! k = f k.
Proof.
  intros Hl k. destruct (f k) as [x|] eqn:Hk.
  - destruct ((list_to_map l : gmap K A) !! k) as [y|] eqn:Hy.
    + apply elem_of_list_to_map_2, Hl in Hy. congruence.
    + apply not_elem_of_list_to_map in Hy. apply Hl in Hk. destruct Hy.
      apply list_elem_of_fmap. by exists (k, x).
  - apply not_elem_of_list_to_map. intros ([k' x]&->&Hin)%list_elem_of_fmap.
    apply Hl in Hin. simpl in Hk. congruence.
Qed.

(** ** Subtrees *)

(** What lies at and below [p], by the path from [p]. *)
Definition subtree (p : GoPath.path) (fs : fstree) : fstree :=
  list_to_map (omap (λ kn : GoPath.path * node, rel ← strip p kn.1; Some (rel, kn.2)) (map_to_list fs)).

Lemma lookup_subtree p fs rel : subtree p fs !! rel = fs !! (p ++ rel).
Proof.
  unfold subtree. apply (lookup_tabulate (λ rel, fs !! (p ++ rel))). intros k x.
  rewrite list_elem_of_omap. split.
  - intros ([k' x']&Hin%elem_of_map_to_list&Hs). simpl in Hs.
    destruct (strip p k') as [r|] eqn:Hr; [|done]. apply strip_spec in Hr as ->. by simplify_eq/=.
  - intros Hx. exists (p ++ k, x). split; [by apply elem_of_map_to_list|].
    simpl. by rewrite (proj2 (strip_spec p (p ++ k) k)).
Qed.

Lemma subtree_eq p q fs fs' :
  (∀ rel, fs' !! (p ++ rel) = fs !! (q ++ rel)) → subtree p fs' = subtree q fs.
Proof. intros Heq. apply map_eq. intros rel. by rewrite !lookup_subtree. Qed.

(** ** The abstraction function *)

(** The volume [id] of a pool. *)
Definition vol_at (fs : fstree) (info : StoragePoolInfo) (id : string) : option fstree :=
  match fs !! (pool_root info ++ [id]) with
  | Some NDir => Some (subtree (pool_root info ++ [id]) fs)
  | _ => None
  end.

(** The snapshot [id] of a repository. *)
Definition snap_at (fs : fstree) (rl : Reflink) (id : string) : option snap :=
  match fs !! snapDir rl id with
  | Some NDir => Some (Snap (source_of rl id fs) (subtree (snapData rl id) fs))
  | _ => None
  end.

(** The entries of a family of directories. *)
Definition tabulate {R A} (root : R → GoPath.path) (at_ : fstree → R → string → option A)
    (m : gmap string R) (fs : fstree) : gmap (string * string) A :=
  list_to_map (map_to_list m ≫= λ kr : string * R,
    omap (λ id, x ← at_ fs kr.2 id; Some ((kr.1, id), x)) (child_names (root kr.2) fs)).

Definition catalog_of (config : Config) (fs : fstree) : catalog := {|
  volumes := tabulate pool_root vol_at (StoragePools config) fs;
  snapshots := tabulate (λ rl, resolve (path rl)) snap_at (repos_of config) fs;
|}.

Lemma lookup_entries {R A} (root : R → GoPath.path) (at_ : fstree → R → string → option A) m fs :
  (∀ r id x, at_ fs r id = Some x → is_Some (fs !! (root r ++ [id]))) →
  ∀ pool id, tabulate root at_ m fs !! (pool, id) = m !! pool ≫= λ r, at_ fs r id.
Proof.
  intros Hat pool id. unfold tabulate.
  apply (lookup_tabulate (λ k : string * string, m !! k.1 ≫= λ r, at_ fs r k.2)).
  clear pool id. intros [pool id] x. rewrite list_elem_of_bind. simpl. split.
  - intros ([pool' r]&Hx&Hin%elem_of_map_to_list). apply list_elem_of_omap in Hx as (id'&_&Hx).
    simpl in Hx. destruct (at_ fs r id') eqn:Ha; simplify_eq/=. by rewrite Hin.
  - intros Hx. destruct (m !! pool) as [r|] eqn:Hr; [|done]. simpl in Hx. exists (pool, r).
    split; [|by apply elem_of_map_to_list]. apply list_elem_of_omap. exists id.
    split; [|simpl; by rewrite Hx]. apply elem_of_child_names. by eapply Hat.
Qed.

Lemma lookup_volumes config fs pool id :
  volumes (catalog_of config fs) !! (pool, id) = StoragePools config !! pool ≫= λ info, vol_at fs info id.
Proof.
  apply lookup_entries. unfold vol_at. intros info i x Hx. destruct (fs !! _) as [n|]; [by eexists|done].
Qed.

Lemma lookup_snapshots config fs pool id :
  snapshots (catalog_of config fs) !! (pool, id) = repos_of config !! pool ≫= λ rl, snap_at fs rl id.
Proof.
  apply lookup_entries. unfold snap_at, snapDir. intros rl i x Hx. destruct (fs !! _) as [n|]; [by eexists|done].
Qed.

(** ** What an entry depends on *)

Lemma entries_ext p fs fs' :
  (∀ c, fs' !! (p ++ [c]) = fs !! (p ++ [c])) → entries p fs' = entries p fs.
Proof.
  intros Heq. unfold entries. rewrite (sort_Strings_ext (child_names p fs') (child_names p fs)).
  - apply list_omap_ext, Forall_Forall2_diag, Forall_forall. intros c _. by rewrite Heq.
  - apply NoDup_Permutation; [apply NoDup_child_names..|]. intros c.
    by rewrite !elem_of_child_names, Heq.
Qed.

Lemma vol_at_ext fs fs' info id :
  (∀ k, pool_root info ++ [id] `prefix_of` k → fs' !! k = fs !! k) → vol_at fs' info id = vol_at fs info id.
Proof.
  intros Heq. unfold vol_at. rewrite Heq by done. destruct (fs !! _) as [[|]|]; [|done..].
  f_equal. apply subtree_eq. intros rel. apply Heq. by exists rel.
Qed.

Lemma snap_at_ext fs fs' rl id :
  (∀ k, snapDir rl id `prefix_of` k → fs' !! k = fs !! k) → snap_at fs' rl id = snap_at fs rl id.
Proof.
  intros Heq. unfold snap_at, source_of. rewrite Heq by done. destruct (fs !! _) as [[|]|]; [|done..].
  rewrite (entries_ext _ fs fs').
  - do 2 f_equal. apply subtree_eq. intros rel. apply Heq. rewrite snapData_app, <-app_assoc.
    by exists ([dataPath] ++ rel).
  - intros c. apply Heq. by exists [c].
Qed.

(** ** Configurations whose directories do not overlap *)

Record layout (config : Config) : Prop := {
  lay_path : ∀ pool info, StoragePools config !! pool = Some info → Path info ≠ "";
  lay_repo : ∀ pool rl, repos_of config !! pool = Some rl → path rl ≠ "";
  lay_pools : ∀ pool info pool' info',
    StoragePools config !! pool = Some info → StoragePools config !! pool' = Some info' →
    pool ≠ pool' → apart (pool_root info) (pool_root info');
  lay_repos : ∀ pool rl pool' rl',
    repos_of config !! pool = Some rl → repos_of config !! pool' = Some rl' →
    pool ≠ pool' → apart (resolve (path rl)) (resolve (path rl'));
  lay_cross : ∀ pool info pool' rl,
    StoragePools config !! pool = Some info → repos_of config !! pool' = Some rl →
    apart (pool_root info) (resolve (path rl));
}.

(** Only what lies at or below [p] changes. *)
Definition only_at (p : GoPath.path) (fs fs' : fstree) : Prop := ∀ k, ¬ p `prefix_of` k → fs' !! k = fs !! k.

Lemma apart_sym p q : apart p q → apart q p.
Proof. by intros [??]. Qed.

(** A change below one root leaves what lies below a root apart from it. *)
Lemma only_at_apart p q fs fs' r k s :
  only_at (p ++ r) fs fs' → apart p q → q ++ s `prefix_of` k → fs' !! k = fs !! k.
Proof.
  intros Honly Hap Hk. apply Honly. intros Hp.
  destruct (prefix_weak_total p q k) as [?|?]; [..|by destruct Hap|by destruct Hap].
  - etransitivity; [|exact Hp]. by exists r.
  - etransitivity; [|exact Hk]. by exists s.
Qed.

(** A change below one entry of a root leaves the other entries of the root. *)
Lemma only_at_sibling p fs fs' id id' k :
  only_at (p ++ [id]) fs fs' → id ≠ id' → p ++ [id'] `prefix_of` k → fs' !! k = fs !! k.
Proof.
  intros Honly Hne [s ->]. apply Honly. rewrite <-app_assoc, prefix_app_common.
  intros ?%prefix_cons_inv_1. done.
Qed.

Section frame.
Context (config : Config) (Hlay : layout config) (fs fs' : fstree).

(** A change inside one volume. *)
Lemma catalog_volume pool info id :
  StoragePools config !! pool = Some info → only_at (pool_root info ++ [id]) fs fs' →
  catalog_of config fs' = set_volume (pool, id) (vol_at fs' info id) (catalog_of config fs).
Proof.
  intros Hpool Honly. unfold set_volume. unfold catalog_of at 1. f_equal; apply map_eq; intros [pool' id'].
  - change (volumes (catalog_of config fs') !! (pool', id') =
      partial_alter (λ _, vol_at fs' info id) (pool, id) (volumes (catalog_of config fs)) !! (pool', id')).
    rewrite lookup_volumes. destruct (decide ((pool, id) = (pool', id'))) as [[= <- <-]|Hne].
    { by rewrite lookup_partial_alter_eq, Hpool. }
    rewrite lookup_partial_alter_ne, lookup_volumes by done.
    destruct (StoragePools config !! pool') as [info'|] eqn:Hpool'; [|done]. simpl.
    apply vol_at_ext. intros k Hk. destruct (decide (pool = pool')) as [<-|Hp].
    + simplify_eq. eapply only_at_sibling; [done| |done]. congruence.
    + eapply only_at_apart; [done| |done]. by eapply lay_pools.
  - change (snapshots (catalog_of config fs') !! (pool', id') = snapshots (catalog_of config fs) !! (pool', id')).
    rewrite !lookup_snapshots. destruct (repos_of config !! pool') as [rl|] eqn:Hrl; [|done]. simpl.
    apply snap_at_ext. intros k Hk. eapply only_at_apart; [done| |exact Hk]. by eapply lay_cross.
Qed.

(** A change inside one snapshot. *)
Lemma catalog_snapshot pool rl id :
  repos_of config !! pool = Some rl → only_at (snapDir rl id) fs fs' →
  catalog_of config fs' = set_snapshot (pool, id) (snap_at fs' rl id) (catalog_of config fs).
Proof.
  intros Hrl Honly. unfold set_snapshot. unfold catalog_of at 1. f_equal; apply map_eq; intros [pool' id'].
  - change (volumes (catalog_of config fs') !! (pool', id') = volumes (catalog_of config fs) !! (pool', id')).
    rewrite !lookup_volumes. destruct (StoragePools config !! pool') as [info|] eqn:Hpool; [|done]. simpl.
    apply vol_at_ext. intros k Hk. eapply only_at_apart; [done| |exact Hk]. apply apart_sym. by eapply lay_cross.
  - change (snapshots (catalog_of config fs') !! (pool', id') =
      partial_alter (λ _, snap_at fs' rl id) (pool, id) (snapshots (catalog_of config fs)) !! (pool', id')).
    rewrite lookup_snapshots. destruct (decide ((pool, id) = (pool', id'))) as [[= <- <-]|Hne].
    { by rewrite lookup_partial_alter_eq, Hrl. }
    rewrite lookup_partial_alter_ne, lookup_snapshots by done.
    destruct (repos_of config !! pool') as [rl'|] eqn:Hrl'; [|done]. simpl.
    apply snap_at_ext. intros k Hk. destruct (decide (pool = pool')) as [<-|Hp].
    + simplify_eq. eapply only_at_sibling; [done| |done]. congruence.
    + eapply only_at_apart; [done| |exact Hk]. by eapply lay_repos.
Qed.
End frame.

(** From here on the catalog is used through its entries and its changes. *)
#[global] Opaque catalog_of.
