(* ===== verification/CatalogSpec.v ===== *)
(** * The contract of the controller, on the catalog

    What every request of the CSI controller does to the volumes and snapshots
    of a catalog and what it answers, as a transition relation; and the states
    of the world that represent a catalog. *)
From S2P Require Import Prelude GoStrings GoPath GoErrors OS OSFacts Demo Csi Utils Health Reflink.
From S2P Require Import ReflinkFacts ControllerServer ControllerFacts ControllerProps.
From S2P Require Import ControllerList ControllerSnap FindMnt NodeServer NodeFacts Driver System Catalog.
Open Scope Z_scope.

(** ** Requests and their answers *)

Inductive reply : Type :=
  | ReplyVolume (v : Volume)
  | ReplyDone
  | ReplyConfirmed (c : ValidateVolumeCapabilitiesResponse_Confirmed)
  | ReplyCapacity (g : GetCapacityResponse)
  | ReplyVolumes (l : ListVolumesResponse)
  | ReplyEntry (e : VolumeEntry)
  | ReplySnapshot (s : Snapshot)
  | ReplySnapshots (l : ListSnapshotsResponse)
  | ReplyStats (s : NodeGetVolumeStatsResponse).

Definition answer {A} (f : A → reply) (m : M A) : M reply := a <- m ;; ret (f a).

(** The handler of a request, with its answer. *)
Definition call `{!Env, !FindMnt} (hpc : hostPathController) (r : rpc) : M reply :=
  match r with
  | RCreateVolume req => answer ReplyVolume (CreateVolume hpc req)
  | RDeleteVolume id => answer (λ _, ReplyDone) (DeleteVolume hpc id)
  | RValidateVolumeCapabilities req => answer ReplyConfirmed (ValidateVolumeCapabilities hpc req)
  | RGetCapacity params => answer ReplyCapacity (GetCapacity hpc params)
  | RListVolumes req => answer ReplyVolumes (ListVolumes hpc req)
  | RControllerGetVolume id => answer ReplyEntry (ControllerGetVolume hpc id)
  | RCreateSnapshot req => answer ReplySnapshot (CreateSnapshot hpc req)
  | RDeleteSnapshot id => answer (λ _, ReplyDone) (DeleteSnapshot hpc id)
  | RListSnapshots req => answer ReplySnapshots (ListSnapshots hpc req)
  | RNodePublishVolume req => answer (λ _, ReplyDone) (NodePublishVolume (linuxNode (cfg hpc)) req)
  | RNodeUnpublishVolume req => answer (λ _, ReplyDone) (NodeUnpublishVolume (linuxNode (cfg hpc)) req)
  | RNodeGetVolumeStats req => answer ReplyStats (NodeGetVolumeStats (linuxNode (cfg hpc)) req)
  end.

(** ** The contract *)

Definition snapshotOf (r : CreateVolumeRequest) : option string :=
  match cv_VolumeContentSource r with
  | Some (FromSnapshot (Some s)) => Some s
  | _ => None
  end.

Definition volKey (r : CreateVolumeRequest) : string * string :=
  (getStoragePoolNameFromMap (cv_Parameters r), cv_Name r).
Definition snapKey (r : CreateSnapshotRequest) : string * string :=
  (getStoragePoolNameFromMap (cs_Parameters r), cs_Name r).
Definition srcKey (r : CreateSnapshotRequest) : string * string :=
  (getStoragePoolNameFromMap (cs_Parameters r), cs_SourceVolumeId r).

(** The contents of a volume with the contents of a snapshot copied over it. *)
Definition overlay (d t : fstree) : fstree := <[[] := NDir]> (d ∪ t).

(** The contents a volume has before a request that names it: those it had, or
    those of an empty directory. *)
Definition present (key : string * string) (c : catalog) : fstree := default emptyVolume (volumes c !! key).

(** Why a request to create a volume may be refused. *)
Definition refused `{!Env} (hpc : hostPathController) (r : CreateVolumeRequest) : Prop :=
  (∀ info, ¬ accepted hpc r info) ∨
  (∃ info n en, accepted hpc r info ∧ statfs n (Path info) = inl en).

(** Why a request to create a snapshot may be refused. *)
Definition snap_refused (config : Config) (r : CreateSnapshotRequest) (c : catalog) : Prop :=
  repos_of config !! getStoragePoolNameFromMap (cs_Parameters r) = None ∨
  (volumes c !! srcKey r = None ∧ snapshots c !! snapKey r = None).

(** A snapshot of an answer stands for one of the catalog. *)
Definition stands_for (s : Snapshot) (sn : snap) : Prop :=
  snap_source sn = Some (SourceVolumeId s) ∧ ReadyToUse s = true.

Inductive spec `{!Env} (hpc : hostPathController) :
    rpc → outcome gerror reply → catalog → catalog → Prop :=
  (** A volume that is not there is made, empty; one that is there is kept. *)
  | spec_create r info n st c :
      accepted hpc r info → statfs n (Path info) = inr st → snapshotOf r = None →
      spec hpc (RCreateVolume (Some r)) (Ret (ReplyVolume (volume_of hpc r info st)))
        c (set_volume (volKey r) (Some (present (volKey r) c)) c)
  (** The snapshot is copied over what the volume holds. *)
  | spec_restore r info n st sid sn c :
      accepted hpc r info → statfs n (Path info) = inr st → snapshotOf r = Some sid →
      snapshots c !! ((volKey r).1, sid) = Some sn →
      spec hpc (RCreateVolume (Some r)) (Ret (ReplyVolume (volume_of hpc r info st)))
        c (set_volume (volKey r) (Some (overlay (snap_data sn) (present (volKey r) c))) c)
  (** When the copy fails the volume is gone, also one that was there before. *)
  | spec_restore_failed r info sid e c :
      accepted hpc r info → snapshotOf r = Some sid →
      spec hpc (RCreateVolume (Some r)) (Fail e) c (set_volume (volKey r) None c)
  | spec_create_refused req e c :
      (∀ r, req = Some r → refused hpc r) → spec hpc (RCreateVolume req) (Fail e) c c
  (** The volume is removed from one of the pools that have it. *)
  | spec_delete id pool t c :
      volumes c !! (pool, id) = Some t →
      spec hpc (RDeleteVolume (Some id)) (Ret ReplyDone) c (set_volume (pool, id) None c)
  | spec_delete_absent id c :
      id ≠ "" → (∀ pool, volumes c !! (pool, id) = None) →
      spec hpc (RDeleteVolume (Some id)) (Ret ReplyDone) c c
  | spec_delete_refused req e c :
      req = None ∨ req = Some "" → spec hpc (RDeleteVolume req) (Fail e) c c
  (** A snapshot holds what the volume holds, and remembers the volume, unless
      that has the name of the data directory. *)
  | spec_snapshot r t s c :
      volumes c !! srcKey r = Some t → snapshots c !! snapKey r = None →
      SnapshotId s = cs_Name r → SourceVolumeId s = cs_SourceVolumeId r → ReadyToUse s = true →
      spec hpc (RCreateSnapshot (Some r)) (Ret (ReplySnapshot s))
        c (set_snapshot (snapKey r) (Some (Snap (recorded (cs_SourceVolumeId r)) t)) c)
  (** When the copy fails a snapshot with some part of the contents is left. *)
  | spec_snapshot_torn r t d e c :
      volumes c !! srcKey r = Some t → snapshots c !! snapKey r = None →
      spec hpc (RCreateSnapshot (Some r)) (Fail e)
        c (set_snapshot (snapKey r) (Some (Snap (recorded (cs_SourceVolumeId r)) d)) c)
  | spec_snapshot_again r sn s c :
      snapshots c !! snapKey r = Some sn → snap_source sn = Some (cs_SourceVolumeId r) →
      SnapshotId s = cs_Name r → stands_for s sn →
      spec hpc (RCreateSnapshot (Some r)) (Ret (ReplySnapshot s)) c c
  | spec_snapshot_conflict r sn e c :
      snapshots c !! snapKey r = Some sn → snap_source sn ≠ Some (cs_SourceVolumeId r) →
      spec hpc (RCreateSnapshot (Some r)) (Fail e) c c
  | spec_snapshot_refused req e c :
      (∀ r, req = Some r → snap_refused (cfg hpc) r c) → spec hpc (RCreateSnapshot req) (Fail e) c c
  (** A snapshot is removed from every pool. *)
  | spec_delete_snapshot id c :
      spec hpc (RDeleteSnapshot (Some id)) (Ret ReplyDone) c (drop_snapshots id c)
  | spec_delete_snapshot_refused e c : spec hpc (RDeleteSnapshot None) (Fail e) c c
  (** What is listed is there. *)
  | spec_list req l c :
      (∀ e, e ∈ lv_Entries l → ∃ pool, is_Some (volumes c !! (pool, entryId e))) →
      spec hpc (RListVolumes req) (Ret (ReplyVolumes l)) c c
  | spec_get id e c :
      entryId e = id → (∃ pool, is_Some (volumes c !! (pool, id))) →
      spec hpc (RControllerGetVolume (Some id)) (Ret (ReplyEntry e)) c c
  | spec_list_snapshots req l c :
      (∀ s, s ∈ ls_Entries l → ∃ pool sn, snapshots c !! (pool, SnapshotId s) = Some sn ∧ stands_for s sn) →
      spec hpc (RListSnapshots req) (Ret (ReplySnapshots l)) c c
  (** The requests that only look change nothing, whatever they answer. *)
  | spec_validate req o c : spec hpc (RValidateVolumeCapabilities req) o c c
  | spec_capacity params o c : spec hpc (RGetCapacity params) o c c
  | spec_list_error req o c : is_ret o = false → spec hpc (RListVolumes req) o c c
  | spec_get_error req o c : is_ret o = false → spec hpc (RControllerGetVolume req) o c c
  | spec_list_snapshots_error req o c : is_ret o = false → spec hpc (RListSnapshots req) o c c.

(** ** The states that represent a catalog *)

(** The directories that hold volumes or snapshots. *)
Definition entry_root (config : Config) (p : GoPath.path) : Prop :=
  (∃ pool info, StoragePools config !! pool = Some info ∧ p = pool_root info) ∨
  (∃ pool rl, repos_of config !! pool = Some rl ∧ p = resolve (path rl)).

(** They are in place, hold nothing but directories, and nothing is mounted
    inside them. *)
Record good (config : Config) (w : world) : Prop := {
  g_wf : wf_fs (w_fs w);
  g_roots : ∀ p, entry_root config p → w_fs w !! p = Some NDir;
  g_entries : ∀ p id n, entry_root config p → w_fs w !! (p ++ [id]) = Some n → n = NDir;
  g_free : unmounted (cfg_roots config) w;
}.

(** Requests with plain names. *)
Definition regular (r : rpc) : Prop :=
  plain_rpc r ∧
  match r with
  | RCreateVolume (Some x) => ∀ sid, snapshotOf x = Some sid → valid_name sid
  | RListSnapshots (Some x) => ls_SnapshotId x = "" ∨ valid_name (ls_SnapshotId x)
  | _ => True
  end.
