(* ===== verification/CatalogRefine.v ===== *)
(** * The controller implements its contract

    Every request that the controller serves, in a state that represents a
    catalog, is a step of the contract on the catalogs before and after, with
    the same answer, and leads to a state that represents a catalog again. *)
From S2P Require Import Prelude GoStrings GoPath GoErrors OS OSFacts Demo Csi Utils Health Reflink.
From S2P Require Import ReflinkFacts ControllerServer ControllerFacts ControllerProps.
From S2P Require Import ControllerList ControllerSnap FindMnt NodeServer System Catalog CatalogSpec.
Open Scope Z_scope.

(** ** The directories of a configuration *)

Lemma pool_entry_root config pool info :
  StoragePools config !! pool = Some info → entry_root config (pool_root info).
Proof. intros. left. eauto. Qed.
Lemma repo_entry_root config pool rl :
  repos_of config !! pool = Some rl → entry_root config (resolve (path rl)).
Proof. intros. right. eauto. Qed.
#[export] Hint Resolve pool_entry_root repo_entry_root : go.

Lemma entry_roots_apart config p q :
  layout config → entry_root config p → entry_root config q → p = q ∨ apart p q.
Proof.
  intros [_ _ Hpp Hrr Hpr] [(p1&i1&H1&->)|(p1&r1&H1&->)] [(p2&i2&H2&->)|(p2&r2&H2&->)].
  - destruct (decide (p1 = p2)) as [<-|Hne]; [left; congruence|right; eauto].
  - right. eauto.
  - right. apply apart_sym. eauto.
  - destruct (decide (p1 = p2)) as [<-|Hne]; [left; congruence|right; eauto].
Qed.

Lemma repo_config config pool rl :
  repos_of config !! pool = Some rl →
  ∃ info, StoragePools config !! pool = Some info ∧ SnapshotPath info = Some (path rl) ∧
    Path info = sourcePath rl.
Proof.
  unfold repos_of. rewrite lookup_omap. destruct (StoragePools config !! pool) as [info|]; [|done].
  simpl. unfold wants. intros Hw. exists info. repeat case_match; simplify_eq/=; done.
Qed.

Lemma entry_root_inside config p : entry_root config p → inside (cfg_roots config) p.
Proof.
  intros [(pool&info&Hp&->)|(pool&rl&Hrl&->)]; [by eapply pool_inside|].
  destruct (repo_config _ _ _ Hrl) as (info&Hp&Hs&_). by eapply snap_inside.
Qed.

Section good.
Context (config : Config) (Hlay : layout config).

Lemma good_unmounted w p r : good config w → entry_root config p → mounts_below (p ++ r) (w_mounts w) = [].
Proof.
  intros Hg Hp. apply mounts_below_nil. intros mp Hmp Hpre. apply (g_free _ _ Hg mp Hmp).
  eapply inside_below; [by apply entry_root_inside|]. etransitivity; [|exact Hpre]. by exists r.
Qed.

Lemma good_quiet w w' : quiet w w' → good config w → good config w'.
Proof. intros (Hfs&Hm&_) [? ? ? Hfree]. split; unfold unmounted in *; rewrite ?Hfs, ?Hm; done. Qed.

(** A change of one entry keeps a good state. *)
Lemma good_entry w w' p id :
  good config w → entry_root config p → wf_fs (w_fs w') → w_mounts w' = w_mounts w →
  only_at (p ++ [id]) (w_fs w) (w_fs w') →
  (∀ n, w_fs w' !! (p ++ [id]) = Some n → n = NDir) → good config w'.
Proof.
  intros [Hwf Hroots Hentries Hfree] Hp Hwf' Hm Honly Hn. split; [done|..].
  - intros q Hq. rewrite Honly; [by apply Hroots|]. intros Hpre.
    destruct (entry_roots_apart config p q) as [<-|[Hap _]]; [done..|by apply not_prefix_snoc in Hpre|].
    apply Hap. etransitivity; [|exact Hpre]. by exists [id].
  - intros q id' n Hq Hl. destruct (decide (p ++ [id] = q ++ [id'])) as [Heq|Hne].
    { rewrite <-Heq in Hl. eauto. }
    rewrite Honly in Hl; [by eapply Hentries|]. intros Hpre. destruct (prefix_snoc_inv _ _ _ Hpre) as [?|Hq']; [done|].
    destruct (entry_roots_apart config p q) as [<-|[Hap _]]; [done..|by apply not_prefix_snoc in Hq'|].
    apply Hap. etransitivity; [|exact Hq']. by exists [id].
  - unfold unmounted in *. by rewrite Hm.
Qed.

(** Nothing but the entry changes when a call is confined to it. *)
Lemma confined_only w w' p id :
  good config w → entry_root config p → confined [p ++ [id]] w w' → only_at (p ++ [id]) (w_fs w) (w_fs w').
Proof.
  intros Hg Hp [_ Hk] k Hout. destruct (Hk) with (k := k) as [?|(Hnone&_&Hpre)]; [..|done|].
  - intros mp Hmp [Hpre|?%Exists_nil]%Exists_cons; [|done]. apply (g_free _ _ Hg mp Hmp).
    eapply inside_below; [by apply entry_root_inside|]. etransitivity; [|exact Hpre]. by exists [id].
  - intros [?|?%Exists_nil]%Exists_cons; done.
  - apply Exists_cons in Hpre as [Hpre|?%Exists_nil]; [|done].
    destruct (prefix_snoc_inv _ _ _ Hpre) as [->|Hk']; [by destruct Hout|].
    pose proof (g_roots _ _ Hg p Hp) as Hroot. destruct (decide (k = p)) as [->|Hne]; [congruence|].
    by rewrite (wf_prefix_dir _ k p NDir (g_wf _ _ Hg) Hk' Hne Hroot) in Hnone.
Qed.
End good.

(** ** Entries of the catalog *)

Section entries.
Context (config : Config) (w : world) (Hgood : good config w).

Lemma vol_at_none info pool id :
  StoragePools config !! pool = Some info →
  vol_at (w_fs w) info id = None ↔ w_fs w !! (pool_root info ++ [id]) = None.
Proof.
  intros Hp. unfold vol_at. destruct (w_fs w !! _) as [n|] eqn:Hn; [|done].
  rewrite (g_entries _ _ Hgood (pool_root info) id n); [done|by eapply pool_entry_root|done].
Qed.

Lemma snap_at_none pool rl id :
  repos_of config !! pool = Some rl →
  snap_at (w_fs w) rl id = None ↔ w_fs w !! snapDir rl id = None.
Proof.
  intros Hp. unfold snap_at. destruct (w_fs w !! _) as [n|] eqn:Hn; [|done].
  rewrite (g_entries _ _ Hgood (resolve (path rl)) id n); [done|by eapply repo_entry_root|done].
Qed.

Lemma volume_dir pool info id t :
  StoragePools config !! pool = Some info → volumes (catalog_of config (w_fs w)) !! (pool, id) = Some t →
  w_fs w !! (pool_root info ++ [id]) = Some NDir ∧ t = subtree (pool_root info ++ [id]) (w_fs w).
Proof.
  intros Hp. rewrite lookup_volumes, Hp. simpl. unfold vol_at.
  destruct (w_fs w !! _) as [[|]|]; [|done..]. by intros [= <-].
Qed.

(** The volume after its directory was made sure of. *)
Lemma vol_at_ensure pool info id :
  StoragePools config !! pool = Some info →
  vol_at (ensure_dir (pool_root info ++ [id]) (w_fs w)) info id
  = Some (present (pool, id) (catalog_of config (w_fs w))).
Proof.
  intros Hp. unfold present. rewrite lookup_volumes, Hp. simpl. unfold ensure_dir.
  destruct (w_fs w !! (pool_root info ++ [id])) as [n|] eqn:Hn.
  - unfold vol_at. rewrite Hn.
    by rewrite (g_entries _ _ Hgood (pool_root info) id n) by (done || by eapply pool_entry_root).
  - rewrite (proj2 (vol_at_none info pool id Hp)) by done. simpl. unfold vol_at. rewrite lookup_insert_eq.
    f_equal. apply map_eq. intros rel. rewrite lookup_subtree. unfold emptyVolume.
    destruct (decide (rel = [])) as [->|Hrel].
    + by rewrite app_nil_r, lookup_insert_eq, lookup_singleton_eq.
    + rewrite lookup_singleton_ne, lookup_insert_ne by (done || (intros Heq; apply Hrel;
        by apply (app_inv_head (pool_root info ++ [id])); rewrite app_nil_r)).
      destruct (w_fs w !! ((pool_root info ++ [id]) ++ rel)) as [x|] eqn:Hx; [|done].
      by rewrite (wf_dir_above _ _ _ _ (g_wf _ _ Hgood) Hrel Hx) in Hn.
Qed.
End entries.

Lemma only_at_ensure p fs : only_at p fs (ensure_dir p fs).
Proof.
  intros k Hk. unfold ensure_dir. destruct (fs !! p); [done|]. rewrite lookup_insert_ne; [done|].
  intros ->. by apply Hk.
Qed.

Lemma only_at_trans p fs1 fs2 fs3 : only_at p fs1 fs2 → only_at p fs2 fs3 → only_at p fs1 fs3.
Proof. intros H1 H2 k Hk. by rewrite H2, H1. Qed.

Lemma only_at_rm p fs : only_at p fs (rm_tree p fs).
Proof. intros k Hk. by rewrite lookup_rm_tree, decide_False. Qed.

(** ** A snapshot that is taken, whether or not the copy succeeds *)

Section attempt.
Context `{!Env} (Hnf : no_faults) (rl : Reflink) (id src : string).
Context (Hid : valid_name id) (Hsrc : valid_name src).
Lemma snap_entry_none w c : wf_fs (w_fs w) → w_fs w !! snapDir rl id = None → w_fs w !! (snapDir rl id ++ [c]) = None.
Proof.
  intros Hwf Hnone. destruct (w_fs w !! (snapDir rl id ++ [c])) as [n|] eqn:Hn; [|done].
  by rewrite (proj1 (wf_parent _ Hwf _ _ _ Hn)) in Hnone.
Qed.

(** Both directories are made. *)
Lemma snapshot_dirs_made_apart w : src ≠ dataPath →
  wf_fs (w_fs w) → w_fs w !! resolve (path rl) = Some NDir → w_fs w !! snapDir rl id = None →
  ∃ w1 w2, os_MkdirAll (Join [path rl; id; dataPath]) w = (Ret tt, w1) ∧
    os_MkdirAll (Join [path rl; id; src]) w1 = (Ret tt, w2) ∧ w_mounts w2 = w_mounts w.
Proof.
  intros Hdata Hwf Hroot Hnone.
  pose proof (snap_entry_none w dataPath Hwf Hnone) as Hnd. pose proof (snap_entry_none w src Hwf Hnone) as Hns.
  unfold snapDir in Hnone, Hnd, Hns. rewrite <-app_assoc in Hnd, Hns.
  assert (∀ x y : string, resolve (path rl) ++ [id] ≠ resolve (path rl) ++ [x; y]) as Hlen.
  { intros x y Heq%(f_equal length). rewrite !length_app in Heq. simpl in Heq. lia. }
  eexists _, _. split_and!.
  - apply (MkdirAll_new2 Hnf _ (resolve (path rl)) id dataPath);
      [done|by apply Join3_nonempty|apply resolve_Join3; auto with go|done..].
  - rewrite (MkdirAll_new _ (resolve (path rl) ++ [id]) src).
    + by apply mkdir_at_ok.
    + simpl. change [id; dataPath] with ([id] ++ [dataPath]). rewrite app_assoc.
      apply wf_insert_dir; [by apply wf_insert_dir|by rewrite lookup_insert_eq|auto with go|].
      rewrite lookup_insert_ne; rewrite <-app_assoc; [done|]. apply Hlen.
    + by apply Join3_nonempty.
    + rewrite resolve_Join3 by done. by rewrite <-app_assoc.
    + simpl. rewrite lookup_insert_ne, lookup_insert_eq; [done|]. apply not_eq_sym, Hlen.
    + simpl. rewrite <-app_assoc. rewrite !lookup_insert_ne; [done|apply Hlen|].
      intros [= ?]%app_inv_head. done.
  - done.
Qed.

(** For a volume of the name of the data directory they are one. *)
Lemma snapshot_dirs_made w :
  wf_fs (w_fs w) → w_fs w !! resolve (path rl) = Some NDir → w_fs w !! snapDir rl id = None →
  ∃ w1 w2, os_MkdirAll (Join [path rl; id; dataPath]) w = (Ret tt, w1) ∧
    os_MkdirAll (Join [path rl; id; src]) w1 = (Ret tt, w2) ∧ w_mounts w2 = w_mounts w.
Proof.
  intros Hwf Hroot Hnone. destruct (decide (src = dataPath)) as [->|Hdata]; [|by apply snapshot_dirs_made_apart].
  pose proof (snap_entry_none w dataPath Hwf Hnone) as Hnd. unfold snapDir in Hnone, Hnd. rewrite <-app_assoc in Hnd.
  assert (∃ w1, os_MkdirAll (Join [path rl; id; dataPath]) w = (Ret tt, w1) ∧ w_mounts w1 = w_mounts w) as (w1&H1&Hm).
  { eexists. split; [apply (MkdirAll_new2 Hnf _ (resolve (path rl)) id dataPath)|done];
      [done|by apply Join3_nonempty|apply resolve_Join3; auto with go|done..]. }
  exists w1, w1. split_and!; [done| |done]. destruct (MkdirAll_ret _ _ _ Hwf H1) as (_&Hwf1&Hd&_).
  apply MkdirAll_existing; [done|by apply Join3_nonempty|by apply Hd].
Qed.

(** Up to the copy. *)
Lemma CreateSnapshot_prepared w w1 w2 :
  wf_fs (w_fs w) → w_fs w !! resolve (path rl) = Some NDir → w_fs w !! snapDir rl id = None →
  w_fs w !! volDir rl src = Some NDir →
  os_MkdirAll (Join [path rl; id; dataPath]) (tickw (tickw w)) = (Ret tt, w1) →
  os_MkdirAll (Join [path rl; id; src]) w1 = (Ret tt, w2) →
  Reflink.CreateSnapshot rl id src w =
    (reflinkCopy (Join [sourcePath rl; src] +:+ "/.") (Join [path rl; id; dataPath]) >>
     createSnapshotFromDir rl id src (Join [path rl; id; dataPath])) w2.
Proof.
  intros Hwf Hroot Hnone Hvol H1 H2.
  assert (resolve (Join [path rl; id; dataPath]) = resolve (path rl) ++ [id; dataPath]) as Hres
    by (apply resolve_Join3; auto with go).
  pose proof (snap_entry_none w dataPath Hwf Hnone) as Hnd. unfold snapDir in Hnone, Hnd.
  rewrite <-app_assoc in Hnd.
  assert (missing_errno (w_fs w) [] (resolve (path rl) ++ [id; dataPath]) = ENOENT) as Hmiss.
  { apply missing_errno_wf; [done|]. simpl. intros q Hq Hno.
    change [id; dataPath] with ([id] ++ [dataPath]) in Hq. rewrite app_assoc in Hq.
    apply prefix_snoc_inv in Hq as [->|Hq]; [by rewrite <-app_assoc|].
    apply prefix_snoc_inv in Hq as [->|Hq]; [done|].
    destruct Hno. destruct (decide (q = resolve (path rl))) as [->|Hne]; [done|]. by eapply wf_prefix_dir. }
  unfold Reflink.CreateSnapshot. etransitivity.
  { erewrite run_bind_ret; [|eapply checkPathExist_found; [done|by apply Join_nonempty|by rewrite resolve_Join]].
    cbv beta iota zeta. erewrite run_bind_ret; [|eapply checkPathExist_missing; [done|by apply Join3_nonempty|by rewrite Hres|by rewrite Hres]].
    cbv beta iota zeta. erewrite run_bind_ret by exact H1. erewrite run_bind_ret by exact H2. reflexivity. }
  reflexivity.
Qed.

(** Whatever the copy does, the snapshot is there afterwards, attributed to the
    volume, and nothing else has changed. *)
Lemma CreateSnapshot_leaves w :
  wf_fs (w_fs w) → w_fs w !! resolve (path rl) = Some NDir → w_fs w !! snapDir rl id = None →
  w_fs w !! volDir rl src = Some NDir →
  let w' := (Reflink.CreateSnapshot rl id src w).2 in
  wf_fs (w_fs w') ∧ w_mounts w' = w_mounts w ∧ only_at (snapDir rl id) (w_fs w) (w_fs w') ∧
  w_fs w' !! snapDir rl id = Some NDir ∧ source_of rl id (w_fs w') = recorded src.
Proof.
  intros Hwf Hroot Hnone Hvol. cbv zeta.
  destruct (snapshot_dirs_made (tickw (tickw w))) as (w1&w2&H1&H2&Hm2); [done..|].
  rewrite (CreateSnapshot_prepared w w1 w2) by done.
  destruct (prepare_snapshot rl id src (tickw (tickw w)) _ _ Hid Hsrc Hwf Hroot Hnone H1 H2)
    as (Hwf2&Hdir&Hdat&Hsrcdir&Hempty&Hframe). simpl in Hframe, Hm2.
  assert (resolve (Join [path rl; id; dataPath]) = snapData rl id) as Hres
    by (apply resolve_Join3; auto with go).
  pose proof (fills_cp (Join [sourcePath rl; src] +:+ "/.") (Join [path rl; id; dataPath])) as Hcp.
  rewrite Hres in Hcp.
  assert (respects (fills (snapData rl id)) (reflinkCopy (Join [sourcePath rl; src] +:+ "/.") (Join [path rl; id; dataPath]) >>
     createSnapshotFromDir rl id src (Join [path rl; id; dataPath]))) as Hf.
  { unfold reflinkCopy, createSnapshotFromDir, getFileCreationTimeFunc. respects_tac. }
  assert (respects wf_rel (reflinkCopy (Join [sourcePath rl; src] +:+ "/.") (Join [path rl; id; dataPath]) >>
     createSnapshotFromDir rl id src (Join [path rl; id; dataPath]))) as Hw.
  { unfold reflinkCopy, createSnapshotFromDir, getFileCreationTimeFunc. respects_tac. }
  specialize (Hf w2) as [Hm Hk]. specialize (Hw w2 Hwf2).
  assert (∀ c, c ≠ dataPath → ¬ snapData rl id `prefix_of` snapDir rl id ++ [c]) as Hnp.
  { intros c Hc. rewrite snapData_app. intros Hp%prefix_app_inv. by apply prefix_cons_inv_1 in Hp. }
  split_and!; [done|by rewrite Hm| | |].
  - intros k Hk'. rewrite Hk; [by apply Hframe|]. left. rewrite snapData_app. intros Hp. apply Hk'.
    etransitivity; [|exact Hp]. by exists [dataPath].
  - rewrite Hk; [done|]. left. rewrite snapData_app. apply not_prefix_snoc.
  - apply source_of_recorded.
    { destruct (decide (src = dataPath)) as [Heq|]; [|by rewrite Hk by (left; auto)].
      replace (snapDir rl id ++ [src]) with (snapData rl id) by (by rewrite snapData_app, Heq).
      by rewrite Hk by (by right). }
    intros c Hc.
    destruct (decide (c = dataPath)) as [|Hcd]; [by left|]. right. rewrite Hk in Hc by (left; auto).
    destruct (decide (c = src)) as [|Hcs]; [done|]. rewrite Hempty in Hc; naive_solver.
Qed.
End attempt.

(** ** What a result says about the tree, under any faults *)

Lemma try_inv {S E A} (m : GoM S E A) w r w' :
  try m w = (Ret r, w') → m w = (match r with inl a => Ret a | inr e => Fail e end, w').
Proof. unfold try. destruct (m w) as [[a|e|p] w1]; naive_solver. Qed.

Lemma StatInfo_ret `{!Env} s w x w' :
  os_StatInfo s w = (Ret x, w') → w' = tickw w ∧ w_fs w !! resolve s = Some x.1.
Proof.
  unfold os_StatInfo, reads. destruct (stat_result (w_tick w) (w_fs w) s) as [n|e|p] eqn:Hs; [|done..].
  intros [= <- <-]. split; [done|]. by eapply stat_result_found.
Qed.

Lemma ReadDir_ret `{!Env} s w l w' :
  os_ReadDir s w = (Ret l, w') →
  w' = tickw w ∧ w_fs w !! resolve s = Some NDir ∧ l = entries (resolve s) (w_fs w).
Proof.
  unfold os_ReadDir, reads, readdir_result. destruct (fault _ _ _); [done|]. case_decide; [done|].
  destruct (w_fs w !! resolve s) as [[|]|]; [|done..]. by intros [= <- <-].
Qed.

(** ** The requests, one by one *)

Lemma answer_run {A} (f : A → reply) (m : M A) w :
  answer f m w = (match (m w).1 with Ret a => Ret (f a) | Fail e => Fail e | Panic p => Panic p end, (m w).2).
Proof. unfold answer, bind. by destruct (m w) as [[] ?]. Qed.

(** A request was served as the contract says. *)
Definition step_ok `{!Env} (hpc : hostPathController) (r : rpc) (o : outcome gerror reply) (w w' : world) : Prop :=
  good (cfg hpc) w' ∧ spec hpc r o (catalog_of (cfg hpc) (w_fs w)) (catalog_of (cfg hpc) (w_fs w')).

Section requests.
Context `{!Env} (Hnf : no_faults) (hpc : hostPathController) (Hlay : layout (cfg hpc)).
Context (Hrepos : repositories hpc (repos_of (cfg hpc))) (Hsafe : providers_safe hpc).

(** A request that changes nothing. *)
Lemma step_quiet r o w w' :
  good (cfg hpc) w → quiet w w' → spec hpc r o (catalog_of (cfg hpc) (w_fs w)) (catalog_of (cfg hpc) (w_fs w)) →
  step_ok hpc r o w w'.
Proof.
  intros Hg Hq Hs. split; [by eapply good_quiet|]. destruct Hq as (Hfs&_&_). by rewrite Hfs.
Qed.

(** *** Creating volumes *)

Lemma CreateVolume_unaccepted r w :
  valid_name (cv_Name r) → (∀ info, ¬ accepted hpc r info) →
  ∃ e, CreateVolume hpc (Some r) w = (Fail e, w).
Proof.
  intros Hname Hno. unfold CreateVolume.
  destruct (validateCreateVolumeRequest (Some r)) as [e|] eqn:Hval; [by eexists|].
  erewrite !run_bind_ret by done.
  destruct (validateCreateVolumeRequestTopology hpc r) as [e|] eqn:Htop; [by eexists|].
  erewrite run_bind_ret by done.
  destruct (StoragePools (cfg hpc) !! _) as [info|] eqn:Hpool; [|by eexists].
  by destruct (Hno info).
Qed.

(** Restoring from the repository of the pool, or from none. *)
Lemma restore_run pool info sid name w :
  StoragePools (cfg hpc) !! pool = Some info → good (cfg hpc) w → valid_name sid → valid_name name →
  let target := pool_root info ++ [name] in
  let run := restoreFromSnapshot hpc sid pool name w in
  fills target w run.2 ∧
  match run.1 with
  | Ret _ => ∃ sn, snapshots (catalog_of (cfg hpc) (w_fs w)) !! (pool, sid) = Some sn ∧
      ∀ rel, rel ≠ [] → w_fs run.2 !! (target ++ rel) =
        match snap_data sn !! rel with Some x => Some x | None => w_fs w !! (target ++ rel) end
  | Fail _ => True
  | Panic _ => False
  end.
Proof.
  intros Hpool Hg Hsid Hname target run. unfold run, restoreFromSnapshot.
  rewrite Hrepos, lookup_fmap, (getPool_found _ _ _ Hpool).
  destruct (repos_of (cfg hpc) !! pool) as [rl|] eqn:Hrl; simpl; [|done].
  assert (resolve (Join [Path info; name]) = target) as Ht by by apply resolve_Join.
  pose proof (fills_restore rl sid (Join [Path info; name]) w) as Hf. rewrite Ht in Hf. split; [done|].
  assert (nopanic (RestoreSnapshot rl sid (Join [Path info; name]))) as Hnp.
  { unfold RestoreSnapshot, reflinkCopy, checkPathExistFunc. nopanic_tac. }
  specialize (Hnp w). destruct (RestoreSnapshot _ _ _ w) as [[[]|e|p] w'] eqn:Hrun; [|done|by destruct (Hnp p)].
  destruct (RestoreSnapshot_overlay rl sid (Join [Path info; name]) w w') as ([x Hdata]&_&Hrel);
    [done|apply Hg| |done|].
  { rewrite Ht, <-(app_nil_r (resolve (path rl))). apply apart_below, apart_sym. by eapply lay_cross. }
  rewrite Ht in Hrel. exists (Snap (source_of rl sid (w_fs w)) (subtree (snapData rl sid) (w_fs w))). split.
  - rewrite lookup_snapshots, Hrl. simpl. unfold snap_at. rewrite snapData_app in Hdata.
    by apply (wf_parent _ (g_wf _ _ Hg)) in Hdata as [-> _].
  - intros rel Hr. simpl. by rewrite Hrel, lookup_subtree.
Qed.
(** The content source was applied, under any faults. *)
Lemma populate_ret pool info r sid w w' :
  StoragePools (cfg hpc) !! pool = Some info → good (cfg hpc) w → snapshotOf r = Some sid →
  valid_name sid → valid_name (cv_Name r) → w_fs w !! (pool_root info ++ [cv_Name r]) = Some NDir →
  populateVolume hpc pool r w = (Ret tt, w') →
  ∃ sn, snapshots (catalog_of (cfg hpc) (w_fs w)) !! (pool, sid) = Some sn ∧
    vol_at (w_fs w') info (cv_Name r) =
      Some (overlay (snap_data sn) (subtree (pool_root info ++ [cv_Name r]) (w_fs w))).
Proof.
  intros Hpool Hg Hsrc Hsid Hname Hdir.
  assert (cv_VolumeContentSource r = Some (FromSnapshot (Some sid))) as Hcs.
  { unfold snapshotOf in Hsrc. repeat case_match; simplify_eq; done. }
  destruct (restore_run pool info sid (cv_Name r) w) as [[Hm Hk] Hrun]; [done..|].
  unfold populateVolume. rewrite Hcs. unfold bind at 1, try at 1.
  destruct (restoreFromSnapshot hpc sid pool (cv_Name r) w) as [[[]|e|p] w1]; cbn [fst snd] in *; [| |done].
  2: { intros Hr. by bind_inv Hr u w2 Hu. }
  intros [= <-]. destruct Hrun as (sn&Hsn&Hrel). exists sn. split; [done|]. unfold vol_at. rewrite Hk by auto.
  rewrite Hdir. f_equal. apply map_eq. intros rel. rewrite lookup_subtree. unfold overlay.
  destruct (decide (rel = [])) as [->|Hne].
  - rewrite app_nil_r, lookup_insert_eq, Hk by auto. done.
  - rewrite Hrel, lookup_insert_ne, lookup_union by done. rewrite lookup_subtree.
    by destruct (snap_data sn !! rel); destruct (w_fs w !! ((pool_root info ++ [cv_Name r]) ++ rel)).
Qed.

(** The content source of a request: copied over the volume, or the volume is
    removed. *)
Lemma populate_run pool info r sid w :
  StoragePools (cfg hpc) !! pool = Some info → good (cfg hpc) w → snapshotOf r = Some sid →
  valid_name sid → valid_name (cv_Name r) → w_fs w !! (pool_root info ++ [cv_Name r]) = Some NDir →
  match populateVolume hpc pool r w with
  | (Ret _, w') => ∃ sn, snapshots (catalog_of (cfg hpc) (w_fs w)) !! (pool, sid) = Some sn ∧
      vol_at (w_fs w') info (cv_Name r) =
        Some (overlay (snap_data sn) (subtree (pool_root info ++ [cv_Name r]) (w_fs w)))
  | (Fail _, w') => w_fs w' !! (pool_root info ++ [cv_Name r]) = None
  | (Panic _, _) => False
  end.
Proof.
  intros Hpool Hg Hsrc Hsid Hname Hdir. pose proof (populate_ret pool info r sid w) as Hret.
  destruct (restore_run pool info sid (cv_Name r) w) as [[Hm Hk] Hrun]; [done..|].
  unfold populateVolume, snapshotOf in *.
  destruct (cv_VolumeContentSource r) as [[[s|]| |]|]; try done. injection Hsrc as ->.
  unfold bind at 1, try at 1 in Hret. unfold bind at 1, try at 1.
  destruct (restoreFromSnapshot hpc sid pool (cv_Name r) w) as [[[]|e|p] w1]; cbn [fst snd] in *; [by apply Hret| |done].
  rewrite (getPool_found _ _ _ Hpool). erewrite run_bind_ret.
  2: { apply run_wrapErr_ret, Utils_DeleteVolume_ok; fold (pool_root info); [done..|by rewrite Hk by auto|].
       rewrite Hm. eapply good_unmounted; [done|]. by eapply pool_entry_root. }
  cbn [fail tickw set_fs w_fs]. by rewrite lookup_rm_tree, decide_True.
Qed.

(** A change of one volume that the contract allows. *)
Lemma step_volume r o w w' pool info id v :
  good (cfg hpc) w → StoragePools (cfg hpc) !! pool = Some info → wf_fs (w_fs w') → w_mounts w' = w_mounts w →
  only_at (pool_root info ++ [id]) (w_fs w) (w_fs w') →
  match v with
  | Some _ => vol_at (w_fs w') info id = v
  | None => w_fs w' !! (pool_root info ++ [id]) = None
  end →
  spec hpc r o (catalog_of (cfg hpc) (w_fs w)) (set_volume (pool, id) v (catalog_of (cfg hpc) (w_fs w))) →
  step_ok hpc r o w w'.
Proof.
  intros Hg Hpool Hwf Hm Honly Hv Hs. split.
  - eapply good_entry; [done|done|by eapply pool_entry_root|done..|]. intros n Hn.
    unfold vol_at in Hv. rewrite Hn in Hv. by destruct n, v.
  - rewrite (catalog_volume (cfg hpc) Hlay (w_fs w) (w_fs w') pool info id) by done.
    destruct v; [by rewrite Hv|]. unfold vol_at. by rewrite Hv.
Qed.

Lemma accepted_or_not r :
  valid_name (cv_Name r) → (∃ info, accepted hpc r info) ∨ (∀ info, ¬ accepted hpc r info).
Proof.
  intros Hname.
  destruct (validateCreateVolumeRequest (Some r)) as [e|] eqn:Hval; [right; by intros info [? _ _ _]; congruence|].
  destruct (validateCreateVolumeRequestTopology hpc r) as [e|] eqn:Htop;
    [right; by intros info [_ ? _ _]; congruence|].
  destruct (StoragePools (cfg hpc) !! getStoragePoolNameFromMap (cv_Parameters r)) as [info|] eqn:Hpool;
    [|right; by intros info [_ _ ? _]; congruence].
  left. by exists info.
Qed.

Lemma plain_snapshotOf r : snapshotOf r = None → plain r.
Proof. intros Hs sid Hcs. unfold snapshotOf in Hs. by rewrite Hcs in Hs. Qed.

(** The state in which the content source is applied. *)
Lemma good_ensured r info w w1 :
  good (cfg hpc) w → accepted hpc r info →
  w_fs w1 = ensure_dir (pool_root info ++ [cv_Name r]) (w_fs w) → w_mounts w1 = w_mounts w →
  good (cfg hpc) w1 ∧ w_fs w1 !! (pool_root info ++ [cv_Name r]) = Some NDir ∧
  subtree (pool_root info ++ [cv_Name r]) (w_fs w1) = present (volKey r) (catalog_of (cfg hpc) (w_fs w)) ∧
  snapshots (catalog_of (cfg hpc) (w_fs w1)) = snapshots (catalog_of (cfg hpc) (w_fs w)).
Proof.
  intros Hg Hacc Hfs Hm. pose proof (acc_pool _ _ _ Hacc) as Hpool.
  pose proof (pool_entry_root _ _ _ Hpool) as Hroot.
  pose proof (vol_at_ensure _ _ Hg _ _ (cv_Name r) Hpool) as Hvol. rewrite <-Hfs in Hvol.
  assert (only_at (pool_root info ++ [cv_Name r]) (w_fs w) (w_fs w1)) as Honly.
  { rewrite Hfs. apply only_at_ensure. }
  unfold vol_at in Hvol.
  destruct (w_fs w1 !! (pool_root info ++ [cv_Name r])) as [[|]|] eqn:Hd; [|done..]. injection Hvol as Hvol.
  split_and!; [|done|done|].
  - eapply good_entry; [done..| |done|done|]; [|by intros n; rewrite Hd; intros [= <-]].
    rewrite Hfs. apply wf_ensure_dir; [apply Hg|by apply (g_roots _ _ Hg)|apply Hacc].
  - by rewrite (catalog_volume (cfg hpc) Hlay (w_fs w) (w_fs w1) _ info (cv_Name r) Hpool).
Qed.

Lemma refine_create_from r info st sid w :
  good (cfg hpc) w → accepted hpc r info → snapshotOf r = Some sid → valid_name sid →
  statfs (w_tick w) (Path info) = inr st →
  let run := answer ReplyVolume (CreateVolume hpc (Some r)) w in
  step_ok hpc (RCreateVolume (Some r)) run.1 w run.2.
Proof.
  intros Hg Hacc Hsrc Hsid Hst. cbv zeta. rewrite answer_run. pose proof (acc_pool _ _ _ Hacc) as Hpool.
  pose proof (pool_entry_root _ _ _ Hpool) as Hroot. pose proof (acc_name _ _ _ Hacc) as Hname.
  destruct (CreateVolume_run hpc r info st w) as (w1&Hfs1&Hm1&_&->); [done..|apply Hg|by apply (g_roots _ _ Hg)|].
  destruct (good_ensured r info w w1) as (Hg1&Hd1&Hp1&Hs1); [done..|].
  pose proof (populate_run _ _ r sid w1 Hpool Hg1 Hsrc Hsid Hname Hd1) as Hrun.
  pose proof (respects_populate_wf hpc Hsafe (getStoragePoolNameFromMap (cv_Parameters r)) r w1 (g_wf _ _ Hg1)) as Hwf.
  pose proof (respects_populate_confined hpc Hsafe _ info r Hpool w1) as Hc.
  rewrite resolve_Join in Hc by done. fold (pool_root info) in Hc.
  pose proof (confined_only (cfg hpc) _ _ _ _ Hg1 Hroot Hc) as Honly. destruct Hc as [Hm _].
  assert (only_at (pool_root info ++ [cv_Name r]) (w_fs w) (w_fs (populateVolume hpc
    (getStoragePoolNameFromMap (cv_Parameters r)) r w1).2)) as Hall.
  { eapply only_at_trans; [|exact Honly]. rewrite Hfs1. apply only_at_ensure. }
  unfold bind. destruct (populateVolume hpc _ r w1) as [[u|e|p] w']; [| |done]; cbn [fst snd ret] in *.
  - destruct Hrun as (sn&Hsn&Hv). rewrite Hs1 in Hsn. rewrite Hp1 in Hv.
    eapply step_volume; [done|exact Hpool|done|by rewrite Hm|exact Hall| |by eapply spec_restore]. exact Hv.
  - eapply step_volume; [done|exact Hpool|done|by rewrite Hm|exact Hall| |by eapply spec_restore_failed]. exact Hrun.
Qed.

Lemma refine_CreateVolume req w :
  good (cfg hpc) w → regular (RCreateVolume req) →
  let run := answer ReplyVolume (CreateVolume hpc req) w in step_ok hpc (RCreateVolume req) run.1 w run.2.
Proof.
  intros Hg [Hplain Hreg]. cbv zeta. destruct req as [r|].
  2: { rewrite answer_run. apply step_quiet; [done|reflexivity|]. by apply spec_create_refused. }
  pose proof (Hplain r eq_refl) as Hname. destruct (accepted_or_not r Hname) as [[info Hacc]|Hno].
  2: { rewrite answer_run. destruct (CreateVolume_unaccepted r w Hname Hno) as [e ->].
       apply step_quiet; [done|reflexivity|]. apply spec_create_refused. intros ? [= <-]. by left. }
  pose proof (acc_pool _ _ _ Hacc) as Hpool. pose proof (pool_entry_root _ _ _ Hpool) as Hroot.
  destruct (statfs (w_tick w) (Path info)) as [en|st] eqn:Hst.
  { rewrite answer_run, (CreateVolume_statfs_error hpc r info en w Hacc Hst).
    apply step_quiet; [done|by split_and!|]. apply spec_create_refused. intros ? [= <-]. right. eauto. }
  destruct (snapshotOf r) as [sid|] eqn:Hsrc; [by eapply refine_create_from; eauto|].
  destruct (CreateVolume_plain hpc r info st w) as (w'&Hrun&Hfs&Hm);
    [done|done|by apply plain_snapshotOf|done|apply Hg|by apply (g_roots _ _ Hg)|].
  rewrite answer_run, Hrun. cbn [fst snd].
  eapply step_volume; [done|exact Hpool| |done|rewrite Hfs; apply only_at_ensure| |by eapply spec_create].
  - rewrite Hfs. apply wf_ensure_dir; [apply Hg|by apply (g_roots _ _ Hg)|done].
  - rewrite Hfs. by apply vol_at_ensure.
Qed.

(** *** Deleting and finding volumes *)

Lemma pools_good w : good (cfg hpc) w → pools_ready (cfg hpc) (w_fs w).
Proof.
  intros Hg pool info Hp. split; [by eapply lay_path|]. apply (g_roots _ _ Hg). by eapply pool_entry_root.
Qed.

Lemma has_volume_catalog w id :
  (∃ p, has_volume (cfg hpc) (w_fs w) id p) ↔
  ∃ pool, is_Some (volumes (catalog_of (cfg hpc) (w_fs w)) !! (pool, id)).
Proof.
  split.
  - intros (p&pool&info&Hp&->&Hl). exists pool. rewrite lookup_volumes, Hp. simpl. unfold vol_at.
    rewrite Hl. by eexists.
  - intros (pool&t&Ht). rewrite lookup_volumes in Ht.
    destruct (StoragePools (cfg hpc) !! pool) as [info|] eqn:Hp; [|done]. simpl in Ht.
    exists (pool_root info), pool, info. split_and!; [done..|]. unfold vol_at in Ht.
    by destruct (w_fs w !! _) as [[|]|].
Qed.

Lemma refine_DeleteVolume req w :
  good (cfg hpc) w →
  let run := answer (λ _, ReplyDone) (DeleteVolume hpc req) w in step_ok hpc (RDeleteVolume req) run.1 w run.2.
Proof.
  intros Hg. cbv zeta. rewrite answer_run. destruct req as [id|].
  2: { apply step_quiet; [done|reflexivity|]. apply spec_delete_refused. by left. }
  destruct (decide (id = "")) as [->|Hid].
  { apply step_quiet; [done|reflexivity|]. apply spec_delete_refused. by right. }
  destruct (DeleteVolume_ok Hnf hpc id w) as (w'&Hrun&Hm&Hcase); [done|apply Hg|by apply pools_good| |].
  { intros p (pool&info&Hp&->&_). eapply good_unmounted; [done|]. by eapply pool_entry_root. }
  rewrite Hrun. cbn [fst snd]. destruct Hcase as [[Hfs Hno]|(p&(pool&info&Hp&->&Hl)&Hv&Hfs)].
  - split; [destruct Hg as [? ? ? Hfree]; split; unfold unmounted in *; by rewrite ?Hfs, ?Hm|].
    rewrite Hfs. apply spec_delete_absent; [done|]. intros pool.
    destruct (volumes _ !! (pool, id)) as [t|] eqn:Ht; [|done].
    destruct (proj2 (has_volume_catalog w id)) as [p Hp]; [by exists pool, t|]. by destruct (Hno p).
  - eapply step_volume; [done|exact Hp| |done|rewrite Hfs; apply only_at_rm| |].
    + rewrite Hfs. apply wf_rm_tree; [apply snoc_not_nil|apply Hg].
    + instantiate (1 := None). by rewrite Hfs, lookup_rm_tree, decide_True.
    + eapply spec_delete. rewrite lookup_volumes, Hp. simpl. unfold vol_at. by rewrite Hl.
Qed.

Lemma slice_sub {A} (l : list A) lo hi (w w' : world) page :
  slice l lo hi w = (Ret page, w') → page ⊆ l.
Proof.
  unfold slice. destruct (_ && _); [|done]. intros [= <- _] x Hx.
  apply elem_of_take in Hx as (i&Hi&_). eapply subseteq_drop, list_elem_of_lookup. by exists i.
Qed.

(** The volumes of a page are directories that were read. *)
Lemma volumePage_sound cm dirs token maxEntries w l w' :
  volumePage hpc cm dirs token maxEntries w = (Ret l, w') →
  ∀ e, e ∈ lv_Entries l → entryId e ∈ Base <$> dirs.
Proof.
  unfold volumePage. cbv zeta. destruct (_ =? -1); [done|]. intros Hrun e He.
  bind_inv Hrun page w1 Hpage. bind_inv Hrun es w2 Hes. bind_inv Hrun t w3 Ht. injection Hrun as <- _.
  cbn [lv_Entries] in He. destruct (appendEntries_ret hpc cm page [] w1) as (es'&w2'&Hes'&_&Hids%page_ids).
  rewrite Hes in Hes'. injection Hes' as -> _.
  assert (entryId e ∈ entryId <$> es') as Hin by (apply list_elem_of_fmap; eauto).
  rewrite Hids in Hin. apply list_elem_of_fmap in Hin as (d&->&Hd). apply list_elem_of_fmap. exists d.
  split; [done|]. by eapply slice_sub.
Qed.

Lemma directories_inv w dirs w' :
  getVolumeDirectories hpc w = (Ret dirs, w') → dirs = dirs_of hpc w.
Proof.
  intros Hrun. pose proof (getDirectories_spec (StoragePools (cfg hpc)) w) as Hs. unfold wp in Hs.
  unfold getVolumeDirectories in Hrun. rewrite Hrun in Hs. by destruct Hs as [_ ->].
Qed.

Lemma ListVolumes_sound req w l w' :
  good (cfg hpc) w → ListVolumes hpc req w = (Ret l, w') →
  ∀ e, e ∈ lv_Entries l → ∃ pool, is_Some (volumes (catalog_of (cfg hpc) (w_fs w)) !! (pool, entryId e)).
Proof.
  intros Hg Hrun e He. unfold ListVolumes in Hrun.
  bind_inv Hrun u0 w0 Hval. apply checkErr_ret in Hval as [_ ->].
  bind_inv Hrun r w1 Hr. destruct req as [r'|]; [|done]. injection Hr as <- <-.
  bind_inv Hrun cm w2 Hcm. bind_inv Hrun dirs w3 Hdirs.
  pose proof (respects_poolCapacities quiet hpc w) as Hq. rewrite Hcm in Hq. cbn [snd] in Hq.
  apply directories_inv in Hdirs as ->.
  apply has_volume_catalog, dirs_of_ids; [apply Hg|].
  assert (dirs_of hpc w2 = dirs_of hpc w) as Hd by (unfold dirs_of; by destruct Hq as [-> _]). rewrite Hd in Hrun.
  unfold listFrom in Hrun. destruct (_ && _); [done|].
  destruct (dirs_of hpc w) as [|d l'].
  - case_decide; [|done]. injection Hrun as <- _. by apply not_elem_of_nil in He.
  - by eapply volumePage_sound.
Qed.

Lemma ControllerGetVolume_sound id w e w' :
  good (cfg hpc) w → ControllerGetVolume hpc (Some id) w = (Ret e, w') →
  entryId e = id ∧ ∃ pool, is_Some (volumes (catalog_of (cfg hpc) (w_fs w)) !! (pool, id)).
Proof.
  intros Hg Hrun. unfold ControllerGetVolume in Hrun. case_decide; [done|].
  bind_inv Hrun cm w2 Hcm. bind_inv Hrun dirs w3 Hdirs.
  pose proof (respects_poolCapacities quiet hpc w) as Hq. rewrite Hcm in Hq. cbn [snd] in Hq.
  apply directories_inv in Hdirs as ->.
  assert (dirs_of hpc w2 = dirs_of hpc w) as Hd by (unfold dirs_of; by destruct Hq as [-> _]). rewrite Hd in Hrun.
  case_decide; [done|].
  destruct (volumeEntry_ret hpc cm id (findVolumePath id (dirs_of hpc w)) w3) as (e'&w4&He&_&Hid&_).
  rewrite He in Hrun. injection Hrun as -> _. split; [done|]. apply has_volume_catalog.
  destruct (findVolumePath_volume (w_fs w) (StoragePools (cfg hpc)) id (g_wf _ _ Hg))
    as [[? _]|(_&_&pool&info&Hp&Hl&_)]; [done|]. by exists (pool_root info), pool, info.
Qed.

(** *** Creating snapshots *)

Lemma step_snapshot r o w w' pool rl id sn :
  good (cfg hpc) w → repos_of (cfg hpc) !! pool = Some rl → wf_fs (w_fs w') → w_mounts w' = w_mounts w →
  only_at (snapDir rl id) (w_fs w) (w_fs w') → snap_at (w_fs w') rl id = Some sn →
  spec hpc r o (catalog_of (cfg hpc) (w_fs w)) (set_snapshot (pool, id) (Some sn) (catalog_of (cfg hpc) (w_fs w))) →
  step_ok hpc r o w w'.
Proof.
  intros Hg Hrl Hwf Hm Honly Hsn Hs. split.
  - eapply good_entry; [done|done|by eapply repo_entry_root|done..|]. intros n Hn.
    unfold snap_at, snapDir in Hsn. rewrite Hn in Hsn. by destruct n.
  - rewrite (catalog_snapshot (cfg hpc) Hlay (w_fs w) (w_fs w') pool rl id) by done. by rewrite Hsn.
Qed.

Lemma snapshot_without_repo r w :
  valid_name (cs_Name r) → valid_name (cs_SourceVolumeId r) →
  repos_of (cfg hpc) !! getStoragePoolNameFromMap (cs_Parameters r) = None →
  ∃ e, CreateSnapshot hpc (Some r) w = (Fail e, w).
Proof.
  intros Hn Hs Hrl. unfold CreateSnapshot. rewrite validateCreateSnapshot_ok by done.
  erewrite !run_bind_ret by done. rewrite Hrepos, lookup_fmap, Hrl.
  destruct (StoragePools (cfg hpc) !! _) as [info|]; [|by eexists]. by destruct (SnapshotPath info); eexists.
Qed.

Lemma snapshot_request r rl w :
  good (cfg hpc) w → repos_of (cfg hpc) !! getStoragePoolNameFromMap (cs_Parameters r) = Some rl →
  valid_name (cs_Name r) → valid_name (cs_SourceVolumeId r) → snapRequest hpc rl r w.
Proof.
  intros Hg Hrl Hn Hs. split; [by apply repo_config| |done|done|apply Hg|by eapply lay_repo|].
  - by rewrite Hrepos, lookup_fmap, Hrl.
  - apply (g_roots _ _ Hg). by eapply repo_entry_root.
Qed.

(** A directory that is not attributed to a volume is not a snapshot. *)
Lemma GetSnapshotById_unattributed rl id w :
  valid_name id → w_fs w !! snapDir rl id = Some NDir → source_of rl id (w_fs w) = None →
  ∃ e, GetSnapshotById rl id w = (Fail e, tickw (tickw w)).
Proof.
  intros Hid Hd Hs. unfold GetSnapshotById, source_of, snapDir in *.
  rewrite <-(resolve_Join (path rl) id) in * by done.
  erewrite run_bind_ret; [|apply run_try_ret, StatInfo_found; [done|by apply Join_nonempty|done]].
  simpl. unfold getSourceVolumeId.
  erewrite bind_assoc, run_bind_ret; [|apply ReadDir_found; [done|by apply Join_nonempty|done]].
  simpl. destruct (list_find _ _) as [[i [c n]]|]; [done|]. by eexists.
Qed.

Lemma refine_snapshot_existing r rl sn w :
  good (cfg hpc) w → snapRequest hpc rl r w →
  repos_of (cfg hpc) !! getStoragePoolNameFromMap (cs_Parameters r) = Some rl →
  snap_at (w_fs w) rl (cs_Name r) = Some sn →
  let run := answer ReplySnapshot (CreateSnapshot hpc (Some r)) w in
  step_ok hpc (RCreateSnapshot (Some r)) run.1 w run.2.
Proof.
  intros Hg Hr Hrl Hsn. cbv zeta. rewrite answer_run.
  assert (snapshots (catalog_of (cfg hpc) (w_fs w)) !! snapKey r = Some sn) as Hkey.
  { unfold snapKey. by rewrite lookup_snapshots, Hrl. }
  unfold snap_at in Hsn. destruct (w_fs w !! snapDir rl (cs_Name r)) as [[|]|] eqn:Hd; [|done..].
  injection Hsn as <-. destruct (source_of rl (cs_Name r) (w_fs w)) as [src|] eqn:Hsrc.
  - destruct (CreateSnapshot_existing Hnf hpc rl r src w) as (s&w'&Hq&Hid&Hss&Hready&->); [done..|].
    apply step_quiet; [done|done|]. cbn [fst]. case_decide as Hc.
    + eapply spec_snapshot_again; [done|cbn; congruence|done|]. split; [cbn; congruence|done].
    + eapply spec_snapshot_conflict; [done|cbn; congruence].
  - rewrite (CreateSnapshot_run Hnf hpc rl r w Hr).
    destruct (GetSnapshotById_unattributed rl (cs_Name r) (tickw w)) as [e He]; [apply Hr|done..|].
    unfold bind, wrapErr. rewrite He. apply step_quiet; [done|by split_and!|].
    by eapply spec_snapshot_conflict.
Qed.

Lemma snapshot_source_missing rl id src w :
  valid_name src → wf_fs (w_fs w) → w_fs w !! resolve (sourcePath rl) = Some NDir →
  w_fs w !! volDir rl src = None → ∃ e, Reflink.CreateSnapshot rl id src w = (Fail e, tickw w).
Proof.
  intros Hsrc Hwf Hroot Hnone.
  assert (checkPathExistFunc (Join [sourcePath rl; src]) w = (Ret false, tickw w)) as Hex.
  { apply checkPathExist_missing; [done|by apply Join_nonempty|by rewrite resolve_Join|].
    rewrite resolve_Join by done. by apply missing_errno_entry. }
  unfold Reflink.CreateSnapshot. run_ret Hex. by eexists.
Qed.

Lemma refine_snapshot_fresh r rl w :
  good (cfg hpc) w → snapRequest hpc rl r w →
  repos_of (cfg hpc) !! getStoragePoolNameFromMap (cs_Parameters r) = Some rl →
  w_fs w !! snapDir rl (cs_Name r) = None →
  let run := answer ReplySnapshot (CreateSnapshot hpc (Some r)) w in
  step_ok hpc (RCreateSnapshot (Some r)) run.1 w run.2.
Proof.
  intros Hg Hr Hrl Hnone. cbv zeta. rewrite answer_run, (CreateSnapshot_fresh Hnf hpc rl r w Hr Hnone).
  destruct Hr as [(info&Hpool&_&Hsp) _ Hid Hsrc Hwf Hne Hroot].
  assert (volDir rl (cs_SourceVolumeId r) = pool_root info ++ [cs_SourceVolumeId r]) as Hvd
    by (unfold volDir, pool_root; by rewrite Hsp).
  assert (snapshots (catalog_of (cfg hpc) (w_fs w)) !! snapKey r = None) as Hkey.
  { unfold snapKey. rewrite lookup_snapshots, Hrl. simpl. unfold snap_at. by rewrite Hnone. }
  assert (volumes (catalog_of (cfg hpc) (w_fs w)) !! srcKey r = vol_at (w_fs w) info (cs_SourceVolumeId r)) as Hvol
    by (unfold srcKey; by rewrite lookup_volumes, Hpool).
  destruct (vol_at (w_fs w) info (cs_SourceVolumeId r)) as [t|] eqn:Ht.
  2: { apply (vol_at_none _ _ Hg _ _ _ Hpool) in Ht. rewrite <-Hvd in Ht.
       destruct (snapshot_source_missing rl (cs_Name r) (cs_SourceVolumeId r) (tickw (tickw w))) as [e ->];
         [done|done| |done|].
       - unfold pool_root in Hpool. rewrite <-Hsp. apply (g_roots _ _ Hg). by eapply pool_entry_root.
       - apply step_quiet; [done|by split_and!|]. apply spec_snapshot_refused. intros ? [= <-]. by right. }
  destruct (volume_dir _ w _ _ _ _ Hpool Hvol) as [Hdir Hsub]. rewrite <-Hvd in Hdir.
  pose proof (CreateSnapshot_leaves Hnf rl _ _ Hid Hsrc (tickw (tickw w)) Hwf Hroot Hnone Hdir)
    as (Hwf'&Hm'&Honly&Hd'&Hs').
  assert (nopanic (Reflink.CreateSnapshot rl (cs_Name r) (cs_SourceVolumeId r))) as Hnp.
  { unfold Reflink.CreateSnapshot, reflinkCopy, createSnapshotFromDir, getFileCreationTimeFunc, checkPathExistFunc.
    nopanic_tac. }
  specialize (Hnp (tickw (tickw w))).
  assert (separate rl) as Hsep.
  { destruct (lay_cross _ Hlay _ _ _ _ Hpool Hrl) as [??]. unfold separate. by rewrite <-Hsp. }
  destruct (Reflink.CreateSnapshot _ _ _ _) as [[s|e|p] w'] eqn:Hrun; cbn [fst snd] in *; [..|by destruct (Hnp p)].
  - destruct (CreateSnapshot_created rl _ _ (tickw (tickw w)) s w' Hsep Hid Hsrc Hwf Hroot Hnone Hdir Hrun)
      as [Hc (Hi&Hs&Hready)].
    eapply (step_snapshot _ _ _ _ _ rl _ (Snap (recorded (cs_SourceVolumeId r)) t));
      [done|exact Hrl|done|done|exact Honly| |].
    + unfold snap_at. rewrite Hd', Hs', Hsub, <-Hvd. do 2 f_equal. apply subtree_eq, (created_data _ _ _ _ _ Hc).
    + by eapply spec_snapshot.
  - eapply step_snapshot; [done|exact Hrl|done|done|exact Honly| |by eapply spec_snapshot_torn].
    unfold snap_at. by rewrite Hd', Hs'.
Qed.

Lemma refine_CreateSnapshot req w :
  good (cfg hpc) w → regular (RCreateSnapshot req) →
  let run := answer ReplySnapshot (CreateSnapshot hpc req) w in step_ok hpc (RCreateSnapshot req) run.1 w run.2.
Proof.
  intros Hg [Hplain _]. destruct req as [r|].
  2: { cbv zeta. rewrite answer_run. apply step_quiet; [done|reflexivity|]. by apply spec_snapshot_refused. }
  destruct (Hplain r eq_refl) as [Hn Hs].
  destruct (repos_of (cfg hpc) !! getStoragePoolNameFromMap (cs_Parameters r)) as [rl|] eqn:Hrl.
  - pose proof (snapshot_request r rl w Hg Hrl Hn Hs) as Hr.
    destruct (snap_at (w_fs w) rl (cs_Name r)) as [sn|] eqn:Hsn; [by eapply refine_snapshot_existing|].
    eapply refine_snapshot_fresh; [done..|]. by eapply snap_at_none.
  - cbv zeta. rewrite answer_run. destruct (snapshot_without_repo r w Hn Hs Hrl) as [e ->].
    apply step_quiet; [done|reflexivity|]. apply spec_snapshot_refused. intros ? [= <-]. by left.
Qed.

(** *** Deleting snapshots *)

Lemma repos_good w id : good (cfg hpc) w → repos_ready (repos_of (cfg hpc)) id w.
Proof.
  intros Hg pool rl Hrl. pose proof (repo_entry_root _ _ _ Hrl) as Hroot.
  split_and!; [by eapply lay_repo|by apply (g_roots _ _ Hg)|by eapply good_unmounted|].
  intros pool' rl' Hrl' Hpre. pose proof (repo_entry_root _ _ _ Hrl') as Hroot'.
  destruct (entry_roots_apart _ _ _ Hlay Hroot' Hroot) as [Heq|[Hap _]].
  - unfold snapDir in Hpre. rewrite Heq in Hpre. by apply not_prefix_snoc in Hpre.
  - apply Hap. etransitivity; [|exact Hpre]. by exists [id].
Qed.

(** What lies in a pool lies in no snapshot. *)
Lemma pool_not_in_snapshot pool info s k id pool' rl :
  StoragePools (cfg hpc) !! pool = Some info → pool_root info ++ s `prefix_of` k →
  repos_of (cfg hpc) !! pool' = Some rl → ¬ snapDir rl id `prefix_of` k.
Proof.
  intros Hp Hk Hrl Hpre. destruct (lay_cross _ Hlay _ _ _ _ Hp Hrl) as [H1 H2].
  destruct (prefix_weak_total (pool_root info) (resolve (path rl)) k) as [?|?]; [..|done|done].
  - etransitivity; [|exact Hk]. by exists s.
  - etransitivity; [|exact Hpre]. by exists [id].
Qed.

(** What lies in a snapshot lies in no snapshot of another id. *)
Lemma snapshot_not_in_other pool rl id' k id pool' rl' :
  repos_of (cfg hpc) !! pool = Some rl → snapDir rl id' `prefix_of` k → id' ≠ id →
  repos_of (cfg hpc) !! pool' = Some rl' → ¬ snapDir rl' id `prefix_of` k.
Proof.
  intros Hrl Hk Hne Hrl' Hpre.
  destruct (entry_roots_apart _ _ _ Hlay (repo_entry_root _ _ _ Hrl) (repo_entry_root _ _ _ Hrl')) as [Heq|[H1 H2]].
  - unfold snapDir in *. rewrite Heq in Hk. destruct Hk as [s ->]. rewrite <-app_assoc, prefix_app_common in Hpre.
    by apply prefix_cons_inv_1 in Hpre.
  - destruct (prefix_weak_total (resolve (path rl)) (resolve (path rl')) k) as [?|?]; [..|done|done].
    + etransitivity; [|exact Hk]. by exists [id'].
    + etransitivity; [|exact Hpre]. by exists [id].
Qed.

Section deleted.
Context (id : string) (w w' : world) (Hg : good (cfg hpc) w).
Hypothesis Hgone : ∀ pool rl, repos_of (cfg hpc) !! pool = Some rl →
  ∀ k, snapDir rl id `prefix_of` k → w_fs w' !! k = None.
Hypothesis Hkeep : ∀ k, (∀ pool rl, repos_of (cfg hpc) !! pool = Some rl → ¬ snapDir rl id `prefix_of` k) →
  w_fs w' !! k = w_fs w !! k.

Lemma deleted_catalog :
  catalog_of (cfg hpc) (w_fs w') = drop_snapshots id (catalog_of (cfg hpc) (w_fs w)).
Proof.
  apply catalog_eq; simpl; apply map_eq; intros [pool i].
  - rewrite !lookup_volumes. destruct (StoragePools (cfg hpc) !! pool) as [info|] eqn:Hp; [|done]. simpl.
    apply vol_at_ext. intros k Hk. apply Hkeep. intros pool' rl Hrl. by eapply (pool_not_in_snapshot pool info).
  - rewrite map_lookup_filter, !lookup_snapshots.
    destruct (repos_of (cfg hpc) !! pool) as [rl|] eqn:Hrl; [|done]. cbn [mbind option_bind].
    destruct (decide (i = id)) as [->|Hne].
    + unfold snap_at at 1. rewrite (Hgone pool rl Hrl) by done.
      destruct (snap_at _ rl id); [|done]. simpl. by case_guard as Hc; [destruct Hc|].
    + rewrite (snap_at_ext (w_fs w) (w_fs w') rl i).
      * destruct (snap_at _ rl i); [|done]. simpl. by case_guard as Hc; [|destruct Hc].
      * intros k Hk. apply Hkeep. intros pool' rl' Hrl'. by eapply (snapshot_not_in_other pool rl i).
Qed.

Lemma deleted_good : wf_fs (w_fs w') → w_mounts w' = w_mounts w → good (cfg hpc) w'.
Proof.
  intros Hwf Hm. split; [done|..|unfold unmounted; rewrite Hm; apply Hg].
  - intros p Hp. rewrite Hkeep; [by apply (g_roots _ _ Hg)|]. intros pool rl Hrl Hpre.
    destruct (entry_roots_apart _ _ _ Hlay (repo_entry_root _ _ _ Hrl) Hp) as [<-|[Hap _]].
    + by apply not_prefix_snoc in Hpre.
    + apply Hap. etransitivity; [|exact Hpre]. by exists [id].
  - intros p i n Hp Hl. destruct (decide (w_fs w' !! (p ++ [i]) = w_fs w !! (p ++ [i]))) as [Heq|Hne].
    { rewrite Heq in Hl. by eapply (g_entries _ _ Hg). }
    destruct Hp as [(pool&info&Hp&->)|(pool&rl&Hrl&->)].
    + destruct Hne. apply Hkeep. intros pool' rl Hrl. by eapply (pool_not_in_snapshot pool info [i]).
    + destruct (decide (i = id)) as [->|Hi]; [by rewrite (Hgone pool rl Hrl) in Hl|].
      destruct Hne. apply Hkeep. intros pool' rl' Hrl'. by eapply (snapshot_not_in_other pool rl i).
Qed.
End deleted.

Lemma refine_DeleteSnapshot req w :
  good (cfg hpc) w → regular (RDeleteSnapshot req) →
  let run := answer (λ _, ReplyDone) (DeleteSnapshot hpc req) w in step_ok hpc (RDeleteSnapshot req) run.1 w run.2.
Proof.
  intros Hg [Hplain _]. cbv zeta. rewrite answer_run. destruct req as [id|].
  2: { apply step_quiet; [done|reflexivity|]. apply spec_delete_snapshot_refused. }
  destruct (DeleteSnapshot_ret hpc (repos_of (cfg hpc)) id w) as (w'&Hrun&Hm&Hgone&Hkeep);
    [done|done|by apply Hplain|apply Hg|by apply repos_good|].
  pose proof (respects_DeleteSnapshot_wf hpc Hsafe (Some id) w (g_wf _ _ Hg)) as Hwf.
  rewrite Hrun in *. cbn [fst snd] in *. assert (∀ pool rl, repos_of (cfg hpc) !! pool = Some rl →
    ∀ k, snapDir rl id `prefix_of` k → w_fs w' !! k = None) as Hg' by (intros pool rl Hrl; by apply (Hgone pool rl)).
  split; [by eapply deleted_good|]. rewrite (deleted_catalog id w w' Hg' Hkeep). apply spec_delete_snapshot.
Qed.

(** *** Listing snapshots *)

(** A snapshot that a repository of the tree holds. *)
Definition held (fs : fstree) (rl : Reflink) (s : Snapshot) : Prop :=
  fs !! snapDir rl (SnapshotId s) = Some NDir ∧
  source_of rl (SnapshotId s) fs = Some (SourceVolumeId s) ∧ ReadyToUse s = true.

Lemma GetSnapshotById_held rl id w s w' :
  valid_name id → GetSnapshotById rl id w = (Ret (Some s), w') → held (w_fs w) rl s ∧ SnapshotId s = id.
Proof.
  intros Hid Hrun. unfold GetSnapshotById in Hrun. bind_inv Hrun res w1 Hres. apply try_inv in Hres.
  destruct res as [[n ct]|err]; [|by destruct (errors_Is_NotExist err)].
  apply StatInfo_ret in Hres as [-> Hn]. destruct n; [|done]. cbn [IsDir negb fst] in *.
  bind_inv Hrun src w2 Hsrc. injection Hrun as <- _. rewrite resolve_Join in Hn by done.
  unfold getSourceVolumeId in Hsrc. bind_inv Hsrc es w3 Hes. apply ReadDir_ret in Hes as (->&_&->).
  rewrite resolve_Join in Hsrc by done. cbn [tickw w_fs] in Hsrc. split; [|done].
  unfold held, source_of, snapDir. cbn [SnapshotId SourceVolumeId ReadyToUse]. split_and!; [done| |done].
  destruct (list_find _ _) as [[j e]|]; [|done]. by injection Hsrc as <- _.
Qed.

(** A loop that collects snapshots and only looks. *)
Lemma foldM_collect {A} (f : list Snapshot → A → M (list Snapshot)) (P : Snapshot → Prop) l acc w l' w' :
  (∀ acc x w1 acc' w2, x ∈ l → quiet w w1 → Forall P acc → f acc x w1 = (Ret acc', w2) →
     Forall P acc' ∧ quiet w1 w2) →
  Forall P acc → foldM f acc l w = (Ret l', w') → Forall P l'.
Proof.
  intros Hf. cut (∀ w1, quiet w w1 → Forall P acc → foldM f acc l w1 = (Ret l', w') → Forall P l').
  { intros Hcut. by apply Hcut. }
  revert acc. induction l as [|x l IH]; intros acc w1 Hq Hacc Hrun; [by injection Hrun as <- _|].
  cbn [foldM] in Hrun. bind_inv Hrun acc' w2 Hx.
  destruct (Hf acc x w1 acc' w2) as [Hacc' Hq2]; [left|done..|].
  apply (IH) with (acc := acc') (w1 := w2); [|by etransitivity|done|done].
  intros acc0 y w3 acc1 w4 Hy. apply Hf. by right.
Qed.

Lemma GetAllSnapshots_held rl w l w' :
  wf_fs (w_fs w) → GetAllSnapshots rl w = (Ret l, w') → Forall (held (w_fs w) rl) l.
Proof.
  intros Hwf Hrun. unfold GetAllSnapshots in Hrun. bind_inv Hrun es w1 Hes.
  apply ReadDir_ret in Hes as (->&_&->).
  eapply foldM_collect; [|by constructor|exact Hrun]. cbn beta. intros acc [c n] w1 acc' w2 Hin Hq Hacc Hstep.
  unfold appendSnapshot in Hstep. destruct (negb _); [by injection Hstep as <- <-|].
  pose proof (respects_GetSnapshotById quiet rl c w1) as Hq2. bind_inv Hstep o w3 Ho. cbn [fst] in Ho. rewrite Ho in Hq2.
  destruct o as [s|]; [|done]. injection Hstep as <- <-. split; [|done]. apply Forall_app. split; [done|].
  constructor; [|done]. apply GetSnapshotById_held in Ho as [Ho _].
  - destruct Hq as (Hfs&_&_). by rewrite Hfs in Ho.
  - apply elem_of_entries in Hin. by apply (wf_parent _ Hwf) in Hin as [_ ?].
Qed.

(** What one repository contributes to a listing. *)
Lemma providerSnapshots_held req rl pool acc w w1 acc' w2 (P : Snapshot → Prop) :
  good (cfg hpc) w → quiet w w1 → repos_of (cfg hpc) !! pool = Some rl →
  (ls_SnapshotId req = "" ∨ valid_name (ls_SnapshotId req)) →
  (∀ s, held (w_fs w) rl s → P s) → Forall P acc →
  providerSnapshots req acc (pool, reflinkProvider rl) w1 = (Ret acc', w2) → Forall P acc'.
Proof.
  intros Hg Hq Hrl Hreg HP Hacc Hrun. assert (w_fs w1 = w_fs w) as Hfs by apply Hq.
  assert (∀ l w3, GetAllSnapshots rl w1 = (Ret l, w3) → Forall P l) as Hall.
  { intros l w3 Hl. eapply Forall_impl; [|exact HP]. rewrite <-Hfs.
    eapply GetAllSnapshots_held; [|exact Hl]. rewrite Hfs. apply Hg. }
  unfold providerSnapshots in Hrun. simpl in Hrun.
  destruct (Z.eqb_spec (len (ls_SnapshotId req)) 0) as [|Hne]; cbn [negb] in Hrun.
  - destruct (negb _).
    + bind_inv Hrun l w3 Hl. injection Hrun as <- _. apply Forall_app. split; [done|].
      unfold GetSnapshotsByVolumeSourceId in Hl. bind_inv Hl l0 w4 Hl0. injection Hl as <- _.
      apply Forall_forall. intros s [_ Hs]%list_elem_of_filter. revert s Hs. by apply Forall_forall; eapply Hall.
    + bind_inv Hrun l w3 Hl. injection Hrun as <- _. apply Forall_app. split; [done|by eapply Hall].
  - bind_inv Hrun o w3 Ho. injection Hrun as <- _. destruct o as [s|]; [|done].
    apply Forall_app. split; [done|]. constructor; [|done]. apply HP. rewrite <-Hfs.
    refine (proj1 (GetSnapshotById_held rl (ls_SnapshotId req) w1 s w3 _ Ho)). destruct Hreg as [Hz|]; [|done]. by rewrite Hz in Hne.
Qed.

Lemma held_catalog w pool rl s :
  repos_of (cfg hpc) !! pool = Some rl → held (w_fs w) rl s →
  ∃ pool sn, snapshots (catalog_of (cfg hpc) (w_fs w)) !! (pool, SnapshotId s) = Some sn ∧ stands_for s sn.
Proof.
  intros Hrl (Hd&Hs&Hr). exists pool. rewrite lookup_snapshots, Hrl. simpl. unfold snap_at. rewrite Hd.
  eexists. split; [reflexivity|]. by split.
Qed.

Lemma quiet_providerSnapshots req acc pool rl : respects quiet (providerSnapshots req acc (pool, reflinkProvider rl)).
Proof.
  pose proof (respects_GetAllSnapshots quiet rl). pose proof (respects_GetSnapshotById quiet rl).
  unfold providerSnapshots. simpl. unfold GetSnapshotsByVolumeSourceId. respects_tac.
Qed.

Lemma ListSnapshots_sound req w l w' :
  good (cfg hpc) w → (ls_SnapshotId req = "" ∨ valid_name (ls_SnapshotId req)) →
  ListSnapshots hpc (Some req) w = (Ret l, w') →
  ∀ s, s ∈ ls_Entries l →
  ∃ pool sn, snapshots (catalog_of (cfg hpc) (w_fs w)) !! (pool, SnapshotId s) = Some sn ∧ stands_for s sn.
Proof.
  intros Hg Hreg Hrun. unfold ListSnapshots in Hrun. bind_inv Hrun found w1 Hall. apply Forall_forall.
  assert (Forall (λ s, ∃ pool sn, snapshots (catalog_of (cfg hpc) (w_fs w)) !! (pool, SnapshotId s) = Some sn ∧
    stands_for s sn) found) as Hheld.
  { unfold collectSnapshots in Hall. bind_inv Hall provs w2 Hprovs.
    unfold range_map, reads in Hprovs. injection Hprovs as <- <-.
    eapply foldM_collect; [|by constructor|exact Hall]. cbn beta. intros acc [pool p] w3 acc' w4 Hin Hq Hacc Hstep.
    rewrite range_order_perm, elem_of_map_to_list, Hrepos, lookup_fmap_Some in Hin.
    destruct Hin as (rl&<-&Hrl). split.
    - eapply (providerSnapshots_held req rl pool acc w w3); [done|exact Hq|done|done| |done|exact Hstep].
      intros s Hs. by eapply held_catalog.
    - pose proof (quiet_providerSnapshots req acc pool rl w3) as Hq2. by rewrite Hstep in Hq2. }
  destruct found as [|s0 found]; [case_decide; [|done]; injection Hrun as <- _; constructor|].
  unfold snapshotPage in Hrun. cbv zeta in Hrun. destruct (ParseUint _ _); [|done].
  bind_inv Hrun page w2 Hpage. injection Hrun as <- _. cbn [ls_Entries]. apply Forall_forall. intros s Hs.
  rewrite Forall_forall in Hheld. by eapply Hheld, slice_sub.
Qed.

(** *** Every request *)

Lemma quiet_call r w :
  match r with
  | RValidateVolumeCapabilities _ | RGetCapacity _ | RListVolumes _ | RControllerGetVolume _ | RListSnapshots _ => True
  | _ => False
  end → ∀ `{!FindMnt}, quiet w (call hpc r w).2.
Proof.
  intros Hr HF. destruct r; try done; simpl; rewrite answer_run; cbn [snd].
  - apply respects_ValidateVolumeCapabilities; apply _.
  - apply respects_GetCapacity; apply _.
  - apply respects_ListVolumes; apply _.
  - apply respects_ControllerGetVolume; apply _.
  - by apply quiet_ListSnapshots.
Qed.

Lemma refine_call `{!FindMnt} r w :
  good (cfg hpc) w → regular r → step_ok hpc r (call hpc r w).1 w (call hpc r w).2.
Proof.
  intros Hg Hreg. destruct r as [req|req|req|req|req|req|req|req|req|req|req|req].
  - by apply refine_CreateVolume.
  - by apply refine_DeleteVolume.
  - apply step_quiet; [done|by apply quiet_call|apply spec_validate].
  - apply step_quiet; [done|by apply quiet_call|apply spec_capacity].
  - apply step_quiet; [done|by apply quiet_call|]. simpl. rewrite answer_run. cbn [fst].
    destruct (ListVolumes hpc req w) as [[l|e|p] w'] eqn:Hrun; cbn [fst]; [|by apply spec_list_error..].
    apply spec_list. by eapply ListVolumes_sound.
  - apply step_quiet; [done|by apply quiet_call|]. simpl. rewrite answer_run. cbn [fst].
    destruct (ControllerGetVolume hpc req w) as [[l|e|p] w'] eqn:Hrun; cbn [fst]; [|by apply spec_get_error..].
    destruct req as [id|]; [|done]. destruct (ControllerGetVolume_sound id w l w' Hg Hrun). by apply spec_get.
  - by apply refine_CreateSnapshot.
  - by apply refine_DeleteSnapshot.
  - apply step_quiet; [done|by apply quiet_call|]. simpl. rewrite answer_run. cbn [fst].
    destruct (ListSnapshots hpc req w) as [[l|e|p] w'] eqn:Hrun; cbn [fst]; [|by apply spec_list_snapshots_error..].
    apply spec_list_snapshots. destruct req as [x|]; [|done]. eapply ListSnapshots_sound; [done|apply Hreg|done].
  - by destruct Hreg.
  - by destruct Hreg.
  - by destruct Hreg.
Qed.
End requests.
