(* ===== verification/CatalogTrace.v ===== *)
(** * Runs of the controller, against the contract

    Every sequence of requests that the controller of a configuration serves is
    a run of the contract, with the same answers; and consequences of the
    contract: what happens when a copy fails, and to a snapshot of a volume
    that is named "data". *)
From S2P Require Import Prelude GoStrings GoPath GoErrors OS OSFacts Demo Csi Utils Health Reflink.
From S2P Require Import ReflinkFacts ControllerServer ControllerFacts ControllerProps.
From S2P Require Import ControllerList ControllerSnap FindMnt NodeServer Driver System.
From S2P Require Import Catalog CatalogSpec CatalogRefine.
Open Scope Z_scope.

(** ** Runs *)

(** Requests served one after another, with their answers. *)
Inductive trace `{!Env, !FindMnt} (hpc : hostPathController) :
    world → list (rpc * outcome gerror reply) → world → Prop :=
  | trace_nil w : trace hpc w [] w
  | trace_cons r w tr w' :
      regular r → trace hpc (call hpc r w).2 tr w' → trace hpc w ((r, (call hpc r w).1) :: tr) w'.

(** The same on catalogs. *)
Inductive spec_trace `{!Env} (hpc : hostPathController) :
    catalog → list (rpc * outcome gerror reply) → catalog → Prop :=
  | spec_trace_nil c : spec_trace hpc c [] c
  | spec_trace_cons r o c c1 tr c' :
      spec hpc r o c c1 → spec_trace hpc c1 tr c' → spec_trace hpc c ((r, o) :: tr) c'.

(** An answer costs the handler nothing: the world is the one the handler leaves. *)
Lemma call_serve `{!Env, !FindMnt} hpc r w : (call hpc r w).2 = (serve hpc r w).2.
Proof. destruct r; simpl; rewrite ?answer_run, ?serve_discard; done. Qed.

Lemma trace_refines `{!Env, !FindMnt} hpc w tr w' :
  no_faults → layout (cfg hpc) → repositories hpc (repos_of (cfg hpc)) → providers_safe hpc →
  good (cfg hpc) w → trace hpc w tr w' →
  good (cfg hpc) w' ∧ spec_trace hpc (catalog_of (cfg hpc) (w_fs w)) tr (catalog_of (cfg hpc) (w_fs w')).
Proof.
  intros Hnf Hlay Hrepos Hsafe Hg Htr. induction Htr as [w|r w tr w' Hreg _ IH]; [by split; [|constructor]|].
  destruct (refine_call Hnf hpc Hlay Hrepos Hsafe r w Hg Hreg) as [Hg1 Hspec].
  destruct (IH Hg1) as [? ?]. split; [done|]. by econstructor.
Qed.

Lemma built_controller `{!Env} config w0 hpc w :
  NewHostPathController config w0 = (Ret hpc, w) →
  cfg hpc = config ∧ repositories hpc (repos_of config) ∧ providers_safe hpc.
Proof.
  intros Hnew. split_and!; [|by eapply new_controller_repositories|by eapply new_controller_safe].
  pose proof (NewHostPathController_run config w0) as Hs. rewrite Hnew in Hs. apply Hs.
Qed.

(** ** What a client can rely on *)

(** The entry of the catalog that a request may change. *)
Definition names_volume (key : string * string) (r : rpc) : Prop :=
  match r with
  | RCreateVolume (Some x) => volKey x = key
  | RDeleteVolume (Some id) => id = key.2
  | _ => False
  end.

Lemma spec_keeps_volume `{!Env} hpc r o c c' key :
  spec hpc r o c c' → ¬ names_volume key r → volumes c' !! key = volumes c !! key.
Proof.
  intros Hs Hn. destruct Hs; simpl in Hn |- *; try done; try (by rewrite lookup_partial_alter_ne).
  rewrite lookup_partial_alter_ne; [done|]. intros <-. by apply Hn.
Qed.

(** ** The theorems *)

(** C1: The controller implements its contract. On a configuration whose pools and snapshot
    directories do not overlap, in a state in which they are in place, hold nothing but
    directories and have no mounts inside them, when no system call fails (the copies, which are a
    program of their own, may fail at any point), every sequence of requests with plain names, whatever statistics the kernel
    gives, is a run of the abstract controller on the catalog of volumes and snapshots (pool and id to
    contents), request by request with the same answers: creating adds an empty volume or keeps
    the one there is, creating from a snapshot copies the contents of the snapshot over it,
    deleting removes one entry, a snapshot holds what its volume held and remembers the volume
    (unless that is named "data", whose name is lost), deleting a snapshot removes
    it from every pool, what is listed is there, and everything else changes nothing; no request
    that changes anything panics. The state after the run represents a catalog again. *)
Theorem controller_refines_catalog `{!Env, !FindMnt} config w0 hpc w tr w' :
  no_faults → layout config → NewHostPathController config w0 = (Ret hpc, w) → good config w →
  trace hpc w tr w' →
  good config w' ∧ spec_trace hpc (catalog_of config (w_fs w)) tr (catalog_of config (w_fs w')).
Proof.
  intros Hnf Hlay Hnew Hg Htr. destruct (built_controller _ _ _ _ Hnew) as (<-&Hrepos&Hsafe).
  by apply trace_refines.
Qed.

Lemma call_refines `{!Env, !FindMnt} config w0 hpc w r w1 :
  no_faults → layout config → NewHostPathController config w0 = (Ret hpc, w) → good config w1 → regular r →
  good config (call hpc r w1).2 ∧
  spec hpc r (call hpc r w1).1 (catalog_of config (w_fs w1)) (catalog_of config (w_fs (call hpc r w1).2)).
Proof.
  intros Hnf Hlay Hnew Hg Hr. destruct (built_controller _ _ _ _ Hnew) as (<-&Hrepos&Hsafe).
  by apply refine_call.
Qed.

(** Creating a volume from a snapshot that does not exist fails, and when the volume was there
    already it is gone afterwards with everything in it: the handler removes the volume it could
    not restore into, whether or not it made it. *)
Theorem failed_restore_loses_volume `{!Env, !FindMnt} config w0 hpc w w1 r info sid t :
  no_faults → layout config → NewHostPathController config w0 = (Ret hpc, w) → good config w1 →
  regular (RCreateVolume (Some r)) → accepted hpc r info → (∀ n, ∃ st, statfs n (Path info) = inr st) →
  snapshotOf r = Some sid →
  snapshots (catalog_of config (w_fs w1)) !! ((volKey r).1, sid) = None →
  volumes (catalog_of config (w_fs w1)) !! volKey r = Some t →
  (∃ e, (call hpc (RCreateVolume (Some r)) w1).1 = Fail e) ∧
  volumes (catalog_of config (w_fs (call hpc (RCreateVolume (Some r)) w1).2)) !! volKey r = None.
Proof.
  intros Hnf Hlay Hnew Hg Hreg Hacc Hst Hsrc Hsn Hv.
  destruct (call_refines config w0 hpc w (RCreateVolume (Some r)) w1) as [_ Hs]; [done..|].
  revert Hs. generalize (call hpc (RCreateVolume (Some r)) w1).1,
    (catalog_of config (w_fs (call hpc (RCreateVolume (Some r)) w1).2)). intros o c' Hs.
  inversion Hs as [| |r' info' sid' e c|req e c Hno| | | | | | | | | | | | | | | | | |]; simplify_eq.
  - split; [by eexists|]. simpl. by rewrite lookup_partial_alter_eq.
  - destruct (Hno r eq_refl) as [Hn|(info'&n&en&Hacc'&Hen)]; [by destruct (Hn info)|].
    assert (info' = info) as -> by (pose proof (acc_pool _ _ _ Hacc); pose proof (acc_pool _ _ _ Hacc'); congruence).
    destruct (Hst n); congruence.
Qed.

(** A snapshot whose copy failed is reported as taken the next time it is asked for: the first
    request fails, the same request again succeeds with a snapshot that is ready to use, although
    nothing was copied in between. *)
Theorem torn_snapshot_ready `{!Env, !FindMnt} config w0 hpc w w1 r t e w2 :
  no_faults → layout config → NewHostPathController config w0 = (Ret hpc, w) → good config w1 →
  regular (RCreateSnapshot (Some r)) → cs_SourceVolumeId r ≠ dataPath →
  volumes (catalog_of config (w_fs w1)) !! srcKey r = Some t →
  snapshots (catalog_of config (w_fs w1)) !! snapKey r = None →
  repos_of config !! (snapKey r).1 ≠ None →
  call hpc (RCreateSnapshot (Some r)) w1 = (Fail e, w2) →
  ∃ s, (call hpc (RCreateSnapshot (Some r)) w2).1 = Ret (ReplySnapshot s) ∧
    SnapshotId s = cs_Name r ∧ ReadyToUse s = true ∧
    catalog_of config (w_fs (call hpc (RCreateSnapshot (Some r)) w2).2) = catalog_of config (w_fs w2).
Proof.
  intros Hnf Hlay Hnew Hg Hreg Hdata Hv Hn Hrepo Hcall. destruct (built_controller _ _ _ _ Hnew) as (<-&_&_).
  destruct (call_refines (cfg hpc) w0 hpc w (RCreateSnapshot (Some r)) w1) as [Hg2 Hs]; [done..|].
  destruct (call_refines (cfg hpc) w0 hpc w (RCreateSnapshot (Some r)) w2) as [_ Hs2]; [done..|by rewrite Hcall in Hg2|done|].
  rewrite Hcall in Hs. cbn [fst snd] in Hs. revert Hs2.
  generalize (call hpc (RCreateSnapshot (Some r)) w2).1,
    (catalog_of (cfg hpc) (w_fs (call hpc (RCreateSnapshot (Some r)) w2).2)). intros o c2 Hs2.
  assert (∃ d, snapshots (catalog_of (cfg hpc) (w_fs w2)) !! snapKey r = Some (Snap (Some (cs_SourceVolumeId r)) d)) as [d Hd].
  { revert Hs. generalize (catalog_of (cfg hpc) (w_fs w2)). intros c' Hs.
    inversion Hs as [| | | | | | | |r' t' d e' c| |r' sn e' c Hsn|req e' c Hno| | | | | | | | | |]; simplify_eq.
    - exists d. simpl. rewrite lookup_partial_alter_eq. unfold recorded. by rewrite decide_False.
    - destruct (Hno r eq_refl) as [Hr|[Hr _]]; [by destruct Hrepo|congruence]. }
  inversion Hs2 as [| | | | | | | | |r' sn s c Hsn Hsrc Hid [_ Hready]|r' sn e' c Hsn Hsrc|req e' c Hno| | | | | | | | | |]; simplify_eq.
  - by exists s.
  - destruct (Hno r eq_refl) as [Hr|[_ Hr]]; [by destruct Hrepo|congruence].
Qed.

(** ** A snapshot that no volume is attributed to *)

(** A loop that only looks does not get past an element it fails for. *)
Lemma foldM_blocked `{!Env} {A B} (f : B → A → M B) x l b w :
  x ∈ l → (∀ b y, y ∈ l → respects quiet (f b y)) →
  (∀ b w1, quiet w w1 → is_ret (f b x w1).1 = false) → is_ret (foldM f b l w).1 = false.
Proof.
  intros Hx Hq Hf. assert (quiet w w) as Hw by done. revert Hw. generalize w at 2 3.
  revert b Hx Hq. induction l as [|y l IH]; intros b Hx Hq w1 Hw; [by apply not_elem_of_nil in Hx|].
  cbn [foldM]. unfold bind. pose proof (Hq b y ltac:(left) w1) as Hy.
  apply elem_of_cons in Hx as [<-|Hx].
  - specialize (Hf b w1 Hw). by destruct (f b x w1) as [[b'|e|pn] w2].
  - destruct (f b y w1) as [[b'|e|pn] w2]; [|done..]. cbn [snd] in Hy.
    apply IH; [done| |by etrans]. intros b0 z Hz. apply Hq. by right.
Qed.

Section unattributed.
Context `{!Env, !FindMnt} (hpc : hostPathController) (Hrepos : repositories hpc (repos_of (cfg hpc))).

Lemma appendSnapshot_blocked rl id acc w :
  valid_name id → w_fs w !! snapDir rl id = Some NDir → source_of rl id (w_fs w) = None →
  is_ret (appendSnapshot rl acc (id, NDir) w).1 = false.
Proof.
  intros Hid Hd Hs. unfold appendSnapshot, bind. cbn [negb IsDir fst snd].
  destruct (GetSnapshotById rl id w) as [[[s|]|e|pn] w1] eqn:Hrun; [|done..].
  apply GetSnapshotById_held in Hrun as [(_&Hso&_) Hi]; [|done]. rewrite Hi in Hso. congruence.
Qed.

Lemma GetAllSnapshots_blocked rl id w :
  wf_fs (w_fs w) → w_fs w !! snapDir rl id = Some NDir → source_of rl id (w_fs w) = None →
  is_ret (GetAllSnapshots rl w).1 = false.
Proof.
  intros Hwf Hd Hs. unfold GetAllSnapshots. unfold bind at 1.
  destruct (os_ReadDir (path rl) w) as [[es|e|pn] w1] eqn:Hes; [|done..].
  apply ReadDir_ret in Hes as (->&_&->).
  apply (foldM_blocked _ (id, NDir)); [by apply elem_of_entries| |].
  - intros b y _. pose proof (respects_GetSnapshotById quiet rl). unfold appendSnapshot. respects_tac.
  - intros b w1 (Hfs&_). cbn [tickw w_fs] in Hfs.
    apply appendSnapshot_blocked; rewrite ?Hfs; [|done|done]. by apply (wf_parent _ Hwf) in Hd as [_ ?].
Qed.

(** No listing of all snapshots or of those of a volume is answered. *)
Lemma ListSnapshots_blocked x pool id d w :
  wf_fs (w_fs w) → ls_SnapshotId x = "" →
  snapshots (catalog_of (cfg hpc) (w_fs w)) !! (pool, id) = Some (Snap None d) →
  is_ret (ListSnapshots hpc (Some x) w).1 = false.
Proof.
  intros Hwf Hx Hsn. rewrite lookup_snapshots in Hsn.
  destruct (repos_of (cfg hpc) !! pool) as [rl|] eqn:Hrl; [|done]. cbn in Hsn. unfold snap_at in Hsn.
  destruct (w_fs w !! snapDir rl id) as [[|]|] eqn:Hd; [|done..]. injection Hsn as Hs _.
  assert (is_ret (collectSnapshots hpc x w).1 = false) as Hcol.
  2: { unfold ListSnapshots, bind. by destruct (collectSnapshots hpc x w) as [[l|e|pn] w1]. }
  unfold collectSnapshots. unfold bind at 1, range_map, reads.
  assert (∀ kv, kv ∈ range_order SnapshotProvider (w_tick w) (snapshotproviders hpc) ↔
    ∃ rl', repos_of (cfg hpc) !! kv.1 = Some rl' ∧ kv.2 = reflinkProvider rl') as Hin.
  { intros [pool' p]. rewrite range_order_perm, elem_of_map_to_list, Hrepos, lookup_fmap_Some. naive_solver. }
  apply (foldM_blocked _ (pool, reflinkProvider rl)); [apply Hin; eauto| |].
  - intros b [pool' p] (rl'&_&Heq)%Hin. cbn in Heq. rewrite Heq. apply quiet_providerSnapshots.
  - intros b w1 (Hfs&_). cbn [tickw w_fs] in Hfs.
    pose proof (GetAllSnapshots_blocked rl id w1) as Hall. rewrite Hfs in Hall. specialize (Hall Hwf Hd Hs).
    unfold providerSnapshots. rewrite Hx. change (negb (len "" =? 0)) with false. cbv iota.
    cbn [snd sp_GetAllSnapshots sp_GetSnapshotsByVolumeSourceId reflinkProvider].
    unfold GetSnapshotsByVolumeSourceId, bind.
    case_match; destruct (GetAllSnapshots rl w1) as [[l|e|pn] w2]; done.
Qed.
End unattributed.

(** C37: A volume may be named "data", but a snapshot of it is broken: the snapshot is reported taken
    and ready, but the directory that was to remember its volume is the one of its contents. From
    then on the same request fails instead of returning the snapshot, and no listing of all
    snapshots, or of those of any volume, is answered any more. *)
Theorem data_snapshot_blocks_listing `{!Env, !FindMnt} config w0 hpc w w1 r s w2 :
  no_faults → layout config → NewHostPathController config w0 = (Ret hpc, w) → good config w1 →
  regular (RCreateSnapshot (Some r)) → cs_SourceVolumeId r = dataPath →
  snapshots (catalog_of config (w_fs w1)) !! snapKey r = None →
  call hpc (RCreateSnapshot (Some r)) w1 = (Ret (ReplySnapshot s), w2) →
  ReadyToUse s = true ∧
  (∃ e, (call hpc (RCreateSnapshot (Some r)) w2).1 = Fail e) ∧
  ∀ x, ls_SnapshotId x = "" → is_ret (call hpc (RListSnapshots (Some x)) w2).1 = false.
Proof.
  intros Hnf Hlay Hnew Hg Hreg Hdata Hn Hcall. destruct (built_controller _ _ _ _ Hnew) as (<-&Hrepos&_).
  destruct (call_refines (cfg hpc) w0 hpc w (RCreateSnapshot (Some r)) w1) as [Hg2 Hs]; [done..|].
  rewrite Hcall in Hg2, Hs. cbn [fst snd] in Hg2, Hs.
  assert (ReadyToUse s = true ∧ ∃ d, snapshots (catalog_of (cfg hpc) (w_fs w2)) !! snapKey r = Some (Snap None d))
    as (Hready&d&Hd).
  { revert Hs. generalize (catalog_of (cfg hpc) (w_fs w2)). intros c' Hs.
    inversion Hs as [| | | | | | |r' t s' c| |r' sn s' c Hsn| | | | | | | | | | | |]; simplify_eq.
    split; [done|]. exists t. simpl. rewrite lookup_partial_alter_eq. unfold recorded. by rewrite decide_True. }
  split_and!; [done| |].
  - destruct (call_refines (cfg hpc) w0 hpc w (RCreateSnapshot (Some r)) w2) as [_ Hs2]; [done..|].
    revert Hs2. generalize (call hpc (RCreateSnapshot (Some r)) w2).1,
      (catalog_of (cfg hpc) (w_fs (call hpc (RCreateSnapshot (Some r)) w2).2)). intros o c2 Hs2.
    inversion Hs2; simplify_eq; by eexists.
  - intros x Hx. cbn [call]. rewrite answer_run. cbn [fst].
    assert (is_ret (ListSnapshots hpc (Some x) w2).1 = false) as Hl.
    { destruct (snapKey r) as [pool id]. by eapply (ListSnapshots_blocked hpc Hrepos); [apply Hg2| |exact Hd]. }
    by destruct (ListSnapshots hpc (Some x) w2) as [[l|e|pn] w3].
Qed.

(** ** A concrete run *)

(** Layouts and good states of concrete configurations, by enumeration. *)
Lemma layout_check config :
  map_Forall (λ _ info, Path info ≠ "") (StoragePools config) →
  map_Forall (λ _ rl, path rl ≠ "") (repos_of config) →
  map_Forall (λ pool info, map_Forall (λ pool' info', pool ≠ pool' → apart (pool_root info) (pool_root info'))
    (StoragePools config)) (StoragePools config) →
  map_Forall (λ pool rl, map_Forall (λ pool' rl', pool ≠ pool' → apart (resolve (path rl)) (resolve (path rl')))
    (repos_of config)) (repos_of config) →
  map_Forall (λ _ info, map_Forall (λ _ rl, apart (pool_root info) (resolve (path rl))) (repos_of config))
    (StoragePools config) →
  layout config.
Proof.
  intros H1 H2 H3 H4 H5. split; [exact H1|exact H2|..].
  - intros pool info pool' info' Hp Hp' Hne. by eapply (H3 pool info Hp pool' info').
  - intros pool rl pool' rl' Hp Hp' Hne. by eapply (H4 pool rl Hp pool' rl').
  - intros pool info pool' rl Hp Hp'. by eapply (H5 pool info Hp pool' rl).
Qed.

(** A directory that holds nothing but directories. *)
Definition only_dirs (fs : fstree) (p : GoPath.path) : Prop :=
  fs !! p = Some NDir ∧ Forall (λ e : string * node, e.2 = NDir) (entries p fs).
#[export] Instance only_dirs_dec fs p : Decision (only_dirs fs p).
Proof. unfold only_dirs. apply _. Defined.

Lemma good_check config w :
  wf_fs (w_fs w) → map_Forall (λ _ info, only_dirs (w_fs w) (pool_root info)) (StoragePools config) →
  map_Forall (λ _ rl, only_dirs (w_fs w) (resolve (path rl))) (repos_of config) → w_mounts w = [] →
  good config w.
Proof.
  intros Hwf Hpools Hrepos Hm.
  assert (∀ p, entry_root config p → only_dirs (w_fs w) p) as Hall.
  { intros p [(pool&info&Hp&->)|(pool&rl&Hrl&->)]; eauto. }
  split; [done|by intros p [? _]%Hall| |].
  - intros p id n [_ Hp]%Hall Hl. rewrite Forall_forall in Hp. apply (Hp (id, n)). by apply elem_of_entries.
  - intros mp Hmp. rewrite Hm in Hmp. by apply not_elem_of_nil in Hmp.
Qed.

#[local] Existing Instance demoFindmnt.

Lemma demo_layout : layout demoConfig.
Proof. apply layout_check; by_decide. Qed.
Lemma demo_good : good demoConfig (tickw demoPools).
Proof. apply good_check; [by_wf|by_decide|by_decide|reflexivity]. Qed.

(** A snapshot of "vol1" is taken and restored as "copy", and "vol2" is deleted. *)
Definition demoRun : list rpc :=
  [RCreateSnapshot (Some demoSnapRequest); RCreateVolume (Some (demoFromSnapshot "copy" "s1"));
   RDeleteVolume (Some "vol2")].

Fixpoint runs `{!Env, !FindMnt} (hpc : hostPathController) (rs : list rpc) (w : world)
    : list (rpc * outcome gerror reply) * world :=
  match rs with
  | [] => ([], w)
  | r :: rs => let '(o, w1) := call hpc r w in let '(tr, w') := runs hpc rs w1 in ((r, o) :: tr, w')
  end.

Lemma runs_trace `{!Env, !FindMnt} hpc rs w :
  Forall regular rs → trace hpc w (runs hpc rs w).1 (runs hpc rs w).2.
Proof.
  intros Hreg. revert w. induction Hreg as [|r rs Hr _ IH]; intros w; [constructor|]. simpl.
  pose proof (trace_cons hpc r w) as Hc. destruct (call hpc r w) as [o w1]. simpl in Hc.
  specialize (IH w1). destruct (runs hpc rs w1) as [tr w']. by apply Hc.
Qed.

Lemma runs_requests `{!Env, !FindMnt} hpc rs w (P : rpc → Prop) :
  Forall P rs → Forall (λ ro : rpc * outcome gerror reply, P ro.1) (runs hpc rs w).1.
Proof.
  intros HP. revert w. induction HP as [|r rs Hr _ IH]; intros w; [constructor|]. simpl.
  destruct (call hpc r w) as [o w1]. specialize (IH w1). destruct (runs hpc rs w1) as [tr w'].
  by constructor.
Qed.

Lemma demo_regular : Forall regular demoRun.
Proof.
  constructor; [|constructor; [|by repeat constructor]].
  - split; [|done]. intros x [= <-]. split; by_decide.
  - split; [intros x [= <-]; by_decide|]. intros sid [= <-]. by_decide.
Qed.

Lemma controller_refines_catalog_witness :
  spec_trace demoBuilt (catalog_of demoConfig (w_fs demoPools)) (runs demoBuilt demoRun (tickw demoPools)).1
    (catalog_of demoConfig (w_fs (runs demoBuilt demoRun (tickw demoPools)).2)).
Proof.
  destruct (controller_refines_catalog demoConfig demoPools demoBuilt (tickw demoPools)
    (runs demoBuilt demoRun (tickw demoPools)).1 (runs demoBuilt demoRun (tickw demoPools)).2) as [_ Hs];
    [done|apply demo_layout|reflexivity|apply demo_good|apply runs_trace, demo_regular|exact Hs].
Defined.

(** The snapshot "s9" was never taken; "vol1" holds a disk. *)
Lemma failed_restore_loses_volume_witness :
  volumes (catalog_of demoConfig (w_fs (call demoBuilt (RCreateVolume (Some (demoFromSnapshot "vol1" "s9")))
    (tickw demoPools)).2)) !! ("legacy", "vol1") = None.
Proof.
  destruct (failed_restore_loses_volume demoConfig demoPools demoBuilt (tickw demoPools) (tickw demoPools)
    (demoFromSnapshot "vol1" "s9") demoLegacy "s9" (subtree ["data"; "vol1"] (w_fs demoPools))) as [_ Hv];
    [done|apply demo_layout|reflexivity|apply demo_good| | |by eexists|reflexivity|vm_compute; reflexivity
    |vm_compute; reflexivity|exact Hv].
  - split; [intros x [= <-]; by_decide|]. intros sid [= <-]. by_decide.
  - split; [reflexivity..|by_decide].
Defined.

(** An environment in which every copy fails. *)
Definition tornEnv : Env :=
  demoEnv (λ _ _ _, None) (λ _ _, inr demo_statfs) (λ _ _, (1700000000, 5)) (λ _, false).
Definition tornBuilt : hostPathController :=
  match (NewHostPathController (H := tornEnv) demoConfig demoPools).1 with Ret h => h | _ => demoController end.

Lemma torn_snapshot_ready_witness :
  match call (H := tornEnv) tornBuilt (RCreateSnapshot (Some demoSnapRequest)) (tickw demoPools) with
  | (Fail _, w2) => ∃ s, (call (H := tornEnv) tornBuilt (RCreateSnapshot (Some demoSnapRequest)) w2).1
                         = Ret (ReplySnapshot s) ∧ ReadyToUse s = true
  | _ => False
  end.
Proof.
  destruct (call _ _ _) as [[a|e|p] w2] eqn:Hcall; [vm_compute in Hcall; discriminate Hcall| |vm_compute in Hcall; discriminate Hcall].
  destruct (torn_snapshot_ready (H := tornEnv) demoConfig demoPools tornBuilt (tickw demoPools) (tickw demoPools)
    demoSnapRequest (subtree ["data"; "vol1"] (w_fs demoPools)) e w2) as (s&Hs&_&Hr&_);
    [intros ???; reflexivity|apply demo_layout|reflexivity|apply demo_good| |by_decide|vm_compute; reflexivity
    |vm_compute; reflexivity|vm_compute; discriminate|exact Hcall|exists s; split; [exact Hs|exact Hr]].
  split; [intros x [= <-]; split; by_decide|done].
Defined.

(** A pool with a volume named "data". *)
Definition dataWorld : world := World
  (tree [(["snap"], NDir); (["data"], NDir); (["data"; "data"], NDir);
         (["data"; "data"; "disk.img"], NFile "abc"); (["fast"], NDir)]) [] 0 0.
Definition dataSnapshot : CreateSnapshotRequest :=
  {| cs_Name := "s1"; cs_SourceVolumeId := "data"; cs_Parameters := ∅ |}.

Lemma data_snapshot_blocks_listing_witness :
  match call demoBuilt (RCreateSnapshot (Some dataSnapshot)) dataWorld with
  | (Ret (ReplySnapshot _), w2) => is_ret (call demoBuilt (RListSnapshots (Some (demoListReq ""))) w2).1 = false
  | _ => False
  end.
Proof.
  assert (match call demoBuilt (RCreateSnapshot (Some dataSnapshot)) dataWorld with
          | (Ret (ReplySnapshot _), _) => true | _ => false end = true) as Hr by (vm_compute; reflexivity).
  destruct (call demoBuilt (RCreateSnapshot (Some dataSnapshot)) dataWorld) as [[[]|e|pn] w2] eqn:Hcall;
    try discriminate Hr. clear Hr.
  destruct (data_snapshot_blocks_listing demoConfig demoPools demoBuilt (tickw demoPools) dataWorld dataSnapshot s w2)
    as (_&_&Hb);
    [intros ???; reflexivity|apply demo_layout|reflexivity| | |reflexivity|vm_compute; reflexivity|exact Hcall|].
  3: { apply Hb. reflexivity. }
  - apply good_check; [by_wf|by_decide|by_decide|reflexivity].
  - split; [intros x [= <-]; split; by_decide|exact I].
Defined.
