(* ===== verification/CatalogFaults.v ===== *)
(** * The controller under faults

    What the contract of the controller becomes when system calls may fail at
    any point with any error but one that says a file is missing which is
    there: an answer of success still means what the contract says, and a
    request that fails has changed nothing but the entries it names. *)
From S2P Require Import Prelude GoStrings GoPath GoErrors OS OSFacts Demo Csi Utils Health Reflink.
From S2P Require Import ReflinkFacts ControllerServer ControllerFacts ControllerProps.
From S2P Require Import ControllerList ControllerSnap FindMnt NodeServer System.
From S2P Require Import Catalog CatalogSpec CatalogRefine CatalogTrace Driver.
Open Scope Z_scope.

(** No call reports a missing file because of a fault. *)
Definition honest `{!Env} : Prop := ∀ n k s, fault n k s ≠ Some ENOENT.

Lemma no_faults_honest `{!Env} : no_faults → honest.
Proof. intros Hnf n k s. by rewrite Hnf. Qed.

(** ** The contract *)

(** The snapshots that a request may change. *)
Definition names_snapshot (key : string * string) (r : rpc) : Prop :=
  match r with
  | RCreateSnapshot (Some x) => snapKey x = key
  | RDeleteSnapshot (Some id) => id = key.2
  | _ => False
  end.

(** What a request that failed may have done: entries it does not name are as
    they were; a deletion that failed has removed files and changed none; a
    creation without a snapshot that failed has done nothing. *)
Record failed (r : rpc) (c c' : catalog) : Prop := {
  fl_volumes : ∀ key, ¬ names_volume key r → volumes c' !! key = volumes c !! key;
  fl_snapshots : ∀ key, ¬ names_snapshot key r → snapshots c' !! key = snapshots c !! key;
  fl_delete : ∀ req, r = RDeleteVolume req →
    ∀ key t', volumes c' !! key = Some t' → ∃ t, volumes c !! key = Some t ∧ t' ⊆ t;
  fl_delete_snapshot : ∀ req, r = RDeleteSnapshot req →
    ∀ key sn', snapshots c' !! key = Some sn' →
    ∃ sn, snapshots c !! key = Some sn ∧ snap_data sn' ⊆ snap_data sn;
  fl_create : ∀ x, r = RCreateVolume (Some x) → snapshotOf x = None → c' = c;
}.

Inductive fspec `{!Env} (hpc : hostPathController) (r : rpc) :
    outcome gerror reply → catalog → catalog → Prop :=
  | fspec_done a c c' : spec hpc r (Ret a) c c' → fspec hpc r (Ret a) c c'
  | fspec_failed o c c' : is_ret o = false → failed r c c' → fspec hpc r o c c'.

Lemma failed_refl r c : failed r c c.
Proof. split; eauto. Qed.

(** ** What calls do under faults *)

(** [t] is a directory or nothing. *)
Definition dirish (t : GoPath.path) (w w' : world) : Prop :=
  (∀ n, w_fs w !! t = Some n → n = NDir) → (∀ n, w_fs w' !! t = Some n → n = NDir).
(** Nothing is added or changed. *)
Definition shrinks (w w' : world) : Prop := ∀ k, w_fs w' !! k = w_fs w !! k ∨ w_fs w' !! k = None.

#[export] Instance dirish_preorder t : PreOrder (dirish t).
Proof. split; [intros w Hd; exact Hd|]. intros w1 w2 w3 H1 H2 H. apply H2, H1, H. Qed.
#[export] Instance dirish_tick t : TickInv (dirish t).
Proof. intros w Hd. exact Hd. Qed.
#[export] Instance shrinks_preorder : PreOrder shrinks.
Proof.
  split; [by intros w k; left|]. intros w1 w2 w3 H1 H2 k. destruct (H2 k) as [->|]; [apply H1|by right].
Qed.
#[export] Instance shrinks_tick : TickInv shrinks.
Proof. intros w k. by left. Qed.

Lemma shrinks_dirish t w w' : shrinks w w' → dirish t w w'.
Proof. intros Hs Hd n Hn. destruct (Hs t) as [Heq|Heq]; rewrite Heq in Hn; [eauto|done]. Qed.

Section calls.
Context `{!Env}.

Lemma shrinks_RemoveAll s : respects shrinks (os_RemoveAll s).
Proof. intros w k. apply RemoveAll_removes_only. Qed.
Lemma dirish_RemoveAll t s : respects (dirish t) (os_RemoveAll s).
Proof. eapply respects_weaken; [apply shrinks_dirish|apply shrinks_RemoveAll]. Qed.
Lemma dirish_MkdirAll t s : respects (dirish t) (os_MkdirAll s).
Proof.
  intros w Hd n Hn. unfold os_MkdirAll in Hn. case_decide; [eauto|].
  destruct (mkdir_all_from_adds (resolve s) [] w) as [_ Hk]. destruct (Hk t) as [Heq|(_&Heq&_)]; [|congruence].
  rewrite Heq in Hn. eauto.
Qed.
Lemma dirish_fills t w w' : fills t w w' → dirish t w w'.
Proof. intros [_ Hk] Hd n. rewrite Hk by auto. apply Hd. Qed.
Lemma dirish_cp src dst : respects (dirish (resolve dst)) (exec_cp src dst).
Proof. eapply respects_weaken; [apply dirish_fills|apply fills_cp]. Qed.
(** A copy into a directory below [t]. *)
Lemma dirish_cp_below t src dst : ¬ resolve dst `prefix_of` t → respects (dirish t) (exec_cp src dst).
Proof.
  intros Hnp w Hd n. destruct (fills_cp src dst w) as [_ Hk]. rewrite Hk by auto. apply Hd.
Qed.

Lemma checkPathExist_false_honest s w w' :
  honest → s ≠ "" → checkPathExistFunc s w = (Ret false, w') → w_fs w !! resolve s = None.
Proof.
  intros Hh Hs. rewrite checkPathExist_run. unfold stat_result. intros [= Heq _].
  destruct (fault (w_tick w) SysStat s) as [e|] eqn:Hf; simpl in Heq.
  - destruct (decide (e = ENOENT)) as [->|Hne]; [by destruct (Hh _ _ _ Hf)|].
    by rewrite bool_decide_eq_false_2 in Heq.
  - rewrite decide_False in Heq by done. by destruct (w_fs w !! resolve s).
Qed.

Lemma GetSnapshotById_missing rl id w w' :
  honest → valid_name id → GetSnapshotById rl id w = (Ret None, w') → w_fs w !! snapDir rl id = None.
Proof.
  intros Hh Hid Hrun. unfold GetSnapshotById in Hrun. bind_inv Hrun res w1 Hres. apply try_inv in Hres.
  destruct res as [[n ct]|err].
  { destruct (negb _); [done|]. by bind_inv Hrun src w2 Hsrc. }
  destruct (errors_Is_NotExist err) eqn:He; [|done]. unfold os_StatInfo, reads, stat_result in Hres.
  unfold snapDir. rewrite <-(resolve_Join (path rl) id) by done. injection Hres as Hres _.
  destruct (fault (w_tick w) SysStat (Join [path rl; id])) as [e|] eqn:Hf.
  - injection Hres as <-. simpl in He. apply bool_decide_eq_true in He as ->. by destruct (Hh _ _ _ Hf).
  - rewrite decide_False in Hres by by apply Join_nonempty. by destruct (w_fs w !! _).
Qed.

(** A deletion that succeeded has removed everything. *)
Lemma Utils_DeleteVolume_gone base id w w' :
  honest → valid_name id → wf_fs (w_fs w) → Utils.DeleteVolume base id w = (Ret tt, w') →
  ∀ k, resolve base ++ [id] `prefix_of` k → w_fs w' !! k = None.
Proof.
  intros Hh Hid Hwf Hrun. rewrite <-resolve_Join by done. unfold Utils.DeleteVolume in Hrun.
  bind_inv Hrun r w1 Hr. apply try_inv in Hr. destruct r as [[]|e].
  { injection Hrun as <-. eapply RemoveAll_gone; [done|by apply Join_nonempty|done]. }
  destruct (os_IsNotExist e) eqn:He; [|done]. exfalso. unfold os_RemoveAll in Hr.
  rewrite decide_False, endsWithDot_Join in Hr by (done || by apply Join_nonempty).
  destruct (fault (w_tick w) SysRemoveAll _) as [en|] eqn:Hf.
  - injection Hr as <- _. simpl in He. apply bool_decide_eq_true in He as ->. by destruct (Hh _ _ _ Hf).
  - unfold busy_errno in Hr. repeat case_match; simplify_eq/=; done.
Qed.

Lemma Reflink_DeleteSnapshot_gone rl id w w' :
  honest → valid_name id → wf_fs (w_fs w) → Reflink.DeleteSnapshot rl id w = (Ret tt, w') →
  ∀ k, snapDir rl id `prefix_of` k → w_fs w' !! k = None.
Proof.
  intros Hh Hid Hwf Hrun k Hk. unfold Reflink.DeleteSnapshot in Hrun. bind_inv Hrun b w1 Hb.
  assert (resolve (Join [path rl; id]) = snapDir rl id) as Hres by by apply resolve_Join. destruct b.
  - apply checkPathExist_true in Hb as (->&_&_). eapply RemoveAll_gone; [|by apply Join_nonempty|exact Hrun|by rewrite Hres].
    done.
  - pose proof (checkPathExist_false_honest _ _ _ Hh (Join_nonempty (path rl) id Hid) Hb) as Hnone.
    apply checkPathExist_false in Hb as ->. injection Hrun as <-. rewrite Hres in Hnone. simpl.
    destruct (w_fs w !! k) as [n|] eqn:Hn; [|done].
    destruct (decide (snapDir rl id = k)) as [<-|Hne]; [congruence|].
    by rewrite (wf_prefix_dir _ _ _ _ Hwf Hk Hne Hn) in Hnone.
Qed.
End calls.
#[export] Hint Resolve shrinks_RemoveAll dirish_RemoveAll dirish_MkdirAll : go.

(** ** Volumes *)

Lemma failed_set_volume r c key v :
  names_volume key r →
  (∀ req, r = RDeleteVolume req → ∀ t', v = Some t' → ∃ t, volumes c !! key = Some t ∧ t' ⊆ t) →
  (∀ x, r = RCreateVolume (Some x) → snapshotOf x = None → set_volume key v c = c) →
  failed r c (set_volume key v c).
Proof.
  intros Hn Hdel Hcr. split; simpl.
  - intros key' Hn'. rewrite lookup_partial_alter_ne; [done|]. by intros ->.
  - done.
  - intros req Hr key' t' Ht. destruct (decide (key = key')) as [<-|Hne].
    + rewrite lookup_partial_alter_eq in Ht. by eapply Hdel.
    + rewrite lookup_partial_alter_ne in Ht by done. eauto.
  - intros req ->. by destruct Hn.
  - done.
Qed.

Lemma subtree_shrinks p w w' : shrinks w w' → subtree p (w_fs w') ⊆ subtree p (w_fs w).
Proof.
  intros Hs. apply map_subseteq_spec. intros rel x. rewrite !lookup_subtree. intros Hx.
  destruct (Hs (p ++ rel)) as [Heq|Heq]; congruence.
Qed.

Definition fstep_ok `{!Env} (hpc : hostPathController) (r : rpc) (o : outcome gerror reply) (w w' : world) : Prop :=
  good (cfg hpc) w' ∧ fspec hpc r o (catalog_of (cfg hpc) (w_fs w)) (catalog_of (cfg hpc) (w_fs w')).

Section requests.
Context `{!Env} (Hh : honest) (hpc : hostPathController) (Hlay : layout (cfg hpc)).
Context (Hrepos : repositories hpc (repos_of (cfg hpc))) (Hsafe : providers_safe hpc).

(** An answer of success that the contract covers. *)
Lemma fstep_done r a w w' : step_ok hpc r (Ret a) w w' → fstep_ok hpc r (Ret a) w w'.
Proof. intros [Hg Hs]. split; [done|]. by apply fspec_done. Qed.

(** A request that failed without a change. *)
Lemma fstep_quiet r o w w' :
  good (cfg hpc) w → w_fs w' = w_fs w → w_mounts w' = w_mounts w → is_ret o = false → fstep_ok hpc r o w w'.
Proof.
  intros Hg Hfs Hm Ho. split.
  - destruct Hg as [? ? ? Hfree]; split; unfold unmounted in *; by rewrite ?Hfs, ?Hm.
  - apply fspec_failed; [done|]. rewrite Hfs. apply failed_refl.
Qed.

Lemma good_change w w' p id :
  good (cfg hpc) w → entry_root (cfg hpc) p → wf_rel w w' → confined [p ++ [id]] w w' → dirish (p ++ [id]) w w' →
  good (cfg hpc) w' ∧ only_at (p ++ [id]) (w_fs w) (w_fs w').
Proof.
  intros Hg Hp Hwf Hc Hd. pose proof (confined_only _ _ _ _ _ Hg Hp Hc) as Honly. split; [|done].
  eapply good_entry; [done..|by apply Hwf, Hg|by destruct Hc|done|]. apply Hd. intros n Hn.
  by eapply (g_entries _ _ Hg).
Qed.

(** The state in which the content source of an accepted request is applied. *)
Lemma ret_inv_ensured r v w w' :
  good (cfg hpc) w → valid_name (cv_Name r) → CreateVolume hpc (Some r) w = (Ret v, w') →
  ∃ info st w1, accepted hpc r info ∧ statfs (w_tick w) (Path info) = inr st ∧ v = volume_of hpc r info st ∧
    w_fs w1 = ensure_dir (pool_root info ++ [cv_Name r]) (w_fs w) ∧ w_mounts w1 = w_mounts w ∧
    populateVolume hpc (getStoragePoolNameFromMap (cv_Parameters r)) r w1 = (Ret tt, w').
Proof.
  intros Hg Hname Hrun.
  destruct (CreateVolume_ret_inv hpc r v w w') as (info&st&w1&Hacc&Hst&Hv&_&Hm&Hframe&Hold&Hdir&Hpop);
    [done|apply Hg|done|].
  exists info, st, w1. split_and!; try done. apply map_eq. intros k. unfold ensure_dir.
  pose proof (g_roots _ _ Hg _ (pool_entry_root _ _ _ (acc_pool _ _ _ Hacc))) as Hroot.
  destruct (decide (k `prefix_of` pool_root info ++ [cv_Name r])) as [Hk|Hk].
  - destruct (w_fs w !! k) as [x|] eqn:Hx.
    + rewrite (Hold k x Hx). destruct (w_fs w !! (pool_root info ++ [cv_Name r])) eqn:Ht; [by rewrite Hx|].
      rewrite lookup_insert_ne; [done|]. intros <-. congruence.
    + apply prefix_snoc_inv in Hk as [->|Hk].
      * rewrite Hdir, Hx by done. by rewrite lookup_insert_eq.
      * exfalso. destruct (decide (k = pool_root info)) as [->|Hne]; [congruence|].
        by rewrite (wf_prefix_dir _ _ _ _ (g_wf _ _ Hg) Hk Hne Hroot) in Hx.
  - rewrite Hframe by done. destruct (w_fs w !! (pool_root info ++ [cv_Name r])); [done|].
    rewrite lookup_insert_ne; [done|]. intros <-. by apply Hk.
Qed.

Lemma create_done r v w w' :
  good (cfg hpc) w → regular (RCreateVolume (Some r)) → CreateVolume hpc (Some r) w = (Ret v, w') →
  step_ok hpc (RCreateVolume (Some r)) (Ret (ReplyVolume v)) w w'.
Proof.
  intros Hg [Hplain Hreg] Hrun. pose proof (Hplain r eq_refl) as Hname.
  destruct (ret_inv_ensured r v w w' Hg Hname Hrun) as (info&st&w1&Hacc&Hst&->&Hfs1&Hm1&Hpop).
  pose proof (acc_pool _ _ _ Hacc) as Hpool. pose proof (pool_entry_root _ _ _ Hpool) as Hroot.
  destruct (good_ensured hpc Hlay r info w w1) as (Hg1&Hd1&Hp1&Hs1); [done..|].
  pose proof (respects_populate_wf hpc Hsafe (getStoragePoolNameFromMap (cv_Parameters r)) r w1 (g_wf _ _ Hg1)) as Hwf.
  pose proof (respects_populate_confined hpc Hsafe _ info r Hpool w1) as Hc.
  rewrite Hpop in Hwf, Hc. cbn [snd] in Hwf, Hc. rewrite resolve_Join in Hc by done. fold (pool_root info) in Hc.
  pose proof (confined_only (cfg hpc) _ _ _ _ Hg1 Hroot Hc) as Honly. destruct Hc as [Hm _].
  assert (only_at (pool_root info ++ [cv_Name r]) (w_fs w) (w_fs w')) as Hall.
  { eapply only_at_trans; [|exact Honly]. rewrite Hfs1. apply only_at_ensure. }
  destruct (snapshotOf r) as [sid|] eqn:Hsrc.
  - pose proof (populate_ret hpc Hlay Hrepos _ _ r sid w1 w' Hpool Hg1 Hsrc (Hreg sid eq_refl) Hname Hd1 Hpop)
      as (sn&Hsn&Hv).
    rewrite Hs1 in Hsn. rewrite Hp1 in Hv.
    eapply step_volume; [done|done|exact Hpool|done|by rewrite Hm|exact Hall| |by eapply spec_restore]. exact Hv.
  - assert (w' = w1) as ->.
    { unfold populateVolume, snapshotOf in *.
      destruct (cv_VolumeContentSource r) as [[[s|]| |]|]; try done; by injection Hpop as <-. }
    eapply step_volume; [done|done|exact Hpool|done|done|exact Hall| |by eapply spec_create].
    rewrite Hfs1. by apply vol_at_ensure.
Qed.

Lemma dirish_DeleteVolume t base id : respects (dirish t) (Utils.DeleteVolume base id).
Proof. unfold Utils.DeleteVolume. respects_tac. Qed.
Lemma shrinks_DeleteVolume base id : respects shrinks (Utils.DeleteVolume base id).
Proof. unfold Utils.DeleteVolume. respects_tac. Qed.
Hint Resolve dirish_DeleteVolume shrinks_DeleteVolume : go.

(** The directory of the volume stays a directory until it is removed. *)
Lemma dirish_CreateVolume r info :
  valid_name (cv_Name r) → StoragePools (cfg hpc) !! getStoragePoolNameFromMap (cv_Parameters r) = Some info →
  respects (dirish (pool_root info ++ [cv_Name r])) (CreateVolume hpc (Some r)).
Proof.
  intros Hname Hpool.
  assert (∀ sid, respects (dirish (pool_root info ++ [cv_Name r]))
    (restoreFromSnapshot hpc sid (getStoragePoolNameFromMap (cv_Parameters r)) (cv_Name r))) as Hrest.
  { intros sid. unfold restoreFromSnapshot. rewrite Hrepos, lookup_fmap, (getPool_found _ _ _ Hpool).
    destruct (repos_of (cfg hpc) !! _) as [rl|]; simpl; [|respects_tac].
    eapply respects_weaken; [apply dirish_fills|]. unfold pool_root. rewrite <-resolve_Join by done.
    apply fills_restore. }
  unfold CreateVolume. apply respects_bind; [apply _|auto with go|intros []].
  apply respects_deref_bind; [apply _|]. intros r' [= <-].
  apply respects_bind; [apply _|auto with go|intros []]. rewrite Hpool.
  unfold createVolumeDirectoryFunc, populateVolume. respects_tac.
Qed.

(** A creation without a snapshot either succeeds or changes nothing. *)
Lemma create_plain_failed r w :
  good (cfg hpc) w → valid_name (cv_Name r) → snapshotOf r = None →
  is_ret (CreateVolume hpc (Some r) w).1 = false → w_fs (CreateVolume hpc (Some r) w).2 = w_fs w.
Proof.
  intros Hg Hname Hsrc. change (wp (CreateVolume hpc (Some r)) (λ o w', is_ret o = false → w_fs w' = w_fs w) w).
  assert (∀ w2, populateVolume hpc (getStoragePoolNameFromMap (cv_Parameters r)) r w2 = (Ret tt, w2)) as Hpop.
  { intros w2. unfold populateVolume, snapshotOf in *. by destruct (cv_VolumeContentSource r) as [[[s|]| |]|]. }
  unfold CreateVolume. apply wp_bind. destruct (validateCreateVolumeRequest (Some r)) as [e|]; [done|].
  apply wp_bind, wp_bind. destruct (validateCreateVolumeRequestTopology hpc r) as [e|]; [done|].
  cbn [bind_post]. unfold checkErr. apply wp_ret. cbn [bind_post].
  destruct (StoragePools (cfg hpc) !! _) as [info|] eqn:Hpool; [|done].
  pose proof (respects_dirCapacity quiet (Path info) w) as Hq. apply wp_bind.
  destruct (getVolumeDirCapacity (Path info) w) as [o w1] eqn:Hcap. apply (wp_run _ _ _ _ _ Hcap).
  destruct Hq as (Hfs&_&_). destruct o as [c|e|p]; cbn [bind_post]; [|done..]. cbn [snd] in Hfs.
  apply wp_bind. destruct (checkPathExistFunc (Join [Path info; cv_Name r]) w1) as [ob w2] eqn:Hb.
  assert (w_fs w2 = w_fs w1) as Hfs2.
  { rewrite checkPathExist_run in Hb. by injection Hb as _ <-. }
  apply (wp_run _ _ _ _ _ Hb). destruct ob as [[]|e|p]; cbn [bind_post]; [| |intros _; congruence..].
  - apply wp_bind, wp_ret. cbn [bind_post]. by apply wp_bind, (wp_run _ _ _ _ _ (Hpop w2)).
  - pose proof (checkPathExist_false_honest _ _ _ Hh (Join_nonempty _ _ Hname) Hb) as Hnone.
    rewrite resolve_Join in Hnone by done. fold (pool_root info) in Hnone.
    pose proof (g_roots _ _ Hg _ (pool_entry_root _ _ _ Hpool)) as Hroot.
    apply wp_bind, wp_wrapErr. unfold createVolumeDirectoryFunc, wp.
    rewrite (MkdirAll_new _ (pool_root info) (cv_Name r));
      [|rewrite Hfs2, Hfs; apply Hg|by apply Join_nonempty|by apply resolve_Join|by rewrite Hfs2, Hfs|by rewrite Hfs2].
    unfold mkdir_at. destruct (fault _ _ _) as [en|]; cbn [fst snd bind_post]; [intros _; simpl; congruence|].
    by apply wp_bind, (wp_run _ _ _ _ _ (Hpop _)).
Qed.

Lemma fault_CreateVolume req w :
  good (cfg hpc) w → regular (RCreateVolume req) →
  let run := answer ReplyVolume (CreateVolume hpc req) w in fstep_ok hpc (RCreateVolume req) run.1 w run.2.
Proof.
  intros Hg Hreg. cbv zeta. rewrite answer_run. cbn [fst snd]. destruct req as [r|]; [|by apply fstep_quiet].
  pose proof (proj1 Hreg r eq_refl) as Hname. pose proof (create_plain_failed r w Hg Hname) as Hplain.
  destruct (is_ret (CreateVolume hpc (Some r) w).1) eqn:Hret.
  { destruct (CreateVolume hpc (Some r) w) as [[v|e|p] w'] eqn:Hrun; [|done..]. by apply fstep_done, create_done. }
  assert (is_ret match (CreateVolume hpc (Some r) w).1 with
    | Ret a => Ret (ReplyVolume a) | Fail e => Fail e | Panic p => Panic p end = false) as Ho.
  { by destruct (CreateVolume hpc (Some r) w).1. }
  destruct (StoragePools (cfg hpc) !! getStoragePoolNameFromMap (cv_Parameters r)) as [info|] eqn:Hpool.
  2: { destruct (quiet_CreateVolume_unknown hpc r Hpool w) as (Hfs&Hm&_). by apply fstep_quiet. }
  pose proof (respects_CreateVolume_own hpc Hsafe r info Hpool w) as Hc.
  rewrite resolve_Join in Hc by done. fold (pool_root info) in Hc.
  destruct (good_change w (CreateVolume hpc (Some r) w).2 (pool_root info) (cv_Name r)) as [Hg' Honly];
    [done|by eapply pool_entry_root|by apply respects_CreateVolume_wf|done|by apply dirish_CreateVolume|].
  split; [done|]. apply fspec_failed; [done|].
  pose proof (catalog_volume (cfg hpc) Hlay (w_fs w) _ _ info (cv_Name r) Hpool Honly) as Hcat. rewrite Hcat.
  apply failed_set_volume; [done|done|]. intros x [= <-] Hs. rewrite <-Hcat, Hplain; done.
Qed.

Lemma shrinks_delete req : respects shrinks (DeleteVolume hpc req).
Proof. unfold DeleteVolume. respects_tac. Qed.

Lemma delete_done id w w' :
  good (cfg hpc) w → DeleteVolume hpc (Some id) w = (Ret tt, w') →
  step_ok hpc (RDeleteVolume (Some id)) (Ret ReplyDone) w w'.
Proof.
  intros Hg Hrun. pose proof (respects_DeleteVolume_wf hpc (Some id) w (g_wf _ _ Hg)) as Hwf.
  pose proof (shrinks_delete (Some id) w) as Hsh. rewrite Hrun in Hwf, Hsh. cbn [snd] in Hwf, Hsh.
  destruct (validateDeleteVolumeRequest (Some id)) as [e|] eqn:Hval.
  { unfold DeleteVolume in Hrun. by rewrite Hval in Hrun. }
  assert (id ≠ "") as Hid by by intros ->.
  rewrite DeleteVolume_run in Hrun by done. bind_inv Hrun dirs w1 Hdirs.
  pose proof (respects_getVolumeDirectories quiet hpc w) as Hq. rewrite Hdirs in Hq. cbn [snd] in Hq.
  apply directories_inv in Hdirs as ->. unfold dirs_of in Hrun. destruct Hq as (Hfs&Hm&Hgauge).
  destruct (findVolumePath_volume (w_fs w) (StoragePools (cfg hpc)) id (g_wf _ _ Hg))
    as [[Hf Hno]|(Hf&Hv&pool&info&Hpool&Hdir&Heq)].
  - rewrite decide_True in Hrun by done. injection Hrun as <-.
    apply step_quiet; [done|by split_and!|]. apply spec_delete_absent; [done|]. intros pool.
    destruct (volumes _ !! (pool, id)) as [t|] eqn:Ht; [|done].
    destruct (proj2 (has_volume_catalog hpc w id)) as (p&pool'&info&Hp&_&Hl); [by exists pool, t|].
    by destruct (Hno pool' info).
  - rewrite decide_False, Heq, Dir_Join in Hrun by done. apply wrapErr_ret_inv in Hrun.
    pose proof (Utils_DeleteVolume_gone (Clean (Path info)) id w1 w' Hh Hv) as Hgone.
    pose proof (respects_confined_DeleteVolume [pool_root info ++ [id]] (Clean (Path info)) id) as Hc.
    rewrite resolve_Clean in Hgone. fold (pool_root info) in Hgone. rewrite Hfs in Hgone.
    specialize (Hgone (g_wf _ _ Hg) Hrun).
    assert (confined [pool_root info ++ [id]] w w') as Hcw.
    { transitivity w1; [apply quiet_confined; by split_and!|].
      rewrite resolve_Join, resolve_Clean in Hc by done.
      specialize (Hc (confined_self _) w1). by rewrite Hrun in Hc. }
    eapply step_volume; [done|done|exact Hpool|done|by destruct Hcw| | |].
    + eapply confined_only; [done|by eapply pool_entry_root|exact Hcw].
    + instantiate (1 := None). by apply Hgone.
    + eapply spec_delete. rewrite lookup_volumes, Hpool. simpl. unfold vol_at. by rewrite Hdir.
Qed.

Lemma fault_DeleteVolume req w :
  good (cfg hpc) w →
  let run := answer (λ _, ReplyDone) (DeleteVolume hpc req) w in fstep_ok hpc (RDeleteVolume req) run.1 w run.2.
Proof.
  intros Hg. cbv zeta. rewrite answer_run. cbn [fst snd].
  destruct (is_ret (DeleteVolume hpc req w).1) eqn:Hret.
  { destruct (DeleteVolume hpc req w) as [[[]|e|p] w'] eqn:Hrun; [|done..].
    destruct req as [id|]; [|done]. by apply fstep_done, delete_done. }
  assert (is_ret match (DeleteVolume hpc req w).1 with
    | Ret a => Ret ReplyDone | Fail e => Fail e | Panic p => Panic p end = false) as Ho.
  { by destruct (DeleteVolume hpc req w).1. }
  destruct (DeleteVolume_frame hpc req w (g_wf _ _ Hg)) as [(Hfs&Hm&_)|(id&pool&info&->&Hv&Hpool&Hd&Hc)];
    [by apply fstep_quiet|].
  pose proof (shrinks_delete (Some id) w) as Hsh.
  destruct (good_change w (DeleteVolume hpc (Some id) w).2 (pool_root info) id) as [Hg' Honly];
    [done|by eapply pool_entry_root|by apply respects_DeleteVolume_wf|done|by apply shrinks_dirish|].
  split; [done|]. apply fspec_failed; [done|].
  rewrite (catalog_volume (cfg hpc) Hlay (w_fs w) _ pool info id Hpool Honly).
  apply failed_set_volume; [done| |done]. intros _ _ t' Ht. rewrite lookup_volumes, Hpool. simpl.
  unfold vol_at in *. rewrite Hd. destruct (w_fs (DeleteVolume hpc (Some id) w).2 !! _) as [[|]|]; [|done..].
  injection Ht as <-. eexists. split; [reflexivity|]. by apply subtree_shrinks.
Qed.

(** *** Creating snapshots *)

(** A change of at most one entry of a good state. *)
Definition entry_rel (p : GoPath.path) (id : string) (w w' : world) : Prop :=
  good (cfg hpc) w → good (cfg hpc) w' ∧ w_mounts w' = w_mounts w ∧ only_at (p ++ [id]) (w_fs w) (w_fs w').

#[local] Instance entry_rel_preorder p id : PreOrder (entry_rel p id).
Proof.
  split; [by intros w Hg|]. intros w1 w2 w3 H1 H2 Hg. destruct (H1 Hg) as (Hg1&Hm1&Ho1), (H2 Hg1) as (Hg2&Hm2&Ho2).
  split_and!; [done|congruence|by eapply only_at_trans].
Qed.
#[local] Instance entry_rel_tick p id : TickInv (entry_rel p id).
Proof. intros w Hg. split_and!; [by eapply good_quiet; [|done]|done|done]. Qed.

Lemma respects_entry {A} p id (m : M A) :
  entry_root (cfg hpc) p → respects wf_rel m → respects (confined [p ++ [id]]) m →
  respects (dirish (p ++ [id])) m → respects (entry_rel p id) m.
Proof.
  intros Hp Hwf Hc Hd w Hg. destruct (good_change w (m w).2 p id) as [? ?]; [done|done|apply Hwf|apply Hc|apply Hd|].
  split_and!; [done|by destruct (Hc w)|done].
Qed.

Lemma entry_Initialize rl pool p id :
  repos_of (cfg hpc) !! pool = Some rl → respects (entry_rel p id) (Initialize rl).
Proof.
  intros Hrl w Hg. unfold Initialize, ensurePathExists.
  rewrite MkdirAll_existing; [by split_and!|apply Hg|by eapply lay_repo|].
  apply (g_roots _ _ Hg). by eapply repo_entry_root.
Qed.

Lemma entry_Reflink_CreateSnapshot rl pool id src :
  repos_of (cfg hpc) !! pool = Some rl → valid_name id → valid_name src →
  respects (entry_rel (resolve (path rl)) id) (Reflink.CreateSnapshot rl id src).
Proof.
  intros Hrl Hid Hsrc.
  assert (∀ x, valid_name x → inside [resolve (path rl) ++ [id]] (resolve (Join [path rl; id; x]))) as Hin.
  { intros x Hx. rewrite resolve_Join3 by done. apply Exists_cons_hd. apply prefix_app. by exists [x]. }
  assert (inside [resolve (path rl) ++ [id]] (resolve (Join [path rl; id; dataPath]))) as Hdat by auto with go.
  assert (∀ s, respects (dirish (resolve (path rl) ++ [id])) (exec_cp s (Join [path rl; id; dataPath]))) as Hcp.
  { intros s. apply dirish_cp_below. rewrite resolve_Join3 by auto with go.
    change [id; dataPath] with ([id] ++ [dataPath]). rewrite app_assoc. apply not_prefix_snoc. }
  apply respects_entry; [by eapply repo_entry_root|..];
    unfold Reflink.CreateSnapshot, createSnapshotFromDir, getFileCreationTimeFunc, reflinkCopy; respects_tac.
Qed.

Lemma entry_CreateSnapshot r rl :
  repos_of (cfg hpc) !! getStoragePoolNameFromMap (cs_Parameters r) = Some rl →
  valid_name (cs_Name r) → valid_name (cs_SourceVolumeId r) →
  respects (entry_rel (resolve (path rl)) (cs_Name r)) (CreateSnapshot hpc (Some r)).
Proof.
  intros Hrl Hid Hsrc. destruct (repo_config _ _ _ Hrl) as (info&Hpool&Hsp&_).
  unfold CreateSnapshot. apply respects_bind; [apply _|auto with go|intros []].
  apply respects_deref_bind; [apply _|]. intros r' [= <-].
  rewrite Hpool, Hsp, Hrepos, lookup_fmap, Hrl. simpl.
  pose proof (entry_Initialize rl _ (resolve (path rl)) (cs_Name r) Hrl).
  pose proof (entry_Reflink_CreateSnapshot rl _ (cs_Name r) (cs_SourceVolumeId r) Hrl Hid Hsrc).
  pose proof (respects_GetSnapshotById (entry_rel (resolve (path rl)) (cs_Name r)) rl). respects_tac.
Qed.

Lemma failed_set_snapshot x c v : failed (RCreateSnapshot (Some x)) c (set_snapshot (snapKey x) v c).
Proof.
  split; simpl; try done. intros key' Hn'. by rewrite lookup_partial_alter_ne.
Qed.

(** The volume a snapshot was reported of was there, and the snapshot was not. *)
Lemma snapshot_done r rl s w w' :
  good (cfg hpc) w → regular (RCreateSnapshot (Some r)) →
  repos_of (cfg hpc) !! getStoragePoolNameFromMap (cs_Parameters r) = Some rl →
  w_fs w !! snapDir rl (cs_Name r) = None →
  Reflink.CreateSnapshot rl (cs_Name r) (cs_SourceVolumeId r) w = (Ret s, w') →
  step_ok hpc (RCreateSnapshot (Some r)) (Ret (ReplySnapshot s)) w w'.
Proof.
  intros Hg [Hplain _] Hrl Hnone Hrun. destruct (Hplain r eq_refl) as [Hid Hsrc].
  destruct (repo_config _ _ _ Hrl) as (info&Hpool&_&Hsp).
  pose proof (pool_entry_root _ _ _ Hpool) as Hroot. pose proof (g_wf _ _ Hg) as Hwf.
  pose proof (g_roots _ _ Hg _ (repo_entry_root _ _ _ Hrl)) as Hr.
  assert (volDir rl (cs_SourceVolumeId r) = pool_root info ++ [cs_SourceVolumeId r]) as Hvd
    by (unfold volDir, pool_root; by rewrite Hsp).
  assert (w_fs w !! volDir rl (cs_SourceVolumeId r) = Some NDir) as Hdir.
  { unfold Reflink.CreateSnapshot in Hrun. bind_inv Hrun b w1 Hb. destruct b; [|done].
    apply checkPathExist_true in Hb as (_&_&[n Hn]). rewrite resolve_Join in Hn by done.
    unfold volDir. rewrite Hn. f_equal. rewrite <-Hsp in Hn. by eapply (g_entries _ _ Hg). }
  assert (separate rl) as Hsep.
  { destruct (lay_cross _ Hlay _ _ _ _ Hpool Hrl) as [??]. unfold separate. by rewrite <-Hsp. }
  destruct (CreateSnapshot_created rl _ _ w s w' Hsep Hid Hsrc Hwf Hr Hnone Hdir Hrun) as [Hc (Hi&Hs&Hready)].
  destruct (entry_Reflink_CreateSnapshot rl _ (cs_Name r) (cs_SourceVolumeId r) Hrl Hid Hsrc w Hg) as (Hg'&Hm&Honly).
  rewrite Hrun in Hg', Hm, Honly. cbn [snd] in Hg', Hm, Honly.
  eapply (step_snapshot hpc Hlay _ _ _ _ _ rl _
    (Snap (recorded (cs_SourceVolumeId r)) (subtree (volDir rl (cs_SourceVolumeId r)) (w_fs w))));
    [exact Hg|exact Hrl|apply Hg'|done|exact Honly| |].
  - unfold snap_at. rewrite (created_dir _ _ _ _ _ Hc), (source_of_recorded rl _ (cs_SourceVolumeId r)).
    + do 2 f_equal. apply subtree_eq, (created_data _ _ _ _ _ Hc).
    + apply Hc.
    + intros c Hl. apply (created_only _ _ _ _ _ Hc). by eexists.
  - eapply spec_snapshot; [| |done|done|done].
    + unfold srcKey. rewrite lookup_volumes, Hpool. simpl. unfold vol_at. by rewrite <-Hvd, Hdir.
    + unfold snapKey. rewrite lookup_snapshots, Hrl. simpl. unfold snap_at. by rewrite Hnone.
Qed.

Lemma snapshot_answered r rl s w w' :
  good (cfg hpc) w → regular (RCreateSnapshot (Some r)) →
  repos_of (cfg hpc) !! getStoragePoolNameFromMap (cs_Parameters r) = Some rl →
  CreateSnapshot hpc (Some r) w = (Ret s, w') →
  step_ok hpc (RCreateSnapshot (Some r)) (Ret (ReplySnapshot s)) w w'.
Proof.
  intros Hg Hreg Hrl Hrun. destruct (proj1 Hreg r eq_refl) as [Hid Hsrc].
  destruct (repo_config _ _ _ Hrl) as (info&Hpool&Hsp&_). unfold CreateSnapshot in Hrun.
  rewrite validateCreateSnapshot_ok in Hrun by done. erewrite !run_bind_ret in Hrun by done.
  rewrite Hpool, Hsp, Hrepos, lookup_fmap, Hrl in Hrun. cbn [fmap option_fmap option_map] in Hrun.
  bind_inv Hrun b w1 Hb. bind_inv Hrun u w2 Hinit. bind_inv Hrun found w3 Hfound.
  assert (quiet w w3) as Hq.
  { rewrite checkPathExist_run in Hb. injection Hb as _ <-. transitivity w2.
    - destruct b; [by injection Hinit as _ <-|]. apply wrapErr_ret_inv in Hinit. cbn in Hinit.
      unfold Initialize, ensurePathExists in Hinit.
      rewrite MkdirAll_existing in Hinit; [by injection Hinit as _ <-|apply Hg|by eapply lay_repo|].
      apply (g_roots _ _ Hg). by eapply repo_entry_root.
    - pose proof (respects_GetSnapshotById quiet rl (cs_Name r) w2) as Hq.
      apply wrapErr_ret_inv in Hfound. cbn in Hfound. by rewrite Hfound in Hq. }
  assert (w_fs w2 = w_fs w) as Hfs2.
  { pose proof (respects_GetSnapshotById quiet rl (cs_Name r) w2) as Hq2. apply wrapErr_ret_inv in Hfound.
    cbn in Hfound. rewrite Hfound in Hq2. destruct Hq as (H1&_), Hq2 as (H2&_). cbn [snd] in H2. congruence. }
  apply wrapErr_ret_inv in Hfound. cbn in Hfound. destruct found as [sn|].
  - case_decide as Hs; [|done]. injection Hrun as <- <-.
    destruct (GetSnapshotById_held rl (cs_Name r) w2 sn w3 Hid Hfound) as [(Hd&Hso&Hready) Hi].
    rewrite Hfs2, Hi in *. apply step_quiet; [done|done|].
    eapply (spec_snapshot_again _ r (Snap (Some (SourceVolumeId sn)) _)); [|cbn; by rewrite Hs|done|by split].
    unfold snapKey. rewrite lookup_snapshots, Hrl. simpl. unfold snap_at. by rewrite Hd, Hso.
  - apply GetSnapshotById_missing in Hfound; [|done|done]. rewrite Hfs2 in Hfound.
    assert (w_fs w3 = w_fs w) as Hfs3 by apply Hq.
    destruct (snapshot_done r rl s w3 w') as [Hg' Hs];
      [by eapply good_quiet|done|done|by rewrite Hfs3|done|]. rewrite Hfs3 in Hs. by split.
Qed.

Lemma fault_CreateSnapshot req w :
  good (cfg hpc) w → regular (RCreateSnapshot req) →
  let run := answer ReplySnapshot (CreateSnapshot hpc req) w in fstep_ok hpc (RCreateSnapshot req) run.1 w run.2.
Proof.
  intros Hg Hreg. cbv zeta. rewrite answer_run. cbn [fst snd]. destruct req as [r|]; [|by apply fstep_quiet].
  destruct (proj1 Hreg r eq_refl) as [Hid Hsrc].
  destruct (repos_of (cfg hpc) !! getStoragePoolNameFromMap (cs_Parameters r)) as [rl|] eqn:Hrl.
  2: { destruct (snapshot_without_repo hpc Hrepos r w Hid Hsrc Hrl) as [e ->]. by apply fstep_quiet. }
  destruct (entry_CreateSnapshot r rl Hrl Hid Hsrc w Hg) as (Hg'&_&Honly).
  destruct (CreateSnapshot hpc (Some r) w) as [o w'] eqn:Hrun. cbn [fst snd] in *. destruct o as [s|e|p].
  { by eapply fstep_done, snapshot_answered. }
  all: split; [done|]; apply fspec_failed; [done|];
    rewrite (catalog_snapshot (cfg hpc) Hlay (w_fs w) _ _ rl (cs_Name r) Hrl Honly); apply failed_set_snapshot.
Qed.

(** *** Deleting snapshots *)

Definition snapDirs (id : string) : list GoPath.path :=
  (λ kv : string * Reflink, snapDir kv.2 id) <$> map_to_list (repos_of (cfg hpc)).

Lemma elem_of_snapDirs id k :
  inside (snapDirs id) k ↔ ∃ pool rl, repos_of (cfg hpc) !! pool = Some rl ∧ snapDir rl id `prefix_of` k.
Proof.
  unfold inside, snapDirs. rewrite Exists_exists. setoid_rewrite list_elem_of_fmap. split.
  - intros (p&([pool rl]&->&Hin%elem_of_map_to_list)&Hk). eauto.
  - intros (pool&rl&Hrl&Hk). exists (snapDir rl id). split; [|done]. exists (pool, rl).
    split; [done|]. by apply elem_of_map_to_list.
Qed.

Lemma deleteSnapshots_respects R `{!PreOrder R, !TickInv R} id :
  (∀ pool rl, repos_of (cfg hpc) !! pool = Some rl → respects R (Reflink.DeleteSnapshot rl id)) →
  respects R (DeleteSnapshot hpc (Some id)).
Proof.
  intros HR. unfold DeleteSnapshot. case_match; [respects_tac|].
  apply respects_range_elems; [apply _..|]. intros l Hl. apply respects_foldM; [apply _|].
  intros b [pool p] Hin. specialize (Hl _ Hin). rewrite Hrepos, lookup_fmap_Some in Hl.
  destruct Hl as (rl&<-&Hrl). simpl. by eapply HR.
Qed.

Lemma shrinks_Reflink_DeleteSnapshot rl id : respects shrinks (Reflink.DeleteSnapshot rl id).
Proof. unfold Reflink.DeleteSnapshot. respects_tac. Qed.

(** What is not in a snapshot of the id stays as it is. *)
Lemma deleteSnapshots_keeps id w k :
  good (cfg hpc) w → valid_name id →
  (∀ pool rl, repos_of (cfg hpc) !! pool = Some rl → ¬ snapDir rl id `prefix_of` k) →
  w_fs (DeleteSnapshot hpc (Some id) w).2 !! k = w_fs w !! k.
Proof.
  intros Hg Hid Hk.
  assert (confined (snapDirs id) w (DeleteSnapshot hpc (Some id) w).2) as [_ Hc].
  { apply (deleteSnapshots_respects (confined (snapDirs id)) id). intros pool rl Hrl. unfold Reflink.DeleteSnapshot.
    assert (inside (snapDirs id) (resolve (Join [path rl; id]))).
    { rewrite resolve_Join by done. apply elem_of_snapDirs. eauto. }
    respects_tac. }
  destruct (deleteSnapshots_respects shrinks id) with (w := w) (k := k) as [?|Hnone]; [|done|].
  { intros. apply shrinks_Reflink_DeleteSnapshot. }
  destruct (Hc) with (k := k) as [?|(_&?&_)]; [..|done|congruence].
  - intros mp Hmp (pool&rl&Hrl&Hpre)%elem_of_snapDirs. apply (g_free _ _ Hg mp Hmp).
    eapply inside_below; [by apply entry_root_inside; eapply repo_entry_root|].
    etransitivity; [|exact Hpre]. by exists [id].
  - intros (pool&rl&Hrl&Hpre)%elem_of_snapDirs. by apply (Hk pool rl).
Qed.

(** A loop that succeeded has removed the snapshot from every repository it visited. *)
Lemma deleteSnapshots_gone id (l : list (string * SnapshotProvider)) w w' :
  valid_name id → wf_fs (w_fs w) →
  (∀ kv, kv ∈ l → ∃ rl, repos_of (cfg hpc) !! kv.1 = Some rl ∧ kv.2 = reflinkProvider rl) →
  foldM (λ _ kv, sp_DeleteSnapshot kv.2 id) tt l w = (Ret tt, w') →
  ∀ pool rl k, (pool, reflinkProvider rl) ∈ l → repos_of (cfg hpc) !! pool = Some rl →
    snapDir rl id `prefix_of` k → w_fs w' !! k = None.
Proof.
  intros Hid. revert w. induction l as [|[pool0 p0] l IH]; intros w Hwf Hl Hrun pool rl k Hin Hrl Hk.
  { by apply not_elem_of_nil in Hin. }
  cbn [foldM] in Hrun. bind_inv Hrun u w1 Hdel. destruct u.
  destruct (Hl (pool0, p0)) as (rl0&Hrl0&Hp0); [left|]. cbn [fst snd] in *. subst p0. cbn in Hdel.
  assert (wf_fs (w_fs w1)) as Hwf1.
  { pose proof (respects_wf_RemoveAll (Join [path rl0; id])) as Hw.
    assert (respects wf_rel (Reflink.DeleteSnapshot rl0 id)) as Hd by (unfold Reflink.DeleteSnapshot; respects_tac).
    specialize (Hd w Hwf). by rewrite Hdel in Hd. }
  assert (∀ kv, kv ∈ l → ∃ rl, repos_of (cfg hpc) !! kv.1 = Some rl ∧ kv.2 = reflinkProvider rl) as Hl'.
  { intros kv Hkv. apply Hl. by right. }
  assert (shrinks w1 w') as Hsh.
  { assert (respects shrinks (foldM (λ _ (kv : string * SnapshotProvider), sp_DeleteSnapshot kv.2 id) tt l)) as Hr.
    { apply respects_foldM; [apply _|]. intros b kv Hkv. destruct (Hl' kv Hkv) as (rl'&_&->).
      apply shrinks_Reflink_DeleteSnapshot. }
    specialize (Hr w1). by rewrite Hrun in Hr. }
  apply elem_of_cons in Hin as [[= -> _]|Hin]; [|by eapply IH].
  rewrite Hrl in Hrl0. injection Hrl0 as <-.
  pose proof (Reflink_DeleteSnapshot_gone rl id w w1 Hh Hid Hwf Hdel k Hk) as Hgone.
  destruct (Hsh k) as [Heq|Heq]; congruence.
Qed.

Lemma shrunk_good w w' :
  good (cfg hpc) w → shrinks w w' → wf_fs (w_fs w') → w_mounts w' = w_mounts w →
  (∀ p, entry_root (cfg hpc) p → w_fs w' !! p = w_fs w !! p) → good (cfg hpc) w'.
Proof.
  intros Hg Hsh Hwf Hm Hroots. split; [done|..|unfold unmounted; rewrite Hm; apply Hg].
  - intros p Hp. rewrite Hroots by done. by apply (g_roots _ _ Hg).
  - intros p i n Hp. apply (shrinks_dirish _ _ _ Hsh). intros n'. by apply (g_entries _ _ Hg).
Qed.

(** A deletion of snapshots that stopped half-way. *)
Lemma deleted_some id w w' :
  shrinks w w' → (∀ k, (∀ pool rl, repos_of (cfg hpc) !! pool = Some rl → ¬ snapDir rl id `prefix_of` k) →
    w_fs w' !! k = w_fs w !! k) →
  failed (RDeleteSnapshot (Some id)) (catalog_of (cfg hpc) (w_fs w)) (catalog_of (cfg hpc) (w_fs w')).
Proof.
  intros Hsh Hkeep. split; try done.
  - intros [pool i] _. rewrite !lookup_volumes.
    destruct (StoragePools (cfg hpc) !! pool) as [info|] eqn:Hp; [|done]. simpl.
    apply vol_at_ext. intros k Hk. apply Hkeep. intros pool' rl Hrl. by eapply (pool_not_in_snapshot hpc Hlay pool info).
  - intros [pool i] Hn. simpl in Hn. rewrite !lookup_snapshots.
    destruct (repos_of (cfg hpc) !! pool) as [rl|] eqn:Hrl; [|done]. simpl.
    apply snap_at_ext. intros k Hk. apply Hkeep. intros pool' rl' Hrl'.
    by eapply (snapshot_not_in_other hpc Hlay pool rl i).
  - intros req _ [pool i] sn'. rewrite !lookup_snapshots.
    destruct (repos_of (cfg hpc) !! pool) as [rl|] eqn:Hrl; [|done]. simpl. unfold snap_at.
    destruct (Hsh (snapDir rl i)) as [-> | ->]; [|done].
    destruct (w_fs w !! snapDir rl i) as [[|]|]; [|done..]. intros [= <-].
    eexists. split; [reflexivity|]. by apply subtree_shrinks.
Qed.

Lemma fault_DeleteSnapshot req w :
  good (cfg hpc) w → regular (RDeleteSnapshot req) →
  let run := answer (λ _, ReplyDone) (DeleteSnapshot hpc req) w in fstep_ok hpc (RDeleteSnapshot req) run.1 w run.2.
Proof.
  intros Hg [Hplain _]. cbv zeta. rewrite answer_run. cbn [fst snd]. destruct req as [id|]; [|by apply fstep_quiet].
  pose proof (Hplain id eq_refl) as Hid.
  pose proof (λ k, deleteSnapshots_keeps id w k Hg Hid) as Hkeep.
  pose proof (respects_DeleteSnapshot_wf hpc Hsafe (Some id) w (g_wf _ _ Hg)) as Hwf.
  pose proof (deleteSnapshots_respects shrinks id (λ _ _ _, shrinks_Reflink_DeleteSnapshot _ _) w) as Hsh.
  assert (w_mounts (DeleteSnapshot hpc (Some id) w).2 = w_mounts w) as Hm.
  { by destruct (DeleteSnapshot_footprint hpc Hsafe id Hid w). }
  destruct (DeleteSnapshot hpc (Some id) w) as [o w'] eqn:Hrun. cbn [fst snd] in *.
  assert (good (cfg hpc) w') as Hg'.
  { eapply shrunk_good; [done|done|done|done|]. intros p Hp. apply Hkeep. intros pool rl Hrl Hpre.
    destruct (entry_roots_apart _ _ _ Hlay (repo_entry_root _ _ _ Hrl) Hp) as [<-|[Hap _]].
    - by apply not_prefix_snoc in Hpre.
    - apply Hap. etransitivity; [|exact Hpre]. by exists [id]. }
  split; [done|]. destruct o as [[]|e|p]; [apply fspec_done|by apply fspec_failed, deleted_some..].
  rewrite (deleted_catalog hpc Hlay id w w'); [apply spec_delete_snapshot| |done].
  intros pool rl Hrl k Hk. unfold DeleteSnapshot in Hrun. case_match; [done|].
  bind_inv Hrun l w1 Hl. unfold range_map, reads in Hl. injection Hl as <- <-.
  eapply (deleteSnapshots_gone id _ (tickw w) w'); [done|apply Hg| |exact Hrun| |exact Hrl|exact Hk].
  - intros [pool' p]. rewrite range_order_perm, elem_of_map_to_list, Hrepos, lookup_fmap_Some.
    intros (rl'&<-&Hrl'). by exists rl'.
  - rewrite range_order_perm, elem_of_map_to_list, Hrepos, lookup_fmap_Some. by exists rl.
Qed.

(** *** Every request *)

Lemma fault_call `{!FindMnt} r w :
  good (cfg hpc) w → regular r → fstep_ok hpc r (call hpc r w).1 w (call hpc r w).2.
Proof.
  intros Hg Hreg.
  assert (∀ o, quiet w (call hpc r w).2 → (∀ a, o = Ret a → spec hpc r (Ret a) (catalog_of (cfg hpc) (w_fs w))
    (catalog_of (cfg hpc) (w_fs w))) → fstep_ok hpc r o w (call hpc r w).2) as Hlook.
  { intros o Hq Ho. destruct o as [a|e|p].
    - apply fstep_done, step_quiet; [done|done|]. by apply Ho.
    - by destruct Hq as (Hfs&Hm&_); apply fstep_quiet.
    - by destruct Hq as (Hfs&Hm&_); apply fstep_quiet. }
  destruct r as [req|req|req|req|req|req|req|req|req|req|req|req].
  - by apply fault_CreateVolume.
  - by apply fault_DeleteVolume.
  - apply Hlook; [by apply quiet_call|]. intros. apply spec_validate.
  - apply Hlook; [by apply quiet_call|]. intros. apply spec_capacity.
  - apply Hlook; [by apply quiet_call|]. simpl. rewrite answer_run. cbn [fst]. intros a Ha.
    destruct (ListVolumes hpc req w) as [[l|e|p] w'] eqn:Hrun; cbn [fst] in Ha; [|done..]. injection Ha as <-.
    apply spec_list. by eapply ListVolumes_sound.
  - apply Hlook; [by apply quiet_call|]. simpl. rewrite answer_run. cbn [fst]. intros a Ha.
    destruct (ControllerGetVolume hpc req w) as [[l|e|p] w'] eqn:Hrun; cbn [fst] in Ha; [|done..]. injection Ha as <-.
    destruct req as [id|]; [|done]. destruct (ControllerGetVolume_sound hpc id w l w' Hg Hrun). by apply spec_get.
  - by apply fault_CreateSnapshot.
  - by apply fault_DeleteSnapshot.
  - apply Hlook; [by apply quiet_call|]. simpl. rewrite answer_run. cbn [fst]. intros a Ha.
    destruct (ListSnapshots hpc req w) as [[l|e|p] w'] eqn:Hrun; cbn [fst] in Ha; [|done..]. injection Ha as <-.
    apply spec_list_snapshots. destruct req as [x|]; [|done]. eapply ListSnapshots_sound; [done|done|apply Hreg|done].
  - by destruct Hreg.
  - by destruct Hreg.
  - by destruct Hreg.
Qed.
End requests.

(** ** Runs *)

Inductive fspec_trace `{!Env} (hpc : hostPathController) :
    catalog → list (rpc * outcome gerror reply) → catalog → Prop :=
  | fspec_trace_nil c : fspec_trace hpc c [] c
  | fspec_trace_cons r o c c1 tr c' :
      fspec hpc r o c c1 → fspec_trace hpc c1 tr c' → fspec_trace hpc c ((r, o) :: tr) c'.

Lemma trace_truthful `{!Env, !FindMnt} hpc w tr w' :
  honest → layout (cfg hpc) → repositories hpc (repos_of (cfg hpc)) → providers_safe hpc →
  good (cfg hpc) w → trace hpc w tr w' →
  good (cfg hpc) w' ∧ fspec_trace hpc (catalog_of (cfg hpc) (w_fs w)) tr (catalog_of (cfg hpc) (w_fs w')).
Proof.
  intros Hh Hlay Hrepos Hsafe Hg Htr. induction Htr as [w|r w tr w' Hreg _ IH]; [by split; [|constructor]|].
  destruct (fault_call Hh hpc Hlay Hrepos Hsafe r w Hg Hreg) as [Hg1 Hspec].
  destruct (IH Hg1) as [? ?]. split; [done|]. by econstructor.
Qed.

Lemma fspec_keeps_volume `{!Env} hpc r o c c' key :
  fspec hpc r o c c' → ¬ names_volume key r → volumes c' !! key = volumes c !! key.
Proof. intros [a c1 c1' Hs|o1 c1 c1' _ Hf] Hn; [by eapply spec_keeps_volume|by apply (fl_volumes _ _ _ Hf)]. Qed.

Lemma fspec_trace_keeps_volume `{!Env} hpc c tr c' key :
  fspec_trace hpc c tr c' → Forall (λ ro : rpc * outcome gerror reply, ¬ names_volume key ro.1) tr →
  volumes c' !! key = volumes c !! key.
Proof.
  induction 1 as [|r o c c1 tr c' Hs _ IH]; [done|]. intros [Hn Hall]%Forall_cons_1.
  rewrite IH by done. by eapply fspec_keeps_volume.
Qed.

(** ** The theorems *)

(** C2: The answers of the controller can be trusted when the system fails under it. Whatever
    system calls fail and with whatever errors, as long as none reports a file missing that is
    there, on a configuration whose pools and snapshot directories do not overlap, in a state in
    which they are in place, hold nothing but directories and have no mounts inside them, every
    sequence of requests with plain names leaves such a state again. Request by request, an answer
    of success means exactly what the contract says it does: a volume is there, with the contents
    of the snapshot copied over what it held if it was made from one; a snapshot that is new holds
    what its volume held, one that was there already is reported as it is (a copy that failed
    earlier may have left it incomplete); a deleted volume is gone from one of the pools that had
    it, if any did, a deleted snapshot from all of them; what is listed is there. A request that
    failed has changed no volume and no snapshot but those it names, a failed deletion has removed
    files and added none, and a failed creation of an empty volume has changed nothing. *)
Theorem controller_truthful `{!Env, !FindMnt} config w0 hpc w tr w' :
  honest → layout config → NewHostPathController config w0 = (Ret hpc, w) → good config w →
  trace hpc w tr w' →
  good config w' ∧ fspec_trace hpc (catalog_of config (w_fs w)) tr (catalog_of config (w_fs w')).
Proof.
  intros Hh Hlay Hnew Hg Htr. destruct (built_controller _ _ _ _ Hnew) as (<-&Hrepos&Hsafe).
  by apply trace_truthful.
Qed.

(** C15: A volume is durable: its contents stay exactly the same, under any sequence of controller
    requests with plain names of which none creates a volume of its name in its pool or deletes
    its id, also when snapshots of it are taken, restored and deleted, other volumes come and go,
    and system calls and copies fail. *)
Theorem volume_durable `{!Env, !FindMnt} config w0 hpc w tr w' pool info id :
  honest → layout config → NewHostPathController config w0 = (Ret hpc, w) → good config w →
  StoragePools config !! pool = Some info → w_fs w !! (pool_root info ++ [id]) = Some NDir →
  trace hpc w tr w' → Forall (λ ro : rpc * outcome gerror reply, ¬ names_volume (pool, id) ro.1) tr →
  ∀ rel, w_fs w' !! (pool_root info ++ [id] ++ rel) = w_fs w !! (pool_root info ++ [id] ++ rel).
Proof.
  intros Hh Hlay Hnew Hg Hp Hd Htr Hall rel. destruct (built_controller _ _ _ _ Hnew) as (<-&Hrepos&Hsafe).
  destruct (trace_truthful hpc w tr w') as [_ Hspec]; [done..|].
  pose proof (fspec_trace_keeps_volume _ _ _ _ _ Hspec Hall) as Hkey.
  rewrite !lookup_volumes, Hp in Hkey. simpl in Hkey. unfold vol_at in Hkey. rewrite Hd in Hkey.
  destruct (w_fs w' !! (pool_root info ++ [id])) as [[|]|]; [|done..]. injection Hkey as Hsub.
  rewrite app_assoc, <-!lookup_subtree. by rewrite Hsub.
Qed.

(** ** A concrete run *)

#[local] Existing Instance demoFindmnt.

(** Nothing can be deleted. *)
Definition brokenEnv : Env :=
  demoEnv (λ _ k _, match k with SysRemoveAll => Some EIO | _ => None end) (λ _ _, inr demo_statfs)
    (λ _ _, (1700000000, 5)) (λ _, true).
Definition brokenBuilt : hostPathController :=
  match (NewHostPathController (H := brokenEnv) demoConfig demoPools).1 with Ret h => h | _ => demoController end.

Definition brokenRun : list (rpc * outcome gerror reply) * world :=
  runs (H := brokenEnv) brokenBuilt demoRun (tickw demoPools).

Lemma broken_honest : honest (H := brokenEnv).
Proof. intros n k s. simpl. by destruct k. Qed.

(** The deletion of "vol2" fails and "vol2" is still there. *)
Lemma controller_truthful_witness :
  fspec_trace (H := brokenEnv) brokenBuilt (catalog_of demoConfig (w_fs demoPools)) brokenRun.1
    (catalog_of demoConfig (w_fs brokenRun.2)) ∧
  (is_ret <$> brokenRun.1.*2 = [true; true; false])%list.
Proof.
  split; [|vm_compute; reflexivity].
  destruct (controller_truthful (H := brokenEnv) demoConfig demoPools brokenBuilt (tickw demoPools)
    brokenRun.1 brokenRun.2) as [_ Hs];
    [apply broken_honest|apply demo_layout|reflexivity|apply demo_good
    |apply (runs_trace (H := brokenEnv)), demo_regular|exact Hs].
Defined.

Lemma volume_durable_witness :
  w_fs brokenRun.2 !! ["data"; "vol1"; "disk.img"]
    = Some (NFile "abc").
Proof.
  etransitivity; [apply (volume_durable (H := brokenEnv) demoConfig demoPools brokenBuilt (tickw demoPools)
    brokenRun.1 brokenRun.2 "legacy" demoLegacy "vol1"
    ) with (rel := ["disk.img"])|vm_compute; reflexivity];
    [apply broken_honest|apply demo_layout|reflexivity|apply demo_good|reflexivity|vm_compute; reflexivity
    |apply (runs_trace (H := brokenEnv)), demo_regular|].
  apply (runs_requests (H := brokenEnv) brokenBuilt demoRun _ (λ r, ¬ names_volume ("legacy", "vol1") r)).
  repeat constructor; by intros ?.
Defined.
