(* ===== verification/Replies.v ===== *)
(** * The answers as CSI messages

    What the CSI specification demands of the fields of an answer: ids that
    are not empty, sizes that are not negative and fit into 64 bits. *)
From S2P Require Import Prelude GoStrings GoPath GoErrors OS OSFacts Demo Csi Utils Health Reflink.
From S2P Require Import ReflinkFacts ControllerServer ControllerFacts ControllerProps.
From S2P Require Import ControllerList ControllerSnap FindMnt NodeServer NodeStats System.
From S2P Require Import Catalog CatalogSpec CatalogRefine CatalogTrace Driver.
Open Scope Z_scope.

(** What the kernel reports is consistent, and no file system has 2^63 bytes or inodes. *)
Record sane_statfs (st : Statfs_t) : Prop := {
  ss_blocks : 0 ≤ Bavail st ≤ Bfree st ∧ Bfree st ≤ Blocks st < 2 ^ 63;
  ss_bytes : 0 ≤ Bsize st < 2 ^ 63 ∧ Blocks st * Bsize st < 2 ^ 63;
  ss_inodes : 0 ≤ Ffree st ≤ Files st ∧ Files st < 2 ^ 63;
}.
Definition sane_kernel `{!Env} : Prop := ∀ n s st, statfs n s = inr st → sane_statfs st.

(** ** Messages *)

Definition size_ok (z : Z) : Prop := 0 ≤ z < 2 ^ 63.
Definition volume_ok (v : Volume) : Prop := v_VolumeId v ≠ "" ∧ size_ok (v_CapacityBytes v).
Definition snapshot_ok (s : Snapshot) : Prop :=
  SnapshotId s ≠ "" ∧ SourceVolumeId s ≠ "" ∧ ReadyToUse s = true.
Definition usage_ok (u : VolumeUsage) : Prop :=
  size_ok (u_Total u) ∧ 0 ≤ u_Available u ≤ u_Total u ∧ 0 ≤ u_Used u ≤ u_Total u.

Definition reply_ok (a : reply) : Prop :=
  match a with
  | ReplyVolume v => volume_ok v
  | ReplyCapacity g => size_ok (gc_MaximumVolumeSize g) ∧ 0 ≤ gc_AvailableCapacity g ≤ gc_MaximumVolumeSize g ∧
                       gc_MinimumVolumeSize g = 0
  | ReplyVolumes l => Forall (λ e, volume_ok (ve_Volume e)) (lv_Entries l)
  | ReplyEntry e => volume_ok (ve_Volume e)
  | ReplySnapshot s => snapshot_ok s
  | ReplySnapshots l => Forall snapshot_ok (ls_Entries l)
  | ReplyStats s => Forall usage_ok (ns_Usage s)
  | ReplyDone | ReplyConfirmed _ => True
  end.

(** ** Sizes *)

Lemma stats_ok st : sane_statfs st →
  size_ok (st_capacity (fsStats st)) ∧ 0 ≤ st_available (fsStats st) ≤ st_capacity (fsStats st) ∧
  0 ≤ st_used (fsStats st) ≤ st_capacity (fsStats st) ∧
  size_ok (st_inodes (fsStats st)) ∧ 0 ≤ st_inodesFree (fsStats st) ≤ st_inodes (fsStats st) ∧
  0 ≤ st_inodesUsed (fsStats st) ≤ st_inodes (fsStats st).
Proof.
  intros [Hb Hs Hi]. unfold size_ok, fsStats. simpl.
  assert (0 ≤ Bavail st * Bsize st ≤ Bfree st * Bsize st ∧ Bfree st * Bsize st ≤ Blocks st * Bsize st) by nia.
  rewrite (int64_id (Bavail st)), (int64_id (Bsize st)), (int64_id (Blocks st)), (int64_id (Bfree st)),
    (int64_id (Files st)), (int64_id (Ffree st)) by (unfold is_int64; lia).
  rewrite (int64_id (Blocks st - Bfree st)), (int64_id (Files st - Ffree st)) by (unfold is_int64; lia).
  rewrite Z.mul_sub_distr_r. rewrite !int64_id by (unfold is_int64; lia). lia.
Qed.

Section sizes.
Context `{!Env}.
Hypothesis Hsane : sane_kernel.

(** What an operation answers, when it answers. *)
Definition answers {A} (P : A → Prop) (m : M A) : Prop := ∀ w a w', m w = (Ret a, w') → P a.

Lemma answers_bind {A B} (Q : A → Prop) (P : B → Prop) (m : M A) (f : A → M B) :
  answers Q m → (∀ a, Q a → answers P (f a)) → answers P (a <- m ;; f a).
Proof. intros Hm Hf w b w' Hr. bind_inv Hr a w1 Ha. eapply (Hf a); [by eapply Hm|exact Hr]. Qed.
Lemma answers_seq {A B} (P : B → Prop) (m : M A) (f : M B) : answers P f → answers P (m >> f).
Proof. intros Hf w b w' Hr. bind_inv Hr a w1 Ha. by eapply Hf. Qed.
Lemma answers_ret {A} (P : A → Prop) a : P a → answers P (ret a).
Proof. by intros Ha w a' w' [= <- _]. Qed.
Lemma answers_fail {A} (P : A → Prop) e : answers P (fail e).
Proof. by intros w a w'. Qed.
Lemma answers_any {A} (m : M A) : answers (λ _, True) m.
Proof. by intros w a w'. Qed.
Lemma answers_wrapErr {A} (P : A → Prop) f (m : M A) : answers P m → answers P (wrapErr f m).
Proof. intros Hm w a w'. unfold wrapErr. destruct (m w) as [[x|e|p] w1] eqn:Hr; [|done..]. intros [= <- <-]. by eapply Hm. Qed.

Lemma answers_getPVStats s : answers (λ r, ∃ st, sane_statfs st ∧ r = fsStats st) (getPVStats s).
Proof.
  unfold getPVStats, fsInfo. apply (answers_bind sane_statfs).
  - intros w st w'. unfold unix_Statfs, reads. destruct (statfs _ _) as [e|st'] eqn:Hs; [done|]. intros [= <- _]. by eapply Hsane.
  - intros st Hst. apply answers_ret. by exists st.
Qed.

Lemma answers_capacity s : answers size_ok (getVolumeDirCapacity s).
Proof.
  unfold getVolumeDirCapacity. eapply answers_bind; [apply answers_wrapErr, answers_getPVStats|].
  intros r (st&Hst&->). apply answers_ret. destruct (stats_ok st Hst) as [Hc _].
  pose proof (roundDown_bounds_aux (st_capacity (fsStats st))) as Hr. unfold size_ok in *. lia.
Qed.

Lemma answers_foldM {A B} (Q : B → Prop) (f : B → A → M B) l b :
  (∀ b x, Q b → answers Q (f b x)) → Q b → answers Q (foldM f b l).
Proof.
  intros Hf. revert b. induction l as [|x l IH]; intros b Hb; [by apply answers_ret|]. cbn [foldM].
  eapply answers_bind; [by apply Hf|]. intros b' Hb'. by apply IH.
Qed.

Lemma answers_poolCapacities hpc : answers (map_Forall (λ _, size_ok)) (poolCapacities hpc).
Proof.
  unfold poolCapacities. eapply answers_bind; [apply answers_any|]. intros pools _.
  apply answers_foldM; [|apply map_Forall_empty]. intros cm kv Hcm. unfold addCapacity.
  eapply answers_bind; [apply answers_capacity|]. intros c Hc. apply answers_ret.
  by apply map_Forall_insert_2.
Qed.

Lemma answers_entry hpc cm id path :
  id ≠ "" → map_Forall (λ _, size_ok) cm → answers (λ e, volume_ok (ve_Volume e)) (volumeEntry hpc cm id path).
Proof.
  intros Hid Hcm. unfold volumeEntry. eapply answers_bind; [apply answers_any|]. intros h _.
  apply answers_ret. split; [done|]. simpl. destruct (cm !! Dir path) as [c|] eqn:Hc; [by apply (Hcm _ _ Hc)|].
  unfold size_ok. simpl. lia.
Qed.

Lemma Base_nonempty s : Base s ≠ "".
Proof.
  unfold Base. case_decide; [done|]. destruct (last _) as [c|] eqn:Hl; [|done].
  apply last_Some_elem_of in Hl. by apply list_elem_of_filter in Hl as [? _].
Qed.

(** *** The requests about volumes *)

Lemma CreateVolume_answers hpc req : answers volume_ok (CreateVolume hpc req).
Proof.
  intros w v w' Hr. unfold CreateVolume in Hr. bind_inv Hr u w1 Hc. apply checkErr_ret in Hc as [Hval ->].
  bind_inv Hr r w2 Hd. destruct req as [r'|]; [|done]. injection Hd as <- <-.
  bind_inv Hr u2 w3 Hc. destruct (StoragePools (cfg hpc) !! _) as [pool|]; [|done].
  bind_inv Hr c w4 Hcap. apply answers_capacity in Hcap. bind_inv Hr there w5 Hex. bind_inv Hr u3 w6 Hmk.
  bind_inv Hr u4 w7 Hpop. injection Hr as <- _. split; [|done]. simpl in Hval |- *.
  intros Hz. by rewrite Hz in Hval.
Qed.

Lemma GetCapacity_answers hpc params : answers (λ g, reply_ok (ReplyCapacity g)) (GetCapacity hpc params).
Proof.
  unfold GetCapacity. destruct params as [params|]; [|apply answers_fail]. cbv zeta.
  destruct (StoragePools (cfg hpc) !! _) as [pool|]; [|apply answers_fail].
  eapply answers_bind; [apply answers_getPVStats|]. intros r (st&Hst&->). apply answers_ret.
  destruct (stats_ok st Hst) as (?&?&_). split; [done|]. split; done.
Qed.

Lemma ListVolumes_answers hpc req : answers (λ l, reply_ok (ReplyVolumes l)) (ListVolumes hpc req).
Proof.
  unfold ListVolumes. apply answers_seq. eapply answers_bind; [apply answers_any|]. intros r _.
  eapply answers_bind; [apply answers_poolCapacities|]. intros cm Hcm.
  eapply answers_bind; [apply answers_any|]. intros dirs _. unfold listFrom. destruct (_ && _); [apply answers_fail|].
  destruct dirs as [|d dirs]; [case_decide; [by apply answers_ret; constructor|apply answers_fail]|].
  unfold volumePage. cbv zeta. destruct (_ =? -1); [apply answers_fail|].
  eapply answers_bind; [apply answers_any|]. intros page _.
  apply (answers_bind (Forall (λ e, volume_ok (ve_Volume e)))).
  - apply answers_foldM; [|constructor]. intros es dir Hes. unfold appendEntry.
    eapply answers_bind; [apply answers_entry; [apply Base_nonempty|done]|]. intros e He.
    apply answers_ret, Forall_app. auto.
  - intros es Hes. eapply answers_bind; [apply answers_any|]. intros t _. by apply answers_ret.
Qed.

Lemma ControllerGetVolume_answers hpc id : answers (λ e, reply_ok (ReplyEntry e)) (ControllerGetVolume hpc id).
Proof.
  unfold ControllerGetVolume. destruct id as [id|]; [|apply answers_fail]. case_decide; [apply answers_fail|].
  eapply answers_bind; [apply answers_poolCapacities|]. intros cm Hcm.
  eapply answers_bind; [apply answers_any|]. intros dirs _. cbv zeta. case_decide; [apply answers_fail|].
  by apply answers_entry.
Qed.

Lemma NodeGetVolumeStats_answers `{!FindMnt} hpn req :
  answers (λ r, reply_ok (ReplyStats r)) (NodeGetVolumeStats hpn req).
Proof.
  unfold NodeGetVolumeStats. apply answers_seq. eapply answers_bind; [apply answers_any|]. intros r _.
  apply answers_seq. eapply answers_bind; [apply answers_any|]. intros [h msg] _.
  eapply answers_bind; [apply answers_wrapErr, answers_getPVStats|]. intros x (st&Hst&->). apply answers_ret.
  destruct (stats_ok st Hst) as (?&?&?&?&?&?). constructor; [done|]. constructor; [done|constructor].
Qed.
End sizes.

(** ** Snapshots *)

Section snapshots.
Context `{!Env}.

(** What an operation answers in a well-formed tree, which it leaves well-formed. *)
Definition yields {A} (P : A → Prop) (m : M A) : Prop :=
  ∀ w a w', wf_fs (w_fs w) → m w = (Ret a, w') → P a ∧ wf_fs (w_fs w').

Lemma yields_bind {A B} (Q : A → Prop) (P : B → Prop) (m : M A) (f : A → M B) :
  yields Q m → (∀ a, Q a → yields P (f a)) → yields P (a <- m ;; f a).
Proof. intros Hm Hf w b w' Hwf Hr. bind_inv Hr a w1 Ha. apply Hm in Ha as [Hq ?]; [|done]. by eapply Hf. Qed.
Lemma yields_ret {A} (P : A → Prop) a : P a → yields P (ret a).
Proof. by intros Ha w a' w' Hwf [= <- <-]. Qed.
Lemma yields_fail {A} (P : A → Prop) e : yields P (fail e).
Proof. by intros w a w'. Qed.
Lemma yields_any {A} (m : M A) : respects wf_rel m → yields (λ _, True) m.
Proof. intros Hm w a w' Hwf Hr. split; [done|]. specialize (Hm w Hwf). by rewrite Hr in Hm. Qed.
Lemma yields_wrapErr {A} (P : A → Prop) f (m : M A) : yields P m → yields P (wrapErr f m).
Proof.
  intros Hm w a w' Hwf. unfold wrapErr. destruct (m w) as [[x|e|p] w1] eqn:Hr; [|done..]. intros [= <- <-]. by eapply Hm.
Qed.
Lemma yields_foldM {A B} (Q : B → Prop) (f : B → A → M B) l b :
  (∀ b x, x ∈ l → Q b → yields Q (f b x)) → Q b → yields Q (foldM f b l).
Proof.
  revert b. induction l as [|x l IH]; intros b Hf Hb; [by apply yields_ret|]. cbn [foldM].
  eapply yields_bind; [apply Hf; [left|done]|]. intros b' Hb'. apply IH; [|done]. intros b1 y Hy. apply Hf. by right.
Qed.

(** The names in a directory are not empty. *)
Lemma yields_ReadDir s : yields (Forall (λ e : string * node, e.1 ≠ "")) (os_ReadDir s).
Proof.
  intros w l w' Hwf Hr. apply ReadDir_ret in Hr as (->&_&->). split; [|done]. apply Forall_forall. intros [c n] Hin.
  apply elem_of_entries, (wf_parent _ Hwf) in Hin as [_ [? _]]. done.
Qed.

Definition maybe_ok (o : option Snapshot) : Prop := ∀ s, o = Some s → snapshot_ok s.

Lemma GetSnapshotById_yields rl id : id ≠ "" → yields maybe_ok (GetSnapshotById rl id).
Proof.
  intros Hid. unfold GetSnapshotById. eapply yields_bind; [apply yields_any; respects_tac|]. intros [[n ct]|e] _.
  - destruct (negb _); [apply yields_fail|]. unfold getSourceVolumeId. eapply (yields_bind (λ src, src ≠ "")).
    + eapply yields_bind; [apply yields_ReadDir|]. intros es Hes.
      destruct (list_find _ es) as [[j e]|] eqn:Hf; [|apply yields_fail]. apply yields_ret.
      apply list_find_Some in Hf as (Hl&_). rewrite Forall_lookup in Hes. by eapply Hes.
    + intros src Hsrc. apply yields_ret. intros s [= <-]. by split_and!.
  - destruct (errors_Is_NotExist e); [by apply yields_ret|apply yields_fail].
Qed.

Lemma GetAllSnapshots_yields rl : yields (Forall snapshot_ok) (GetAllSnapshots rl).
Proof.
  unfold GetAllSnapshots. eapply yields_bind; [apply yields_ReadDir|]. intros es Hes.
  apply yields_foldM; [|constructor]. intros l [c n] Hin Hl. unfold appendSnapshot.
  destruct (negb _); [by apply yields_ret|]. rewrite Forall_forall in Hes.
  eapply yields_bind; [apply GetSnapshotById_yields, (Hes (c, n) Hin)|]. intros [s|] Hs; [|by intros w a w'].
  apply yields_ret, Forall_app. auto.
Qed.

Context (hpc : hostPathController).
Hypothesis Hrepos : repositories hpc (repos_of (cfg hpc)).

Lemma ListSnapshots_yields req : yields (λ l, reply_ok (ReplySnapshots l)) (ListSnapshots hpc req).
Proof.
  unfold ListSnapshots. destruct req as [req|]; [|apply yields_fail].
  apply (yields_bind (Forall snapshot_ok)).
  - unfold collectSnapshots. intros w l w' Hwf Hr. bind_inv Hr provs w1 Hp.
    unfold range_map, reads in Hp. injection Hp as <- <-. revert Hwf Hr. change (w_fs w) with (w_fs (tickw w)).
    apply (yields_foldM (Forall snapshot_ok)); [|constructor]. intros acc [pool p] Hin Hacc.
    rewrite range_order_perm, elem_of_map_to_list, Hrepos, lookup_fmap_Some in Hin. destruct Hin as (rl&<-&Hrl).
    unfold providerSnapshots. cbn [snd reflinkProvider sp_GetSnapshotById sp_GetSnapshotsByVolumeSourceId sp_GetAllSnapshots].
    destruct (Z.eqb_spec (len (ls_SnapshotId req)) 0) as [|Hne]; cbn [negb].
    + destruct (negb _); eapply yields_bind.
      * unfold GetSnapshotsByVolumeSourceId. eapply yields_bind; [apply GetAllSnapshots_yields|].
        intros l' Hl'. apply yields_ret. instantiate (1 := Forall snapshot_ok). rewrite Forall_forall in Hl' |- *.
        intros s [_ Hs]%list_elem_of_filter. by apply Hl'.
      * intros l' Hl'. apply yields_ret, Forall_app. auto.
      * apply GetAllSnapshots_yields.
      * intros l' Hl'. apply yields_ret, Forall_app. auto.
    + eapply yields_bind; [apply GetSnapshotById_yields; by intros Hz; rewrite Hz in Hne|].
      intros [s|] Hs; apply yields_ret; [apply Forall_app; auto|done].
  - intros l Hl. destruct l as [|s0 l]; [case_decide; [by apply yields_ret; constructor|apply yields_fail]|].
    unfold snapshotPage. cbv zeta. destruct (ParseUint _ _); [|apply yields_fail].
    intros w a w' Hwf Hr. bind_inv Hr page w2 Hpage. injection Hr as <- <-. split; [|].
    + cbn. rewrite Forall_forall in Hl |- *. intros s Hs. by eapply Hl, slice_sub.
    + unfold slice in Hpage. destruct (_ && _); [by injection Hpage as _ <-|done].
Qed.

Lemma CreateSnapshot_yields req w s w' :
  wf_fs (w_fs w) → CreateSnapshot hpc req w = (Ret s, w') → snapshot_ok s.
Proof.
  intros Hwf Hr. unfold CreateSnapshot in Hr. bind_inv Hr u w1 Hc. apply checkErr_ret in Hc as [Hval ->].
  bind_inv Hr r w2 Hd. destruct req as [r'|]; [|done]. injection Hd as <- <-. simpl in Hval.
  assert (cs_Name r' ≠ "" ∧ cs_SourceVolumeId r' ≠ "") as [Hn Hs].
  { split; intros Hz; rewrite Hz in Hval; [done|]. by destruct (len (cs_Name r') =? 0). }
  destruct (StoragePools (cfg hpc) !! _) as [pool|]; [|done]. destruct (SnapshotPath pool) as [sp|]; [|done].
  destruct (snapshotproviders hpc !! _) as [p|] eqn:Hp; [|done].
  rewrite Hrepos, lookup_fmap_Some in Hp. destruct Hp as (rl&<-&Hrl).
  bind_inv Hr there w3 Hex. bind_inv Hr u2 w4 Hinit. bind_inv Hr found w5 Hf.
  assert (wf_fs (w_fs w4)) as Hwf4.
  { assert (respects wf_rel (there <- checkPathExistFunc sp ;;
      (if (there : bool) then ret tt else wrapErr (λ err, ErrorString ("failed to initialize snapshot storage pool " +:+ Error err))
         (sp_Initialize (reflinkProvider rl))))) as Hw.
    { simpl. unfold Initialize, ensurePathExists. respects_tac. }
    specialize (Hw w Hwf). erewrite run_bind_ret in Hw by exact Hex. by rewrite Hinit in Hw. }
  destruct found as [s1|].
  - apply (yields_wrapErr maybe_ok) in Hf; [|by apply GetSnapshotById_yields|done].
    case_decide; [|done]. injection Hr as <- _. by apply Hf.
  - cbn [reflinkProvider sp_CreateSnapshot] in Hr. unfold Reflink.CreateSnapshot, createSnapshotFromDir in Hr.
    cbv zeta in Hr. bind_inv Hr b w6 Hb. destruct b; [|done]. bind_inv Hr b2 w7 Hb2. destruct b2.
    + bind_inv Hr ct w8 Hct. injection Hr as <- _. by split_and!.
    + bind_inv Hr u3 w8 Hm1. bind_inv Hr u4 w9 Hm2. bind_inv Hr u5 w10 Hcp. bind_inv Hr ct w11 Hct.
      injection Hr as <- _. by split_and!.
Qed.
End snapshots.

(** C27: Every answer is a valid CSI message. Of a controller that was built for a configuration, in every
    well-formed tree, with any request and under any faults, and as long as the kernel's numbers are
    consistent: a volume or a snapshot in an answer has an id, a snapshot names its source and is ready, every size is at least 0
    and below 2^63 (nothing wraps around on its way from the kernel), and what is
    available or used does not exceed the total. *)
Theorem replies_valid `{!Env, !FindMnt} config w0 hpc w1 r w a w' :
  sane_kernel → NewHostPathController config w0 = (Ret hpc, w1) → wf_fs (w_fs w) →
  call hpc r w = (Ret a, w') → reply_ok a.
Proof.
  intros Hsane Hnew Hwf Hcall. destruct (built_controller _ _ _ _ Hnew) as (<-&Hrepos&_).
  assert (∀ A (f : A → reply) (m : M A), (∀ x w2, m w = (Ret x, w2) → reply_ok (f x)) →
    answer f m w = (Ret a, w') → reply_ok a) as Hans.
  { intros A f m Hm. rewrite answer_run. destruct (m w) as [[x|e|p] w2]; cbn [fst snd]; [|done..].
    intros [= <- _]. by eapply Hm. }
  destruct r as [req|req|req|req|req|req|req|req|req|req|req|req]; simpl in Hcall; eapply Hans; [|exact Hcall| |exact Hcall| |exact Hcall
    | |exact Hcall| |exact Hcall| |exact Hcall| |exact Hcall| |exact Hcall| |exact Hcall| |exact Hcall| |exact Hcall| |exact Hcall];
    intros x w2 Hx; try done.
  - by eapply (CreateVolume_answers Hsane).
  - by eapply (GetCapacity_answers Hsane).
  - by eapply (ListVolumes_answers Hsane).
  - by eapply (ControllerGetVolume_answers Hsane).
  - by eapply (CreateSnapshot_yields hpc Hrepos).
  - by eapply (ListSnapshots_yields hpc Hrepos).
  - by eapply (NodeGetVolumeStats_answers Hsane).
Qed.

#[local] Existing Instance demoFindmnt.

Lemma replies_valid_witness :
  match call demoBuilt (RCreateSnapshot (Some demoSnapRequest)) (tickw demoPools) with
  | (Ret (ReplySnapshot s), _) => SnapshotId s ≠ ""
  | _ => False
  end.
Proof.
  assert (match (call demoBuilt (RCreateSnapshot (Some demoSnapRequest)) (tickw demoPools)).1 with
          | Ret (ReplySnapshot _) => true | _ => false end = true) as Hb by (vm_compute; reflexivity).
  destruct (call demoBuilt _ _) as [[a|e|p] w'] eqn:Hcall; [|discriminate Hb..].
  destruct a as [v| |c|g|l|e|s|l|s]; try discriminate Hb. clear Hb.
  refine (proj1 (replies_valid demoConfig demoPools demoBuilt (tickw demoPools) (RCreateSnapshot (Some demoSnapRequest))
    (tickw demoPools) (ReplySnapshot s) w' _ _ _ Hcall)); [|reflexivity|apply demo_good].
  intros n p st [= <-]. split; simpl; lia.
Defined.
