(* ===== verification/Publications.v ===== *)
(** * The driver as a whole, against its contract

    The controller and the node service together: the catalog of volumes and
    snapshots, and the publications, the volumes that are bound at the targets
    of the kubelet. What every request does to both, under faults. *)
From S2P Require Import Prelude GoStrings GoPath GoErrors OS OSFacts Demo Mount MountFacts Csi Utils Health Reflink.
From S2P Require Import ReflinkFacts ControllerServer ControllerFacts ControllerProps ControllerList ControllerSnap.
From S2P Require Import FindMnt NodeServer NodeFacts NodeProps NodeStats Driver System.
From S2P Require Import Catalog CatalogSpec CatalogRefine CatalogTrace CatalogFaults.
From stdpp Require Import relations.
Open Scope Z_scope.

(** ** Targets and publications *)

(** The targets the kubelet uses: none overlaps another, a pool or a snapshot directory. *)
Record targets (config : Config) (T : gset GoPath.path) : Prop := {
  tg_roots : ∀ t q, t ∈ T → q ∈ cfg_roots config → apart t q;
  tg_apart : ∀ t t', t ∈ T → t' ∈ T → t ≠ t' → apart t t';
}.

(** Every target carries at most one mount, on a directory that is there. *)
Record attached (T : gset GoPath.path) (w : world) : Prop := {
  at_canonical : canonical (w_mounts w);
  at_one : ∀ t, t ∈ T → mounts_below t (w_mounts w) = [] ∨
    ∃ m, mounts_below t (w_mounts w) = [m] ∧ resolve (mp_Path m) = t;
  at_dir : ∀ t, t ∈ T → mounts_below t (w_mounts w) ≠ [] → is_Some (w_fs w !! t);
}.

Definition pubs_of (T : gset GoPath.path) (ms : list MountPoint) : gmap GoPath.path MountPoint :=
  map_imap (λ t _, head (mounts_below t ms)) (gset_to_gmap tt T).

Lemma lookup_pubs T ms t : t ∈ T → pubs_of T ms !! t = head (mounts_below t ms).
Proof.
  intros Ht. unfold pubs_of. rewrite map_lookup_imap, lookup_gset_to_gmap. by rewrite option_guard_True.
Qed.
Lemma lookup_pubs_None T ms t : t ∉ T → pubs_of T ms !! t = None.
Proof.
  intros Ht. unfold pubs_of. rewrite map_lookup_imap, lookup_gset_to_gmap. by rewrite option_guard_False.
Qed.

(** The mounts below one target changed, those below the others did not. *)
Lemma pubs_change T ms ms' t :
  t ∈ T → (∀ t', t' ∈ T → t' ≠ t → mounts_below t' ms' = mounts_below t' ms) →
  pubs_of T ms' = partial_alter (λ _, head (mounts_below t ms')) t (pubs_of T ms).
Proof.
  intros Ht Heq. apply map_eq. intros t'. destruct (decide (t' = t)) as [->|Hne].
  - by rewrite lookup_partial_alter_eq, lookup_pubs.
  - rewrite lookup_partial_alter_ne by done. destruct (decide (t' ∈ T)) as [Hin|Hnin].
    + by rewrite !lookup_pubs, Heq.
    + by rewrite !lookup_pubs_None.
Qed.

(** ** The contract *)

Record dstate := DState { d_catalog : catalog; d_pubs : gmap GoPath.path MountPoint }.
Definition abstract (config : Config) (T : gset GoPath.path) (w : world) : dstate :=
  DState (catalog_of config (w_fs w)) (pubs_of T (w_mounts w)).

(** The bind of a request before its options are applied. *)
Definition halfMount (config : Config) (req : NodePublishVolumeRequest) : MountPoint :=
  {| mp_Device := mp_Device (bindMount config req); mp_Path := mp_Path (bindMount config req);
     mp_Type := mp_Type (bindMount config req); mp_Opts := ["bind"] |}.

(** The requests that are considered: those of the controller with plain names, and those of the node
    for persistent volumes and targets of the kubelet that the mount table lists as they are. *)
Definition target_ok (T : gset GoPath.path) (target : string) : Prop :=
  resolve target ∈ T ∧ (∃ base name, goodTarget target base name) ∧ unescaped target.
Definition pubKey (q : NodePublishVolumeRequest) : string * string :=
  (getStoragePoolNameFromMap (np_VolumeContext q), np_VolumeId q).
Definition node_request (r : rpc) : bool :=
  match r with RNodePublishVolume _ | RNodeUnpublishVolume _ | RNodeGetVolumeStats _ => true | _ => false end.
Definition proper (T : gset GoPath.path) (r : rpc) : Prop :=
  match r with
  | RNodePublishVolume (Some q) =>
      isEphemeralVolumeRequest q = false ∧ valid_name (np_VolumeId q) ∧ target_ok T (np_TargetPath q)
  | RNodeUnpublishVolume (Some q) => isEphemeralVolumeId (nu_VolumeId q) = false ∧ target_ok T (nu_TargetPath q)
  | RNodePublishVolume None | RNodeUnpublishVolume None | RNodeGetVolumeStats _ => True
  | _ => regular r
  end.

Inductive dspec `{!Env} (hpc : hostPathController) : rpc → outcome gerror reply → dstate → dstate → Prop :=
  (** The controller leaves the publications alone. *)
  | dspec_controller r o c c' p :
      node_request r = false → fspec hpc r o c c' → dspec hpc r o (DState c p) (DState c' p)
  (** A volume of the catalog is bound at a free target; a target that is taken is left as it is. *)
  | dspec_publish q c p :
      p !! resolve (np_TargetPath q) = None →
      (is_Some (StoragePools (cfg hpc) !! (pubKey q).1) → is_Some (volumes c !! pubKey q)) →
      dspec hpc (RNodePublishVolume (Some q)) (Ret ReplyDone) (DState c p)
        (DState c (<[resolve (np_TargetPath q) := bindMount (cfg hpc) q]> p))
  | dspec_published q c p :
      is_Some (p !! resolve (np_TargetPath q)) →
      dspec hpc (RNodePublishVolume (Some q)) (Ret ReplyDone) (DState c p) (DState c p)
  (** A failure changes nothing, or leaves a bind without its options. *)
  | dspec_publish_failed q o c p :
      is_ret o = false → dspec hpc (RNodePublishVolume q) o (DState c p) (DState c p)
  | dspec_publish_half q o c p :
      is_ret o = false → p !! resolve (np_TargetPath q) = None →
      dspec hpc (RNodePublishVolume (Some q)) o (DState c p)
        (DState c (<[resolve (np_TargetPath q) := halfMount (cfg hpc) q]> p))
  (** A target is free afterwards, or nothing was taken away. *)
  | dspec_unpublish q c p :
      dspec hpc (RNodeUnpublishVolume (Some q)) (Ret ReplyDone) (DState c p)
        (DState c (delete (resolve (nu_TargetPath q)) p))
  | dspec_unpublish_failed q o c p :
      is_ret o = false → dspec hpc (RNodeUnpublishVolume q) o (DState c p) (DState c p)
  | dspec_unpublish_late q o c p :
      is_ret o = false →
      dspec hpc (RNodeUnpublishVolume (Some q)) o (DState c p)
        (DState c (delete (resolve (nu_TargetPath q)) p))
  | dspec_stats q o s : dspec hpc (RNodeGetVolumeStats q) o s s.

(** ** Changes at one target *)

Section frame.
Context (config : Config) (T : gset GoPath.path) (Htg : targets config T).

(** What lies below a root does not lie below a target. *)
Lemma target_not_root t q k : t ∈ T → inside (cfg_roots config) q → q `prefix_of` k → ¬ t `prefix_of` k.
Proof.
  intros Ht (r&Hr&Hrq)%Exists_exists Hq Hp. destruct (tg_roots _ _ Htg t r Ht Hr) as [H1 H2].
  destruct (prefix_weak_total t r k) as [?|?]; [done|by etransitivity|done|done].
Qed.

Lemma catalog_aside fs fs' t : t ∈ T → only_at t fs fs' → catalog_of config fs' = catalog_of config fs.
Proof.
  intros Ht Honly. apply catalog_eq; apply map_eq; intros [pool i].
  - rewrite !lookup_volumes. destruct (StoragePools config !! pool) as [info|] eqn:Hp; [|done]. simpl.
    apply vol_at_ext. intros k Hk. apply Honly. eapply target_not_root; [done|by eapply pool_inside|].
    etransitivity; [|exact Hk]. by exists [i].
  - rewrite !lookup_snapshots. destruct (repos_of config !! pool) as [rl|] eqn:Hrl; [|done]. simpl.
    apply snap_at_ext. intros k Hk. apply Honly.
    eapply target_not_root; [done|by eapply entry_root_inside, repo_entry_root|].
    etransitivity; [|exact Hk]. by exists [i].
Qed.

Lemma good_aside w w' t :
  t ∈ T → only_at t (w_fs w) (w_fs w') → wf_fs (w_fs w') →
  (∀ m, m ∈ w_mounts w' → m ∈ w_mounts w ∨ resolve (mp_Path m) = t) → good config w → good config w'.
Proof.
  intros Ht Honly Hwf Hm [_ Hroots Hentries Hfree].
  assert (∀ p k, entry_root config p → p `prefix_of` k → w_fs w' !! k = w_fs w !! k) as Hk.
  { intros p k Hp Hpk. apply Honly. eapply target_not_root; [done|by apply entry_root_inside|done]. }
  split; [done|..].
  - intros p Hp. rewrite (Hk p p); auto.
  - intros p i n Hp. rewrite (Hk p) by (done || by exists [i]). by apply Hentries.
  - intros m [Hin|Heq]%Hm; [by apply Hfree|]. rewrite Heq. intros Hins.
    by apply (target_not_root t t t Ht Hins).
Qed.
End frame.

(** Mounts at one target do not show below another. *)
Lemma below_cons_apart t t' m ms :
  apart t t' → resolve (mp_Path m) = t → mounts_below t' (m :: ms) = mounts_below t' ms.
Proof. intros [_ Hap] Hm. unfold mounts_below. by rewrite filter_cons_False by by rewrite Hm. Qed.

Lemma below_alter_apart t t' ms ms' :
  apart t t' → alter_top t (λ _, None) ms = Some ms' → mounts_below t' ms' = mounts_below t' ms.
Proof.
  intros [H1 Hap]. revert ms'. induction ms as [|m ms IH]; intros ms'; [done|]. simpl.
  case_decide as Hm.
  - intros [= <-]. unfold mounts_below. by rewrite filter_cons_False by by rewrite Hm.
  - intros (ms1&Halt&->)%fmap_Some. unfold mounts_below in *. rewrite !filter_cons, (IH _ Halt). done.
Qed.

Lemma alter_top_sub t ms ms' : alter_top t (λ _, None) ms = Some ms' → ∀ m, m ∈ ms' → m ∈ ms.
Proof.
  revert ms'. induction ms as [|x ms IH]; intros ms'; [done|]. simpl. case_decide.
  - intros [= <-] m Hm. by right.
  - intros (ms1&Halt&->)%fmap_Some m [->|Hm]%elem_of_cons; [left|]. right. by eapply IH.
Qed.

(** ** Publishing under faults *)

Section node.
Context `{!Env} (Hh : honest) (config : Config).

(** What a bind may do. *)
Lemma MountLinux_cases source target t (ro : bool) w :
  let '(o, w') := MountLinux source target t (if ro then ["bind"; "ro"] else ["bind"]) w in
  let m opts := {| mp_Device := source; mp_Path := pstr (resolve target); mp_Type := t; mp_Opts := opts |} in
  w_fs w' = w_fs w ∧
  ((w_mounts w' = w_mounts w ∧ is_ret o = false) ∨
   (is_Some (w_fs w !! resolve target) ∧ is_ret o = false ∧ w_mounts w' = m ["bind"] :: w_mounts w) ∨
   (is_Some (w_fs w !! resolve target) ∧ is_Some (w_fs w !! resolve source) ∧ o = Ret tt ∧
    w_mounts w' = m (["bind"; "remount"] ++ (if ro then ["ro"] else [])) :: w_mounts w)).
Proof.
  unfold MountLinux.
  assert (MakeBindOpts (if ro then ["bind"; "ro"] else ["bind"]) =
          (true, ["bind"], ["bind"; "remount"] ++ (if ro then ["ro"] else []))) as -> by by destruct ro.
  assert (resolve (pstr (resolve target)) = resolve target) as Hr.
  { unfold pstr. apply resolve_rooted_names, resolve_valid. }
  unfold bind. unfold doMount at 1. destruct (fault _ _ _); [split; [done|by left]|].
  rewrite bool_decide_eq_false_2 by set_solver.
  destruct (w_fs w !! resolve source) as [x|] eqn:Hx; [|split; [done|by left]].
  destruct (w_fs w !! resolve target) as [y|] eqn:Hy; [|destruct x; (split; [done|by left])].
  destruct x, y; [|split; [done|by left]|split; [done|by left]|]; unfold doMount; cbn [tickw set_mounts w_tick w_mounts w_fs];
    (destruct (fault _ _ _); [split; [done|]; right; left; eauto|]);
    (rewrite bool_decide_eq_true_2 by (destruct ro; set_solver)); cbn [alter_top];
    (rewrite decide_True by exact Hr); (split; [done|]); right; right; eauto.
Qed.

(** The target is checked and made when it is missing. *)
Lemma canMount_cases target base name w :
  goodTarget target base name → unescaped target → canonical (w_mounts w) → wf_fs (w_fs w) →
  (mounted (resolve target) (w_mounts w) = true → is_Some (w_fs w !! resolve target)) →
  let '(o, w') := canMountVolume (linuxNode config) target w in
  only_at (resolve target) (w_fs w) (w_fs w') ∧ w_mounts w' = w_mounts w ∧
  (is_Some (w_fs w !! resolve target) → is_Some (w_fs w' !! resolve target)) ∧
  (o = Ret true → mounted (resolve target) (w_mounts w) = false) ∧
  (o = Ret false → mounted (resolve target) (w_mounts w) = true).
Proof.
  intros Ht Hu Hc Hwf Hdir. unfold canMountVolume. unfold bind at 1, try at 1. cbn [linuxNode NewHostPathNode hpn_Mounter].
  pose proof (respects_IsNotMountPoint quiet target w) as Hq.
  destruct (IsNotMountPoint linuxMounter target w) as [[b|e|pn] w1] eqn:Hrun; cbn [snd] in Hq; destruct Hq as (Hfs&Hm&_).
  - destruct (IsNotMountPoint_ret target base name w b w1) as [-> _]; [done|done|by left|done|]. cbn [ret].
    split_and!; [intros k _; by rewrite Hfs|done|by rewrite Hfs| |];
      intros [= Hn]; by destruct (mounted _ _).
  - destruct (os_IsNotExist e) eqn:He.
    2: { cbn. split_and!; [intros k _; by rewrite Hfs|done|by rewrite Hfs|done|done]. }
    pose proof (IsNotMountPoint_NotExist Hh target base name w e w1 Ht Hwf Hrun He) as Hnone.
    assert (mounted (resolve target) (w_mounts w) = false) as Hnm.
    { destruct (mounted _ _); [|done]. destruct (Hdir eq_refl). congruence. }
    assert (∀ o w2, os_Mkdir target w1 = (o, w2) → only_at (resolve target) (w_fs w) (w_fs w2) ∧ w_mounts w2 = w_mounts w) as Hmk.
    { intros o w2. unfold os_Mkdir. unfold bind, gets. cbn [fst snd]. rewrite Hfs.
      assert (only_at (resolve target) (w_fs w) (w_fs w1)) as Hsame by (intros k _; by rewrite Hfs).
      case_decide; [intros [= _ <-]; by split|]. rewrite Hnone.
      destruct (w_fs w !! removelast (resolve target)) as [[|]|]; [|by intros [= _ <-]..].
      unfold mkdir_at. destruct (fault _ _ _); intros [= _ <-]; [by split|]. split; [|done]. cbn. intros k Hk.
      rewrite lookup_insert_ne, Hfs; [done|]. intros <-. by apply Hk. }
    unfold bind, wrapErr. destruct (os_Mkdir target w1) as [[[]|e2|pn] w2] eqn:Hrun2; cbn [ret];
      destruct (Hmk _ _ eq_refl) as [Ho2 Hm2]; (split_and!; [done|done|by rewrite Hnone; intros []|done|done]).
  - cbn. split_and!; [intros k _; by rewrite Hfs|done|by rewrite Hfs|done|done].
Qed.

Lemma mountFailed_quiet req path target err w :
  isEphemeralVolumeRequest req = false →
  let '(o, w') := mountFailed req path target err w in quiet w w' ∧ is_ret o = false.
Proof.
  intros He. assert (respects quiet (mountFailed req path target err)) as Hq.
  { unfold mountFailed. rewrite He. respects_tac. }
  specialize (Hq w). destruct (mountFailed req path target err w) as [[u|e|p] w'] eqn:Hrun; [|done..]. exfalso.
  unfold mountFailed in Hrun. bind_inv Hrun r w1 Hr. destruct r; [|done]. by bind_inv Hrun rm w2 Hrm.
Qed.

(** What publishing may do to the target and the mounts. *)
Lemma publish_cases q base name w :
  isEphemeralVolumeRequest q = false → goodTarget (np_TargetPath q) base name → unescaped (np_TargetPath q) →
  canonical (w_mounts w) → wf_fs (w_fs w) →
  let t := resolve (np_TargetPath q) in
  (mounted t (w_mounts w) = true → is_Some (w_fs w !! t)) →
  let '(o, w') := NodePublishVolume (linuxNode config) (Some q) w in
  only_at t (w_fs w) (w_fs w') ∧ (is_Some (w_fs w !! t) → is_Some (w_fs w' !! t)) ∧
  ((w_mounts w' = w_mounts w ∧ (o = Ret tt → mounted t (w_mounts w) = true)) ∨
   (mounted t (w_mounts w) = false ∧ is_Some (w_fs w' !! t) ∧
    ((is_ret o = false ∧ w_mounts w' = halfMount config q :: w_mounts w) ∨
     (o = Ret tt ∧ is_Some (w_fs w' !! resolve (mp_Device (bindMount config q))) ∧
      w_mounts w' = bindMount config q :: w_mounts w)))).
Proof.
  intros He Ht Hu Hc Hwf t Hdir.
  destruct (validateNodePublishRequest (Some q)) as [e|] eqn:Hv.
  { unfold NodePublishVolume. rewrite Hv. cbn. split_and!; [by intros ??|done|by left]. }
  rewrite NodePublish_run by done. unfold bind.
  pose proof (canMount_cases _ _ _ w Ht Hu Hc Hwf Hdir) as Hcan. fold t in Hcan.
  destruct (canMountVolume (linuxNode config) (np_TargetPath q) w) as [[b|e|pn] w1];
    destruct Hcan as (Honly&Hms&Hkeep&Hfree&Htaken); [|by split_and!; [..|left]|by split_and!; [..|left]].
  destruct b; cbn [negb]; [|by split_and!; [..|left; auto]]. specialize (Hfree eq_refl).
  unfold mountVolume, volumeSource. rewrite He. unfold bind, try, ret.
  cbn [linuxNode NewHostPathNode hpn_Mounter hpn_cfg linuxMounter mi_Mount].
  assert (GoPath.Join [Path (getPool config (getStoragePoolNameFromMap (np_VolumeContext q))); np_VolumeId q]
    = mp_Device (bindMount config q)) as ->.
  { cbn. unfold sourcePool. by rewrite He. }
  pose proof (MountLinux_cases (mp_Device (bindMount config q)) (np_TargetPath q)
    (default "" (fst <$> (np_VolumeCapability q ≫= GetMount))) (np_Readonly q) w1) as Hmnt.
  destruct (MountLinux _ _ _ _ w1) as [[[]|e|pn] w2]; cbn zeta in Hmnt; destruct Hmnt as (Hfs&Hcases);
    rewrite Hms in Hcases.
  - rewrite Hfs. split_and!; [done|done|]. right. split_and!; [done|by destruct Hcases as [[_ ?]|[(_&?&_)|(?&_)]]|].
    destruct Hcases as [[_ ?]|[(_&?&_)|(?&?&_&?)]]; [done|done|]. by right.
  - pose proof (mountFailed_quiet q (mp_Device (bindMount config q)) (np_TargetPath q) e w2 He) as Hq.
    destruct (mountFailed _ _ _ _ w2) as [o w3]. destruct Hq as ((Hfs3&Hm3&_)&Hret).
    rewrite Hfs3, Hfs, Hm3. split_and!; [done|done|].
    destruct Hcases as [[? _]|[(?&_&?)|(_&_&?&_)]]; [|by right; split_and!; [..|left]|done].
    left. split; [done|]. by intros ->.
  - rewrite Hfs. split_and!; [done|done|].
    destruct Hcases as [[? _]|[(?&_&?)|(_&_&?&_)]]; [|by right; split_and!; [..|left]|done].
    by left.
Qed.

(** *** Unpublishing under faults *)

(** What taking a mount off the target may do. *)
Lemma unmount_cases target base name w :
  goodTarget target base name → unescaped target → wf_fs (w_fs w) → canonical (w_mounts w) →
  let t := resolve target in
  (mounts_below t (w_mounts w) = [] ∨ ∃ m, mounts_below t (w_mounts w) = [m] ∧ resolve (mp_Path m) = t) →
  (mounts_below t (w_mounts w) ≠ [] → is_Some (w_fs w !! t)) →
  let '(o, w') := unmountTarget (linuxNode config) target w in
  w_fs w' = w_fs w ∧
  (w_mounts w' = w_mounts w ∨ alter_top t (λ _, None) (w_mounts w) = Some (w_mounts w')) ∧
  (o = Ret tt → mounts_below t (w_mounts w') = []).
Proof.
  intros Ht Hu Hwf Hc t Hone Hdir. pose proof (same_tree_unmountTarget config target w) as Hsame.
  destruct (unmountTarget (linuxNode config) target w) as [o w'] eqn:Hrun. cbn [snd] in Hsame.
  assert (w_mounts w' = w_mounts w ∨ alter_top t (λ _, None) (w_mounts w) = Some (w_mounts w')) as Hcases.
  { unfold unmountTarget, bind, try in Hrun. cbn [linuxNode NewHostPathNode hpn_Mounter] in Hrun.
    pose proof (respects_IsNotMountPoint quiet target w) as Hq.
    destruct (IsNotMountPoint linuxMounter target w) as [[b|e|pn] w1]; cbn [snd] in Hq; destruct Hq as (_&Hm&_).
    - destruct b; cbn in Hrun; [injection Hrun as _ <-; by left|]. unfold wrapErr, UnmountLinux in Hrun.
      destruct (fault _ _ _); [injection Hrun as _ <-; by left|]. rewrite Hm in Hrun. fold t in Hrun.
      destruct (alter_top t _ _) eqn:Halt; injection Hrun as _ <-; [by right|by left].
    - destruct (os_IsNotExist e); injection Hrun as _ <-; by left.
    - injection Hrun as _ <-. by left. }
  split_and!; [exact Hsame|done|]. intros ->.
  destruct (unmountTarget_safe config Hh target base name w w' Ht Hwf Hc (or_introl Hu) Hone Hrun) as [Hnone|?]; [|done].
  assert (mounts_below t (w_mounts w) = []) as Hnil.
  { destruct (mounts_below t (w_mounts w)) eqn:Hb; [done|]. destruct Hdir; [done|]. unfold t in *. congruence. }
  destruct Hcases as [->|Halt]; [done|]. apply mounts_below_nil. intros m Hm.
  by eapply (proj1 (mounts_below_nil _ _) Hnil), alter_top_sub.
Qed.

Lemma unpublish_cases q base name w :
  isEphemeralVolumeId (nu_VolumeId q) = false → goodTarget (nu_TargetPath q) base name →
  unescaped (nu_TargetPath q) →
  wf_fs (w_fs w) → canonical (w_mounts w) →
  let t := resolve (nu_TargetPath q) in
  (mounts_below t (w_mounts w) = [] ∨ ∃ m, mounts_below t (w_mounts w) = [m] ∧ resolve (mp_Path m) = t) →
  (mounts_below t (w_mounts w) ≠ [] → is_Some (w_fs w !! t)) →
  let '(o, w') := NodeUnpublishVolume (linuxNode config) (Some q) w in
  only_at t (w_fs w) (w_fs w') ∧
  (w_mounts w' = w_mounts w ∨ alter_top t (λ _, None) (w_mounts w) = Some (w_mounts w')) ∧
  ((mounts_below t (w_mounts w') = []) ∨ (is_ret o = false ∧ w_fs w' = w_fs w)).
Proof.
  intros He Ht Hu Hwf Hc t Hone Hdir.
  destruct (validateNodeUnpublishRequest (Some q)) as [e|] eqn:Hv.
  { unfold NodeUnpublishVolume. rewrite Hv. cbn. split_and!; [by intros ??|by left|by right]. }
  rewrite NodeUnpublish_run by done. rewrite He.
  pose proof (unmount_cases _ _ _ w Ht Hu Hwf Hc Hone Hdir) as Hun. fold t in Hun.
  unfold bind. destruct (unmountTarget (linuxNode config) (nu_TargetPath q) w) as [[[]|e|pn] w1];
    destruct Hun as (Hfs&Hcases&Hnil).
  2,3: split_and!; [intros k _; by rewrite Hfs|done|by right].
  specialize (Hnil eq_refl). destruct (RemoveAll_frame (nu_TargetPath q) w1) as [Hm Hk]. fold t in Hk.
  specialize (Hk Hnil). unfold wrapErr, ret.
  destruct (os_RemoveAll (nu_TargetPath q) w1) as [[[]|e|pn] w2]; cbn [fst snd] in *;
    (rewrite Hm; split_and!; [intros k Hnk; rewrite <-Hfs; by apply Hk|done|by left]).
Qed.
End node.

(** ** Every request *)

Section steps.
Context `{!Env} (Hh : honest) (hpc : hostPathController) (T : gset GoPath.path) (Htg : targets (cfg hpc) T).

Definition dstep_ok (r : rpc) (o : outcome gerror reply) (w w' : world) : Prop :=
  good (cfg hpc) w' ∧ attached T w' ∧ dspec hpc r o (abstract (cfg hpc) T w) (abstract (cfg hpc) T w').

(** The mounts below one target and the tree at it change. *)
Lemma attached_change w w' t :
  t ∈ T → only_at t (w_fs w) (w_fs w') →
  (∀ t', t' ∈ T → t' ≠ t → mounts_below t' (w_mounts w') = mounts_below t' (w_mounts w)) →
  canonical (w_mounts w') →
  (mounts_below t (w_mounts w') = [] ∨ ∃ m, mounts_below t (w_mounts w') = [m] ∧ resolve (mp_Path m) = t) →
  (mounts_below t (w_mounts w') ≠ [] → is_Some (w_fs w' !! t)) → attached T w → attached T w'.
Proof.
  intros Ht Honly Hms Hcan Hone Hdir [_ Hone0 Hdir0]. split; [done|..].
  - intros t' Ht'. destruct (decide (t' = t)) as [->|Hne]; [done|]. rewrite Hms by done. by apply Hone0.
  - intros t' Ht'. destruct (decide (t' = t)) as [->|Hne]; [done|]. rewrite Hms by done.
    rewrite Honly; [by apply Hdir0|]. by destruct (tg_apart _ _ Htg t t').
Qed.

Lemma attached_mounted w t : attached T w → t ∈ T → mounted t (w_mounts w) = true → is_Some (w_fs w !! t).
Proof.
  intros Hat Ht Hm. apply (at_dir _ _ Hat t Ht). intros Hnil. by rewrite not_mounted_below in Hm.
Qed.
Lemma attached_free w t :
  attached T w → t ∈ T → mounted t (w_mounts w) = false → mounts_below t (w_mounts w) = [].
Proof.
  intros Hat Ht Hm. destruct (at_one _ _ Hat t Ht) as [?|(m&Hb&Hp)]; [done|].
  assert (mounted t (w_mounts w) = true); [|congruence]. apply mounted_true. exists m. split; [|done].
  assert (m ∈ mounts_below t (w_mounts w)) as Hin by (rewrite Hb; left).
  by apply list_elem_of_filter in Hin as [_ ?].
Qed.

(** One mount more at a free target. *)
Lemma bound_step w w' q base name m :
  good (cfg hpc) w → attached T w → resolve (np_TargetPath q) ∈ T →
  goodTarget (np_TargetPath q) base name → unescaped (np_TargetPath q) →
  mp_Path m = pstr (resolve (np_TargetPath q)) → wf_fs (w_fs w') →
  only_at (resolve (np_TargetPath q)) (w_fs w) (w_fs w') → is_Some (w_fs w' !! resolve (np_TargetPath q)) →
  mounted (resolve (np_TargetPath q)) (w_mounts w) = false → w_mounts w' = m :: w_mounts w →
  good (cfg hpc) w' ∧ attached T w' ∧ pubs_of T (w_mounts w) !! resolve (np_TargetPath q) = None ∧
  pubs_of T (w_mounts w') = <[resolve (np_TargetPath q) := m]> (pubs_of T (w_mounts w)).
Proof.
  intros Hg Hat Ht Hgt Hpl Hmp Hwf Honly Hd Hfree Hms. set (t := resolve (np_TargetPath q)) in *.
  assert (resolve (mp_Path m) = t) as Hrm.
  { rewrite Hmp. apply resolve_rooted_names, resolve_valid. }
  pose proof (attached_free _ _ Hat Ht Hfree) as Hnil.
  assert (mounts_below t (w_mounts w') = [m]) as Hb.
  { rewrite Hms. unfold mounts_below. rewrite filter_cons_True by by rewrite Hrm. f_equal. exact Hnil. }
  assert (∀ t', t' ∈ T → t' ≠ t → mounts_below t' (w_mounts w') = mounts_below t' (w_mounts w)) as Hoth.
  { intros t' Ht' Hne. rewrite Hms. eapply below_cons_apart; [|done]. by apply (tg_apart _ _ Htg). }
  split_and!.
  - eapply (good_aside (cfg hpc) T Htg w w' t); [done|done|done| |done]. intros x. rewrite Hms.
    intros [->|?]%elem_of_cons; [by right|by left].
  - eapply (attached_change w w' t); [done|done|done| |by eauto|done|done].
    rewrite Hms. destruct m as [dev mpath ty opts]. simpl in Hmp. subst mpath.
    eapply canonical_cons; [done|intros s; by apply unescaped_not_deleted|apply Hat].
  - by rewrite lookup_pubs, Hnil.
  - rewrite (pubs_change T (w_mounts w) (w_mounts w') t) by done. by rewrite Hb.
Qed.

(** Nothing is mounted or unmounted at a target whose tree may have changed. *)
Lemma unbound_step w w' t :
  good (cfg hpc) w → attached T w → t ∈ T → wf_fs (w_fs w') → only_at t (w_fs w) (w_fs w') →
  (is_Some (w_fs w !! t) → is_Some (w_fs w' !! t)) → w_mounts w' = w_mounts w →
  good (cfg hpc) w' ∧ attached T w' ∧ abstract (cfg hpc) T w' = abstract (cfg hpc) T w.
Proof.
  intros Hg Hat Ht Hwf Honly Hd Hms. split_and!.
  - eapply (good_aside (cfg hpc) T Htg w w' t); [done|done|done| |done]. rewrite Hms. by left.
  - eapply (attached_change w w' t); rewrite ?Hms; [done|done|done|apply Hat|by apply Hat| |done].
    intros Hne. by apply Hd, (at_dir _ _ Hat).
  - unfold abstract. by rewrite Hms, (catalog_aside _ _ Htg _ _ _ Ht Honly).
Qed.

Lemma bound_volume q w :
  good (cfg hpc) w → isEphemeralVolumeRequest q = false → valid_name (np_VolumeId q) →
  is_Some (w_fs w !! resolve (mp_Device (bindMount (cfg hpc) q))) →
  is_Some (StoragePools (cfg hpc) !! (pubKey q).1) → is_Some (volumes (catalog_of (cfg hpc) (w_fs w)) !! pubKey q).
Proof.
  intros Hg He Hid [n Hn] [info Hinfo]. rewrite bindMount_device in Hn by done.
  unfold volumeDir, sourcePool in Hn. rewrite He in Hn. cbn [andb] in Hn. cbn [pubKey fst] in Hinfo.
  unfold getPool in Hn. rewrite Hinfo in Hn. cbn [default from_option id] in Hn. unfold id in Hn.
  assert (n = NDir) as ->.
  { eapply (g_entries _ _ Hg); [|exact Hn]. left. by eexists _, _. }
  unfold pubKey. rewrite lookup_volumes, Hinfo. simpl. unfold vol_at, pool_root. rewrite Hn. by eexists.
Qed.

Lemma publish_step q w :
  good (cfg hpc) w → attached T w → proper T (RNodePublishVolume q) →
  let run := answer (λ _, ReplyDone) (NodePublishVolume (linuxNode (cfg hpc)) q) w in
  dstep_ok (RNodePublishVolume q) run.1 w run.2.
Proof.
  intros Hg Hat Hprop. cbv zeta. rewrite answer_run. cbn [fst snd].
  destruct q as [q|]; [|split_and!; [done|done|by apply dspec_publish_failed]].
  destruct Hprop as (He&Hid&Ht&(base&name&Hgt)&Hpl).
  pose proof (publish_cases Hh (cfg hpc) q base name w He Hgt Hpl (at_canonical _ _ Hat) (g_wf _ _ Hg)
    (attached_mounted _ _ Hat Ht)) as Hcases.
  pose proof (respects_wf_NodePublish (cfg hpc) (Some q) w (g_wf _ _ Hg)) as Hwf.
  destruct (NodePublishVolume (linuxNode (cfg hpc)) (Some q) w) as [o w']. cbn [fst snd] in *.
  destruct Hcases as (Honly&Hd&[(Hms&Ho)|(Hfree&Hd'&[(Ho&Hms)|(->&Hsrc&Hms)])]).
  - destruct (unbound_step w w' _ Hg Hat Ht Hwf Honly Hd Hms) as (Hg'&Hat'&Habs).
    split_and!; [done|done|]. rewrite Habs. destruct o as [[]|e|p]; [|by apply dspec_publish_failed..].
    apply dspec_published. rewrite lookup_pubs by done.
    destruct (mounts_below _ _) eqn:Hb; [|by eexists]. specialize (Ho eq_refl). by rewrite (not_mounted_below _ _ Hb) in Ho.
  - destruct (bound_step w w' q base name (halfMount (cfg hpc) q)) as (Hg'&Hat'&Hnone&Hp); [done..|].
    split_and!; [done|done|]. unfold abstract. rewrite Hp, (catalog_aside _ _ Htg _ _ _ Ht Honly).
    apply dspec_publish_half; [by destruct o|done].
  - destruct (bound_step w w' q base name (bindMount (cfg hpc) q)) as (Hg'&Hat'&Hnone&Hp); [done..|].
    split_and!; [done|done|]. unfold abstract. rewrite Hp, <-(catalog_aside _ _ Htg _ _ _ Ht Honly).
    apply dspec_publish; [done|]. by apply bound_volume.
Qed.

Lemma alter_top_unbinds t ms ms' :
  (mounts_below t ms = [] ∨ ∃ m, mounts_below t ms = [m] ∧ resolve (mp_Path m) = t) →
  alter_top t (λ _, None) ms = Some ms' → mounts_below t ms' = [].
Proof.
  intros [Hnil|(m&Hb&Hm)] Halt.
  - apply mounts_below_nil. intros x Hx. by eapply (proj1 (mounts_below_nil _ _) Hnil), alter_top_sub.
  - destruct (alter_top_only _ _ _ Hb Hm) as (ms1&Halt1&?). congruence.
Qed.

Lemma unpublish_step q w :
  good (cfg hpc) w → attached T w → proper T (RNodeUnpublishVolume q) →
  let run := answer (λ _, ReplyDone) (NodeUnpublishVolume (linuxNode (cfg hpc)) q) w in
  dstep_ok (RNodeUnpublishVolume q) run.1 w run.2.
Proof.
  intros Hg Hat Hprop. cbv zeta. rewrite answer_run. cbn [fst snd].
  destruct q as [q|]; [|split_and!; [done|done|by apply dspec_unpublish_failed]].
  destruct Hprop as (He&Ht&(base&name&Hgt)&Hpl).
  pose proof (unpublish_cases Hh (cfg hpc) q base name w He Hgt Hpl (g_wf _ _ Hg) (at_canonical _ _ Hat)
    (at_one _ _ Hat _ Ht) (at_dir _ _ Hat _ Ht)) as Hcases.
  pose proof (respects_wf_NodeUnpublish (cfg hpc) (Some q) w (g_wf _ _ Hg)) as Hwf.
  destruct (NodeUnpublishVolume (linuxNode (cfg hpc)) (Some q) w) as [o w']. cbn [fst snd] in *.
  destruct Hcases as (Honly&Hms&Hres). set (t := resolve (nu_TargetPath q)) in *.
  assert (∀ m, m ∈ w_mounts w' → m ∈ w_mounts w) as Hsub.
  { destruct Hms as [->|Halt]; [done|]. by eapply alter_top_sub. }
  assert (∀ t', t' ∈ T → t' ≠ t → mounts_below t' (w_mounts w') = mounts_below t' (w_mounts w)) as Hoth.
  { intros t' Ht' Hne. destruct Hms as [->|Halt]; [done|].
    eapply below_alter_apart; [|exact Halt]. by apply (tg_apart _ _ Htg). }
  assert (mounts_below t (w_mounts w') = [] ∨ (is_ret o = false ∧ w_fs w' = w_fs w ∧ w_mounts w' = w_mounts w)) as Hend.
  { destruct Hres as [?|[Ho Hfs]]; [by left|]. destruct Hms as [?|Halt]; [by right|]. left.
    eapply alter_top_unbinds; [by apply Hat|done]. }
  assert (good (cfg hpc) w') as Hg'.
  { eapply (good_aside (cfg hpc) T Htg w w' t); [done..| |done]. intros m Hm. left. by apply Hsub. }
  destruct Hend as [Hnil|(Ho&Hfs&Heq)].
  - assert (attached T w') as Hat'.
    { eapply (attached_change w w' t); [done|done|done| |by left|done|done].
      intros m Hm. by apply (at_canonical _ _ Hat), Hsub. }
    split_and!; [done|done|].
    assert (abstract (cfg hpc) T w' = DState (catalog_of (cfg hpc) (w_fs w)) (delete t (pubs_of T (w_mounts w)))) as ->.
    { unfold abstract. f_equal; [by apply (catalog_aside _ _ Htg _ _ t)|].
      rewrite (pubs_change T (w_mounts w) (w_mounts w') t) by done. by rewrite Hnil. }
    destruct o as [[]|e|p]; [apply dspec_unpublish|by apply dspec_unpublish_late..].
  - assert (attached T w') as Hat'. { destruct Hat. split; rewrite ?Hfs, ?Heq; done. }
    split_and!; [done|done|]. unfold abstract. rewrite Hfs, Heq. apply dspec_unpublish_failed. by destruct o.
Qed.

(** The controller leaves the targets and their mounts alone. *)
Lemma controller_step `{!FindMnt} (Hlay : layout (cfg hpc)) (Hrepos : repositories hpc (repos_of (cfg hpc)))
    (Hsafe : providers_safe hpc) r w :
  good (cfg hpc) w → attached T w → regular r → dstep_ok r (call hpc r w).1 w (call hpc r w).2.
Proof.
  intros Hg Hat Hreg. destruct (fault_call Hh hpc Hlay Hrepos Hsafe r w Hg Hreg) as [Hg' Hspec].
  pose proof (serve_footprint hpc Hsafe r w (g_wf _ _ Hg) (proj1 Hreg)) as Hc. rewrite <-call_serve in Hc.
  apply (confined_roots_mono _ (cfg_roots (cfg hpc))) in Hc; [|apply footprint_inside].
  destruct (call hpc r w) as [o w']. cbn [fst snd] in *. pose proof (proj1 Hc) as Hms.
  split_and!; [done| |].
  - destruct Hat as [Hcan Hone Hdir]. split; rewrite ?Hms; [done|done|]. intros t Ht Hne.
    erewrite (confined_apart (cfg_roots (cfg hpc)) t w w' t Hc); [by apply Hdir|apply Hg| |done].
    intros p Hp. by apply (tg_roots _ _ Htg).
  - unfold abstract. rewrite Hms. apply dspec_controller; [|done]. by destruct r; try done; destruct Hreg.
Qed.

Lemma proper_regular r : node_request r = false → proper T r → regular r.
Proof. by destruct r. Qed.

(** Every request, under any faults. *)
Lemma driver_step `{!FindMnt} (Hlay : layout (cfg hpc)) (Hrepos : repositories hpc (repos_of (cfg hpc)))
    (Hsafe : providers_safe hpc) r w :
  good (cfg hpc) w → attached T w → proper T r → dstep_ok r (call hpc r w).1 w (call hpc r w).2.
Proof.
  intros Hg Hat Hp. destruct (node_request r) eqn:Hn; [|by apply controller_step; [..|apply proper_regular]].
  destruct r; try done; [by apply publish_step|by apply unpublish_step|].
  cbn [call]. rewrite answer_run. cbn [fst snd].
  pose proof (quiet_NodeGetVolumeStats (linuxNode (cfg hpc)) req w) as Hq. pose proof Hq as (Hfs&Hms&_).
  split_and!; [by eapply good_quiet|destruct Hat; split; by rewrite ?Hfs, ?Hms|].
  unfold abstract. rewrite Hfs, Hms. apply dspec_stats.
Qed.
End steps.

(** ** Runs *)



Section runs.
Context `{!Env, !FindMnt} (Hh : honest) (config : Config) (Hlay : layout config).
Context (T : gset GoPath.path) (Htg : targets config T).

End runs.

(** ** What a client can rely on *)

(** The target that a request frees. *)
Definition frees (t : GoPath.path) (r : rpc) : Prop :=
  match r with RNodeUnpublishVolume (Some q) => resolve (nu_TargetPath q) = t | _ => False end.

Lemma dspec_keeps_pub `{!Env} hpc r o s s' t m :
  dspec hpc r o s s' → ¬ frees t r → d_pubs s !! t = Some m → d_pubs s' !! t = Some m.
Proof.
  intros Hs Hn Hm. destruct Hs; cbn [d_pubs frees] in *; try done.
  - rewrite lookup_insert_ne; [done|]. intros <-. congruence.
  - rewrite lookup_insert_ne; [done|]. intros <-. congruence.
  - by rewrite lookup_delete_ne.
  - by rewrite lookup_delete_ne.
Qed.

(** A failed request that bound its target did not apply the options. *)
Lemma dspec_half `{!Env} hpc q o s s' m :
  dspec hpc (RNodePublishVolume (Some q)) o s s' → is_ret o = false →
  d_pubs s !! resolve (np_TargetPath q) = None → d_pubs s' !! resolve (np_TargetPath q) = Some m →
  m = halfMount (cfg hpc) q.
Proof.
  intros Hs Ho Hnone Hm. inversion Hs; subst; cbn [d_pubs] in *; try congruence; try done.
  rewrite lookup_insert_eq in Hm. congruence.
Qed.



(** ** The theorems *)



(** When the bind of a read-only publication succeeds and its remount fails, the request fails
    and leaves the volume bound without its options. A retry finds the target mounted and is
    answered with success, if it is answered with success at all, and the volume stays bound
    there without "ro". *)
Theorem failed_remount_writable `{!Env, !FindMnt} config T w0 hpc wi w q w1 a w2 :
  honest → layout config → targets config T → NewHostPathController config w0 = (Ret hpc, wi) →
  good config w → attached T w → proper T (RNodePublishVolume (Some q)) → np_Readonly q = true →
  let t := resolve (np_TargetPath q) in
  pubs_of T (w_mounts w) !! t = None →
  (∃ o, call hpc (RNodePublishVolume (Some q)) w = (o, w1) ∧ is_ret o = false) →
  is_Some (pubs_of T (w_mounts w1) !! t) →
  call hpc (RNodePublishVolume (Some q)) w1 = (Ret a, w2) →
  ∃ m, pubs_of T (w_mounts w2) !! t = Some m ∧ mp_Device m = mp_Device (bindMount config q) ∧ "ro" ∉ mp_Opts m.
Proof.
  intros Hh Hlay Htg Hnew Hg Hat Hp Hro t Hnone (o&Hrun1&Ho) [m Hm] Hrun2.
  destruct (built_controller _ _ _ _ Hnew) as (<-&Hrepos&Hsafe).
  destruct (driver_step Hh hpc T Htg Hlay Hrepos Hsafe _ w Hg Hat Hp) as (Hg1&Hat1&Hs1). rewrite Hrun1 in *.
  cbn [fst snd] in *.
  destruct (driver_step Hh hpc T Htg Hlay Hrepos Hsafe _ w1 Hg1 Hat1 Hp) as (_&_&Hs2). rewrite Hrun2 in Hs2.
  cbn [fst snd] in *. exists m. split; [apply (dspec_keeps_pub _ _ _ _ _ t m Hs2); [by intros []|exact Hm]|].
  rewrite (dspec_half _ _ _ _ _ m Hs1 Ho Hnone Hm). split; [done|]. cbn. set_solver.
Qed.

(** ** A concrete run *)

#[local] Existing Instance demoFindmnt.

Definition demoTargets : gset GoPath.path := {[ ["pods"; "mnt"] ]}.
Lemma demo_targets : targets demoConfig demoTargets.
Proof.
  split.
  - intros t q ->%elem_of_singleton Hq. revert q Hq. apply Forall_forall. by_decide.
  - by intros t t' ->%elem_of_singleton ->%elem_of_singleton.
Qed.
Lemma demo_node_good : good demoConfig (tickw demoNodeWorld).
Proof. apply good_check; [by_wf|by_decide|by_decide|reflexivity]. Qed.
Lemma demo_attached : attached demoTargets (tickw demoNodeWorld).
Proof. split; [by intros m ?%not_elem_of_nil|by left|done]. Qed.

(** The second mount, the remount of the first bind, fails. *)
Definition slipEnv : Env :=
  demoEnv (λ n k _, match k with SysMount => if Nat.eqb n 4 then Some EIO else None | _ => None end)
    (λ _ _, inr demo_statfs) (λ _ _, (1700000000, 5)) (λ _, true).
Lemma slip_honest : honest (H := slipEnv).
Proof. intros n k s. simpl. destruct k; try done. by destruct (Nat.eqb n 4). Qed.
Definition slipBuilt : hostPathController :=
  match (NewHostPathController (H := slipEnv) demoConfig demoNodeWorld).1 with Ret h => h | _ => demoController end.

(** "vol1" is published twice, "new" is made, and "vol1" is unpublished. *)
Definition slipPublish : rpc := RNodePublishVolume (Some (demoPublish "vol1" "/pods/mnt" ∅)).


Lemma demo_target_ok : target_ok demoTargets "/pods/mnt".
Proof. split_and!; [by_decide|by eexists _, _; apply demoTarget|by_decide]. Qed.
Lemma slip_publish : proper demoTargets slipPublish.
Proof. split_and!; [done|by_decide|apply demo_target_ok]. Qed.


(** The state after the first request. *)
Definition slipBound : world := (call (H := slipEnv) slipBuilt slipPublish (tickw demoNodeWorld)).2.




Lemma failed_remount_writable_witness :
  ∃ m, pubs_of demoTargets (w_mounts (call (H := slipEnv) slipBuilt slipPublish slipBound).2) !! ["pods"; "mnt"] = Some m ∧
    mp_Device m = "/data/vol1" ∧ "ro" ∉ mp_Opts m.
Proof.
  destruct (failed_remount_writable (H := slipEnv) demoConfig demoTargets demoNodeWorld slipBuilt (tickw demoNodeWorld)
    (tickw demoNodeWorld) (demoPublish "vol1" "/pods/mnt" ∅) slipBound ReplyDone
    (call (H := slipEnv) slipBuilt slipPublish slipBound).2) as (m&Hm&Hd&Hro);
    [apply slip_honest|apply demo_layout|apply demo_targets|reflexivity|apply demo_node_good|apply demo_attached
    |apply slip_publish|reflexivity|vm_compute; reflexivity| | | |].
  - eexists. split; [apply surjective_pairing|vm_compute; reflexivity].
  - eexists. vm_compute. reflexivity.
  - etransitivity; [apply surjective_pairing|]. f_equal.
  - exists m. split; [exact Hm|]. split; [|exact Hro]. rewrite Hd. vm_compute. reflexivity.
Defined.
