(* ===== verification/Threads.v ===== *)
(** * Requests that are served at the same time

    The gRPC server runs every handler in a goroutine of its own. Here a
    computation is a tree of its calls into the operating system, between
    which the calls of other goroutines may come, and of the operations on
    the mutex of the controller. Schedules of a pool of such threads, a
    rely-guarantee logic for them, freedom from deadlock, the end of every
    schedule, and critical sections that take place one after another. *)
From S2P Require Import Prelude GoErrors OS OSFacts.
From stdpp Require Import relations.

(** ** Threads *)

Inductive prog (A : Type) : Type :=
  | Stop (o : outcome gerror A)
  | Call (X : Type) (c : M X) (k : outcome gerror X → prog A)
  | Lock (p : prog A)
  | Unlock (p : prog A).
Arguments Stop {A} o.
Arguments Call {A X} c k.
Arguments Lock {A} p.
Arguments Unlock {A} p.

(** What comes after an outcome. *)
Fixpoint seqP {A B} (p : prog A) (k : outcome gerror A → prog B) : prog B :=
  match p with
  | Stop o => k o
  | Call c k' => Call c (λ o, seqP (k' o) k)
  | Lock p => Lock (seqP p k)
  | Unlock p => Unlock (seqP p k)
  end.

Definition retP {A} (a : A) : prog A := Stop (Ret a).
Definition failP {A} (e : gerror) : prog A := Stop (Fail e).
Definition panicP {A} (s : string) : prog A := Stop (Panic s).
(** One step. *)
Definition atom {A} (m : M A) : prog A := Call m Stop.

Definition bindP {A B} (p : prog A) (k : A → prog B) : prog B :=
  seqP p (λ o, match o with Ret a => k a | Fail e => Stop (Fail e) | Panic s => Stop (Panic s) end).
Definition tryP {A} (p : prog A) : prog (A + gerror) :=
  seqP p (λ o, Stop (match o with Ret a => Ret (inl a) | Fail e => Ret (inr e) | Panic s => Panic s end)).
Definition wrapP {A} (f : gerror → gerror) (p : prog A) : prog A :=
  seqP p (λ o, Stop (match o with Ret a => Ret a | Fail e => Fail (f e) | Panic s => Panic s end)).
Fixpoint foldP {A B} (f : B → A → prog B) (b : B) (l : list A) : prog B :=
  match l with
  | [] => retP b
  | x :: l' => bindP (f b x) (λ b', foldP f b' l')
  end.
(** [mutex.Lock(); defer mutex.Unlock()]. *)
Definition locked {A} (p : prog A) : prog A := Lock (seqP p (λ o, Unlock (Stop o))).

Declare Scope thread_scope.
Delimit Scope thread_scope with T.
Notation "x <- m ;; k" := (bindP m (λ x, k)) (at level 100, m at next level, right associativity) : thread_scope.
Notation "m1 >> m2" := (bindP m1 (λ _, m2)) (at level 100, right associativity) : thread_scope.

(** *** A thread that is not disturbed *)

Fixpoint run {A} (p : prog A) (w : world) : outcome gerror A * world :=
  match p with
  | Stop o => (o, w)
  | Call c k => let '(o, w1) := c w in run (k o) w1
  | Lock p | Unlock p => run p w
  end.

Lemma run_seq {A B} (p : prog A) (k : outcome gerror A → prog B) w :
  run (seqP p k) w = let '(o, w1) := run p w in run (k o) w1.
Proof.
  revert w. induction p as [o|X c k' IH|p IH|p IH]; intros w; cbn; [done| |apply IH|apply IH].
  destruct (c w) as [o w1]. apply IH.
Qed.

(** The thread does what the computation does, from any well-formed tree. *)
Definition cuts {A} (p : prog A) (m : M A) : Prop :=
  ∀ w, wf_fs (w_fs w) → run p w = m w ∧ wf_fs (w_fs (m w).2).

Section cuts.
Implicit Types (w : world).

Lemma cuts_ext {A} (p : prog A) m m' : (∀ w, m w = m' w) → cuts p m → cuts p m'.
Proof. intros Hm Hp w Hwf. rewrite <-Hm. by apply Hp. Qed.
Lemma cuts_ret {A} (a : A) : cuts (retP a) (ret a).
Proof. by split. Qed.
Lemma cuts_fail {A} e : cuts (A := A) (failP e) (fail e).
Proof. by split. Qed.
Lemma cuts_panic {A} s : cuts (A := A) (panicP s) (panic s).
Proof. by split. Qed.
Lemma cuts_atom {A} (m : M A) : respects wf_rel m → cuts (atom m) m.
Proof. intros Hm w Hwf. cbn. specialize (Hm w Hwf). by destruct (m w). Qed.
Lemma cuts_bind {A B} (p : prog A) m (k : A → prog B) (k' : A → M B) :
  cuts p m → (∀ a, cuts (k a) (k' a)) → cuts (bindP p k) (bind m k').
Proof.
  intros Hp Hk w Hwf. destruct (Hp w Hwf) as [Hr Hwf1]. unfold bindP, bind. rewrite run_seq, Hr.
  destruct (m w) as [[a|e|s] w1]; cbn in *; [|done|done]. by apply Hk.
Qed.
Lemma cuts_try {A} (p : prog A) m : cuts p m → cuts (tryP p) (try m).
Proof.
  intros Hp w Hwf. destruct (Hp w Hwf) as [Hr Hwf1]. unfold tryP, try. rewrite run_seq, Hr.
  by destruct (m w) as [[a|e|s] w1].
Qed.
Lemma cuts_wrap {A} f (p : prog A) m : cuts p m → cuts (wrapP f p) (wrapErr f m).
Proof.
  intros Hp w Hwf. destruct (Hp w Hwf) as [Hr Hwf1]. unfold wrapP, wrapErr. rewrite run_seq, Hr.
  by destruct (m w) as [[a|e|s] w1].
Qed.
Lemma cuts_fold {A B} (f : B → A → prog B) f' l :
  (∀ b x, x ∈ l → cuts (f b x) (f' b x)) → ∀ b, cuts (foldP f b l) (foldM f' b l).
Proof.
  induction l as [|x l IH]; intros Hf b; [apply cuts_ret|]. cbn [foldP foldM].
  apply cuts_bind; [apply Hf; left|]. intros b'. apply IH. intros b0 y Hy. apply Hf. by right.
Qed.
Lemma run_locked {A} (p : prog A) w : run (locked p) w = run p w.
Proof. unfold locked. cbn [run]. rewrite run_seq. by destruct (run p w). Qed.
Lemma cuts_locked {A} (p : prog A) m : cuts p m → cuts (locked p) m.
Proof. intros Hp w Hwf. rewrite run_locked. by apply Hp. Qed.
End cuts.

(** ** Schedules *)

(** The state, the thread that holds the mutex, and the threads. *)
Record conf (A : Type) := Conf { cf_world : world; cf_lock : option nat; cf_threads : gmap nat (prog A) }.
Arguments Conf {A} _ _ _.
Arguments cf_world {A} _.
Arguments cf_lock {A} _.
Arguments cf_threads {A} _.

Inductive sched {A} : conf A → conf A → Prop :=
  | sched_call i X (c : M X) k w l ts :
      ts !! i = Some (Call c k) →
      sched (Conf w l ts) (Conf (c w).2 l (<[i := k (c w).1]> ts))
  | sched_lock i p w ts :
      ts !! i = Some (Lock p) → sched (Conf w None ts) (Conf w (Some i) (<[i := p]> ts))
  | sched_unlock i p w ts :
      ts !! i = Some (Unlock p) → sched (Conf w (Some i) ts) (Conf w None (<[i := p]> ts)).

Definition stopped {A} (p : prog A) : Prop := match p with Stop _ => True | _ => False end.
#[export] Instance stopped_dec {A} (p : prog A) : Decision (stopped p).
Proof. destruct p; apply _. Defined.

(** A schedule that is given by the threads that make a step, for examples. *)
Definition advance {A} (i : nat) (c : conf A) : conf A :=
  match cf_threads c !! i, cf_lock c with
  | Some (Call m k), l => Conf (m (cf_world c)).2 l (<[i := k (m (cf_world c)).1]> (cf_threads c))
  | Some (Lock p), None => Conf (cf_world c) (Some i) (<[i := p]> (cf_threads c))
  | Some (Unlock p), Some j =>
      if decide (i = j) then Conf (cf_world c) None (<[i := p]> (cf_threads c)) else c
  | _, _ => c
  end.
Definition follow {A} (turns : list nat) (c : conf A) : conf A := foldl (λ c i, advance i c) c turns.

Lemma advance_sched {A} i (c : conf A) : rtc sched c (advance i c).
Proof.
  destruct c as [w l ts]. unfold advance. cbn. destruct (ts !! i) as [[o|X m k|p|p]|] eqn:Hi; [done|..|done].
  - apply rtc_once. by constructor.
  - destruct l; [done|]. apply rtc_once. by constructor.
  - destruct l as [j|]; [|done]. case_decide; [subst|done]. apply rtc_once. by constructor.
Qed.
Lemma follow_sched {A} turns (c : conf A) : rtc sched c (follow turns c).
Proof.
  revert c. induction turns as [|i turns IH]; intros c; [done|]. cbn. etrans; [apply advance_sched|apply IH].
Qed.

(** ** Rely and guarantee

    [I] holds all the time; a thread relies on [R] for the steps of the others
    and guarantees [G] for its own. *)

Section rely_guarantee.
Context (I : world → Prop).

(** What the others do does not make [L] false. *)
Definition stable (R : world → world → Prop) (L : world → Prop) : Prop :=
  ∀ w w', I w → I w' → R w w' → L w → L w'.

Section rg.
Context (R G : world → world → Prop).

(** From [L], every step keeps [I] and [G], and the thread ends with [Q]. *)
Fixpoint rg {A} (L : world → Prop) (p : prog A) (Q : outcome gerror A → world → Prop) : Prop :=
  match p with
  | Stop o => ∀ w, I w → L w → Q o w
  | Call c k => ∀ w, I w → L w →
      I (c w).2 ∧ G w (c w).2 ∧ ∃ L', stable R L' ∧ L' (c w).2 ∧ rg L' (k (c w).1) Q
  | Lock p | Unlock p => rg L p Q
  end.

Lemma rg_weaken {A} (L L' : world → Prop) (p : prog A) (Q Q' : outcome gerror A → world → Prop) :
  rg L p Q → (∀ w, I w → L' w → L w) → (∀ o w, I w → Q o w → Q' o w) → rg L' p Q'.
Proof.
  revert L L'. induction p as [o|X c k IH|p IH|p IH]; intros L L' Hp HL HQ; cbn in *; [auto| |eauto|eauto].
  intros w Hw Hl. destruct (Hp w Hw (HL w Hw Hl)) as (Hi&Hg&L1&Hst&Hl1&Hk). split_and!; [done..|].
  exists L1. split_and!; [done..|]. by eapply IH.
Qed.

Lemma rg_seq {A B} L (p : prog A) (k : outcome gerror A → prog B) (P : outcome gerror A → world → Prop) Q :
  rg L p P → (∀ o, rg (P o) (k o) Q) → rg L (seqP p k) Q.
Proof.
  intros Hp Hk. revert L Hp. induction p as [o|X c k' IH|p IH|p IH]; intros L Hp; cbn in *; [..|by apply IH|by apply IH].
  - eapply rg_weaken; [apply Hk|exact Hp|done].
  - intros w Hw Hl. destruct (Hp w Hw Hl) as (Hi&Hg&L1&Hst&Hl1&Hr). split_and!; [done..|].
    exists L1. split_and!; [done..|]. by apply IH.
Qed.
End rg.

(** *** Pools of threads *)

Section pools.
Context {A : Type} (R G : nat → world → world → Prop) (Q : nat → outcome gerror A → world → Prop).
Context (HRG : ∀ i j w w', i ≠ j → G j w w' → R i w w').

Definition pool_rg (c : conf A) : Prop :=
  I (cf_world c) ∧
  ∀ i p, cf_threads c !! i = Some p → ∃ L, stable (R i) L ∧ L (cf_world c) ∧ rg (R i) (G i) L p (Q i).

(** A step is made by one of the threads, or the state does not change. *)
Lemma sched_rg (c c' : conf A) :
  sched c c' → pool_rg c →
  pool_rg c' ∧ (cf_world c' = cf_world c ∨ ∃ i, is_Some (cf_threads c !! i) ∧ G i (cf_world c) (cf_world c')).
Proof.
  intros Hs [Hi Hts]. destruct Hs as [i X m k w l ts Hp|i p w ts Hp|i p w ts Hp]; cbn in *.
  - destruct (Hts i _ Hp) as (L&HL&Hl&Hr). cbn in Hr. destruct (Hr w Hi Hl) as (Hi'&Hg&L'&HL'&Hl'&Hr').
    split; [split; [done|]|right; eauto]. cbn. intros j q Hq. destruct (decide (i = j)) as [<-|Hne].
    + rewrite lookup_insert_eq in Hq. injection Hq as <-. eauto.
    + rewrite lookup_insert_ne in Hq by done. destruct (Hts j q Hq) as (L2&HL2&Hl2&Hr2).
      exists L2. split_and!; [done| |done]. eapply HL2; [exact Hi|done| |done]. by eapply HRG.
  - split; [split; [done|]|by left]. cbn. intros j q Hq. destruct (decide (i = j)) as [<-|Hne].
    + rewrite lookup_insert_eq in Hq. injection Hq as <-. exact (Hts i _ Hp).
    + rewrite lookup_insert_ne in Hq by done. by apply Hts.
  - split; [split; [done|]|by left]. cbn. intros j q Hq. destruct (decide (i = j)) as [<-|Hne].
    + rewrite lookup_insert_eq in Hq. injection Hq as <-. exact (Hts i _ Hp).
    + rewrite lookup_insert_ne in Hq by done. by apply Hts.
Qed.

Lemma scheds_rg (c c' : conf A) : rtc sched c c' → pool_rg c → pool_rg c'.
Proof. induction 1 as [c|c c1 c' Hs _ IH]; intros Hp; [done|]. by apply IH, (sched_rg c c1). Qed.

(** The answers that have been given are what the threads promise. *)
Lemma pool_rg_answer (c : conf A) i o :
  pool_rg c → cf_threads c !! i = Some (Stop o) → Q i o (cf_world c).
Proof. intros [Hi Hts] Hp. destruct (Hts i _ Hp) as (L&_&Hl&Hr). by apply Hr. Qed.
End pools.
End rely_guarantee.

Lemma sched_dom {A} (c c' : conf A) : sched c c' → dom (cf_threads c') = dom (cf_threads c).
Proof. intros Hs. destruct Hs; cbn; apply dom_insert_lookup_L; eauto. Qed.

(** What every step of every thread guarantees, the schedule guarantees. *)
Lemma scheds_guarantee {A} I R G Q (P : world → world → Prop) `{!PreOrder P} (c c' : conf A) :
  (∀ i j w w', i ≠ j → G j w w' → R i w w') →
  (∀ i w w', i ∈ dom (cf_threads c) → G i w w' → P w w') →
  rtc sched c c' → pool_rg I R G Q c → P (cf_world c) (cf_world c').
Proof.
  intros HRG HP Hs. induction Hs as [c|c c1 c' Hs _ IH]; intros Hp; [done|].
  destruct (sched_rg I R G Q HRG c c1 Hs Hp) as [Hp1 Hc]. rewrite (sched_dom _ _ Hs) in IH.
  etrans; [|apply IH; [done|done]]. destruct Hc as [->|(i&Hi&Hg)]; [done|].
  eapply HP; [|exact Hg]. by apply elem_of_dom.
Qed.

(** Threads that all guarantee and rely on the same. *)
Lemma scheds_same {A} I G Q `{!PreOrder G} (c c' : conf A) :
  rtc sched c c' → pool_rg I (λ _, G) (λ _, G) Q c →
  pool_rg I (λ _, G) (λ _, G) Q c' ∧ G (cf_world c) (cf_world c').
Proof.
  intros Hs Hp. split.
  - eapply scheds_rg; [|exact Hs|exact Hp]. auto.
  - apply (scheds_guarantee I (λ _, G) (λ _, G) Q G); auto.
Qed.

(** ** The mutex *)

(** Whether the thread holds the mutex before and after. *)
Fixpoint bal {A} (h h' : bool) (p : prog A) : Prop :=
  match p with
  | Stop _ => h = h'
  | Call c k => ∀ o, bal h h' (k o)
  | Lock p => h = false ∧ bal true h' p
  | Unlock p => h = true ∧ bal false h' p
  end.

Lemma bal_seq {A B} h h1 h' (p : prog A) (k : outcome gerror A → prog B) :
  bal h h1 p → (∀ o, bal h1 h' (k o)) → bal h h' (seqP p k).
Proof.
  revert h. induction p as [o|X c k' IH|p IH|p IH]; intros h Hp Hk; cbn in *; [by subst|auto|..];
    destruct Hp as [-> Hp]; auto.
Qed.

(** The thread does not touch the mutex. *)
Fixpoint nolock {A} (p : prog A) : Prop :=
  match p with
  | Stop _ => True
  | Call c k => ∀ o, nolock (k o)
  | Lock _ | Unlock _ => False
  end.
Lemma nolock_seq {A B} (p : prog A) (k : outcome gerror A → prog B) :
  nolock p → (∀ o, nolock (k o)) → nolock (seqP p k).
Proof. induction p as [o|X c k' IH|p IH|p IH]; intros Hp Hk; cbn in *; [auto|auto|done|done]. Qed.
Lemma nolock_bal {A} h (p : prog A) : nolock p → bal h h p.
Proof. induction p as [o|X c k' IH|p IH|p IH]; intros Hp; cbn in *; [done|auto|done|done]. Qed.
Lemma bal_locked {A} (p : prog A) : nolock p → bal false false (locked p).
Proof. intros Hp. split; [done|]. eapply bal_seq; [by apply nolock_bal|]. intros o. by split. Qed.

(** Every thread gives back what it takes, and the one that holds the mutex is
    in the pool. *)
Definition lock_ok {A} (c : conf A) : Prop :=
  (∀ i p, cf_threads c !! i = Some p → bal (bool_decide (cf_lock c = Some i)) false p) ∧
  (∀ i, cf_lock c = Some i → is_Some (cf_threads c !! i)).

Lemma sched_lock_ok {A} (c c' : conf A) : sched c c' → lock_ok c → lock_ok c'.
Proof.
  intros Hs [Hb Hh]. destruct Hs as [i X m k w l ts Hp|i p w ts Hp|i p w ts Hp]; cbn in *.
  - split; cbn.
    + intros j q [[<- <-]|[Hne Hq]]%lookup_insert_Some; [|by apply Hb]. exact (Hb i _ Hp _).
    + intros j Hj. destruct (decide (i = j)) as [<-|Hne]; [by rewrite lookup_insert_eq|].
      rewrite lookup_insert_ne by done. by apply Hh.
  - split; cbn.
    + intros j q [[<- <-]|[Hne Hq]]%lookup_insert_Some.
      * rewrite bool_decide_true by done. apply (Hb i _ Hp).
      * rewrite bool_decide_false by congruence. by apply (Hb j).
    + intros j [= <-]. by rewrite lookup_insert_eq.
  - split; cbn; [|done]. intros j q [[<- <-]|[Hne Hq]]%lookup_insert_Some.
    + apply (Hb i _ Hp).
    + specialize (Hb j _ Hq). by rewrite bool_decide_false in Hb by congruence.
Qed.

(** As long as a request is not answered some thread can go on. *)
Lemma sched_progress {A} (c : conf A) i p :
  lock_ok c → cf_threads c !! i = Some p → ¬ stopped p → ∃ c', sched c c'.
Proof.
  destruct c as [w [j|] ts]; intros [Hb Hh] Hp Hns; cbn in *.
  - destruct (Hh j eq_refl) as [q Hq]. specialize (Hb j q Hq). rewrite bool_decide_true in Hb by done.
    destruct q as [o|X m k|q|q]; [done| |by destruct Hb|]; eexists; by constructor.
  - specialize (Hb i p Hp). rewrite bool_decide_false in Hb by done.
    destruct p as [o|X m k|q|q]; [done|..|by destruct Hb]; eexists; by constructor.
Qed.

(** ** The end of every schedule *)

(** What is left of a thread after a step. *)
Definition rest {A} (p q : prog A) : Prop :=
  match p with
  | Stop _ => False
  | Call c k => ∃ o, q = k o
  | Lock p | Unlock p => q = p
  end.

Lemma sn_rest {A} (p : prog A) : sn rest p.
Proof.
  induction p as [o|X c k IH|p IH|p IH]; constructor; unfold flip; cbn; [done|..].
  - intros q [o ->]. apply IH.
  - by intros q ->.
  - by intros q ->.
Qed.

(** One thread of a pool makes a step. *)
Definition pool_rest {A} (ts ts' : gmap nat (prog A)) : Prop :=
  ∃ i p q, ts !! i = Some p ∧ rest p q ∧ ts' = <[i := q]> ts.

Lemma sn_pool_insert {A} (ts : gmap nat (prog A)) i p :
  sn pool_rest ts → ts !! i = None → sn pool_rest (<[i := p]> ts).
Proof.
  intros Hts. revert p. induction Hts as [ts _ IHts]. intros p. induction (sn_rest p) as [p _ IHp]. intros Hi.
  constructor. unfold flip. intros ts' (j&q&q'&Hq&Hr&->). apply lookup_insert_Some in Hq as [[<- <-]|[Hne Hq]].
  - rewrite insert_insert_eq. by apply IHp.
  - rewrite insert_insert_ne by done. apply IHts; [by exists j, q, q'|]. by rewrite lookup_insert_ne.
Qed.
Lemma sn_pool {A} (ts : gmap nat (prog A)) : sn pool_rest ts.
Proof.
  induction ts as [|i p ts Hi IH] using map_ind; [|by apply sn_pool_insert].
  constructor. unfold flip. by intros ts' (i&p&q&Hp&_).
Qed.

(** There is no endless schedule. *)
Lemma sn_sched {A} (c : conf A) : sn sched c.
Proof.
  remember (cf_threads c) as ts eqn:Hts. revert c Hts. induction (sn_pool ts) as [ts _ IH]. intros c ->.
  constructor. unfold flip. intros c' Hs. refine (IH (cf_threads c') _ c' eq_refl).
  destruct Hs as [i X m k w l ts Hp|i p w ts Hp|i p w ts Hp]; cbn; eexists i, _, _; (split; [exact Hp|]); split; try done.
  by eexists.
Qed.

(** Every request is answered. *)
Definition answered {A} (c : conf A) : Prop := ∀ i p, cf_threads c !! i = Some p → stopped p.
#[export] Instance answered_dec {A} (c : conf A) : Decision (answered c).
Proof. refine (cast_if (decide (map_Forall (λ _, stopped) (cf_threads c)))); done. Defined.

Lemma sched_lock_oks {A} (c c' : conf A) : rtc sched c c' → lock_ok c → lock_ok c'.
Proof. induction 1; eauto using sched_lock_ok. Qed.

Lemma lock_ok_start {A} (w : world) (ts : gmap nat (prog A)) :
  (∀ i p, ts !! i = Some p → bal false false p) → lock_ok (Conf w None ts).
Proof. intros Hb. split; [|done]. cbn. intros i p Hp. rewrite bool_decide_false by done. by apply (Hb i). Qed.

(** A schedule that cannot go on has answered everything and left the mutex free. *)
Lemma sched_stuck {A} (c : conf A) :
  lock_ok c → nf sched c → answered c ∧ cf_lock c = None.
Proof.
  intros Hok Hnf. assert (answered c) as Ha.
  { intros i p Hp. destruct (decide (stopped p)) as [|Hns]; [done|]. destruct Hnf. by eapply sched_progress. }
  split; [done|]. destruct (cf_lock c) as [i|] eqn:Hl; [|done]. exfalso. destruct Hok as [Hb Hh].
  destruct (Hh i Hl) as [p Hp]. specialize (Hb i p Hp). rewrite bool_decide_true in Hb by done.
  specialize (Ha i p Hp). by destruct p.
Qed.

Lemma scheds_dom {A} (c c' : conf A) : rtc sched c c' → dom (cf_threads c') = dom (cf_threads c).
Proof. induction 1 as [c|c c1 c' Hs _ IH]; [done|]. by rewrite IH, (sched_dom c c1). Qed.

(** Every state can be carried on to one in which everything is answered. *)
Lemma sched_completes {A} (c : conf A) : lock_ok c → ∃ c', rtc sched c c' ∧ answered c'.
Proof.
  induction (sn_sched c) as [c _ IH]. intros Hok. destruct (decide (answered c)) as [Ha|Hna]; [by exists c|].
  assert (∃ i p, cf_threads c !! i = Some p ∧ ¬ stopped p) as (i&p&Hp&Hns).
  { apply (map_not_Forall (λ _, stopped)) in Hna as (i&p&Hp&Hns). eauto. }
  destruct (sched_progress c i p Hok Hp Hns) as [c1 Hs].
  destruct (IH c1 Hs) as (c'&Hc&Ha); [by eapply sched_lock_ok|]. exists c'. split; [|done]. by eapply rtc_l.
Qed.

(** ** Critical sections *)

(** The thread holds the mutex until it is through. *)
Fixpoint critical {A} (p : prog A) : Prop :=
  match p with
  | Stop _ | Lock _ => False
  | Call c k => ∀ o, critical (k o)
  | Unlock p => stopped p
  end.
(** All the calls of the thread are made while it holds the mutex. *)
Definition guarded {A} (p : prog A) : Prop :=
  match p with
  | Stop _ => True
  | Lock p => critical p
  | Call _ _ | Unlock _ => False
  end.

Lemma critical_unlock {A B} (p : prog A) (k : outcome gerror A → prog B) :
  nolock p → (∀ o, critical (k o)) → critical (seqP p k).
Proof. induction p as [o|X c k' IH|p IH|p IH]; intros Hp Hk; cbn in *; [auto|auto|done|done]. Qed.
Lemma critical_seq {A B} (p : prog A) (k : outcome gerror A → prog B) :
  critical p → (∀ o, stopped (k o)) → critical (seqP p k).
Proof.
  induction p as [o|X c k' IH|p IH|p IH]; intros Hp Hk; cbn in *; [done|auto|done|].
  destruct p as [o| | |]; [apply Hk|done..].
Qed.
Lemma guarded_locked {A} (p : prog A) : nolock p → guarded (locked p).
Proof. intros Hp. cbn. by apply critical_unlock. Qed.
Lemma guarded_seq {A B} (p : prog A) (k : outcome gerror A → prog B) :
  guarded p → (∀ o, stopped (k o)) → guarded (seqP p k).
Proof.
  destruct p as [o|X c k'|p|p]; intros Hp Hk; cbn in *; [|done| |done].
  - specialize (Hk o). by destruct (k o).
  - by apply critical_seq.
Qed.
Lemma critical_running {A} (p : prog A) : critical p → ¬ stopped p.
Proof. by destruct p; cbn; intros ? []. Qed.
Lemma critical_bal {A} (p : prog A) : critical p → bal true false p.
Proof. induction p as [o|X c k IH|p IH|p IH]; intros Hp; cbn in *; [done|auto|done|]. by destruct p. Qed.
Lemma guarded_bal {A} (p : prog A) : guarded p → bal false false p.
Proof. destruct p as [o|X c k|p|p]; intros Hp; cbn in *; [done|done| |done]. auto using critical_bal. Qed.

(** One request after another. *)
Fixpoint one_by_one {A} (calls : gmap nat (M A)) (order : list nat) (w : world)
    : gmap nat (outcome gerror A) * world :=
  match order with
  | [] => (∅, w)
  | i :: order' =>
      match calls !! i with
      | None => one_by_one calls order' w
      | Some m =>
          let '(o, w1) := m w in
          let '(answers, w2) := one_by_one calls order' w1 in (<[i := o]> answers, w2)
      end
  end.

Lemma one_by_one_snoc {A} (calls : gmap nat (M A)) order i m w :
  calls !! i = Some m → i ∉ order →
  one_by_one calls (order ++ [i]) w =
    let '(answers, w1) := one_by_one calls order w in (<[i := (m w1).1]> answers, (m w1).2).
Proof.
  intros Hm. revert w. induction order as [|j order IH]; intros w Hi; cbn.
  - rewrite Hm. by destruct (m w).
  - apply not_elem_of_cons in Hi as [Hne Hi]. destruct (calls !! j) as [m'|]; [|by apply IH].
    destruct (m' w) as [o w1]. rewrite IH by done. destruct (one_by_one calls order w1) as [answers w2].
    by rewrite insert_insert_ne.
Qed.

(** Calls that do the same from well-formed trees. *)
Lemma one_by_one_ext {A} (calls calls' : gmap nat (M A)) order w :
  (∀ i m w', calls !! i = Some m → wf_fs (w_fs w') →
     ∃ m', calls' !! i = Some m' ∧ m w' = m' w' ∧ wf_fs (w_fs (m' w').2)) →
  (∀ i, calls !! i = None → calls' !! i = None) → wf_fs (w_fs w) →
  one_by_one calls order w = one_by_one calls' order w.
Proof.
  intros Hc Hd. revert w. induction order as [|i order IH]; intros w Hwf; [done|]. cbn.
  destruct (calls !! i) as [m|] eqn:Hm.
  - destruct (Hc i m w Hm Hwf) as (m'&->&->&Hwf'). destruct (m' w) as [o w1]. cbn in Hwf'. by rewrite IH.
  - rewrite Hd by done. by apply IH.
Qed.

(** A schedule of guarded threads seen as a sequence: the requests that have
    been answered in the order they held the mutex, then the one that holds it. *)
Record in_order {A} (ts : gmap nat (prog A)) (w : world) (c : conf A) (order : list nat) : Prop := {
  io_nodup : NoDup order;
  io_answered : ∀ i, i ∈ order ↔ ∃ o, cf_threads c !! i = Some (Stop o);
  io_answers : ∀ i o, cf_threads c !! i = Some (Stop o) →
    (one_by_one (run <$> ts) order w).1 !! i = Some o;
  io_dom : dom (cf_threads c) = dom ts;
  io_waiting : ∀ i p, cf_threads c !! i = Some p → ¬ stopped p → cf_lock c ≠ Some i →
    ts !! i = Some p ∧ guarded p;
  io_free : cf_lock c = None → cf_world c = (one_by_one (run <$> ts) order w).2;
  io_holder : ∀ i, cf_lock c = Some i → ∃ p q, ts !! i = Some p ∧ cf_threads c !! i = Some q ∧ critical q ∧
    run q (cf_world c) = run p (one_by_one (run <$> ts) order w).2;
}.

Lemma in_order_lock {A} (ts : gmap nat (prog A)) w w1 ts1 i p order :
  in_order ts w (Conf w1 None ts1) order → ts1 !! i = Some (Lock p) →
  in_order ts w (Conf w1 (Some i) (<[i := p]> ts1)) order.
Proof.
  intros [Hnd Han Has Hdom Hw Hf Hh] Hp. cbn in *. destruct (Hw i _ Hp) as [Hts Hg]; [by intros []|done|].
  pose proof (critical_running p Hg) as Hns.
  split; cbn; [done|..].
  - intros j. rewrite Han. destruct (decide (i = j)) as [<-|Hne]; [|by rewrite lookup_insert_ne].
    rewrite lookup_insert_eq, Hp. split; intros [o [= Ho]]. by rewrite Ho in Hns.
  - intros j o [[_ Ho]|[_ Ho]]%lookup_insert_Some; [|by apply Has]. by rewrite Ho in Hns.
  - rewrite dom_insert_lookup_L by eauto. done.
  - intros j q [[<- _]|[Hne Hq]]%lookup_insert_Some Hs Hl; [done|]. by apply Hw.
  - done.
  - intros j [= <-]. exists (Lock p), p. rewrite lookup_insert_eq. split_and!; [done..|]. by rewrite <-Hf.
Qed.

Lemma in_order_call {A} (ts : gmap nat (prog A)) w w1 l ts1 i X (m : M X) k order :
  in_order ts w (Conf w1 l ts1) order → ts1 !! i = Some (Call m k) →
  in_order ts w (Conf (m w1).2 l (<[i := k (m w1).1]> ts1)) order.
Proof.
  intros [Hnd Han Has Hdom Hw Hf Hh] Hp. cbn in *.
  destruct (decide (l = Some i)) as [->|Hl]; [|destruct (Hw i _ Hp) as [_ []]; [by intros []|done]].
  destruct (Hh i eq_refl) as (p&q&Hts&Hq&Hc&Hr). rewrite Hp in Hq. injection Hq as <-.
  cbn in Hc, Hr. destruct (m w1) as [o w2]. cbn. specialize (Hc o).
  pose proof (critical_running (k o) Hc) as Hns.
  split; cbn; [done|..].
  - intros j. rewrite Han. destruct (decide (i = j)) as [<-|Hne]; [|by rewrite lookup_insert_ne].
    rewrite lookup_insert_eq, Hp. split; intros [o' [= Ho]]. by rewrite Ho in Hns.
  - intros j o' [[_ Ho]|[_ Ho]]%lookup_insert_Some; [|by apply Has]. by rewrite Ho in Hns.
  - rewrite dom_insert_lookup_L by eauto. done.
  - intros j q [[<- _]|[Hne Hq]]%lookup_insert_Some Hs Hl; [done|]. by apply Hw.
  - done.
  - intros j [= <-]. exists p, (k o). by rewrite lookup_insert_eq.
Qed.

Lemma in_order_unlock {A} (ts : gmap nat (prog A)) w w1 ts1 i p order :
  in_order ts w (Conf w1 (Some i) ts1) order → ts1 !! i = Some (Unlock p) →
  in_order ts w (Conf w1 None (<[i := p]> ts1)) (order ++ [i]).
Proof.
  intros [Hnd Han Has Hdom Hw Hf Hh] Hp. cbn in *.
  destruct (Hh i eq_refl) as (p0&q&Hts&Hq&Hc&Hr). rewrite Hp in Hq. injection Hq as <-.
  cbn in Hc, Hr. destruct p as [o| | |]; [|done..]. cbn in Hr.
  assert (i ∉ order) as Hi by (rewrite Han, Hp; by intros [? ?]).
  assert (one_by_one (run <$> ts) (order ++ [i]) w = (<[i := o]> (one_by_one (run <$> ts) order w).1, w1)) as Ho.
  { rewrite (one_by_one_snoc _ _ _ (run p0)) by (done || by rewrite lookup_fmap, Hts).
    destruct (one_by_one _ order w) as [answers w2]. cbn in *. by rewrite <-Hr. }
  split; cbn; rewrite ?Ho; cbn.
  - apply NoDup_app. split_and!; [done| |apply NoDup_singleton]. intros j Hj ->%list_elem_of_singleton. done.
  - intros j. rewrite elem_of_app, Han, list_elem_of_singleton. destruct (decide (i = j)) as [<-|Hne].
    + rewrite lookup_insert_eq. split; [by eexists|by right].
    + rewrite lookup_insert_ne by done. split; [by intros [?|?]; [|congruence]|by left].
  - intros j o' Hj. destruct (decide (i = j)) as [<-|Hne].
    + rewrite lookup_insert_eq in Hj. rewrite lookup_insert_eq. congruence.
    + rewrite lookup_insert_ne in Hj by done. rewrite lookup_insert_ne by done. by apply Has.
  - rewrite dom_insert_lookup_L by eauto. done.
  - intros j q [[<- <-]|[Hne Hq]]%lookup_insert_Some Hs _; [done|]. apply Hw; [done..|congruence].
  - done.
  - done.
Qed.

Lemma sched_in_order {A} (ts : gmap nat (prog A)) w c c' order :
  sched c c' → in_order ts w c order → ∃ more, in_order ts w c' (order ++ more).
Proof.
  intros Hs Ho. destruct Hs as [i X m k w1 l ts1 Hp|i p w1 ts1 Hp|i p w1 ts1 Hp].
  - exists []. rewrite app_nil_r. by apply in_order_call.
  - exists []. rewrite app_nil_r. by apply in_order_lock.
  - exists [i]. by apply in_order_unlock.
Qed.

(** A schedule with all the configurations it passes through. *)
Inductive schedule {A} : conf A → list (conf A) → conf A → Prop :=
  | schedule_nil c : schedule c [c] c
  | schedule_cons c c1 cs c' : sched c c1 → schedule c1 cs c' → schedule c (c :: cs) c'.

Lemma rtc_schedule {A} (c c' : conf A) : rtc sched c c' → ∃ cs, schedule c cs c'.
Proof.
  induction 1 as [c|c c1 c' Hs _ [cs IH]]; [exists [c]; constructor|]. exists (c :: cs). by econstructor.
Qed.

(** One order for the whole schedule: at every moment the requests that have
    been answered are the first of it. *)
Lemma schedule_in_order {A} (ts : gmap nat (prog A)) w c cs c' order :
  schedule c cs c' → in_order ts w c order →
  ∃ more, in_order ts w c' (order ++ more) ∧ ∀ c1, c1 ∈ cs → ∃ k, in_order ts w c1 (take k (order ++ more)).
Proof.
  intros Hs. revert order. induction Hs as [c|c c1 cs c' Hs _ IH]; intros order Ho.
  - exists []. rewrite app_nil_r. split; [done|]. intros c1 ->%list_elem_of_singleton.
    exists (length order). by rewrite firstn_all.
  - destruct (sched_in_order ts w c c1 order Hs Ho) as [more Hm]. destruct (IH _ Hm) as (more'&Hm'&Hcs).
    rewrite <-app_assoc in Hm', Hcs. exists (more ++ more'). split; [done|].
    intros c2 [->|Hc2]%elem_of_cons; [|by apply Hcs]. exists (length order). by rewrite take_app_length.
Qed.

(** The requests that are answered before anything is done come first. *)
Lemma in_order_start {A} (ts : gmap nat (prog A)) w :
  (∀ i p, ts !! i = Some p → guarded p) → ∃ order, in_order ts w (Conf w None ts) order.
Proof.
  intros Hg. set (early := filter (λ kp : nat * prog A, stopped kp.2) ts).
  assert (∀ l, NoDup l → (∀ i, i ∈ l → ∃ o, ts !! i = Some (Stop o)) →
    (one_by_one (run <$> ts) l w).2 = w ∧
    ∀ i o, i ∈ l → ts !! i = Some (Stop o) → (one_by_one (run <$> ts) l w).1 !! i = Some o) as Hl.
  { induction l as [|i l IH]; intros Hnd Hs; [split; [done|]; by intros i o Hi%not_elem_of_nil|].
    apply NoDup_cons in Hnd as [Hi Hnd]. destruct (Hs i) as [o Ho]; [left|]. cbn. rewrite lookup_fmap, Ho. cbn.
    destruct IH as [Hw Ha]; [done|intros j Hj; apply Hs; by right|].
    destruct (one_by_one _ l w) as [answers w2]. cbn in *. split; [done|].
    intros j o' [->|Hj]%elem_of_cons Hjo.
    - rewrite lookup_insert_eq. congruence.
    - rewrite lookup_insert_ne by congruence. by apply Ha. }
  assert (∀ i, i ∈ elements (dom early) ↔ ∃ o, ts !! i = Some (Stop o)) as Hel.
  { intros i. rewrite elem_of_elements, elem_of_dom. split.
    - intros [p [Hp Hs]%map_lookup_filter_Some]. destruct p as [o| | |]; [by exists o|done..].
    - intros [o Ho]. exists (Stop o). by apply map_lookup_filter_Some. }
  exists (elements (dom early)). destruct (Hl (elements (dom early))) as [Hw Ha]; [apply NoDup_elements|apply Hel|].
  split; cbn; [apply NoDup_elements|done| |done| |done|done].
  - intros i o Ho. apply Ha; [|done]. apply Hel. by eexists.
  - intros i p Hp _ _. eauto.
Qed.

(** When everything is answered, the answers and the state are those of the
    requests in one order, of which those that had been answered at any moment
    of the schedule are a prefix. *)
Lemma guarded_in_order {A} (ts : gmap nat (prog A)) w cs c' :
  (∀ i p, ts !! i = Some p → guarded p) →
  schedule (Conf w None ts) cs c' → answered c' →
  ∃ order answers, NoDup order ∧ (∀ i, i ∈ order ↔ i ∈ dom ts) ∧
    one_by_one (run <$> ts) order w = (answers, cf_world c') ∧
    (∀ i o, cf_threads c' !! i = Some (Stop o) → answers !! i = Some o) ∧
    ∀ c, c ∈ cs → ∃ k, ∀ i, i ∈ take k order ↔ ∃ o, cf_threads c !! i = Some (Stop o).
Proof.
  intros Hg Hs Ha. destruct (in_order_start ts w Hg) as [early He].
  destruct (schedule_in_order ts w _ _ _ _ Hs He) as (more&[Hnd Han Has Hdom Hw Hf Hh]&Hcs).
  exists (early ++ more). destruct (one_by_one (run <$> ts) _ w) as [answers w'] eqn:Ho. cbn in *.
  exists answers. split_and!; [done| | |done|].
  - intros i. rewrite Han, <-Hdom, elem_of_dom. split; [intros [o Hp]; eauto|].
    intros [p Hp]. specialize (Ha i p Hp). destruct p; [eauto|done..].
  - f_equal. symmetry. apply Hf. destruct (cf_lock c') as [i|] eqn:Hl; [|done]. exfalso.
    destruct (Hh i eq_refl) as (p&q&_&Hq&Hc'&_). specialize (Ha i q Hq). by destruct q.
  - intros c Hc. destruct (Hcs c Hc) as [k Hk]. exists k. apply Hk.
Qed.

(** *** Along the text of a thread *)

Section nolock.
Lemma nolock_bind {A B} (p : prog A) (k : A → prog B) : nolock p → (∀ a, nolock (k a)) → nolock (bindP p k).
Proof. intros Hp Hk. apply nolock_seq; [done|]. by intros [a|e|s]; cbn. Qed.
Lemma nolock_try {A} (p : prog A) : nolock p → nolock (tryP p).
Proof. intros Hp. by apply nolock_seq. Qed.
Lemma nolock_wrap {A} f (p : prog A) : nolock p → nolock (wrapP f p).
Proof. intros Hp. by apply nolock_seq. Qed.
Lemma nolock_fold {A B} (f : B → A → prog B) b l : (∀ b x, nolock (f b x)) → nolock (foldP f b l).
Proof. intros Hf. revert b. induction l as [|x l IH]; intros b; [done|]. cbn [foldP]. by apply nolock_bind. Qed.
Lemma bal_bind {A B} h h' (p : prog A) (k : A → prog B) :
  bal h h' p → h = h' → (∀ a, bal h h' (k a)) → bal h h' (bindP p k).
Proof. intros Hp <- Hk. eapply bal_seq; [done|]. by intros [a|e|s]; cbn. Qed.
Lemma bal_try {A} h h' (p : prog A) : bal h h' p → bal h h' (tryP p).
Proof. intros Hp. by eapply bal_seq. Qed.
End nolock.

(** A thread makes the calls of a computation that comes first in it, while the others wait. *)
Lemma sched_prefix {A B} i (p : prog A) (k : outcome gerror A → prog B) w l ts :
  nolock p → rtc sched (Conf w l (<[i := seqP p k]> ts)) (Conf (run p w).2 l (<[i := k (run p w).1]> ts)).
Proof.
  revert w. induction p as [o|X c k' IH|p IH|p IH]; intros w Hp; cbn in *; [done| |done|done].
  destruct (c w) as [o w1] eqn:Hc. eapply rtc_l; [apply (sched_call i); by rewrite lookup_insert_eq|].
  rewrite insert_insert_eq, Hc. cbn. by apply IH.
Qed.
Lemma sched_prefix2 {A B C} i (p : prog A) (k : outcome gerror A → prog B) (k' : outcome gerror B → prog C) w l ts :
  nolock p →
  rtc sched (Conf w l (<[i := seqP (seqP p k) k']> ts)) (Conf (run p w).2 l (<[i := seqP (k (run p w).1) k']> ts)).
Proof.
  revert w. induction p as [o|X c k0 IH|p IH|p IH]; intros w Hp; cbn in *; [done| |done|done].
  destruct (c w) as [o w1] eqn:Hc. eapply rtc_l; [apply (sched_call i); by rewrite lookup_insert_eq|].
  rewrite insert_insert_eq, Hc. cbn. by apply IH.
Qed.

(** A thread that is alone ends as if it were run at once. *)
Lemma sched_alone {A} i (p : prog A) w c :
  rtc sched (Conf w None {[i := p]}) c →
  ∃ l q, c = Conf (cf_world c) l {[i := q]} ∧ run q (cf_world c) = run p w.
Proof.
  assert (∀ c0, (∃ l q, c0 = Conf (cf_world c0) l {[i := q]} ∧ run q (cf_world c0) = run p w) →
    rtc sched c0 c → ∃ l q, c = Conf (cf_world c) l {[i := q]} ∧ run q (cf_world c) = run p w) as Hgen.
  { intros c0 Hinv Hs. induction Hs as [c0|c0 c1 c2 Hs _ IH]; [done|]. apply IH. destruct Hinv as (l&q&Hc&Hr).
    destruct Hs as [j X m k w1 l1 ts Hp|j q1 w1 ts Hp|j q1 w1 ts Hp]; injection Hc as Hl Hts; subst; cbn in *;
      apply lookup_singleton_Some in Hp as [<- ->]; rewrite insert_singleton_eq; do 2 eexists; (split; [done|]); cbn in *.
    - by destruct (m w1).
    - done.
    - done. }
  intros Hs. eapply Hgen; [|exact Hs]. by exists None, p.
Qed.

(** *** Rely and guarantee along the text of a thread *)

(** What holds when a result is returned. *)
Definition oks {A} (P : A → world → Prop) (o : outcome gerror A) (w : world) : Prop :=
  match o with Ret a => P a w | _ => True end.

Section rg_text.
Context (I : world → Prop) (R G : world → world → Prop).
Implicit Types (L : world → Prop).

Lemma rg_ret {A} L (a : A) (P : A → world → Prop) : (∀ w, I w → L w → P a w) → rg I R G L (retP a) (oks P).
Proof. done. Qed.
Lemma rg_fail {A} L e (P : A → world → Prop) : rg I R G L (failP e) (oks P).
Proof. done. Qed.
Lemma rg_panic {A} L s (P : A → world → Prop) : rg I R G L (panicP s) (oks P).
Proof. done. Qed.
Lemma rg_atom {A} L (m : M A) (P : A → world → Prop) :
  (∀ a, stable I R (P a)) →
  (∀ w, I w → L w → I (m w).2 ∧ G w (m w).2 ∧ oks P (m w).1 (m w).2) → rg I R G L (atom m) (oks P).
Proof.
  intros HP Hm. cbn. intros w Hw Hl. destruct (Hm w Hw Hl) as (Hi&Hg&Hq). split_and!; [done..|].
  exists (oks P (m w).1). split_and!; [|done|done]. destruct (m w).1 as [a| |]; [apply HP|done..].
Qed.
Lemma rg_bind {A B} L (p : prog A) (k : A → prog B) (P : A → world → Prop) (Q : B → world → Prop) :
  rg I R G L p (oks P) → (∀ a, rg I R G (P a) (k a) (oks Q)) → rg I R G L (bindP p k) (oks Q).
Proof. intros Hp Hk. eapply rg_seq; [exact Hp|]. intros [a|e|s]; [apply Hk|done|done]. Qed.
Lemma rg_try {A} L (p : prog A) (P : A → world → Prop) :
  rg I R G L p (oks P) → rg I R G L (tryP p) (oks (λ r w, match r with inl a => P a w | inr _ => True end)).
Proof. intros Hp. eapply rg_seq; [exact Hp|]. intros [a|e|s]; cbn; auto. Qed.
Lemma rg_wrap {A} L f (p : prog A) (P : A → world → Prop) :
  rg I R G L p (oks P) → rg I R G L (wrapP f p) (oks P).
Proof. intros Hp. eapply rg_seq; [exact Hp|]. intros [a|e|s]; cbn; auto. Qed.
Lemma rg_fold {A B} (f : B → A → prog B) l (P : B → world → Prop) :
  (∀ b x, x ∈ l → rg I R G (P b) (f b x) (oks P)) → ∀ b, rg I R G (P b) (foldP f b l) (oks P).
Proof.
  induction l as [|x l IH]; intros Hf b; [by apply rg_ret|]. cbn [foldP].
  eapply rg_bind; [apply Hf; left|]. intros b'. apply IH. intros b0 y Hy. apply Hf. by right.
Qed.
Lemma rg_locked {A} L (p : prog A) (Q : outcome gerror A → world → Prop) :
  rg I R G L p Q → rg I R G L (locked p) Q.
Proof. intros Hp. cbn. eapply rg_seq; [exact Hp|]. intros o; cbn; auto. Qed.

(** From any state of a thread that knows something that does not change. *)
Lemma rg_pure {A} (P : Prop) L (p : prog A) Q : (P → rg I R G L p Q) → rg I R G (λ w, P ∧ L w) p Q.
Proof.
  induction p as [o|X c k IH|p IH|p IH]; intros Hp; cbn in *; [..|by apply IH|by apply IH].
  - intros w Hw [HP Hl]. by apply Hp.
  - intros w Hw [HP Hl]. by apply Hp.
Qed.
Lemma stable_pure (P : Prop) : stable I R (λ _, P).
Proof. by intros w w'. Qed.
End rg_text.

Lemma rg_guarantee {A} I R G G' L (p : prog A) Q :
  (∀ w w', I w → I w' → G w w' → G' w w') → rg I R G L p Q → rg I R G' L p Q.
Proof.
  intros HG. revert L. induction p as [o|X c k IH|p IH|p IH]; intros L Hp; cbn in *; [done| |by apply IH|by apply IH].
  intros w Hw Hl. destruct (Hp w Hw Hl) as (Hi&Hg&L'&Hst&Hl'&Hk). split_and!; [done|by apply HG|].
  exists L'. split_and!; [done..|]. by apply IH.
Qed.

(** Less may be relied on. *)
Lemma rg_rely {A} I R R' G L (p : prog A) Q :
  (∀ w w', R' w w' → R w w') → rg I R G L p Q → rg I R' G L p Q.
Proof.
  intros HR. revert L. induction p as [o|X c k IH|p IH|p IH]; intros L Hp; cbn in *; [done| |by apply IH|by apply IH].
  intros w Hw Hl. destruct (Hp w Hw Hl) as (Hi&Hg&L'&Hst&Hl'&Hk). split_and!; [done..|].
  exists L'. split_and!; [|done|by apply IH]. intros w1 w2 H1 H2 Hr. apply Hst; auto.
Qed.

(** *** Threads that succeed *)

Definition sure {A} (P : A → world → Prop) (o : outcome gerror A) (w : world) : Prop :=
  match o with Ret a => P a w | _ => False end.

Section sure.
Context (I : world → Prop) (R G : world → world → Prop).

Lemma rg_absurd {A} (L : world → Prop) (p : prog A) Q : (∀ w, ¬ L w) → rg I R G L p Q.
Proof. intros HL. induction p as [o|X c k IH|p IH|p IH]; cbn; [by intros w _ ?%HL|by intros w _ ?%HL|done|done]. Qed.
Lemma sure_bind {A B} L (p : prog A) (k : A → prog B) (P : A → world → Prop) (Q : B → world → Prop) :
  rg I R G L p (sure P) → (∀ a, rg I R G (P a) (k a) (sure Q)) → rg I R G L (bindP p k) (sure Q).
Proof. intros Hp Hk. eapply rg_seq; [exact Hp|]. intros [a|e|s]; [apply Hk|apply rg_absurd; by intros w []..]. Qed.
Lemma sure_wrap {A} L f (p : prog A) (P : A → world → Prop) :
  rg I R G L p (sure P) → rg I R G L (wrapP f p) (sure P).
Proof. intros Hp. eapply rg_seq; [exact Hp|]. intros [a|e|s]; cbn; auto. Qed.
Lemma sure_atom {A} L (m : M A) (P : A → world → Prop) :
  (∀ a, stable I R (P a)) →
  (∀ w, I w → L w → I (m w).2 ∧ G w (m w).2 ∧ sure P (m w).1 (m w).2) → rg I R G L (atom m) (sure P).
Proof.
  intros HP Hm. cbn. intros w Hw Hl. destruct (Hm w Hw Hl) as (Hi&Hg&Hq). split_and!; [done..|].
  exists (sure P (m w).1). split_and!; [|done|done]. destruct (m w).1 as [a| |]; [apply HP|by intros ?..].
Qed.
Lemma sure_ret {A} L (a : A) (P : A → world → Prop) : (∀ w, I w → L w → P a w) → rg I R G L (retP a) (sure P).
Proof. done. Qed.
End sure.
