(* ===== verification/HandlerThreads.v ===== *)
(** * The handlers as threads

    Every RPC handler of the controller and the node service as a thread: a
    step makes at most one call into the operating system (creating a
    directory, reading one, examining a path, [cp], [mount], a removal), so the
    calls of other handlers may come between any two of them. The mutex
    [snapMutex] is taken and given back where the sources do it. A thread that
    is not disturbed does what its handler does. *)
From S2P Require Import Prelude GoStrings GoPath GoErrors OS OSFacts Mount MountFacts Csi Utils Health Reflink.
From S2P Require Import ReflinkFacts ControllerServer ControllerFacts ControllerSnap FindMnt NodeServer.
From S2P Require Import NodeFacts System Catalog CatalogSpec Threads.
Open Scope Z_scope.
Open Scope thread_scope.

Definition checkErrT (err : option gerror) : prog unit :=
  match err with
  | Some e => failP e
  | None => retP tt
  end.
Definition derefT {A} (p : option A) : prog A :=
  match p with
  | Some a => retP a
  | None => panicP "invalid memory address or nil pointer dereference"
  end.
Definition answerT {A} (f : A → reply) (p : prog A) : prog reply := a <- p ;; retP (f a).

Section threads.
Context `{!Env}.

(** ** Utilities *)

(** Makes one directory of [os.MkdirAll]: one that is there already is kept,
    and the directory above it may have gone in the meantime. *)
Definition mkdir_next (cur : GoPath.path) (c : string) : M unit :=
  (fs <- gets w_fs ;;
   match fs !! (cur ++ [c]) with
   | Some NDir => ret tt
   | Some (NFile _) => fail (PathError "mkdir" (pstr (cur ++ [c])) ENOTDIR)
   | None =>
       match fs !! cur with
       | Some NDir => mkdir_at (cur ++ [c])
       | _ => fail (PathError "mkdir" (pstr (cur ++ [c])) (missing_errno fs [] (cur ++ [c])))
       end
   end)%go.
Fixpoint mkdir_thread (cur todo : GoPath.path) : prog unit :=
  match todo with
  | [] => retP tt
  | c :: todo' => atom (mkdir_next cur c) >> mkdir_thread (cur ++ [c]) todo'
  end.
Definition MkdirAll_thread (s : string) : prog unit :=
  if decide (s = "") then failP (PathError "mkdir" s ENOENT) else mkdir_thread [] (resolve s).

Definition getDirectories_thread (storagePoolInfo : gmap string StoragePoolInfo) : prog (list string) :=
  pools <- atom (range_map storagePoolInfo) ;;
  directories <- foldP (λ directories kv, atom (readPoolDirectories directories kv)) [] pools ;;
  retP (sort_Strings directories).

Definition healthCheck_thread (volumePath : string) : prog (bool * string) :=
  r <- tryP (atom (checkPathExistFunc volumePath)) ;;
  match r with
  | inr err => retP (false, Error err)
  | inl spExist =>
      if negb spExist then retP (false, "The source path of the volume doesn't exist")
      else atom (checkIfSpaceAvailable volumePath)
  end.

(** ** The reflink provider *)

Definition GetSnapshotById_thread (r : Reflink) (snapshotId : string) : prog (option Snapshot) :=
  res <- tryP (atom (os_StatInfo (GoPath.Join [path r; snapshotId]))) ;;
  match res with
  | inr err => if errors_Is_NotExist err then retP None else failP err
  | inl (info, ctim) =>
      if negb (IsDir info) then
        failP (ErrorString ("file " +:+ GoPath.Join [path r; snapshotId] +:+ " is not a directory"))
      else
        sourceVolumeId <- atom (getSourceVolumeId r snapshotId) ;;
        retP (Some {| SnapshotId := snapshotId; SourceVolumeId := sourceVolumeId;
                      CreationTime := ctim; ReadyToUse := true |})
  end.

Definition appendSnapshot_thread (r : Reflink) (snapshots : list Snapshot) (entry : string * node)
    : prog (list Snapshot) :=
  if negb (IsDir entry.2) then retP snapshots
  else
    snapshot <- GetSnapshotById_thread r entry.1 ;;
    match snapshot with
    | None => panicP "invalid memory address or nil pointer dereference"
    | Some s => retP (snapshots ++ [s])
    end.

Definition GetAllSnapshots_thread (r : Reflink) : prog (list Snapshot) :=
  es <- atom (os_ReadDir (path r)) ;;
  foldP (appendSnapshot_thread r) [] es.

Definition GetByVolume_thread (r : Reflink) (volumeSourceId : string) : prog (list Snapshot) :=
  snapshots <- GetAllSnapshots_thread r ;;
  retP (filter (λ s, SourceVolumeId s = volumeSourceId) snapshots).

Definition takeSnapshot_thread (r : Reflink) (snapshotId sourceVolumeId : string) : prog Snapshot :=
  let sourcePoolDir := GoPath.Join [sourcePath r; sourceVolumeId] in
  exists_ <- atom (checkPathExistFunc sourcePoolDir) ;;
  if (exists_ : bool) then
    let snapshotDir := GoPath.Join [path r; snapshotId; dataPath] in
    let sourceDir := GoPath.Join [path r; snapshotId; sourceVolumeId] in
    snapshotExists <- atom (checkPathExistFunc snapshotDir) ;;
    if (snapshotExists : bool) then
      atom (createSnapshotFromDir r snapshotId sourceVolumeId snapshotDir)
    else
      MkdirAll_thread snapshotDir >>
      MkdirAll_thread sourceDir >>
      atom (reflinkCopy (sourcePoolDir +:+ "/.") snapshotDir) >>
      atom (createSnapshotFromDir r snapshotId sourceVolumeId snapshotDir)
  else
    failP (ErrorString ("source volume " +:+ sourcePoolDir +:+ " not found, unable to create snapshot")).

Definition dropSnapshot_thread (r : Reflink) (snapshotId : string) : prog unit :=
  let snapPath := GoPath.Join [path r; snapshotId] in
  exists_ <- atom (checkPathExistFunc snapPath) ;;
  if (exists_ : bool) then atom (os_RemoveAll snapPath) else retP tt.

Definition RestoreSnapshot_thread (r : Reflink) (snapshotId targetPath : string) : prog unit :=
  let snapPath := GoPath.Join [path r; snapshotId; dataPath] in
  exists_ <- atom (checkPathExistFunc snapPath) ;;
  if (exists_ : bool) then
    targetExists <- atom (checkPathExistFunc targetPath) ;;
    if negb targetExists then
      failP (ErrorString ("target path " +:+ targetPath +:+ " does not exist"))
    else atom (reflinkCopy (snapPath +:+ "/.") targetPath)
  else
    failP (StatusError NotFound
            ("snapshot " +:+ snapshotId +:+ " not found, unable to restore into volume")).

(** ** The controller *)

(** The repository behind the provider of a pool. *)
Definition withRepo {A} (hpc : hostPathController) (pool : string) (f : Reflink → prog A) : prog A :=
  match repos_of (cfg hpc) !! pool with
  | Some r => f r
  | None => panicP "invalid memory address or nil pointer dereference"
  end.

Definition restoreFromSnapshot_thread (hpc : hostPathController)
    (snapshotId storagePoolName targetVolume : string) : prog unit :=
  locked
    match snapshotproviders hpc !! storagePoolName with
    | None =>
        failP (ErrorString ("unable to restore snapshot because unable to locate snapshot provider for storage pool "
                            +:+ storagePoolName))
    | Some _ =>
        withRepo hpc storagePoolName (λ r,
          RestoreSnapshot_thread r snapshotId
            (GoPath.Join [Path (getPool (cfg hpc) storagePoolName); targetVolume]))
    end.

Definition populateVolume_thread (hpc : hostPathController) (storagePoolName : string)
    (req : CreateVolumeRequest) : prog unit :=
  match cv_VolumeContentSource req with
  | Some (FromSnapshot (Some snapshotId)) =>
      r <- tryP (restoreFromSnapshot_thread hpc snapshotId storagePoolName (cv_Name req)) ;;
      match r with
      | inl _ => retP tt
      | inr err =>
          wrapP (λ derr, WrapError ("failed to delete restore " +:+ cv_Name req +:+ ": " +:+ Error derr) derr)
            (atom (Utils.DeleteVolume (Path (getPool (cfg hpc) storagePoolName)) (cv_Name req))) >>
          failP err
      end
  | _ => retP tt
  end.

Definition CreateVolume_thread (hpc : hostPathController) (req : option CreateVolumeRequest) : prog Volume :=
  checkErrT (validateCreateVolumeRequest req) >>
  req <- derefT req ;;
  checkErrT (validateCreateVolumeRequestTopology hpc req) >>
  let storagePoolName := getStoragePoolNameFromMap (cv_Parameters req) in
  match StoragePools (cfg hpc) !! storagePoolName with
  | None => failP (ErrorString ("unable to locate path for storage pool " +:+ storagePoolName))
  | Some pool =>
      capacity <- atom (getVolumeDirCapacity (Path pool)) ;;
      let topologies :=
        if Shared pool then []
        else [{| Segments := {[ TopologyKeyNode := NodeID (cfg hpc) ]} |}] in
      exists_ <- atom (checkPathExistFunc (GoPath.Join [Path pool; cv_Name req])) ;;
      (if (exists_ : bool) then retP tt
       else wrapP (λ err, WrapError ("failed to create volume " +:+ cv_Name req +:+ ": " +:+ Error err) err)
              (MkdirAll_thread (GoPath.Join [Path pool; cv_Name req]))) >>
      populateVolume_thread hpc storagePoolName req >>
      retP {| v_VolumeId := cv_Name req; v_CapacityBytes := capacity;
              v_VolumeContext := cv_Parameters req; v_ContentSource := cv_VolumeContentSource req;
              v_AccessibleTopology := topologies |}
  end.

Definition DeleteVolume_thread (hpc : hostPathController) (req : option string) : prog unit :=
  checkErrT (validateDeleteVolumeRequest req) >>
  volumeId <- derefT req ;;
  volumeDirs <- getDirectories_thread (StoragePools (cfg hpc)) ;;
  let volumePath := findVolumePath volumeId volumeDirs in
  if decide (volumePath = "") then retP tt
  else wrapP (λ err, ErrorString ("failed to delete volume " +:+ volumeId +:+ ": " +:+ Error err))
         (atom (Utils.DeleteVolume (Dir volumePath) volumeId)).

Definition poolCapacities_thread (hpc : hostPathController) : prog (gmap string Z) :=
  pools <- atom (range_map (StoragePools (cfg hpc))) ;;
  foldP (λ capacityMap kv, atom (addCapacity capacityMap kv)) ∅ pools.

Definition volumeEntry_thread (hpc : hostPathController) (capacityMap : gmap string Z)
    (volumeId volumePath : string) : prog VolumeEntry :=
  health <- healthCheck_thread volumePath ;;
  retP {| ve_Volume := {| v_VolumeId := volumeId;
                          v_CapacityBytes := default 0 (capacityMap !! Dir volumePath);
                          v_VolumeContext := ∅; v_ContentSource := None;
                          v_AccessibleTopology := [] |};
          ve_PublishedNodeIds := [NodeID (cfg hpc)];
          ve_VolumeCondition := {| Abnormal := negb health.1; Message := health.2 |} |}.

Definition appendEntry_thread (hpc : hostPathController) (capacityMap : gmap string Z)
    (entries : list VolumeEntry) (volumeDir : string) : prog (list VolumeEntry) :=
  entry <- volumeEntry_thread hpc capacityMap (Base volumeDir) volumeDir ;;
  retP (entries ++ [entry]).

Definition volumePage_thread (hpc : hostPathController) (capacityMap : gmap string Z)
    (volumeDirs : list string) (startingToken : string) (maxEntries : Z) : prog ListVolumesResponse :=
  let volumesLength := Z.of_nat (length volumeDirs) in
  let maxLength := if maxEntries =? 0 then volumesLength else maxEntries in
  let start := IndexOfStartingToken startingToken volumeDirs in
  if start =? -1 then
    failP (StatusError InvalidArgument ("volume " +:+ startingToken +:+ " not found"))
  else
    let end0 := int64 (start + maxLength) in
    let end_ := if volumesLength <? end0 then volumesLength else end0 in
    page <- atom (slice volumeDirs start end_) ;;
    entries <- foldP (appendEntry_thread hpc capacityMap) [] page ;;
    nextToken <- (if end_ <? volumesLength - 1 then atom (baseAt volumeDirs end_) else retP "") ;;
    retP {| lv_Entries := entries; lv_NextToken := nextToken |}.

Definition listFrom_thread (hpc : hostPathController) (token : string) (maxEntries : Z)
    (capacityMap : gmap string Z) (volumeDirs : list string) : prog ListVolumesResponse :=
  if bool_decide (token ≠ "") && bool_decide (ParseUint 32 token = None) then
    failP (StatusError Aborted "the type of startingToken should be integer")
  else
    match volumeDirs with
    | firstDir :: _ =>
        volumePage_thread hpc capacityMap volumeDirs
          (if decide (token = "") then Base firstDir else token) maxEntries
    | [] =>
        if decide (token = "") then retP {| lv_Entries := []; lv_NextToken := "" |}
        else failP (StatusError Aborted ("volume " +:+ token +:+ " not found"))
    end.

Definition ListVolumes_thread (hpc : hostPathController) (req : option ListVolumesRequest)
    : prog ListVolumesResponse :=
  checkErrT (validateListVolumesRequest req) >>
  req <- derefT req ;;
  capacityMap <- poolCapacities_thread hpc ;;
  volumeDirs <- getDirectories_thread (StoragePools (cfg hpc)) ;;
  listFrom_thread hpc (lv_StartingToken req) (lv_MaxEntries req) capacityMap volumeDirs.

Definition ControllerGetVolume_thread (hpc : hostPathController) (req : option string) : prog VolumeEntry :=
  match req with
  | None => failP errMissingRequest
  | Some volumeId =>
      if decide (volumeId = "") then failP (StatusError InvalidArgument "volume ID not provided")
      else
        capacityMap <- poolCapacities_thread hpc ;;
        volumeDirs <- getDirectories_thread (StoragePools (cfg hpc)) ;;
        let volumePath := findVolumePath volumeId volumeDirs in
        if decide (volumePath = "")
        then failP (StatusError NotFound ("volume " +:+ volumeId +:+ " not found"))
        else volumeEntry_thread hpc capacityMap volumeId volumePath
  end.

(** *** Snapshots *)

(** What is done while the mutex is held. *)
Definition createSnapshot_section (snapshotPath : string) (provider : Reflink) (req : CreateSnapshotRequest)
    : prog Snapshot :=
  exists_ <- atom (checkPathExistFunc snapshotPath) ;;
  (if (exists_ : bool) then retP tt
   else wrapP (λ err, ErrorString ("failed to initialize snapshot storage pool " +:+ Error err))
          (MkdirAll_thread (path provider))) >>
  found <- wrapP (λ err, ErrorString ("getsnapshot by id failed, " +:+ Error err))
             (GetSnapshotById_thread provider (cs_Name req)) ;;
  match found with
  | Some snapshot =>
      if decide (SourceVolumeId snapshot = cs_SourceVolumeId req) then retP snapshot
      else failP (StatusError AlreadyExists
             ("snapshot with the same name: " +:+ cs_Name req +:+
              " but with different SourceVolumeId already exist"))
  | None => takeSnapshot_thread provider (cs_Name req) (cs_SourceVolumeId req)
  end.
Definition CreateSnapshot_thread (hpc : hostPathController) (req : option CreateSnapshotRequest)
    : prog Snapshot :=
  checkErrT (validateCreateSnapshotRequest req) >>
  req <- derefT req ;;
  let storagePoolName := getStoragePoolNameFromMap (cs_Parameters req) in
  match StoragePools (cfg hpc) !! storagePoolName with
  | None =>
      failP (ErrorString ("unable to locate volumesnapshot path for storage pool " +:+ storagePoolName))
  | Some pool =>
      match SnapshotPath pool, snapshotproviders hpc !! storagePoolName with
      | None, _ => failP (ErrorString ("volumesnapshot path not set for storage pool " +:+ storagePoolName))
      | Some _, None => failP (ErrorString ("snapshot provider not set for storage pool " +:+ storagePoolName))
      | Some snapshotPath, Some _ =>
          locked (withRepo hpc storagePoolName (λ provider, createSnapshot_section snapshotPath provider req))
      end
  end.

Definition deleteSnapshot_section (hpc : hostPathController) (snapshotId : string) : prog unit :=
  providers <- atom (range_map (snapshotproviders hpc)) ;;
  foldP (λ _ kv, withRepo hpc kv.1 (λ r, dropSnapshot_thread r snapshotId)) tt providers.
Definition DeleteSnapshot_thread (hpc : hostPathController) (req : option string) : prog unit :=
  match req with
  | None => failP errMissingRequest
  | Some snapshotId =>
      if len snapshotId =? 0 then failP (StatusError InvalidArgument "snapshot id missing in request")
      else locked (deleteSnapshot_section hpc snapshotId)
  end.

Definition providerSnapshots_thread (hpc : hostPathController) (req : ListSnapshotsRequest)
    (snapshots : list Snapshot) (kv : string * SnapshotProvider) : prog (list Snapshot) :=
  withRepo hpc kv.1 (λ provider,
  if negb (len (ls_SnapshotId req) =? 0) then
    snapshot <- GetSnapshotById_thread provider (ls_SnapshotId req) ;;
    retP (match snapshot with Some s => snapshots ++ [s] | None => snapshots end)
  else if negb (len (ls_SourceVolumeId req) =? 0) then
    snapshotsByVolume <- GetByVolume_thread provider (ls_SourceVolumeId req) ;;
    retP (snapshots ++ snapshotsByVolume)
  else
    allProviderSnapshots <- GetAllSnapshots_thread provider ;;
    retP (snapshots ++ allProviderSnapshots)).

Definition listSnapshots_section (hpc : hostPathController) (req : ListSnapshotsRequest)
    : prog ListSnapshotsResponse :=
  providers <- atom (range_map (snapshotproviders hpc)) ;;
  snapshots <- foldP (providerSnapshots_thread hpc req) [] providers ;;
  match snapshots with
  | _ :: _ => atom (snapshotPage snapshots (ls_StartingToken req) (ls_MaxEntries req))
  | [] =>
      if decide (ls_StartingToken req = "") then retP {| ls_Entries := []; ls_NextToken := "" |}
      else failP (StatusError Aborted ("snapshot " +:+ ls_StartingToken req +:+ " not found"))
  end.
Definition ListSnapshots_thread (hpc : hostPathController) (req : option ListSnapshotsRequest)
    : prog ListSnapshotsResponse :=
  match req with
  | None => failP errMissingRequest
  | Some req => locked (listSnapshots_section hpc req)
  end.

(** ** The node *)

Definition isNotMountPoint_thread (file : string) : prog bool :=
  quick <- tryP (atom (os_Stat file) >>
                 atom (os_Stat (Dir (trim_last slash file))) >>
                 atom (reads (λ n w, Ret (likely_not_mnt n (w_mounts w) file)))) ;;
  notMnt <- match quick with
            | inr err => if os_IsPermission err then retP true else failP err
            | inl notMnt => retP notMnt
            end ;;
  if negb notMnt then retP notMnt
  else
    resolvedFile <- atom (filepath_EvalSymlinks file) ;;
    mountPoints <- atom ListLinux ;;
    retP (negb (existsb (λ mp, isMountPointMatch mp resolvedFile) mountPoints)).

Definition canMountVolume_thread (targetPath : string) : prog bool :=
  r <- tryP (isNotMountPoint_thread targetPath) ;;
  match r with
  | inr err =>
      if os_IsNotExist err then
        wrapP (λ e, WrapError ("create target path: " +:+ Error e) e) (atom (os_Mkdir targetPath)) >>
        retP true
      else failP (WrapError ("check target path: " +:+ Error err) err)
  | inl notMnt => retP notMnt
  end.

Definition volumeSource_thread (hpn : hostPathNode) (req : NodePublishVolumeRequest) : prog string :=
  let storagePoolName := getStoragePoolNameFromMap (np_VolumeContext req) in
  if isEphemeralVolumeRequest req then
    let path := getEphemeralVolumePath hpn storagePoolName (np_VolumeId req) in
    wrapP (λ err, WrapError ("failed to create ephemeral volume " +:+ np_VolumeId req +:+ ": "
                             +:+ Error err) err)
      (MkdirAll_thread (GoPath.Join [Dir path; np_VolumeId req])) >>
    retP path
  else retP (GoPath.Join [Path (getPool (hpn_cfg hpn) storagePoolName); np_VolumeId req]).

Definition mountFailed_thread (req : NodePublishVolumeRequest) (path targetPath : string) (err : gerror)
    : prog unit :=
  r <- tryP (atom (os_StatMode targetPath)) ;;
  match r with
  | inr _ => panicP "invalid memory address or nil pointer dereference"
  | inl mode =>
      rmText <- (if isEphemeralVolumeRequest req then
                   rm <- tryP (atom (os_RemoveAll path)) ;;
                   retP (match rm with
                         | inr rmErr => if os_IsNotExist rmErr then "" else " :" +:+ Error rmErr
                         | inl _ => ""
                         end)
                 else retP "") ;;
      failP (ErrorString ("failed to mount device: " +:+ path +:+ " at " +:+ targetPath +:+ ": "
                          +:+ Error err +:+ mode +:+ rmText))
  end.

Definition mount_thread (source target fstype : string) (options : list string) : prog unit :=
  let '(bind, bindOpts, bindRemountOpts) := MakeBindOpts options in
  if bind then
    atom (doMount source target fstype bindOpts) >>
    atom (doMount source target fstype bindRemountOpts)
  else atom (doMount source target fstype options).

Definition mountVolume_thread (hpn : hostPathNode) (targetPath : string) (req : NodePublishVolumeRequest)
    : prog unit :=
  let fsType := default "" (fst <$> (np_VolumeCapability req ≫= GetMount)) in
  let options := if np_Readonly req then ["bind"; "ro"] else ["bind"] in
  path <- volumeSource_thread hpn req ;;
  r <- tryP (mount_thread path targetPath fsType options) ;;
  match r with
  | inr err => mountFailed_thread req path targetPath err
  | inl _ => retP tt
  end.

Definition NodePublishVolume_thread (hpn : hostPathNode) (req : option NodePublishVolumeRequest) : prog unit :=
  checkErrT (validateNodePublishRequest req) >>
  req <- derefT req ;;
  let targetPath := np_TargetPath req in
  canMnt <- canMountVolume_thread targetPath ;;
  if negb canMnt then retP tt else mountVolume_thread hpn targetPath req.

Definition unmountTarget_thread (targetPath : string) : prog unit :=
  r <- tryP (isNotMountPoint_thread targetPath) ;;
  match r with
  | inr err =>
      if os_IsNotExist err then retP tt
      else failP (WrapError ("check target path: " +:+ Error err) err)
  | inl notMnt =>
      if negb notMnt then
        wrapP (λ err, WrapError ("unmount target path: " +:+ Error err) err)
          (atom (UnmountLinux targetPath))
      else retP tt
  end.

Definition removeEphemeral_thread (hpn : hostPathNode) (volumeId : string) : prog unit :=
  volumeDirs <- getDirectories_thread (StoragePools (hpn_cfg hpn)) ;;
  let volumePath := findVolumePath volumeId volumeDirs in
  if decide (volumePath = "") then retP tt
  else wrapP (λ err, ErrorString ("failed to delete ephemeral volume " +:+ volumeId +:+ ": " +:+ Error err))
         (atom (Utils.DeleteVolume (Dir volumePath) volumeId)).

Definition NodeUnpublishVolume_thread (hpn : hostPathNode) (req : option NodeUnpublishVolumeRequest)
    : prog unit :=
  checkErrT (validateNodeUnpublishRequest req) >>
  req <- derefT req ;;
  let targetPath := nu_TargetPath req in
  unmountTarget_thread targetPath >>
  wrapP (λ err, WrapError ("remove target path: " +:+ Error err) err) (atom (os_RemoveAll targetPath)) >>
  if isEphemeralVolumeId (nu_VolumeId req) then
    wrapP (λ err, ErrorString ("failed to delete ephemeral volume: " +:+ nu_VolumeId req +:+ ", "
                               +:+ Error err))
      (removeEphemeral_thread hpn (nu_VolumeId req))
  else retP tt.

Definition nodeHealth_thread `{!FindMnt} (volumePath : string) : prog (bool * string) :=
  r <- tryP (atom (checkMountPointExist volumePath)) ;;
  match r with
  | inr err => retP (false, Error err)
  | inl mpExist =>
      if negb mpExist then retP (false, "The volume isn't mounted")
      else atom (checkIfSpaceAvailable volumePath)
  end.

Definition NodeGetVolumeStats_thread `{!FindMnt} (req : option NodeGetVolumeStatsRequest)
    : prog NodeGetVolumeStatsResponse :=
  checkErrT (validateNodeGetVolumeStatsRequest req) >>
  req <- derefT req ;;
  wrapP (λ err, StatusError NotFound ("Could not get file information from " +:+ ns_VolumePath req
                                      +:+ ": " +:+ Error err))
    (atom (os_Stat (ns_VolumePath req))) >>
  health <- nodeHealth_thread (ns_VolumePath req) ;;
  let '(healthy, msg) := (health : bool * string) in
  st <- wrapP (λ err, WrapError ("get volume stats failed: " +:+ Error err) err)
          (atom (getPVStats (ns_VolumePath req))) ;;
  retP {| ns_Usage := [
            {| u_Available := st_available st; u_Used := st_used st; u_Total := st_capacity st;
               u_Unit := BYTES |};
            {| u_Available := st_inodesFree st; u_Used := st_inodesUsed st; u_Total := st_inodes st;
               u_Unit := INODES |} ];
          ns_VolumeCondition := {| Abnormal := negb healthy; Message := msg |} |}.

(** ** The goroutine of a request *)

Definition thread `{!FindMnt} (hpc : hostPathController) (r : rpc) : prog reply :=
  match r with
  | RCreateVolume req => answerT ReplyVolume (CreateVolume_thread hpc req)
  | RDeleteVolume id => answerT (λ _, ReplyDone) (DeleteVolume_thread hpc id)
  | RValidateVolumeCapabilities req => answerT ReplyConfirmed (atom (ValidateVolumeCapabilities hpc req))
  | RGetCapacity params => answerT ReplyCapacity (atom (GetCapacity hpc params))
  | RListVolumes req => answerT ReplyVolumes (ListVolumes_thread hpc req)
  | RControllerGetVolume id => answerT ReplyEntry (ControllerGetVolume_thread hpc id)
  | RCreateSnapshot req => answerT ReplySnapshot (CreateSnapshot_thread hpc req)
  | RDeleteSnapshot id => answerT (λ _, ReplyDone) (DeleteSnapshot_thread hpc id)
  | RListSnapshots req => answerT ReplySnapshots (ListSnapshots_thread hpc req)
  | RNodePublishVolume req => answerT (λ _, ReplyDone) (NodePublishVolume_thread (linuxNode (cfg hpc)) req)
  | RNodeUnpublishVolume req => answerT (λ _, ReplyDone) (NodeUnpublishVolume_thread (linuxNode (cfg hpc)) req)
  | RNodeGetVolumeStats req => answerT ReplyStats (NodeGetVolumeStats_thread req)
  end.

(** The requests that are served at the same time. *)
Definition serving `{!FindMnt} (hpc : hostPathController) (reqs : gmap nat rpc) (w : world) : conf reply :=
  Conf w None (thread hpc <$> reqs).
End threads.

(** ** Alone, a thread is its handler *)

Create HintDb threads.

(** Walks the texts of a thread and of a computation side by side. *)
Ltac cuts_step :=
  match goal with
  | |- cuts (retP _) (ret _) => apply cuts_ret
  | |- cuts (failP _) (fail _) => apply cuts_fail
  | |- cuts (panicP _) (panic _) => apply cuts_panic
  | |- cuts (bindP _ _) (bind _ _) => apply cuts_bind; [|intros ?]
  | |- cuts (tryP _) (try _) => apply cuts_try
  | |- cuts (wrapP _ _) (wrapErr _ _) => apply cuts_wrap
  | |- cuts (locked _) _ => apply cuts_locked
  | |- cuts (foldP _ _ _) (foldM _ _ _) => apply cuts_fold; intros ? ? ?
  | |- cuts (match ?x with _ => _ end) _ => destruct x eqn:?
  | |- cuts _ _ => solve [eauto with threads]
  | |- cuts (atom _) _ => apply cuts_atom; solve [respects_tac]
  end.
Ltac cuts_tac := repeat cuts_step.

Section alone.
Context `{!Env}.

Lemma cuts_checkErr e : cuts (checkErrT e) (checkErr e).
Proof. destruct e; [apply cuts_fail|apply cuts_ret]. Qed.
Lemma cuts_deref {A} (p : option A) : cuts (derefT p) (deref p).
Proof. destruct p; [apply cuts_ret|apply cuts_panic]. Qed.
Hint Resolve cuts_checkErr cuts_deref : threads.

Lemma cuts_answer {A} (f : A → reply) p m : cuts p m → cuts (answerT f p) (answer f m).
Proof. intros. unfold answerT, answer. cuts_tac. Qed.

Lemma mkdir_thread_run todo cur w :
  wf_fs (w_fs w) → w_fs w !! cur = Some NDir → Forall valid_name todo →
  run (mkdir_thread cur todo) w = mkdir_all_from cur todo w.
Proof.
  revert cur w. induction todo as [|c todo IH]; intros cur w Hwf Hcur Hv; [done|].
  apply Forall_cons_1 in Hv as [Hc Hv]. cbn [mkdir_thread mkdir_all_from]. unfold bindP. rewrite run_seq.
  cbn [run atom]. unfold mkdir_next, bind, gets. cbn.
  destruct (w_fs w !! (cur ++ [c])) as [[|]|] eqn:Hl; cbn; [by apply IH|done|].
  rewrite Hcur. unfold mkdir_at. destruct (fault _ _ _); [done|]. cbn.
  apply IH; [by apply wf_insert_dir|by apply lookup_insert_eq|done].
Qed.
Lemma cuts_MkdirAll s : cuts (MkdirAll_thread s) (os_MkdirAll s).
Proof.
  intros w Hwf. split; [|by apply respects_wf_MkdirAll]. unfold MkdirAll_thread, os_MkdirAll.
  case_decide; [done|]. apply mkdir_thread_run; [done|apply Hwf|apply resolve_valid].
Qed.
Hint Resolve cuts_MkdirAll : threads.

(** *** Steps that only read *)

Lemma respects_readPool R `{!PreOrder R, !TickInv R} dirs kv : respects R (readPoolDirectories dirs kv).
Proof. unfold readPoolDirectories. respects_tac. Qed.
Lemma respects_getSource R `{!PreOrder R, !TickInv R} r id : respects R (getSourceVolumeId r id).
Proof. unfold getSourceVolumeId. respects_tac. Qed.
Lemma respects_fromDir R `{!PreOrder R, !TickInv R} r id v p : respects R (createSnapshotFromDir r id v p).
Proof. unfold createSnapshotFromDir, getFileCreationTimeFunc. respects_tac. Qed.
Lemma respects_addCapacity R `{!PreOrder R, !TickInv R} cm kv : respects R (addCapacity cm kv).
Proof. unfold addCapacity. respects_tac. Qed.
Lemma respects_snapshotPage R `{!PreOrder R} l t n : respects R (snapshotPage l t n).
Proof. unfold snapshotPage. cbv zeta. respects_tac; by apply respects_slice. Qed.
Lemma respects_mountExists `{!FindMnt} R `{!PreOrder R, !TickInv R} s : respects R (checkMountPointExist s).
Proof. unfold checkMountPointExist. respects_tac. Qed.
Hint Resolve respects_readPool respects_getSource respects_fromDir respects_addCapacity
  respects_snapshotPage respects_mountExists : go.

Lemma cuts_getDirectories m : cuts (getDirectories_thread m) (getStoragePoolDataDirectories m).
Proof. unfold getDirectories_thread, getStoragePoolDataDirectories. cuts_tac. Qed.
Lemma cuts_health s : cuts (healthCheck_thread s) (doHealthCheckInControllerSide s).
Proof. unfold healthCheck_thread, doHealthCheckInControllerSide. cuts_tac. Qed.
Hint Resolve cuts_getDirectories cuts_health : threads.

Lemma cuts_GetSnapshotById r id : cuts (GetSnapshotById_thread r id) (GetSnapshotById r id).
Proof. unfold GetSnapshotById_thread, GetSnapshotById. cuts_tac. Qed.
Hint Resolve cuts_GetSnapshotById : threads.
Lemma cuts_GetAllSnapshots r : cuts (GetAllSnapshots_thread r) (GetAllSnapshots r).
Proof.
  unfold GetAllSnapshots_thread, GetAllSnapshots, appendSnapshot_thread, appendSnapshot. cuts_tac.
Qed.
Hint Resolve cuts_GetAllSnapshots : threads.
Lemma cuts_GetByVolume r v : cuts (GetByVolume_thread r v) (GetSnapshotsByVolumeSourceId r v).
Proof. unfold GetByVolume_thread, GetSnapshotsByVolumeSourceId. cuts_tac. Qed.
Lemma cuts_takeSnapshot r id v : cuts (takeSnapshot_thread r id v) (Reflink.CreateSnapshot r id v).
Proof. unfold takeSnapshot_thread, Reflink.CreateSnapshot. cbv zeta. cuts_tac. Qed.
Lemma cuts_dropSnapshot r id : cuts (dropSnapshot_thread r id) (Reflink.DeleteSnapshot r id).
Proof. unfold dropSnapshot_thread, Reflink.DeleteSnapshot. cbv zeta. cuts_tac. Qed.
Lemma cuts_RestoreSnapshot r id t : cuts (RestoreSnapshot_thread r id t) (RestoreSnapshot r id t).
Proof. unfold RestoreSnapshot_thread, RestoreSnapshot. cbv zeta. cuts_tac. Qed.
Hint Resolve cuts_GetByVolume cuts_takeSnapshot cuts_dropSnapshot cuts_RestoreSnapshot : threads.

(** *** The controller *)

Section controller.
Context (hpc : hostPathController) (Hrepos : repositories hpc (repos_of (cfg hpc))).

(** The repository that is looked up is the one behind the provider. *)
Lemma cuts_withRepo {A} pool (f : Reflink → prog A) (g : SnapshotProvider → M A) p :
  snapshotproviders hpc !! pool = Some p → (∀ r, cuts (f r) (g (reflinkProvider r))) →
  cuts (withRepo hpc pool f) (g p).
Proof.
  intros Hp Hf. rewrite Hrepos, lookup_fmap in Hp. unfold withRepo.
  destruct (repos_of (cfg hpc) !! pool) as [r|]; [|done]. injection Hp as <-. apply Hf.
Qed.
Lemma cuts_range_providers {A} (k : list (string * SnapshotProvider) → prog A) k' :
  (∀ l, (∀ kv, kv ∈ l → snapshotproviders hpc !! kv.1 = Some kv.2) → cuts (k l) (k' l)) →
  cuts (x <- atom (range_map (snapshotproviders hpc)) ;; k x) (bind (range_map (snapshotproviders hpc)) k').
Proof.
  intros Hk w Hwf. unfold bindP, bind, range_map, reads. cbn. apply Hk; [|done].
  intros [pool p]. by rewrite range_order_perm, elem_of_map_to_list.
Qed.

Lemma cuts_populate pool x : cuts (populateVolume_thread hpc pool x) (populateVolume hpc pool x).
Proof.
  unfold populateVolume_thread, populateVolume, restoreFromSnapshot_thread, restoreFromSnapshot.
  destruct (cv_VolumeContentSource x) as [[[sid|]| |]|]; cuts_tac.
  apply (cuts_withRepo pool _ (λ p, sp_RestoreSnapshot p _ _)); eauto with threads.
Qed.
Hint Resolve cuts_populate : threads.
Lemma cuts_CreateVolume req : cuts (CreateVolume_thread hpc req) (CreateVolume hpc req).
Proof. unfold CreateVolume_thread, CreateVolume, createVolumeDirectoryFunc. cbv zeta. cuts_tac. Qed.
Lemma cuts_DeleteVolume req : cuts (DeleteVolume_thread hpc req) (DeleteVolume hpc req).
Proof. unfold DeleteVolume_thread, DeleteVolume, getVolumeDirectories. cbv zeta. cuts_tac. Qed.
Lemma cuts_poolCapacities : cuts (poolCapacities_thread hpc) (poolCapacities hpc).
Proof. unfold poolCapacities_thread, poolCapacities. cuts_tac. Qed.
Lemma cuts_volumeEntry cm id p : cuts (volumeEntry_thread hpc cm id p) (volumeEntry hpc cm id p).
Proof. unfold volumeEntry_thread, volumeEntry. cuts_tac. Qed.
Hint Resolve cuts_poolCapacities cuts_volumeEntry : threads.
Lemma cuts_ListVolumes req : cuts (ListVolumes_thread hpc req) (ListVolumes hpc req).
Proof.
  unfold ListVolumes_thread, ListVolumes, getVolumeDirectories, listFrom_thread, listFrom, volumePage_thread,
    volumePage, appendEntry_thread, appendEntry. cbv zeta. cuts_tac.
  - apply cuts_atom, respects_slice. apply _.
  - apply cuts_atom, respects_baseAt. apply _.
Qed.
Lemma cuts_ControllerGetVolume req : cuts (ControllerGetVolume_thread hpc req) (ControllerGetVolume hpc req).
Proof. unfold ControllerGetVolume_thread, ControllerGetVolume, getVolumeDirectories. cbv zeta. cuts_tac. Qed.

Lemma cuts_createSection sp p pool x :
  snapshotproviders hpc !! pool = Some p →
  cuts (withRepo hpc pool (λ r, createSnapshot_section sp r x))
    (exists_ <- checkPathExistFunc sp ;;
     (if (exists_ : bool) then ret tt
      else wrapErr (λ err, ErrorString ("failed to initialize snapshot storage pool " +:+ Error err))
             (sp_Initialize p)) >>
     found <- wrapErr (λ err, ErrorString ("getsnapshot by id failed, " +:+ Error err))
                (sp_GetSnapshotById p (cs_Name x)) ;;
     match found with
     | Some snapshot =>
         if decide (SourceVolumeId snapshot = cs_SourceVolumeId x) then ret snapshot
         else fail (StatusError AlreadyExists
                ("snapshot with the same name: " +:+ cs_Name x +:+
                 " but with different SourceVolumeId already exist"))
     | None => sp_CreateSnapshot p (cs_Name x) (cs_SourceVolumeId x)
     end)%go.
Proof.
  intros Hp. rewrite Hrepos, lookup_fmap in Hp. unfold withRepo, createSnapshot_section.
  destruct (repos_of (cfg hpc) !! pool) as [r|]; [|done]. injection Hp as <-.
  cbn [sp_Initialize sp_GetSnapshotById sp_CreateSnapshot reflinkProvider]. unfold Initialize, ensurePathExists.
  cuts_tac.
Qed.
Lemma cuts_CreateSnapshot req : cuts (CreateSnapshot_thread hpc req) (CreateSnapshot hpc req).
Proof. unfold CreateSnapshot_thread, CreateSnapshot. cbv zeta. cuts_tac. by apply cuts_createSection. Qed.
Lemma cuts_DeleteSnapshot req : cuts (DeleteSnapshot_thread hpc req) (DeleteSnapshot hpc req).
Proof.
  unfold DeleteSnapshot_thread, DeleteSnapshot, deleteSnapshot_section. destruct req as [id|]; [|apply cuts_fail].
  destruct (len id =? 0); [apply cuts_fail|]. apply cuts_locked, cuts_range_providers. intros l Hl. cuts_tac.
  apply (cuts_withRepo _ _ (λ p, sp_DeleteSnapshot p _)); [by apply Hl|]. intros r. apply cuts_dropSnapshot.
Qed.
Lemma cuts_providerSnapshots x acc kv :
  snapshotproviders hpc !! kv.1 = Some kv.2 →
  cuts (providerSnapshots_thread hpc x acc kv) (providerSnapshots x acc kv).
Proof.
  intros Hp. rewrite Hrepos, lookup_fmap in Hp. unfold providerSnapshots_thread, withRepo, providerSnapshots.
  destruct (repos_of (cfg hpc) !! kv.1) as [r|]; [|done]. injection Hp as <-.
  cbn [sp_GetSnapshotById sp_GetSnapshotsByVolumeSourceId sp_GetAllSnapshots reflinkProvider]. cuts_tac.
Qed.
Lemma cuts_ListSnapshots req : cuts (ListSnapshots_thread hpc req) (ListSnapshots hpc req).
Proof.
  unfold ListSnapshots_thread, ListSnapshots, listSnapshots_section, collectSnapshots.
  destruct req as [x|]; [|apply cuts_fail]. apply cuts_locked.
  eapply cuts_ext; [intros w; symmetry; apply bind_assoc|].
  apply cuts_range_providers. intros l Hl. cuts_tac. by apply cuts_providerSnapshots, Hl.
Qed.
End controller.

(** *** The node *)

Lemma cuts_isNotMountPoint s : cuts (isNotMountPoint_thread s) (IsNotMountPoint linuxMounter s).
Proof.
  unfold isNotMountPoint_thread, IsNotMountPoint. cbn [mi_IsLikelyNotMountPoint mi_List linuxMounter].
  unfold IsLikelyNotMountPointLinux. cuts_tac.
Qed.
Hint Resolve cuts_isNotMountPoint : threads.
Lemma respects_wf_doMount src tgt t opts : respects wf_rel (doMount src tgt t opts).
Proof. eapply respects_weaken; [apply same_tree_wf|]. apply respects_doMount. Qed.
Hint Resolve respects_wf_Mkdir respects_wf_doMount respects_wf_Unmount : go.
Lemma cuts_mount src tgt t opts : cuts (mount_thread src tgt t opts) (MountLinux src tgt t opts).
Proof. unfold mount_thread, MountLinux. cuts_tac. Qed.
Hint Resolve cuts_mount : threads.
Lemma cuts_canMount config t : cuts (canMountVolume_thread t) (canMountVolume (linuxNode config) t).
Proof.
  unfold canMountVolume_thread, canMountVolume. cbn [hpn_Mounter linuxNode NewHostPathNode]. cuts_tac.
Qed.
Lemma cuts_mountVolume config t x :
  cuts (mountVolume_thread (linuxNode config) t x) (mountVolume (linuxNode config) t x).
Proof.
  unfold mountVolume_thread, mountVolume, volumeSource_thread, volumeSource, mountFailed_thread, mountFailed,
    createVolumeDirectoryFunc. cbn [hpn_Mounter linuxNode NewHostPathNode mi_Mount linuxMounter]. cbv zeta. cuts_tac.
Qed.
Hint Resolve cuts_canMount cuts_mountVolume : threads.
Lemma cuts_NodePublish config req :
  cuts (NodePublishVolume_thread (linuxNode config) req) (NodePublishVolume (linuxNode config) req).
Proof. unfold NodePublishVolume_thread, NodePublishVolume. cbv zeta. cuts_tac. Qed.
Lemma cuts_NodeUnpublish config req :
  cuts (NodeUnpublishVolume_thread (linuxNode config) req) (NodeUnpublishVolume (linuxNode config) req).
Proof.
  unfold NodeUnpublishVolume_thread, NodeUnpublishVolume, unmountTarget_thread, unmountTarget,
    removeEphemeral_thread, removeEphemeralPath.
  cbn [hpn_Mounter linuxNode NewHostPathNode mi_Unmount linuxMounter]. cbv zeta. cuts_tac.
Qed.
Lemma cuts_NodeGetVolumeStats `{!FindMnt} hpn req :
  cuts (NodeGetVolumeStats_thread req) (NodeGetVolumeStats hpn req).
Proof.
  unfold NodeGetVolumeStats_thread, NodeGetVolumeStats, nodeHealth_thread, doHealthCheckInNodeSide. cuts_tac.
Qed.

(** Every thread, alone, is its handler. *)
Lemma cuts_thread `{!FindMnt} hpc r :
  repositories hpc (repos_of (cfg hpc)) → cuts (thread hpc r) (call hpc r).
Proof.
  intros Hrepos. destruct r; cbn [thread call]; apply cuts_answer.
  - by apply cuts_CreateVolume.
  - apply cuts_DeleteVolume.
  - apply cuts_atom, respects_ValidateVolumeCapabilities; apply _.
  - apply cuts_atom, respects_GetCapacity; apply _.
  - apply cuts_ListVolumes.
  - apply cuts_ControllerGetVolume.
  - by apply cuts_CreateSnapshot.
  - by apply cuts_DeleteSnapshot.
  - by apply cuts_ListSnapshots.
  - apply cuts_NodePublish.
  - apply cuts_NodeUnpublish.
  - apply cuts_NodeGetVolumeStats.
Qed.
End alone.
