(* ===== verification/Concurrency.v ===== *)
(** * Handlers that run at the same time

    Any number of requests served by goroutines of their own, in any
    interleaving of their calls: every schedule comes to an end with all
    requests answered; requests stay within their footprints; a volume that was
    created is there; requests about snapshots take effect one after another;
    two publications of one target are the case that goes wrong. *)
From S2P Require Import Prelude GoStrings GoPath GoErrors OS OSFacts Demo Mount MountFacts Csi Utils.
From S2P Require Import Health Reflink ReflinkFacts ControllerServer ControllerFacts ControllerProps.
From S2P Require Import ControllerSnap FindMnt NodeServer NodeFacts NodeProps Driver System Catalog CatalogSpec.
From S2P Require Import CatalogTrace Threads HandlerThreads.
From stdpp Require Import relations.
Open Scope Z_scope.

(** ** The mutex *)

Ltac nolock_tac :=
  repeat match goal with
  | |- nolock (bindP _ _) => apply nolock_bind; [|intros ?]
  | |- nolock (tryP _) => apply nolock_try
  | |- nolock (wrapP _ _) => apply nolock_wrap
  | |- nolock (foldP _ _ _) => apply nolock_fold; intros ? ?
  | |- nolock (match ?x with _ => _ end) => destruct x
  | |- nolock _ => solve [eauto with threads]
  | |- nolock (retP _) => exact I
  | |- nolock (failP _) => exact I
  | |- nolock (panicP _) => exact I
  | |- nolock (atom _) => done
  end.

Section mutex.
Context `{!Env}.

Lemma nolock_checkErr e : nolock (checkErrT e).
Proof. by destruct e. Qed.
Lemma nolock_deref {A} (p : option A) : nolock (derefT p).
Proof. by destruct p. Qed.
Lemma nolock_mkdir cur todo : nolock (mkdir_thread cur todo).
Proof. revert cur. induction todo as [|c todo IH]; intros cur; [done|]. cbn [mkdir_thread]. by apply nolock_bind. Qed.
Lemma nolock_MkdirAll s : nolock (MkdirAll_thread s).
Proof. unfold MkdirAll_thread. case_decide; [done|]. apply nolock_mkdir. Qed.
Hint Resolve nolock_checkErr nolock_deref nolock_MkdirAll : threads.
Lemma nolock_getDirectories m : nolock (getDirectories_thread m).
Proof. unfold getDirectories_thread. nolock_tac. Qed.
Lemma nolock_GetSnapshotById r id : nolock (GetSnapshotById_thread r id).
Proof. unfold GetSnapshotById_thread. nolock_tac. Qed.
Hint Resolve nolock_getDirectories nolock_GetSnapshotById : threads.
Lemma nolock_GetAllSnapshots r : nolock (GetAllSnapshots_thread r).
Proof. unfold GetAllSnapshots_thread, appendSnapshot_thread. nolock_tac. Qed.
Hint Resolve nolock_GetAllSnapshots : threads.
Lemma nolock_withRepo {A} hpc pool (f : Reflink → prog A) : (∀ r, nolock (f r)) → nolock (withRepo hpc pool f).
Proof. intros Hf. unfold withRepo. by destruct (repos_of (cfg hpc) !! pool). Qed.

Lemma nolock_createSection sp r x : nolock (createSnapshot_section sp r x).
Proof. unfold createSnapshot_section, takeSnapshot_thread. cbv zeta. nolock_tac. Qed.
Lemma nolock_deleteSection hpc id : nolock (deleteSnapshot_section hpc id).
Proof.
  unfold deleteSnapshot_section, dropSnapshot_thread. nolock_tac. apply nolock_withRepo. intros r. nolock_tac.
Qed.
Lemma nolock_listSection hpc x : nolock (listSnapshots_section hpc x).
Proof.
  unfold listSnapshots_section, providerSnapshots_thread, GetByVolume_thread. nolock_tac.
  apply nolock_withRepo. intros r. nolock_tac.
Qed.
Lemma nolock_restoreSection hpc pool id t :
  nolock (withRepo hpc pool (λ r, RestoreSnapshot_thread r id t)).
Proof. apply nolock_withRepo. intros r. unfold RestoreSnapshot_thread. cbv zeta. nolock_tac. Qed.

(** Requests about snapshots make all their calls while they hold the mutex. *)
Definition snapshot_rpc (r : rpc) : Prop :=
  match r with
  | RCreateSnapshot _ | RDeleteSnapshot _ | RListSnapshots _ => True
  | _ => False
  end.
Lemma guarded_snapshot `{!FindMnt} hpc r : snapshot_rpc r → guarded (thread hpc r).
Proof.
  intros Hr. destruct r as [| | | | | |req|req|req| | |]; try done; unfold thread, answerT;
    (apply guarded_seq; [|by intros [a|e|s]]).
  - unfold CreateSnapshot_thread. destruct (validateCreateSnapshotRequest req); [done|].
    destruct req as [x|]; [|done]. cbn -[locked].
    destruct (StoragePools (cfg hpc) !! _) as [info|]; [|done]. destruct (SnapshotPath info) as [sp|]; [|done].
    destruct (snapshotproviders hpc !! _); [|done]. apply guarded_locked, nolock_withRepo. intros r.
    apply nolock_createSection.
  - unfold DeleteSnapshot_thread. destruct req as [id|]; [|done]. destruct (len id =? 0); [done|].
    apply guarded_locked, nolock_deleteSection.
  - unfold ListSnapshots_thread. destruct req as [x|]; [|done]. apply guarded_locked, nolock_listSection.
Qed.

Lemma nolock_isNotMountPoint t : nolock (isNotMountPoint_thread t).
Proof. unfold isNotMountPoint_thread. nolock_tac. Qed.
Hint Resolve nolock_isNotMountPoint : threads.
Lemma nolock_canMount t : nolock (canMountVolume_thread t).
Proof. unfold canMountVolume_thread. nolock_tac. Qed.
Lemma nolock_mountVolume hpn t x : nolock (mountVolume_thread hpn t x).
Proof.
  unfold mountVolume_thread, volumeSource_thread, mount_thread, mountFailed_thread. cbv zeta. nolock_tac.
Qed.
Hint Resolve nolock_canMount nolock_mountVolume : threads.
Lemma nolock_NodePublish hpn req : nolock (NodePublishVolume_thread hpn req).
Proof. unfold NodePublishVolume_thread. cbv zeta. nolock_tac. Qed.
Lemma nolock_NodeUnpublish hpn req : nolock (NodeUnpublishVolume_thread hpn req).
Proof. unfold NodeUnpublishVolume_thread, unmountTarget_thread, removeEphemeral_thread. cbv zeta. nolock_tac. Qed.

Lemma bal_CreateVolume hpc req : bal false false (CreateVolume_thread hpc req).
Proof.
  unfold CreateVolume_thread, populateVolume_thread, restoreFromSnapshot_thread. cbv zeta.
  repeat match goal with
  | |- bal _ _ (locked _) => apply bal_locked; case_match; [apply nolock_restoreSection|done]
  | |- bal _ _ (bindP _ _) => apply bal_bind; [|done|intros ?]
  | |- bal _ _ (tryP _) => apply bal_try
  | |- bal _ _ (match ?x with _ => _ end) => destruct x
  | |- bal _ _ _ => apply nolock_bal; solve [nolock_tac]
  end.
Qed.

(** Every handler gives the mutex back. *)
Lemma bal_answer {A} (f : A → reply) p : bal false false p → bal false false (answerT f p).
Proof. intros Hp. by apply bal_bind. Qed.
Lemma bal_thread `{!FindMnt} hpc r : bal false false (thread hpc r).
Proof.
  destruct r as [req|req|req|req|req|req|req|req|req|req|req|req];
    try (by apply guarded_bal, guarded_snapshot); cbn [thread]; apply bal_answer.
  - apply bal_CreateVolume.
  - apply nolock_bal. unfold DeleteVolume_thread. cbv zeta. nolock_tac.
  - done.
  - done.
  - apply nolock_bal. unfold ListVolumes_thread, listFrom_thread, volumePage_thread, appendEntry_thread,
      volumeEntry_thread, healthCheck_thread, poolCapacities_thread. cbv zeta. nolock_tac.
  - apply nolock_bal. unfold ControllerGetVolume_thread, poolCapacities_thread, volumeEntry_thread,
      healthCheck_thread. cbv zeta. nolock_tac.
  - apply nolock_bal, nolock_NodePublish.
  - apply nolock_bal, nolock_NodeUnpublish.
  - apply nolock_bal. unfold NodeGetVolumeStats_thread, nodeHealth_thread. nolock_tac.
Qed.
End mutex.

(** ** Every schedule comes to an end *)

(** C9: Whatever requests are served at the same time, with any contents and under any faults,
    there is no endless schedule of their calls, and a schedule that cannot go on has answered every
    request and left the mutex of the snapshots free: the handlers do not deadlock, also when one of
    them fails while it holds the mutex. *)
Theorem schedules_answer `{!Env, !FindMnt} hpc (reqs : gmap nat rpc) w c :
  rtc sched (serving hpc reqs w) c →
  sn sched c ∧ (nf sched c → answered c ∧ cf_lock c = None ∧ dom (cf_threads c) = dom reqs) ∧
  ∃ c', rtc sched c c' ∧ answered c'.
Proof.
  intros Hs. assert (lock_ok c) as Hok.
  { eapply sched_lock_oks; [exact Hs|]. apply lock_ok_start. intros i p Hp. apply lookup_fmap_Some in Hp as (r&<-&_).
    apply bal_thread. }
  split_and!; [apply sn_sched| |].
  - intros Hnf. destruct (sched_stuck c Hok Hnf) as [Ha Hl]. split_and!; [done..|].
    rewrite (scheds_dom _ _ Hs). cbn. apply dom_fmap_L.
  - by apply sched_completes.
Qed.

#[local] Existing Instance demoFindmnt.

Lemma schedules_answer_witness :
  ∃ c', rtc sched (serving demoBuilt {[ 0%nat := RCreateVolume (Some (demoRequest "new"));
                                       1%nat := RListSnapshots None ]} demoPools) c' ∧ answered c'.
Proof.
  apply (schedules_answer demoBuilt {[ 0%nat := RCreateVolume (Some (demoRequest "new"));
                                       1%nat := RListSnapshots None ]} demoPools). apply rtc_refl.
Defined.

(** ** One request at a time *)

(** A request that is served while no other is does what the handler does as one step: every
    schedule of its calls ends with the answer and in the state that the handler gives, and there is
    such a schedule. So what the theorems about handlers show holds of requests that do not overlap. *)
Theorem alone_as_handler `{!Env, !FindMnt} config w0 hpc w1 i r w :
  NewHostPathController config w0 = (Ret hpc, w1) → wf_fs (w_fs w) →
  (∀ c, rtc sched (serving hpc {[i := r]} w) c → answered c →
     cf_threads c = {[i := Stop (call hpc r w).1]} ∧ cf_world c = (call hpc r w).2) ∧
  ∃ c, rtc sched (serving hpc {[i := r]} w) c ∧ answered c.
Proof.
  intros Hnew Hwf. destruct (built_controller _ _ _ _ Hnew) as (<-&Hrepos&_). split.
  - intros c Hs Ha. unfold serving in Hs. rewrite map_fmap_singleton in Hs.
    destruct (sched_alone _ _ _ _ Hs) as (l&q&Hc&Hr). rewrite Hc in Ha. rewrite Hc.
    specialize (Ha i q (lookup_singleton_eq _ _)). destruct q as [o| | |]; [|done..]. cbn in *.
    destruct (cuts_thread hpc r Hrepos w Hwf) as [Hrun _]. rewrite Hrun in Hr. by rewrite <-Hr.
  - apply sched_completes, lock_ok_start. intros j p Hp. apply lookup_fmap_Some in Hp as (r'&<-&_).
    apply bal_thread.
Qed.

Lemma alone_as_handler_witness :
  ∃ c, rtc sched (serving demoBuilt {[0%nat := RCreateVolume (Some (demoRequest "new"))]} demoPools) c ∧
    cf_world c = (call demoBuilt (RCreateVolume (Some (demoRequest "new"))) demoPools).2.
Proof.
  destruct (alone_as_handler demoConfig demoPools demoBuilt (tickw demoPools) 0
    (RCreateVolume (Some (demoRequest "new"))) demoPools) as [Hall (c&Hs&Ha)]; [reflexivity|by_wf|].
  exists c. split; [exact Hs|]. apply (Hall c Hs Ha).
Defined.

(** ** Snapshots *)

Lemma snapshots_in_order `{!Env, !FindMnt} hpc (reqs : gmap nat rpc) w cs c' :
  repositories hpc (repos_of (cfg hpc)) → wf_fs (w_fs w) → (∀ i r, reqs !! i = Some r → snapshot_rpc r) →
  schedule (serving hpc reqs w) cs c' → answered c' →
  ∃ order answers, NoDup order ∧ (∀ i, i ∈ order ↔ is_Some (reqs !! i)) ∧
    one_by_one (call hpc <$> reqs) order w = (answers, cf_world c') ∧
    (∀ i o, cf_threads c' !! i = Some (Stop o) → answers !! i = Some o) ∧
    ∀ c, c ∈ cs → ∃ k, ∀ i, i ∈ take k order ↔ ∃ o, cf_threads c !! i = Some (Stop o).
Proof.
  intros Hrepos Hwf Hsnap Hs Ha.
  destruct (guarded_in_order (thread hpc <$> reqs) w cs c') as (order&answers&Hnd&Hall&Ho&Has&Hcs); [|done..|].
  { intros i p Hp. apply lookup_fmap_Some in Hp as (r&<-&Hr). by eapply guarded_snapshot, Hsnap. }
  exists order, answers. split_and!; [done| | |done|done].
  - intros i. rewrite Hall, dom_fmap. apply elem_of_dom.
  - rewrite <-Ho. symmetry. apply one_by_one_ext; [|intros i; rewrite !lookup_fmap; by destruct (reqs !! i)|done].
    intros i m w' Hm Hwf'. rewrite !lookup_fmap in *. destruct (reqs !! i) as [r|]; [|done]. injection Hm as <-.
    exists (call hpc r). destruct (cuts_thread hpc r Hrepos w' Hwf') as [Hrun ?]. by split_and!.
Qed.

(** C6: Requests about snapshots that are served at the same time take effect one after another,
    in one order that respects time: for every schedule of their calls that has answered them all,
    under any faults and also when handlers fail, there is an order of the requests such that the
    answers and the final state are those of their handlers run in that order, and such that at
    every moment of the schedule the requests that have been answered are the first of the order
    (so a request that was answered before another one began comes before it). *)
Theorem snapshots_linearizable `{!Env, !FindMnt} config w0 hpc w1 (reqs : gmap nat rpc) w cs c' :
  NewHostPathController config w0 = (Ret hpc, w1) → wf_fs (w_fs w) →
  (∀ i r, reqs !! i = Some r → snapshot_rpc r) →
  schedule (serving hpc reqs w) cs c' → answered c' →
  ∃ order answers, NoDup order ∧ (∀ i, i ∈ order ↔ is_Some (reqs !! i)) ∧
    one_by_one (call hpc <$> reqs) order w = (answers, cf_world c') ∧
    (∀ i o, cf_threads c' !! i = Some (Stop o) → answers !! i = Some o) ∧
    ∀ c, c ∈ cs → ∃ k, ∀ i, i ∈ take k order ↔ ∃ o, cf_threads c !! i = Some (Stop o).
Proof.
  intros Hnew. destruct (built_controller _ _ _ _ Hnew) as (<-&Hrepos&_). by apply snapshots_in_order.
Qed.

Definition demoSnapshots : gmap nat rpc :=
  {[ 0%nat := RCreateSnapshot (Some demoSnapRequest); 1%nat := RDeleteSnapshot (Some "s1");
     2%nat := RCreateSnapshot (Some demoSnapRequest) ]}.
(** The threads take turns. *)
Definition demoTurns : list nat := concat (repeat [0; 1; 2]%nat 60).

Lemma snapshots_linearizable_witness :
  ∃ order answers, one_by_one (call demoBuilt <$> demoSnapshots) order demoPools =
    (answers, cf_world (follow demoTurns (serving demoBuilt demoSnapshots demoPools))).
Proof.
  destruct (rtc_schedule _ _ (follow_sched demoTurns (serving demoBuilt demoSnapshots demoPools))) as [cs Hcs].
  destruct (snapshots_linearizable demoConfig demoPools demoBuilt (tickw demoPools) demoSnapshots demoPools
    cs (follow demoTurns (serving demoBuilt demoSnapshots demoPools)))
    as (order&answers&_&_&Ho&_); [reflexivity|by_wf| |exact Hcs| |].
  - intros i r Hr. unfold demoSnapshots in Hr.
    repeat (apply lookup_insert_Some in Hr as [[_ <-]|[_ Hr]]; [exact I|]).
    apply lookup_singleton_Some in Hr as [_ <-]. exact I.
  - by_decide.
  - exists order, answers. exact Ho.
Defined.

(** *** Against the contract *)

Lemma one_by_one_other {A} (calls : gmap nat (M A)) order w i :
  i ∉ order → (one_by_one calls order w).1 !! i = None.
Proof.
  revert w. induction order as [|j order IH]; intros w Hi; [done|]. apply not_elem_of_cons in Hi as [Hne Hi]. cbn.
  destruct (calls !! j) as [m|]; [|by apply IH]. destruct (m w) as [o w1]. specialize (IH w1 Hi).
  destruct (one_by_one calls order w1) as [answers w2]. cbn in *. by rewrite lookup_insert_ne.
Qed.
Lemma one_by_one_trace `{!Env, !FindMnt} hpc (reqs : gmap nat rpc) order w answers w' :
  (∀ i r, reqs !! i = Some r → regular r) → NoDup order → (∀ i, i ∈ order → is_Some (reqs !! i)) →
  one_by_one (call hpc <$> reqs) order w = (answers, w') →
  ∃ tr, trace hpc w tr w' ∧ Forall2 (λ i ro, reqs !! i = Some ro.1 ∧ answers !! i = Some ro.2) order tr.
Proof.
  intros Hreg. revert w answers. induction order as [|i order IH]; intros w answers Hnd Hin Ho.
  { injection Ho as <- <-. exists []. split; constructor. }
  apply NoDup_cons in Hnd as [Hi Hnd]. destruct (Hin i) as [r Hr]; [left|]. cbn in Ho. rewrite lookup_fmap, Hr in Ho.
  cbn in Ho. pose proof (one_by_one_other (call hpc <$> reqs) order (call hpc r w).2 i Hi) as Hnone.
  destruct (call hpc r w) as [o w1] eqn:Hc. cbn in Hnone.
  destruct (one_by_one _ order w1) as [answers1 w2] eqn:Ho1. injection Ho as <- <-. cbn in Hnone.
  destruct (IH w1 answers1 Hnd) as (tr&Htr&Hf); [intros j Hj; apply Hin; by right|done|].
  exists ((r, o) :: tr). split.
  - pose proof (trace_cons hpc r w tr w2 (Hreg i r Hr)) as Ht. rewrite Hc in Ht. by apply Ht.
  - constructor; [by rewrite lookup_insert_eq|]. eapply Forall2_impl; [exact Hf|]. intros j ro [Hj Ha].
    split; [done|]. rewrite lookup_insert_ne; [done|]. intros <-. congruence.
Qed.

(** C4: Requests about snapshots that are served at the same time implement the contract of the
    controller. On a configuration whose pools and snapshot directories do not overlap, in a state
    in which they are in place, hold nothing but directories and have no mounts inside them, for
    requests with plain names and when no system call fails (copies may fail), every interleaving
    of their calls that has answered them all is, in some order of the requests, a run of the abstract controller on the catalog of volumes and
    snapshots, with the answers that were given. *)
Theorem concurrent_snapshots_refine `{!Env, !FindMnt} config w0 hpc w1 (reqs : gmap nat rpc) w c :
  no_faults → layout config → NewHostPathController config w0 = (Ret hpc, w1) → good config w →
  (∀ i r, reqs !! i = Some r → snapshot_rpc r ∧ regular r) →
  rtc sched (serving hpc reqs w) c → answered c →
  ∃ order tr, NoDup order ∧ (∀ i, i ∈ order ↔ is_Some (reqs !! i)) ∧
    Forall2 (λ i ro, reqs !! i = Some ro.1 ∧ cf_threads c !! i = Some (Stop ro.2)) order tr ∧
    good config (cf_world c) ∧
    spec_trace hpc (catalog_of config (w_fs w)) tr (catalog_of config (w_fs (cf_world c))).
Proof.
  intros Hnf Hlay Hnew Hg Hreqs Hs Ha. destruct (built_controller _ _ _ _ Hnew) as (<-&Hrepos&Hsafe).
  destruct (rtc_schedule _ _ Hs) as [cs Hcs].
  destruct (snapshots_in_order hpc reqs w cs c Hrepos (g_wf _ _ Hg) (λ i r Hr, proj1 (Hreqs i r Hr)) Hcs)
    as (order&answers&Hnd&Hin&Ho&Has&_); [done..|].
  destruct (one_by_one_trace hpc reqs order w answers (cf_world c)) as (tr&Htr&Hf);
    [apply Hreqs|done|apply Hin|done|].
  destruct (trace_refines hpc w tr (cf_world c) Hnf Hlay Hrepos Hsafe Hg Htr) as [Hg' Hspec].
  exists order, tr. split_and!; [done..| |done|done].
  eapply Forall2_impl; [exact Hf|]. intros i [r o] [Hr Ho']. cbn in *. split; [done|].
  assert (is_Some (cf_threads c !! i)) as [p Hp].
  { apply (elem_of_dom (D := gset nat)). rewrite (scheds_dom _ _ Hs). cbn. rewrite dom_fmap. by apply elem_of_dom. }
  specialize (Ha i p Hp). destruct p as [o'| | |]; [|done..]. specialize (Has i o' Hp). congruence.
Qed.

Lemma demo_snapshots_regular i r : demoSnapshots !! i = Some r → snapshot_rpc r ∧ regular r.
Proof.
  intros Hr. unfold demoSnapshots in Hr. repeat (apply lookup_insert_Some in Hr as [[_ <-]|[_ Hr]]).
  - split; [exact I|]. split; [intros x [= <-]; split; by_decide|exact I].
  - split; [exact I|]. split; [intros x [= <-]; by_decide|exact I].
  - apply lookup_singleton_Some in Hr as [_ <-]. split; [exact I|]. split; [intros x [= <-]; split; by_decide|exact I].
Qed.

Lemma concurrent_snapshots_refine_witness :
  ∃ tr, spec_trace demoBuilt (catalog_of demoConfig (w_fs demoPools)) tr
    (catalog_of demoConfig (w_fs (cf_world (follow demoTurns (serving demoBuilt demoSnapshots (tickw demoPools)))))).
Proof.
  destruct (concurrent_snapshots_refine demoConfig demoPools demoBuilt (tickw demoPools) demoSnapshots
    (tickw demoPools) (follow demoTurns (serving demoBuilt demoSnapshots (tickw demoPools))))
    as (order&tr&_&_&_&_&Hs);
    [done|apply demo_layout|reflexivity|apply demo_good|apply demo_snapshots_regular|apply follow_sched|by_decide|].
  exists tr. exact Hs.
Defined.

(** ** Publications of one target *)

(** The calls of a publication: first the check of the target, then the mount. *)
Lemma publish_check `{!Env, !FindMnt} hpc i x b w1 w ts :
  validateNodePublishRequest (Some x) = None → wf_fs (w_fs w) →
  canMountVolume (linuxNode (cfg hpc)) (np_TargetPath x) w = (Ret b, w1) →
  rtc sched (Conf w None (<[i := thread hpc (RNodePublishVolume (Some x))]> ts))
    (Conf w1 None (<[i := answerT (λ _, ReplyDone)
       (if negb b then retP tt else mountVolume_thread (linuxNode (cfg hpc)) (np_TargetPath x) x)]> ts)).
Proof.
  intros Hv Hwf Hrun. cbn [thread]. unfold answerT, NodePublishVolume_thread, bindP. rewrite Hv. cbn [checkErrT].
  destruct (cuts_canMount (cfg hpc) (np_TargetPath x) w Hwf) as [Hr _]. rewrite Hrun in Hr.
  etrans; [apply (sched_prefix2 i (canMountVolume_thread (np_TargetPath x))); apply nolock_canMount|].
  by rewrite Hr.
Qed.
Lemma publish_mount `{!Env} hpc i x w1 w ts :
  wf_fs (w_fs w) → mountVolume (linuxNode (cfg hpc)) (np_TargetPath x) x w = (Ret tt, w1) →
  rtc sched
    (Conf w None (<[i := answerT (λ _, ReplyDone) (mountVolume_thread (linuxNode (cfg hpc)) (np_TargetPath x) x)]> ts))
    (Conf w1 None (<[i := Stop (Ret ReplyDone)]> ts)).
Proof.
  intros Hwf Hrun. unfold answerT, bindP.
  destruct (cuts_mountVolume (cfg hpc) (np_TargetPath x) x w Hwf) as [Hr _]. rewrite Hrun in Hr.
  etrans; [apply (sched_prefix i (mountVolume_thread _ _ _)); apply nolock_mountVolume|]. by rewrite Hr.
Qed.

Definition publishRace (x : NodePublishVolumeRequest) : gmap nat rpc :=
  <[0%nat := RNodePublishVolume (Some x)]> (<[1%nat := RNodePublishVolume (Some x)]>
    {[2%nat := RNodeUnpublishVolume (Some {| nu_VolumeId := np_VolumeId x; nu_TargetPath := np_TargetPath x |})]}).

(** Both publications check the target before either of them mounts. *)
Lemma publish_race_run `{!Env, !FindMnt} hpc x w w1 w2 w3 w4 :
  validateNodePublishRequest (Some x) = None → wf_fs (w_fs w) →
  canMountVolume (linuxNode (cfg hpc)) (np_TargetPath x) w = (Ret true, w1) →
  canMountVolume (linuxNode (cfg hpc)) (np_TargetPath x) w1 = (Ret true, w2) →
  mountVolume (linuxNode (cfg hpc)) (np_TargetPath x) x w2 = (Ret tt, w3) →
  mountVolume (linuxNode (cfg hpc)) (np_TargetPath x) x w3 = (Ret tt, w4) →
  wf_fs (w_fs w4) ∧
  rtc sched (serving hpc (publishRace x) w)
    (Conf w4 None (<[0%nat := Stop (Ret ReplyDone)]> (<[1%nat := Stop (Ret ReplyDone)]>
       {[2%nat := thread hpc (RNodeUnpublishVolume
           (Some {| nu_VolumeId := np_VolumeId x; nu_TargetPath := np_TargetPath x |}))]}))).
Proof.
  intros Hv Hwf Hc1 Hc2 Hm1 Hm2.
  destruct (cuts_canMount (cfg hpc) (np_TargetPath x) w Hwf) as [_ Hwf1]. rewrite Hc1 in Hwf1. cbn in Hwf1.
  destruct (cuts_canMount (cfg hpc) (np_TargetPath x) w1 Hwf1) as [_ Hwf2]. rewrite Hc2 in Hwf2. cbn in Hwf2.
  destruct (cuts_mountVolume (cfg hpc) (np_TargetPath x) x w2 Hwf2) as [_ Hwf3]. rewrite Hm1 in Hwf3. cbn in Hwf3.
  destruct (cuts_mountVolume (cfg hpc) (np_TargetPath x) x w3 Hwf3) as [_ Hwf4]. rewrite Hm2 in Hwf4. cbn in Hwf4.
  split; [done|]. unfold serving, publishRace. rewrite !fmap_insert, map_fmap_singleton.
  etrans; [by eapply publish_check|]. rewrite insert_insert_ne by done.
  etrans; [by eapply publish_check|]. rewrite insert_insert_ne by done. cbn [negb].
  etrans; [by eapply publish_mount|]. rewrite insert_insert_ne by done.
  etrans; [by eapply publish_mount|]. by rewrite insert_insert_ne by done.
Qed.

Lemma unpublish_run `{!Env, !FindMnt} hpc i r w ts :
  wf_fs (w_fs w) → ∃ w' o, rtc sched (Conf w None (<[i := thread hpc (RNodeUnpublishVolume r)]> ts))
      (Conf w' None (<[i := Stop o]> ts)) ∧
    (NodeUnpublishVolume (linuxNode (cfg hpc)) r w).2 = w' ∧
    ∀ e, (NodeUnpublishVolume (linuxNode (cfg hpc)) r w).1 = Fail e → o = Fail e.
Proof.
  intros Hwf. destruct (cuts_NodeUnpublish (cfg hpc) r w Hwf) as [Hr _]. rewrite <-Hr.
  cbn [thread]. unfold answerT, bindP.
  exists (run (NodeUnpublishVolume_thread (linuxNode (cfg hpc)) r) w).2,
    (match (run (NodeUnpublishVolume_thread (linuxNode (cfg hpc)) r) w).1 with
     | Ret _ => Ret ReplyDone | Fail e => Fail e | Panic s => Panic s end).
  split_and!; [|done|by intros e ->].
  etrans; [apply (sched_prefix i (NodeUnpublishVolume_thread _ _)); apply nolock_NodeUnpublish|].
  by destruct (run (NodeUnpublishVolume_thread _ _) w).1.
Qed.

(** C36: Two publications of one target (writable, without blanks and backslashes in its path) that
    are served at the same time can both succeed and bind the volume twice, because both check the target before either of them mounts. One unpublish
    that comes when both have been answered takes one mount away, fails to remove the target because of
    the other, and has by then removed the contents of the volume through it. *)
Theorem concurrent_publish_loses_data `{!Env, !FindMnt} hpc x base name w :
  no_faults → publishable (cfg hpc) x base name (w_fs w) → canonical (w_mounts w) →
  unescaped (np_TargetPath x) → np_Readonly x = false →
  isEphemeralVolumeRequest x = false → w_fs w !! resolve (np_TargetPath x) = None →
  mounts_below (resolve (np_TargetPath x)) (w_mounts w) = [] →
  w_fs w !! volumeDir (cfg hpc) x = Some NDir →
  ∃ c1 c2, rtc sched (serving hpc (publishRace x) w) c1 ∧ rtc sched c1 c2 ∧
    (** both are answered, nothing else has happened to the tree *)
    cf_threads c1 !! 0%nat = Some (Stop (Ret ReplyDone)) ∧ cf_threads c1 !! 1%nat = Some (Stop (Ret ReplyDone)) ∧
    (∀ k, k ≠ resolve (np_TargetPath x) → w_fs (cf_world c1) !! k = w_fs w !! k) ∧
    (** then the unpublish runs *)
    answered c2 ∧ (∃ e, cf_threads c2 !! 2%nat = Some (Stop (Fail e))) ∧
    ∀ rel, rel ≠ [] → ¬ volumeDir (cfg hpc) x ++ rel `prefix_of` resolve (np_TargetPath x) →
      w_fs (cf_world c2) !! (volumeDir (cfg hpc) x ++ rel) = None.
Proof.
  intros Hnf Hp Hc Hu Hro He Hnew Hbelow Hvol.
  destruct (concurrent_publish_steps Hnf (cfg hpc) x base name w) as (w1&w2&w3&w4&Hc1&Hc2&Hm1&Hm2&Hfs&Hms); [done..|].
  destruct (publish_race_run hpc x w w1 w2 w3 w4) as [Hwf4 Hs]; [apply Hp|apply Hp|done..|].
  destruct (stacked_unpublish_loses_data (cfg hpc) x base name w w4 Hnf Hp Hc Hu Hro Hnew Hbelow Hfs Hms) as [[e Hf] Hgone].
  eexists. set (ts := <[0%nat := Stop (Ret ReplyDone)]> (<[1%nat := Stop (Ret ReplyDone)]> (∅ : gmap nat (prog reply)))).
  destruct (unpublish_run hpc 2
    (Some {| nu_VolumeId := np_VolumeId x; nu_TargetPath := np_TargetPath x |}) w4 ts Hwf4) as (w5&o&Hs2&Hw5&Ho).
  exists (Conf w5 None (<[2%nat := Stop o]> ts)). split; [exact Hs|]. cbn.
  split_and!; [|done|done| | | |by rewrite <-Hw5].
  - etrans; [|exact Hs2]. unfold ts. by rewrite !(insert_insert_ne _ 2%nat) by done.
  - intros k Hk. rewrite Hfs. unfold ensure_dir. rewrite Hnew. by rewrite lookup_insert_ne.
  - intros i p. unfold ts. cbn. intros Hi.
    repeat (apply lookup_insert_Some in Hi as [[_ <-]|[_ Hi]]; [done|]). done.
  - exists e. by rewrite (Ho e Hf).
Qed.

Lemma concurrent_publish_loses_data_witness :
  ∃ c, rtc sched (serving demoBuilt (publishRace (demoMount false "vol1" "/pods/mnt" ∅)) demoNodeWorld) c ∧ answered c ∧
    w_fs (cf_world c) !! ["data"; "vol1"; "disk.img"] = None.
Proof.
  destruct (concurrent_publish_loses_data demoBuilt (demoMount false "vol1" "/pods/mnt" ∅) "/pods" "mnt" demoNodeWorld)
    as (c1&c2&H1&H2&_&_&_&Ha&_&Hgone);
    [done|apply (demoMount_publishable false "vol1" "mnt"); [by_decide|apply demoTarget|by_decide|done]
    |by intros mp ?%not_elem_of_nil|by_decide|done|done|vm_compute; reflexivity|done|vm_compute; reflexivity|].
  exists c2. split; [by etrans|]. split; [exact Ha|]. apply (Hgone ["disk.img"]); by_decide.
Defined.
