(* ===== verification/ConcurrentReach.v ===== *)
(** * What requests that run at the same time can reach

    A rely-guarantee proof of the controller: every call of every request stays
    within the footprint of the request, whatever the others do in between. So
    volumes are isolated from each other in every interleaving, and a volume
    that was created is there as long as no request deletes it. *)
From S2P Require Import Prelude GoStrings GoPath GoErrors OS OSFacts Demo Csi Utils Health Reflink.
From S2P Require Import ReflinkFacts ControllerServer ControllerFacts ControllerProps ControllerSnap.
From S2P Require Import FindMnt NodeServer NodeFacts NodeProps Driver System Catalog CatalogSpec CatalogTrace.
From S2P Require Import Threads HandlerThreads.
From stdpp Require Import relations.
Open Scope Z_scope.

(** The tree is well-formed and the mounts are these. *)
Definition steady (ms : list MountPoint) (w : world) : Prop := wf_fs (w_fs w) ∧ w_mounts w = ms.

(** ** Threads that stay within their roots *)

Section within.
Context (ms : list MountPoint) (R : world → world → Prop) (roots : list GoPath.path).

Definition within {A} (p : prog A) : Prop :=
  ∀ L, rg (steady ms) R (confined roots) L p (oks (λ _ _, True)).

Lemma within_ret {A} (a : A) : within (retP a).
Proof. by intros L. Qed.
Lemma within_fail {A} e : within (A := A) (failP e).
Proof. by intros L. Qed.
Lemma within_panic {A} s : within (A := A) (panicP s).
Proof. by intros L. Qed.
(** A fact about the result of the first part. *)
Lemma within_bind_post {A B} (P : A → Prop) (p : prog A) (k : A → prog B) :
  (∀ L, rg (steady ms) R (confined roots) L p (oks (λ a _, P a))) → (∀ a, P a → within (k a)) →
  within (bindP p k).
Proof.
  intros Hp Hk L. eapply rg_bind; [apply Hp|]. intros a. cbn.
  eapply rg_weaken; [apply (rg_pure _ _ _ (P a) (λ _, True))|by intros; split|done]. intros Ha. by apply Hk.
Qed.
Lemma within_bind {A B} (p : prog A) (k : A → prog B) : within p → (∀ a, within (k a)) → within (bindP p k).
Proof. intros Hp Hk. by apply (within_bind_post (λ _, True)). Qed.
Lemma within_try {A} (p : prog A) : within p → within (tryP p).
Proof. intros Hp L. eapply rg_weaken; [apply rg_try, Hp|done|by intros [a|e|s]]. Qed.
Lemma within_wrap {A} f (p : prog A) : within p → within (wrapP f p).
Proof. intros Hp L. apply rg_wrap, Hp. Qed.
Lemma within_fold {A B} (f : B → A → prog B) l b : (∀ b x, x ∈ l → within (f b x)) → within (foldP f b l).
Proof.
  intros Hf L. eapply rg_weaken; [apply (rg_fold _ _ _ f l (λ _ _, True))|done|done]. intros b' x Hx. by apply Hf.
Qed.
Lemma within_locked {A} (p : prog A) : within p → within (locked p).
Proof. intros Hp L. apply rg_locked, Hp. Qed.
Lemma within_step {A} (P : A → Prop) (m : M A) :
  respects wf_rel m → respects (confined roots) m →
  (∀ w, wf_fs (w_fs w) → match (m w).1 with Ret a => P a | _ => True end) →
  ∀ L, rg (steady ms) R (confined roots) L (atom m) (oks (λ a _, P a)).
Proof.
  intros Hwf Hc HP L. apply rg_atom; [intros a; apply stable_pure|]. intros w [Hw Hm] _.
  split_and!; [split; [by apply Hwf|]|apply Hc|by apply HP]. destruct (Hc w) as [Hm' _]. congruence.
Qed.
Lemma within_atom {A} (m : M A) : respects wf_rel m → respects (confined roots) m → within (atom m).
Proof. intros Hwf Hc L. apply (within_step (λ _, True)); [done..|]. intros w _. by destruct (m w).1. Qed.
End within.

Create HintDb within.
Ltac within_step :=
  match goal with
  | |- within _ _ _ (retP _) => apply within_ret
  | |- within _ _ _ (failP _) => apply within_fail
  | |- within _ _ _ (panicP _) => apply within_panic
  | |- within _ _ _ (bindP _ _) => apply within_bind; [|intros ?]
  | |- within _ _ _ (tryP _) => apply within_try
  | |- within _ _ _ (wrapP _ _) => apply within_wrap
  | |- within _ _ _ (locked _) => apply within_locked
  | |- within _ _ _ (foldP _ _ _) => apply within_fold; intros ? ? ?
  | |- within _ _ _ (match ?x with _ => _ end) => destruct x eqn:?
  | |- within _ _ _ _ => solve [eauto with within]
  | |- within _ _ _ (atom _) => apply within_atom; solve [respects_tac | eauto with go]
  end.
Ltac within_tac := repeat within_step.

Section controller.
Context `{!Env} (ms : list MountPoint) (R : world → world → Prop) (roots : list GoPath.path).

Lemma within_checkErr e : within ms R roots (checkErrT e).
Proof. destruct e; [apply within_fail|apply within_ret]. Qed.
Lemma within_deref {A} (p : option A) : within ms R roots (derefT p).
Proof. destruct p; [apply within_ret|apply within_panic]. Qed.
Lemma within_deref_bind {A B} (p : option A) (k : A → prog B) :
  (∀ a, p = Some a → within ms R roots (k a)) → within ms R roots (bindP (derefT p) k).
Proof. intros Hk. destruct p as [a|]; [by apply Hk|]. by intros L. Qed.

(** *** Making directories *)

Lemma mkdir_next_adds cur c w :
  let w' := (mkdir_next cur c w).2 in
  w_mounts w' = w_mounts w ∧
  (w_fs w' = w_fs w ∨
   (w_fs w !! (cur ++ [c]) = None ∧ w_fs w !! cur = Some NDir ∧ w_fs w' = <[cur ++ [c] := NDir]> (w_fs w))).
Proof.
  unfold mkdir_next, bind, gets. cbn. destruct (w_fs w !! (cur ++ [c])) as [[|]|] eqn:Hl; cbn; [by auto..|].
  destruct (w_fs w !! cur) as [[|]|] eqn:Hc; cbn; [|by auto..]. unfold mkdir_at.
  destruct (fault _ _ _); cbn; [by auto|]. auto.
Qed.
Lemma respects_wf_mkdir_next cur c : valid_name c → respects wf_rel (mkdir_next cur c).
Proof.
  intros Hc w Hwf. destruct (mkdir_next_adds cur c w) as [_ [->|(Hl&Hcur&->)]]; [done|]. by apply wf_insert_dir.
Qed.
Lemma respects_confined_mkdir_next cur c p :
  inside roots p → cur ++ [c] `prefix_of` p → respects (confined roots) (mkdir_next cur c).
Proof.
  intros Hin Hpre w. destruct (mkdir_next_adds cur c w) as [Hm Hfs]. split; [done|]. intros _ k Hout.
  destruct Hfs as [->|(Hl&_&->)]; [by left|].
  destruct (decide (cur ++ [c] = k)) as [<-|Hne]; [|left; by rewrite lookup_insert_ne].
  right. rewrite lookup_insert_eq. split_and!; [done..|].
  apply Exists_exists in Hin as (r&Hr&Hrp). apply Exists_exists. exists r. split; [done|].
  destruct (prefix_weak_total (cur ++ [c]) r p) as [|Hrk]; [done..|]. exfalso. apply Hout, Exists_exists. eauto.
Qed.
Lemma within_mkdir p cur todo :
  inside roots p → Forall valid_name todo → cur ++ todo `prefix_of` p → within ms R roots (mkdir_thread cur todo).
Proof.
  intros Hin Hv. revert cur. induction Hv as [|c todo Hc Hv IH]; intros cur Hpre; [apply within_ret|].
  cbn [mkdir_thread]. replace (cur ++ c :: todo) with ((cur ++ [c]) ++ todo) in Hpre by by rewrite <-app_assoc.
  apply within_bind; [|by intros; apply IH]. apply within_atom; [by apply respects_wf_mkdir_next|].
  eapply respects_confined_mkdir_next; [done|]. etrans; [|exact Hpre]. by exists todo.
Qed.
Lemma within_MkdirAll s : inside roots (resolve s) → within ms R roots (MkdirAll_thread s).
Proof.
  intros Hin. unfold MkdirAll_thread. case_decide; [apply within_fail|].
  eapply within_mkdir; [done|apply resolve_valid|done].
Qed.
Hint Resolve within_checkErr within_deref within_MkdirAll : within.
Hint Resolve respects_readPool respects_getSource respects_fromDir respects_addCapacity respects_snapshotPage : go.
Hint Resolve respects_dirCapacity respects_ValidateVolumeCapabilities respects_GetCapacity : go.
Hint Resolve respects_slice respects_baseAt : go.

(** *** The provider *)

Lemma within_GetSnapshotById r id : within ms R roots (GetSnapshotById_thread r id).
Proof. unfold GetSnapshotById_thread. within_tac. Qed.
Hint Resolve within_GetSnapshotById : within.
Lemma within_GetAllSnapshots r : within ms R roots (GetAllSnapshots_thread r).
Proof. unfold GetAllSnapshots_thread, appendSnapshot_thread. within_tac. Qed.
Hint Resolve within_GetAllSnapshots : within.
Lemma within_takeSnapshot r id v :
  inside roots (resolve (path r)) → valid_name id → valid_name v → within ms R roots (takeSnapshot_thread r id v).
Proof. intros. unfold takeSnapshot_thread. cbv zeta. within_tac; eauto with go within. Qed.
Lemma within_dropSnapshot r id :
  inside roots (resolve (path r)) → valid_name id → within ms R roots (dropSnapshot_thread r id).
Proof. intros. unfold dropSnapshot_thread. cbv zeta. within_tac. Qed.
Lemma within_RestoreSnapshot r id t :
  inside roots (resolve t) → within ms R roots (RestoreSnapshot_thread r id t).
Proof. intros. unfold RestoreSnapshot_thread. cbv zeta. within_tac. Qed.
End controller.
#[export] Hint Resolve within_checkErr within_deref within_MkdirAll within_GetSnapshotById within_GetAllSnapshots
  within_takeSnapshot within_dropSnapshot within_RestoreSnapshot : within.
#[export] Hint Resolve respects_readPool respects_getSource respects_fromDir respects_addCapacity
  respects_snapshotPage respects_dirCapacity respects_ValidateVolumeCapabilities respects_GetCapacity
  respects_slice respects_baseAt : go.

(** ** The footprint of a request *)

Lemma repos_of_inv config pool rl :
  repos_of config !! pool = Some rl →
  ∃ info, StoragePools config !! pool = Some info ∧ SnapshotPath info = Some (path rl).
Proof.
  unfold repos_of. rewrite lookup_omap. destruct (StoragePools config !! pool) as [info|]; [|done]. cbn.
  unfold wants. destruct (Utils.SnapshotProvider info); [|done]. destruct (SnapshotPath info) as [sp|] eqn:Hs; [|done].
  case_decide; [|done]. intros [= <-]. by exists info.
Qed.
Lemma repo_inside config pool rl :
  repos_of config !! pool = Some rl →
  inside (map_to_list (StoragePools config) ≫= λ kv, snap_roots kv.2) (resolve (path rl)).
Proof.
  intros (info&Hp&Hs)%repos_of_inv. apply inside_elem, list_elem_of_bind. exists (pool, info).
  split; [|by apply elem_of_map_to_list]. unfold snap_roots. cbn. rewrite Hs. by apply list_elem_of_singleton.
Qed.

(** A directory of a pool, under a proper name. *)
Definition volume_path (config : Config) (d : string) : Prop :=
  ∃ pool info c, StoragePools config !! pool = Some info ∧ valid_name c ∧ d = GoPath.Join [Path info; c].

Section requests.
Context `{!Env} (ms : list MountPoint) (R : world → world → Prop) (hpc : hostPathController).

Lemma within_withRepo {A} roots pool (f : Reflink → prog A) :
  (∀ rl, repos_of (cfg hpc) !! pool = Some rl → within ms R roots (f rl)) → within ms R roots (withRepo hpc pool f).
Proof. intros Hf. unfold withRepo. destruct (repos_of (cfg hpc) !! pool); [by apply Hf|apply within_panic]. Qed.

Lemma within_CreateVolume x info :
  valid_name (cv_Name x) → StoragePools (cfg hpc) !! getStoragePoolNameFromMap (cv_Parameters x) = Some info →
  within ms R [pool_root info ++ [cv_Name x]] (CreateVolume_thread hpc (Some x)).
Proof.
  intros Hv Hp. assert (inside [pool_root info ++ [cv_Name x]] (resolve (GoPath.Join [Path info; cv_Name x]))) as Hin.
  { unfold pool_root. rewrite resolve_Join by done. by apply inside_elem, list_elem_of_singleton. }
  unfold CreateVolume_thread, populateVolume_thread, restoreFromSnapshot_thread. cbv zeta.
  apply within_bind; [apply within_checkErr|intros []]. apply within_deref_bind. intros ? [= <-].
  rewrite Hp, (getPool_found _ _ _ Hp). within_tac; eauto with within go.
  apply within_withRepo. intros rl _. by apply within_RestoreSnapshot.
Qed.
Lemma within_CreateVolume_unknown roots x :
  StoragePools (cfg hpc) !! getStoragePoolNameFromMap (cv_Parameters x) = None →
  within ms R roots (CreateVolume_thread hpc (Some x)).
Proof.
  intros Hp. unfold CreateVolume_thread. apply within_bind; [apply within_checkErr|intros []].
  apply within_deref_bind. intros ? [= <-]. cbv zeta. rewrite Hp. within_tac; eauto with within.
Qed.

(** What reading the pools gives, also when they change in between. *)
Lemma readPool_paths dirs kv w :
  wf_fs (w_fs w) → Forall (volume_path (cfg hpc)) dirs → StoragePools (cfg hpc) !! kv.1 = Some kv.2 →
  match (readPoolDirectories dirs kv w).1 with Ret a => Forall (volume_path (cfg hpc)) a | _ => True end.
Proof.
  intros Hwf Hd Hkv. unfold readPoolDirectories, bind, os_ReadDir, reads, readdir_result. cbn.
  destruct (fault _ _ _); [done|]. case_decide; [done|].
  destruct (w_fs w !! resolve (Path kv.2)) as [[|]|]; [|done..]. cbn. apply Forall_app. split; [done|].
  apply Forall_forall. intros d ([c n]&->&[_ Hin]%list_elem_of_filter)%list_elem_of_fmap.
  apply elem_of_entries in Hin. apply (wf_parent _ Hwf) in Hin as [_ Hc]. by exists kv.1, kv.2, c.
Qed.
Lemma rg_getDirectories roots L :
  rg (steady ms) R (confined roots) L (getDirectories_thread (StoragePools (cfg hpc)))
    (oks (λ dirs _, Forall (volume_path (cfg hpc)) dirs)).
Proof.
  unfold getDirectories_thread.
  eapply (rg_bind _ _ _ _ _ _ (λ pools _, ∀ kv, kv ∈ pools → StoragePools (cfg hpc) !! kv.1 = Some kv.2)).
  { apply within_step; [respects_tac..|]. intros w _ [pool info]. by rewrite range_order_perm, elem_of_map_to_list. }
  intros pools. eapply rg_weaken; [|intros w _ Hl; exact (conj Hl I)|done]. apply rg_pure. intros Hpools.
  eapply rg_bind.
  - eapply rg_weaken; [apply (rg_fold _ _ _ _ _ (λ dirs _, Forall (volume_path (cfg hpc)) dirs))|by constructor|done].
    intros dirs kv Hkv. eapply rg_weaken; [|intros w _ Hl; exact (conj Hl I)|done]. apply rg_pure. intros Hd.
    apply within_step; [apply respects_readPool; apply _..|]. intros w Hwf. apply readPool_paths; auto.
  - intros dirs. apply rg_ret. intros w _ Hd. apply Forall_forall. intros d Hin. rewrite elem_of_sort_Strings in Hin.
    exact (proj1 (Forall_forall _ _) Hd d Hin).
Qed.

Lemma within_DeleteVolume id :
  within ms R (footprint (cfg hpc) (RDeleteVolume (Some id))) (DeleteVolume_thread hpc (Some id)).
Proof.
  unfold DeleteVolume_thread. apply within_bind; [apply within_checkErr|intros []].
  apply within_deref_bind. intros ? [= <-].
  eapply within_bind_post; [intros L; apply rg_getDirectories|]. cbv zeta. intros dirs Hd. case_decide as Hne.
  { apply within_ret. }
  destruct (findVolumePath_spec id dirs) as [[? _]|[(_&Hin&Hb)|[? _]]]; [done| |done].
  apply (proj1 (Forall_forall _ _) Hd) in Hin as (pool&info&c&Hp&Hc&Heq).
  rewrite Heq, Base_Join in Hb by done. subst c. rewrite Heq, Dir_Join by done.
  apply within_wrap, within_atom; [apply respects_wf_DeleteVolume|]. apply respects_confined_DeleteVolume.
  rewrite resolve_Join, resolve_Clean by done. apply inside_elem, list_elem_of_fmap. exists (pool, info).
  split; [done|]. by apply elem_of_map_to_list.
Qed.

Lemma within_CreateSnapshot x :
  valid_name (cs_Name x) → valid_name (cs_SourceVolumeId x) →
  within ms R (footprint (cfg hpc) (RCreateSnapshot (Some x))) (CreateSnapshot_thread hpc (Some x)).
Proof.
  intros Hn Hs. unfold CreateSnapshot_thread. apply within_bind; [apply within_checkErr|intros []].
  apply within_deref_bind. intros ? [= <-]. cbv zeta. within_tac.
  apply within_withRepo. intros rl Hrl%repo_inside. unfold createSnapshot_section. within_tac.
Qed.
Lemma within_DeleteSnapshot id :
  valid_name id → within ms R (footprint (cfg hpc) (RDeleteSnapshot (Some id))) (DeleteSnapshot_thread hpc (Some id)).
Proof.
  intros Hid. unfold DeleteSnapshot_thread, deleteSnapshot_section. within_tac.
  apply within_withRepo. intros rl Hrl%repo_inside. by apply within_dropSnapshot.
Qed.
Lemma within_ListSnapshots roots req : within ms R roots (ListSnapshots_thread hpc req).
Proof.
  unfold ListSnapshots_thread, listSnapshots_section, providerSnapshots_thread, GetByVolume_thread. within_tac.
  apply within_withRepo. intros rl _. within_tac.
Qed.
Lemma within_getDirectories roots : within ms R roots (getDirectories_thread (StoragePools (cfg hpc))).
Proof. intros L. eapply rg_weaken; [apply rg_getDirectories|done|by intros [a|e|s]]. Qed.
Hint Resolve within_getDirectories : within.
Lemma within_ListVolumes roots req : within ms R roots (ListVolumes_thread hpc req).
Proof.
  unfold ListVolumes_thread, listFrom_thread, volumePage_thread, appendEntry_thread, volumeEntry_thread,
    healthCheck_thread, poolCapacities_thread. cbv zeta. within_tac.
Qed.
Lemma within_ControllerGetVolume roots req : within ms R roots (ControllerGetVolume_thread hpc req).
Proof.
  unfold ControllerGetVolume_thread, volumeEntry_thread, healthCheck_thread, poolCapacities_thread.
  cbv zeta. within_tac.
Qed.

(** Every call of a request stays within the footprint of the request. *)
Lemma within_thread `{!FindMnt} r : plain_rpc r → within ms R (footprint (cfg hpc) r) (thread hpc r).
Proof.
  intros Hr. destruct r as [[x|]|[id|]|req|params|req|id|[x|]|[id|]|req|req|req|req]; cbn [thread plain_rpc] in *;
    try done; unfold answerT; (apply within_bind; [|intros; apply within_ret]); try by intros L.
  - specialize (Hr x eq_refl). cbn [footprint].
    destruct (StoragePools (cfg hpc) !! getStoragePoolNameFromMap (cv_Parameters x)) as [info|] eqn:Hp.
    + by apply within_CreateVolume.
    + by apply within_CreateVolume_unknown.
  - apply within_DeleteVolume.
  - apply within_atom; apply respects_ValidateVolumeCapabilities; apply _.
  - apply within_atom; apply respects_GetCapacity; apply _.
  - apply within_ListVolumes.
  - apply within_ControllerGetVolume.
  - destruct (Hr x eq_refl). by apply within_CreateSnapshot.
  - by apply within_DeleteSnapshot, Hr.
  - apply within_ListSnapshots.
Qed.
End requests.

(** ** Isolation *)

(** Requests that keep to themselves, as a pool. *)
Lemma serving_rg `{!Env, !FindMnt} hpc (reqs : gmap nat rpc) w G Q :
  wf_fs (w_fs w) →
  (∀ i r, reqs !! i = Some r → ∃ L, stable (steady (w_mounts w)) G L ∧ L w ∧
     rg (steady (w_mounts w)) G G L (thread hpc r) (Q i)) →
  pool_rg (steady (w_mounts w)) (λ _, G) (λ _, G) Q (serving hpc reqs w).
Proof.
  intros Hwf Hr. split; [by split|]. cbn. intros i p Hp. apply lookup_fmap_Some in Hp as (r&<-&Hi). by apply Hr.
Qed.

(** What is at or below [p] does not change. *)
Definition leaves (p : GoPath.path) (w w' : world) : Prop :=
  w_mounts w' = w_mounts w ∧ ∀ rel, w_fs w' !! (p ++ rel) = w_fs w !! (p ++ rel).
#[export] Instance leaves_preorder p : PreOrder (leaves p).
Proof.
  split; [by intros w|]. intros w1 w2 w3 [Hm1 H1] [Hm2 H2]. split; [congruence|]. intros rel. by rewrite H2.
Qed.

(** A request whose footprint is apart from [p] and has nothing mounted inside. *)
Definition elsewhere (config : Config) (ms : list MountPoint) (p : GoPath.path) (r : rpc) : Prop :=
  plain_rpc r ∧ (∀ q, q ∈ footprint config r → apart p q) ∧
  ∀ mp, mp ∈ ms → ¬ inside (footprint config r) (resolve (mp_Path mp)).

Lemma elsewhere_leaves config ms p r w w' :
  elsewhere config ms p r → steady ms w → confined (footprint config r) w w' → leaves p w w'.
Proof.
  intros (_&Hap&Hu) [_ Hm] Hc. split; [apply Hc|]. intros rel.
  eapply confined_apart; [done| |exact Hap|by exists rel]. unfold unmounted. by rewrite Hm.
Qed.

(** C5: Volumes are isolated in every interleaving: whatever controller requests with plain names
    are served at the same time, under any faults, what is apart from their footprints is the same in
    every state of every schedule, the mount table too, and the tree stays well-formed, as long
    as nothing is mounted inside the footprints. The footprint of a request is the directory of the
    volume it creates or the directories of the name it deletes, and the snapshot directories for a
    request about snapshots. *)
Theorem concurrent_isolation `{!Env, !FindMnt} hpc (reqs : gmap nat rpc) p w c :
  wf_fs (w_fs w) → (∀ i r, reqs !! i = Some r → elsewhere (cfg hpc) (w_mounts w) p r) →
  rtc sched (serving hpc reqs w) c →
  wf_fs (w_fs (cf_world c)) ∧ w_mounts (cf_world c) = w_mounts w ∧
  ∀ rel, w_fs (cf_world c) !! (p ++ rel) = w_fs w !! (p ++ rel).
Proof.
  intros Hwf Hreqs Hs.
  assert (pool_rg (steady (w_mounts w)) (λ _, leaves p) (λ _, leaves p) (λ _ _ _, True) (serving hpc reqs w)) as Hpool.
  { apply serving_rg; [done|]. intros i r Hi. exists (λ _, True). split_and!; [done..|].
    eapply rg_guarantee; [|eapply rg_weaken; [by apply (within_thread _ _ hpc r), (Hreqs i)|done|done]].
    intros w1 w2 H1 _. by apply (elsewhere_leaves _ _ _ _ _ _ (Hreqs i r Hi)). }
  destruct (scheds_same _ _ _ _ _ Hs Hpool) as [[[Hwf' Hm'] _] [_ Hl]]. by split_and!.
Qed.

(** ** Creation *)

(** No directory at [p] is taken away and no file is put there. *)
Definition tame (p : GoPath.path) (w w' : world) : Prop :=
  (w_fs w !! p = Some NDir → w_fs w' !! p = Some NDir) ∧
  ((∀ s, w_fs w !! p ≠ Some (NFile s)) → ∀ s, w_fs w' !! p ≠ Some (NFile s)).

#[export] Instance tame_preorder p : PreOrder (tame p).
Proof. split; [by intros w|]. intros w1 w2 w3 [H1 H2] [H3 H4]. split; auto. Qed.
Lemma leaves_tame p w w' : leaves p w w' → tame p w w'.
Proof. intros [_ Hl]. specialize (Hl []). rewrite app_nil_r in Hl. unfold tame. by rewrite Hl. Qed.
Lemma quiet_tame p w w' : quiet w w' → tame p w w'.
Proof. intros (Hfs&_&_). unfold tame. by rewrite Hfs. Qed.

Section create.
Context `{!Env} (ms : list MountPoint) (p : GoPath.path).
Abbreviation create_rg := (rg (steady ms) (tame p) (λ w w', ∀ q, tame q w w')).

(** There is no file at [p], and once [cur] has come to it, a directory. *)
Definition made (cur : GoPath.path) (w : world) : Prop :=
  (∀ s, w_fs w !! p ≠ Some (NFile s)) ∧ (cur = p → w_fs w !! p = Some NDir).

Lemma stable_made cur : stable (steady ms) (tame p) (made cur).
Proof. intros w w' _ _ [H1 H2] [Hf Hd]. split; [by apply H2|]. intros Hc. by apply H1, Hd. Qed.

Lemma create_read {A} L (m : M A) :
  stable (steady ms) (tame p) L → respects quiet m → create_rg L (atom m) (oks (λ _, L)).
Proof.
  intros HL Hq. apply rg_atom; [by intros _|]. intros w Hi Hl. pose proof (Hq w) as (Hfs&Hm&_).
  assert (steady ms (m w).2) as Hi' by (destruct Hi; split; congruence).
  pose proof (λ q, quiet_tame q _ _ (Hq w)) as Ht.
  split_and!; [done|done|]. destruct (m w).1; [by apply (HL w)|done..].
Qed.
Lemma mkdir_next_made cur c w :
  (∀ q, tame q w (mkdir_next cur c w).2) ∧
  (is_ret (mkdir_next cur c w).1 = true → w_fs (mkdir_next cur c w).2 !! (cur ++ [c]) = Some NDir).
Proof.
  unfold mkdir_next, bind, gets. cbn. destruct (w_fs w !! (cur ++ [c])) as [[|]|] eqn:Hl; cbn; [done..|].
  destruct (w_fs w !! cur) as [[|]|] eqn:Hc; cbn; [|done..]. unfold mkdir_at.
  destruct (fault _ _ _); cbn; [done|]. rewrite lookup_insert_eq. split; [|done]. intros q. unfold tame. cbn.
  destruct (decide (cur ++ [c] = q)) as [<-|Hne]; [by rewrite lookup_insert_eq|by rewrite lookup_insert_ne].
Qed.
Lemma create_mkdir cur todo :
  Forall valid_name todo → create_rg (made cur) (mkdir_thread cur todo) (oks (λ _, made (cur ++ todo))).
Proof.
  intros Hv. revert cur. induction Hv as [|c todo Hc Hv IH]; intros cur; cbn [mkdir_thread].
  { apply rg_ret. by rewrite app_nil_r. }
  replace (cur ++ c :: todo) with ((cur ++ [c]) ++ todo) by by rewrite <-app_assoc.
  eapply (rg_bind _ _ _ _ _ _ (λ _, made (cur ++ [c]))); [|intros _; apply IH].
  apply rg_atom; [intros _; apply stable_made|]. intros w [Hwf Hm] [Hf Hd].
  destruct (mkdir_next_adds cur c w) as [Hms _]. destruct (mkdir_next_made cur c w) as [Ht Hret].
  split_and!; [split; [by apply respects_wf_mkdir_next|congruence]|done|].
  destruct (mkdir_next cur c w).1 as [[]|e|s]; [|done..]. split; [by apply (Ht p)|]. intros <-. by apply Hret.
Qed.
Lemma create_MkdirAll s :
  create_rg (made []) (MkdirAll_thread s) (oks (λ _, made (resolve s))).
Proof.
  unfold MkdirAll_thread. case_decide; [done|]. apply create_mkdir, resolve_valid.
Qed.
Lemma create_exists s :
  create_rg (made []) (atom (checkPathExistFunc s)) (oks (λ b : bool, made (if b then resolve s else []))).
Proof.
  apply rg_atom; [intros b; apply stable_made|]. intros w [Hwf Hm] [Hf Hd].
  pose proof (respects_checkPathExist quiet s w) as Hq.
  split_and!; [destruct Hq as (Hfs&Hms&_); split; congruence|intros q; by apply quiet_tame|].
  destruct (checkPathExistFunc s w) as [[b|e|pa] w'] eqn:Hrun; [|done..]. cbn in *. destruct Hq as (Hfs&_&_).
  unfold made. rewrite Hfs. split; [done|]. destruct b; [|done]. intros <-.
  apply checkPathExist_true in Hrun as (_&_&[[|s'] Hx]); [done|]. by destruct (Hf s').
Qed.

Lemma populate_none hpc pool x : snapshotOf x = None → populateVolume_thread hpc pool x = retP tt.
Proof.
  unfold snapshotOf, populateVolume_thread. by destruct (cv_VolumeContentSource x) as [[[sid|]| |]|].
Qed.

Lemma rg_deref_bind {A B} I R G L (a : A) (k : A → prog B) Q :
  rg I R G L (k a) Q → rg I R G L (bindP (derefT (Some a)) k) Q.
Proof. done. Qed.

Lemma sure_checkErr I R G L e : e = None → rg I R G L (checkErrT e) (sure (λ _, L)).
Proof. intros ->. by apply sure_ret. Qed.
Lemma rg_checkErr I R G L e : rg I R G L (checkErrT e) (oks (λ _, L)).
Proof. destruct e; [done|]. by apply rg_ret. Qed.

(** A creation without a source never harms a directory, and its own is there when it succeeds. *)
Lemma create_thread hpc x :
  snapshotOf x = None →
  create_rg (made []) (CreateVolume_thread hpc (Some x)) (oks (λ _ w, ∀ info,
    StoragePools (cfg hpc) !! getStoragePoolNameFromMap (cv_Parameters x) = Some info →
    resolve (GoPath.Join [Path info; cv_Name x]) = p → w_fs w !! p = Some NDir)).
Proof.
  intros Hx. unfold CreateVolume_thread. cbv zeta.
  eapply rg_bind; [apply rg_checkErr|intros []].
  apply rg_deref_bind.
  eapply rg_bind; [apply rg_checkErr|intros []].
  destruct (StoragePools (cfg hpc) !! _) as [info|]; [|done].
  eapply rg_bind; [apply create_read; [apply stable_made|apply respects_dirCapacity; apply _]|intros cap].
  eapply rg_bind; [apply create_exists|intros b]. rewrite populate_none by done.
  eapply (rg_bind _ _ _ _ _ _ (λ _, made (resolve (GoPath.Join [Path info; cv_Name x])))).
  - destruct b; [by apply rg_ret|]. apply rg_wrap, create_MkdirAll.
  - intros []. eapply (rg_bind _ _ _ _ _ _ (λ _, made (resolve (GoPath.Join [Path info; cv_Name x])))); [by apply rg_ret|].
    intros []. apply rg_ret. intros w _ [_ Hd] ? [= <-]. exact Hd.
Qed.
Lemma create_answer `{!FindMnt} hpc x :
  snapshotOf x = None →
  create_rg (made []) (thread hpc (RCreateVolume (Some x))) (oks (λ _ w, ∀ info,
    StoragePools (cfg hpc) !! getStoragePoolNameFromMap (cv_Parameters x) = Some info →
    resolve (GoPath.Join [Path info; cv_Name x]) = p → w_fs w !! p = Some NDir)).
Proof. intros Hx. cbn [thread]. eapply rg_bind; [by apply create_thread|]. intros v. by apply rg_ret. Qed.
End create.

(** C17: A volume whose creation was answered with success is there, in every interleaving and under
    any faults, from the answer on: as long as the requests that are served at the same time are
    creations without a source, also of the same volume, or have footprints apart from it. *)
Theorem concurrent_create `{!Env, !FindMnt} hpc (reqs : gmap nat rpc) i x info v w c :
  wf_fs (w_fs w) → valid_name (cv_Name x) → snapshotOf x = None →
  StoragePools (cfg hpc) !! getStoragePoolNameFromMap (cv_Parameters x) = Some info →
  (∀ s, w_fs w !! (pool_root info ++ [cv_Name x]) ≠ Some (NFile s)) →
  reqs !! i = Some (RCreateVolume (Some x)) →
  (∀ j r, reqs !! j = Some r →
     elsewhere (cfg hpc) (w_mounts w) (pool_root info ++ [cv_Name x]) r ∨
     ∃ x', r = RCreateVolume (Some x') ∧ snapshotOf x' = None) →
  rtc sched (serving hpc reqs w) c → cf_threads c !! i = Some (Stop (Ret v)) →
  w_fs (cf_world c) !! (pool_root info ++ [cv_Name x]) = Some NDir.
Proof.
  intros Hwf Hv Hx Hp Hfile Hi Hreqs Hs Hans. set (p := pool_root info ++ [cv_Name x]) in *.
  set (Q (j : nat) (o : outcome gerror reply) (w : world) := j = i → oks (λ _ w, w_fs w !! p = Some NDir) o w).
  assert (pool_rg (steady (w_mounts w)) (λ _, tame p) (λ _, tame p) Q (serving hpc reqs w)) as Hpool.
  { apply serving_rg; [done|]. intros j r Hj. exists (made p []). split_and!; [apply stable_made| |].
    - split; [done|]. intros Hnil. by rewrite <-Hnil, (wf_root _ Hwf).
    - destruct (Hreqs j r Hj) as [He|(x'&->&Hx')].
      + eapply rg_guarantee; [|eapply rg_weaken; [by apply (within_thread _ _ hpc r), He|done|]].
        * intros w1 w2 H1 _ Hc. by eapply leaves_tame, elsewhere_leaves.
        * intros o w' _ _ ->. exfalso. rewrite Hi in Hj. injection Hj as <-. destruct He as (_&Hap&_). cbn in Hap.
          rewrite Hp in Hap. destruct (Hap p) as [[] _]; [by apply list_elem_of_singleton|done].
      + eapply rg_guarantee; [intros w1 w2 _ _ Ht; exact (Ht p)|].
        eapply rg_weaken; [by apply create_answer|done|]. intros [a|e|s] w' _ Hd ->; [|done..].
        rewrite Hi in Hj. injection Hj as <-. apply (Hd info Hp). by apply resolve_Join. }
  destruct (scheds_same _ _ _ _ _ Hs Hpool) as [Hpool' _]. exact (pool_rg_answer _ _ _ _ _ _ _ Hpool' Hans eq_refl).
Qed.

(** ** Creation succeeds *)

Section succeed.
Context `{!Env} (Hnf : no_faults) (ms : list MountPoint) (root : GoPath.path) (name : string).
Let R (w w' : world) : Prop := tame (root ++ [name]) w w' ∧ tame root w w'.

(** The pool is in place, and there is no file where the volume goes. *)
Definition place (w : world) : Prop :=
  w_fs w !! root = Some NDir ∧ ∀ s, w_fs w !! (root ++ [name]) ≠ Some (NFile s).

Lemma stable_place : stable (steady ms) R place.
Proof. intros w w' _ _ [Hp Hr] [Hd Hf]. split; [by apply Hr|by apply Hp]. Qed.
Lemma place_next cur c rest w :
  wf_fs (w_fs w) → place w → cur ++ c :: rest = root ++ [name] →
  w_fs w !! cur = Some NDir ∧ ∀ s, w_fs w !! (cur ++ [c]) ≠ Some (NFile s).
Proof.
  intros Hwf [Hd Hf] Heq. destruct rest as [|c' rest _] using rev_ind.
  - apply app_inj_tail in Heq as [-> ->]. done.
  - rewrite app_comm_cons, app_assoc in Heq. apply app_inj_tail in Heq as [<- _].
    assert (w_fs w !! (cur ++ [c]) = Some NDir) as Hc.
    { destruct rest as [|c1 rest]; [done|]. eapply wf_prefix_dir; [done| | |exact Hd].
      - exists (c1 :: rest). by rewrite <-app_assoc.
      - intros He. apply app_inv_head in He. done. }
    split; [apply (wf_parent _ Hwf) in Hc; apply Hc|]. intros s. by rewrite Hc.
Qed.
Lemma sure_mkdir cur todo :
  cur ++ todo = root ++ [name] → Forall valid_name todo →
  rg (steady ms) R R place (mkdir_thread cur todo) (sure (λ _, place)).
Proof.
  intros Heq Hv. revert cur Heq. induction Hv as [|c todo Hc Hv IH]; intros cur Heq; cbn [mkdir_thread].
  { by apply sure_ret. }
  apply (sure_bind _ _ _ _ _ _ (λ _, place)); [|intros _; apply IH; by rewrite <-app_assoc].
  apply sure_atom; [intros _; apply stable_place|]. intros w [Hwf Hm] Hpl.
  destruct (place_next cur c todo w Hwf Hpl Heq) as [Hcur Hnf'].
  destruct (mkdir_next_adds cur c w) as [Hms _].
  assert (R w (mkdir_next cur c w).2) as HR by (split; apply mkdir_next_made).
  assert (steady ms (mkdir_next cur c w).2) as Hi by (split; [by apply respects_wf_mkdir_next|congruence]).
  split_and!; [done|done|]. pose proof (stable_place w _ (conj Hwf Hm) Hi HR Hpl) as Hpl'.
  revert Hpl'. unfold mkdir_next, bind, gets. cbn.
  destruct (w_fs w !! (cur ++ [c])) as [[|s]|] eqn:Hl; [done|by destruct (Hnf' s)|].
  rewrite Hcur. unfold mkdir_at. by rewrite Hnf.
Qed.
Lemma sure_exists s :
  resolve s = root ++ [name] → s ≠ "" →
  rg (steady ms) R R place (atom (checkPathExistFunc s)) (sure (λ _, place)).
Proof.
  intros Hs Hne. apply sure_atom; [intros _; apply stable_place|]. intros w [Hwf Hm] Hpl.
  rewrite checkPathExist_run. cbn. split_and!; [by split|by split; apply quiet_tame|].
  unfold stat_result. rewrite Hnf, decide_False, Hs by done.
  destruct (w_fs w !! (root ++ [name])) as [x|] eqn:Hx; [done|]. cbn.
  rewrite missing_errno_entry by first [done|apply Hpl]. done.
Qed.
Lemma sure_capacity info :
  (∀ n, ∃ st, statfs n (Path info) = inr st) →
  rg (steady ms) R R place (atom (getVolumeDirCapacity (Path info))) (sure (λ cap w, place w ∧ ∃ n st,
    statfs n (Path info) = inr st ∧ cap = roundDownCapacityPretty (st_capacity (fsStats st)))).
Proof.
  intros Hst. apply sure_atom.
  - intros cap w w' Hi Hi' HR [Hpl ?]. split; [by apply (stable_place w w')|done].
  - intros w [Hwf Hm] Hpl. destruct (Hst (w_tick w)) as [st Hs]. rewrite (getVolumeDirCapacity_ok _ st) by done. cbn.
    split_and!; [by split|by split; apply quiet_tame|done|]. by eexists _, st.
Qed.

(** An accepted creation without a source, when its pool is in place. *)
Lemma sure_create hpc x info :
  accepted hpc x info → snapshotOf x = None → (∀ n, ∃ st, statfs n (Path info) = inr st) →
  root = pool_root info → name = cv_Name x →
  rg (steady ms) R R place (CreateVolume_thread hpc (Some x)) (sure (λ v _, ∃ n st,
    statfs n (Path info) = inr st ∧ v = volume_of hpc x info st)).
Proof.
  intros [Hval Htop Hpool Hname] Hx Hst Hroot Hn.
  assert (resolve (GoPath.Join [Path info; cv_Name x]) = root ++ [name]) as Hres.
  { rewrite Hroot, Hn. by apply resolve_Join. }
  unfold CreateVolume_thread. cbv zeta.
  eapply sure_bind; [by apply sure_checkErr|intros []]. apply rg_deref_bind.
  eapply sure_bind; [by apply sure_checkErr|intros []]. rewrite Hpool.
  eapply sure_bind; [by apply sure_capacity|intros cap].
  eapply rg_weaken; [|intros w _ [Hpl Hc]; exact (conj Hc Hpl)|done]. apply rg_pure. intros (n&st&Hs&->).
  eapply sure_bind; [apply sure_exists; [done|by apply Join_nonempty]|intros b]. rewrite populate_none by done.
  apply (sure_bind _ _ _ _ _ _ (λ _, place)).
  - destruct b; [by apply sure_ret|]. apply sure_wrap. unfold MkdirAll_thread.
    rewrite decide_False by by apply Join_nonempty. apply sure_mkdir; [done|apply resolve_valid].
  - intros []. eapply sure_bind; [by apply (sure_ret _ _ _ _ _ (λ _, place))|]. intros []. apply sure_ret.
    intros w _ _. by exists n, st.
Qed.
End succeed.

Lemma elsewhere_root config ms root name r w w' :
  elsewhere config ms (root ++ [name]) r → steady ms w → confined (footprint config r) w w' → tame root w w'.
Proof.
  intros (_&Hap&Hu) [_ Hm] [_ Hc]. destruct (Hc) with (k := root) as [Hk|(Hk1&Hk2&_)].
  - unfold unmounted. by rewrite Hm.
  - intros (q&Hq&Hpre)%Exists_exists. destruct (Hap q Hq) as [_ Hn]. apply Hn. etrans; [exact Hpre|]. by exists [name].
  - unfold tame. by rewrite Hk.
  - unfold tame. by rewrite Hk1, Hk2.
Qed.

(** C7: When no call fails and the kernel has statistics, an accepted creation without a snapshot
    source, in a pool that is in place and has no regular file under its name, succeeds in every
    interleaving with other creations without a snapshot source, also of the same volume, and with
    requests of any kind whose footprints are apart from it: whatever the others do between its
    calls, its answer is the volume, with the capacity the kernel reported. *)
Theorem concurrent_create_succeeds `{!Env, !FindMnt} hpc (reqs : gmap nat rpc) i x info w c o :
  no_faults → wf_fs (w_fs w) → accepted hpc x info → snapshotOf x = None →
  (∀ n, ∃ st, statfs n (Path info) = inr st) → w_fs w !! pool_root info = Some NDir →
  (∀ s, w_fs w !! (pool_root info ++ [cv_Name x]) ≠ Some (NFile s)) →
  reqs !! i = Some (RCreateVolume (Some x)) →
  (∀ j r, reqs !! j = Some r →
     elsewhere (cfg hpc) (w_mounts w) (pool_root info ++ [cv_Name x]) r ∨
     ∃ x', r = RCreateVolume (Some x') ∧ snapshotOf x' = None) →
  rtc sched (serving hpc reqs w) c → cf_threads c !! i = Some (Stop o) →
  ∃ n st, statfs n (Path info) = inr st ∧ o = Ret (ReplyVolume (volume_of hpc x info st)).
Proof.
  intros Hnf Hwf Hacc Hx Hst Hroot Hfile Hi Hreqs Hs Hans. set (p := pool_root info ++ [cv_Name x]) in *.
  set (G (w w' : world) := tame p w w' ∧ tame (pool_root info) w w').
  assert (PreOrder G) as HG.
  { split; [by intros w1|]. intros w1 w2 w3 [H1 H2] [H3 H4]. split; by etrans. }
  set (Q (j : nat) (o : outcome gerror reply) (w : world) := j = i → ∃ n st,
    statfs n (Path info) = inr st ∧ o = Ret (ReplyVolume (volume_of hpc x info st))).
  assert (pool_rg (steady (w_mounts w)) (λ _, G) (λ _, G) Q (serving hpc reqs w)) as Hpool.
  { apply serving_rg; [done|]. intros j r Hj. destruct (decide (j = i)) as [->|Hne].
    - exists (place (pool_root info) (cv_Name x)). split_and!; [apply stable_place|by split|].
      rewrite Hi in Hj. injection Hj as <-. cbn [thread].
      eapply (rg_weaken _ _ _ _ _ _ (sure (λ v _, ∃ n st,
        statfs n (Path info) = inr st ∧ v = ReplyVolume (volume_of hpc x info st)))); [|done|].
      + eapply sure_bind; [by apply sure_create|]. intros v. apply sure_ret. intros w' _ (n&st&Hs'&->). by exists n, st.
      + intros [v|e|s] w' _ Ho _; [|done..]. destruct Ho as (n&st&?&->). by exists n, st.
    - destruct (Hreqs j r Hj) as [He|(x'&->&Hx')].
      + exists (λ _, True). split_and!; [done..|].
        eapply rg_guarantee; [|eapply rg_weaken; [by apply (within_thread _ _ hpc r), He|done|by intros ???? ?]].
        intros w1 w2 H1 _ Hc. split; [by eapply leaves_tame, elsewhere_leaves|by eapply elsewhere_root].
      + exists (made p []). split_and!.
        * intros w1 w2 H1 H2 [Hr _]. by apply (stable_made (w_mounts w)).
        * split; [done|]. intros Hnil. by rewrite <-Hnil, (wf_root _ Hwf).
        * eapply rg_rely; [|eapply rg_guarantee; [|eapply rg_weaken; [by apply create_answer|done|by intros ???? ?]]].
          -- by intros w1 w2 [? _].
          -- intros w1 w2 _ _ Ht. split; apply Ht. }
  destruct (scheds_same _ _ _ _ _ Hs Hpool) as [Hpool' _]. exact (pool_rg_answer _ _ _ _ _ _ _ Hpool' Hans eq_refl).
Qed.

#[local] Existing Instance demoFindmnt.

(** Creations and deletions of volumes and a snapshot, in turns. *)
Definition demoTraffic : gmap nat rpc :=
  <[0%nat := RCreateVolume (Some (demoRequest "new"))]> (<[1%nat := RCreateVolume (Some (demoRequest "new"))]>
    (<[2%nat := RDeleteVolume (Some "vol2")]> {[3%nat := RCreateSnapshot (Some demoSnapRequest)]})).
Definition trafficTurns : list nat := concat (repeat [0; 1; 2; 3]%nat 60).
Definition demoEnd : conf reply := follow trafficTurns (serving demoBuilt demoTraffic demoPools).

(** The requests of the example stay away from a path. *)
Definition traffic_away (p : GoPath.path) (r : rpc) : bool :=
  bool_decide (Forall (apart p) (footprint (cfg demoBuilt) r)).
Lemma demo_plain i r : demoTraffic !! i = Some r → plain_rpc r.
Proof.
  intros Hr. unfold demoTraffic in Hr. repeat (apply lookup_insert_Some in Hr as [[_ <-]|[_ Hr]]).
  - intros x [= <-]. by_decide.
  - intros x [= <-]. by_decide.
  - exact I.
  - apply lookup_singleton_Some in Hr as [_ <-]. intros x [= <-]. split; by_decide.
Qed.
Lemma demo_elsewhere p i r :
  demoTraffic !! i = Some r → traffic_away p r = true → elsewhere (cfg demoBuilt) (w_mounts demoPools) p r.
Proof.
  intros Hr Haway%bool_decide_eq_true_1.
  split_and!; [by apply (demo_plain i)|by apply Forall_forall|by intros mp ?%not_elem_of_nil].
Qed.

Lemma concurrent_isolation_witness :
  w_fs (cf_world demoEnd) !! ["data"; "vol1"; "disk.img"] = Some (NFile "abc").
Proof.
  destruct (concurrent_isolation demoBuilt demoTraffic ["data"; "vol1"] demoPools demoEnd) as (_&_&Hrel);
    [by_wf| |apply follow_sched|].
  - intros i r Hr. apply (demo_elsewhere _ i); [exact Hr|]. unfold demoTraffic in Hr.
    repeat (apply lookup_insert_Some in Hr as [[_ <-]|[_ Hr]]; [vm_compute; reflexivity|]).
    apply lookup_singleton_Some in Hr as [_ <-]. vm_compute. reflexivity.
  - etransitivity; [exact (Hrel ["disk.img"])|]. vm_compute. reflexivity.
Defined.

Lemma demo_others j r :
  demoTraffic !! j = Some r →
  elsewhere (cfg demoBuilt) (w_mounts demoPools) ["data"; "new"] r ∨
  ∃ x', r = RCreateVolume (Some x') ∧ snapshotOf x' = None.
Proof.
  intros Hr. destruct (traffic_away ["data"; "new"] r) eqn:Ha; [left; by apply (demo_elsewhere _ j)|].
  right. unfold demoTraffic in Hr. repeat (apply lookup_insert_Some in Hr as [[_ <-]|[_ Hr]]).
  - clear Ha. eexists. split; reflexivity.
  - clear Ha. eexists. split; reflexivity.
  - vm_compute in Ha. discriminate Ha.
  - apply lookup_singleton_Some in Hr as [_ <-]. vm_compute in Ha. discriminate Ha.
Qed.

Lemma concurrent_create_witness :
  w_fs (cf_world demoEnd) !! ["data"; "new"] = Some NDir.
Proof.
  assert (∃ v, cf_threads demoEnd !! 0%nat = Some (Stop (Ret v))) as [v Hv] by (eexists; vm_compute; reflexivity).
  apply (concurrent_create demoBuilt demoTraffic 0 (demoRequest "new") demoLegacy v demoPools demoEnd);
    [by_wf|by_decide|reflexivity|vm_compute; reflexivity| |reflexivity|apply demo_others|apply follow_sched|exact Hv].
  intros s. vm_compute. discriminate.
Defined.

Lemma concurrent_create_succeeds_witness :
  ∃ st, cf_threads demoEnd !! 1%nat =
    Some (Stop (Ret (ReplyVolume (volume_of demoBuilt (demoRequest "new") demoLegacy st)))).
Proof.
  assert (∃ o, cf_threads demoEnd !! 1%nat = Some (Stop o)) as [o Ho] by (eexists; vm_compute; reflexivity).
  assert (∃ n st, statfs n (Path demoLegacy) = inr st ∧
    o = Ret (ReplyVolume (volume_of demoBuilt (demoRequest "new") demoLegacy st))) as (n&st&_&Heq).
  { apply (concurrent_create_succeeds demoBuilt demoTraffic 1 (demoRequest "new") demoLegacy demoPools demoEnd o).
    - intros k s n. reflexivity.
    - by_wf.
    - split; [reflexivity..|by_decide].
    - reflexivity.
    - intros n. exists demo_statfs. reflexivity.
    - vm_compute. reflexivity.
    - intros s. vm_compute. discriminate.
    - vm_compute. reflexivity.
    - apply demo_others.
    - apply follow_sched.
    - exact Ho. }
  exists st. rewrite <-Heq. exact Ho.
Defined.
