(* ===== verification/ConcurrentDelete.v ===== *)
(** * Deletion among other requests

    A deletion of a volume that runs while requests about other volumes and
    about snapshots are served: it reads the pools one after another, and
    whatever the others do in between it succeeds and the volume is gone. *)
From S2P Require Import Prelude GoStrings GoPath GoErrors OS OSFacts Demo Csi Utils Health Reflink.
From S2P Require Import ReflinkFacts ControllerServer ControllerFacts ControllerProps ControllerSnap.
From S2P Require Import FindMnt NodeServer NodeFacts Driver System Catalog CatalogSpec CatalogTrace.
From S2P Require Import Threads HandlerThreads ConcurrentReach.
From stdpp Require Import relations.
Open Scope Z_scope.

Section delete.
Context `{!Env} (Hnf : no_faults) (hpc : hostPathController) (ms : list MountPoint) (id : string).
Context (Hid : valid_name id).
(** What every pool has under the name at the start. *)
Context (at_start : GoPath.path → option node).
Abbreviation pool_of := (λ info, ∃ pool, StoragePools (cfg hpc) !! pool = Some info).

(** The others leave the name alone in every pool, and the pools in place. *)
Definition spares (w w' : world) : Prop := ∀ info, pool_of info →
  w_fs w' !! (pool_root info ++ [id]) = w_fs w !! (pool_root info ++ [id]) ∧ tame (pool_root info) w w'.

(** The pools are in place and have what they had at the start. *)
Definition untouched (w : world) : Prop := ∀ info, pool_of info →
  Path info ≠ "" ∧ w_fs w !! pool_root info = Some NDir ∧ w_fs w !! (pool_root info ++ [id]) = at_start (pool_root info).
(** The name is not there any more. *)
Definition gone (w : world) : Prop := ∀ info, pool_of info → w_fs w !! (pool_root info ++ [id]) ≠ Some NDir.

Abbreviation del_rg := (rg (steady ms) spares (λ _ _, True)).

Lemma stable_untouched : stable (steady ms) spares untouched.
Proof.
  intros w w' _ _ HR Hu info Hp. destruct (Hu info Hp) as (Hne&Hd&Hs), (HR info Hp) as [Heq [Hk _]].
  split_and!; [done|by apply Hk|congruence].
Qed.
Lemma stable_gone : stable (steady ms) spares gone.
Proof. intros w w' _ _ HR Hg info Hp. destruct (HR info Hp) as [-> _]. by apply Hg. Qed.

(** What has been found when some pools have been read. *)
Definition found (done : list (string * StoragePoolInfo)) (dirs : list string) : Prop :=
  Forall (λ d, ∃ info c, pool_of info ∧ valid_name c ∧ d = GoPath.Join [Path info; c] ∧
                 (c = id → at_start (pool_root info) = Some NDir)) dirs ∧
  ∀ kv, kv ∈ done → at_start (pool_root kv.2) = Some NDir → GoPath.Join [Path kv.2; id] ∈ dirs.

Lemma readPool_found done dirs kv w :
  wf_fs (w_fs w) → untouched w → found done dirs → pool_of kv.2 →
  ∃ dirs', readPoolDirectories dirs kv w = (Ret dirs', tickw w) ∧ found (done ++ [kv]) dirs'.
Proof.
  intros Hwf Hu [Hd Hf] Hkv. destruct (Hu kv.2 Hkv) as (Hne&Hdir&Hat). unfold readPoolDirectories.
  rewrite (run_bind_ret _ _ _ _ _ (ReadDir_found Hnf _ _ Hne Hdir)). eexists. split; [reflexivity|]. split.
  - apply Forall_app. split; [done|]. apply Forall_forall.
    intros d ([c n]&->&[Hn Hin]%list_elem_of_filter)%list_elem_of_fmap. apply elem_of_entries in Hin.
    exists kv.2, c. split_and!; [done|by eapply (wf_parent _ Hwf)|done|].
    intros ->. rewrite <-Hat. unfold pool_root. rewrite Hin. by destruct n.
  - intros kv' [Hin| ->%list_elem_of_singleton]%elem_of_app Hs; apply elem_of_app; [left; by apply Hf|right].
    apply list_elem_of_fmap. exists (id, NDir). split; [done|]. apply list_elem_of_filter. split; [done|].
    apply elem_of_entries. rewrite <-Hs, <-Hat. done.
Qed.
Lemma del_fold todo done dirs :
  (∀ kv, kv ∈ todo → pool_of kv.2) → found done dirs →
  del_rg untouched (foldP (λ dirs kv, atom (readPoolDirectories dirs kv)) dirs todo)
    (sure (λ dirs w, found (done ++ todo) dirs ∧ untouched w)).
Proof.
  revert done dirs. induction todo as [|kv todo IH]; intros done dirs Hp Hf; cbn [foldP].
  { apply sure_ret. intros w _ Hu. by rewrite app_nil_r. }
  eapply (sure_bind _ _ _ _ _ _ (λ dirs' w, found (done ++ [kv]) dirs' ∧ untouched w)).
  - apply sure_atom.
    { intros dirs' w w' Hi Hi' HR [? ?]. split; [done|]. by apply (stable_untouched w w'). }
    intros w [Hwf Hm] Hu. destruct (readPool_found done dirs kv w) as (dirs'&->&Hf'); [done..|apply Hp; left|].
    cbn. by split_and!.
  - intros dirs'. apply rg_pure. intros Hf'. replace (done ++ kv :: todo) with ((done ++ [kv]) ++ todo)
      by by rewrite <-app_assoc. apply IH; [|done]. intros kv' Hkv'. apply Hp. by right.
Qed.
Lemma del_directories :
  del_rg untouched (getDirectories_thread (StoragePools (cfg hpc)))
    (sure (λ dirs w, found (map_to_list (StoragePools (cfg hpc))) dirs ∧ untouched w)).
Proof.
  unfold getDirectories_thread.
  eapply (sure_bind _ _ _ _ _ _ (λ pools w, pools ≡ₚ map_to_list (StoragePools (cfg hpc)) ∧ untouched w)).
  { apply sure_atom; [intros l w w' Hi Hi' HR [? ?]; split; [done|]; by apply (stable_untouched w w')|].
    intros w [Hwf Hm] Hu. cbn. split_and!; [by split|done|apply range_order_perm|done]. }
  intros pools. apply rg_pure. intros Hperm. eapply sure_bind.
  - apply (del_fold pools [] []).
    + intros [pool info]. rewrite Hperm. intros Hin%elem_of_map_to_list. by exists pool.
    + split; [constructor|]. by intros kv ?%not_elem_of_nil.
  - intros dirs. apply rg_pure. intros [Hd Hf]. apply sure_ret. intros w _ Hu. split; [split|done].
    + apply Forall_forall. intros d. rewrite elem_of_sort_Strings. by apply (proj1 (Forall_forall _ _) Hd).
    + intros kv Hkv Hs. rewrite elem_of_sort_Strings. apply Hf; [|done]. cbn. by rewrite Hperm.
Qed.

(** The name is in one place at most, and nothing is mounted there. *)
Context (Hone : ∀ info info', pool_of info → pool_of info' →
  at_start (pool_root info) = Some NDir → at_start (pool_root info') = Some NDir → pool_root info = pool_root info').
Context (Hms : ∀ info, pool_of info → mounts_below (pool_root info ++ [id]) ms = []).

Lemma found_path dirs :
  found (map_to_list (StoragePools (cfg hpc))) dirs →
  (findVolumePath id dirs = "" ∧ ∀ info, pool_of info → at_start (pool_root info) ≠ Some NDir) ∨
  ∃ info, pool_of info ∧ at_start (pool_root info) = Some NDir ∧ findVolumePath id dirs ≠ "" ∧
    findVolumePath id dirs = GoPath.Join [Path info; id].
Proof.
  intros [Hd Hf]. pose proof (proj1 (Forall_forall _ _) Hd) as Hd'.
  destruct (findVolumePath_spec id dirs) as [[Hn Hall]|[(Hn&Hin&Hb)|[_ Hin]]].
  - left. split; [done|]. intros info [pool Hp] Hs. rewrite Forall_forall in Hall.
    destruct (Hall _ (Hf (pool, info) (proj2 (elem_of_map_to_list _ _ _) Hp) Hs)) as [Hx|Hx].
    + by rewrite Base_Join in Hx.
    + by apply (Join_nonempty (Path info) id).
  - right. destruct (Hd' _ Hin) as (info&c&Hp&Hc&Heq&Hs). rewrite Heq, Base_Join in Hb by done. subst c.
    exists info. split_and!; [done|by apply Hs|done|done].
  - destruct (Hd' _ Hin) as (info&c&Hp&Hc&Heq&_). by destruct (Join_nonempty (Path info) c Hc).
Qed.

Lemma del_thread :
  del_rg untouched (DeleteVolume_thread hpc (Some id)) (sure (λ _, gone)).
Proof.
  unfold DeleteVolume_thread. cbv zeta.
  eapply sure_bind; [apply sure_checkErr, validateDelete_ok; apply Hid|intros []]. apply rg_deref_bind.
  eapply sure_bind; [apply del_directories|]. intros dirs. apply rg_pure. intros Hfound.
  destruct (found_path dirs Hfound) as [[-> Hnone]|(info&Hp&Hs&Hne&Heq)].
  { rewrite decide_True by done. apply sure_ret. intros w _ Hu info Hp. destruct (Hu info Hp) as (_&_&->). by apply Hnone. }
  rewrite decide_False by done. rewrite Heq, Dir_Join by done. apply sure_wrap, sure_atom; [intros _; apply stable_gone|].
  intros w [Hwf Hm] Hu. destruct (Hu info Hp) as (_&_&Hat).
  assert (resolve (Clean (Path info)) ++ [id] = pool_root info ++ [id]) as Hres by by rewrite resolve_Clean.
  rewrite (Utils_DeleteVolume_ok Hnf) by (done || rewrite Hres; first [congruence | rewrite Hm; by apply Hms]).
  cbn. rewrite Hres. split_and!; [split; [|done]; by apply wf_rm_tree; [apply snoc_not_nil|]|done|].
  intros info' Hp'. cbn. rewrite lookup_rm_tree. case_decide as Hpre; [done|].
  destruct (Hu info' Hp') as (_&_&->). intros Hs'. apply Hpre. by rewrite (Hone info info').
Qed.
End delete.

(** C8: When no call fails, the deletion of a volume succeeds in every interleaving with requests about
    other volumes and snapshots, and from its answer on no pool has a volume of the name: although it
    reads the pools one after another while they change, and provided that at most one pool had the
    volume. *)
Theorem concurrent_delete `{!Env, !FindMnt} hpc (reqs : gmap nat rpc) i id w c o :
  no_faults → wf_fs (w_fs w) → valid_name id →
  (∀ pool info, StoragePools (cfg hpc) !! pool = Some info →
     Path info ≠ "" ∧ w_fs w !! pool_root info = Some NDir ∧ mounts_below (pool_root info ++ [id]) (w_mounts w) = []) →
  (∀ pool info pool' info', StoragePools (cfg hpc) !! pool = Some info → StoragePools (cfg hpc) !! pool' = Some info' →
     w_fs w !! (pool_root info ++ [id]) = Some NDir → w_fs w !! (pool_root info' ++ [id]) = Some NDir →
     pool_root info = pool_root info') →
  reqs !! i = Some (RDeleteVolume (Some id)) →
  (∀ j r, reqs !! j = Some r → j ≠ i → plain_rpc r ∧
     ∀ pool info, StoragePools (cfg hpc) !! pool = Some info →
       elsewhere (cfg hpc) (w_mounts w) (pool_root info ++ [id]) r) →
  rtc sched (serving hpc reqs w) c → cf_threads c !! i = Some (Stop o) →
  o = Ret ReplyDone ∧ ∀ pool info, StoragePools (cfg hpc) !! pool = Some info →
    w_fs (cf_world c) !! (pool_root info ++ [id]) ≠ Some NDir.
Proof.
  intros Hnf Hwf Hid Hpools Hone Hi Hreqs Hs Hans.
  set (R (k : nat) (w w' : world) := k = i → spares hpc id w w').
  set (G (k : nat) (w w' : world) := k ≠ i → spares hpc id w w').
  set (Q (k : nat) (o : outcome gerror reply) (w : world) := k = i → o = Ret ReplyDone ∧ gone hpc id w).
  set (start := λ p, w_fs w !! (p ++ [id])).
  assert (pool_rg (steady (w_mounts w)) R G Q (serving hpc reqs w)) as Hpool.
  { split; [by split|]. cbn. intros j p Hp. apply lookup_fmap_Some in Hp as (r&<-&Hj).
    destruct (decide (j = i)) as [->|Hne].
    - exists (untouched hpc id start). split_and!.
      + intros w1 w2 H1 H2 HR. by apply (stable_untouched hpc (w_mounts w) id start), HR.
      + intros info [pool Hp]. by destruct (Hpools pool info Hp) as (?&?&_).
      + rewrite Hi in Hj. injection Hj as <-. cbn [thread].
        eapply rg_rely; [intros w1 w2 HR; exact (HR eq_refl)|].
        eapply rg_guarantee; [|eapply (rg_weaken _ _ _ _ _ _ (sure (λ v w', v = ReplyDone ∧ gone hpc id w')));
          [eapply sure_bind; [apply (del_thread Hnf hpc (w_mounts w) id Hid start)|]|done|]].
        * by intros w1 w2 _ _ _ [].
        * intros info info' [pool Hp] [pool' Hp']. by apply (Hone pool info pool' info').
        * intros info [pool Hp]. by apply (Hpools pool info Hp).
        * intros []. by apply sure_ret.
        * intros [v|e|s] w' _ Ho _; [|done..]. by destruct Ho as [-> ?].
    - exists (λ _, True). split_and!; [done..|]. destruct (Hreqs j r Hj Hne) as [Hplain He].
      eapply rg_guarantee; [|eapply rg_weaken; [by apply (within_thread _ _ hpc r)|done|by intros ???? ?]].
      intros w1 w2 H1 _ Hc _ info [pool Hp]. specialize (He pool info Hp). split; [|by eapply elsewhere_root].
      destruct (elsewhere_leaves _ _ _ _ _ _ He H1 Hc) as [_ Hl]. specialize (Hl []). by rewrite app_nil_r in Hl. }
  assert (pool_rg (steady (w_mounts w)) R G Q c) as Hpool'.
  { eapply scheds_rg; [|exact Hs|exact Hpool]. intros k j w1 w2 Hkj Hg ->. by apply Hg. }
  destruct (pool_rg_answer _ _ _ _ _ _ _ Hpool' Hans eq_refl) as [-> Hg]. split; [done|].
  intros pool info Hp. apply Hg. by exists pool.
Qed.

#[local] Existing Instance demoFindmnt.

Lemma demo_pool pool info :
  StoragePools (cfg demoBuilt) !! pool = Some info → info = demoLegacy ∨ info = demoFast.
Proof.
  change (cfg demoBuilt) with demoConfig. cbn. intros Hp.
  apply lookup_insert_Some in Hp as [[_ <-]|[_ Hp]]; [by left|].
  apply lookup_singleton_Some in Hp as [_ <-]. by right.
Qed.

Lemma concurrent_delete_witness : w_fs (cf_world demoEnd) !! ["data"; "vol2"] ≠ Some NDir.
Proof.
  assert (∃ o, cf_threads demoEnd !! 2%nat = Some (Stop o)) as [o Ho] by (eexists; vm_compute; reflexivity).
  destruct (concurrent_delete demoBuilt demoTraffic 2 "vol2" demoPools demoEnd o) as [_ Hgone].
  - intros k s n. reflexivity.
  - by_wf.
  - by_decide.
  - intros pool info [-> | ->]%demo_pool; (split; [by_decide|split; vm_compute; reflexivity]).
  - intros pool info pool' info' [-> | ->]%demo_pool [-> | ->]%demo_pool H1 H2; vm_compute in H1, H2 |- *;
      first [reflexivity|discriminate H1|discriminate H2].
  - vm_compute. reflexivity.
  - intros j r Hr Hne. assert (∀ p, traffic_away p r = true → elsewhere (cfg demoBuilt) (w_mounts demoPools) p r) as He
      by (intros p; by apply (demo_elsewhere p j)).
    split; [by apply (demo_plain j)|]. intros pool info [-> | ->]%demo_pool; apply He; clear He;
      unfold demoTraffic in Hr; repeat (apply lookup_insert_Some in Hr as [[Hj <-]|[_ Hr]];
        [first [vm_compute; reflexivity|exfalso; apply Hne; symmetry; exact Hj]|]);
      apply lookup_singleton_Some in Hr as [_ <-]; vm_compute; reflexivity.
  - apply follow_sched.
  - exact Ho.
  - apply (Hgone "legacy" demoLegacy). vm_compute. reflexivity.
Defined.
